(* ===== verification/_CoqProject ===== *)
-Q . S2P
Prelude.v
GoRuntime.v
GoBytes.v
GoStrings.v
GoText.v
Grpc.v
GoFS.v
Record.v
MemStore.v
Command.v
Wal.v
Snapshot.v
Store.v
StoreLaws.v
StoreRun.v
StoreSnap.v
StoreRefine.v
StoreSim.v
Server.v
Standalone.v
RaftTypes.v
Membership.v
RaftLaws.v
RaftFiles.v
RaftFilesLaws.v
Core.v
CoreVotes.v
RaftSpec.v
CoreLog.v
CoreRefine.v
CoreSteps.v
CoreElections.v
CoreReplicate.v
CoreSnapshot.v
CoreReads.v
Node.v
NodeApi.v
Transport.v
System.v
KvStateMachine.v
KvService.v
Sharding.v
Cli.v
ServerMain.v
Checker.v
Nemesis.v
Proxy.v
Storm.v
HistoryFile.v
Proc.v
Cluster.v
NodeRefine.v
NodeReads.v
StateSafety.v
ReadSafety.v
Repair.v
ClusterSim.v
SystemSim.v
Ticker.v
RaftSim.v
SafetySim.v
ReadSim.v
RepairSim.v
