(* ===== verification/Prelude.v ===== *)
(** * raftkv: a verification library for the replicated key-value store

    raftkv is a key-value store written in Go.  A standalone server keeps one
    map behind a write-ahead log; a cluster keeps the map in sharded Raft groups,
    each node running an event loop around a consensus core; a command-line
    client follows leader hints; a harness injects faults and checks recorded
    histories.  This library translates the program into executable functions
    and proves what makes its parts correct.

    ** How the program is modelled

    A function that mutates a struct and may fail is a value of [M S A], from a
    state [S] to an outcome and a state: a result ([Ok]), an error ([Err]), a
    panic ([Panic]) or the machine stopping in the middle of a system call
    ([Crash]).  Its specification is [wp], a weakest precondition
    over all four.  Integers keep their width ([u64], [u32], [i64]); byte slices
    and strings are lists of bytes; maps are [gmap]s, a nil map a [None].  What
    the language leaves open (the order of a map iteration, random draws) is the
    class [GoRuntime], and every theorem holds for all its instances.

    - Generic: Prelude (this file: machine integers, record update, the
      outcome monad and its rules), GoRuntime, GoBytes (encoding/binary, crc32,
      fnv), GoStrings and GoText (fmt, strconv, strings), Grpc (status codes),
      GoFS (files, directories, faults and crashes).
    - internal/record and internal/storage: Record, MemStore, Command, Wal,
      Snapshot and Store translate the files of the same names.  StoreLaws, StoreRun and
      StoreSnap prove the invariant of the directory of a store;
      StoreRefine the refinement of an atomic map; StoreSim runs it.
    - internal/server: Server, against the interface [KVStore]; Standalone runs it
      from start to shutdown (cmd/server/main.go's runStandalone), life after life.
    - internal/raft: RaftTypes (messages, entries and the storage interface
      [RaftDisk]), Membership (membership.go's codecs), RaftFiles (state.go,
      log.go and the files of raftsnap.go), Core (core.go, replication.go,
      leadership.go, readindex.go, the core's part of membership.go and
      raftsnap.go), Node (node.go's event loop), NodeApi (node.go's entry
      points, as goroutines), Transport (transport.go, service.go).  RaftLaws is
      the contract of the storage interface; RaftFilesLaws proves it of the
      files; CoreVotes proves what every handler of the core keeps; Cluster puts
      nodes on a network; System puts goroutines around one node.
    - Raft as a protocol: RaftSpec is an abstract Raft with its safety argument.
      CoreLog and CoreRefine relate the core to it; CoreSteps, CoreElections,
      CoreReplicate and CoreSnapshot show each handler to be steps of it, NodeRefine
      each event of a node, StateSafety each step of the cluster.  CoreReads and
      NodeReads follow one read barrier (readindex.go) through every handler and
      event, ReadSafety through a run of the cluster.  Repair is the exchange of a
      leader with one follower.  ClusterSim, SystemSim, RaftSim, SafetySim, ReadSim
      and RepairSim compute runs.
    - internal/kvraft: KvStateMachine (statemachine.go), KvService (service.go),
      Sharding (sharding.go), Ticker (sharding.go's shared clock and shutdown,
      around the systems of System).
    - cmd: Cli (cmd/cli/main.go), ServerMain (cmd/server/main.go).
    - internal/nemesis: Checker (checker.go); Nemesis (history.go's clock,
      proxy.go's edges, workload.go's operations and bookkeeping); Proxy (proxy.go's
      goroutines and connections); Storm (workload.go's clients against the
      replicated state machine); HistoryFile (history.go's file); Proc (proc.go,
      proc_unix.go).

    ** Disks and crashes

    GoFS gives every call three outcomes, chosen by a list of faults: it works,
    it fails (a write after any prefix of its bytes), or the machine stops in
    it.  After a power cut a file holds some prefix of its bytes that contains
    what was fsynced, and the directory reflects some prefix of the operations
    since the last fsync of a directory, and what it holds is durable.  The kill of a
    process loses nothing: for a node's disk ([reboot]) what was not durable stays so
    until an fsync, and a later power cut may still lose it; for the store it is the
    crash that keeps everything, after which everything counts as durable, so a kill
    followed by a power cut that loses what the kill had left is not covered there.
    Fsyncing a directory commits the one journal of directory operations,
    as journaling file systems do.  Recovery theorems quantify over the list of
    faults, that is over the place and the kind of the crash.

    ** What the theorems show

    - The durable store (StoreRefine) behaves as one atomic map through every
      sequence of calls, crashes at any system call and boots, and never
      refuses what it left itself; over all the lives of its process the
      standalone server answers as the same service on a plain map would
      (Standalone); with I/O errors too, a Put is answered truthfully (Server).  Record.WriteFileAtomic is atomic and durable; record framing and the
      command encoding are round trips, and parsing rejects every torn record.
    - A node's vote and log files (RaftFilesLaws) survive crashes at every call.
    - A cluster has at most one leader per term (Cluster), for nodes running the
      whole event loop on such disks, over a network that loses, delays,
      duplicates and reorders, as long as the membership does not change.
    - Under the same conditions, with machines that come up on durable disks
      ([settled]) and in runs whose worlds are [sane] (terms and indices short of
      the end of their range, and no commit index that went back behind what was
      delivered, which a delayed message can make it do), the cluster refines
      RaftSpec: Log Matching, Leader Completeness and State Machine Safety
      (StateSafety).  A leader repairs the log of a follower in finitely many
      messages when it handles one answer at a time, without an error if their disks
      work ([WorkingDisk]; Repair).
    - In the same runs, while the counters of messages and barriers have room
      ([roomy]), reads are linearizable (ReadSafety): the answer to a read barrier
      covers everything any node had applied before the barrier was requested, and
      the node that answers has applied it.
    - The loop of a node never sends twice on a reply channel (System), so it
      never blocks, whatever its callers do; the transport never uses a
      connection to a stale address (Transport).
    - The replicated state machine executes every client's write once
      (KvStateMachine), its snapshots are round trips, the shards together are
      one map and every key is routed in range (Sharding); the groups hear the same
      ticks, and a stopped server has no running loop (Ticker).
    - The client reaches the leader, never panics, and reports success only for
      an answer to its own request (Cli).  Flags parse as they print (ServerMain).
    - The checker and the workload raise no false alarm where they claim not to
      (Checker, Storm), the recorder's clock is strictly monotonic as long as it stays in the int64 range, and a partition
      cuts exactly the edges between its groups (Nemesis), an edge forwards in order
      and leaks no connection, a cut edge carries nothing (Proxy), a history that was
      written is read back (HistoryFile), and a killed process is gone (Proc).
    - Reachable states show where the code does less than it means to: a crash
      during compaction after which no boot of the node ever succeeds, two membership
      changes after which replicas diverge, by the steps of a cluster whose members
      change (RaftSim), two refusals of one request after which
      a leader sends its snapshot forever or a follower halts (RepairSim), a group
      with a full queue that stops the clock of the others after at most one more tick
      (Ticker), a pin of the shard count lost to a
      power cut (Sharding), a session's write with serial 0 that is acknowledged and dropped
      (KvService), a timed-out delete reported as a violation (Checker).

    ** Bounds and fuel

    The loops of the sources are structural recursion over the data they
    consume; where they are not (parsing a byte stream, printing a number), the
    fuel is the length of the input, and the theorems state the result, not only
    that a result is right if there is one.  The exchange of Repair has fuel for twice
    the leader's last index and one message more, which is shown to be enough.  Terms, indices and sequence numbers
    are 64-bit: theorems that need it say that they stay below [2 ^ 64].

    ** Code outside the repository

    encoding/gob ([Gob]: decoding what was encoded gives it back), the text of
    operating-system errors ([ErrText]), the Porcupine search ([Porcupine]: its
    verdict is right when it does not time out), encoding/json ([Json]: an object is
    one line, and decoding gives back operations of plain text), and
    [grpc.NewClient] (the function that dials) are arguments of the definitions that use them; each
    class has an instance in the library.

    ** Not modelled

    Generated protobuf code and the wire: messages are records.  The listener and
    the signals of the server command (serveUntilSignal), and what runCluster does
    once it serves: the requests are those of System and Cluster.  proc_windows.go,
    which calls an undocumented interface of a kernel.  Logging.  Elapsed time: a
    tick, a timeout, a delay and a cancelled context are events that may happen at
    any moment. *)

From stdpp Require Import prelude gmap strings.
#[export] Set Default Goal Selector "!".
Open Scope Z_scope.

(** ** Record update

    The sources mutate the fields of large structs one at a time
    ([c.term++], [c.votedFor = noVote]).  [set f g r] applies [g] to the field
    [f] of [r] and keeps every other field; [r <| f := v |>] writes one. *)

Class Settable (R : Type) := eta : R → R.
Class Setter {R T : Type} (proj : R → T) := set : (T → T) → R → R.
Arguments set {R T} proj {_} _ _.

(** Builds the setter of one projection from the eta-expansion of its record:
    the occurrence of the projection is abstracted and replaced. *)
Ltac solve_setter :=
  lazymatch goal with
  | |- @Setter ?R ?T ?proj =>
      let e := constr:(_ : Settable R) in
      let e := eval hnf in e in
      let f := eval pattern proj in e in
      lazymatch f with
      | ?g _ =>
          let s := eval cbv beta in (fun upd r => g (fun c => upd (proj c)) r) in
          exact s
      end
  end.

Declare Scope record_scope.
Delimit Scope record_scope with rec.
Notation "x <| proj := v |>" := (set proj (λ _, v) x)
  (at level 1, left associativity, proj at level 99, v at level 200,
   format "x  <| proj  :=  v |>") : record_scope.
Notation "x <| proj ::= f |>" := (set proj f x)
  (at level 1, left associativity, proj at level 99, f at level 200,
   format "x  <| proj  ::=  f |>") : record_scope.
Open Scope record_scope.

(** ** Machine integers

    A Go [uint64] is an integer in [0, 2^64); arithmetic wraps.  [int] is the
    64-bit signed type. *)

Definition u64 (z : Z) : Z := z mod 2 ^ 64.
Definition u32 (z : Z) : Z := z mod 2 ^ 32.
Definition i64 (z : Z) : Z := (z + 2 ^ 63) mod 2 ^ 64 - 2 ^ 63.

Definition is_u64 (z : Z) : Prop := 0 ≤ z < 2 ^ 64.
Definition is_u32 (z : Z) : Prop := 0 ≤ z < 2 ^ 32.

Lemma u64_small z : is_u64 z → u64 z = z.
Proof. intros; unfold u64; by apply Z.mod_small. Qed.

Lemma u32_small z : is_u32 z → u32 z = z.
Proof. intros; unfold u32; by apply Z.mod_small. Qed.

Lemma i64_small z : - 2 ^ 63 ≤ z < 2 ^ 63 → i64 z = z.
Proof. intros; unfold i64. rewrite Z.mod_small; lia. Qed.

Lemma u64_range z : is_u64 (u64 z).
Proof. unfold is_u64, u64. apply Z.mod_pos_bound. lia. Qed.

Lemma u32_range z : is_u32 (u32 z).
Proof. unfold is_u32, u32. apply Z.mod_pos_bound. lia. Qed.

(** ** Errors and effects

    [error] lists the error values the code distinguishes; an error built by
    [fmt.Errorf] keeps its format string only. *)

Inductive error : Type :=
  | EIO                               (* any operating-system I/O error *)
  | ENotExist                         (* os.IsNotExist *)
  | EExist                            (* O_EXCL on an existing file *)
  | EMsg (fmt : string)               (* errors.New / fmt.Errorf *)
  | EWrap (fmt : string) (e : error)  (* fmt.Errorf("...: %w", e) *)
  | EWALFailed                        (* storage.errWALFailed *)
  | ELogFailed                        (* raft.errLogFailed *)
  | EPersistFailure (e : error)       (* wraps raft.errPersistFailure *)
  | ENotLeader (leaderID : Z)         (* raft.NotLeaderError *)
  | ELeaderNotReady                   (* raft.ErrLeaderNotReady *)
  | EProposalLost                     (* raft.ErrProposalLost *)
  | EStopped                          (* raft.ErrStopped *)
  | EDeadlineExceeded                 (* context.DeadlineExceeded *)
  | ECanceled.                        (* context.Canceled *)

(** The outcome of running a piece of code: it returns a value, returns an
    error, panics (a Go run-time panic), or the machine stops in the middle. *)
Inductive outcome (A : Type) : Type :=
  | Ok (a : A)
  | Err (e : error)
  | Panic
  | Crash.
Arguments Ok {A} a.
Arguments Err {A} e.
Arguments Panic {A}.
Arguments Crash {A}.

#[export] Instance outcome_ret : MRet outcome := λ A a, Ok a.
#[export] Instance outcome_bind : MBind outcome := λ A B k m,
  match m with Ok a => k a | Err e => Err e | Panic => Panic | Crash => Crash end.

(** Stateful code: the state is returned whatever the outcome, because a Go
    method that fails keeps the mutations it made before it failed. *)
Definition M (S A : Type) : Type := S → outcome A * S.

#[export] Instance M_ret {S} : MRet (M S) := λ A a s, (Ok a, s).
#[export] Instance M_bind {S} : MBind (M S) := λ A B k m s,
  match m s with
  | (Ok a, s') => k a s'
  | (Err e, s') => (Err e, s')
  | (Panic, s') => (Panic, s')
  | (Crash, s') => (Crash, s')
  end.

Definition get {S} : M S S := λ s, (Ok s, s).
Definition gets {S A} (f : S → A) : M S A := λ s, (Ok (f s), s).
Definition modify {S} (f : S → S) : M S () := λ s, (Ok (), f s).
Definition throw {S A} (e : error) : M S A := λ s, (Err e, s).
Definition panic {S A} : M S A := λ s, (Panic, s).
Definition lift {S A} (o : outcome A) : M S A := λ s, (o, s).
Definition when {S} (b : bool) (m : M S ()) : M S () := if b then m else mret ().

(** [if err := m; err != nil { ... }]: the error becomes a value; a panic or a
    crash cannot be caught. *)
Definition attempt {S A} (m : M S A) : M S (A + error) := λ s,
  match m s with
  | (Ok a, s') => (Ok (inl a), s')
  | (Err e, s') => (Ok (inr e), s')
  | (Panic, s') => (Panic, s')
  | (Crash, s') => (Crash, s')
  end.

(** [return fmt.Errorf("...: %w", err)] *)
Definition wrap {S A} (fmt : string) (m : M S A) : M S A := λ s,
  match m s with
  | (Err e, s') => (Err (EWrap fmt e), s')
  | r => r
  end.

(** [for _, x := range l { f(x) }] *)
Fixpoint for_each {S A} (l : list A) (f : A → M S ()) : M S () :=
  match l with
  | [] => mret ()
  | x :: l' => f x ;; for_each l' f
  end.

(** Running code on a component of the state. *)
Definition zoom {S T A} (proj : S → T) `{!Setter proj} (m : M T A) : M S A := λ s,
  let '(o, t) := m (proj s) in (o, s <| proj := t |>).

(** ** Weakest preconditions

    [wp m Q s]: running [m] from [s] ends in an outcome and a state related by
    [Q].  Every run ends, so this is total correctness. *)

Definition wp {S A} (m : M S A) (Q : outcome A → S → Prop) (s : S) : Prop :=
  Q (m s).1 (m s).2.

(** The postcondition of a sequence: [k] continues after [Ok], every other
    outcome is final. *)
Definition wpk {S A B} (k : A → M S B) (Q : outcome B → S → Prop)
    (o : outcome A) (s : S) : Prop :=
  match o with
  | Ok a => wp (k a) Q s
  | Err e => Q (Err e) s
  | Panic => Q Panic s
  | Crash => Q Crash s
  end.

Section wp_rules.
Context {S : Type}.

Lemma wp_elim {A} (m : M S A) Q s o s' : wp m Q s → m s = (o, s') → Q o s'.
Proof. unfold wp. intros H Heq. by rewrite Heq in H. Qed.

Lemma wp_intro {A} (m : M S A) (Q : outcome A → S → Prop) s :
  (∀ o s', m s = (o, s') → Q o s') → wp m Q s.
Proof. unfold wp. intros H. apply H. by destruct (m s). Qed.

Lemma wp_mono {A} (m : M S A) (P Q : outcome A → S → Prop) s :
  wp m P s → (∀ o s', P o s' → Q o s') → wp m Q s.
Proof. unfold wp. auto. Qed.

Lemma wp_and {A} (m : M S A) (P Q : outcome A → S → Prop) s :
  wp m P s → wp m Q s → wp m (λ o s', P o s' ∧ Q o s') s.
Proof. by split. Qed.

Lemma wp_bind {A B} (m : M S A) (k : A → M S B) Q s :
  wp m (wpk k Q) s → wp (m ≫= k) Q s.
Proof.
  unfold wp, wpk, mbind, M_bind. destruct (m s) as [[a|e| |] s']; auto.
Qed.

(** Running a sequence whose first part is known. *)
Lemma bind_ok {A B} (m : M S A) (k : A → M S B) s a s' :
  m s = (Ok a, s') → (m ≫= k) s = k a s'.
Proof. intros H. unfold mbind, M_bind. by rewrite H. Qed.

Lemma attempt_ok {A} (m : M S A) s a s' : m s = (Ok a, s') → attempt m s = (Ok (inl a), s').
Proof. intros H. unfold attempt. by rewrite H. Qed.

Lemma wp_ret {A} (a : A) Q (s : S) : Q (Ok a) s → wp (mret a) Q s.
Proof. done. Qed.
Lemma wp_get Q (s : S) : Q (Ok s) s → wp get Q s.
Proof. done. Qed.
Lemma wp_gets {A} (f : S → A) Q s : Q (Ok (f s)) s → wp (gets f) Q s.
Proof. done. Qed.
Lemma wp_modify (f : S → S) Q s : Q (Ok ()) (f s) → wp (modify f) Q s.
Proof. done. Qed.
Lemma wp_throw {A} e Q (s : S) : Q (Err e) s → wp (throw (A:=A) e) Q s.
Proof. done. Qed.
Lemma wp_panic {A} Q (s : S) : Q Panic s → wp (panic (A:=A)) Q s.
Proof. done. Qed.
Lemma wp_lift {A} (o : outcome A) Q (s : S) : Q o s → wp (lift o) Q s.
Proof. done. Qed.

Lemma wp_when b (m : M S ()) Q s :
  (b = true → wp m Q s) → (b = false → Q (Ok ()) s) → wp (when b m) Q s.
Proof. destruct b; intros; [auto|apply wp_ret; auto]. Qed.

Lemma wp_if {A} (b : bool) (m n : M S A) Q s :
  (b = true → wp m Q s) → (b = false → wp n Q s) → wp (if b then m else n) Q s.
Proof. destruct b; auto. Qed.

Lemma wp_attempt {A} (m : M S A) (Q : outcome (A + error) → S → Prop) s :
  wp m (λ o s', match o with
                | Ok a => Q (Ok (inl a)) s'
                | Err e => Q (Ok (inr e)) s'
                | Panic => Q Panic s'
                | Crash => Q Crash s'
                end) s →
  wp (attempt m) Q s.
Proof. unfold wp, attempt. destruct (m s) as [[a|e| |] s']; auto. Qed.

Lemma wp_wrap {A} fmt (m : M S A) (Q : outcome A → S → Prop) s :
  wp m (λ o s', match o with Err e => Q (Err (EWrap fmt e)) s' | _ => Q o s' end) s →
  wp (wrap fmt m) Q s.
Proof. unfold wp, wrap. destruct (m s) as [[a|e| |] s']; auto. Qed.

Lemma wp_zoom {T A} (proj : S → T) `{!Setter proj} (m : M T A)
    (Q : outcome A → S → Prop) s :
  wp m (λ o t, Q o (s <| proj := t |>)) (proj s) → wp (zoom proj m) Q s.
Proof. unfold wp, zoom. destruct (m (proj s)) as [o t]; auto. Qed.

(** A loop that keeps [I] at every element and can only end with [Ok]. *)
Lemma wp_for_each {A} (I : S → Prop) (l : list A) (f : A → M S ()) Q s :
  I s →
  (∀ x s, x ∈ l → I s → wp (f x) (λ o s', o = Ok () ∧ I s') s) →
  (∀ s', I s' → Q (Ok ()) s') →
  wp (for_each l f) Q s.
Proof.
  revert s. induction l as [|x l IH]; intros s HI Hf HQ; simpl.
  - by apply wp_ret, HQ.
  - apply wp_bind. eapply wp_mono; [apply Hf; [left|done]|].
    intros o s' [-> HI']; simpl.
    apply IH; [done| |done]. intros y s2 Hy. apply Hf. by right.
Qed.
End wp_rules.

(** One step of symbolic execution.  A call of a named routine is left to the
    specification lemmas of that routine. *)
Ltac wp_step :=
  lazymatch goal with
  | |- wp (mbind _ _) _ _ => apply wp_bind
  | |- wp (mret _) _ _ => apply wp_ret
  | |- wp get _ _ => apply wp_get
  | |- wp (gets _) _ _ => apply wp_gets
  | |- wp (modify _) _ _ => apply wp_modify
  | |- wp (throw _) _ _ => apply wp_throw
  | |- wp panic _ _ => apply wp_panic
  | |- wp (lift _) _ _ => apply wp_lift
  | |- wp (attempt _) _ _ => apply wp_attempt
  | |- wp (zoom _ _) _ _ => apply wp_zoom
  | |- wp (wrap _ _) _ _ => apply wp_wrap
  | |- wp (if ?b then _ else _) _ _ => let E := fresh "E" in destruct b eqn:E
  | |- wp (when ?b _) _ _ => apply wp_when; let E := fresh "E" in intros E
  | |- wp (match ?x with _ => _ end) _ _ => let E := fresh "E" in destruct x eqn:E
  | |- wpk _ _ (Ok _) _ => cbn [wpk]
  | |- wpk _ _ (Err _) _ => cbn [wpk]
  | |- wpk _ _ Panic _ => cbn [wpk]
  | |- wpk _ _ Crash _ => cbn [wpk]
  | |- wp (let _ := _ in _) _ _ => cbv zeta
  end.
Ltac wp_steps := repeat wp_step.

(** Boolean tests of the code to propositions. *)
Ltac zify_bool :=
  repeat match goal with
  | H : (_ && _)%bool = true |- _ => apply andb_true_iff in H; destruct H
  | H : (_ || _)%bool = false |- _ => apply orb_false_iff in H; destruct H
  | H : negb _ = true |- _ => apply negb_true_iff in H
  | H : negb _ = false |- _ => apply negb_false_iff in H
  | H : Z.eqb _ _ = true |- _ => apply Z.eqb_eq in H
  | H : Z.eqb _ _ = false |- _ => apply Z.eqb_neq in H
  | H : Z.ltb _ _ = true |- _ => apply Z.ltb_lt in H
  | H : Z.ltb _ _ = false |- _ => apply Z.ltb_ge in H
  | H : Z.leb _ _ = true |- _ => apply Z.leb_le in H
  | H : Z.leb _ _ = false |- _ => apply Z.leb_gt in H
  | H : bool_decide _ = true |- _ => apply bool_decide_eq_true in H
  | H : bool_decide _ = false |- _ => apply bool_decide_eq_false in H
  end.

(** ** Lists indexed by machine integers *)

Abbreviation zlength l := (Z.of_nat (length l)).

(** [b[i:]] and [b[:i]]; the bounds check of the source is made by the
    caller, or is the [option]. *)
Definition zdrop {A} (i : Z) (l : list A) : list A := drop (Z.to_nat i) l.
Definition ztake {A} (i : Z) (l : list A) : list A := take (Z.to_nat i) l.

(** [l[i]]: panics outside the bounds. *)
Definition zindex {A} (l : list A) (i : Z) : outcome A :=
  if (i <? 0) then Panic
  else match l !! Z.to_nat i with Some x => Ok x | None => Panic end.

(** [l[:i]] and [l[i:]] with the bounds checks of Go (for [cap = len]). *)
Definition zslice_to {A} (l : list A) (i : Z) : outcome (list A) :=
  if (0 <=? i) && (i <=? zlength l) then Ok (ztake i l) else Panic.
Definition zslice_from {A} (l : list A) (i : Z) : outcome (list A) :=
  if (0 <=? i) && (i <=? zlength l) then Ok (zdrop i l) else Panic.

Definition zslice {A} (l : list A) (i j : Z) : outcome (list A) :=
  if (0 <=? i) && (i <=? j) && (j <=? zlength l)
  then Ok (ztake (j - i) (zdrop i l)) else Panic.

Lemma zindex_lookup {A} (l : list A) i x :
  zindex l i = Ok x ↔ 0 ≤ i ∧ l !! Z.to_nat i = Some x.
Proof.
  unfold zindex. case_match; zify_bool; [split; [done|lia]|].
  case_match; split; naive_solver.
Qed.

Lemma zindex_in_range {A} (l : list A) i :
  0 ≤ i < zlength l → ∃ x, zindex l i = Ok x ∧ l !! Z.to_nat i = Some x.
Proof.
  intros Hi. destruct (lookup_lt_is_Some_2 l (Z.to_nat i)) as [x Hx]; [lia|].
  exists x. split; [apply zindex_lookup; split; [lia|done]|done].
Qed.

Lemma zslice_to_ok {A} (l : list A) i :
  0 ≤ i ≤ zlength l → zslice_to l i = Ok (take (Z.to_nat i) l).
Proof. intros. unfold zslice_to. by rewrite (proj2 (andb_true_iff _ _)) by lia. Qed.

Lemma zslice_from_ok {A} (l : list A) i :
  0 ≤ i ≤ zlength l → zslice_from l i = Ok (drop (Z.to_nat i) l).
Proof. intros. unfold zslice_from. by rewrite (proj2 (andb_true_iff _ _)) by lia. Qed.

Lemma zslice_ok {A} (l : list A) i j :
  0 ≤ i ≤ j → j ≤ zlength l →
  zslice l i j = Ok (take (Z.to_nat (j - i)) (drop (Z.to_nat i) l)).
Proof.
  intros. unfold zslice.
  by rewrite (proj2 (andb_true_iff _ _)) by (rewrite andb_true_iff; lia).
Qed.

Lemma zslice_to_app {A} (l k : list A) : zslice_to (l ++ k) (zlength l) = Ok l.
Proof.
  rewrite zslice_to_ok by (rewrite length_app; lia).
  by rewrite Nat2Z.id, take_app_length.
Qed.

Lemma zslice_from_app {A} (l k : list A) : zslice_from (l ++ k) (zlength l) = Ok k.
Proof.
  rewrite zslice_from_ok by (rewrite length_app; lia).
  by rewrite Nat2Z.id, drop_app_length.
Qed.

Lemma prefix_take {A} (l k : list A) : l `prefix_of` k → l = take (length l) k.
Proof. intros [x ->]. by rewrite take_app_length. Qed.

(** ** Hint databases of the library *)
Create HintDb raftkv.
#[export] Hint Resolve u64_range u32_range : raftkv.
