(* ===== verification/GoRuntime.v ===== *)
(** * What the Go run time leaves open

    The order of a [range] over a map and the draws of [math/rand] are not
    determined by the program.  [GoRuntime] makes both an interface: the [n]-th
    use may give any order and any draw in range, and every theorem of the
    library holds for all of them. *)

From stdpp Require Import prelude gmap.
From S2P Require Import Prelude.
Open Scope Z_scope.

Class GoRuntime := {
  map_order : ∀ {A : Type}, nat → list A → list A;
  map_order_perm : ∀ {A : Type} n (l : list A), map_order n l ≡ₚ l;
  rand_intn : nat → Z → Z;
  rand_intn_range : ∀ n k, 0 < k → 0 ≤ rand_intn n k < k
}.

(** A run time that visits maps in their canonical order and always draws 0. *)
#[export] Program Instance canonical_runtime : GoRuntime | 100 := {|
  map_order A n l := l;
  rand_intn n k := 0
|}.
Solve Obligations with (intros; simpl; done || lia).

(** Another one: maps are visited backwards, and draws are the largest. *)
Program Definition reversed_runtime : GoRuntime := {|
  map_order A n l := rev l;
  rand_intn n k := k - 1
|}.
Next Obligation. intros. by rewrite <-Permutation_rev. Qed.
Solve Obligations with (intros; simpl; lia).
