(* ===== verification/GoBytes.v ===== *)
(** * Bytes, little-endian integers, checksums and hashes

    What the sources use of Go's [encoding/binary], [hash/crc32] and
    [hash/fnv].  A Go [[]byte] and a Go [string] are both byte sequences here;
    [coqutil] supplies the bytes and the little-endian splitting. *)

From stdpp Require Import prelude gmap strings.
From coqutil Require Import Byte.
From coqutil Require Import Word.LittleEndianList.
From S2P Require Import Prelude.
Open Scope Z_scope.

Abbreviation bytes := (list Init.Byte.byte).
Abbreviation gostring := (list Init.Byte.byte).

#[export] Instance byte_eq_dec : EqDecision Init.Byte.byte := Strings.Byte.byte_eq_dec.
#[export] Program Instance byte_countable : Countable Init.Byte.byte := {|
  encode b := encode (Strings.Byte.to_N b);
  decode p := decode p ≫= Strings.Byte.of_N
|}.
Next Obligation. intros b. cbn beta. rewrite decode_encode. apply Strings.Byte.of_to_N. Qed.

(** A string constant of the source. *)
Definition str (s : string) : gostring := String.list_byte_of_string s.

(** ** [binary.LittleEndian] *)

Definition AppendUint64 (b : bytes) (v : Z) : bytes := b ++ le_split 8 v.
Definition AppendUint32 (b : bytes) (v : Z) : bytes := b ++ le_split 4 v.
Definition Uint64 (b : bytes) : outcome Z :=
  if zlength b <? 8 then Panic else Ok (le_combine (take 8 b)).
Definition Uint32 (b : bytes) : outcome Z :=
  if zlength b <? 4 then Panic else Ok (le_combine (take 4 b)).

Lemma length_le8 v : length (le_split 8 v) = 8%nat.
Proof. apply length_le_split. Qed.
Lemma length_le4 v : length (le_split 4 v) = 4%nat.
Proof. apply length_le_split. Qed.

Lemma Uint64_app v rest : Uint64 (le_split 8 v ++ rest) = Ok (u64 v).
Proof.
  unfold Uint64. rewrite length_app, length_le8.
  rewrite (proj2 (Z.ltb_ge _ _)) by lia.
  rewrite take_app_le by (by rewrite length_le8).
  by rewrite (take_ge (le_split 8 v)), le_combine_split by (by rewrite length_le8).
Qed.

Lemma Uint32_app v rest : Uint32 (le_split 4 v ++ rest) = Ok (u32 v).
Proof.
  unfold Uint32. rewrite length_app, length_le4.
  rewrite (proj2 (Z.ltb_ge _ _)) by lia.
  rewrite take_app_le by (by rewrite length_le4).
  by rewrite (take_ge (le_split 4 v)), le_combine_split by (by rewrite length_le4).
Qed.

Lemma zslice_from_le8 v (r : bytes) : zslice_from (le_split 8 v ++ r) 8 = Ok r.
Proof. rewrite <-(zslice_from_app (le_split 8 v) r). by rewrite length_le8. Qed.
Lemma zslice_from_le4 v (r : bytes) : zslice_from (le_split 4 v ++ r) 4 = Ok r.
Proof. rewrite <-(zslice_from_app (le_split 4 v) r). by rewrite length_le4. Qed.

Lemma Uint64_inv b v : Uint64 b = Ok v → is_u64 v ∧ b = le_split 8 v ++ drop 8 b.
Proof.
  unfold Uint64. case_match; zify_bool; [done|]. intros [= <-].
  assert (length (take 8 b) = 8%nat) as Hl by (rewrite length_take; lia).
  split; [pose proof (le_combine_bound (take 8 b)) as Hb; rewrite Hl in Hb; exact Hb|].
  by rewrite split_le_combine' by done; rewrite take_drop.
Qed.

Lemma Uint32_inv b v : Uint32 b = Ok v → is_u32 v ∧ b = le_split 4 v ++ drop 4 b.
Proof.
  unfold Uint32. case_match; zify_bool; [done|]. intros [= <-].
  assert (length (take 4 b) = 4%nat) as Hl by (rewrite length_take; lia).
  split; [pose proof (le_combine_bound (take 4 b)) as Hb; rewrite Hl in Hb; exact Hb|].
  by rewrite split_le_combine' by done; rewrite take_drop.
Qed.

Lemma Uint64_long b : 8 ≤ zlength b → ∃ v, Uint64 b = Ok v.
Proof. intros. unfold Uint64. rewrite (proj2 (Z.ltb_ge _ _)) by lia. eauto. Qed.
Lemma Uint32_long b : 4 ≤ zlength b → ∃ v, Uint32 b = Ok v.
Proof. intros. unfold Uint32. rewrite (proj2 (Z.ltb_ge _ _)) by lia. eauto. Qed.

(** ** CRC32-C ([crc32.Castagnoli], the reflected polynomial 0x82F63B78) *)

Definition crc32c_poly : Z := 0x82F63B78.

(** One of the eight steps that build an entry of [crc32.MakeTable]. *)
Definition crc32c_step (c : Z) : Z :=
  if Z.testbit c 0 then Z.lxor (Z.shiftr c 1) crc32c_poly else Z.shiftr c 1.

Definition crc32c_table (i : Z) : Z := Nat.iter 8 crc32c_step i.

(** [tab[byte(crc)^v] ^ (crc >> 8)] *)
Definition crc32c_byte (crc : Z) (v : Init.Byte.byte) : Z :=
  Z.lxor (crc32c_table (Z.lxor (Z.land crc 0xff) (byte.unsigned v))) (Z.shiftr crc 8).

Definition crc32c_update (crc : Z) (b : bytes) : Z :=
  Z.lxor (foldl crc32c_byte (Z.lxor crc 0xffffffff) b) 0xffffffff.

Definition crc32c (b : bytes) : Z := crc32c_update 0 b.

(** The check value of the CRC-32C (iSCSI) catalogue entry. *)
Example crc32c_check : crc32c (str "123456789") = 0xE3069283.
Proof. vm_compute. reflexivity. Qed.

(** The streaming hash ([crc32.New]) agrees with the one-shot checksum. *)
Lemma crc32c_update_app crc b1 b2 :
  crc32c_update crc (b1 ++ b2) = crc32c_update (crc32c_update crc b1) b2.
Proof.
  unfold crc32c_update. rewrite foldl_app. do 2 f_equal.
  by rewrite Z.lxor_assoc, Z.lxor_nilpotent, Z.lxor_0_r.
Qed.

Lemma lxor_bound n a b : 0 ≤ n → 0 ≤ a < 2 ^ n → 0 ≤ b < 2 ^ n → 0 ≤ Z.lxor a b < 2 ^ n.
Proof.
  intros Hn Ha Hb.
  assert (0 ≤ Z.lxor a b) by (apply Z.lxor_nonneg; lia).
  split; [done|].
  destruct (decide (Z.lxor a b = 0)) as [->|Hne]; [lia|].
  apply Z.log2_lt_pow2; [lia|].
  eapply Z.le_lt_trans; [apply Z.log2_lxor; lia|].
  apply Z.max_lub_lt.
  - destruct (decide (a = 0)) as [->|]; [|apply Z.log2_lt_pow2; lia].
    rewrite Z.log2_nonpos by lia. destruct (decide (n = 0)) as [->|]; [|lia].
    exfalso. apply Hne. by replace b with 0 by lia.
  - destruct (decide (b = 0)) as [->|]; [|apply Z.log2_lt_pow2; lia].
    rewrite Z.log2_nonpos by lia. destruct (decide (n = 0)) as [->|]; [|lia].
    exfalso. apply Hne. replace a with 0 by lia. done.
Qed.

Lemma shiftr_bound n a k : 0 ≤ k → 0 ≤ a < 2 ^ n → 0 ≤ Z.shiftr a k < 2 ^ n.
Proof.
  intros Hk Ha. rewrite Z.shiftr_div_pow2 by lia.
  assert (0 < 2 ^ k) by lia. split; [apply Z.div_pos; lia|].
  eapply Z.le_lt_trans; [|apply Ha]. apply Z.div_le_upper_bound; nia.
Qed.

Lemma crc32c_step_range c : is_u32 c → is_u32 (crc32c_step c).
Proof.
  intros Hc. unfold crc32c_step. pose proof (shiftr_bound 32 c 1 ltac:(lia) Hc).
  case_match; [|done]. apply lxor_bound; [lia|done|]. unfold crc32c_poly; lia.
Qed.

Lemma crc32c_byte_range c v : is_u32 c → is_u32 (crc32c_byte c v).
Proof.
  intros Hc. unfold crc32c_byte. apply lxor_bound; [lia| |by apply shiftr_bound].
  unfold crc32c_table. cbn [Nat.iter nat_rect]. repeat apply crc32c_step_range.
  apply lxor_bound; [lia| |].
  - change 0xff with (Z.ones 8). rewrite Z.land_ones by lia.
    pose proof (Z.mod_pos_bound c (2 ^ 8) ltac:(lia)). lia.
  - pose proof (byte.unsigned_range v). lia.
Qed.

Lemma crc32c_range b : is_u32 (crc32c b).
Proof.
  unfold crc32c, crc32c_update. apply lxor_bound; [lia| |lia].
  assert (is_u32 (Z.lxor 0 0xffffffff)) as Hi by (vm_compute; split; [discriminate|reflexivity]).
  revert Hi. generalize (Z.lxor 0 0xffffffff). induction b as [|v b IH]; simpl; [done|].
  intros c Hc. by apply IH, crc32c_byte_range.
Qed.
#[export] Hint Resolve crc32c_range : raftkv.

(** ** FNV-1a, 64 bits ([fnv.New64a]) *)

Definition fnv1a_offset64 : Z := 14695981039346656037.
Definition fnv1a_prime64 : Z := 1099511628211.
Definition fnv1a_byte (h : Z) (c : Init.Byte.byte) : Z :=
  u64 (Z.lxor h (byte.unsigned c) * fnv1a_prime64).
Definition fnv1a64 (b : bytes) : Z := foldl fnv1a_byte fnv1a_offset64 b.

(** Published test vectors of FNV-1a 64. *)
Example fnv1a64_empty : fnv1a64 [] = 0xcbf29ce484222325.
Proof. reflexivity. Qed.
Example fnv1a64_foobar : fnv1a64 (str "foobar") = 0x85944171f73967e8.
Proof. vm_compute. reflexivity. Qed.

Lemma fnv1a64_range b : is_u64 (fnv1a64 b).
Proof.
  unfold fnv1a64. assert (is_u64 fnv1a_offset64) as Hi by (unfold is_u64, fnv1a_offset64; lia).
  revert Hi. generalize fnv1a_offset64. induction b as [|v b IH]; simpl; [done|].
  intros h Hh. apply IH, u64_range.
Qed.

Global Opaque le_split le_combine crc32c.
