(* ===== verification/GoStrings.v ===== *)
(** * Decimal numbers and string operations

    What the sources use of Go's [fmt], [strconv], [strings] and [sort] on
    byte strings. *)

From stdpp Require Import prelude gmap strings sorting.
From coqutil Require Import Byte.
From S2P Require Import Prelude GoBytes.
Open Scope Z_scope.

Definition digit (d : Z) : Init.Byte.byte := byte.of_Z (48 + d).
Definition undigit (b : Init.Byte.byte) : option Z :=
  let d := byte.unsigned b - 48 in if (0 <=? d) && (d <=? 9) then Some d else None.

(** The decimal digits of [n], most significant first, at most [fuel] many;
    twenty are enough for a [uint64]. *)
Fixpoint digits (fuel : nat) (n : Z) (acc : list Z) : list Z :=
  match fuel with
  | O => acc
  | S f => if n <? 10 then n :: acc else digits f (n / 10) (n mod 10 :: acc)
  end.

(** [fmt.Sprintf("%d", n)] and [strconv.Itoa] for [0 <= n < 2^64]. *)
Definition fmt_d (n : Z) : gostring := digit <$> digits 20 n [].

(** [fmt.Sprintf("%020d", n)] *)
Definition fmt_020d (n : Z) : gostring :=
  let s := fmt_d n in replicate (20 - length s) (digit 0) ++ s.

Fixpoint undigits (s : gostring) : option (list Z) :=
  match s with
  | [] => Some []
  | b :: s' => d ← undigit b; ds ← undigits s'; Some (d :: ds)
  end.
Definition value_of (ds : list Z) : Z := foldl (λ v d, v * 10 + d) 0 ds.

(** [strconv.ParseUint(s, 10, 64)] *)
Definition ParseUint (s : gostring) : option Z :=
  if bool_decide (s = []) then None else
  ds ← undigits s;
  let v := value_of ds in if v <? 2 ^ 64 then Some v else None.

Definition HasSuffix (s suf : gostring) : bool := bool_decide (suf `suffix_of` s).
Definition TrimSuffix (s suf : gostring) : gostring :=
  if HasSuffix s suf then take (length s - length suf) s else s.
Definition HasPrefix (s pre : gostring) : bool := bool_decide (pre `prefix_of` s).
Definition TrimPrefix (s pre : gostring) : gostring :=
  if HasPrefix s pre then drop (length pre) s else s.

(** The order of [sort.Strings]. *)
Fixpoint bytes_leb (a b : gostring) : bool :=
  match a, b with
  | [], _ => true
  | _ :: _, [] => false
  | x :: a', y :: b' =>
      if byte.unsigned x <? byte.unsigned y then true
      else if byte.unsigned y <? byte.unsigned x then false
      else bytes_leb a' b'
  end.
Definition bytes_le (a b : gostring) : Prop := bytes_leb a b = true.
#[export] Instance bytes_le_dec : RelDecision bytes_le.
Proof. intros a b. unfold bytes_le. apply _. Defined.

(** [sort.Strings] *)
Definition sort_strings (l : list gostring) : list gostring := merge_sort bytes_le l.

(** ** Facts *)

Lemma undigit_digit d : 0 ≤ d ≤ 9 → undigit (digit d) = Some d.
Proof.
  intros Hd. unfold undigit, digit. rewrite byte.unsigned_of_Z. unfold byte.wrap.
  rewrite Z.mod_small by lia. replace (48 + d - 48) with d by lia.
  by rewrite (proj2 (andb_true_iff _ _)) by lia.
Qed.

Lemma undigits_digits ds :
  Forall (λ d, 0 ≤ d ≤ 9) ds → undigits (digit <$> ds) = Some ds.
Proof.
  induction 1 as [|d ds Hd _ IH]; [done|]. cbn [fmap list_fmap undigits].
  rewrite undigit_digit by done. simpl. by rewrite IH.
Qed.

Lemma digits_spec fuel n acc :
  0 ≤ n < 10 ^ Z.of_nat fuel → Forall (λ d, 0 ≤ d ≤ 9) acc →
  Forall (λ d, 0 ≤ d ≤ 9) (digits fuel n acc) ∧
  value_of (digits fuel n acc) = foldl (λ v d, v * 10 + d) n acc ∧
  (length (digits fuel n acc) ≤ fuel + length acc)%nat ∧
  ((0 < fuel)%nat → digits fuel n acc ≠ []).
Proof.
  revert n acc. induction fuel as [|f IH]; intros n acc Hn Hacc.
  { simpl in *. assert (n = 0) as -> by lia. split_and!; [done|done|lia|lia]. }
  cbn [digits]. case_match; zify_bool.
  { split_and!; [constructor; [lia|done]| |simpl; lia|done].
    unfold value_of. cbn [foldl]. f_equal. }
  assert (0 ≤ n / 10 < 10 ^ Z.of_nat f) as Hq.
  { split; [apply Z.div_pos; lia|]. apply Z.div_lt_upper_bound; [lia|].
    rewrite Nat2Z.inj_succ, Z.pow_succ_r in Hn by lia. lia. }
  destruct (IH (n / 10) (n mod 10 :: acc) Hq) as (HF & Hv & Hl & Hne).
  { constructor; [|done]. pose proof (Z.mod_pos_bound n 10). lia. }
  split_and!; [done| | |].
  - rewrite Hv. cbn [foldl]. f_equal. pose proof (Z.div_mod n 10). lia.
  - simpl in Hl. lia.
  - intros _. destruct f; [|apply Hne; lia]. simpl. done.
Qed.

Lemma digits20 n :
  is_u64 n → Forall (λ d, 0 ≤ d ≤ 9) (digits 20 n []) ∧ value_of (digits 20 n []) = n ∧
  (length (digits 20 n []) ≤ 20)%nat ∧ digits 20 n [] ≠ [].
Proof.
  intros Hn. destruct (digits_spec 20 n []) as (? & Hv & Hl & Hne).
  - unfold is_u64 in Hn. assert (2 ^ 64 < 10 ^ Z.of_nat 20) by (vm_compute; done). lia.
  - done.
  - split_and!; [done|by rewrite Hv|cbn [length] in Hl; lia|apply Hne; lia].
Qed.

(** The padded form, as digits. *)
Definition digits020 (n : Z) : list Z :=
  replicate (20 - length (digits 20 n [])) 0 ++ digits 20 n [].

Lemma fmt_020d_eq n : fmt_020d n = digit <$> digits020 n.
Proof.
  unfold fmt_020d, digits020, fmt_d. rewrite fmap_app, fmap_replicate. by rewrite length_fmap.
Qed.

Lemma value_of_app a b : value_of (a ++ b) = value_of a * 10 ^ zlength b + value_of b.
Proof.
  unfold value_of. rewrite foldl_app. generalize (foldl (λ v d, v * 10 + d) 0 a).
  induction b as [|d b IH] using rev_ind; intros v; [simpl; lia|].
  rewrite !foldl_app, length_app. simpl. rewrite IH.
  replace (Z.of_nat (length b + 1)) with (Z.succ (zlength b)) by lia.
  rewrite Z.pow_succ_r by lia. lia.
Qed.

Lemma value_of_zeros k : value_of (replicate k 0) = 0.
Proof.
  induction k as [|k IH]; [done|]. change (replicate (S k) 0) with ([0] ++ replicate k 0).
  by rewrite value_of_app, IH.
Qed.

Lemma digits020_spec n :
  is_u64 n → Forall (λ d, 0 ≤ d ≤ 9) (digits020 n) ∧ value_of (digits020 n) = n ∧
  length (digits020 n) = 20%nat.
Proof.
  intros (Hd & Hv & Hl & _)%digits20. unfold digits020. split_and!.
  - apply Forall_app. split; [|done]. apply Forall_replicate. lia.
  - by rewrite value_of_app, value_of_zeros, Hv.
  - rewrite length_app, length_replicate. lia.
Qed.

Lemma ParseUint_digits ds :
  ds ≠ [] → Forall (λ d, 0 ≤ d ≤ 9) ds → value_of ds < 2 ^ 64 →
  ParseUint (digit <$> ds) = Some (value_of ds).
Proof.
  intros Hne Hd Hv. unfold ParseUint. rewrite bool_decide_false by by destruct ds.
  rewrite undigits_digits by done. simpl. by rewrite (proj2 (Z.ltb_lt _ _)).
Qed.

Lemma ParseUint_fmt_020d n : is_u64 n → ParseUint (fmt_020d n) = Some n.
Proof.
  intros Hn. destruct (digits020_spec n Hn) as (Hd & Hv & Hl). unfold is_u64 in Hn.
  rewrite fmt_020d_eq, ParseUint_digits by (done || lia || (by destruct (digits020 n))).
  by rewrite Hv.
Qed.

Lemma ParseUint_fmt_d n : is_u64 n → ParseUint (fmt_d n) = Some n.
Proof.
  intros Hn. destruct (digits20 n Hn) as (Hd & Hv & _ & Hne). unfold is_u64 in Hn.
  unfold fmt_d. rewrite ParseUint_digits by (done || lia). by rewrite Hv.
Qed.

Lemma HasSuffix_app a b : HasSuffix (a ++ b) b = true.
Proof. apply bool_decide_true. by exists a. Qed.

Lemma TrimSuffix_app a b : TrimSuffix (a ++ b) b = a.
Proof.
  unfold TrimSuffix. rewrite HasSuffix_app, length_app.
  replace (length a + length b - length b)%nat with (length a) by lia.
  apply take_app_length.
Qed.

(** Fixed-width decimals sort as the numbers they denote. *)
Lemma bytes_leb_digits a b :
  length a = length b → Forall (λ d, 0 ≤ d ≤ 9) a → Forall (λ d, 0 ≤ d ≤ 9) b →
  bytes_leb (digit <$> a) (digit <$> b) = (value_of a <=? value_of b).
Proof.
  assert (∀ ds, Forall (λ d, 0 ≤ d ≤ 9) ds → 0 ≤ value_of ds < 10 ^ zlength ds) as Hbound.
  { intros ds. induction ds as [|d ds IH] using rev_ind; intros Hd; [done|].
    apply Forall_app in Hd as [Hd Hd1]. apply Forall_cons in Hd1 as [Hd1 _].
    rewrite value_of_app, length_app. simpl. specialize (IH Hd).
    replace (Z.of_nat (length ds + 1)) with (Z.succ (zlength ds)) by lia.
    rewrite Z.pow_succ_r by lia. change (value_of [d]) with d.
    change (10 ^ Z.of_nat 1) with 10. lia. }
  revert b. induction a as [|x a IH]; intros [|y b] Hl Ha Hb; try done.
  apply Forall_cons in Ha as [Hx Ha]. apply Forall_cons in Hb as [Hy Hb].
  cbn [fmap list_fmap bytes_leb]. injection Hl as Hl.
  change (x :: a) with ([x] ++ a). change (y :: b) with ([y] ++ b).
  rewrite !value_of_app, <-Hl. unfold value_of at 1 3. simpl.
  pose proof (Hbound _ Ha). pose proof (Hbound _ Hb). rewrite <-Hl in *.
  unfold digit. rewrite !byte.unsigned_of_Z. unfold byte.wrap. rewrite !Z.mod_small by lia.
  repeat case_match; zify_bool; symmetry.
  - apply Z.leb_le. nia.
  - apply Z.leb_gt. nia.
  - assert (x = y) as -> by lia. fold (digit <$> a). rewrite IH by done.
    destruct (Z.leb_spec (value_of a) (value_of b)); [apply Z.leb_le|apply Z.leb_gt]; lia.
Qed.

Lemma bytes_le_fmt_020d a b suf :
  is_u64 a → is_u64 b → bytes_le (fmt_020d a ++ suf) (fmt_020d b ++ suf) ↔ a ≤ b.
Proof.
  intros Ha Hb. destruct (digits020_spec a Ha) as (Hda & Hva & Hla).
  destruct (digits020_spec b Hb) as (Hdb & Hvb & Hlb).
  assert (∀ s t u : gostring, length s = length t →
            bytes_leb (s ++ u) (t ++ u) = bytes_leb s t) as Happ.
  { intros s. induction s as [|x s IH]; intros [|y t] u Hl; try done; simpl.
    - induction u as [|z u IHu]; [done|]. simpl. by rewrite Z.ltb_irrefl.
    - by rewrite IH by by injection Hl. }
  unfold bytes_le. rewrite Happ by (rewrite !fmt_020d_eq, !length_fmap; congruence).
  rewrite !fmt_020d_eq, bytes_leb_digits by (done || congruence).
  rewrite Hva, Hvb. apply Z.leb_le.
Qed.

Lemma fmt_020d_inj a b : is_u64 a → is_u64 b → fmt_020d a = fmt_020d b → a = b.
Proof.
  intros Ha Hb H%(f_equal ParseUint). rewrite !ParseUint_fmt_020d in H by done.
  by injection H.
Qed.
