(* ===== verification/GoText.v ===== *)
(** * More of Go's strings package

    [strings.Fields], [strings.TrimSpace], [strings.Split], [strings.IndexByte]
    and [strconv.Atoi], on byte strings. *)

From stdpp Require Import prelude strings.
From coqutil Require Import Byte.
From S2P Require Import Prelude GoBytes GoStrings.
Open Scope Z_scope.

(** The UTF-8 encodings of the runes [unicode.IsSpace] accepts.  No encoding
    contains another one, and none starts inside another rune, so scanning byte
    by byte finds the same spaces as scanning rune by rune. *)
Definition space_seqs : list gostring :=
  map (map byte.of_Z)
   [[9]; [10]; [11]; [12]; [13]; [32]; [194; 133]; [194; 160]; [225; 154; 128];
    [226; 128; 128]; [226; 128; 129]; [226; 128; 130]; [226; 128; 131]; [226; 128; 132];
    [226; 128; 133]; [226; 128; 134]; [226; 128; 135]; [226; 128; 136]; [226; 128; 137];
    [226; 128; 138]; [226; 128; 168]; [226; 128; 169]; [226; 128; 175]; [226; 129; 159];
    [227; 128; 128]].

(** The number of bytes of the space at the front, 0 if there is none. *)
Definition space_len (s : gostring) : nat :=
  match list_find (λ q, q `prefix_of` s) space_seqs with
  | Some (_, q) => length q
  | None => 0
  end.

(** The number of bytes of the space at the end, 0 if there is none. *)
Definition space_end_len (s : gostring) : nat :=
  match list_find (λ q, q `suffix_of` s) space_seqs with
  | Some (_, q) => length q
  | None => 0
  end.

Fixpoint trim_left (fuel : nat) (s : gostring) : gostring :=
  match fuel, space_len s with
  | O, _ | _, O => s
  | S fuel', S k => trim_left fuel' (drop (S k) s)
  end.

Fixpoint trim_right (fuel : nat) (s : gostring) : gostring :=
  match fuel, space_end_len s with
  | O, _ | _, O => s
  | S fuel', S k => trim_right fuel' (take (length s - S k) s)
  end.

Definition TrimSpace (s : gostring) : gostring :=
  trim_right (length s) (trim_left (length s) s).

(** [skip] bytes of a space remain; [cur] is the field being read, backwards. *)
Fixpoint fields_loop (s cur : gostring) (skip : nat) : list gostring :=
  let flush := match cur with [] => [] | _ :: _ => [rev cur] end in
  match s with
  | [] => flush
  | b :: s' =>
      match skip with
      | S k => fields_loop s' cur k
      | O =>
          match space_len s with
          | O => fields_loop s' (b :: cur) 0
          | S k => flush ++ fields_loop s' [] k
          end
      end
  end.

(** [strings.Fields] *)
Definition Fields (s : gostring) : list gostring := fields_loop s [] 0.

(** [strings.Split(s, sep)] for a separator of one byte. *)
Fixpoint split_loop (sep : byte) (s cur : gostring) : list gostring :=
  match s with
  | [] => [rev cur]
  | b :: s' => if Byte.eqb b sep then rev cur :: split_loop sep s' [] else split_loop sep s' (b :: cur)
  end.
Definition Split (s : gostring) (sep : byte) : list gostring := split_loop sep s [].

(** [strings.IndexByte]: [None] for -1. *)
Fixpoint IndexByte (s : gostring) (c : byte) : option nat :=
  match s with
  | [] => None
  | b :: s' => if Byte.eqb b c then Some 0%nat else S <$> IndexByte s' c
  end.

(** [strconv.Atoi] on a 64-bit machine: an optional sign and decimal digits. *)
Definition Atoi (s : gostring) : option Z :=
  let '(neg, ds) :=
    match s with
    | b :: s' => if Byte.eqb b (byte.of_Z 45) then (true, s')
                 else if Byte.eqb b (byte.of_Z 43) then (false, s') else (false, s)
    | [] => (false, s)
    end in
  if bool_decide (ds = []) then None else
  l ← undigits ds;
  let v := if (neg : bool) then - value_of l else value_of l in
  if (- 2 ^ 63 <=? v) && (v <? 2 ^ 63) then Some v else None.

(** [strconv.Itoa] and [%d] *)
Definition Itoa (n : Z) : gostring :=
  if n <? 0 then byte.of_Z 45 :: fmt_d (- n) else fmt_d n.

(** ** Facts *)

(** Printable ASCII without the space: the bytes of an address. *)
Definition graphic (b : byte) : bool := (33 <=? byte.unsigned b) && (byte.unsigned b <? 127).

Lemma space_len_graphic b s : graphic b = true → space_len (b :: s) = 0%nat.
Proof.
  intros Hb. unfold space_len. destruct (list_find _ _) as [[i q]|] eqn:E; [|done].
  apply list_find_Some in E as (Hin & Hp & _). exfalso.
  assert (Forall (λ q, match q with [] => False | x :: _ => graphic x = false end) space_seqs) as Hall.
  { unfold space_seqs. repeat constructor. }
  rewrite Forall_lookup in Hall. specialize (Hall _ _ Hin). destruct q as [|x q]; [done|].
  destruct Hp as [r Hr]. injection Hr as <- _. congruence.
Qed.

Lemma space_end_len_graphic b s : graphic b = true → space_end_len (s ++ [b]) = 0%nat.
Proof.
  intros Hb. unfold space_end_len. destruct (list_find _ _) as [[i q]|] eqn:E; [|done].
  apply list_find_Some in E as (Hin & [r Hr] & _). exfalso.
  assert (Forall (λ q, match last q with None => False | Some x => graphic x = false end) space_seqs) as Hall.
  { unfold space_seqs. repeat constructor. }
  rewrite Forall_lookup in Hall. specialize (Hall _ _ Hin).
  destruct q as [|x q _] using rev_ind; [done|]. rewrite last_snoc in Hall.
  rewrite app_assoc in Hr. apply app_inj_tail in Hr as [_ <-]. congruence.
Qed.

(** A word goes to the current field. *)
Lemma fields_word w s cur :
  forallb graphic w = true → fields_loop (w ++ s) cur 0 = fields_loop s (rev w ++ cur) 0.
Proof.
  revert cur. induction w as [|b w IH]; intros cur Hw; [done|]. cbn in Hw. apply andb_true_iff in Hw as [Hb Hw].
  cbn [app fields_loop]. rewrite space_len_graphic by done. rewrite IH by done. cbn [rev]. by rewrite <-app_assoc.
Qed.

Lemma Fields_word w : w ≠ [] → forallb graphic w = true → Fields w = [w].
Proof.
  intros Hne Hw. unfold Fields. rewrite <-(app_nil_r w) at 1. rewrite fields_word by done. cbn.
  rewrite app_nil_r. destruct (rev w) as [|x l] eqn:E; [|by rewrite <-E, rev_involutive].
  apply (f_equal (@rev _)) in E. by rewrite rev_involutive in E.
Qed.

Lemma Fields_cons w s :
  w ≠ [] → forallb graphic w = true → Fields (w ++ str " " ++ s) = w :: Fields s.
Proof.
  intros Hne Hw. unfold Fields at 1. rewrite fields_word by done. rewrite app_nil_r. cbn [app str].
  change (str " " ++ s) with (byte.of_Z 32 :: s). cbn [fields_loop].
  assert (space_len (byte.of_Z 32 :: s) = 1%nat) as ->.
  { unfold space_len, space_seqs. cbn [map list_find]. by rewrite !decide_False, decide_True by
      (first [by exists s | intros [r Hr]; by injection Hr]). }
  destruct (rev w) as [|x l] eqn:E; [apply (f_equal (@rev _)) in E; by rewrite rev_involutive in E|].
  by rewrite <-E, rev_involutive.
Qed.

Lemma TrimSpace_graphic a s b : graphic a = true → graphic b = true → TrimSpace (a :: s ++ [b]) = a :: s ++ [b].
Proof.
  intros Ha Hb. unfold TrimSpace. cbn [length trim_left]. rewrite space_len_graphic by done.
  cbn [trim_right]. change (a :: s ++ [b]) with ((a :: s) ++ [b]). by rewrite space_end_len_graphic.
Qed.

(** Text without spaces at its ends. *)
Lemma TrimSpace_word w : forallb graphic w = true → TrimSpace w = w.
Proof.
  intros Hw. destruct w as [|a w]; [done|]. cbn in Hw. apply andb_true_iff in Hw as [Ha Hw].
  destruct w as [|b w _] using rev_ind.
  - unfold TrimSpace. cbn [length trim_left]. rewrite space_len_graphic by done. cbn [trim_right].
    by rewrite (space_end_len_graphic a [] Ha : space_end_len [a] = _).
  - rewrite forallb_app in Hw. apply andb_true_iff in Hw as [_ Hb]. cbn in Hb. rewrite andb_true_r in Hb.
    by apply TrimSpace_graphic.
Qed.

Lemma split_word sep w s cur :
  forallb (λ b, negb (Byte.eqb b sep)) w = true →
  split_loop sep (w ++ s) cur = split_loop sep s (rev w ++ cur).
Proof.
  revert cur. induction w as [|b w IH]; intros cur Hw; [done|]. cbn in Hw. apply andb_true_iff in Hw as [Hb Hw].
  apply negb_true_iff in Hb. cbn [app split_loop]. rewrite Hb, IH by done. cbn [rev]. by rewrite <-app_assoc.
Qed.

Lemma Split_word sep w : forallb (λ b, negb (Byte.eqb b sep)) w = true → Split w sep = [w].
Proof.
  intros Hw. unfold Split. rewrite <-(app_nil_r w) at 1. rewrite split_word by done. cbn.
  by rewrite app_nil_r, rev_involutive.
Qed.

Lemma Split_cons sep w s :
  forallb (λ b, negb (Byte.eqb b sep)) w = true → Split (w ++ sep :: s) sep = w :: Split s sep.
Proof.
  intros Hw. unfold Split. rewrite split_word by done. cbn [split_loop]. rewrite Byte.byte_dec_lb by done.
  by rewrite app_nil_r, rev_involutive.
Qed.

Lemma IndexByte_app w c s :
  forallb (λ b, negb (Byte.eqb b c)) w = true → IndexByte (w ++ c :: s) c = Some (length w).
Proof.
  induction w as [|b w IH]; intros Hw; cbn; [by rewrite Byte.byte_dec_lb|].
  cbn in Hw. apply andb_true_iff in Hw as [Hb Hw]. apply negb_true_iff in Hb. by rewrite Hb, IH.
Qed.

Lemma digit_graphic d : 0 ≤ d ≤ 9 → graphic (digit d) = true.
Proof.
  intros Hd. unfold graphic, digit. rewrite byte.unsigned_of_Z. unfold byte.wrap. rewrite Z.mod_small by lia.
  zify_bool. lia.
Qed.

Lemma fmt_d_digits n : is_u64 n → ∃ ds, fmt_d n = digit <$> ds ∧ Forall (λ d, 0 ≤ d ≤ 9) ds ∧ ds ≠ [].
Proof. intros Hn. destruct (digits20 n Hn) as (Hd & _ & _ & Hne). by eexists. Qed.

Lemma fmt_d_graphic n : is_u64 n → forallb graphic (fmt_d n) = true.
Proof.
  intros Hn. destruct (fmt_d_digits n Hn) as (ds & -> & Hd & _).
  induction Hd as [|d ds Hd _ IH]; [done|]. cbn [fmap list_fmap forallb]. by rewrite digit_graphic, IH.
Qed.

Lemma fmt_d_nonempty n : is_u64 n → fmt_d n ≠ [].
Proof. intros Hn. destruct (fmt_d_digits n Hn) as (ds & -> & _ & Hne). by destruct ds. Qed.

Lemma Atoi_Itoa n : 0 ≤ n < 2 ^ 63 → Atoi (Itoa n) = Some n.
Proof.
  intros Hn. unfold Itoa. rewrite (proj2 (Z.ltb_ge _ _)) by lia.
  assert (is_u64 n) as Hu by (unfold is_u64; lia). destruct (digits20 n Hu) as (Hd & Hv & _ & Hne).
  unfold fmt_d. set (ds := digits 20 n []) in *. destruct ds as [|d ds]; [done|].
  assert (∀ c, c = 45 ∨ c = 43 → Byte.eqb (digit d) (byte.of_Z c) = false) as Hsign.
  { intros c Hc. apply Forall_cons in Hd as [Hd _]. apply not_true_iff_false. intros He%Byte.byte_dec_bl%(f_equal byte.unsigned).
    unfold digit in He. rewrite !byte.unsigned_of_Z in He. unfold byte.wrap in He. rewrite !Z.mod_small in He by lia. lia. }
  rewrite fmap_cons. unfold Atoi. rewrite !Hsign by auto. rewrite bool_decide_false by done.
  rewrite <-fmap_cons, undigits_digits by done.
  cbn [mbind option_bind]. rewrite Hv. by rewrite (proj2 (andb_true_iff _ _)) by lia.
Qed.

(** Trimming stops at a byte that is not part of a space. *)
Lemma trim_right_nonempty fuel b s : graphic b = true → trim_right fuel (b :: s) ≠ [].
Proof.
  intros Hb. assert (∃ s', trim_right fuel (b :: s) = b :: s') as [s' ->]; [|done]. revert s.
  induction fuel as [|f IH]; intros s; [by eexists|]. cbn [trim_right].
  destruct (space_end_len (b :: s)) as [|k] eqn:E; [by eexists|].
  assert (S k ≤ length s)%nat as Hk; [|].
  2:{ replace (length (b :: s) - S k)%nat with (S (length s - S k)) by (cbn; lia). rewrite firstn_cons. apply IH. }
  unfold space_end_len in E. destruct (list_find _ _) as [[i q]|] eqn:Ef; [|done].
  apply list_find_Some in Ef as (Hin & [r Hr] & _). rewrite <-E.
  destruct r as [|x r]; [|cbn in Hr; injection Hr as _ ->; rewrite length_app; lia]. exfalso. cbn in Hr. subst q.
  assert (Forall (λ q, match q with [] => True | x :: _ => graphic x = false end) space_seqs) as Hall.
  { unfold space_seqs. repeat constructor. }
  rewrite Forall_lookup in Hall. specialize (Hall _ _ Hin). cbn in Hall. congruence.
Qed.
