(* ===== verification/Grpc.v ===== *)
(** * google.golang.org/grpc/status, as the services use it

    A status is a code and a message.  The text of an error ([err.Error()]) may
    come from the operating system; it is the parameter [errText]. *)

From stdpp Require Import prelude strings.
From S2P Require Import Prelude GoBytes GoStrings GoText.
Open Scope Z_scope.

(** [codes.Code], those the services use. *)
Inductive code := InvalidArgument | Internal | FailedPrecondition | Unavailable | DeadlineExceeded | Canceled | NotFound.
#[export] Instance code_eq_dec : EqDecision code.
Proof. solve_decision. Defined.

Record grpcStatus := mkGrpc { st_code : code; st_message : gostring }.

(** [err.Error()] *)
Class ErrText := errText : error → gostring.

(** [errors.As(err, &nl)] for a [*raft.NotLeaderError]: the leader it names. *)
Fixpoint as_not_leader (e : error) : option Z :=
  match e with
  | ENotLeader id => Some id
  | EWrap _ e' | EPersistFailure e' => as_not_leader e'
  | _ => None
  end.

(** The context error inside an error, if any: [errors.Is(err,
    context.DeadlineExceeded)], [errors.Is(err, context.Canceled)]. *)
Fixpoint as_context_error (e : error) : option code :=
  match e with
  | EDeadlineExceeded => Some DeadlineExceeded
  | ECanceled => Some Canceled
  | EWrap _ e' | EPersistFailure e' => as_context_error e'
  | _ => None
  end.
