(* ===== verification/GoFS.v ===== *)
(** * Files, directories, faults and crashes

    What the sources use of Go's [os] package, as a file system whose every
    call may fail or be cut by a crash.

    A path is a directory and a name in it ([filepath.Join(dir, name)]).  A
    name leads to an inode; an inode has the bytes written to it and the length
    of the prefix that an [fsync] has made durable.  Directory operations go
    through an ordered journal: [ddir] is the directory on the disk, [pend] the
    operations not yet durable; fsyncing a directory commits the journal, and a
    crash keeps some prefix of it.  A crash keeps, of every file, some prefix
    of its bytes that contains the durable prefix (a torn write).

    The list [faults] decides what happens at each call: [FOk], an I/O error
    ([FErr k]) or a crash ([FCrash k]); a write that fails has written its first
    [k] bytes.  An exhausted list means no further faults. *)

From stdpp Require Import prelude gmap strings.
From S2P Require Import Prelude GoBytes.
Open Scope Z_scope.

Abbreviation path := (gostring * gostring)%type.

Record inode := mkInode { content : bytes; synced : nat }.

Inductive dirop :=
  | DCreate (p : path) (i : nat)
  | DRename (a b : path)
  | DRemove (p : path).

Inductive fault := FOk | FErr (k : nat) | FCrash (k : nat).

Record fs := mkFS {
  ddir : gmap path nat;
  pend : list dirop;
  inodes : gmap nat inode;
  faults : list fault
}.

#[export] Instance fs_eta : Settable fs :=
  λ s, mkFS (ddir s) (pend s) (inodes s) (faults s).
#[export] Instance set_ddir : Setter ddir := ltac:(solve_setter).
#[export] Instance set_pend : Setter pend := ltac:(solve_setter).
#[export] Instance set_inodes : Setter inodes := ltac:(solve_setter).
#[export] Instance set_faults : Setter faults := ltac:(solve_setter).

Definition apply_op (d : gmap path nat) (o : dirop) : gmap path nat :=
  match o with
  | DCreate p i => <[p := i]> d
  | DRename a b =>
      match d !! a with
      | Some i => <[b := i]> (delete a d)
      | None => d
      end
  | DRemove p => delete p d
  end.

(** The directory the running process sees. *)
Definition names (s : fs) : gmap path nat := foldl apply_op (ddir s) (pend s).

Definition file (s : fs) (p : path) : option bytes :=
  i ← names s !! p; content <$> inodes s !! i.

(** One system call. *)
Definition sys {A} (run : M fs A) (partial : nat → fs → fs) : M fs A := λ s,
  match faults s with
  | [] => run s
  | FOk :: r => run (s <| faults := r |>)
  | FErr k :: r => (Err EIO, partial k (s <| faults := r |>))
  | FCrash k :: r => (Crash, partial k (s <| faults := r |>))
  end.

Definition journal (o : dirop) (s : fs) : fs := s <| pend ::= λ l, l ++ [o] |>.

Definition new_inode (s : fs) : nat := fresh (dom (inodes s) : gset nat).

Definition create_inode (p : path) (s : fs) : fs :=
  journal (DCreate p (new_inode s)) (s <| inodes ::= <[new_inode s := mkInode [] 0]> |>).

(** [os.OpenFile(p, O_CREATE|O_TRUNC|O_WRONLY)].  The files have no second
    name, so truncating one is starting a fresh inode under its name. *)
Definition OpenTrunc (p : path) : M fs nat :=
  sys (λ s, (Ok (new_inode s), create_inode p s)) (λ _ s, s).

(** [os.OpenFile(p, O_CREATE|O_EXCL|O_WRONLY)] *)
Definition OpenExcl (p : path) : M fs nat :=
  sys (λ s, match names s !! p with
            | Some _ => (Err EExist, s)
            | None => (Ok (new_inode s), create_inode p s)
            end) (λ _ s, s).

(** [os.OpenFile(p, O_WRONLY|O_APPEND)] *)
Definition OpenAppend (p : path) : M fs nat :=
  sys (λ s, match names s !! p with
            | Some i => (Ok i, s)
            | None => (Err ENotExist, s)
            end) (λ _ s, s).

(** [os.OpenFile(p, O_CREATE|O_WRONLY|O_APPEND)] *)
Definition OpenCreateAppend (p : path) : M fs nat :=
  sys (λ s, match names s !! p with
            | Some i => (Ok i, s)
            | None => (Ok (new_inode s), create_inode p s)
            end) (λ _ s, s).

Definition write_inode (i : nat) (data : bytes) (s : fs) : fs :=
  s <| inodes ::= alter (λ n, mkInode (content n ++ data) (synced n)) i |>.

(** [f.Write(data)] on a file open for appending (or freshly created). *)
Definition Write (i : nat) (data : bytes) : M fs () :=
  sys (λ s, (Ok (), write_inode i data s)) (λ k s, write_inode i (take k data) s).

(** [f.Sync()] *)
Definition Sync (i : nat) : M fs () :=
  sys (λ s, (Ok (), s <| inodes ::= alter (λ n, mkInode (content n) (length (content n))) i |>))
      (λ _ s, s).

(** [f.Close()] *)
Definition Close (i : nat) : M fs () := sys (λ s, (Ok (), s)) (λ _ s, s).

(** [os.ReadFile(p)] *)
Definition ReadFile (p : path) : M fs bytes :=
  sys (λ s, match file s p with
            | Some b => (Ok b, s)
            | None => (Err ENotExist, s)
            end) (λ _ s, s).

(** [os.Rename(a, b)] *)
Definition Rename (a b : path) : M fs () :=
  sys (λ s, match names s !! a with
            | Some _ => (Ok (), journal (DRename a b) s)
            | None => (Err ENotExist, s)
            end) (λ _ s, s).

(** [os.Remove(p)] *)
Definition Remove (p : path) : M fs () :=
  sys (λ s, match names s !! p with
            | Some _ => (Ok (), journal (DRemove p) s)
            | None => (Err ENotExist, s)
            end) (λ _ s, s).

(** [os.Truncate(p, n)] with [n] at most the size of the file. *)
Definition Truncate (p : path) (n : Z) : M fs () :=
  sys (λ s, match names s !! p with
            | Some i =>
                (Ok (), s <| inodes ::= alter (λ f, mkInode (ztake n (content f))
                                                    (synced f `min` Z.to_nat n)) i |>)
            | None => (Err ENotExist, s)
            end) (λ _ s, s).

(** [d, _ := os.Open(dir); d.Sync()] *)
Definition FsyncDir (d : gostring) : M fs () :=
  sys (λ s, (Ok (), s <| ddir := names s |> <| pend := [] |>)) (λ _ s, s).

(** [os.ReadDir(d)]: the names in directory [d]. *)
Definition ReadDir (d : gostring) : M fs (list gostring) :=
  sys (λ s, (Ok ((λ p : path, p.2) <$>
                   filter (λ p : path, p.1 = d) (elements (dom (names s)))), s)) (λ _ s, s).

(** [os.MkdirAll(d)]: directories are not entries of their own here. *)
Definition MkdirAll (d : gostring) : M fs () := sys (λ s, (Ok (), s)) (λ _ s, s).

(** ** Crashes *)

Definition crash_inode (n n' : inode) : Prop :=
  ∃ k, (synced n ≤ k)%nat ∧ content n' = take k (content n) ∧ synced n' = length (content n').

(** [crash s s']: [s'] is a disk the next boot may find after the machine
    stopped in [s]. *)
Definition crash (s s' : fs) : Prop :=
  (∃ j, ddir s' = foldl apply_op (ddir s) (take j (pend s))) ∧ pend s' = [] ∧
  (∀ i, option_Forall2 crash_inode (inodes s !! i) (inodes s' !! i)).

(** The crash that loses nothing: only the process died. *)
Definition kill_process (r : list fault) (s : fs) : fs :=
  mkFS (names s) [] ((λ n, mkInode (content n) (length (content n))) <$> inodes s) r.

(** The crash that loses everything not yet durable. *)
Definition power_cut (r : list fault) (s : fs) : fs :=
  mkFS (ddir s) []
    ((λ n, mkInode (take (synced n) (content n)) (length (take (synced n) (content n))))
       <$> inodes s) r.

(** Well-formed: every name the disk may come to show leads to an inode, and
    no more is durable than was written. *)
Record fs_wf (s : fs) : Prop := {
  wf_ddir : ∀ p i, ddir s !! p = Some i → is_Some (inodes s !! i);
  wf_pend : ∀ p i, DCreate p i ∈ pend s → is_Some (inodes s !! i);
  wf_synced : ∀ i n, inodes s !! i = Some n → (synced n ≤ length (content n))%nat
}.

Definition no_io_errors (s : fs) : Prop := Forall (λ f, ∀ k, f ≠ FErr k) (faults s).

Definition empty_fs (r : list fault) : fs := mkFS ∅ [] ∅ r.

(** ** Facts *)

Lemma wp_sys {A} (run : M fs A) partial Q s :
  (∀ r, r `suffix_of` faults s → wp run Q (s <| faults := r |>)) →
  (∀ k r, FErr k :: r `suffix_of` faults s → Q (Err EIO) (partial k (s <| faults := r |>))) →
  (∀ k r, FCrash k :: r `suffix_of` faults s → Q Crash (partial k (s <| faults := r |>))) →
  wp (sys run partial) Q s.
Proof.
  intros Hok Herr Hcr. unfold wp, sys. destruct (faults s) as [|[|k|k] r] eqn:E; simpl.
  - specialize (Hok [] ltac:(done)). unfold wp in Hok.
    by replace (s <| faults := [] |>) with s in Hok by (destruct s; simpl in *; by subst).
  - apply Hok. by apply suffix_cons_r.
  - by apply Herr.
  - by apply Hcr.
Qed.

(** The same, with the faults that are left. *)
Lemma wp_sys_next {A} (run : M fs A) partial Q s :
  wp run Q (s <| faults := tail (faults s) |>) →
  (∀ k r, faults s = FErr k :: r → Q (Err EIO) (partial k (s <| faults := r |>))) →
  (∀ k r, faults s = FCrash k :: r → Q Crash (partial k (s <| faults := r |>))) →
  wp (sys run partial) Q s.
Proof.
  intros Hok Herr Hcr. unfold wp, sys in *. destruct (faults s) as [|[|k|k] r] eqn:E; cbn in *; [|done|by apply Herr|by apply Hcr].
  by replace (s <| faults := [] |>) with s in Hok by (destruct s; cbn in *; by subst).
Qed.

Lemma new_inode_fresh s : inodes s !! new_inode s = None.
Proof. apply not_elem_of_dom. exact (is_fresh (dom (inodes s) : gset nat)). Qed.

Lemma names_journal o s : names (journal o s) = apply_op (names s) o.
Proof. unfold names, journal. cbn. by rewrite foldl_app. Qed.

(** Every directory the disk may show has the names of some journal prefix. *)
Definition prefix_dirs (s : fs) (d : gmap path nat) : Prop :=
  ∃ j, d = foldl apply_op (ddir s) (take j (pend s)).

Lemma prefix_dirs_names s : prefix_dirs s (names s).
Proof. exists (length (pend s)). unfold names. by rewrite firstn_all. Qed.

Lemma prefix_dirs_journal o s d :
  prefix_dirs (journal o s) d → prefix_dirs s d ∨ d = apply_op (names s) o.
Proof.
  intros [j ->]. cbn. destruct (decide (j ≤ length (pend s))%nat).
  - left. exists j. by rewrite take_app_le.
  - right. rewrite take_ge by (rewrite length_app; simpl; lia).
    by rewrite foldl_app.
Qed.

Lemma prefix_dirs_synced s d : pend s = [] → prefix_dirs s d → d = ddir s.
Proof. intros E [j ->]. by rewrite E, take_nil. Qed.

Lemma apply_op_range d o (P : nat → Prop) :
  (∀ p i, d !! p = Some i → P i) → (∀ p i, o = DCreate p i → P i) →
  ∀ p i, apply_op d o !! p = Some i → P i.
Proof.
  intros Hd Ho p i. destruct o as [q j|a b|q]; simpl.
  - rewrite lookup_insert. case_decide; [intros [= ->]; eauto|eauto].
  - destruct (d !! a) eqn:E; [|eauto]. rewrite lookup_insert.
    case_decide; [intros [= <-]; eauto|]. rewrite lookup_delete_Some. naive_solver.
  - rewrite lookup_delete_Some. naive_solver.
Qed.

Lemma prefix_dirs_range s d p i :
  fs_wf s → prefix_dirs s d → d !! p = Some i → is_Some (inodes s !! i).
Proof.
  intros [Hd Hp _] [j ->]. revert p i.
  assert (∀ q k, DCreate q k ∈ take j (pend s) → is_Some (inodes s !! k)) as Hp'.
  { intros q k Hin. eapply Hp, subseteq_take; eauto. }
  clear Hp. revert Hp' Hd. generalize (ddir s). generalize (take j (pend s)).
  intros l. induction l as [|o l IH]; simpl; [eauto|].
  intros d Hp' Hd. apply IH; [intros; eapply Hp'; by right|].
  apply (apply_op_range d o (λ i, is_Some (inodes s !! i))); [done|].
  intros q k ->. eapply Hp'. left.
Qed.

Lemma names_range s p i : fs_wf s → names s !! p = Some i → is_Some (inodes s !! i).
Proof. intros. eapply prefix_dirs_range; eauto using prefix_dirs_names. Qed.

Lemma crash_kill_process r s : crash s (kill_process r s).
Proof.
  split; [apply prefix_dirs_names|]. split; [done|].
  intros i. cbn. rewrite lookup_fmap. destruct (inodes s !! i) as [n|]; constructor.
  exists (synced n `max` length (content n))%nat. split; [lia|].
  cbn. rewrite take_ge by lia. done.
Qed.

Lemma crash_power_cut r s : crash s (power_cut r s).
Proof.
  split; [by exists 0%nat|]. split; [done|].
  intros i. cbn. rewrite lookup_fmap. destruct (inodes s !! i) as [n|]; constructor.
  by exists (synced n).
Qed.

Lemma crash_wf s s' : fs_wf s → crash s s' → fs_wf s'.
Proof.
  intros Hwf (Hd & Hp & Hi). split.
  - intros p i Hpi. destruct (prefix_dirs_range s (ddir s') p i Hwf Hd Hpi) as [n Hn].
    specialize (Hi i). rewrite Hn in Hi. inversion Hi; eauto.
  - rewrite Hp. intros p i Hin. by apply elem_of_nil in Hin.
  - intros i n Hn. specialize (Hi i). rewrite Hn in Hi. inversion Hi as [? ? (k & ? & ? & Hs)|].
    subst. rewrite Hs. done.
Qed.

(** [shows_in s p P]: whatever the disk comes to show at [p] satisfies [P]. *)
Definition shows_in (s : fs) (p : path) (P : option inode → Prop) : Prop :=
  ∀ d, prefix_dirs s d →
    match d !! p with
    | None => P None
    | Some i => ∃ n, inodes s !! i = Some n ∧ P (Some n)
    end.

(** A file all of whose bytes are durable, and satisfy [P]. *)
Definition durably (P : option bytes → Prop) (o : option inode) : Prop :=
  match o with
  | None => P None
  | Some n => synced n = length (content n) ∧ P (Some (content n))
  end.
Definition shows (s : fs) (p : path) (P : option bytes → Prop) : Prop := shows_in s p (durably P).

(** The file at [p] is [ob], now and after any crash. *)
Abbreviation stable s p ob := (shows s p (λ o, o = ob)).

(** The inodes that the names in [ps] may come to lead to. *)
Definition reach (s : fs) (ps : list path) (i : nat) : Prop :=
  ∃ d q, prefix_dirs s d ∧ q ∈ ps ∧ d !! q = Some i.

(** [untouched ps s s']: the step from [s] to [s'] concerned only the names in
    [ps], the inodes they led to, and fresh inodes. *)
Definition untouched (ps : list path) (s s' : fs) : Prop :=
  (∀ d', prefix_dirs s' d' → ∃ d, prefix_dirs s d ∧ ∀ q, q ∉ ps → d' !! q = d !! q) ∧
  (∀ q, q ∉ ps → names s' !! q = names s !! q) ∧
  (∀ i n, inodes s !! i = Some n → inodes s' !! i = Some n) ∧
  (∀ i, reach s' ps i → inodes s !! i = None ∨ reach s ps i).

Lemma untouched_refl ps s : untouched ps s s.
Proof. split_and!; eauto. Qed.

Lemma untouched_trans ps s1 s2 s3 :
  untouched ps s1 s2 → untouched ps s2 s3 → untouched ps s1 s3.
Proof.
  intros (Hd & Hn & Hi & Hr) (Hd' & Hn' & Hi' & Hr'). split_and!; eauto.
  - intros d3 H3. destruct (Hd' d3 H3) as (d2 & H2 & E2).
    destruct (Hd d2 H2) as (d1 & H1 & E1). exists d1. split; [done|].
    intros q Hq. by rewrite E2, E1.
  - intros q Hq. by rewrite Hn', Hn.
  - intros i [Hnone|?]%Hr'; [|by apply Hr]. left.
    destruct (inodes s1 !! i) as [n|] eqn:E; [|done]. apply Hi in E. congruence.
Qed.

Lemma untouched_faults ps s r : untouched ps s (s <| faults := r |>).
Proof. split_and!; eauto. Qed.

(** A journalled operation that creates no link to an inode from outside. *)
Lemma untouched_journal ps o s :
  (∀ q, q ∉ ps → apply_op (names s) o !! q = names s !! q) →
  (∀ q i, q ∈ ps → apply_op (names s) o !! q = Some i → reach s ps i) →
  untouched ps s (journal o s).
Proof.
  intros Ho Hr. split_and!.
  - intros d [Hd| ->]%prefix_dirs_journal; [by exists d|].
    exists (names s). split; [apply prefix_dirs_names|done].
  - intros q Hq. rewrite names_journal. by apply Ho.
  - done.
  - intros i (d & q & [Hd| ->]%prefix_dirs_journal & Hq & Hi); right; [by exists d, q|by eapply Hr].
Qed.

Lemma reach_names s ps q i : q ∈ ps → names s !! q = Some i → reach s ps i.
Proof. intros. exists (names s), q. eauto using prefix_dirs_names. Qed.

Lemma untouched_create p s : untouched [p] s (create_inode p s).
Proof.
  assert (∀ d', prefix_dirs (create_inode p s) d' →
    prefix_dirs s d' ∨ d' = <[p := new_inode s]> (names s)) as Hd.
  { intros d' [Hd| ->]%prefix_dirs_journal; [left; exact Hd|by right]. }
  split_and!.
  - intros d' [?| ->]%Hd; [by exists d'|]. exists (names s). split; [apply prefix_dirs_names|].
    intros q Hq. rewrite lookup_insert_ne; [done|set_solver].
  - intros q Hq. unfold create_inode. rewrite names_journal. simpl.
    rewrite lookup_insert_ne; [done|set_solver].
  - intros i n Hi. cbn. rewrite lookup_insert_ne; [done|]. intros <-. by rewrite new_inode_fresh in Hi.
  - intros i (d' & q & [?| ->]%Hd & Hq & Hi); [right; by exists d', q|].
    apply list_elem_of_singleton in Hq as ->. rewrite lookup_insert_eq in Hi. injection Hi as <-.
    left. apply new_inode_fresh.
Qed.

Lemma untouched_fsync ps s :
  untouched ps s (s <| ddir := names s |> <| pend := [] |>).
Proof.
  assert (∀ d, prefix_dirs (s <| ddir := names s |> <| pend := [] |>) d → d = names s) as Hd.
  { intros d Hd. by apply prefix_dirs_synced in Hd. }
  split_and!; [|done|done|].
  - intros d ->%Hd. exists (names s). split; [apply prefix_dirs_names|done].
  - intros i (d & q & ->%Hd & Hq & Hi). right. by eapply reach_names.
Qed.

Lemma shows_in_untouched ps s s' p P :
  p ∉ ps → untouched ps s s' → shows_in s p P → shows_in s' p P.
Proof.
  intros Hp (Hd & _ & Hi & _) Hs d' H'. destruct (Hd d' H') as (d & H & E).
  rewrite E by done. specialize (Hs d H).
  destruct (d !! p) as [i|]; [|done]. destruct Hs as (n & Hn & ?). eauto.
Qed.

Lemma shows_in_mono s p (P Q : option inode → Prop) :
  (∀ o, P o → Q o) → shows_in s p P → shows_in s p Q.
Proof. intros HPQ Hs d Hd. specialize (Hs d Hd). case_match; naive_solver. Qed.

Lemma durably_mono (P Q : option bytes → Prop) o :
  (∀ o, P o → Q o) → durably P o → durably Q o.
Proof. intros HPQ. destruct o; simpl; naive_solver. Qed.

Lemma shows_untouched ps s s' p P :
  p ∉ ps → untouched ps s s' → shows s p P → shows s' p P.
Proof. apply shows_in_untouched. Qed.

Lemma shows_mono s p (P Q : option bytes → Prop) :
  (∀ o, P o → Q o) → shows s p P → shows s p Q.
Proof. intros HPQ. apply shows_in_mono. intros o. by apply durably_mono. Qed.

Lemma shows_file s p P : shows s p P → P (file s p).
Proof.
  intros Hs. specialize (Hs _ (prefix_dirs_names s)). unfold file.
  destruct (names s !! p) as [i|]; simpl; [|done].
  destruct Hs as (n & -> & _ & ?). done.
Qed.

Lemma shows_crash s s' p P : crash s s' → shows s p P → shows s' p P.
Proof.
  intros (Hd & Hp & Hi) Hs d' Hd'. apply prefix_dirs_synced in Hd'; [|done]. subst.
  specialize (Hs _ Hd). destruct (ddir s' !! p) as [i|]; [|done].
  destruct Hs as (n & Hn & Hsync & HP). specialize (Hi i). rewrite Hn in Hi.
  inversion Hi as [? n' (k & Hk & Hc & Hs') Heq|]; subst. exists n'.
  unfold durably. rewrite Hc in *. rewrite take_ge in * by lia. done.
Qed.

Lemma fs_wf_faults s r : fs_wf s → fs_wf (s <| faults := r |>).
Proof. intros [? ? ?]. by split. Qed.

Lemma fs_wf_journal o s :
  fs_wf s → (∀ p i, o = DCreate p i → is_Some (inodes s !! i)) → fs_wf (journal o s).
Proof.
  intros [Hd Hp Hs] Ho. split; [done| |done]. cbn. intros p i.
  rewrite elem_of_app, list_elem_of_singleton. naive_solver.
Qed.

Lemma fs_wf_create p s : fs_wf s → fs_wf (create_inode p s).
Proof.
  intros [Hd Hp Hs]. apply fs_wf_journal.
  - split; cbn; intros.
    + rewrite lookup_insert. case_decide; eauto.
    + rewrite lookup_insert. case_decide; eauto.
    + rewrite lookup_insert in *. case_decide; simplify_eq/=; eauto.
  - intros q i [= -> <-]. cbn. rewrite lookup_insert_eq. eauto.
Qed.

Lemma fs_wf_write i data s : fs_wf s → fs_wf (write_inode i data s).
Proof.
  intros [Hd Hp Hs]. split; cbn.
  { intros p j Hj. apply lookup_alter_is_Some. eauto. }
  { intros p j Hj. apply lookup_alter_is_Some. eauto. }
  intros j m. rewrite lookup_alter. case_decide; [|eauto]. subst j.
  destruct (inodes s !! i) as [n|] eqn:E; intros [= <-]; simpl.
  rewrite length_app. specialize (Hs _ _ E). lia.
Qed.

Lemma fs_wf_fsync s : fs_wf s → fs_wf (s <| ddir := names s |> <| pend := [] |>).
Proof.
  intros Hwf. split; cbn.
  - intros p i. by apply names_range.
  - intros p i Hin. by apply elem_of_nil in Hin.
  - apply Hwf.
Qed.
