(* ===== verification/Record.v ===== *)
(** * internal/record: CRC-framed records and atomic file replacement

    [Frame] and [Parse] are the on-disk record format shared by the KV
    write-ahead log and the Raft log; [WriteFileAtomic] is the write-then-rename
    replacement used for the vote file, the Raft snapshot and log rewrites. *)

From stdpp Require Import prelude gmap strings.
From coqutil Require Import Byte Word.LittleEndianList.
From S2P Require Import Prelude GoBytes GoFS.
Open Scope Z_scope.

Definition Checksum (b : bytes) : Z := crc32c b.

Definition HeaderSize : Z := 8.

Definition Frame (buf payload : bytes) : bytes :=
  let buf := AppendUint32 buf (u32 (zlength payload)) in
  let buf := AppendUint32 buf (Checksum payload) in
  buf ++ payload.

(** The result is [Some (payload, recLen)] for [ok = true]. *)
Definition Parse (b : bytes) (maxPayload : Z) : outcome (option (bytes * Z)) :=
  if zlength b <? HeaderSize then mret None else
  payloadLen ← Uint32 b;
  b4 ← zslice_from b 4;
  crc ← Uint32 b4;
  if maxPayload <? payloadLen then mret None else
  let end_ := HeaderSize + payloadLen in
  if zlength b <? end_ then mret None else
  payload ← zslice b HeaderSize end_;
  if negb (Checksum payload =? crc) then mret None else
  mret (Some (payload, end_)).

(** [record.SyncDir] on a system whose directories can be synced (on Windows
    it does nothing). *)
Definition SyncDir (d : gostring) : M fs () := FsyncDir d.

Definition tmp_of (p : path) : path := (p.1, p.2 ++ str ".tmp").

Definition WriteFileAtomic (p : path) (data : bytes) : M fs () :=
  f ← OpenTrunc (tmp_of p);
  r ← attempt (
    Write f data;;
    Sync f;;
    Close f;;
    Rename (tmp_of p) p;;
    SyncDir p.1);
  match r with
  | inl _ => mret ()
  | inr err =>
      attempt (Close f);;
      attempt (Remove (tmp_of p));;
      throw err
  end.

(** ** Records *)

Lemma length_Frame buf payload :
  length (Frame buf payload) = (length buf + 8 + length payload)%nat.
Proof.
  unfold Frame, AppendUint32. rewrite !length_app, !length_le4. lia.
Qed.

Lemma Frame_app buf payload : Frame buf payload = buf ++ Frame [] payload.
Proof. unfold Frame, AppendUint32. by rewrite <-!app_assoc. Qed.

(** What [Parse] reads from the header of a frame. *)
Lemma Parse_header payload rest maxPayload :
  zlength payload < 2 ^ 32 →
  Parse (Frame [] payload ++ rest) maxPayload =
    if maxPayload <? zlength payload then Ok None else Ok (Some (payload, 8 + zlength payload)).
Proof.
  intros Hlen. unfold Parse, HeaderSize.
  assert (zlength (Frame [] payload ++ rest) = 8 + zlength payload + zlength rest) as Hl.
  { rewrite length_app, length_Frame. simpl. lia. }
  rewrite Hl. rewrite (proj2 (Z.ltb_ge _ _)) by lia.
  unfold Frame, AppendUint32. rewrite app_nil_l, <-!app_assoc.
  assert (is_u32 (zlength payload)) by (unfold is_u32; lia).
  rewrite (u32_small (zlength payload)) by done.
  rewrite Uint32_app, u32_small by done. simpl.
  rewrite zslice_from_ok by (rewrite !length_app, !length_le4; lia).
  change (Z.to_nat 4) with 4%nat. rewrite drop_app_length' by (by rewrite length_le4).
  simpl. rewrite Uint32_app. simpl.
  rewrite (u32_small (Checksum payload)) by apply crc32c_range.
  case_match; [done|]. rewrite (proj2 (Z.ltb_ge _ _)) by lia.
  rewrite zslice_ok by (rewrite ?length_app, ?length_le4; lia). simpl.
  rewrite app_assoc, drop_app_length' by (by rewrite length_app, !length_le4).
  replace (Z.to_nat (8 + zlength payload - 8)) with (length payload) by lia.
  rewrite take_app_length, Z.eqb_refl. done.
Qed.

(** A framed record parses back to its payload whatever bytes follow it,
    and the reported length is the length of the frame. *)
Theorem Parse_Frame payload rest maxPayload :
  zlength payload ≤ maxPayload → maxPayload < 2 ^ 32 →
  Parse (Frame [] payload ++ rest) maxPayload =
    Ok (Some (payload, zlength (Frame [] payload))).
Proof.
  intros Hp Hm. rewrite Parse_header by lia. rewrite (proj2 (Z.ltb_ge _ _)) by lia.
  do 4 f_equal. rewrite length_Frame. simpl. lia.
Qed.

(** What a successful parse says of the bytes it read. *)
Lemma Parse_sound b maxPayload payload n :
  Parse b maxPayload = Ok (Some (payload, n)) →
  zlength payload ≤ maxPayload ∧ zlength payload < 2 ^ 32 ∧ n = 8 + zlength payload ∧
  b = Frame [] payload ++ drop (Z.to_nat n) b.
Proof.
  unfold Parse, HeaderSize. case_match; [done|]. zify_bool.
  destruct (Uint32_long b) as [len Hlen]; [lia|]. rewrite Hlen. simpl.
  rewrite zslice_from_ok by lia. simpl. change (Z.to_nat 4) with 4%nat.
  destruct (Uint32_long (drop 4 b)) as [crc Hcrc]; [rewrite length_drop; lia|].
  rewrite Hcrc. simpl. case_match; [done|]. case_match; [done|]. zify_bool.
  apply Uint32_inv in Hlen as [Hlr Hb]. apply Uint32_inv in Hcrc as [Hcr Hb4].
  rewrite drop_drop in Hb4. unfold is_u32 in *.
  rewrite zslice_ok by lia. simpl. case_match; [done|]. intros [= <- <-]. zify_bool.
  change (Z.to_nat 8) with 8%nat in *.
  replace (Z.to_nat (8 + len - 8)) with (Z.to_nat len) in * by lia.
  assert (zlength (take (Z.to_nat len) (drop 8 b)) = len) as Hpl.
  { rewrite length_take, length_drop. lia. }
  rewrite Hpl. split_and!; [lia..|].
  unfold Frame, AppendUint32. rewrite Hpl, u32_small by done.
  replace (Checksum _) with crc by congruence.
  rewrite app_nil_l, <-!app_assoc.
  replace (drop (Z.to_nat (8 + len)) b) with (drop (Z.to_nat len) (drop 8 b))
    by (rewrite drop_drop; f_equal; lia).
  rewrite take_drop. change (4 + 4)%nat with 8%nat in Hb4. rewrite <-Hb4. done.
Qed.

Lemma Parse_total b maxPayload : ∃ r, Parse b maxPayload = Ok r.
Proof.
  unfold Parse, HeaderSize. case_match; [eexists; reflexivity|]. zify_bool.
  destruct (Uint32_long b) as [len Hlen]; [lia|]. rewrite Hlen. simpl.
  rewrite zslice_from_ok by lia. simpl. change (Z.to_nat 4) with 4%nat.
  destruct (Uint32_long (drop 4 b)) as [crc Hcrc]; [rewrite length_drop; lia|].
  rewrite Hcrc. simpl. case_match; [eexists; reflexivity|]. case_match; [eexists; reflexivity|].
  zify_bool. apply Uint32_inv in Hlen as [Hlr _]. unfold is_u32 in *.
  rewrite zslice_ok by lia. simpl. case_match; eexists; reflexivity.
Qed.

Lemma Frame_inj_app p1 p2 r1 r2 :
  zlength p1 < 2 ^ 32 → zlength p2 < 2 ^ 32 →
  Frame [] p1 ++ r1 = Frame [] p2 ++ r2 → p1 = p2 ∧ r1 = r2.
Proof.
  intros H1 H2 Heq.
  assert (Parse (Frame [] p1 ++ r1) (2 ^ 32) = Parse (Frame [] p2 ++ r2) (2 ^ 32)) as HP
    by by rewrite Heq.
  rewrite !Parse_header in HP by done.
  rewrite !(proj2 (Z.ltb_ge _ _)) in HP by lia. injection HP as <- _.
  split; [done|]. by apply app_inv_head in Heq.
Qed.

(** A proper prefix of a record is not a record. *)
Lemma Parse_prefix payload b maxPayload :
  zlength payload < 2 ^ 32 →
  b `prefix_of` Frame [] payload → b ≠ Frame [] payload →
  Parse b maxPayload = Ok None.
Proof.
  intros Hlen [r Hr] Hne. destruct (Parse_total b maxPayload) as [[[p n]|] HP]; [|done].
  exfalso. apply Parse_sound in HP as (_ & Hp & -> & Hb).
  rewrite Hb in Hr. rewrite <-app_assoc in Hr.
  rewrite <-(app_nil_r (Frame [] payload)) in Hr.
  apply Frame_inj_app in Hr as [<- Hnil]; [|done..].
  symmetry in Hnil. apply app_eq_nil in Hnil as [Hd _]. rewrite Hd, app_nil_r in Hb. done.
Qed.

(** C19: a record torn by a crash, cut at any point before its last byte, is
    never mistaken for a record: [Parse] answers [ok = false].  This does not rely on
    the checksum. *)
Theorem Parse_torn payload k maxPayload :
  zlength payload < 2 ^ 32 → (k < length (Frame [] payload))%nat →
  Parse (take k (Frame [] payload)) maxPayload = Ok None.
Proof.
  intros Hlen Hk. apply (Parse_prefix payload); [done| |].
  - exists (drop k (Frame [] payload)). by rewrite take_drop.
  - intros H%(f_equal length). rewrite length_take in H. lia.
Qed.

Lemma Parse_torn_witness :
  Parse (take 11 (Frame [] (str "hello"))) 100 = Ok None.
Proof. apply Parse_torn; [done|]. vm_compute. lia. Defined.

Lemma Parse_Frame_witness :
  Parse (Frame [] (str "hello") ++ str "tail") 100 =
    Ok (Some (str "hello", zlength (Frame [] (str "hello")))).
Proof. apply Parse_Frame; [vm_compute; discriminate|done]. Defined.

(** ** Atomic replacement *)


(** Replacing the contents of [p], which satisfied [P] before, by [data]. *)
Definition new_file (data : bytes) : option inode := Some (mkInode data (length data)).

Definition atomic_post (p : path) (P : option inode → Prop) (data : bytes) (s : fs)
    (o : outcome ()) (s' : fs) : Prop :=
  fs_wf s' ∧ untouched [p; tmp_of p] s s' ∧ faults s' `suffix_of` faults s ∧
  match o with
  | Ok _ => stable s' p (Some data) ∧ pend s' = []
  | Err _ => shows_in s' p (λ o, P o ∨ o = new_file data) ∧ ¬ no_io_errors s
  | Crash => shows_in s' p (λ o, P o ∨ o = new_file data)
  | Panic => False
  end.

Lemma tmp_of_ne p : tmp_of p ≠ p.
Proof.
  destruct p as [d n]. unfold tmp_of; simpl. intros [= H%(f_equal length)].
  rewrite length_app in H. simpl in H. lia.
Qed.

Lemma not_no_io_errors k r s : FErr k :: r `suffix_of` faults s → ¬ no_io_errors s.
Proof.
  intros [l Hl] Hn. unfold no_io_errors in Hn. rewrite Hl, Forall_app, Forall_cons in Hn.
  naive_solver.
Qed.

Lemma no_io_errors_suffix s r :
  r `suffix_of` faults s → no_io_errors s → Forall (λ f, ∀ k, f ≠ FErr k) r.
Proof. intros [l Hl]. unfold no_io_errors. rewrite Hl, Forall_app. naive_solver. Qed.

(** Writing to an inode the disk did not have before touches nothing. *)
Lemma untouched_alter ps s0 s f i :
  inodes s0 !! i = None → untouched ps s0 s → untouched ps s0 (s <| inodes ::= alter f i |>).
Proof.
  intros Hi (Hd & Hn & Hk & Hr). split_and!; [done|done| |done].
  intros j n Hj. cbn. rewrite lookup_alter_ne; [eauto|]. intros ->. congruence.
Qed.

Lemma untouched_weaken ps qs s s' : ps ⊆ qs → untouched ps s s' → untouched qs s s'.
Proof.
  intros Hs (Hd & Hn & Hk & Hr). split_and!; [|set_solver|done|].
  - intros d' H'. destruct (Hd d' H') as (d & ? & E). exists d. set_solver.
  - intros i (d' & q & H' & Hq & Hi). destruct (decide (q ∈ ps)).
    + destruct (Hr i) as [?|(d & q' & ? & ? & ?)]; [by exists d', q|by left|].
      right. exists d, q'. set_solver.
    + destruct (Hd d' H') as (d & ? & E). right. exists d, q. rewrite <-E; eauto.
Qed.

Lemma fs_wf_sync i s :
  fs_wf s →
  fs_wf (s <| inodes ::= alter (λ n, mkInode (content n) (length (content n))) i |>).
Proof.
  intros [Hd Hp Hs]. split; cbn.
  - intros p j Hj. apply lookup_alter_is_Some. eauto.
  - intros p j Hj. apply lookup_alter_is_Some. eauto.
  - intros j m. rewrite lookup_alter. case_decide; [|eauto]. subst j.
    destruct (inodes s !! i) eqn:E; intros [= <-]; simpl; lia.
Qed.

Section atomic.
Context (p : path) (P : option inode → Prop) (data : bytes) (s0 : fs).
Abbreviation tmp := (tmp_of p).
Abbreviation either := (λ o : option inode, P o ∨ o = new_file data).

(** Before the rename: only the temporary name has changed, and it leads to
    an inode [f] that [s0] does not have. *)
Definition staged (f : nat) (c : bytes) (k : nat) (s : fs) : Prop :=
  fs_wf s ∧ untouched [tmp] s0 s ∧ faults s `suffix_of` faults s0 ∧
  names s !! tmp = Some f ∧ inodes s !! f = Some (mkInode c k).

(** The result of any step: the target is the old file or the new one. *)
Definition settled (s : fs) : Prop :=
  fs_wf s ∧ untouched [p; tmp] s0 s ∧ faults s `suffix_of` faults s0 ∧ shows_in s p either.

Lemma staged_settled f c k s : shows_in s0 p P → staged f c k s → settled s.
Proof.
  intros stable0 (? & Hu & ? & _). split_and!; [done| |done|].
  - eapply untouched_weaken; [|done]. set_solver.
  - eapply shows_in_mono; [|eapply (shows_in_untouched [tmp]); [|done|exact stable0]].
    + by left.
    + pose proof (tmp_of_ne p). set_solver.
Qed.

Lemma settled_faults s r : settled s → r `suffix_of` faults s → settled (s <| faults := r |>).
Proof.
  intros (? & ? & ? & ?) Hr. split_and!; [by apply fs_wf_faults|done| |done].
  by etrans.
Qed.

Lemma staged_faults f c k s r :
  staged f c k s → r `suffix_of` faults s → staged f c k (s <| faults := r |>).
Proof.
  intros (? & ? & ? & ? & ?) Hr. split_and!; [by apply fs_wf_faults|done| |done|done].
  by etrans.
Qed.

Lemma staged_write f c k b s :
  inodes s0 !! f = None → staged f c k s → staged f (c ++ b) k (write_inode f b s).
Proof.
  intros Hf (? & ? & ? & ? & Hi). split_and!; [by apply fs_wf_write| |done|done|].
  - by apply untouched_alter.
  - cbn. by rewrite lookup_alter_eq, Hi.
Qed.

(** After the rename the target is the new file or the old one. *)
Lemma staged_rename f s :
  shows_in s0 p P → staged f data (length data) s →
  settled (journal (DRename tmp p) s) ∧
  names (journal (DRename tmp p) s) !! p = Some f.
Proof.
  intros stable0 Hst. pose proof (staged_settled _ _ _ _ stable0 Hst) as (_ & _ & _ & Hsh).
  destruct Hst as (Hwf & Hu & Hf & Hn & Hi).
  assert (apply_op (names s) (DRename tmp p) = <[p := f]> (delete tmp (names s))) as Hop
    by (simpl; by rewrite Hn).
  rewrite names_journal, Hop, lookup_insert_eq. split; [|done].
  split_and!; [by apply fs_wf_journal| |done|].
  - eapply untouched_trans; [eapply untouched_weaken; [|done]; set_solver|].
    apply untouched_journal; intros q; rewrite Hop.
    + intros Hq. rewrite lookup_insert_ne, lookup_delete_ne by set_solver. done.
    + intros i Hq. rewrite lookup_insert. case_decide; [intros [= <-]|].
      * eapply reach_names; [|exact Hn]. set_solver.
      * rewrite lookup_delete_Some. intros [? Hi']. by eapply reach_names.
  - intros d [Hd| ->]%prefix_dirs_journal; [by apply Hsh|].
    rewrite Hop, lookup_insert_eq. eexists. split; [exact Hi|]. eauto.
Qed.

Lemma settled_fsync s f :
  settled s → names s !! p = Some f → inodes s !! f = Some (mkInode data (length data)) →
  let s' := s <| ddir := names s |> <| pend := [] |> in
  settled s' ∧ stable s' p (Some data) ∧ pend s' = [].
Proof.
  intros (Hwf & Hu & Hf & Hsh) Hp Hi.
  assert (stable (s <| ddir := names s |> <| pend := [] |>) p (Some data)) as Hst.
  { intros d Hd%prefix_dirs_synced; [|done]. subst d. cbn. rewrite Hp. eauto. }
  split; [|by split]. split_and!; [by apply fs_wf_fsync| |done|].
  - eapply untouched_trans; [done|]. apply untouched_fsync.
  - intros d Hd%prefix_dirs_synced; [|done]. subst d. cbn. rewrite Hp. eexists. split; [done|by right].
Qed.

Lemma settled_remove s : settled s → settled (journal (DRemove tmp) s).
Proof.
  intros (Hwf & Hu & Hf & Hsh).
  assert (∀ q, q ≠ tmp → apply_op (names s) (DRemove tmp) !! q = names s !! q) as Hop.
  { intros q Hq. simpl. by rewrite lookup_delete_ne. }
  assert (∀ ps, tmp ∈ ps → untouched ps s (journal (DRemove tmp) s)) as Hut.
  { intros ps Hps. apply untouched_journal; intros q.
    - intros Hq. apply Hop. set_solver.
    - intros i Hq. simpl. rewrite lookup_delete_Some. intros [_ ?]. by eapply reach_names. }
  split_and!; [by apply fs_wf_journal| |done|].
  - eapply untouched_trans; [done|]. apply Hut. set_solver.
  - eapply (shows_in_untouched [tmp]); [|apply Hut; set_solver|done].
    pose proof (tmp_of_ne p). set_solver.
Qed.
End atomic.

(** One system call under symbolic execution: success, error, crash. *)
Ltac wp_call r Hr := apply wp_sys; [intros r Hr|intros ?k r Hr|intros ?k r Hr].

Definition steps_post (p : path) (P : option inode → Prop) (data : bytes) (s0 : fs)
    (o : outcome ()) (s : fs) : Prop :=
  settled p P data s0 s ∧
  match o with
  | Ok _ => stable s p (Some data) ∧ pend s = []
  | Err _ => ¬ no_io_errors s0
  | Crash => True
  | Panic => False
  end.

(** A system call that is not the last of the sequence. *)
Lemma wp_atomic_call {A} p P data s0 (run : M fs A) partial (k : A → M fs ()) s :
  faults s `suffix_of` faults s0 →
  (∀ j r, r `suffix_of` faults s → settled p P data s0 (partial j (s <| faults := r |>))) →
  (∀ r, r `suffix_of` faults s →
     wp run (wpk k (steps_post p P data s0)) (s <| faults := r |>)) →
  wp (sys run partial) (wpk k (steps_post p P data s0)) s.
Proof.
  intros Hs Hp Hrun. wp_call r Hr.
  - by apply Hrun.
  - split; [apply Hp; by eapply suffix_cons_l|]. eapply not_no_io_errors. by etrans.
  - split; [apply Hp; by eapply suffix_cons_l|done].
Qed.

Lemma atomic_steps_spec p P data s0 f s :
  shows_in s0 p P → inodes s0 !! f = None → staged p s0 f [] 0 s →
  wp (Write f data;; Sync f;; Close f;; Rename (tmp_of p) p;; SyncDir p.1)
    (steps_post p P data s0) s.
Proof.
  intros Hst0 Hf Hst.
  assert (∀ c k r s, staged p s0 f c k s → r `suffix_of` faults s →
            settled p P data s0 (s <| faults := r |>)) as Hset.
  { intros. eapply staged_settled; [done|]. by apply staged_faults. }
  apply wp_bind, wp_atomic_call; [apply Hst|..].
  { intros j r Hr. eapply staged_settled; [done|].
    apply (staged_write _ _ _ []); [done|]. by apply staged_faults. }
  intros r Hr. unfold wp; cbn [fst snd wpk].
  assert (staged p s0 f data 0 (write_inode f data (s <| faults := r |>))) as Hst1.
  { apply (staged_write _ _ _ []); [done|]. by apply staged_faults. }
  revert Hst1. generalize (write_inode f data (s <| faults := r |>)). clear s Hst r Hr.
  intros s Hst. apply wp_bind, wp_atomic_call; [apply Hst|by eauto|].
  intros r Hr. unfold wp; cbn [fst snd wpk].
  match goal with |- wp _ _ ?s' => assert (staged p s0 f data (length data) s') as Hst1 end.
  { apply staged_faults with (r := r) in Hst; [|done].
    destruct Hst as (? & ? & ? & ? & Hi). split_and!; [by apply fs_wf_sync| |done|done|].
    - by apply untouched_alter.
    - cbn. cbn in Hi. by rewrite lookup_alter_eq, Hi. }
  revert Hst1. match goal with |- _ → wp _ _ ?s' => generalize s' end. clear s Hst r Hr.
  intros s Hst. apply wp_bind, wp_atomic_call; [apply Hst|by eauto|].
  intros r Hr. unfold wp; cbn [fst snd wpk].
  apply staged_faults with (r := r) in Hst; [|done].
  revert Hst. generalize (s <| faults := r |>). clear s r Hr. intros s Hst.
  apply wp_bind, wp_atomic_call; [apply Hst|by eauto|].
  intros r Hr. apply staged_faults with (r := r) in Hst; [|done].
  revert Hst. generalize (s <| faults := r |>). clear s r Hr. intros s Hst.
  destruct (staged_rename p P data s0 f s Hst0 Hst) as [Hset' Hp].
  destruct Hst as (_ & _ & _ & Hn & Hi). unfold wp. rewrite Hn. cbn [fst snd wpk].
  unfold SyncDir, FsyncDir. wp_call r Hr.
  - unfold wp; cbn [fst snd].
    apply settled_faults with (r := r) in Hset'; [|done].
    by apply (settled_fsync p P data s0 _ f).
  - split; [apply settled_faults; [done|by eapply suffix_cons_l]|].
    eapply not_no_io_errors. etrans; [done|]. apply Hset'.
  - split; [|done]. apply settled_faults; [done|by eapply suffix_cons_l].
Qed.

(** The deferred clean-up of a failed replacement. *)
Lemma cleanup_spec p P data s0 f e s :
  settled p P data s0 s →
  wp (attempt (Close f);; attempt (Remove (tmp_of p));; throw (A:=()) e)
    (λ o s', settled p P data s0 s' ∧ (o = Err e ∨ o = Crash)) s.
Proof.
  intros Hset.
  apply wp_bind, wp_attempt. wp_call r Hr.
  3:{ split; [apply settled_faults; [done|by eapply suffix_cons_l]|by right]. }
  1: apply settled_faults with (r := r) in Hset; [|done].
  2: apply settled_faults with (r := r) in Hset; [|by eapply suffix_cons_l].
  all: unfold wp; cbn [fst snd wpk]; revert Hset; generalize (s <| faults := r |>);
    clear s Hr; intros s Hset; apply wp_bind, wp_attempt; unfold Remove; wp_call r2 Hr2.
  all: apply settled_faults with (r := r2) in Hset;
         [|first [exact Hr2 | by eapply suffix_cons_l]].
  all: try (unfold wp; cbn [fst snd wpk]; try apply wp_throw; split; [done|by eauto]).
  all: unfold wp; destruct (names _ !! _); cbn [fst snd wpk]; apply wp_throw;
    (split; [first [done|by apply settled_remove]|by left]).
Qed.

(** The general form: [P] is what is known of the old file. *)
Lemma WriteFileAtomic_spec p P data s :
  fs_wf s → shows_in s p P → wp (WriteFileAtomic p data) (atomic_post p P data s) s.
Proof.
  intros Hwf Hst. unfold WriteFileAtomic, atomic_post. apply wp_bind.
  assert (∀ r, r `suffix_of` faults s → settled p P data s (s <| faults := r |>)) as H0.
  { intros r Hr. split_and!; [by apply fs_wf_faults|apply untouched_faults|done|].
    eapply shows_in_mono; [|exact Hst]. by left. }
  unfold OpenTrunc. wp_call r Hr.
  2:{ destruct (H0 r) as (? & ? & ? & ?); [by eapply suffix_cons_l|].
      split_and!; try done. by eapply not_no_io_errors. }
  2:{ destruct (H0 r) as (? & ? & ? & ?); [by eapply suffix_cons_l|]. by split_and!. }
  unfold wp; cbn [fst snd wpk]. apply wp_bind, wp_attempt.
  set (f := new_inode _).
  assert (staged p s f [] 0 (create_inode (tmp_of p) (s <| faults := r |>))) as Hstg.
  { split_and!; [by apply fs_wf_create, fs_wf_faults| |done| |].
    - eapply untouched_trans; [apply untouched_faults|apply untouched_create].
    - unfold create_inode. rewrite names_journal. simpl. by rewrite lookup_insert_eq.
    - cbn. by rewrite lookup_insert_eq. }
  eapply wp_mono; [apply atomic_steps_spec; [done|exact (new_inode_fresh (s <| faults := r |>))|exact Hstg]|].
  intros o s1 [Hset Ho]. destruct o as [[]|e| |]; cbn [wpk]; [|..|by destruct Ho|].
  - apply wp_ret. destruct Hset as (? & ? & ? & ?). done.
  - eapply wp_mono; [by apply cleanup_spec|].
    intros o s2 [(? & ? & ? & ?) [-> | ->]]; by split_and!.
  - destruct Hset as (? & ? & ? & ?). by split_and!.
Qed.

Lemma fs_wf_empty r : fs_wf (empty_fs r).
Proof. split; cbn; intros *; [done|by intros ?%elem_of_nil|done]. Qed.

Lemma stable_empty r p : stable (empty_fs r) p None.
Proof. intros d Hd%prefix_dirs_synced; [|done]. by subst. Qed.

(** C12: [WriteFileAtomic] is atomic under faults and crashes.  When it returns,
    the file holds the new data durably; when it fails or the machine stops
    inside it, at any system call, the next boot finds the old file or the new
    one whole, never a mix; no other file is touched; and without I/O errors it
    does not fail. *)
Theorem WriteFileAtomic_atomic p ob data s :
  fs_wf s → stable s p ob →
  wp (WriteFileAtomic p data) (λ o s',
    fs_wf s' ∧ untouched [p; tmp_of p] s s' ∧
    match o with
    | Ok _ => stable s' p (Some data)
    | Err _ => shows s' p (λ o, o = ob ∨ o = Some data) ∧ ¬ no_io_errors s
    | Crash => shows s' p (λ o, o = ob ∨ o = Some data)
    | Panic => False
    end) s.
Proof.
  intros Hwf Hst. eapply wp_mono; [by apply (WriteFileAtomic_spec p (durably (λ o, o = ob)))|].
  intros o s' (? & ? & _ & Ho). split_and!; [done|done|].
  assert (∀ o, durably (λ o, o = ob) o ∨ o = new_file data →
    durably (λ o, o = ob ∨ o = Some data) o) as Hd.
  { intros o' [?| ->]; [eapply durably_mono; [|done]; by left|by split; [|right]]. }
  destruct o as [[]| | |]; [by destruct Ho|..|done|].
  - destruct Ho as [Ho ?]. split; [|done]. exact (shows_in_mono _ _ _ _ Hd Ho).
  - exact (shows_in_mono _ _ _ _ Hd Ho).
Qed.

(** The theorem at work on a crash inside the third system call. *)
Lemma WriteFileAtomic_atomic_witness :
  let s := empty_fs [FOk; FOk; FCrash 0] in
  shows (WriteFileAtomic (str "data", str "state") (str "vote") s).2 (str "data", str "state")
    (λ o, o = None ∨ o = Some (str "vote")).
Proof.
  exact (proj2 (proj2 (WriteFileAtomic_atomic (str "data", str "state") None (str "vote")
    (empty_fs [FOk; FOk; FCrash 0]) (fs_wf_empty _) (stable_empty _ _)))).
Defined.
