(* ===== verification/MemStore.v ===== *)
(** * internal/storage/memstore.go: the in-memory map

    The state machine that owns the data.  The mutex makes each method atomic;
    the copies [Put] and [Get] make keep callers from aliasing the stored
    bytes, so a value is a plain byte sequence here. *)

From stdpp Require Import prelude gmap strings.
From S2P Require Import Prelude GoBytes.
Open Scope Z_scope.

Abbreviation MemStore := (gmap gostring bytes).

Definition NewMemStore : MemStore := ∅.

Definition Put (key : gostring) (value : bytes) (s : MemStore) : MemStore := <[key := value]> s.

(** [(value, found)] *)
Definition Get (key : gostring) (s : MemStore) : bytes * bool :=
  match s !! key with
  | None => ([], false)
  | Some v => (v, true)
  end.

(** Returns [existed]. *)
Definition Delete (key : gostring) (s : MemStore) : bool * MemStore :=
  (bool_decide (is_Some (s !! key)), delete key s).

(** [Range] visits the pairs in an order Go leaves open: any list of the
    map's pairs. *)
Definition is_range (s : MemStore) (l : list (gostring * bytes)) : Prop :=
  l ≡ₚ map_to_list s.

Definition Len (s : MemStore) : Z := Z.of_nat (size s).

Lemma is_range_length s l : is_range s l → zlength l = Len s.
Proof. intros H. unfold Len. f_equal. by rewrite H, length_map_to_list. Qed.

(** Putting the pairs of a map, in any order, into an empty map rebuilds it. *)
Lemma is_range_rebuild s l :
  is_range s l → foldl (λ m kv, Put kv.1 kv.2 m) NewMemStore l = s.
Proof.
  intros H.
  assert (NoDup l.*1) as Hnd by (rewrite H; apply NoDup_fst_map_to_list).
  rewrite <-(list_to_map_to_list s), <-(list_to_map_proper l _ Hnd H).
  clear H. unfold NewMemStore, Put.
  assert (∀ m : MemStore,
    foldl (λ m kv, <[kv.1 := kv.2]> m) m l = (list_to_map l : MemStore) ∪ m) as Hgen.
  { induction l as [|[k v] l IH]; intros m; simpl; [by rewrite (left_id_L ∅ (∪))|].
    apply NoDup_cons in Hnd as [Hk Hnd]. rewrite IH by done.
    rewrite <-insert_union_l, insert_union_r; [done|].
    by apply not_elem_of_list_to_map_1. }
  by rewrite Hgen, (right_id_L ∅ (∪)).
Qed.
