(* ===== verification/Command.v ===== *)
(** * internal/storage/command.go: the encoding of one mutation

    [uint8 op | uint32 keyLen | key | uint32 valLen | value], little-endian:
    what the write-ahead log persists and what the Raft log replicates. *)

From stdpp Require Import prelude gmap strings.
From coqutil Require Import Byte Word.LittleEndianList.
From S2P Require Import Prelude GoBytes.
Open Scope Z_scope.

Definition OpPut : Init.Byte.byte := Init.Byte.x01.
Definition OpDelete : Init.Byte.byte := Init.Byte.x02.

Record Command := mkCommand {
  Op : Init.Byte.byte;
  Key : gostring;
  Value : bytes
}.

Definition encodeCommand (buf : bytes) (c : Command) : bytes :=
  let buf := buf ++ [Op c] in
  let buf := AppendUint32 buf (u32 (zlength (Key c))) in
  let buf := buf ++ Key c in
  let buf := AppendUint32 buf (u32 (zlength (Value c))) in
  buf ++ Value c.

Definition decodeCommand (b : bytes) : outcome Command :=
  if zlength b <? 1 + 4 then Err (EMsg "command truncated: %d bytes") else
  op ← zindex b 0;
  if negb (bool_decide (op = OpPut)) && negb (bool_decide (op = OpDelete))
  then Err (EMsg "unknown command op %d") else
  b ← zslice_from b 1;
  keyLen ← Uint32 b;
  b ← zslice_from b 4;
  if u64 (zlength b) <? u64 (keyLen + 4)
  then Err (EMsg "command truncated inside key (keyLen=%d, %d bytes left)") else
  key ← zslice_to b keyLen;
  b ← zslice_from b keyLen;
  valLen ← Uint32 b;
  b ← zslice_from b 4;
  if negb (u64 (zlength b) =? valLen)
  then Err (EMsg "command value length %d does not match %d remaining bytes") else
  mret (mkCommand op key b).

Definition EncodeCommand (c : Command) : bytes := encodeCommand [] c.
Definition DecodeCommand (b : bytes) : outcome Command := decodeCommand b.

(** Commands the encoding can carry: a known operation and 32-bit lengths. *)
Definition command_wf (c : Command) : Prop :=
  (Op c = OpPut ∨ Op c = OpDelete) ∧
  zlength (Key c) < 2 ^ 32 ∧ zlength (Value c) < 2 ^ 32.

(** A Go slice is shorter than the address space. *)
Definition go_slice {A} (l : list A) : Prop := zlength l < 2 ^ 63.

Lemma encodeCommand_eq c :
  encodeCommand [] c =
    [Op c] ++ le_split 4 (u32 (zlength (Key c))) ++ Key c ++
    le_split 4 (u32 (zlength (Value c))) ++ Value c.
Proof. unfold encodeCommand, AppendUint32. by rewrite <-!app_assoc. Qed.

Lemma length_EncodeCommand c :
  length (EncodeCommand c) = (9 + length (Key c) + length (Value c))%nat.
Proof.
  unfold EncodeCommand. rewrite encodeCommand_eq, !length_app, !length_le4. simpl. lia.
Qed.

Lemma decode_enc c : command_wf c → DecodeCommand (EncodeCommand c) = Ok c.
Proof.
  intros (Hop & Hk & Hv). unfold DecodeCommand, decodeCommand.
  rewrite length_EncodeCommand. rewrite (proj2 (Z.ltb_ge _ _)) by lia.
  unfold EncodeCommand. rewrite encodeCommand_eq. simpl.
  rewrite (proj2 (andb_false_iff _ _)) by
    (destruct Hop as [-> | ->]; [left|right]; by rewrite bool_decide_true).
  rewrite zslice_from_ok by (simpl; lia). simpl. rewrite drop_0.
  assert (is_u32 (zlength (Key c))) as Hk' by (unfold is_u32; lia).
  assert (is_u32 (zlength (Value c))) as Hv' by (unfold is_u32; lia).
  rewrite (u32_small _ Hk'), (u32_small _ Hv'), Uint32_app, u32_small by done. simpl.
  rewrite zslice_from_ok by (rewrite !length_app, !length_le4; lia).
  change (Z.to_nat 4) with 4%nat. rewrite drop_app_length' by (by rewrite length_le4). simpl.
  rewrite !length_app, length_le4.
  rewrite !u64_small by (unfold is_u64, is_u32 in *; lia).
  rewrite (proj2 (Z.ltb_ge _ _)) by lia.
  rewrite zslice_to_app. simpl. rewrite zslice_from_app. simpl.
  rewrite Uint32_app, u32_small by done. simpl.
  rewrite zslice_from_ok by (rewrite length_app, length_le4; lia).
  change (Z.to_nat 4) with 4%nat. rewrite drop_app_length' by (by rewrite length_le4). simpl.
  rewrite u64_small by (unfold is_u64; lia). rewrite Z.eqb_refl. simpl.
  by destruct c.
Qed.

(** Decoding an encoded command gives the command back. *)
Theorem DecodeCommand_EncodeCommand c :
  command_wf c → DecodeCommand (EncodeCommand c) = Ok c.
Proof. apply decode_enc. Qed.

Lemma DecodeCommand_EncodeCommand_witness :
  DecodeCommand (EncodeCommand (mkCommand OpPut (str "k") (str "v"))) =
    Ok (mkCommand OpPut (str "k") (str "v")).
Proof. apply DecodeCommand_EncodeCommand. split_and!; [by left|done|done]. Defined.

(** C20: decoding untrusted bytes is total and the encoding is canonical.  On
    any byte sequence [DecodeCommand] returns a command or an error, never
    panics, and the bytes it accepts are exactly the encoding of the command it
    returns. *)
Theorem DecodeCommand_canonical b :
  go_slice b →
  match DecodeCommand b with
  | Ok c => command_wf c ∧ EncodeCommand c = b
  | Err _ => True
  | Panic | Crash => False
  end.
Proof.
  unfold go_slice, DecodeCommand, decodeCommand. intros Hb.
  destruct (_ <? _) eqn:E; [done|]. zify_bool. destruct b as [|op b]; [simpl in *; lia|].
  change (zindex (op :: b) 0) with (Ok op). cbn [mbind outcome_bind].
  destruct (negb _ && negb _) eqn:Eop; [done|].
  apply andb_false_iff in Eop. rewrite zslice_from_ok by (simpl in *; lia).
  cbn [mbind outcome_bind]. change (drop (Z.to_nat 1) (op :: b)) with b.
  simpl length in *. destruct (Uint32_long b) as [keyLen HkL]; [lia|].
  rewrite HkL. cbn [mbind outcome_bind]. apply Uint32_inv in HkL as [Hkr Hb1].
  rewrite zslice_from_ok by lia. cbn [mbind outcome_bind]. change (Z.to_nat 4) with 4%nat.
  set (b1 := drop 4 b) in *. assert (zlength b1 = zlength b - 4) as Hl1.
  { unfold b1. rewrite length_drop. lia. }
  unfold is_u32 in *. rewrite (u64_small (zlength b1)), (u64_small (keyLen + 4))
    by (unfold is_u64; lia).
  destruct (_ <? _) eqn:E1; [done|]. zify_bool.
  rewrite zslice_to_ok, zslice_from_ok by lia. cbn [mbind outcome_bind].
  set (key := take (Z.to_nat keyLen) b1). set (b2 := drop (Z.to_nat keyLen) b1).
  assert (zlength key = keyLen) as Hkey by (unfold key; rewrite length_take; lia).
  assert (zlength b2 = zlength b1 - keyLen) as Hl2 by (unfold b2; rewrite length_drop; lia).
  destruct (Uint32_long b2) as [valLen HvL]; [lia|].
  rewrite HvL. cbn [mbind outcome_bind]. apply Uint32_inv in HvL as [Hvr Hb2].
  rewrite zslice_from_ok by lia. cbn [mbind outcome_bind]. change (Z.to_nat 4) with 4%nat.
  assert (zlength (drop 4 b2) = zlength b2 - 4) as Hl3 by (rewrite length_drop; lia).
  rewrite u64_small by (unfold is_u64; lia). destruct (_ =? valLen) eqn:E2; [|done].
  cbn [negb mret outcome_ret]. zify_bool. unfold is_u32 in *. split.
  - split_and!; simpl; [|lia..]. destruct Eop as [?|?]; zify_bool; eauto.
  - unfold EncodeCommand. rewrite encodeCommand_eq. simpl. f_equal.
    rewrite Hkey, E2, !u32_small by (unfold is_u32; lia).
    rewrite <-Hb2. unfold key, b2. rewrite take_drop. by symmetry.
Qed.

Lemma DecodeCommand_canonical_witness :
  ∃ c, DecodeCommand (EncodeCommand (mkCommand OpDelete (str "key") [])) = Ok c ∧
       command_wf c ∧ EncodeCommand c = EncodeCommand (mkCommand OpDelete (str "key") []).
Proof.
  eexists. split; [vm_compute; reflexivity|].
  apply (DecodeCommand_canonical (EncodeCommand (mkCommand OpDelete (str "key") []))). done.
Defined.
