(* ===== verification/Wal.v ===== *)
(** * internal/storage/wal.go: the write-ahead log

    A directory of segment files, each a sequence of framed records
    [uint64 seq | command].  The state of an open log is the [wal] struct and
    the disk. *)

From stdpp Require Import prelude gmap strings sorting.
From coqutil Require Import Byte Word.LittleEndianList.
From S2P Require Import Prelude GoBytes GoStrings GoFS Record Command.
Open Scope Z_scope.

Definition walExt : gostring := str ".wal".
Definition walSeqSize : Z := 8.
Definition MaxKeyBytesOnDisk : Z := Z.shiftl 1 20.
Definition MaxValueBytesOnDisk : Z := Z.shiftl 1 26.
Definition walMaxRecordLen : Z :=
  walSeqSize + 1 + 4 + MaxKeyBytesOnDisk + 4 + MaxValueBytesOnDisk.

Record wal := mkWal {
  wal_dir : gostring;
  wal_f : nat;       (* the open file *)
  wal_size : Z;      (* bytes in the active segment *)
  wal_failed : bool
}.
#[export] Instance wal_eta : Settable wal :=
  λ w, mkWal (wal_dir w) (wal_f w) (wal_size w) (wal_failed w).
#[export] Instance set_wal_f : Setter wal_f := ltac:(solve_setter).
#[export] Instance set_wal_size : Setter wal_size := ltac:(solve_setter).
#[export] Instance set_wal_failed : Setter wal_failed := ltac:(solve_setter).

(** The log together with the disk it lives on. *)
Record walst := mkWalst { log : wal; disk : fs }.
#[export] Instance walst_eta : Settable walst := λ s, mkWalst (log s) (disk s).
#[export] Instance set_log : Setter log := ltac:(solve_setter).
#[export] Instance set_disk : Setter disk := ltac:(solve_setter).

Definition segmentPath (dir : gostring) (startSeq : Z) : path :=
  (dir, fmt_020d startSeq ++ walExt).

Definition createWAL (dir : gostring) (startSeq : Z) : M fs wal :=
  f ← OpenExcl (segmentPath dir startSeq);
  r ← attempt (SyncDir dir);
  match r with
  | inr err => attempt (Close f);; throw err
  | inl _ => mret (mkWal dir f 0 false)
  end.

Definition openWALForAppend (dir : gostring) (startSeq validSize : Z) : M fs wal :=
  f ← OpenAppend (segmentPath dir startSeq);
  mret (mkWal dir f validSize false).

(** The bytes of one record. *)
Definition record_bytes (seq : Z) (command : bytes) : bytes :=
  Frame [] (AppendUint64 [] seq ++ command).

(** [w.failed = true; return err] *)
Definition fail_wal {A} (err : error) : M walst A :=
  modify (set log (set wal_failed (λ _, true)));; throw err.

Definition Append (seq : Z) (command : bytes) : M walst () :=
  w ← gets log;
  if wal_failed w then throw EWALFailed else
  let b := record_bytes seq command in
  r ← attempt (zoom disk (Write (wal_f w) b));
  match r with inr err => fail_wal err | inl _ =>
  r ← attempt (zoom disk (Sync (wal_f w)));
  match r with inr err => fail_wal err | inl _ =>
  modify (set log (set wal_size (λ n, n + zlength b)))
  end end.

Definition CloseWAL : M walst () :=
  w ← gets log; zoom disk (Close (wal_f w)).

Definition rotate (startSeq : Z) : M walst () :=
  w ← gets log;
  if wal_failed w then throw EWALFailed else
  next ← zoom disk (createWAL (wal_dir w) startSeq);
  let old := wal_f w in
  modify (set log (λ w, w <| wal_f := wal_f next |> <| wal_size := 0 |>));;
  zoom disk (Close old).

Record walSegment := mkSegment { startSeq : Z; seg_path : path }.

Definition seg_le (a b : walSegment) : Prop := startSeq a ≤ startSeq b.
#[export] Instance seg_le_dec : RelDecision seg_le.
Proof. intros a b. unfold seg_le. apply _. Defined.

(** The loop of [listSegments] over the directory entries. *)
Fixpoint collect_segments (dir : gostring) (entries : list gostring)
    (segs : list walSegment) : outcome (list walSegment) :=
  match entries with
  | [] => Ok segs
  | name :: entries' =>
      if negb (HasSuffix name walExt) then collect_segments dir entries' segs else
      match ParseUint (TrimSuffix name walExt) with
      | None => Err (EMsg "wal: unrecognized file %q in %s")
      | Some start => collect_segments dir entries' (segs ++ [mkSegment start (dir, name)])
      end
  end.

Definition listSegments (dir : gostring) : M fs (list walSegment) :=
  entries ← ReadDir dir;
  segs ← lift (collect_segments dir entries []);
  mret (merge_sort seg_le segs).

Record walRecord := mkWalRecord { rec_seq : Z; rec_command : bytes }.

Definition parseRecord (b : bytes) : outcome (option (walRecord * Z)) :=
  r ← Parse b walMaxRecordLen;
  match r with
  | None => mret None
  | Some (payload, recLen) =>
      if zlength payload <? walSeqSize then mret None else
      seq ← Uint64 payload;
      command ← zslice_from payload walSeqSize;
      mret (Some (mkWalRecord seq command, recLen))
  end.

Section replay.
Context {B : Type} (apply : Z → bytes → B → outcome B).

(** The inner loop of [replayWAL]: the records of one segment, [data] being
    the bytes from offset [off] on.  Every record is at least eight bytes, so
    [length data] rounds are enough. *)
Fixpoint replaySegment (fuel : nat) (newest : bool) (data : bytes)
    (off lastSeq : Z) (st : B) : outcome (Z * Z * B) :=
  match data with
  | [] => Ok (lastSeq, off, st)
  | _ :: _ =>
      match fuel with
      | O => Panic
      | S fuel' =>
          r ← parseRecord data;
          match r with
          | None =>
              if newest then Ok (lastSeq, off, st)
              else Err (EMsg "wal: corrupt record in finished segment %s at offset %d")
          | Some (rec, recLen) =>
              if lastSeq <? rec_seq rec then
                if negb (rec_seq rec =? u64 (lastSeq + 1))
                then Err (EMsg "wal: sequence gap in %s: %d follows %d") else
                st' ← apply (rec_seq rec) (rec_command rec) st;
                replaySegment fuel' newest (zdrop recLen data) (off + recLen) (rec_seq rec) st'
              else
                replaySegment fuel' newest (zdrop recLen data) (off + recLen) lastSeq st
          end
      end
  end.

(** The outer loop: the segments in order; the last one is the newest. *)
Fixpoint replaySegments (segs : list walSegment) (lastSeq newestValidSize : Z) (st : B)
    : M fs (Z * Z * B) :=
  match segs with
  | [] => mret (lastSeq, newestValidSize, st)
  | seg :: segs' =>
      let newest := bool_decide (segs' = []) in
      data ← ReadFile (seg_path seg);
      '(lastSeq, off, st) ← lift (replaySegment (length data) newest data 0 lastSeq st);
      replaySegments segs' lastSeq (if newest then off else newestValidSize) st
  end.

Definition replayWAL (dir : gostring) (fromSeq : Z) (st : B) : M fs (Z * Z * B) :=
  segs ← listSegments dir;
  replaySegments segs fromSeq 0 st.
End replay.

(** ** Reading a segment back *)

(** A segment that starts at sequence number [k]. *)
Fixpoint seg_bytes (k : Z) (cmds : list bytes) : bytes :=
  match cmds with
  | [] => []
  | c :: cmds' => record_bytes k c ++ seg_bytes (k + 1) cmds'
  end.

(** A command that replay will read back. *)
Definition fits (c : bytes) : Prop := walSeqSize + zlength c ≤ walMaxRecordLen.

Lemma seg_bytes_app k a b : seg_bytes k (a ++ b) = seg_bytes k a ++ seg_bytes (k + zlength a) b.
Proof.
  revert k. induction a as [|c a IH]; intros k; cbn [app seg_bytes length]; [by rewrite Z.add_0_r|].
  rewrite IH, app_assoc. do 2 f_equal. lia.
Qed.

Lemma length_record_bytes k c : zlength (record_bytes k c) = 16 + zlength c.
Proof. unfold record_bytes, AppendUint64. rewrite length_Frame, !length_app, length_le8. simpl. lia. Qed.

Lemma record_payload k c :
  fits c → zlength (AppendUint64 [] k ++ c) ≤ walMaxRecordLen ∧ zlength (AppendUint64 [] k ++ c) < 2 ^ 32.
Proof.
  unfold fits, AppendUint64, walMaxRecordLen, walSeqSize, MaxKeyBytesOnDisk, MaxValueBytesOnDisk.
  rewrite !length_app, length_le8. change (length []) with 0%nat. change (Z.shiftl 1 20) with 1048576.
  change (Z.shiftl 1 26) with 67108864. lia.
Qed.

Lemma parseRecord_bytes k c rest :
  is_u64 k → fits c →
  parseRecord (record_bytes k c ++ rest) = Ok (Some (mkWalRecord k c, zlength (record_bytes k c))).
Proof.
  intros Hk Hc. destruct (record_payload k c Hc) as [Hm Hl]. unfold parseRecord.
  rewrite length_record_bytes. unfold record_bytes. rewrite Parse_header by done.
  rewrite (proj2 (Z.ltb_ge _ _)) by lia. cbn [mbind outcome_bind].
  unfold AppendUint64. rewrite app_nil_l, length_app, length_le8.
  rewrite (proj2 (Z.ltb_ge _ _)) by (unfold walSeqSize; lia).
  rewrite Uint64_app, u64_small by done. cbn [mbind outcome_bind].
  unfold walSeqSize. rewrite zslice_from_le8. cbn [mbind outcome_bind]. do 3 f_equal. lia.
Qed.

(** A record that a crash cut short. *)
Definition torn (b : bytes) : Prop :=
  ∃ k c, fits c ∧ b `prefix_of` record_bytes k c ∧ b ≠ record_bytes k c.

Lemma torn_nil : torn [].
Proof.
  exists 0, []. split; [by vm_compute|]. split; [apply prefix_nil|].
  intros H%(f_equal (λ l, zlength l)). rewrite length_record_bytes in H. simpl in H. lia.
Qed.

Lemma parseRecord_torn b : torn b → parseRecord b = Ok None.
Proof.
  intros (k & c & Hc & Hp & Hne). destruct (record_payload k c Hc) as [_ Hl].
  unfold parseRecord. by rewrite (Parse_prefix _ b walMaxRecordLen Hl Hp Hne).
Qed.

(** A segment cut anywhere is some of its records and a torn one. *)
Lemma seg_bytes_torn k cmds b :
  Forall fits cmds → b `prefix_of` seg_bytes k cmds →
  ∃ n t, b = seg_bytes k (take n cmds) ++ t ∧ torn t ∧ (n ≤ length cmds)%nat ∧
    (n < length cmds → length b < length (seg_bytes k (take (S n) cmds)))%nat.
Proof.
  intros Hf. revert k b. induction Hf as [|c cmds Hc _ IH]; intros k b Hb; cbn [seg_bytes] in Hb.
  { apply prefix_nil_inv in Hb as ->. exists 0%nat, []. split; [done|]. split; [apply torn_nil|].
    split; [done|simpl; lia]. }
  destruct (decide (record_bytes k c `prefix_of` b)) as [[r ->]|Hn].
  - apply prefix_app_inv in Hb. destruct (IH _ _ Hb) as (n & t & -> & Ht & Hle & Hlt).
    exists (S n), t. cbn [take seg_bytes length]. split; [by rewrite app_assoc|]. split; [done|].
    split; [lia|]. intros Hn. rewrite !length_app in *. cbn [take] in Hlt. lia.
  - exists 0%nat, b. split; [done|]. assert (b `prefix_of` record_bytes k c ∧ b ≠ record_bytes k c) as [Hp Hne].
    { split; [|by intros ->]. destruct Hb as [r Hr].
      destruct (prefix_weak_total b (record_bytes k c) (record_bytes k c ++ seg_bytes (k + 1) cmds))
        as [?|?]; [by exists r|by eexists|done|done]. }
    split; [by exists k, c|]. split; [simpl; lia|]. intros _. cbn [take seg_bytes].
    rewrite app_nil_r. destruct Hp as [r Hr]. rewrite Hr, length_app.
    destruct r; [|simpl; lia]. by rewrite app_nil_r in Hr.
Qed.

Lemma torn_take j b : torn b → torn (take j b).
Proof.
  intros (k & c & Hc & [r Hp] & Hne). exists k, c. split; [done|]. split.
  - exists (drop j b ++ r). by rewrite app_assoc, take_drop.
  - intros Heq. apply Hne. rewrite Hp in Heq. apply (f_equal length) in Heq as Hl.
    rewrite length_app, length_take in Hl. assert (length r = 0%nat) as Hr%nil_length_inv by lia.
    rewrite Hr, app_nil_r in Hp. done.
Qed.

Lemma seg_bytes_mono k a b cmds :
  (a ≤ b)%nat → seg_bytes k (take a cmds) `prefix_of` seg_bytes k (take b cmds).
Proof.
  intros Hab. replace (take b cmds) with (take a cmds ++ take (b - a) (drop a cmds)).
  - rewrite seg_bytes_app. by eexists.
  - rewrite take_take_drop. f_equal. lia.
Qed.

Section replay_facts.
Context {B : Type} (apply : Z → bytes → B → outcome B) (f : bytes → B → B).

(** Replaying a segment whose records continue (or overlap) what has been
    applied: the new ones are applied in order, and the offset is where the
    whole records end. *)
Lemma replaySegment_bytes fuel newest k cmds tail off L st :
  Forall fits cmds → Forall (λ c, ∀ q st, apply q c st = Ok (f c st)) cmds →
  0 ≤ k → k + zlength cmds ≤ 2 ^ 64 → 0 ≤ L < 2 ^ 64 → k ≤ L + 1 →
  tail = [] ∨ newest = true ∧ torn tail →
  (length (seg_bytes k cmds ++ tail) ≤ fuel)%nat →
  replaySegment apply fuel newest (seg_bytes k cmds ++ tail) off L st =
    Ok (Z.max L (k + zlength cmds - 1), off + zlength (seg_bytes k cmds),
        foldl (λ st c, f c st) st (drop (Z.to_nat (L + 1 - k)) cmds)).
Proof.
  intros Hf Ha. revert fuel k off L st.
  induction Hf as [|c cmds Hc _ IH]; intros fuel k off L st Hk Hk' HL HkL Ht Hfuel.
  - cbn [seg_bytes app length drop foldl]. rewrite drop_nil.
    assert (Ok (Z.max L (k + Z.of_nat 0 - 1), off + Z.of_nat 0, foldl (λ st c, f c st) st []) =
      Ok (L, off, st)) as -> by (cbn; do 3 f_equal; lia).
    destruct tail as [|x tail]; [by destruct fuel|].
    destruct fuel as [|fuel]; [simpl in Hfuel; lia|]. destruct Ht as [?|[-> Ht]]; [done|].
    cbn [replaySegment]. by rewrite (parseRecord_torn _ Ht).
  - apply Forall_cons in Ha as [Hac Ha]. specialize (IH Ha).
    cbn [seg_bytes] in *. rewrite <-app_assoc in *. cbn [length] in Hk'.
    pose proof (length_record_bytes k c) as Hrl.
    destruct (record_bytes k c ++ seg_bytes (k + 1) cmds ++ tail) as [|x data] eqn:Hd.
    { apply (f_equal length) in Hd. rewrite length_app in Hd. simpl in Hd. lia. }
    destruct fuel as [|fuel]; [simpl in Hfuel; lia|]. cbn [replaySegment]. rewrite <-Hd.
    rewrite parseRecord_bytes by (done || (unfold is_u64; lia)). cbn [mbind outcome_bind rec_seq rec_command].
    assert (zdrop (zlength (record_bytes k c)) (record_bytes k c ++ seg_bytes (k + 1) cmds ++ tail) =
      seg_bytes (k + 1) cmds ++ tail) as ->.
    { unfold zdrop. apply drop_app_length'. lia. }
    assert (length (seg_bytes (k + 1) cmds ++ tail) ≤ fuel)%nat.
    { rewrite <-Hd, length_app in Hfuel. lia. }
    destruct (L <? k) eqn:HLk; zify_bool.
    + rewrite (u64_small (L + 1)), (proj2 (Z.eqb_eq _ _)) by (unfold is_u64; lia). cbn [negb].
      rewrite Hac. cbn [mbind outcome_bind]. rewrite IH by (done || lia).
      replace (Z.to_nat (L + 1 - k)) with 0%nat by lia.
      replace (Z.to_nat (k + 1 - (k + 1))) with 0%nat by lia. rewrite !drop_0. cbn [foldl length].
      rewrite length_app. do 3 f_equal; lia.
    + rewrite IH by (done || lia). replace (Z.to_nat (L + 1 - k)) with (S (Z.to_nat (L + 1 - (k + 1)))) by lia.
      cbn [drop length]. rewrite length_app. do 3 f_equal; lia.
Qed.
End replay_facts.
