(* ===== verification/Snapshot.v ===== *)
(** * internal/storage/snapshot.go: full dumps of the map

    [magic | uint64 lastSeq | uint64 count | count x (uint32 keyLen | key |
    uint32 valLen | value) | uint32 crc32c], written aside and renamed into
    place under the name [%020d.snap]. *)

From stdpp Require Import prelude gmap strings sorting.
From coqutil Require Import Byte Word.LittleEndianList.
From S2P Require Import Prelude GoRuntime GoBytes GoStrings GoFS Record MemStore.
Open Scope Z_scope.

Definition snapExt : gostring := str ".snap".
Definition snapTmp : gostring := str ".tmp".
Definition snapMagic : gostring := str "RKVSNAP1".

Definition snapshotPath (dir : gostring) (lastSeq : Z) : path :=
  (dir, fmt_020d lastSeq ++ snapExt).

(** One round of the [Range] callback. *)
Definition snapshot_entry (kv : gostring * bytes) : bytes :=
  AppendUint32 [] (u32 (zlength kv.1)) ++ kv.1 ++ AppendUint32 [] (u32 (zlength kv.2)) ++ kv.2.

(** Everything the streaming checksum sees. *)
Definition snapshot_body (lastSeq : Z) (mem : MemStore) (visit : list (gostring * bytes)) : bytes :=
  snapMagic ++ AppendUint64 [] lastSeq ++ AppendUint64 [] (u64 (Len mem)) ++
  concat (snapshot_entry <$> visit).

Definition snapshot_bytes (lastSeq : Z) (mem : MemStore) (visit : list (gostring * bytes)) : bytes :=
  let body := snapshot_body lastSeq mem visit in
  body ++ AppendUint32 [] (crc32c_update 0 body).

(** [visit] is the order in which [Range] visits [mem].  The buffered writer is
    flushed once: a flush cut short leaves a prefix of the bytes either way. *)
Definition writeSnapshot (dir : gostring) (lastSeq : Z) (mem : MemStore)
    (visit : list (gostring * bytes)) : M fs () :=
  let final := snapshotPath dir lastSeq in
  let tmp := (final.1, final.2 ++ snapTmp) in
  f ← OpenTrunc tmp;
  r ← attempt (
    Write f (snapshot_bytes lastSeq mem visit);;
    Sync f;;
    Close f;;
    Rename tmp final;;
    SyncDir dir);
  match r with
  | inl _ => mret ()
  | inr err => attempt (Close f);; attempt (Remove tmp);; throw err
  end.

(** The loop of [readSnapshot]: entry [i] of [count]; an entry takes at least
    eight bytes, so [length body] rounds are enough. *)
Fixpoint readEntries (fuel : nat) (i count : Z) (body : bytes) (mem : MemStore)
    : outcome (bytes * MemStore) :=
  if count <=? i then Ok (body, mem) else
  match fuel with
  | O => Panic
  | S fuel' =>
      if zlength body <? 4 then Err (EMsg "snapshot %s: truncated at entry %d") else
      keyLen ← Uint32 body;
      body ← zslice_from body 4;
      if u64 (zlength body) <? u64 (keyLen + 4)
      then Err (EMsg "snapshot %s: truncated key at entry %d") else
      key ← zslice_to body keyLen;
      body ← zslice_from body keyLen;
      valLen ← Uint32 body;
      body ← zslice_from body 4;
      if u64 (zlength body) <? valLen
      then Err (EMsg "snapshot %s: truncated value at entry %d") else
      value ← zslice_to body valLen;
      body ← zslice_from body valLen;
      readEntries fuel' (i + 1) count body (Put key value mem)
  end.

(** [readSnapshot] on the bytes of the file. *)
Definition decodeSnapshot (data : bytes) : outcome (MemStore * Z) :=
  if zlength data <? zlength snapMagic + 8 + 8 + 4
  then Err (EMsg "snapshot %s: too short (%d bytes)") else
  body ← zslice_to data (zlength data - 4);
  tail ← zslice_from data (zlength data - 4);
  crc ← Uint32 tail;
  if negb (Checksum body =? crc)
  then Err (EMsg "snapshot %s: checksum mismatch - disk corruption") else
  magic ← zslice_to body (zlength snapMagic);
  if negb (bool_decide (magic = snapMagic)) then Err (EMsg "snapshot %s: bad magic") else
  body ← zslice_from body (zlength snapMagic);
  lastSeq ← Uint64 body;
  body8 ← zslice_from body 8;
  count ← Uint64 body8;
  body ← zslice_from body 16;
  '(rest, mem) ← readEntries (S (length body)) 0 count body NewMemStore;
  if negb (bool_decide (rest = []))
  then Err (EMsg "snapshot %s: %d trailing bytes after %d entries") else
  mret (mem, lastSeq).

Definition readSnapshot (p : path) : M fs (MemStore * Z) :=
  data ← ReadFile p;
  lift (decodeSnapshot data).

(** The loop of [loadNewestSnapshot] over the directory entries: stray
    temporary files are removed (a failure to remove is ignored), the sequence
    numbers of the snapshots are collected. *)
Fixpoint collect_snapshots (dir : gostring) (entries : list gostring) (seqs : list Z)
    : M fs (list Z) :=
  match entries with
  | [] => mret seqs
  | name :: entries' =>
      if HasSuffix name snapTmp then
        attempt (Remove (dir, name));;
        collect_snapshots dir entries' seqs
      else if negb (HasSuffix name snapExt) then collect_snapshots dir entries' seqs
      else match ParseUint (TrimSuffix name snapExt) with
           | None => throw (EMsg "snapshot: unrecognized file %q in %s")
           | Some seq => collect_snapshots dir entries' (seqs ++ [seq])
           end
  end.

Definition loadNewestSnapshot (dir : gostring) : M fs (MemStore * Z) :=
  entries ← ReadDir dir;
  seqs ← collect_snapshots dir entries [];
  match last (merge_sort Z.le seqs) with
  | None => mret (NewMemStore, 0)
  | Some newest =>
      '(mem, lastSeq) ← readSnapshot (snapshotPath dir newest);
      if negb (lastSeq =? newest)
      then throw (EMsg "snapshot %s claims lastSeq %d") else
      mret (mem, lastSeq)
  end.

Definition pruneSnapshots (dir : gostring) (keep : nat) : M fs () :=
  entries ← ReadDir dir;
  let names := sort_strings (filter (λ n, HasSuffix n snapExt) entries) in
  for_each (take (length names - keep) names) (λ n, Remove (dir, n)).

(** ** The round trip *)

(** A map the format can carry: 32-bit lengths, and a dump shorter than the
    address space. *)
Definition pair_wf (kv : gostring * bytes) : Prop := zlength kv.1 < 2 ^ 32 ∧ zlength kv.2 < 2 ^ 32.
Definition dump_wf (visit : list (gostring * bytes)) : Prop :=
  Forall pair_wf visit ∧ zlength visit < 2 ^ 64 ∧ zlength (concat (snapshot_entry <$> visit)) < 2 ^ 63.

Lemma snapshot_entry_eq kv :
  snapshot_entry kv = le_split 4 (u32 (zlength kv.1)) ++ kv.1 ++ le_split 4 (u32 (zlength kv.2)) ++ kv.2.
Proof. done. Qed.

Lemma length_snapshot_entry kv :
  length (snapshot_entry kv) = (8 + length kv.1 + length kv.2)%nat.
Proof. rewrite snapshot_entry_eq, !length_app, !length_le4. lia. Qed.

(** Reading one entry. *)
Lemma readEntries_step fuel i count kv rest m :
  pair_wf kv → i < count → zlength (snapshot_entry kv ++ rest) < 2 ^ 63 →
  readEntries (S fuel) i count (snapshot_entry kv ++ rest) m =
    readEntries fuel (i + 1) count rest (Put kv.1 kv.2 m).
Proof.
  intros [Hk Hv] Hi Hlen. cbn [readEntries]. rewrite (proj2 (Z.leb_gt _ _)) by lia.
  rewrite length_app, length_snapshot_entry in Hlen.
  rewrite length_app, length_snapshot_entry, (proj2 (Z.ltb_ge _ _)) by lia.
  rewrite snapshot_entry_eq, <-!app_assoc.
  assert (is_u32 (zlength kv.1)) as Hk' by (unfold is_u32; lia).
  assert (is_u32 (zlength kv.2)) as Hv' by (unfold is_u32; lia).
  rewrite Uint32_app, (u32_small (zlength kv.1)), (u32_small (zlength kv.1)) by done.
  cbn [mbind outcome_bind]. rewrite zslice_from_le4. cbn [mbind outcome_bind].
  rewrite (u64_small (zlength kv.1 + 4)) by (unfold is_u64; lia).
  rewrite u64_small by (unfold is_u64; rewrite !length_app, length_le4; lia).
  rewrite (proj2 (Z.ltb_ge _ _)) by (rewrite !length_app, length_le4; lia).
  rewrite zslice_to_app. cbn [mbind outcome_bind]. rewrite zslice_from_app. cbn [mbind outcome_bind].
  rewrite Uint32_app, (u32_small (zlength kv.2)), (u32_small (zlength kv.2)) by done.
  cbn [mbind outcome_bind]. rewrite zslice_from_le4. cbn [mbind outcome_bind].
  rewrite u64_small by (unfold is_u64; rewrite length_app; lia).
  rewrite (proj2 (Z.ltb_ge _ _)) by (rewrite length_app; lia).
  rewrite zslice_to_app. cbn [mbind outcome_bind]. rewrite zslice_from_app. done.
Qed.

Lemma readEntries_all fuel i visit m :
  Forall pair_wf visit → zlength (concat (snapshot_entry <$> visit)) < 2 ^ 63 →
  (length visit ≤ fuel)%nat →
  readEntries (S fuel) i (i + zlength visit) (concat (snapshot_entry <$> visit)) m =
    Ok ([], foldl (λ m kv, Put kv.1 kv.2 m) m visit).
Proof.
  intros Hwf. revert fuel i m. induction Hwf as [|kv visit Hkv _ IH]; intros fuel i m Hlen Hf.
  { cbn [readEntries length]. by rewrite (proj2 (Z.leb_le _ _)) by lia. }
  destruct fuel as [|fuel]; [simpl in Hf; lia|]. cbn [fmap list_fmap concat] in *.
  rewrite readEntries_step; [|done|simpl; lia|done]. cbn [foldl].
  replace (i + zlength (kv :: visit)) with (i + 1 + zlength visit) by (simpl; lia).
  apply IH; [rewrite length_app in Hlen; lia|simpl in Hf; lia].
Qed.

Lemma snapshot_bytes_split q m visit :
  ∃ body, snapshot_bytes q m visit = body ++ le_split 4 (Checksum body) ∧
    body = snapMagic ++ le_split 8 q ++ le_split 8 (u64 (Len m)) ++ concat (snapshot_entry <$> visit).
Proof. eexists. split; [|reflexivity]. done. Qed.

Lemma decodeSnapshot_bytes q m visit :
  is_u64 q → is_range m visit → dump_wf visit →
  decodeSnapshot (snapshot_bytes q m visit) = Ok (m, q).
Proof.
  intros Hq Hr (Hwf & Hn & Hlen). destruct (snapshot_bytes_split q m visit) as (body & -> & Hb).
  set (dump := concat (snapshot_entry <$> visit)) in *.
  pose proof (is_range_length m visit Hr) as Hl.
  assert (zlength body = 24 + zlength dump) as Hbl.
  { rewrite Hb, !length_app, !length_le8. change (length snapMagic) with 8%nat. lia. }
  assert (zlength (body ++ le_split 4 (Checksum body)) - 4 = zlength body) as Hl4.
  { rewrite length_app, length_le4. lia. }
  unfold decodeSnapshot. rewrite Hl4. change (zlength snapMagic) with 8.
  rewrite length_app, length_le4, (proj2 (Z.ltb_ge _ _)) by lia.
  rewrite zslice_to_app. cbn [mbind outcome_bind]. rewrite zslice_from_app. cbn [mbind outcome_bind].
  rewrite <-(app_nil_r (le_split 4 (Checksum body))), Uint32_app, u32_small by apply crc32c_range.
  cbn [mbind outcome_bind]. rewrite Z.eqb_refl. cbn [negb]. clear Hl4 Hbl. subst body.
  change 8 with (zlength snapMagic) at 1. rewrite zslice_to_app. cbn [mbind outcome_bind].
  rewrite bool_decide_eq_true_2 by done. cbn [negb].
  change 8 with (zlength snapMagic) at 1. rewrite zslice_from_app. cbn [mbind outcome_bind].
  rewrite Uint64_app, (u64_small q) by done. cbn [mbind outcome_bind].
  rewrite zslice_from_le8. cbn [mbind outcome_bind].
  assert (is_u64 (Len m)) as Hm by (unfold is_u64, Len in *; lia).
  rewrite Uint64_app, (u64_small (Len m)), (u64_small (Len m)) by done. cbn [mbind outcome_bind].
  rewrite app_assoc.
  rewrite (zslice_from_ok _ 16) by (rewrite !length_app, !length_le8; lia).
  rewrite drop_app_length' by (rewrite length_app, !length_le8; done). cbn [mbind outcome_bind].
  rewrite <-Hl. rewrite <-(Z.add_0_l (zlength visit)). unfold dump.
  rewrite readEntries_all; [|done|done|].
  - cbn [mbind outcome_bind]. rewrite bool_decide_eq_true_2 by done. cbn [negb].
    by rewrite (is_range_rebuild m visit Hr).
  - clear. induction visit as [|kv visit IH]; [simpl; lia|].
    cbn [fmap list_fmap concat length]. rewrite length_app, length_snapshot_entry. lia.
Qed.
