(* ===== verification/Store.v ===== *)
(** * internal/storage/store.go: the durable store

    A [MemStore] whose every mutation is appended to the write-ahead log and
    fsynced before it is acknowledged, with snapshots that bound the log. *)

From stdpp Require Import prelude gmap strings sorting.
From coqutil Require Import Byte Word.LittleEndianList.
From S2P Require Import Prelude GoRuntime GoBytes GoStrings GoFS Record MemStore Command Wal Snapshot.
Open Scope Z_scope.

Record DurableStore := mkStore {
  mem : MemStore;
  wl : walst;           (* the wal, and the disk everything lives on *)
  seq : Z;
  snapDir : gostring;
  snapshotThreshold : Z;
  ranges : nat          (* how often a map has been ranged over *)
}.
#[export] Instance store_eta : Settable DurableStore :=
  λ s, mkStore (mem s) (wl s) (seq s) (snapDir s) (snapshotThreshold s) (ranges s).
#[export] Instance set_mem : Setter mem := ltac:(solve_setter).
#[export] Instance set_wl : Setter wl := ltac:(solve_setter).
#[export] Instance set_seq : Setter seq := ltac:(solve_setter).
#[export] Instance set_ranges : Setter ranges := ltac:(solve_setter).

Definition defaultSnapshotThreshold : Z := Z.shiftl 16 20.

(** [applyCommand] reports [existed]; [decodeCommand] rejects every other
    operation. *)
Definition applyCommand (m : MemStore) (cmd : Command) : outcome (bool * MemStore) :=
  if bool_decide (Op cmd = OpPut) then Ok (false, Put (Key cmd) (Value cmd) m)
  else if bool_decide (Op cmd = OpDelete) then Ok (Delete (Key cmd) m)
  else Panic.

(** The callback [Open] gives to [replayWAL]. *)
Definition replay_command (s : Z) (command : bytes) (m : MemStore) : outcome MemStore :=
  match decodeCommand command with
  | Ok cmd => '(_, m') ← applyCommand m cmd; Ok m'
  | Err e => Err (EWrap "wal record seq %d: %w" e)
  | Panic => Panic
  | Crash => Crash
  end.

Section store.
Context `{GoRuntime}.

Definition Open (walDir snapDir : gostring) (threshold : Z) : M fs DurableStore :=
  let threshold := if threshold <=? 0 then defaultSnapshotThreshold else threshold in
  MkdirAll walDir;;
  MkdirAll snapDir;;
  '(m, snapSeq) ← wrap "recover snapshot: %w" (loadNewestSnapshot snapDir);
  '(lastSeq, newestValidSize, m) ←
    wrap "replay wal: %w" (replayWAL replay_command walDir snapSeq m);
  segs ← listSegments walDir;
  w ← match last segs with
      | None => createWAL walDir (u64 (lastSeq + 1))
      | Some newest =>
          wrap "truncate torn wal tail: %w" (Truncate (seg_path newest) newestValidSize);;
          openWALForAppend walDir (startSeq newest) newestValidSize
      end;
  s ← get;
  mret (mkStore m (mkWalst w s) lastSeq snapDir threshold 0).

Definition on_disk {A} (m : M fs A) : M DurableStore A := zoom wl (zoom disk m).

(** Deleting the segments a snapshot covers: all but the active one. *)
Definition remove_segments (segs : list walSegment) : M DurableStore () :=
  match segs with
  | [] => panic                       (* segs[:len(segs)-1] *)
  | _ => for_each (take (length segs - 1) segs) (λ seg, on_disk (Remove (seg_path seg)))
  end.

Definition snapshot : M DurableStore () :=
  s ← get;
  let visit := map_order (ranges s) (map_to_list (mem s)) in
  modify (set ranges S);;
  on_disk (writeSnapshot (snapDir s) (seq s) (mem s) visit);;
  zoom wl (rotate (u64 (seq s + 1)));;
  segs ← on_disk (listSegments (wal_dir (log (wl s))));
  remove_segments segs;;
  on_disk (pruneSnapshots (snapDir s) 2).

(** A failed snapshot is logged, not returned. *)
Definition maybeSnapshot : M DurableStore () :=
  s ← get;
  if wal_size (log (wl s)) <? snapshotThreshold s then mret () else
  attempt snapshot;; mret ().

Definition logAndApply (cmd : Command) : M DurableStore () :=
  s ← get;
  wrap "wal append: %w" (zoom wl (Append (u64 (seq s + 1)) (encodeCommand [] cmd)));;
  modify (set seq (λ n, u64 (n + 1)));;
  s ← get;
  '(_, m) ← lift (applyCommand (mem s) cmd);
  modify (set mem (λ _, m));;
  maybeSnapshot.

Definition StorePut (key : gostring) (value : bytes) : M DurableStore () :=
  logAndApply (mkCommand OpPut key value).

Definition StoreDelete (key : gostring) : M DurableStore bool :=
  s ← get;
  if negb (Get key (mem s)).2 then mret false else
  logAndApply (mkCommand OpDelete key []);;
  mret true.

Definition StoreGet (key : gostring) (s : DurableStore) : bytes * bool := Get key (mem s).

(** [Snapshot]: forces one. *)
Definition StoreSnapshot : M DurableStore () := snapshot.

Definition StoreClose : M DurableStore () := zoom wl CloseWAL.
End store.
