(* ===== verification/StoreLaws.v ===== *)
(** * The durable store survives crashes

    The disk of a [DurableStore] that has executed the commands [H]: every
    directory that a crash may show holds snapshots of earlier states and a
    chain of log segments from which [Open] rebuilds the state after some
    prefix of [H], one that contains every acknowledged command. *)

From stdpp Require Import prelude gmap strings sorting.
From coqutil Require Import Byte.
From S2P Require Import Prelude GoRuntime GoBytes GoStrings GoFS Record MemStore Command Wal Snapshot Store.
Open Scope Z_scope.

(** ** Histories *)

(** What one command does to the map. *)
Definition apply1 (m : MemStore) (c : Command) : MemStore :=
  if bool_decide (Op c = OpPut) then Put (Key c) (Value c) m else (Delete (Key c) m).2.
Definition state_of (H : list Command) : MemStore := foldl apply1 NewMemStore H.

Definition enc (c : Command) : bytes := encodeCommand [] c.

(** Commands within the bounds of the log and of the snapshot format. *)
Definition cmd_ok (c : Command) : Prop := command_wf c ∧ fits (enc c).

(** A history short enough for its sequence numbers and snapshots. *)
Definition hist_ok (H : list Command) : Prop :=
  Forall cmd_ok H ∧ zlength H < 2 ^ 64 - 1 ∧
  ∀ n visit, is_range (state_of (take n H)) visit → dump_wf visit.

Definition slice (a b : nat) (H : list Command) : list Command := take (b - a) (drop a H).
Definition seg (k : Z) (n : nat) (H : list Command) : bytes :=
  seg_bytes k (enc <$> slice (Z.to_nat (k - 1)) n H).

Lemma slice_app a b H H' : (b ≤ length H)%nat → slice a b (H ++ H') = slice a b H.
Proof.
  intros Hb. unfold slice. destruct (decide (a ≤ length H)%nat).
  - rewrite drop_app_le, take_app_le by (rewrite ?length_drop; lia). done.
  - replace (b - a)%nat with 0%nat by lia. done.
Qed.

Lemma length_slice a b H : (a ≤ b ≤ length H)%nat → length (slice a b H) = (b - a)%nat.
Proof. intros. unfold slice. rewrite length_take, length_drop. lia. Qed.

Lemma slice_split a b c H :
  (a ≤ b ≤ c)%nat → slice a c H = slice a b H ++ slice b c H.
Proof.
  intros Hab. unfold slice. replace (c - a)%nat with ((b - a) + (c - b))%nat by lia.
  rewrite <-take_take_drop. f_equal. rewrite drop_drop. by replace (a + (b - a))%nat with b by lia.
Qed.

Lemma slice_take a b n H : (a ≤ b)%nat → take n (slice a b H) = slice a (b `min` (a + n)) H.
Proof. intros. unfold slice. rewrite take_take. f_equal. lia. Qed.

Lemma state_of_slice a b H :
  (a ≤ b)%nat → foldl apply1 (state_of (take a H)) (slice a b H) = state_of (take b H).
Proof.
  intros. unfold state_of. rewrite <-foldl_app. f_equal. unfold slice.
  rewrite take_take_drop. f_equal. lia.
Qed.

(** Replaying one record of the log. *)
Lemma replay_command_enc q c m :
  cmd_ok c → replay_command q (enc c) m = Ok (apply1 m c).
Proof.
  intros [Hwf _]. unfold replay_command, enc.
  change (encodeCommand [] c) with (EncodeCommand c). change decodeCommand with DecodeCommand.
  rewrite decode_enc by done. unfold applyCommand, apply1. destruct Hwf as [[-> | ->] _]; done.
Qed.

(** The two directories of a store. *)
Class StoreDirs := { wd : gostring; sd : gostring; dirs_ne : wd ≠ sd }.

Section store_laws.
Context {dirs : StoreDirs}.

(** ** What a directory holds *)

(** Only files the store made. *)
Definition names_ok (d : gmap path nat) : Prop :=
  ∀ p i, d !! p = Some i →
    (p.1 = wd → ∃ k, is_u64 k ∧ p = segmentPath wd k) ∧
    (p.1 = sd → ∃ q, is_u64 q ∧ (p = snapshotPath sd q ∨ p = tmp_of (snapshotPath sd q))).

(** Every snapshot is whole, durable, and of the state it claims; none is newer
    than what is durable in the log. *)
Definition snaps_ok (H : list Command) (lo : nat) (ino : gmap nat inode)
    (d : gmap path nat) : Prop :=
  ∀ q i, is_u64 q → d !! snapshotPath sd q = Some i →
    q ≤ Z.of_nat lo ∧ ∃ visit b, is_range (state_of (take (Z.to_nat q) H)) visit ∧
    b = snapshot_bytes q (state_of (take (Z.to_nat q) H)) visit ∧
    ino !! i = Some (mkInode b (length b)).

(** [q] is the newest snapshot, 0 if there is none. *)
Definition newest_snap (d : gmap path nat) (q : Z) : Prop :=
  (∀ q' i, is_u64 q' → d !! snapshotPath sd q' = Some i → q' ≤ q) ∧
  (is_Some (d !! snapshotPath sd q) ∧ is_u64 q ∨
   q = 0 ∧ ∀ q', is_u64 q' → d !! snapshotPath sd q' = None).

(** [chain] lists the segments of [d], oldest first. *)
Definition chain_of (d : gmap path nat) (chain : list (Z * nat)) : Prop :=
  StronglySorted (λ a b, a.1 < b.1) chain ∧
  ∀ k i, (k, i) ∈ chain ↔ is_u64 k ∧ d !! segmentPath wd k = Some i.

(** All but the last segment are whole and durable; the last one may be torn,
    and the records through [lo] are durable.  Together they hold the commands
    up to the [n]th. *)
Fixpoint chain_ok (H : list Command) (lo n : nat) (ino : gmap nat inode)
    (chain : list (Z * nat)) : Prop :=
  match chain with
  | [] => True
  | (k, i) :: rest =>
      1 ≤ k ∧
      match rest with
      | [] => k - 1 ≤ Z.of_nat n ∧ (n ≤ length H)%nat ∧ ∃ t z, torn t ∧
          ino !! i = Some (mkInode (seg k n H ++ t) z) ∧ (length (seg k (lo `min` n) H) ≤ z)%nat
      | (k', _) :: _ => k < k' ∧ k' - 1 ≤ Z.of_nat lo ∧ ∃ b, b = seg k (Z.to_nat (k' - 1)) H ∧
          ino !! i = Some (mkInode b (length b))
      end ∧ chain_ok H lo n ino rest
  end.

(** The snapshot and the chain leave no gap. *)
Definition joined (q : Z) (n : nat) (chain : list (Z * nat)) : Prop :=
  match chain with
  | [] => q = Z.of_nat n
  | (k, _) :: _ => k ≤ q + 1
  end.

(** What [Open] rebuilds from directory [d]: the state after [n] commands. *)
Definition view (H : list Command) (lo n : nat) (chain : list (Z * nat))
    (ino : gmap nat inode) (d : gmap path nat) : Prop :=
  names_ok d ∧ snaps_ok H lo ino d ∧ chain_of d chain ∧ chain_ok H lo n ino chain ∧
  (lo ≤ n ≤ length H)%nat ∧ ∃ q, newest_snap d q ∧ joined q n chain.

(** A segment shares its inode with no other file. *)
Definition separate (s : fs) : Prop :=
  ∀ d d' p p' i, prefix_dirs s d → prefix_dirs s d' → p.1 = wd →
    d !! p = Some i → d' !! p' = Some i → p' = p.

Definition sound (s : fs) : Prop := fs_wf s ∧ separate s.

(** Whatever a crash keeps, at least [lo] of the commands [H] survive. *)
Definition safe (H : list Command) (lo : nat) (s : fs) : Prop :=
  sound s ∧ ∀ d, prefix_dirs s d → ∃ n chain, view H lo n chain (inodes s) d.

(** ** Crashes *)

Lemma crash_durable s s' i b :
  crash s s' → inodes s !! i = Some (mkInode b (length b)) → inodes s' !! i = Some (mkInode b (length b)).
Proof.
  intros (_ & _ & Hi) Hb. specialize (Hi i). rewrite Hb in Hi.
  destruct (inodes s' !! i) as [[c z]|]; [|by inversion Hi].
  inversion Hi as [? ? (j & Hj & Hc & Hs)|]; subst. cbn [content synced] in *.
  rewrite take_ge in Hc by done. by subst.
Qed.

Lemma seg_mono k a b H : (a ≤ b)%nat → seg k a H `prefix_of` seg k b H.
Proof.
  intros Hab. unfold seg, slice. rewrite !fmap_take. apply seg_bytes_mono. lia.
Qed.

(** A segment cut by a crash keeps its durable records. *)
Lemma seg_crash H lo n k t j :
  Forall cmd_ok H → torn t → k - 1 ≤ Z.of_nat n → 1 ≤ k → (lo ≤ n ≤ length H)%nat →
  (length (seg k (lo `min` n) H) ≤ j)%nat →
  ∃ n' t', take j (seg k n H ++ t) = seg k n' H ++ t' ∧ torn t' ∧ k - 1 ≤ Z.of_nat n' ∧ (lo ≤ n' ≤ n)%nat.
Proof.
  intros Hf Ht Hk Hk1 Hn Hj. destruct (decide (length (seg k n H) ≤ j)%nat) as [Hge|Hlt].
  { exists n, (take (j - length (seg k n H)) t). rewrite take_app_ge by lia.
    split; [done|]. split; [by apply torn_take|]. lia. }
  rewrite take_app_le by lia. set (a := Z.to_nat (k - 1)). set (cmds := enc <$> slice a n H).
  assert (length cmds = (n - a)%nat) as Hl by (unfold cmds; rewrite length_fmap, length_slice; lia).
  destruct (seg_bytes_torn k cmds (take j (seg k n H))) as (m & t' & Heq & Ht' & Hm & Hlen).
  { unfold cmds. apply Forall_fmap, Forall_take, Forall_drop. eapply Forall_impl; [done|]. by intros c []. }
  { exists (drop j (seg k n H)). by rewrite take_drop. }
  assert (∀ m, (a + m ≤ n)%nat → take m cmds = enc <$> slice a (a + m) H) as Htk.
  { intros m' Hm'. unfold cmds. rewrite <-fmap_take, slice_take by lia. do 2 f_equal. lia. }
  exists (a + m)%nat, t'. rewrite Heq, Htk by lia. split; [done|]. split; [done|]. split; [lia|].
  split; [|lia]. destruct (decide (lo ≤ a + m)%nat); [done|]. exfalso.
  assert (m < length cmds)%nat as Hmc by lia. specialize (Hlen Hmc). rewrite length_take in Hlen.
  rewrite Htk in Hlen by lia.
  assert (length (seg k (a + S m) H) ≤ length (seg k (lo `min` n) H))%nat.
  { apply prefix_length, seg_mono. lia. }
  change (seg_bytes k _) with (seg k (a + S m) H) in Hlen. lia.
Qed.

Lemma chain_ok_crash H lo n s s' chain :
  Forall cmd_ok H → fs_wf s → crash s s' → (lo ≤ n ≤ length H)%nat → chain_ok H lo n (inodes s) chain →
  ∃ n', (lo ≤ n' ≤ length H)%nat ∧ chain_ok H lo n' (inodes s') chain ∧ (chain = [] → n' = n).
Proof.
  intros Hf Hwf Hc Hn. induction chain as [|[k i] rest IH]; intros Hok; [by exists n|].
  destruct Hok as (Hk & Hhd & Hrest). destruct rest as [|[k' i'] rest].
  - destruct Hhd as (Hkn & _ & t & z & Ht & Hi & Hz). pose proof Hc as (_ & _ & Hin).
    specialize (Hin i). rewrite Hi in Hin. destruct (inodes s' !! i) as [[c z']|] eqn:Hi'; [|by inversion Hin].
    inversion Hin as [? ? (j & Hj & Hcj & Hs)|]; subst. cbn [content synced] in *.
    destruct (seg_crash H lo n k t j) as (n' & t' & Heq & Ht' & Hkn' & Hn'); [done..|lia|].
    exists n'. split; [lia|]. split; [|done]. cbn [chain_ok]. split; [done|]. split; [|done].
    split; [done|]. split; [lia|]. exists t', z'. split; [done|]. split; [by rewrite Hi', Hcj, Heq|].
    rewrite Hs, Hcj, Heq, length_app.
    pose proof (prefix_length _ _ (seg_mono k (lo `min` n') n' H ltac:(lia))). lia.
  - destruct Hhd as (Hkk & Hlo & b & Hb & Hi). destruct (IH Hrest) as (n' & Hn' & Hok' & _).
    exists n'. split; [done|]. split; [|done]. cbn [chain_ok] in Hok' |- *. split; [done|].
    split; [|done]. split; [done|]. split; [done|]. exists b. split; [done|]. by eapply crash_durable.
Qed.

Lemma sound_crash s s' : sound s → crash s s' → sound s'.
Proof.
  intros [Hwf Hsep] Hc. split; [by eapply crash_wf|]. pose proof Hc as (Hdd & Hp & _).
  intros d d' p p' i Hd Hd'. apply prefix_dirs_synced in Hd as ->; [|done].
  apply prefix_dirs_synced in Hd' as ->; [|done]. by apply Hsep.
Qed.

Lemma sound_faults s r : sound s → sound (s <| faults := r |>).
Proof. intros [? ?]. split; [by apply fs_wf_faults|done]. Qed.

Lemma safe_crash H lo s s' : Forall cmd_ok H → safe H lo s → crash s s' → safe H lo s'.
Proof.
  intros Hf [Hso Hs] Hc. pose proof Hso as [Hwf _]. split; [by eapply sound_crash|].
  intros d Hd. pose proof Hc as (Hdd & Hp & _).
  apply prefix_dirs_synced in Hd as ->; [|done].
  destruct (Hs _ Hdd) as (n & chain & Hnm & Hsn & Hch & Hok & Hn & q & Hq & Hj).
  destruct (chain_ok_crash H lo n s s' chain Hf Hwf Hc Hn Hok) as (n' & Hn' & Hok' & Hnil).
  exists n', chain. split; [done|]. split.
  { intros q' i Hq' Hi. destruct (Hsn q' i Hq' Hi) as (? & visit & b & ? & ? & ?).
    split; [done|]. exists visit, b. split; [done|]. split; [done|]. by eapply crash_durable. }
  do 3 (split; [done|]). exists q. split; [done|]. destruct chain as [|[k i] rest]; [|done].
  by rewrite Hnil.
Qed.

(** ** Steps that keep the store safe *)

(** Adding a command to the history. *)
Lemma snaps_ok_extend H c lo ino d :
  (lo ≤ length H)%nat → snaps_ok H lo ino d → snaps_ok (H ++ [c]) lo ino d.
Proof.
  intros Hlo Hs q i Hq Hi. destruct (Hs q i Hq Hi) as (Hql & visit & b & Hr & Hb & Hin).
  split; [done|]. exists visit, b. unfold is_u64 in Hq. by rewrite take_app_le by lia.
Qed.

Lemma chain_ok_extend H c lo n ino chain :
  (lo ≤ length H)%nat → chain_ok H lo n ino chain → chain_ok (H ++ [c]) lo n ino chain.
Proof.
  intros Hlo. induction chain as [|[k i] rest IH]; [done|]. intros (Hk & Hhd & Hrest).
  split; [done|]. split; [|by apply IH]. destruct rest as [|[k' i'] rest].
  - destruct Hhd as (? & Hn & t & z & ? & ? & ?). split; [done|]. split; [rewrite length_app; lia|].
    exists t, z. unfold seg. by rewrite !slice_app by lia.
  - destruct Hhd as (? & ? & b & ? & ?). split; [done|]. split; [done|]. exists b. unfold seg.
    by rewrite slice_app by lia.
Qed.

Lemma safe_extend H c lo s : (lo ≤ length H)%nat → safe H lo s → safe (H ++ [c]) lo s.
Proof.
  intros Hlo [Hwf Hs]. split; [done|]. intros d Hd.
  destruct (Hs d Hd) as (n & chain & Hnm & Hsn & Hch & Hok & Hn & Hj). exists n, chain.
  split; [done|]. split; [by apply snaps_ok_extend|]. split; [done|].
  split; [by apply chain_ok_extend|]. split; [rewrite length_app; lia|done].
Qed.

Lemma safe_faults H lo s r : safe H lo s → safe H lo (s <| faults := r |>).
Proof. intros [Hwf Hs]. split; [by apply sound_faults|done]. Qed.

(** ** Listing directories *)

Definition dir_list (d : gmap path nat) (dr : gostring) : list gostring :=
  (λ p : path, p.2) <$> filter (λ p : path, p.1 = dr) (elements (dom d)).

Lemma dir_list_elem d dr name : name ∈ dir_list d dr ↔ is_Some (d !! (dr, name)).
Proof.
  unfold dir_list. rewrite list_elem_of_fmap. split.
  - intros ([a b] & -> & [Ha Hin]%list_elem_of_filter). simpl in Ha. subst a.
    apply elem_of_elements, elem_of_dom in Hin. done.
  - intros Hs. exists (dr, name). split; [done|]. apply list_elem_of_filter. split; [done|].
    by apply elem_of_elements, elem_of_dom.
Qed.

Lemma dir_list_NoDup d dr : NoDup (dir_list d dr).
Proof.
  unfold dir_list. apply NoDup_fmap_2_strong; [|apply NoDup_filter, NoDup_elements].
  intros [a b] [a' b'] [Ha _]%list_elem_of_filter [Ha' _]%list_elem_of_filter. simpl in *. congruence.
Qed.

(** The numbers in the names of a list of files [fmt_020d k ++ ext]. *)
Definition numbers (ext : gostring) (l : list gostring) : list Z :=
  omap (λ name, ParseUint (TrimSuffix name ext)) l.

Lemma numbers_named ext ks :
  Forall is_u64 ks → numbers ext ((λ k, fmt_020d k ++ ext) <$> ks) = ks.
Proof.
  unfold numbers. induction 1 as [|k ks Hk _ IH]; [done|]. cbn [fmap list_fmap omap list_omap].
  by rewrite TrimSuffix_app, ParseUint_fmt_020d, IH by done.
Qed.

Lemma named_list (P : Z → Prop) ext l :
  (∀ name, name ∈ l → ∃ k, P k ∧ name = fmt_020d k ++ ext) →
  ∃ ks, Forall P ks ∧ l = (λ k, fmt_020d k ++ ext) <$> ks.
Proof.
  induction l as [|name l IH]; intros Hl; [by exists []|].
  destruct (Hl name ltac:(left)) as (k & Hk & ->).
  destruct IH as (ks & Hks & ->); [intros; apply Hl; by right|]. exists (k :: ks).
  split; [by constructor|done].
Qed.

Lemma sort_unique (l l' : list Z) : StronglySorted Z.lt l → l ≡ₚ l' → merge_sort Z.le l' = l.
Proof.
  intros Hs Hp. apply (StronglySorted_unique Z.le).
  - apply StronglySorted_merge_sort; apply _.
  - clear Hp. induction Hs as [|x l0 Hs IH Hx]; [constructor|]. constructor; [done|].
    eapply Forall_impl; [exact Hx|]. lia.
  - rewrite merge_sort_Permutation. by symmetry.
Qed.

(** ** System calls without I/O errors *)

Abbreviation quiet s := (no_io_errors s).

Lemma quiet_suffix s r : r `suffix_of` faults s → quiet s → quiet (s <| faults := r |>).
Proof. intros Hr Hq. exact (no_io_errors_suffix s r Hr Hq). Qed.

Lemma wp_quiet {A} (run : M fs A) partial Q s :
  quiet s →
  (∀ r, quiet (s <| faults := r |>) → wp run Q (s <| faults := r |>)) →
  (∀ k r, Q Crash (partial k (s <| faults := r |>))) →
  wp (sys run partial) Q s.
Proof.
  intros Hq Hrun Hcr. apply wp_sys.
  - intros r Hr. apply Hrun. by apply quiet_suffix.
  - intros k r Hr. by destruct (not_no_io_errors k r s Hr).
  - intros k r _. apply Hcr.
Qed.

(** The outcome of code that reads: nothing changes, and it may be cut. *)
Definition reads {A} (s : fs) (P : A → Prop) (o : outcome A) (s' : fs) : Prop :=
  (∃ r, s' = s <| faults := r |>) ∧
  match o with
  | Ok a => quiet s' ∧ P a
  | Crash => True
  | _ => False
  end.

Definition seg_of (ki : Z * nat) : walSegment := mkSegment ki.1 (segmentPath wd ki.1).

Lemma collect_segments_named ks acc :
  Forall is_u64 ks →
  collect_segments wd ((λ k, fmt_020d k ++ walExt) <$> ks) acc =
    Ok (acc ++ ((λ k, mkSegment k (segmentPath wd k)) <$> ks)).
Proof.
  intros Hks. revert acc. induction Hks as [|k ks Hk _ IH]; intros acc; [by rewrite app_nil_r|].
  cbn [fmap list_fmap collect_segments]. rewrite HasSuffix_app. cbn [negb].
  rewrite TrimSuffix_app, ParseUint_fmt_020d by done. rewrite IH. by rewrite <-app_assoc.
Qed.

Lemma chain_starts d chain : chain_of d chain → StronglySorted Z.lt chain.*1 ∧ NoDup chain.*1.
Proof.
  intros [Hs _]. assert (StronglySorted Z.lt chain.*1) as Hs'.
  { clear -Hs. induction Hs as [|x l Hs IH Hx]; cbn; [constructor|]. constructor; [done|].
    by rewrite Forall_fmap. }
  split; [done|]. clear Hs. induction Hs' as [|x l Hs IH Hx]; [constructor|]. constructor; [|done].
  intros Hin. rewrite Forall_forall in Hx. specialize (Hx x Hin). lia.
Qed.

(** The segments of a directory, as [listSegments] sorts them. *)
Lemma sorted_segments d chain ks :
  chain_of d chain → ks ≡ₚ chain.*1 →
  merge_sort seg_le ((λ k, mkSegment k (segmentPath wd k)) <$> ks) = seg_of <$> chain.
Proof.
  intros Hch Hp. destruct (chain_starts d chain Hch) as [Hs _].
  assert (seg_of <$> chain = (λ k, mkSegment k (segmentPath wd k)) <$> chain.*1) as ->.
  { by rewrite <-list_fmap_compose. }
  assert (∀ a b c, seg_le a b → seg_le b c → seg_le a c) as Htr by (unfold seg_le; lia).
  apply (StronglySorted_unique_strong seg_le).
  - intros x y Hx Hy. rewrite merge_sort_Permutation in Hx.
    apply list_elem_of_fmap in Hx as (a & -> & _), Hy as (b & -> & _). unfold seg_le. cbn.
    intros. by replace a with b by lia.
  - apply StronglySorted_merge_sort; [exact Htr|]. intros a b. unfold seg_le. lia.
  - clear -Hs. induction Hs as [|x l Hs IH Hx]; cbn; [constructor|]. constructor; [done|].
    rewrite Forall_fmap. eapply Forall_impl; [exact Hx|]. unfold seg_le. cbn. lia.
  - rewrite merge_sort_Permutation. by apply fmap_Permutation.
Qed.

(** The segment names of a directory are its chain. *)
Lemma segment_names d chain :
  names_ok d → chain_of d chain →
  ∃ ks, Forall is_u64 ks ∧ dir_list d wd = (λ k, fmt_020d k ++ walExt) <$> ks ∧ ks ≡ₚ chain.*1.
Proof.
  intros Hnm Hch. destruct (named_list is_u64 walExt (dir_list d wd)) as (ks & Hks & Hl).
  { intros name [i Hi]%dir_list_elem. destruct (Hnm _ _ Hi) as [Hw _].
    destruct (Hw eq_refl) as (k & Hk & Hp). exists k. split; [done|]. by injection Hp. }
  exists ks. split; [done|]. split; [done|].
  pose proof (dir_list_NoDup d wd) as Hnd. rewrite Hl in Hnd. apply NoDup_fmap_1 in Hnd.
  apply NoDup_Permutation; [done|by apply (chain_starts d)|].
  intros k. destruct Hch as [_ Hch]. rewrite list_elem_of_fmap. split.
  - intros Hk. assert (is_Some (d !! segmentPath wd k)) as [i Hi].
    { apply dir_list_elem. rewrite Hl. apply list_elem_of_fmap. by exists k. }
    exists (k, i). split; [done|]. apply Hch. split; [|done]. rewrite Forall_forall in Hks. auto.
  - intros ([k' i] & -> & [Hk Hi]%Hch). cbn.
    assert (fmt_020d k' ++ walExt ∈ dir_list d wd) as Hin by (by apply dir_list_elem; eexists).
    rewrite Hl in Hin. apply list_elem_of_fmap in Hin as (k & Heq & Hin).
    apply app_inv_tail in Heq. rewrite Forall_forall in Hks.
    apply fmt_020d_inj in Heq as ->; auto.
Qed.

Lemma listSegments_view s chain :
  quiet s → names_ok (names s) → chain_of (names s) chain →
  wp (listSegments wd) (reads s (λ segs, segs = seg_of <$> chain)) s.
Proof.
  intros Hq Hnm Hch. destruct (segment_names _ _ Hnm Hch) as (ks & Hks & Hl & Hp).
  apply wp_bind, wp_quiet; [done| |by split; [eexists|]].
  intros r Hr. unfold wp. cbn [fst snd wpk]. change (names _) with (names s).
  change (_ <$> filter _ _) with (dir_list (names s) wd). rewrite Hl.
  apply wp_bind, wp_lift. rewrite collect_segments_named by done. cbn [wpk app].
  apply wp_ret. split; [by eexists|]. split; [done|]. by apply (sorted_segments (names s)).
Qed.

(** ** Recovering the snapshot *)

(** All the directories a crash may show agree on the commands and segments. *)
Definition steady (H : list Command) (lo n : nat) (chain : list (Z * nat)) (s : fs) : Prop :=
  sound s ∧ ∀ d, prefix_dirs s d → view H lo n chain (inodes s) d.

Lemma steady_safe H lo n chain s : steady H lo n chain s → safe H lo s.
Proof. intros [Hwf Hs]. split; [done|]. intros d Hd. exists n, chain. auto. Qed.

Lemma steady_faults H lo n chain s r : steady H lo n chain s → steady H lo n chain (s <| faults := r |>).
Proof. intros [Hwf Hs]. split; [by apply sound_faults|done]. Qed.

Lemma steady_names H lo n chain s : steady H lo n chain s → view H lo n chain (inodes s) (names s).
Proof. intros [_ Hs]. apply Hs, prefix_dirs_names. Qed.

(** Removing a file. *)
Lemma sound_remove p s : sound s → sound (journal (DRemove p) s).
Proof.
  intros [Hwf Hsep]. split; [by apply fs_wf_journal|].
  assert (∀ d q i, prefix_dirs (journal (DRemove p) s) d → d !! q = Some i →
    ∃ d0, prefix_dirs s d0 ∧ d0 !! q = Some i) as Hold.
  { intros d q i [Hd| ->]%prefix_dirs_journal Hq; [by exists d|]. exists (names s).
    split; [apply prefix_dirs_names|]. cbn in Hq. by apply lookup_delete_Some in Hq as [_ ?]. }
  intros d d' q q' i Hd Hd' Hq Hi Hi'. destruct (Hold _ _ _ Hd Hi) as (d0 & Hd0 & Hi0).
  destruct (Hold _ _ _ Hd' Hi') as (d1 & Hd1 & Hi1). by eapply (Hsep d0 d1).
Qed.

Lemma steady_remove H lo n chain p s :
  steady H lo n chain s → view H lo n chain (inodes s) (delete p (names s)) →
  steady H lo n chain (journal (DRemove p) s).
Proof.
  intros [Hso Hs] Hv. split; [by apply sound_remove|].
  intros d [Hd| ->]%prefix_dirs_journal; [by apply Hs|done].
Qed.

Lemma suffix_short {A} (k l m : list A) : k `suffix_of` l ++ m → (length k ≤ length m)%nat → k `suffix_of` m.
Proof.
  intros [x Hx] Hl. exists (drop (length l) x).
  assert (length (l ++ m) = length (x ++ k)) as Hlen by (by rewrite Hx). rewrite !length_app in Hlen.
  rewrite <-drop_app_le by lia. rewrite <-Hx. by rewrite drop_app_length.
Qed.

Lemma snap_not_tmp a : HasSuffix (a ++ snapExt) snapTmp = false.
Proof.
  apply bool_decide_eq_false. intros Hs%suffix_short; [|by vm_compute; lia].
  revert Hs. apply (bool_decide_eq_false_1 (snapTmp `suffix_of` snapExt)). by vm_compute.
Qed.

Lemma tmp_path_ne q q' : is_u64 q → is_u64 q' → snapshotPath sd q ≠ tmp_of (snapshotPath sd q').
Proof.
  intros _ _ Heq. injection Heq as Heq. pose proof (snap_not_tmp (fmt_020d q)) as Hf.
  rewrite Heq, <-app_assoc in Hf. change (str ".tmp") with snapTmp in Hf.
  by rewrite app_assoc, HasSuffix_app in Hf.
Qed.

Lemma seg_path_ne p k : p.1 = sd → p ≠ segmentPath wd k.
Proof. intros Hp ->. by apply dirs_ne. Qed.

(** A file that is neither a snapshot nor a segment may go. *)
Lemma view_delete_tmp H lo n chain ino d q :
  is_u64 q → view H lo n chain ino d → view H lo n chain ino (delete (tmp_of (snapshotPath sd q)) d).
Proof.
  intros Hq (Hnm & Hsn & [Hs Hch] & Hok & Hn & q0 & Hq0 & Hj).
  set (tmp := tmp_of (snapshotPath sd q)).
  assert (∀ q', is_u64 q' → delete tmp d !! snapshotPath sd q' = d !! snapshotPath sd q') as Hd.
  { intros q' Hq'. apply lookup_delete_ne. intros Heq. exact (tmp_path_ne q' q Hq' Hq (eq_sym Heq)). }
  assert (∀ k, delete tmp d !! segmentPath wd k = d !! segmentPath wd k) as Hd'.
  { intros k. apply lookup_delete_ne. by apply seg_path_ne. }
  split; [|split; [|split; [|split; [done|split; [done|]]]]].
  - intros p i [_ Hp]%lookup_delete_Some. by eapply Hnm.
  - intros q' i Hq' Hi. rewrite Hd in Hi by done. by apply Hsn.
  - split; [done|]. intros k i. rewrite Hd'. apply Hch.
  - exists q0. split; [|done]. destruct Hq0 as [Hmax Hq0]. split.
    + intros q' i Hq' Hi. rewrite Hd in Hi by done. by eapply Hmax.
    + destruct Hq0 as [[Hin Hu]|[-> Hnone]]; [left; by rewrite Hd|right].
      split; [done|]. intros q' Hq'. rewrite Hd by done. auto.
Qed.

Definition snap_name (name : gostring) : Prop :=
  ∃ q, is_u64 q ∧ (name = fmt_020d q ++ snapExt ∨ name = (fmt_020d q ++ snapExt) ++ snapTmp).

Definition snap_numbers (l : list gostring) : list Z :=
  omap (λ name, if HasSuffix name snapTmp then None else ParseUint (TrimSuffix name snapExt)) l.

(** The snapshot files are the same, and the store is as safe as before. *)
Definition swept H lo n chain (s s' : fs) : Prop :=
  steady H lo n chain s' ∧ ∀ q, is_u64 q → names s' !! snapshotPath sd q = names s !! snapshotPath sd q.

Lemma Remove_tmp H lo n chain q s :
  is_u64 q → quiet s → steady H lo n chain s →
  wp (attempt (Remove (tmp_of (snapshotPath sd q)))) (λ o s', swept H lo n chain s s' ∧
    match o with Ok _ => quiet s' | Crash => True | _ => False end) s.
Proof.
  intros Hq Hqu Hs. apply wp_attempt, wp_quiet; [done| |by intros; split; [split; [apply steady_faults|]|]].
  intros r Hr. unfold wp. change (names _ !! _) with (names s !! tmp_of (snapshotPath sd q)).
  destruct (names s !! _); cbn [fst snd]; (split; [split|done]).
  - apply steady_remove; [by apply steady_faults|].
    apply view_delete_tmp; [done|]. exact (steady_names _ _ _ _ _ Hs).
  - intros q' Hq'. rewrite names_journal. cbn [apply_op]. change (names (s <| faults := r |>)) with (names s).
    apply lookup_delete_ne. intros Heq. exact (tmp_path_ne q' q Hq' Hq (eq_sym Heq)).
  - by apply steady_faults.
  - done.
Qed.

Lemma collect_snapshots_spec H lo n chain l acc s :
  Forall snap_name l → quiet s → steady H lo n chain s →
  wp (collect_snapshots sd l acc) (λ o s', swept H lo n chain s s' ∧
    match o with Ok seqs => quiet s' ∧ seqs = acc ++ snap_numbers l | Crash => True | _ => False end) s.
Proof.
  intros Hl. revert acc s. induction Hl as [|name l (q & Hq & Hname) _ IH]; intros acc s Hqu Hs.
  { apply wp_ret. split; [by split|]. by rewrite app_nil_r. }
  cbn [collect_snapshots]. unfold snap_numbers. cbn [omap list_omap]. fold (snap_numbers l).
  destruct Hname as [-> | ->].
  - rewrite snap_not_tmp, HasSuffix_app. cbn [negb]. rewrite TrimSuffix_app, ParseUint_fmt_020d by done.
    eapply wp_mono; [by apply IH|]. intros o s' [? Ho]. split; [done|].
    destruct o; try done. destruct Ho as [? ->]. by rewrite <-app_assoc.
  - rewrite HasSuffix_app. apply wp_bind. change (sd, _) with (tmp_of (snapshotPath sd q)).
    eapply wp_mono; [by apply Remove_tmp|]. intros o s1 [[Hs1 Hn1] Ho].
    destruct o as [r|e| |]; cbn [wpk]; [|done..|by split; [split|]].
    eapply wp_mono; [by apply IH|]. intros o s2 [[Hs2 Hn2] Ho2]. split; [|done].
    split; [done|]. intros q' Hq'. by rewrite Hn2, Hn1.
Qed.

Lemma last_sorted l :
  match last (merge_sort Z.le l) with
  | None => l = []
  | Some x => x ∈ l ∧ ∀ y, y ∈ l → y ≤ x
  end.
Proof.
  assert (StronglySorted Z.le (merge_sort Z.le l)) as Hs by (apply StronglySorted_merge_sort; apply _).
  pose proof (merge_sort_Permutation Z.le l) as Hp.
  destruct (last (merge_sort Z.le l)) as [x|] eqn:Hl.
  - apply last_Some in Hl as [l' Hl']. rewrite Hl' in Hs, Hp.
    split; [rewrite <-Hp; apply elem_of_app; right; by left|].
    intros y Hy. rewrite <-Hp in Hy. apply elem_of_app in Hy as [Hy|Hy%list_elem_of_singleton]; [|lia].
    eapply (StronglySorted_app_1_elem_of _ l' [x]); [done|done|by left].
  - apply last_None in Hl. rewrite Hl in Hp. by apply Permutation_nil in Hp.
Qed.

Lemma snap_numbers_elem d q :
  names_ok d → q ∈ snap_numbers (dir_list d sd) ↔ is_u64 q ∧ is_Some (d !! snapshotPath sd q).
Proof.
  intros Hnm. unfold snap_numbers. rewrite list_elem_of_omap. split.
  - intros (name & Hin & Hq). apply dir_list_elem in Hin as [i Hi].
    destruct (Hnm _ _ Hi) as [_ Hs]. destruct (Hs eq_refl) as (q' & Hq' & [Hp|Hp]); injection Hp as ->.
    + rewrite snap_not_tmp, TrimSuffix_app, ParseUint_fmt_020d in Hq by done. injection Hq as <-. eauto.
    + change (str ".tmp") with snapTmp in Hq. by rewrite HasSuffix_app in Hq.
  - intros [Hq Hs]. exists (fmt_020d q ++ snapExt). split; [by apply dir_list_elem|].
    by rewrite snap_not_tmp, TrimSuffix_app, ParseUint_fmt_020d.
Qed.

Lemma snap_names d : names_ok d → Forall snap_name (dir_list d sd).
Proof.
  intros Hnm. apply Forall_forall. intros name [i Hi]%dir_list_elem.
  destruct (Hnm _ _ Hi) as [_ Hs]. destruct (Hs eq_refl) as (q & Hq & [Hp|Hp]); injection Hp as ->;
    exists q; auto.
Qed.

(** The newest snapshot of a directory, as [loadNewestSnapshot] finds it. *)
Lemma newest_found d :
  names_ok d →
  match last (merge_sort Z.le (snap_numbers (dir_list d sd))) with
  | None => newest_snap d 0 ∧ ∀ q, is_u64 q → d !! snapshotPath sd q = None
  | Some q => newest_snap d q ∧ is_u64 q ∧ is_Some (d !! snapshotPath sd q)
  end.
Proof.
  intros Hnm. pose proof (last_sorted (snap_numbers (dir_list d sd))) as Hl.
  destruct (last _) as [q|].
  - destruct Hl as [Hin Hmax]. apply snap_numbers_elem in Hin as [Hq Hs]; [|done].
    split; [|done]. split; [|by left]. intros q' i Hq' Hi. apply Hmax, snap_numbers_elem; eauto.
  - assert (∀ q, is_u64 q → d !! snapshotPath sd q = None) as Hnone.
    { intros q Hq. destruct (d !! snapshotPath sd q) eqn:E; [|done].
      assert (q ∈ snap_numbers (dir_list d sd)) as Hin by (apply snap_numbers_elem; eauto).
      rewrite Hl in Hin. by apply elem_of_nil in Hin. }
    split; [|done]. split; [|by right]. intros q' i Hq' Hi. by rewrite Hnone in Hi.
Qed.

Lemma newest_snap_fun d q q' : newest_snap d q → newest_snap d q' → q = q'.
Proof.
  intros [Hm [[[i Hi] Hu]|[-> Hn]]] [Hm' [[[i' Hi'] Hu']|[-> Hn']]].
  - apply Hm in Hi'; [|done]. apply Hm' in Hi; [|done]. lia.
  - by rewrite Hn' in Hi.
  - by rewrite Hn in Hi'.
  - done.
Qed.

Lemma ReadFile_reads p b s : quiet s → file s p = Some b → wp (ReadFile p) (reads s (λ b', b' = b)) s.
Proof.
  intros Hq Hf. apply wp_quiet; [done| |by split; [eexists|]].
  intros r Hr. unfold wp. change (file _ p) with (file s p). rewrite Hf. cbn.
  split; [by eexists|done].
Qed.

Lemma loadNewestSnapshot_spec H lo n chain s :
  hist_ok H → quiet s → steady H lo n chain s →
  wp (loadNewestSnapshot sd) (λ o s', swept H lo n chain s s' ∧
    match o with
    | Ok (m, q) => quiet s' ∧ newest_snap (names s) q ∧ m = state_of (take (Z.to_nat q) H)
    | Crash => True
    | _ => False
    end) s.
Proof.
  intros (Hc & _ & Hdump) Hq Hs. apply wp_bind, wp_quiet; [done| |by intros; split; [split; [apply steady_faults|]|]].
  intros r Hr. unfold wp. cbn [fst snd wpk]. change (_ <$> filter _ _) with (dir_list (names s) sd).
  pose proof (steady_names _ _ _ _ _ Hs) as (Hnm & Hsn & _).
  apply wp_bind. eapply wp_mono; [apply (collect_snapshots_spec H lo n chain); [by apply snap_names|done|by apply steady_faults]|].
  intros o s1 [[Hs1 Hn1] Ho]. change (names (s <| faults := r |>)) with (names s) in Hn1.
  destruct o as [seqs|e| |]; cbn [wpk]; [|done|done|by split; [split|]].
  destruct Ho as [Hq1 ->]. cbn [app]. pose proof (newest_found (names s) Hnm) as Hnew.
  destruct (last _) as [q|].
  2:{ destruct Hnew as [Hnew _]. apply wp_ret. split; [by split|]. split; [done|]. by split. }
  destruct Hnew as (Hnew & Hqu & [i Hi]). rewrite <-Hn1 in Hi by done.
  destruct (steady_names _ _ _ _ _ Hs1) as (_ & Hsn1 & _).
  destruct (Hsn1 q i Hqu Hi) as (_ & visit & b & Hvis & Hb & Hin).
  apply wp_bind. unfold readSnapshot. apply wp_bind.
  eapply wp_mono; [apply (ReadFile_reads _ b); [done|unfold file; rewrite Hi; cbn; by rewrite Hin]|].
  intros o s2 [[r2 ->] Ho]. destruct o as [b'|e| |]; cbn [wpk]; [|done|done|by split; [split; [apply steady_faults|]|]].
  destruct Ho as [Hq2 ->]. apply wp_lift. rewrite Hb, decodeSnapshot_bytes; [|done|done|by eapply Hdump].
  cbn [wpk]. rewrite Z.eqb_refl. cbn [negb]. apply wp_ret. split; [by split; [apply steady_faults|]|done].
Qed.

(** ** Replaying the log *)

Definition apply_bytes (b : bytes) (m : MemStore) : MemStore :=
  match decodeCommand b with Ok c => apply1 m c | _ => m end.

Lemma apply_bytes_enc c m : cmd_ok c → apply_bytes (enc c) m = apply1 m c.
Proof.
  intros [Hc _]. unfold apply_bytes, enc. change (decodeCommand (encodeCommand [] c)) with
    (DecodeCommand (EncodeCommand c)). by rewrite decode_enc.
Qed.

Lemma foldl_apply_bytes l m :
  Forall cmd_ok l → foldl (λ m b, apply_bytes b m) m (enc <$> l) = foldl apply1 m l.
Proof.
  intros Hl. revert m. induction Hl as [|c l Hc _ IH]; intros m; [done|]. cbn [fmap list_fmap foldl].
  by rewrite apply_bytes_enc, IH.
Qed.

(** Replaying the commands [k-1 .. b) of the history when [L] of it are done. *)
Lemma replaySegment_seg H k b t newest L :
  Forall cmd_ok H → zlength H < 2 ^ 64 - 1 → 1 ≤ k → k - 1 ≤ Z.of_nat b → (b ≤ length H)%nat →
  (L ≤ length H)%nat → k ≤ Z.of_nat L + 1 → t = [] ∨ newest = true ∧ torn t →
  replaySegment replay_command (length (seg k b H ++ t)) newest (seg k b H ++ t) 0 (Z.of_nat L)
    (state_of (take L H)) =
  Ok (Z.of_nat (L `max` b), zlength (seg k b H), state_of (take (L `max` b) H)).
Proof.
  intros Hf Hlen Hk Hkb Hb HL HkL Ht. unfold seg. set (a := Z.to_nat (k - 1)).
  assert (Forall cmd_ok (slice a b H)) as Hsl by (by apply Forall_take, Forall_drop).
  assert (length (slice a b H) = (b - a)%nat) as Hl by (apply length_slice; lia).
  rewrite (replaySegment_bytes _ apply_bytes); try (rewrite ?length_fmap; lia).
  - rewrite length_fmap, Hl, <-fmap_drop, foldl_apply_bytes by (by apply Forall_drop).
    f_equal. f_equal; [f_equal; lia|].
    replace (Z.to_nat (Z.of_nat L + 1 - k)) with (L - a)%nat by lia.
    destruct (decide (L ≤ b)%nat).
    + replace (L `max` b)%nat with b by lia. rewrite <-(state_of_slice L b H) by done. f_equal.
      rewrite (slice_split a L b) by lia. rewrite drop_app_length' by (rewrite length_slice; lia). done.
    + replace (L `max` b)%nat with L by lia. rewrite drop_ge by lia. done.
  - apply Forall_fmap. eapply Forall_impl; [done|]. by intros c [].
  - apply Forall_fmap. eapply Forall_impl; [done|]. intros c Hc q m.
    change (replay_command q (enc c) m = Ok (apply_bytes (enc c) m)). rewrite replay_command_enc, apply_bytes_enc by done. done.
  - done.
Qed.

Lemma replaySegments_chain H lo n chain L nvs s :
  Forall cmd_ok H → zlength H < 2 ^ 64 - 1 → quiet s → (lo ≤ n ≤ length H)%nat → (L ≤ n)%nat →
  (∀ k i, (k, i) ∈ chain → names s !! segmentPath wd k = Some i) →
  chain_ok H lo n (inodes s) chain →
  match chain with [] => True | (k, _) :: _ => k ≤ Z.of_nat L + 1 end →
  wp (replaySegments replay_command (seg_of <$> chain) (Z.of_nat L) nvs (state_of (take L H)))
    (reads s (λ r, r = match last chain with
                       | None => (Z.of_nat L, nvs, state_of (take L H))
                       | Some (k, _) => (Z.of_nat n, zlength (seg k n H), state_of (take n H))
                       end)) s.
Proof.
  intros Hf Hlen. revert L nvs s. induction chain as [|[k i] rest IH]; intros L nvs s Hq Hn HL Hnm Hok Hhd.
  { apply wp_ret. split; [by exists (faults s); destruct s|done]. }
  destruct Hok as (Hk & Hseg & Hrest). cbn [fmap list_fmap replaySegments].
  set (newest := bool_decide (seg_of <$> rest = [])). cbv zeta.
  assert (∃ b t z, inodes s !! i = Some (mkInode (seg k b H ++ t) z) ∧ k - 1 ≤ Z.of_nat b ∧ (b ≤ n)%nat ∧
    (t = [] ∨ newest = true ∧ torn t) ∧
    match rest with [] => b = n | (k', _) :: _ => k' - 1 = Z.of_nat b end)
    as (b & t & z & Hi & Hkb & Hbn & Ht & Hb).
  { destruct rest as [|[k' i'] rest].
    - destruct Hseg as (? & _ & t & z & ? & ? & _). exists n, t, z. split_and!; try done. by right.
    - destruct Hseg as (? & ? & b & Hb & Hi). exists (Z.to_nat (k' - 1)), [], (length b).
      rewrite app_nil_r, <-Hb. split_and!; [done|lia|lia|by left|lia]. }
  apply wp_bind. eapply wp_mono; [apply (ReadFile_reads _ (seg k b H ++ t)); [done|]|].
  { unfold file. cbn. rewrite (Hnm k i) by left. cbn. by rewrite Hi. }
  intros o s1 [[r1 ->] Ho]. destruct o as [b'|e| |]; cbn [wpk]; [|done|done|by split; [eexists|]].
  destruct Ho as [Hq1 ->]. apply wp_bind, wp_lift. rewrite replaySegment_seg by (done || lia). cbn [wpk].
  eapply wp_mono; [apply IH; [done|done|lia| |done|]|].
  - intros k' i' Hin. apply (Hnm k' i'). by right.
  - destruct rest as [|[k' i'] rest]; [done|]. lia.
  - intros o s2 [[r2 ->] Ho]. split; [by exists r2|]. destruct o as [r|e| |]; try done.
    destruct Ho as [Hq2 ->]. split; [done|]. destruct rest as [|[k' i'] rest].
    + subst b. unfold newest. rewrite bool_decide_eq_true_2 by done. replace (L `max` n)%nat with n by lia. done.
    + change (last ((k, i) :: (k', i') :: rest)) with (last ((k', i') :: rest)).
      destruct (last ((k', i') :: rest)) as [[]|] eqn:E; [done|by apply last_None in E].
Qed.

(** ** The active segment *)

(** The segments before the last one, which starts at [kend]. *)
Fixpoint wholes (H : list Command) (lo : nat) (ino : gmap nat inode) (pre : list (Z * nat)) (kend : Z) : Prop :=
  match pre with
  | [] => True
  | (k, i) :: rest =>
      let k' := match rest with [] => kend | (k', _) :: _ => k' end in
      1 ≤ k ∧ (k < k' ∧ k' - 1 ≤ Z.of_nat lo ∧ ∃ b, b = seg k (Z.to_nat (k' - 1)) H ∧
        ino !! i = Some (mkInode b (length b))) ∧ wholes H lo ino rest kend
  end.

Definition last_ok (H : list Command) (lo n : nat) (ino : gmap nat inode) (k : Z) (i : nat) : Prop :=
  k - 1 ≤ Z.of_nat n ∧ (n ≤ length H)%nat ∧ ∃ t z, torn t ∧
    ino !! i = Some (mkInode (seg k n H ++ t) z) ∧ (length (seg k (lo `min` n) H) ≤ z)%nat.

Lemma chain_ok_snoc H lo n ino pre k f :
  chain_ok H lo n ino (pre ++ [(k, f)]) ↔ wholes H lo ino pre k ∧ 1 ≤ k ∧ last_ok H lo n ino k f.
Proof.
  induction pre as [|[k0 i0] rest IH]; [unfold last_ok; cbn; tauto|].
  cbn [app chain_ok wholes]. rewrite IH. destruct rest as [|[k1 i1] rest]; cbn [app]; tauto.
Qed.

Lemma wholes_change H H' lo lo' ino ino' pre kend :
  (lo ≤ lo')%nat → (lo ≤ length H)%nat → (∀ a b, (b ≤ lo)%nat → slice a b H' = slice a b H) →
  (∀ k i, (k, i) ∈ pre → ino' !! i = ino !! i) →
  wholes H lo ino pre kend → wholes H' lo' ino' pre kend.
Proof.
  intros Hlo HH Hsl Hino. induction pre as [|[k i] rest IH]; [done|].
  intros (Hk & (Hkk & Hk' & b & Hb & Hi) & Hrest). split; [done|]. split.
  - split; [done|]. split; [lia|]. exists b. rewrite (Hino k i) by left. split; [|done].
    unfold seg. rewrite Hsl by lia. done.
  - apply IH; [|done]. intros k0 i0 Hin. apply (Hino k0 i0). by right.
Qed.

Lemma wholes_starts H lo ino pre kend k i : wholes H lo ino pre kend → (k, i) ∈ pre → k < kend.
Proof.
  revert k i. induction pre as [|[k0 i0] rest IH]; intros k i Hw Hin; [by apply elem_of_nil in Hin|].
  destruct Hw as (_ & (Hlt & _) & Hrest). apply elem_of_cons in Hin as [[= -> ->]|Hin]; [|by apply (IH k i)].
  destruct rest as [|[k1 i1] rest]; [done|]. assert (k1 < kend) by (apply (IH k1 i1 Hrest); left). lia.
Qed.

(** Changing the history, the durable part and the last segment of a view. *)
Lemma view_change H H' lo lo' n n' pre k f ino ino' d :
  (lo ≤ lo' ≤ n')%nat → (n' ≤ length H')%nat →
  (∀ a b, (b ≤ lo)%nat → slice a b H' = slice a b H) → (∀ a, (a ≤ lo)%nat → take a H' = take a H) →
  (∀ k' i, (k', i) ∈ pre → ino' !! i = ino !! i) →
  (∀ q i, is_u64 q → d !! snapshotPath sd q = Some i → ino' !! i = ino !! i) →
  last_ok H' lo' n' ino' k f →
  view H lo n (pre ++ [(k, f)]) ino d → view H' lo' n' (pre ++ [(k, f)]) ino' d.
Proof.
  intros Hlo Hn' Hsl Htk Hpre Hsnap Hlast (Hnm & Hsn & Hch & Hok & Hn & q & Hq & Hj).
  split; [done|]. split; [|split; [done|split; [|split; [lia|]]]].
  - intros q' i Hq' Hi. destruct (Hsn q' i Hq' Hi) as (Hql & visit & b & Hr & Hb & Hin).
    split; [lia|]. exists visit, b. rewrite (Hsnap q' i Hq' Hi), Htk by lia. done.
  - apply chain_ok_snoc in Hok as (Hw & Hk & _). apply chain_ok_snoc. split; [|done].
    eapply (wholes_change H H' lo lo'); [lia|lia|done|exact Hpre|done].
  - exists q. split; [done|]. destruct pre as [|[k0 i0] rest]; done.
Qed.

(** The inode of the active segment is nobody else's. *)
Lemma active_alone H lo n pre k f s d :
  sound s → prefix_dirs s d → view H lo n (pre ++ [(k, f)]) (inodes s) d →
  (∀ k' i, (k', i) ∈ pre → i ≠ f) ∧
  (∀ q i, is_u64 q → d !! snapshotPath sd q = Some i → i ≠ f).
Proof.
  intros [_ Hsep] Hd (_ & _ & [Hso Hch] & Hok & _).
  assert (d !! segmentPath wd k = Some f) as Hf by (apply Hch, elem_of_app; right; left).
  apply chain_ok_snoc in Hok as (Hw & _). split.
  - intros k' i Hin ->. assert (d !! segmentPath wd k' = Some f) as Hf'.
    { apply Hch, elem_of_app. by left. }
    pose proof (Hsep d d (segmentPath wd k) _ f Hd Hd eq_refl Hf Hf') as Heq. injection Heq as Heq.
    apply app_inv_tail in Heq. apply (wholes_starts _ _ _ _ _ _ _ Hw) in Hin as Hlt.
    apply fmt_020d_inj in Heq; [lia| |].
    + apply (Hch k' f), elem_of_app. by left.
    + apply (Hch k f), elem_of_app. right. left.
  - intros q i Hq Hi ->. pose proof (Hsep d d (segmentPath wd k) _ f Hd Hd eq_refl Hf Hi) as Heq.
    apply dirs_ne. by injection Heq.
Qed.

(** Every directory a crash may show ends with the active segment [f], which
    starts at [k]. *)
Definition live (H : list Command) (lo n : nat) (k : Z) (f : nat) (s : fs) : Prop :=
  sound s ∧ ∀ d, prefix_dirs s d → ∃ pre, view H lo n (pre ++ [(k, f)]) (inodes s) d.

Lemma steady_live H lo n pre k f s : steady H lo n (pre ++ [(k, f)]) s → live H lo n k f s.
Proof. intros [Hso Hs]. split; [done|]. intros d Hd. exists pre. auto. Qed.

Lemma live_safe H lo n k f s : live H lo n k f s → safe H lo s.
Proof. intros [Hso Hs]. split; [done|]. intros d Hd. destruct (Hs d Hd) as [pre Hv]. eauto. Qed.

Lemma live_faults H lo n k f s r : live H lo n k f s → live H lo n k f (s <| faults := r |>).
Proof. intros [Hso Hs]. split; [by apply sound_faults|done]. Qed.

(** What a live store's active segment is. *)
Lemma live_last H lo n k f s :
  live H lo n k f s →
  names s !! segmentPath wd k = Some f ∧ 1 ≤ k ∧ (lo ≤ n)%nat ∧ last_ok H lo n (inodes s) k f.
Proof.
  intros [_ Hs]. destruct (Hs _ (prefix_dirs_names s)) as (pre & _ & _ & [_ Hch] & Hok & Hn & _).
  apply chain_ok_snoc in Hok as (_ & Hk & Hl). split; [apply Hch, elem_of_app; right; left|].
  split; [done|]. split; [lia|done].
Qed.

(** Changing the contents of the active segment in place. *)
Lemma live_alter H H' lo lo' n n' k f g s s' :
  live H lo n k f s →
  ddir s' = ddir s → pend s' = pend s → inodes s' = alter g f (inodes s) →
  (∀ nd, inodes s !! f = Some nd → (synced (g nd) ≤ length (content (g nd)))%nat) →
  (lo ≤ lo' ≤ n')%nat → (n' ≤ length H')%nat →
  (∀ a b, (b ≤ lo)%nat → slice a b H' = slice a b H) → (∀ a, (a ≤ lo)%nat → take a H' = take a H) →
  last_ok H' lo' n' (inodes s') k f →
  live H' lo' n' k f s'.
Proof.
  intros [Hso Hs] Hdd Hpe Hin Hg Hlo Hn' Hsl Htk Hlast.
  assert (∀ d, prefix_dirs s' d → prefix_dirs s d) as Hpd.
  { intros d [j ->]. exists j. by rewrite Hdd, Hpe. }
  split.
  - destruct Hso as [[Hd Hp Hsy] Hsep]. split.
    + split; rewrite ?Hdd, ?Hpe, Hin.
      * intros p i Hi. apply lookup_alter_is_Some. eauto.
      * intros p i Hi. apply lookup_alter_is_Some. eauto.
      * intros i nd. rewrite lookup_alter. case_decide; [subst i|by apply Hsy].
        destruct (inodes s !! f) as [nd0|] eqn:E; intros [= <-]. by apply Hg.
    + intros d d' p p' i Hd' Hd'' . apply Hsep; by apply Hpd.
  - intros d Hd. apply Hpd in Hd. destruct (Hs d Hd) as [pre Hv]. exists pre.
    destruct (active_alone _ _ _ _ _ _ _ _ Hso Hd Hv) as [Hpre Hsn].
    apply (view_change H H' lo lo' n n' pre k f (inodes s)); try done.
    + intros k' i Hki. rewrite Hin. apply lookup_alter_ne. intros ->. by eapply Hpre.
    + intros q i Hq Hi. rewrite Hin. apply lookup_alter_ne. intros ->. by eapply Hsn.
Qed.

(** ** A new segment *)

Lemma sound_create p s : sound s → sound (create_inode p s).
Proof.
  intros [Hwf Hsep]. split; [by apply fs_wf_create|].
  assert (∀ d q i, prefix_dirs (create_inode p s) d → d !! q = Some i →
    q = p ∧ i = new_inode s ∨ i ≠ new_inode s ∧ ∃ d0, prefix_dirs s d0 ∧ d0 !! q = Some i) as Hold.
  { assert (∀ d q i, prefix_dirs s d → d !! q = Some i → i ≠ new_inode s) as Hne.
    { intros d q i Hd Hi ->. destruct (prefix_dirs_range s d q _ Hwf Hd Hi) as [n Hn].
      by rewrite new_inode_fresh in Hn. }
    intros d q i [Hd| ->]%prefix_dirs_journal Hi; [right; split; [by eapply Hne|by exists d]|].
    cbn in Hi. change (names (s <| inodes ::= _ |>)) with (names s) in Hi.
    apply lookup_insert_Some in Hi as [[<- <-]|[_ Hi]]; [by left|]. right.
    split; [by eapply Hne, Hi; apply prefix_dirs_names|].
    exists (names s). split; [apply prefix_dirs_names|done]. }
  intros d d' q q' i Hd Hd' Hq Hi Hi'.
  destruct (Hold _ _ _ Hd Hi) as [[-> Hn]|[Hne (d0 & Hd0 & Hi0)]],
    (Hold _ _ _ Hd' Hi') as [[-> Hn']|[Hne' (d1 & Hd1 & Hi1)]]; try done. by eapply (Hsep d0 d1).
Qed.

Lemma sound_fsync s : sound s → sound (s <| ddir := names s |> <| pend := [] |>).
Proof.
  intros [Hwf Hsep]. split; [by apply fs_wf_fsync|].
  intros d d' q q' i Hd Hd'. apply prefix_dirs_synced in Hd as ->; [|done].
  apply prefix_dirs_synced in Hd' as ->; [|done]. apply Hsep; apply prefix_dirs_names.
Qed.

Lemma chain_ok_ino H lo n ino ino' chain :
  (∀ i nd, ino !! i = Some nd → ino' !! i = Some nd) → chain_ok H lo n ino chain → chain_ok H lo n ino' chain.
Proof.
  intros Hino. induction chain as [|[k i] rest IH]; [done|]. intros (Hk & Hhd & Hrest).
  split; [done|]. split; [|by apply IH]. destruct rest as [|[k' i'] rest]; [|naive_solver].
  destruct Hhd as (? & ? & t & z & ? & ? & ?). split; [done|]. split; [done|]. exists t, z. auto.
Qed.

Lemma view_ino H lo n chain ino ino' d :
  (∀ i nd, ino !! i = Some nd → ino' !! i = Some nd) → view H lo n chain ino d → view H lo n chain ino' d.
Proof.
  intros Hino (Hnm & Hsn & Hch & Hok & Hrest). split; [done|]. split; [|split; [done|]].
  - intros q i Hq Hi. destruct (Hsn q i Hq Hi) as (? & visit & b & ? & ? & ?). split; [done|].
    exists visit, b. auto.
  - split; [by eapply chain_ok_ino|done].
Qed.

Lemma newest_snap_ext d d' q :
  (∀ q, is_u64 q → d' !! snapshotPath sd q = d !! snapshotPath sd q) → newest_snap d q → newest_snap d' q.
Proof.
  intros Hd [Hmax Hq]. split.
  - intros q' i Hq' Hi. rewrite Hd in Hi by done. by eapply Hmax.
  - destruct Hq as [[Hin Hu]|[-> Hnone]]; [left; by rewrite Hd|right]. split; [done|].
    intros q' Hq'. rewrite Hd by done. auto.
Qed.

Lemma chain_of_snoc H lo ino d chain k f :
  chain_of d chain → wholes H lo ino chain k → is_u64 k →
  chain_of (<[segmentPath wd k := f]> d) (chain ++ [(k, f)]).
Proof.
  intros [Hso Hch] Hw Hk. split.
  - apply StronglySorted_app_2; [|done|repeat constructor].
    intros [k1 i1] x Hin ->%list_elem_of_singleton. cbn. by eapply wholes_starts.
  - intros k1 i1. rewrite elem_of_app, list_elem_of_singleton, Hch, lookup_insert_Some. split.
    + intros [[Hk1 Hi1]|[= -> ->]]; [|split; [done|by left]]. split; [done|]. right. split; [|done].
      intros Heq. injection Heq as Heq. apply app_inv_tail, fmt_020d_inj in Heq as ->; [|done..].
      assert (k1 < k1) by (eapply wholes_starts; [done|]; by apply Hch). lia.
    + intros [Hk1 [[Heq ->]|[_ Hi]]]; [|by left]. right. injection Heq as Heq.
      by apply app_inv_tail, fmt_020d_inj in Heq as ->.
Qed.

(** Adding an empty segment after a chain of finished ones. *)
Lemma view_new_segment H n chain ino d f :
  zlength H < 2 ^ 64 - 1 → view H n n chain ino d →
  wholes H n ino chain (Z.of_nat n + 1) → ino !! f = None →
  view H n n (chain ++ [(Z.of_nat n + 1, f)]) (<[f := mkInode [] 0]> ino)
    (<[segmentPath wd (Z.of_nat n + 1) := f]> d).
Proof.
  intros Hlen Hv Hw Hf. assert (∀ i nd, ino !! i = Some nd → (<[f := mkInode [] 0]> ino) !! i = Some nd) as Hino.
  { intros i nd Hi. rewrite lookup_insert_ne; [done|]. by intros <-; rewrite Hf in Hi. }
  apply (view_ino _ _ _ _ _ _ _ Hino) in Hv. destruct Hv as (Hnm & Hsn & Hch & Hok & Hn & q & Hq & Hj).
  set (k := Z.of_nat n + 1) in *. assert (is_u64 k) as Hk by (unfold is_u64; lia).
  assert (∀ q, snapshotPath sd q ≠ segmentPath wd k) as Hne by (intros ?; by apply seg_path_ne).
  split; [|split; [|split; [by eapply chain_of_snoc|split; [|split; [done|]]]]].
  - intros p i [[<- <-]|[_ Hi]]%lookup_insert_Some; [|by eapply Hnm].
    split; [by exists k|]. intros Heq. by destruct (dirs_ne Heq).
  - intros q' i Hq' Hi. rewrite lookup_insert_ne in Hi by done. by apply Hsn.
  - apply chain_ok_snoc. split; [|split; [lia|]].
    + eapply (wholes_change H H n n ino); [done|lia|done| |done]. intros k' i Hki.
      apply lookup_insert_ne. intros <-. clear -Hw Hki Hf. induction chain as [|[k1 i1] rest IH]; [by apply elem_of_nil in Hki|].
      destruct Hw as (_ & (_ & _ & b & _ & Hi) & Hw). apply elem_of_cons in Hki as [[= -> ->]|Hki]; [congruence|by apply IH].
    + split; [lia|]. split; [lia|]. exists [], 0%nat. split; [apply torn_nil|].
      rewrite lookup_insert_eq. unfold seg, slice. replace (n - Z.to_nat (k - 1))%nat with 0%nat by lia.
      replace (n `min` n - Z.to_nat (k - 1))%nat with 0%nat by lia. done.
  - exists q. split; [|destruct chain as [|[k0 i0] rest]; cbn in *; [lia|done]].
    eapply newest_snap_ext; [|done]. intros q' Hq'. by rewrite lookup_insert_ne.
Qed.

(** Every directory shows all commands, durably, in finished segments. *)
Definition sealed (H : list Command) (n : nat) (s : fs) : Prop :=
  sound s ∧ ∀ d, prefix_dirs s d → ∃ chain, view H n n chain (inodes s) d ∧
    wholes H n (inodes s) chain (Z.of_nat n + 1).

Lemma sealed_safe H n s : sealed H n s → safe H n s.
Proof. intros [Hso Hs]. split; [done|]. intros d Hd. destruct (Hs d Hd) as (chain & Hv & _). eauto. Qed.

Lemma createWAL_spec H n s :
  zlength H < 2 ^ 64 - 1 → quiet s → sealed H n s →
  wp (createWAL wd (Z.of_nat n + 1)) (λ o s',
    match o with
    | Ok w => quiet s' ∧ w = mkWal wd (wal_f w) 0 false ∧ inodes s' !! wal_f w = Some (mkInode [] 0) ∧
        pend s' = [] ∧ (∀ q, names s' !! snapshotPath sd q = names s !! snapshotPath sd q) ∧
        ∃ chain, steady H n n (chain ++ [(Z.of_nat n + 1, wal_f w)]) s'
    | Crash => safe H n s'
    | _ => False
    end) s.
Proof.
  intros Hlen Hq Hse. set (k := Z.of_nat n + 1) in *. pose proof (sealed_safe _ _ _ Hse) as Hsafe0.
  pose proof Hse as [Hso Hs]. destruct (Hs _ (prefix_dirs_names s)) as (chain & Hv0 & Hw).
  pose proof Hv0 as (_ & _ & [_ Hch] & _ & Hn & _).
  apply wp_bind, wp_quiet; [done| |intros; by apply safe_faults].
  intros r Hr. unfold wp. change (names (s <| faults := r |>) !! segmentPath wd k) with (names s !! segmentPath wd k).
  destruct (names s !! segmentPath wd k) as [i|] eqn:Hi.
  { assert (k < k); [|lia]. eapply wholes_starts; [done|]. apply Hch. split; [unfold is_u64; lia|done]. }
  cbn [fst snd wpk]. set (s0 := s <| faults := r |>). set (f := new_inode s0).
  assert (inodes s !! f = None) as Hf by exact (new_inode_fresh s0).
  set (s1 := create_inode (segmentPath wd k) s0).
  assert (names s1 = <[segmentPath wd k := f]> (names s)) as Hnm.
  { unfold s1, create_inode. by rewrite names_journal. }
  assert (view H n n (chain ++ [(k, f)]) (inodes s1) (names s1)) as Hv.
  { rewrite Hnm. by apply view_new_segment. }
  assert (safe H n s1) as Hsafe.
  { split; [by apply sound_create, sound_faults|].
    intros d Hd. assert (prefix_dirs s d ∨ d = names s1) as [Hd'| ->].
    { rewrite Hnm. by apply prefix_dirs_journal in Hd. }
    - destruct (Hs d Hd') as (chain' & Hv' & _). exists n, chain'. eapply view_ino; [|exact Hv'].
      intros i nd Hin. cbn. rewrite lookup_insert_ne; [done|]. intros Heq. change (f = i) in Heq. congruence.
    - by eexists _, _. }
  apply wp_bind, wp_attempt, wp_quiet; [done| |intros; by apply safe_faults].
  intros r' Hr'. unfold wp. cbn [fst snd wpk]. apply wp_ret. split; [done|]. split; [done|]. split.
  { cbn. by rewrite lookup_insert_eq. }
  split; [done|]. split.
  { intros q. change (names s1 !! snapshotPath sd q = names s !! snapshotPath sd q). rewrite Hnm.
    apply lookup_insert_ne. intros Heq. by apply (seg_path_ne (snapshotPath sd q) k). }
  exists chain. split; [destruct Hsafe as [Hso' _]; by apply sound_fsync, sound_faults|].
  intros d Hd. apply prefix_dirs_synced in Hd as ->; [|done]. exact Hv.
Qed.

(** ** Opening the store *)

(** The first [n] commands are all a view shows. *)
Lemma view_take H lo n chain ino d : view H lo n chain ino d → view (take n H) lo n chain ino d.
Proof.
  assert (∀ a b, (b ≤ n)%nat → slice a b (take n H) = slice a b H) as Hsl.
  { intros a b Hb. unfold slice. rewrite skipn_firstn_comm, take_take. f_equal. lia. }
  assert (∀ a, (a ≤ n)%nat → take a (take n H) = take a H) as Htk.
  { intros a Ha. rewrite take_take. f_equal. lia. }
  destruct chain as [|[k f] pre _] using rev_ind.
  - intros (Hnm & Hsn & Hch & Hok & Hn & Hq). assert (length (take n H) = n) by (rewrite length_take; lia).
    split; [done|]. split; [|split; [done|split; [done|split; [lia|done]]]].
    intros q i Hq' Hi. destruct (Hsn q i Hq' Hi) as (? & visit & b & ? & ? & ?).
    split; [done|]. exists visit, b. by rewrite Htk by lia.
  - intros Hv. pose proof Hv as (_ & _ & _ & Hok & Hn & _).
    assert (length (take n H) = n) by (rewrite length_take; lia).
    apply (view_change H (take n H) lo lo n n pre k f ino ino); try done; try lia.
    + intros a b Hb. apply Hsl. lia.
    + intros a Ha. apply Htk. lia.
    + apply chain_ok_snoc in Hok as (_ & Hk & (Hkn & _ & t & z & Ht & Hi & Hz)).
      split; [done|]. split; [lia|]. exists t, z. unfold seg in *. rewrite !Hsl by lia. done.
Qed.

Lemma steady_take H lo n chain s : steady H lo n chain s → steady (take n H) lo n chain s.
Proof. intros [Hso Hs]. split; [done|]. intros d Hd. by apply view_take, Hs. Qed.

Lemma hist_ok_take n H : hist_ok H → hist_ok (take n H).
Proof.
  intros (Hc & Hl & Hd). split; [by apply Forall_take|]. split; [rewrite length_take; lia|].
  intros m visit. rewrite take_take. apply Hd.
Qed.

(** What a boot finds is settled: nothing is left to become durable. *)
Lemma safe_settled H lo s : pend s = [] → safe H lo s → ∃ n chain, steady H lo n chain s.
Proof.
  intros Hp [Hso Hs]. destruct (Hs (names s) (prefix_dirs_names s)) as (n & chain & Hv).
  exists n, chain. split; [done|]. intros d Hd. apply prefix_dirs_synced in Hd as ->; [|done].
  unfold names in Hv. by rewrite Hp in Hv.
Qed.
End store_laws.
