(* ===== verification/StoreRun.v ===== *)
(** * The durable store at work

    [running H lo x]: the store [x] has executed the commands [H], of which the
    first [lo] are durable whatever crash comes.  Opening a disk that a crash
    left, writing, and snapshotting keep it so. *)

From stdpp Require Import prelude gmap strings sorting.
From coqutil Require Import Byte.
From S2P Require Import Prelude GoRuntime GoBytes GoStrings GoFS Record MemStore Command Wal Snapshot Store StoreLaws.
Open Scope Z_scope.

Section store_run.
Context {dirs : StoreDirs}.

(** The log open for appending: its active segment holds whole records up to
    the last command. *)
Definition active (H : list Command) (lo : nat) (w : wal) (s : fs) : Prop :=
  wal_dir w = wd ∧ wal_failed w = false ∧ ∃ k z,
    live H lo (length H) k (wal_f w) s ∧
    inodes s !! wal_f w = Some (mkInode (seg k (length H) H) z) ∧
    wal_size w = zlength (seg k (length H) H).

Record running (H : list Command) (lo : nat) (x : DurableStore) : Prop := {
  run_hist : hist_ok H;
  run_lo : (lo ≤ length H)%nat;
  run_mem : mem x = state_of H;
  run_seq : seq x = zlength H;
  run_dir : snapDir x = sd;
  run_threshold : 0 < snapshotThreshold x;
  run_quiet : no_io_errors (disk (wl x));
  run_log : active H lo (log (wl x)) (disk (wl x))
}.

(** The same on a disk whose coming calls may fail. *)
Definition silenced (x : DurableStore) : DurableStore := x <| wl ::= set disk (set faults (λ _, [])) |>.
Definition serving (H : list Command) (lo : nat) (x : DurableStore) : Prop := running H lo (silenced x).

Lemma safe_app H H' lo s : (lo ≤ length H)%nat → safe H lo s → safe (H ++ H') lo s.
Proof.
  intros Hlo Hs. induction H' as [|c H' IH] using rev_ind; [by rewrite app_nil_r|].
  rewrite app_assoc. apply safe_extend; [rewrite length_app; lia|done].
Qed.

Lemma safe_of_take H lo n s : (lo ≤ n ≤ length H)%nat → safe (take n H) lo s → safe H lo s.
Proof.
  intros Hn Hs. rewrite <-(take_drop n H). apply safe_app; [rewrite length_take; lia|done].
Qed.

Lemma active_safe H lo w s : active H lo w s → safe H lo s.
Proof. intros (_ & _ & k & z & Hs & _). by eapply live_safe. Qed.

Lemma active_faults H lo w s r : active H lo w s → active H lo w (s <| faults := r |>).
Proof.
  intros (? & ? & k & z & Hs & ? & ?). split; [done|]. split; [done|].
  exists k, z. split; [by apply live_faults|done].
Qed.

Lemma active_any H lo w s s' : s' <| faults := [] |> = s <| faults := [] |> → active H lo w s → active H lo w s'.
Proof.
  intros E Ha. apply (active_faults _ _ _ _ []) in Ha. rewrite <-E in Ha. apply (active_faults _ _ _ _ (faults s')) in Ha. by destruct s'.
Qed.

Lemma serving_running H lo x : serving H lo x → no_io_errors (disk (wl x)) → running H lo x.
Proof. intros [] Hq. split; try done. by eapply active_any; [|exact run_log0]. Qed.

Lemma running_serving H lo x : running H lo x → serving H lo x.
Proof. intros []. split; try done; [constructor|]. by eapply active_any; [|exact run_log0]. Qed.

(** ** Opening *)

Lemma seg_take k n H : seg k n (take n H) = seg k n H.
Proof. unfold seg, slice. rewrite skipn_firstn_comm, take_take. do 3 f_equal. lia. Qed.

(** Cutting the torn tail off the newest segment. *)
Lemma Truncate_spec H lo n pre k f s :
  no_io_errors s → steady H lo n (pre ++ [(k, f)]) s →
  wp (Truncate (segmentPath wd k) (zlength (seg k n H))) (λ o s',
    match o with
    | Ok _ => no_io_errors s' ∧ live (take n H) lo n k f s' ∧
        ∃ z, inodes s' !! f = Some (mkInode (seg k n (take n H)) z)
    | Crash => safe H lo s'
    | _ => False
    end) s.
Proof.
  intros Hq Hs. apply wp_quiet; [done| |intros; by eapply safe_faults, steady_safe].
  intros r Hr. unfold wp. change (names _ !! _) with (names s !! segmentPath wd k).
  apply steady_take, steady_live in Hs.
  destruct (live_last _ _ _ _ _ _ Hs) as (-> & Hk & Hn & (Hkn & Hnl & t & z & Ht & Hi & Hz)).
  assert (length (take n H) = n) as Hl by (rewrite length_take in *; lia).
  pose proof (seg_take k n H) as Hsg.
  set (g := λ nd, mkInode (ztake (zlength (seg k n H)) (content nd))
    (synced nd `min` Z.to_nat (zlength (seg k n H)))).
  assert (g (mkInode (seg k n (take n H) ++ t) z) =
    mkInode (seg k n (take n H)) (z `min` length (seg k n H))) as Hg.
  { unfold g. cbn [content synced]. f_equal; [|lia]. unfold ztake. rewrite Hsg.
    by rewrite Nat2Z.id, take_app_length. }
  cbn [fst snd]. split; [done|]. split.
  - apply (live_alter (take n H) (take n H) lo lo n n k f g s); try done; try lia.
    + intros nd Hnd. rewrite Hi in Hnd. injection Hnd as <-. rewrite Hg. cbn. rewrite Hsg. lia.
    + split; [done|]. split; [done|]. exists [], (z `min` length (seg k n H))%nat.
      split; [apply torn_nil|]. cbn. rewrite lookup_alter_eq, Hi. cbn. change (mkInode (ztake _ _) _) with (g (mkInode (seg k n (take n H) ++ t) z)).
      rewrite Hg, app_nil_r. split; [done|]. apply Nat.min_glb; [done|]. rewrite <-Hsg.
      apply prefix_length, seg_mono. lia.
  - exists (z `min` length (seg k n H))%nat. cbn. rewrite lookup_alter_eq, Hi. cbn.
    by rewrite <-Hg.
Qed.

Lemma newest_bound H lo n chain ino d q :
  view H lo n chain ino d → newest_snap d q → 0 ≤ q ≤ Z.of_nat lo ∧ joined q n chain.
Proof.
  intros (_ & Hsn & _ & _ & _ & q' & Hq' & Hj) Hq.
  rewrite (newest_snap_fun _ _ _ Hq' Hq) in Hj. split; [|done].
  destruct Hq as [_ [[[i Hi] Hu]|[-> _]]]; [|lia].
  destruct (Hsn q i Hu Hi) as [? _]. unfold is_u64 in Hu. lia.
Qed.

Lemma replayWAL_spec H lo n chain q s :
  hist_ok H → no_io_errors s → steady H lo n chain s → newest_snap (names s) q →
  wp (replayWAL replay_command wd q (state_of (take (Z.to_nat q) H)))
    (reads s (λ r, r = (Z.of_nat n, match last chain with
                                    | None => 0
                                    | Some (k, _) => zlength (seg k n H)
                                    end, state_of (take n H)))) s.
Proof.
  intros (Hc & Hlen & _) Hq Hs Hnew. pose proof (steady_names _ _ _ _ _ Hs) as Hv.
  destruct (newest_bound _ _ _ _ _ _ _ Hv Hnew) as [Hqb Hj].
  pose proof Hv as (Hnm & _ & Hch & Hok & Hn & _).
  apply wp_bind. eapply wp_mono; [by apply listSegments_view|].
  intros o s1 [[r ->] Ho]. destruct o as [segs|e| |]; cbn [wpk]; [|done|done|by split; [eexists|]].
  destruct Ho as [Hq1 ->]. rewrite <-(Z2Nat.id q) at 1 by lia.
  eapply wp_mono; [apply (replaySegments_chain H lo n chain); [done|done|done|lia|lia| |done|]|].
  - intros k i Hki. by apply Hch.
  - destruct chain as [|[k i] rest]; [done|]. cbn in Hj. lia.
  - intros o s2 [[r2 ->] Ho]. split; [by eexists|]. destruct o as [x|e| |]; [|done..].
    destruct Ho as [Hq2 ->]. split; [done|]. destruct chain as [|p chain].
    + cbn in Hj |- *. replace (Z.to_nat q) with n by lia. done.
    + destruct (last (p :: chain)) as [[]|] eqn:E; [done|]. by apply last_None in E.
Qed.

Lemma MkdirAll_spec d s : no_io_errors s → wp (MkdirAll d) (reads s (λ _, True)) s.
Proof.
  intros Hq. apply wp_quiet; [done| |by split; [eexists|]].
  intros r Hr. unfold wp. cbn. split; [by eexists|done].
Qed.

(** The last step of [Open]: the log to append to. *)
Lemma Open_log H lo n chain s :
  hist_ok H → no_io_errors s → steady H lo n chain s →
  wp (match last (seg_of <$> chain) with
      | None => createWAL wd (u64 (Z.of_nat n + 1))
      | Some newest =>
          wrap "truncate torn wal tail: %w" (Truncate (seg_path newest)
            match last chain with None => 0 | Some (k, _) => zlength (seg k n H) end);;
          openWALForAppend wd (startSeq newest)
            match last chain with None => 0 | Some (k, _) => zlength (seg k n H) end
      end) (λ o s',
    match o with
    | Ok w => no_io_errors s' ∧ active (take n H) lo w s'
    | Crash => safe H lo s'
    | _ => False
    end) s.
Proof.
  intros (Hc & Hlen & _) Hq Hs. pose proof (steady_names _ _ _ _ _ Hs) as Hv.
  pose proof Hv as (_ & _ & _ & _ & Hn & _). assert (length (take n H) = n) as Hl by (rewrite length_take; lia).
  destruct chain as [|[k f] pre _] using rev_ind.
  - cbn [fmap list_fmap last]. rewrite u64_small by (unfold is_u64; lia).
    assert (lo = n) as ->.
    { destruct Hv as (_ & _ & _ & _ & _ & q & Hnew & Hj). cbn in Hj.
      destruct (newest_bound _ _ _ _ _ _ _ (steady_names _ _ _ _ _ Hs) Hnew). lia. }
    eapply wp_mono; [apply (createWAL_spec (take n H) n); [lia|done|]|].
    { apply steady_take in Hs as [Hso Hs]. split; [done|]. intros d Hd. exists []. split; [by apply Hs|done]. }
    intros o s' Ho. destruct o as [w|e| |]; [|done|done|by eapply safe_of_take].
    destruct Ho as (Hq' & Hw & Hi & _ & _ & chain & Hs'). split; [done|]. rewrite Hw. split; [done|]. split; [done|].
    exists (Z.of_nat n + 1), 0%nat. cbn [wal_f wal_size app] in *. rewrite Hl. split; [by eapply steady_live|].
    assert (seg (Z.of_nat n + 1) n (take n H) = []) as ->; [|done].
    unfold seg, slice. replace (n - Z.to_nat (Z.of_nat n + 1 - 1))%nat with 0%nat by lia. done.
  - rewrite fmap_app, !last_snoc. cbn [fmap list_fmap seg_of fst seg_path startSeq]. rewrite last_snoc.
    apply wp_bind, wp_wrap. eapply wp_mono; [by apply (Truncate_spec H lo n pre k f)|].
    intros o s1 Ho. destruct o as [[]|e| |]; cbn [wpk]; [|done..].
    destruct Ho as (Hq1 & Hs1 & z & Hi).
    apply wp_bind, wp_quiet; [done| |intros; by eapply safe_of_take, safe_faults, live_safe].
    intros r Hr. unfold wp. change (names _ !! _) with (names s1 !! segmentPath wd k).
    destruct (live_last _ _ _ _ _ _ Hs1) as (-> & _).
    cbn [fst snd wpk]. apply wp_ret. split; [done|]. split; [done|]. split; [done|]. exists k, z.
    cbn [wal_f wal_size]. rewrite Hl. split; [by apply live_faults|]. split; [done|].
    by rewrite seg_take.
Qed.

Lemma swept_newest H lo n chain s s' q :
  swept H lo n chain s s' → newest_snap (names s) q → newest_snap (names s') q.
Proof. intros [_ Hn]. by apply newest_snap_ext. Qed.

Lemma Open_spec H lo thr s :
  hist_ok H → no_io_errors s → pend s = [] → safe H lo s →
  wp (Open wd sd thr) (λ o s',
    match o with
    | Ok x => disk (wl x) = s' ∧ ∃ n, (lo ≤ n ≤ length H)%nat ∧ running (take n H) lo x
    | Crash => safe H lo s'
    | _ => False
    end) s.
Proof.
  intros HH Hq Hp Hsafe. destruct (safe_settled H lo s Hp Hsafe) as (n & chain & Hs).
  unfold Open. cbv zeta. apply wp_bind. eapply wp_mono; [by apply MkdirAll_spec|].
  intros o s1 [[r1 ->] Ho]. destruct o as [[]|e| |]; cbn [wpk]; [|done|done|by apply safe_faults].
  destruct Ho as [Hq1 _]. apply wp_bind. eapply wp_mono; [by apply MkdirAll_spec|].
  intros o s2 [[r2 ->] Ho]. destruct o as [[]|e| |]; cbn [wpk]; [|done|done|by apply safe_faults, safe_faults].
  destruct Ho as [Hq2 _]. change (s <| faults := r1 |> <| faults := r2 |>) with (s <| faults := r2 |>) in *.
  apply (steady_faults _ _ _ _ _ r2) in Hs. clear Hq1 Hsafe Hq. set (s2 := s <| faults := r2 |>) in *.
  apply wp_bind, wp_wrap. eapply wp_mono; [by apply (loadNewestSnapshot_spec H lo n chain)|].
  intros o s3 [Hsw Ho]. pose proof Hsw as [Hs3 _].
  destruct o as [[m q]|e| |]; cbn [wpk]; [|done|done|by eapply steady_safe].
  destruct Ho as (Hq3 & Hnew & ->). apply (swept_newest _ _ _ _ _ _ _ Hsw) in Hnew.
  apply wp_bind, wp_wrap. eapply wp_mono; [by apply (replayWAL_spec H lo n chain)|].
  intros o s4 [[r4 ->] Ho]. apply (steady_faults _ _ _ _ _ r4) in Hs3.
  destruct o as [x|e| |]; cbn [wpk]; [|done|done|by eapply steady_safe].
  destruct Ho as [Hq4 ->]. pose proof (steady_names _ _ _ _ _ Hs3) as (Hnm & _ & Hch & _ & Hn & _).
  apply wp_bind. eapply wp_mono; [by apply listSegments_view|].
  intros o s5 [[r5 ->] Ho]. apply (steady_faults _ _ _ _ _ r5) in Hs3.
  destruct o as [segs|e| |]; cbn [wpk]; [|done|done|by eapply steady_safe].
  destruct Ho as [Hq5 ->]. apply wp_bind. eapply wp_mono; [by apply (Open_log H lo n chain)|].
  intros o s6 Ho. destruct o as [w|e| |]; cbn [wpk]; [|done..]. destruct Ho as [Hq6 Hact].
  apply wp_bind, wp_get, wp_ret. split; [done|]. exists n. split; [done|].
  split; cbn; try done; [by apply hist_ok_take|rewrite length_take; lia|rewrite length_take; lia|].
  destruct (thr <=? 0) eqn:E; [done|lia].
Qed.

(** ** Appending *)

Lemma slice_all a H : slice a (length H) H = drop a H.
Proof. unfold slice. rewrite take_ge; [done|]. rewrite length_drop. lia. Qed.

(** One more record at the end of the active segment. *)
Lemma seg_snoc k c H :
  1 ≤ k → k - 1 ≤ zlength H →
  seg k (length (H ++ [c])) (H ++ [c]) = seg k (length H) H ++ record_bytes (zlength H + 1) (enc c).
Proof.
  intros Hk Hkn. unfold seg. rewrite !slice_all, drop_app_le, fmap_app, seg_bytes_app by lia.
  rewrite length_fmap, length_drop. cbn [fmap list_fmap seg_bytes]. rewrite app_nil_r. do 2 f_equal. lia.
Qed.

Lemma seg_app_low k n H H' : (n ≤ length H)%nat → seg k n (H ++ H') = seg k n H.
Proof.
  intros Hn. unfold seg, slice. destruct (decide (Z.to_nat (k - 1) ≤ length H)%nat).
  - rewrite drop_app_le, take_app_le by (rewrite ?length_drop; lia). done.
  - replace (n - Z.to_nat (k - 1))%nat with 0%nat by lia. done.
Qed.

(** Some of the new record has reached the file. *)
Lemma write_step H lo c k f z j s :
  hist_ok (H ++ [c]) → (lo ≤ length H)%nat → live H lo (length H) k f s →
  inodes s !! f = Some (mkInode (seg k (length H) H) z) →
  ∃ n, (n = length H ∨ n = length (H ++ [c])) ∧
    (length (record_bytes (zlength H + 1) (enc c)) ≤ j → n = length (H ++ [c]))%nat ∧
    live (H ++ [c]) lo n k f (write_inode f (take j (record_bytes (zlength H + 1) (enc c))) s).
Proof.
  intros (Hc & _) Hlo Hs Hi. set (b := record_bytes _ _).
  destruct (live_last _ _ _ _ _ _ Hs) as (_ & Hk & _ & (Hkn & _ & t & z' & _ & Hi' & Hz)).
  rewrite Hi in Hi'. injection Hi' as _ <-. rewrite Nat.min_l in Hz by done.
  pose proof (seg_snoc k c H Hk Hkn) as Hsnoc. fold b in Hsnoc.
  assert (length (H ++ [c]) = S (length H)) as Hl by (rewrite length_app; simpl; lia).
  assert (∀ n t, (n = length H ∨ n = length (H ++ [c])) → torn t →
    seg k (length H) H ++ take j b = seg k n (H ++ [c]) ++ t →
    live (H ++ [c]) lo n k f (write_inode f (take j b) s)) as Hgoal.
  { intros n t' Hn Ht Heq.
    eapply (live_alter H (H ++ [c]) lo lo (length H) n k f _ s);
      [exact Hs|done|done|done| |lia|lia| | |].
    - intros nd Hnd. rewrite Hi in Hnd. injection Hnd as <-. cbn. destruct Hs as [[[_ _ Hsy] _] _].
      specialize (Hsy _ _ Hi). cbn in Hsy. rewrite length_app. lia.
    - intros a b' Hb'. apply slice_app. lia.
    - intros a Ha. apply take_app_le. lia.
    - split; [lia|]. split; [lia|]. exists t', z. split; [done|].
      assert (inodes (write_inode f (take j b) s) !! f = Some (mkInode (seg k (length H) H ++ take j b) z)) as ->.
      { unfold write_inode. cbn [inodes set set_inodes]. by rewrite lookup_alter_eq, Hi. }
      rewrite Heq. split; [done|]. rewrite Nat.min_l, seg_app_low by lia. done. }
  destruct (decide (length b ≤ j)%nat) as [Hj|Hj].
  - exists (length (H ++ [c])). split; [by right|]. split; [done|]. apply (Hgoal _ []); [by right|apply torn_nil|].
    by rewrite app_nil_r, take_ge, Hsnoc.
  - exists (length H). split; [by left|]. split; [done|]. apply (Hgoal _ (take j b)); [by left| |by rewrite seg_app_low].
    apply Forall_app in Hc as [_ [[_ Hfit] _]%Forall_cons]. exists (zlength H + 1), (enc c).
    split; [done|]. split; [exists (drop j b); by rewrite take_drop|].
    intros Heq%(f_equal length). rewrite length_take in Heq. fold b in Heq. lia.
Qed.

(** The whole record is durable. *)
Lemma sync_step H lo k f z s :
  live H lo (length H) k f s → inodes s !! f = Some (mkInode (seg k (length H) H) z) →
  live H (length H) (length H) k f
    (s <| inodes ::= alter (λ n, mkInode (content n) (length (content n))) f |>).
Proof.
  intros Hs Hi. destruct (live_last _ _ _ _ _ _ Hs) as (_ & Hk & Hn & (Hkn & _)).
  eapply (live_alter H H lo _ (length H) (length H) k f _ s); [exact Hs|done|done|done| |lia|lia|done|done|].
  - intros nd _. cbn. lia.
  - split; [lia|]. split; [lia|]. exists [], (length (seg k (length H) H)). split; [apply torn_nil|].
    cbn. rewrite lookup_alter_eq, Hi, app_nil_r. cbn. split; [done|]. by rewrite Nat.min_id.
Qed.

(** No directory has a snapshot of state [q]. *)
Definition unsnapped (q : Z) (s : fs) : Prop :=
  ∀ d, prefix_dirs s d → d !! snapshotPath sd q = None.

Lemma live_unsnapped H lo n k f s q :
  live H lo n k f s → is_u64 q → Z.of_nat lo < q → unsnapped q s.
Proof.
  intros [_ Hs] Hq Hlo d Hd. destruct (Hs d Hd) as (pre & _ & Hsn & _).
  destruct (d !! snapshotPath sd q) as [i|] eqn:Hi; [|done]. destruct (Hsn q i Hq Hi). lia.
Qed.

(** An append on any disk.  When the write or the fsync fails, the log refuses what
    follows, and a crash finds the command or does not. *)
Lemma Append_any H lo c y :
  hist_ok (H ++ [c]) → (lo ≤ length H)%nat → active H lo (log y) (disk y) →
  wp (Append (u64 (zlength H + 1)) (encodeCommand [] c)) (λ o y',
    match o with
    | Ok _ => faults (disk y') = drop 2 (faults (disk y)) ∧ active (H ++ [c]) (length (H ++ [c])) (log y') (disk y') ∧
        unsnapped (zlength (H ++ [c])) (disk y')
    | Err _ => ¬ no_io_errors (disk y) ∧ wal_failed (log y') = true ∧ safe (H ++ [c]) lo (disk y')
    | Crash => safe (H ++ [c]) lo (disk y')
    | Panic => False
    end) y.
Proof.
  intros HH Hlo (Hdir & Hfail & k & z & Hs & Hi & Hsz). set (f := wal_f (log y)) in *.
  pose proof HH as (_ & Hlen & _). rewrite length_app in Hlen. cbn in Hlen.
  destruct (live_last _ _ _ _ _ _ Hs) as (_ & Hk & _ & (Hkn & _)).
  assert (unsnapped (zlength (H ++ [c])) (disk y)) as Hun.
  { rewrite length_app. cbn. eapply live_unsnapped; [exact Hs|unfold is_u64; lia|lia]. }
  unfold Append. apply wp_bind, wp_gets. cbn [wpk]. rewrite Hfail. cbv zeta. fold f.
  rewrite u64_small by (unfold is_u64; lia). change (encodeCommand [] c) with (enc c). set (b := record_bytes _ _).
  assert (∀ j r, safe (H ++ [c]) lo (write_inode f (take j b) ((disk y) <| faults := r |>))) as Htorn.
  { intros j r. apply (live_faults _ _ _ _ _ _ r) in Hs.
    destruct (write_step H lo c k f z j _ HH Hlo Hs Hi) as (n & _ & _ & Hs'). by eapply live_safe. }
  apply wp_bind, wp_attempt, wp_zoom, wp_sys_next; [| |intros j r _; apply Htorn].
  2:{ intros j r E. cbn [wpk]. unfold fail_wal. apply wp_bind, wp_modify. cbn [wpk]. apply wp_throw. split; [|split; [done|apply Htorn]].
      apply (not_no_io_errors j r). by rewrite E. }
  unfold wp. cbn [fst snd wpk]. set (r := tail (faults (disk y))). apply (live_faults _ _ _ _ _ _ r) in Hs.
  destruct (write_step H lo c k f z (length b) _ HH Hlo Hs Hi) as (n & _ & Hn & Hs1).
  fold b in Hn, Hs1. specialize (Hn ltac:(done)). subst n. rewrite firstn_all in Hs1.
  set (s1 := write_inode f b ((disk y) <| faults := r |>)) in *.
  assert (inodes s1 !! f = Some (mkInode (seg k (length (H ++ [c])) (H ++ [c])) z)) as Hi1.
  { rewrite (seg_snoc k c H Hk Hkn). unfold s1, write_inode. cbn [inodes set set_inodes]. rewrite lookup_alter_eq.
    change (inodes ((disk y) <| faults := r |>) !! f) with (inodes (disk y) !! f). by rewrite Hi. }
  apply wp_bind, wp_attempt, wp_zoom, wp_sys_next; change (disk (y <| disk := s1 |>)) with s1.
  2:{ intros j r' E. cbn [wpk]. unfold fail_wal. apply wp_bind, wp_modify. cbn [wpk]. apply wp_throw.
      split; [|split; [done|by eapply safe_faults, live_safe]]. apply (not_no_io_errors j r'). change (faults s1) with r in E. unfold r in E.
      destruct (faults (disk y)) as [|x q]; [done|]. cbn in E. rewrite E. by exists [x]. }
  2:{ intros j r' _. cbn. by eapply safe_faults, live_safe. }
  unfold wp. cbn [fst snd wpk]. apply wp_modify. set (r' := tail (faults s1)).
  pose proof (sync_step _ _ _ _ _ _ (live_faults _ _ _ _ _ _ r' Hs1) Hi1) as Hs2.
  split; [unfold r', s1, r; cbn; by destruct (faults (disk y)) as [|x [|x' q]]|]. split; [|exact Hun]. split; [done|]. split; [done|].
  exists k, (length (seg k (length (H ++ [c])) (H ++ [c]))). split; [exact Hs2|]. split.
  - change (alter (λ n, mkInode (content n) (length (content n))) f (inodes s1) !! f =
      Some (mkInode (seg k (length (H ++ [c])) (H ++ [c])) (length (seg k (length (H ++ [c])) (H ++ [c]))))).
    by rewrite lookup_alter_eq, Hi1.
  - change (wal_size (log y) + zlength b = zlength (seg k (length (H ++ [c])) (H ++ [c]))).
    rewrite Hsz, (seg_snoc k c H Hk Hkn). fold b. rewrite length_app. lia.
Qed.

(** ** What a boot finds *)

Definition all_synced (s : fs) : Prop :=
  ∀ i nd, inodes s !! i = Some nd → synced nd = length (content nd).

Lemma crash_all_synced s s' : crash s s' → all_synced s' ∧ pend s' = [].
Proof.
  intros (_ & Hp & Hi). split; [|done]. intros i nd Hnd. specialize (Hi i). rewrite Hnd in Hi.
  by inversion Hi as [? ? (k & _ & _ & Hs)|].
Qed.

(** On a settled disk, all the commands that are there are durable. *)
Lemma steady_settled H lo n chain s :
  all_synced s → steady H lo n chain s → steady (take n H) n n chain s.
Proof.
  intros Hsy Hs. apply steady_take in Hs as [Hso Hs]. split; [done|]. intros d Hd.
  pose proof (Hs d Hd) as Hv. pose proof Hv as (Hnm & Hsn & Hch & Hok & Hn & Hq).
  destruct chain as [|[k f] pre _] using rev_ind.
  - split; [done|]. split; [|split; [done|split; [done|split; [lia|done]]]].
    intros q i Hq' Hi. destruct (Hsn q i Hq' Hi). split; [lia|done].
  - apply (view_change (take n H) (take n H) lo n n n pre k f (inodes s)); try done; try lia.
    apply chain_ok_snoc in Hok as (_ & Hk & (Hkn & Hnl & t & z & Ht & Hi & Hz)).
    split; [done|]. split; [done|]. exists t, z. split; [done|]. split; [done|].
    apply Hsy in Hi. cbn in Hi. rewrite Hi, Nat.min_id, length_app. lia.
Qed.

(** A disk that holds exactly the commands [H], durably. *)
Definition resting (H : list Command) (s : fs) : Prop :=
  hist_ok H ∧ no_io_errors s ∧ all_synced s ∧ pend s = [] ∧
  ∃ chain, steady H (length H) (length H) chain s.

(** A crash leaves some prefix of the commands that has all the durable ones. *)
Lemma safe_resting H lo s s' :
  hist_ok H → safe H lo s → crash s s' → no_io_errors s' →
  ∃ n, (lo ≤ n ≤ length H)%nat ∧ resting (take n H) s'.
Proof.
  intros HH Hs Hc Hq. pose proof HH as (Hf & _). apply (safe_crash H lo s s' Hf) in Hs; [|done].
  destruct (crash_all_synced _ _ Hc) as [Hsy Hp]. destruct (safe_settled H lo s' Hp Hs) as (n & chain & Hst).
  pose proof (steady_names _ _ _ _ _ Hst) as (_ & _ & _ & _ & Hn & _). exists n. split; [done|].
  split; [by apply hist_ok_take|]. split; [done|]. split; [done|]. split; [done|]. exists chain.
  rewrite length_take, Nat.min_l by lia. by eapply steady_settled.
Qed.

Lemma Open_resting H thr s :
  resting H s →
  wp (Open wd sd thr) (λ o s',
    match o with
    | Ok x => disk (wl x) = s' ∧ running H (length H) x
    | Crash => safe H (length H) s'
    | _ => False
    end) s.
Proof.
  intros (HH & Hq & _ & Hp & chain & Hs). eapply wp_mono; [apply (Open_spec H (length H)); try done; by eapply steady_safe|].
  intros o s' Ho. destruct o as [x|e| |]; try done. destruct Ho as (Hd & n & Hn & Hr).
  split; [done|]. by rewrite take_ge in Hr by lia.
Qed.
End store_run.
