(* ===== verification/StoreSnap.v ===== *)
(** * Snapshots of the durable store

    Writing a snapshot, rotating the log and deleting what the snapshot covers
    keep every command durable, wherever a crash interrupts them. *)

From stdpp Require Import prelude gmap strings sorting.
From coqutil Require Import Byte.
From S2P Require Import Prelude GoRuntime GoBytes GoStrings GoFS Record MemStore Command Wal Snapshot Store StoreLaws StoreRun.
Open Scope Z_scope.

Section store_snap.
Context {dirs : StoreDirs}.

(** ** Writing the snapshot *)

Lemma snap_path_inj q q' : is_u64 q → is_u64 q' → snapshotPath sd q = snapshotPath sd q' → q = q'.
Proof. intros Hq Hq' Heq. injection Heq as Heq. apply app_inv_tail in Heq. by apply fmt_020d_inj. Qed.

(** Steps on the files of one snapshot leave the segments alone. *)
Lemma sound_untouched q s s' :
  fs_wf s' → untouched [snapshotPath sd q; tmp_of (snapshotPath sd q)] s s' → sound s → sound s'.
Proof.
  set (ps := [snapshotPath sd q; tmp_of (snapshotPath sd q)]).
  intros Hwf' (Hd & _ & _ & Hr) [Hwf Hsep]. split; [done|].
  assert (∀ p, p.1 = wd → p ∉ ps) as Hps.
  { intros p Hp [-> | [-> | []%elem_of_nil]%elem_of_cons]%elem_of_cons; by apply dirs_ne. }
  intros d d' p p' i Hdd Hdd' Hp Hi Hi'. destruct (Hd _ Hdd) as (d0 & Hd0 & Heq).
  rewrite Heq in Hi by auto. destruct (decide (p' ∈ ps)) as [Hin|Hin].
  - destruct (Hr i) as [Hnone|(d1 & p1 & Hd1 & Hin1 & Hi1)]; [by exists d', p'| |].
    + destruct (prefix_dirs_range s d0 p i Hwf Hd0 Hi) as [n Hn]. congruence.
    + rewrite (Hsep d0 d1 p p1 i Hd0 Hd1 Hp Hi Hi1) in Hin1. by apply Hps in Hin1.
  - destruct (Hd _ Hdd') as (d1 & Hd1 & Heq'). rewrite Heq' in Hi' by done. by apply (Hsep d0 d1 p p' i).
Qed.

Definition snapshot_of (H : list Command) (b : bytes) : Prop :=
  ∃ visit, is_range (state_of H) visit ∧ b = snapshot_bytes (zlength H) (state_of H) visit.

(** A directory that differs from a good one only in the files of the snapshot
    of the present state. *)
Lemma view_snapshot H k f0 pre ino ino' d d' b :
  hist_ok H → let p := snapshotPath sd (zlength H) in
  view H (length H) (length H) (pre ++ [(k, f0)]) ino d →
  d !! p = None → (∀ q, q ∉ [p; tmp_of p] → d' !! q = d !! q) →
  (∀ i nd, ino !! i = Some nd → ino' !! i = Some nd) →
  snapshot_of H b → (∀ i, d' !! p = Some i → ino' !! i = Some (mkInode b (length b))) →
  view H (length H) (length H) (pre ++ [(k, f0)]) ino' d' ∧
  (is_Some (d' !! p) → newest_snap d' (zlength H)).
Proof.
  intros (_ & Hlen & _) p Hv Hp Hd Hino (visit & Hvis & Hb) Hnew.
  pose proof (view_ino _ _ _ _ _ _ _ Hino Hv) as (Hnm & Hsn & [Hso Hch] & Hok & Hn & q & Hq & Hj).
  assert (is_u64 (zlength H)) as Hu by (unfold is_u64; lia).
  assert (∀ q', is_u64 q' → q' ≠ zlength H → d' !! snapshotPath sd q' = d !! snapshotPath sd q') as Hsame.
  { intros q' Hq' Hne. apply Hd. intros [Heq|[Heq|[]%elem_of_nil]%elem_of_cons]%elem_of_cons.
    - by apply Hne, snap_path_inj.
    - by apply (tmp_path_ne q' (zlength H)). }
  assert (snaps_ok H (length H) ino' d') as Hsn'.
  { intros q' i Hq' Hi. destruct (decide (q' = zlength H)) as [->|Hne]; [|rewrite Hsame in Hi by done; by apply Hsn].
    split; [done|]. exists visit, b. rewrite Nat2Z.id, firstn_all. auto. }
  assert (is_Some (d' !! p) → newest_snap d' (zlength H)) as Hnewest.
  { intros Hs. split; [|by left]. intros q' i Hq' Hi. by destruct (Hsn' q' i Hq' Hi). }
  split; [|done]. split; [|split; [done|split; [|split; [done|split; [done|]]]]].
  - intros p' i Hi. destruct (decide (p' ∈ [p; tmp_of p])) as [Hin|Hin]; [|rewrite Hd in Hi by done; by eapply Hnm].
    assert (p'.1 = sd) as Hsd by (apply elem_of_cons in Hin as [->|[->|[]%elem_of_nil]%elem_of_cons]; done).
    split; [intros Hw; rewrite Hsd in Hw; by destruct dirs_ne|]. intros _. exists (zlength H). split; [done|].
    apply elem_of_cons in Hin as [->|[->|[]%elem_of_nil]%elem_of_cons]; auto.
  - split; [done|]. intros k' i. rewrite Hd; [apply Hch|].
    intros [Heq|[Heq|[]%elem_of_nil]%elem_of_cons]%elem_of_cons; symmetry in Heq; revert Heq; by apply seg_path_ne.
  - destruct (newest_bound _ _ _ _ _ _ _ Hv Hq) as [Hqb _].
    destruct (d' !! p) as [i|] eqn:Hi.
    + exists (zlength H). split; [by apply Hnewest|]. destruct pre as [|[k0 i0] pre]; cbn in *; lia.
    + exists q. split; [|done]. eapply newest_snap_ext; [|exact Hq]. intros q' Hq'.
      destruct (decide (q' = zlength H)) as [->|Hne]; [|by apply Hsame]. fold p. congruence.
Qed.

(** The active segment [f], which starts at [k], holds nothing but whole records. *)
Definition clean (H : list Command) (k : Z) (f : nat) (s : fs) : Prop :=
  inodes s !! f = Some (mkInode (seg k (length H) H) (length (seg k (length H) H))).

Lemma writeSnapshot_eq q m visit :
  writeSnapshot sd q m visit = WriteFileAtomic (snapshotPath sd q) (snapshot_bytes q m visit).
Proof. reflexivity. Qed.

Lemma live_snapshot H k f s s' b :
  hist_ok H → live H (length H) (length H) k f s → unsnapped (zlength H) s →
  let p := snapshotPath sd (zlength H) in
  fs_wf s' → untouched [p; tmp_of p] s s' → snapshot_of H b →
  shows_in s' p (λ o, o = None ∨ o = Some (mkInode b (length b))) →
  live H (length H) (length H) k f s' ∧
  (∀ d, prefix_dirs s' d → is_Some (d !! p) → newest_snap d (zlength H)).
Proof.
  intros HH [Hso Hs] Hun p Hwf Hunt Hb Hsh. assert (sound s') as Hso' by (by eapply sound_untouched).
  assert (∀ d', prefix_dirs s' d' → ∃ pre, view H (length H) (length H) (pre ++ [(k, f)]) (inodes s') d' ∧
    (is_Some (d' !! p) → newest_snap d' (zlength H))) as Hgoal.
  { intros d' Hd'. pose proof Hunt as (Hd & _ & Hin & _). destruct (Hd d' Hd') as (d & Hdd & Heq).
    destruct (Hs d Hdd) as [pre Hv]. exists pre. apply (view_snapshot H k f pre (inodes s) (inodes s') d d' b); try done.
    - by apply Hun.
    - intros i Hi. specialize (Hsh d' Hd'). unfold p in Hsh. rewrite Hi in Hsh.
      destruct Hsh as (nd & Hnd & [?|Heq']); [done|]. congruence. }
  split; [split; [done|]|]; intros d Hd; destruct (Hgoal d Hd) as (pre & Hv & Hn); eauto.
Qed.

(** Writing the snapshot of the present state. *)
Lemma writeSnapshot_spec H k f visit s :
  hist_ok H → no_io_errors s → live H (length H) (length H) k f s → clean H k f s →
  unsnapped (zlength H) s → is_range (state_of H) visit →
  wp (writeSnapshot sd (zlength H) (state_of H) visit) (λ o s',
    match o with
    | Ok _ => no_io_errors s' ∧ live H (length H) (length H) k f s' ∧ clean H k f s' ∧
        newest_snap (names s') (zlength H) ∧ pend s' = []
    | Crash => safe H (length H) s'
    | _ => False
    end) s.
Proof.
  intros HH Hq Hs Hcl Hun Hvis. pose proof Hs as [[Hwf _] _].
  set (b := snapshot_bytes (zlength H) (state_of H) visit).
  assert (snapshot_of H b) as Hb by (by exists visit).
  rewrite writeSnapshot_eq. fold b. eapply wp_mono; [apply (WriteFileAtomic_spec _ (λ o, o = None)); [done|]|].
  { intros d Hd. by rewrite Hun. }
  intros o s' (Hwf' & Hunt & Hsuf & Ho). set (p := snapshotPath sd (zlength H)) in *.
  assert (no_io_errors s') as Hq' by (unfold no_io_errors in *; destruct Hsuf as [x Hx]; rewrite Hx in Hq; by apply Forall_app in Hq as [_ ?]).
  assert (clean H k f s') as Hcl' by (by apply Hunt).
  destruct o as [[]|e| |]; [|by destruct Ho|done|].
  - destruct Ho as [Hst Hp]. destruct (live_snapshot H k f s s' b) as [Hs' Hnew]; try done.
    { eapply shows_in_mono; [|exact Hst]. intros [nd|] Hnd; [right|by left]. cbn in Hnd.
      destruct nd as [c z]. cbn in Hnd. by destruct Hnd as [-> [= ->]]. }
    split; [done|]. split; [done|]. split; [done|]. split; [|done].
    apply Hnew; [apply prefix_dirs_names|]. specialize (Hst _ (prefix_dirs_names s')).
    change (is_Some (names s' !! p)). destruct (names s' !! p); [by eexists|]. by cbn in Hst.
  - destruct (live_snapshot H k f s s' b) as [Hs' _]; try done. by eapply live_safe.
Qed.

(** ** Rotating the log *)

Lemma wholes_snoc H lo ino pre k f kend b :
  wholes H lo ino pre k → 1 ≤ k → k < kend → kend - 1 ≤ Z.of_nat lo →
  b = seg k (Z.to_nat (kend - 1)) H → ino !! f = Some (mkInode b (length b)) →
  wholes H lo ino (pre ++ [(k, f)]) kend.
Proof.
  intros Hw Hk Hke Hlo Hb Hf. induction pre as [|[k0 i0] rest IH]; [by split_and!; eauto|].
  destruct Hw as (Hk0 & Hhd & Hrest). cbn [app wholes]. split; [done|]. split; [|by apply IH].
  destruct rest as [|[k1 i1] rest]; exact Hhd.
Qed.

(** Every directory shows the snapshot of the present state and ends with the
    segment [f], which starts at [k]. *)
Definition covered (H : list Command) (k : Z) (f : nat) (s : fs) : Prop :=
  live H (length H) (length H) k f s ∧ ∀ d, prefix_dirs s d → newest_snap d (zlength H).

Lemma covered_faults H k f s r : covered H k f s → covered H k f (s <| faults := r |>).
Proof. intros [Hs Hn]. split; [by apply live_faults|done]. Qed.

Lemma rotate_spec H k y :
  hist_ok H → no_io_errors (disk y) → wal_dir (log y) = wd → wal_failed (log y) = false →
  live H (length H) (length H) k (wal_f (log y)) (disk y) → clean H k (wal_f (log y)) (disk y) →
  k ≤ zlength H → newest_snap (names (disk y)) (zlength H) →
  wp (rotate (u64 (zlength H + 1))) (λ o y',
    match o with
    | Ok _ => no_io_errors (disk y') ∧ wal_dir (log y') = wd ∧ wal_failed (log y') = false ∧
        wal_size (log y') = 0 ∧ clean H (zlength H + 1) (wal_f (log y')) (disk y') ∧
        covered H (zlength H + 1) (wal_f (log y')) (disk y') ∧
        ∃ chain, steady H (length H) (length H) (chain ++ [(zlength H + 1, wal_f (log y'))]) (disk y')
    | Crash => safe H (length H) (disk y')
    | _ => False
    end) y.
Proof.
  intros (_ & Hlen & _) Hq Hdir Hfail Hs Hcl Hk Hnew. unfold rotate. apply wp_bind, wp_gets. cbn [wpk].
  rewrite Hfail, Hdir, u64_small by (unfold is_u64; lia). apply wp_bind, wp_zoom.
  eapply wp_mono; [apply (createWAL_spec H (length H)); [done|done|]|].
  { destruct Hs as [Hso Hs]. split; [done|]. intros d Hd. destruct (Hs d Hd) as [pre Hv].
    exists (pre ++ [(k, wal_f (log y))]). split; [done|]. destruct Hv as (_ & _ & _ & Hok & _).
    apply chain_ok_snoc in Hok as (Hw & Hk1 & _).
    eapply wholes_snoc; [done|done|lia|lia|reflexivity|]. unfold clean in Hcl.
    replace (Z.to_nat (Z.of_nat (length H) + 1 - 1)) with (length H) by lia. done. }
  intros o s' Ho. destruct o as [w|e| |]; cbn [wpk]; [|done..].
  destruct Ho as (Hq' & Hw & Hi & Hp & Hsn & chain & Hs').
  apply wp_bind, wp_modify. cbn [wpk]. apply wp_zoom. cbn [disk set set_disk set_log log].
  apply wp_quiet; [done| |intros; by eapply safe_faults, steady_safe].
  intros r Hr. unfold wp. cbn [fst snd log disk set set_disk set_log wal_f wal_size wal_dir wal_failed].
  split; [done|]. split; [done|]. split; [done|]. split; [done|]. split; [|split].
  - unfold clean. cbn. rewrite Hi. unfold seg, slice.
    replace (length H - Z.to_nat (zlength H + 1 - 1))%nat with 0%nat by lia. done.
  - split; [by eapply live_faults, steady_live|]. intros d Hd.
    apply prefix_dirs_synced in Hd as ->; [|done]. eapply newest_snap_ext; [|exact Hnew].
    intros q Hqu. rewrite <-Hsn. cbn. unfold names. by rewrite Hp.
  - exists chain. by apply steady_faults.
Qed.

(** ** Deleting what the snapshot covers *)

Lemma view_remove_head H k0 i0 rest ino d :
  view H (length H) (length H) ((k0, i0) :: rest) ino d → rest ≠ [] → newest_snap d (zlength H) →
  view H (length H) (length H) rest ino (delete (segmentPath wd k0) d).
Proof.
  intros (Hnm & Hsn & [Hso Hch] & Hok & Hn & _) Hne Hnew.
  assert (∀ q, delete (segmentPath wd k0) d !! snapshotPath sd q = d !! snapshotPath sd q) as Hd.
  { intros q. apply lookup_delete_ne. intros Heq. symmetry in Heq. revert Heq. by apply seg_path_ne. }
  assert (is_u64 k0) as Hk0 by (by apply (Hch k0 i0); left).
  split; [|split; [|split; [|split; [|split; [done|]]]]].
  - intros p i [_ Hp]%lookup_delete_Some. by eapply Hnm.
  - intros q i Hq Hi. rewrite Hd in Hi. by apply Hsn.
  - apply StronglySorted_inv in Hso as [Hso Hlt]. rewrite Forall_forall in Hlt. split; [done|].
    intros k i. rewrite lookup_delete_Some. split.
    + intros Hin. assert (k0 < k) by (by apply (Hlt (k, i))). destruct (proj1 (Hch k i)) as [Hk Hi]; [by right|].
      split; [done|]. split; [|done]. intros Heq. injection Heq as Heq.
      apply app_inv_tail, fmt_020d_inj in Heq; [lia|done..].
    + intros (Hk & Hpne & Hi). assert ((k, i) ∈ (k0, i0) :: rest) as Hin by (by apply Hch).
      apply elem_of_cons in Hin as [[= -> ->]|Hin]; [by destruct Hpne|done].
  - by destruct Hok as (_ & _ & Hrest).
  - exists (zlength H). split; [by eapply newest_snap_ext; [|exact Hnew]|].
    destruct rest as [|[k1 i1] rest]; [done|]. destruct Hok as (_ & (_ & Hk1 & _) & _). cbn. lia.
Qed.

(** Deleting an older snapshot. *)
Lemma view_remove_snap H chain ino d q :
  view H (length H) (length H) chain ino d → is_u64 q → q ≠ zlength H → is_u64 (zlength H) →
  newest_snap d (zlength H) →
  view H (length H) (length H) chain ino (delete (snapshotPath sd q) d) ∧
  newest_snap (delete (snapshotPath sd q) d) (zlength H).
Proof.
  intros (Hnm & Hsn & [Hso Hch] & Hok & Hn & q0 & Hq0 & Hj) Hq Hne Hu Hnew.
  rewrite <-(newest_snap_fun _ _ _ Hnew Hq0) in Hj.
  assert (newest_snap (delete (snapshotPath sd q) d) (zlength H)) as Hnew'.
  { destruct Hnew as [Hmax Hin]. split; [intros q' i Hq' [_ Hi]%lookup_delete_Some; by eapply Hmax|].
    destruct Hin as [[Hin _]|[Hz Hnone]].
    - left. split; [|done]. rewrite lookup_delete_ne; [done|]. by intros Heq%snap_path_inj.
    - right. split; [done|]. intros q' Hq'. apply lookup_delete_None. auto. }
  split; [|done]. split; [|split; [|split; [|split; [done|split; [done|]]]]]; [| | |by eauto].
  - intros p i [_ Hp]%lookup_delete_Some. by eapply Hnm.
  - intros q' i Hq' [_ Hi]%lookup_delete_Some. by apply Hsn.
  - split; [done|]. intros k i. rewrite lookup_delete_ne by by apply seg_path_ne. apply Hch.
Qed.

Lemma covered_remove H k f s p pre :
  covered H k f s → view H (length H) (length H) (pre ++ [(k, f)]) (inodes s) (delete p (names s)) →
  newest_snap (delete p (names s)) (zlength H) →
  covered H k f (journal (DRemove p) s).
Proof.
  intros [[Hso Hs] Hnew] Hv Hnew'. split; [split; [by apply sound_remove|]|];
    intros d [Hd| ->]%prefix_dirs_journal; eauto.
Qed.

Lemma Remove_spec p s (Q : outcome () → fs → Prop) :
  no_io_errors s → is_Some (names s !! p) →
  (∀ r, no_io_errors (s <| faults := r |>) → Q (Ok ()) (journal (DRemove p) (s <| faults := r |>))) →
  (∀ r, Q Crash (s <| faults := r |>)) → wp (Remove p) Q s.
Proof.
  intros Hq [i Hi] Hok Hcr. apply wp_quiet; [done| |intros; apply Hcr].
  intros r Hr. unfold wp. change (names (s <| faults := r |>) !! p) with (names s !! p). rewrite Hi. by apply Hok.
Qed.

(** The store with another disk. *)
Definition with_disk (x : DurableStore) (s : fs) : DurableStore := x <| wl := (wl x) <| disk := s |> |>.

Lemma wp_on_disk {A} (m : M fs A) (Q : outcome A → DurableStore → Prop) x :
  wp m (λ o s, Q o (with_disk x s)) (disk (wl x)) → wp (on_disk m) Q x.
Proof. intros Hm. apply wp_zoom, wp_zoom. exact Hm. Qed.

(** The outcome of the deletions. *)
Definition tidied (H : list Command) (k : Z) (f : nat) (x : DurableStore) (o : outcome ())
    (x' : DurableStore) : Prop :=
  ∃ s', x' = with_disk x s' ∧
  match o with
  | Ok _ => no_io_errors s' ∧ covered H k f s' ∧ inodes s' = inodes (disk (wl x))
  | Crash => safe H (length H) s'
  | _ => False
  end.

Lemma tidied_trans H k f x s o x' :
  inodes s = inodes (disk (wl x)) → tidied H k f (with_disk x s) o x' → tidied H k f x o x'.
Proof.
  intros Hin (s' & -> & Ho). exists s'. split; [done|]. destruct o; try done. by rewrite <-Hin.
Qed.

Lemma remove_segments_spec H k f pre x :
  no_io_errors (disk (wl x)) → covered H k f (disk (wl x)) →
  view H (length H) (length H) (pre ++ [(k, f)]) (inodes (disk (wl x))) (names (disk (wl x))) →
  wp (remove_segments (seg_of <$> (pre ++ [(k, f)]))) (tidied H k f x) x.
Proof.
  intros Hq Hc Hv. assert (remove_segments (seg_of <$> (pre ++ [(k, f)])) =
    for_each (seg_of <$> pre) (λ sg, on_disk (Remove (seg_path sg)))) as ->.
  { unfold remove_segments. destruct (seg_of <$> (pre ++ [(k, f)])) as [|a l] eqn:E; [by destruct pre|].
    rewrite <-E, fmap_app, take_app_length'; [done|]. rewrite !length_app, !length_fmap. cbn. lia. }
  revert x Hq Hc Hv. induction pre as [|[k0 i0] pre IH]; intros x Hq Hc Hv; cbn [fmap list_fmap for_each].
  { apply wp_ret. exists (disk (wl x)). split; [by destruct x as [? []]|done]. }
  pose proof (proj2 Hc _ (prefix_dirs_names _)) as Hnew.
  apply wp_bind, wp_on_disk, Remove_spec; [done| | |].
  - destruct Hv as (_ & _ & [_ Hch] & _). exists i0. cbn. apply Hch. left.
  - intros r Hr. cbn [wpk]. apply view_remove_head in Hv; [|by destruct pre|done].
    eapply wp_mono; [apply IH|].
    + done.
    + eapply (covered_remove H k f _ _ pre); [by apply covered_faults|done|].
      eapply newest_snap_ext; [|exact Hnew]. intros q Hqu. apply lookup_delete_ne.
      intros Heq. symmetry in Heq. revert Heq. by apply seg_path_ne.
    + cbn [disk wl with_disk set set_wl set_disk]. rewrite names_journal. exact Hv.
    + intros o x'. by apply tidied_trans.
  - intros r. cbn [wpk]. exists ((disk (wl x)) <| faults := r |>). split; [done|].
    eapply safe_faults, live_safe. by destruct Hc.
Qed.

(** Deleting snapshots, not the newest one. *)
Lemma remove_snapshots_spec H k f qs s :
  no_io_errors s → covered H k f s → is_u64 (zlength H) → NoDup qs →
  (∀ q, q ∈ qs → is_u64 q ∧ q ≠ zlength H ∧ is_Some (names s !! snapshotPath sd q)) →
  wp (for_each ((λ q, fmt_020d q ++ snapExt) <$> qs) (λ n, Remove (sd, n))) (λ o s',
    match o with
    | Ok _ => no_io_errors s' ∧ covered H k f s' ∧ inodes s' = inodes s
    | Crash => safe H (length H) s'
    | _ => False
    end) s.
Proof.
  intros Hq Hc Hu Hnd. revert s Hq Hc. induction Hnd as [|q qs Hq0 Hnd IH]; intros s Hq Hc Hqs; cbn [fmap list_fmap for_each].
  { by apply wp_ret. }
  destruct (Hqs q) as (Hqu & Hne & Hin); [by left|].
  apply wp_bind, Remove_spec; [done|done| |].
  - intros r Hr. cbn [wpk]. change (sd, fmt_020d q ++ snapExt) with (snapshotPath sd q).
    pose proof Hc as [[_ Hs] Hnew]. destruct (Hs _ (prefix_dirs_names s)) as [pre Hv].
    destruct (view_remove_snap H _ _ _ q Hv Hqu Hne Hu (Hnew _ (prefix_dirs_names s))) as [Hv' Hnew'].
    eapply wp_mono; [apply IH|].
    + done.
    + by eapply covered_remove; [apply covered_faults| |].
    + intros q' Hq'. destruct (Hqs q') as (? & ? & Hin'); [by right|]. split; [done|]. split; [done|].
      rewrite names_journal. cbn [apply_op]. rewrite lookup_delete_ne; [done|].
      intros Heq%snap_path_inj; [by subst|done..].
    + done.
  - intros r. cbn [wpk]. eapply safe_faults, live_safe. by destruct Hc.
Qed.

Lemma tmp_not_snap a : HasSuffix (a ++ snapTmp) snapExt = false.
Proof.
  apply bool_decide_eq_false. intros Hs. assert (str "snap" `suffix_of` a ++ snapTmp) as Hs'.
  { etrans; [|exact Hs]. by exists (str "."). }
  apply suffix_short in Hs'; [|by vm_compute; lia]. revert Hs'.
  apply (bool_decide_eq_false_1 (str "snap" `suffix_of` snapTmp)). by vm_compute.
Qed.

(** The snapshots of a directory, as [pruneSnapshots] lists them. *)
Lemma snapshot_files d :
  names_ok d → ∃ qs, NoDup qs ∧ (∀ q, q ∈ qs ↔ is_u64 q ∧ is_Some (d !! snapshotPath sd q)) ∧
    filter (λ n, HasSuffix n snapExt) (dir_list d sd) = (λ q, fmt_020d q ++ snapExt) <$> qs.
Proof.
  intros Hnm. set (l := filter _ _).
  destruct (named_list (λ q, is_u64 q ∧ is_Some (d !! snapshotPath sd q)) snapExt l) as (qs & Hqs & Hl).
  { intros name [Hsuf Hin]%list_elem_of_filter. apply dir_list_elem in Hin as [i Hi].
    destruct (Hnm _ _ Hi) as [_ Hs]. destruct (Hs eq_refl) as (q & Hq & [Hp|Hp]); injection Hp as ->.
    - exists q. split; [|done]. split; [done|by exists i].
    - change (str ".tmp") with snapTmp in Hsuf. by rewrite tmp_not_snap in Hsuf. }
  exists qs. assert (NoDup l) as Hnd by apply NoDup_filter, dir_list_NoDup. rewrite Hl in Hnd.
  split; [by apply NoDup_fmap_1 in Hnd|]. split; [|done]. rewrite Forall_forall in Hqs.
  intros q. split; [by apply Hqs|]. intros [Hq Hin].
  assert (fmt_020d q ++ snapExt ∈ l) as Hin'.
  { apply list_elem_of_filter. split; [by rewrite HasSuffix_app|by apply dir_list_elem]. }
  rewrite Hl in Hin'. apply list_elem_of_fmap in Hin' as (q' & Heq & Hq'). apply app_inv_tail in Heq.
  apply fmt_020d_inj in Heq as ->; [done|done|by apply Hqs].
Qed.

(** Sorting the names is sorting the numbers. *)
Lemma sort_snapshot_names qs :
  Forall is_u64 qs →
  sort_strings ((λ q, fmt_020d q ++ snapExt) <$> qs) = (λ q, fmt_020d q ++ snapExt) <$> merge_sort Z.le qs.
Proof.
  intros Hqs. assert (∀ q, q ∈ merge_sort Z.le qs → is_u64 q) as Hm.
  { intros q Hq. rewrite merge_sort_Permutation in Hq. rewrite Forall_forall in Hqs. auto. }
  assert (∀ a b c, bytes_le a b → bytes_le b c → bytes_le a c) as Htr.
  { unfold bytes_le. intros a. induction a as [|x a IH]; intros [|y b] [|z c]; simpl; try done.
    repeat case_match; zify_bool; try done; try lia. intros. by eapply IH. }
  assert (∀ a b, bytes_le a b ∨ bytes_le b a) as Htot.
  { unfold bytes_le. intros a. induction a as [|x a IH]; intros [|y b]; simpl; auto.
    repeat case_match; zify_bool; auto; lia. }
  apply (StronglySorted_unique_strong bytes_le).
  - intros x y Hx Hy Hxy Hyx. unfold sort_strings in Hx. rewrite merge_sort_Permutation in Hx.
    apply list_elem_of_fmap in Hx as (a & -> & Ha), Hy as (b & -> & Hb).
    rewrite Forall_forall in Hqs. apply Hqs in Ha. apply Hm in Hb.
    apply bytes_le_fmt_020d in Hxy; [|done..]. apply bytes_le_fmt_020d in Hyx; [|done..].
    by replace a with b by lia.
  - apply StronglySorted_merge_sort; [exact Htr|exact Htot].
  - assert (StronglySorted Z.le (merge_sort Z.le qs)) as Hs by (apply StronglySorted_merge_sort; apply _).
    revert Hm. induction Hs as [|x l Hs IH Hx]; intros Hm; cbn; [constructor|].
    constructor; [apply IH; intros; apply Hm; by right|]. apply Forall_fmap, Forall_forall. intros y Hy.
    rewrite Forall_forall in Hx. apply bytes_le_fmt_020d; [apply Hm; by left|apply Hm; by right|by apply Hx].
  - unfold sort_strings. rewrite !merge_sort_Permutation. done.
Qed.

Lemma pruneSnapshots_spec H k f s :
  no_io_errors s → covered H k f s → is_u64 (zlength H) →
  wp (pruneSnapshots sd 2) (λ o s',
    match o with
    | Ok _ => no_io_errors s' ∧ covered H k f s' ∧ inodes s' = inodes s
    | Crash => safe H (length H) s'
    | _ => False
    end) s.
Proof.
  intros Hq Hc Hu. assert (safe H (length H) s) as Hsafe by (eapply live_safe; by destruct Hc).
  apply wp_bind, wp_quiet; [done| |intros; by apply safe_faults].
  intros r Hr. unfold wp. cbn [fst snd wpk]. change (_ <$> filter _ (elements _)) with (dir_list (names s) sd).
  pose proof Hc as [[_ Hs] Hnew]. destruct (Hs _ (prefix_dirs_names s)) as (pre & Hnm & _).
  destruct (snapshot_files _ Hnm) as (qs & Hnd & Hqs & ->). cbv zeta.
  rewrite sort_snapshot_names by (apply Forall_forall; intros q Hin; by apply Hqs).
  rewrite length_fmap, <-fmap_take. set (l := merge_sort Z.le qs).
  pose proof (merge_sort_Permutation Z.le qs) as Hp. fold l in Hp. rewrite <-Hp in Hnd.
  assert (NoDup (take (length l - 2) l)) as Hnd'.
  { pose proof Hnd as Hnd'. rewrite <-(take_drop (length l - 2) l), NoDup_app in Hnd'. by destruct Hnd'. }
  eapply wp_mono; [apply (remove_snapshots_spec H k f (take (length l - 2) l) (s <| faults := r |>));
    [done|by apply covered_faults|done|done|]|by intros []].
  intros q Hin. apply list_elem_of_lookup in Hin as [j Hj]. apply lookup_take_Some in Hj as [Hj Hlt].
  assert (q ∈ qs) as Hin by (rewrite <-Hp; by eapply list_elem_of_lookup_2).
  apply Hqs in Hin as [Hqu Hin]. split; [done|]. split; [|done]. intros ->.
  pose proof (last_sorted qs) as Hl. fold l in Hl. rewrite last_lookup in Hl.
  destruct (l !! pred (length l)) as [m|] eqn:Em; [|by rewrite Hl in Hp; apply Permutation_nil_r in Hp; rewrite Hp in Hlt; simpl in Hlt; lia].
  destruct Hl as [Hm Hmax]. assert (m = zlength H) as ->.
  { assert (zlength H ≤ m). { apply Hmax, Hqs. done. } apply Hqs in Hm as [Hmu [i Hi]].
    destruct (Hnew _ (prefix_dirs_names s)) as [Hle _]. specialize (Hle m i Hmu Hi). lia. }
  pose proof (NoDup_lookup _ _ _ _ Hnd Hj Em). lia.
Qed.

(** ** The whole snapshot *)

(** A store all of whose commands are durable has a clean active segment. *)
Lemma active_clean H w s :
  active H (length H) w s →
  ∃ k, live H (length H) (length H) k (wal_f w) s ∧ clean H k (wal_f w) s ∧
    wal_size w = zlength (seg k (length H) H).
Proof.
  intros (_ & _ & k & z & Hs & Hi & Hsz). exists k. split; [done|]. split; [|done].
  destruct (live_last _ _ _ _ _ _ Hs) as (_ & _ & _ & (_ & _ & t & z' & _ & Hi' & Hz)).
  rewrite Hi in Hi'. injection Hi' as _ <-. rewrite Nat.min_id in Hz.
  destruct Hs as [[[_ _ Hsy] _] _]. specialize (Hsy _ _ Hi). cbn in Hsy. unfold clean. rewrite Hi. do 2 f_equal. lia.
Qed.

Lemma seg_nonempty k H : 0 < zlength (seg k (length H) H) → k ≤ zlength H.
Proof.
  intros Hl. destruct (decide (k ≤ zlength H)); [done|]. unfold seg, slice in Hl.
  replace (length H - Z.to_nat (k - 1))%nat with 0%nat in Hl by lia. rewrite take_0 in Hl. simpl in Hl. lia.
Qed.

Context {rt : GoRuntime}.

Lemma snapshot_spec H x :
  running H (length H) x → unsnapped (zlength H) (disk (wl x)) → 0 < wal_size (log (wl x)) →
  wp snapshot (λ o x',
    match o with
    | Ok _ => running H (length H) x'
    | Crash => safe H (length H) (disk (wl x'))
    | _ => False
    end) x.
Proof.
  intros [HH _ Hmem Hseq Hdir Hthr Hq Hact] Hun Hsz. pose proof Hact as (Hwd & Hfail & _).
  destruct (active_clean _ _ _ Hact) as (k & Hs & Hcl & Hsize). rewrite Hsize in Hsz.
  apply seg_nonempty in Hsz. assert (is_u64 (zlength H)) as Hu by (destruct HH as (_ & ? & _); unfold is_u64; lia).
  unfold snapshot. apply wp_bind, wp_get. cbn [wpk]. cbv zeta. apply wp_bind, wp_modify. cbn [wpk].
  rewrite Hmem, Hseq, Hdir, Hwd. apply wp_bind, wp_on_disk.
  eapply wp_mono; [apply (writeSnapshot_spec H k (wal_f (log (wl x)))); try done; apply map_order_perm|].
  intros o s1 Ho. destruct o as [[]|e| |]; cbn [wpk]; [|done..].
  destruct Ho as (Hq1 & Hs1 & Hcl1 & Hnew & Hp1). apply wp_bind, wp_zoom.
  eapply wp_mono; [apply (rotate_spec H k); done|].
  intros o y Ho. destruct o as [[]|e| |]; cbn [wpk]; [|done..].
  destruct Ho as (Hq2 & Hd2 & Hf2 & Hz2 & Hcl2 & Hcov & chain & Hst).
  pose proof (steady_names _ _ _ _ _ Hst) as Hv. pose proof Hv as (Hnm & _ & Hch & _).
  apply wp_bind, wp_on_disk. eapply wp_mono; [by apply listSegments_view|].
  intros o s3 [[r3 ->] Ho]. apply (covered_faults _ _ _ _ r3) in Hcov.
  destruct o as [segs|e| |]; cbn [wpk]; [|done|done|eapply live_safe; by destruct Hcov].
  destruct Ho as [Hq3 ->]. apply wp_bind.
  eapply wp_mono; [by apply (remove_segments_spec H _ _ chain)|].
  intros o x4 (s4 & -> & Ho). destruct o as [[]|e| |]; cbn [wpk]; [|done..].
  destruct Ho as (Hq4 & Hcov4 & Hi4). apply wp_on_disk.
  eapply wp_mono; [by apply (pruneSnapshots_spec H _ _ _ Hq4 Hcov4)|].
  intros o s5 Ho. destruct o as [[]|e| |]; [|done..]. destruct Ho as (Hq5 & [Hs5 _] & Hi5).
  split; try done. split; [done|]. split; [done|]. exists (zlength H + 1), (length (seg (zlength H + 1) (length H) H)).
  split; [done|]. split.
  - cbn [wl with_disk set set_wl disk set_disk log wal_f]. rewrite Hi5, Hi4. exact Hcl2.
  - change (wal_size (log y) = zlength (seg (zlength H + 1) (length H) H)). rewrite Hz2. unfold seg, slice.
    replace (length H - Z.to_nat (zlength H + 1 - 1))%nat with 0%nat by lia. done.
Qed.

Lemma maybeSnapshot_spec H x :
  running H (length H) x → unsnapped (zlength H) (disk (wl x)) →
  wp maybeSnapshot (λ o x',
    match o with
    | Ok _ => running H (length H) x'
    | Crash => safe H (length H) (disk (wl x'))
    | _ => False
    end) x.
Proof.
  intros Hr Hun. unfold maybeSnapshot. apply wp_bind, wp_get. cbn [wpk].
  destruct (_ <? _) eqn:E; zify_bool; [by apply wp_ret|].
  apply wp_bind, wp_attempt. pose proof (run_threshold _ _ _ Hr).
  eapply wp_mono; [apply (snapshot_spec H); [done|done|lia]|].
  intros o x' Ho. destruct o as [[]|e| |]; cbn [wpk]; [by apply wp_ret|done..].
Qed.

(** Any I/O error to come is one of the write or the fsync of the next record. *)
Definition fails_early (x : DurableStore) : Prop := Forall (λ f, ∀ k, f ≠ FErr k) (drop 2 (faults (disk (wl x)))).

(** The write path: on success the command is durable; when its record cannot be
    written, nothing changes in memory and the log refuses what follows. *)
Lemma logAndApply_any H lo c x :
  serving H lo x → fails_early x → hist_ok (H ++ [c]) →
  wp (logAndApply c) (λ o x',
    match o with
    | Ok _ => running (H ++ [c]) (length (H ++ [c])) x'
    | Err _ => ¬ no_io_errors (disk (wl x)) ∧ mem x' = mem x ∧ seq x' = seq x ∧ wal_failed (log (wl x')) = true ∧
        safe (H ++ [c]) lo (disk (wl x'))
    | Crash => ∃ lo', (lo ≤ lo' ≤ length (H ++ [c]))%nat ∧ safe (H ++ [c]) lo' (disk (wl x'))
    | Panic => False
    end) x.
Proof.
  intros [_ Hlo Hmem Hseq Hdir Hthr _ Hact] Hq HH. assert (length (H ++ [c]) = S (length H)) as Hl.
  { rewrite length_app. simpl. lia. }
  assert (active H lo (log (wl x)) (disk (wl x))) as Hact' by (by eapply active_any; [|exact Hact]).
  change (mem x = state_of H) in Hmem. change (seq x = zlength H) in Hseq.
  unfold logAndApply. apply wp_bind, wp_get. cbn [wpk]. rewrite Hseq.
  apply wp_bind, wp_wrap, wp_zoom. eapply wp_mono; [by apply (Append_any H lo)|].
  intros o y Ho. destruct o as [[]|e| |]; cbn [wpk]; [|by destruct Ho as (? & ? & ?)|done|exists lo; split; [lia|done]].
  destruct Ho as (Hq1 & Hact1 & Hun). apply wp_bind, wp_modify. cbn [wpk].
  apply wp_bind, wp_get. cbn [wpk]. apply wp_bind, wp_lift.
  assert (∃ b, applyCommand (state_of H) c = Ok (b, apply1 (state_of H) c)) as [b Hb].
  { destruct HH as (Hc & _). apply Forall_app in Hc as [_ [[[[Hop|Hop] _] _] _]%Forall_cons];
      unfold applyCommand, apply1; rewrite Hop; cbn; eauto. }
  cbn [mem set set_seq set_wl]. rewrite Hmem, Hb. cbn [wpk]. apply wp_bind, wp_modify. cbn [wpk].
  eapply wp_mono; [apply (maybeSnapshot_spec (H ++ [c])); [|exact Hun]|].
  - split; try done; cbn.
    + unfold state_of. by rewrite foldl_app.
    + rewrite Hseq, Hl, u64_small; [lia|]. destruct HH as (_ & Hlen & _). unfold is_u64. lia.
    + unfold no_io_errors. by rewrite Hq1.
  - intros o x' Ho. destruct o; try done. exists (length (H ++ [c])). split; [lia|done].
Qed.

Lemma logAndApply_spec H lo c x :
  running H lo x → hist_ok (H ++ [c]) →
  wp (logAndApply c) (λ o x',
    match o with
    | Ok _ => running (H ++ [c]) (length (H ++ [c])) x'
    | Crash => ∃ lo', (lo ≤ lo' ≤ length (H ++ [c]))%nat ∧ safe (H ++ [c]) lo' (disk (wl x'))
    | _ => False
    end) x.
Proof.
  intros Hr HH. pose proof (run_quiet _ _ _ Hr) as Hq. eapply wp_mono.
  { apply (logAndApply_any H lo); [by apply running_serving| |done]. by apply Forall_drop. }
  intros o x' Ho. destruct o as [[]|e| |]; [done| |done|done]. by destruct Ho as [? _].
Qed.
End store_snap.
