(* ===== verification/StoreRefine.v ===== *)
(** * The durable store is an atomic map

    Runs of the store: operations, crashes in the middle of them, and boots.
    Whatever the crashes, a client of the store sees a map whose updates are
    atomic and durable: an acknowledged update is never lost, one cut by a crash
    happened or did not, and what was read once stays. *)

From stdpp Require Import prelude gmap strings sorting.
From coqutil Require Import Byte.
From S2P Require Import Prelude GoRuntime GoBytes GoStrings GoFS Record MemStore Command Wal Snapshot Store StoreLaws StoreRun StoreSnap.
Open Scope Z_scope.

(** ** Histories within bounds *)

(** Bytes of the commands of a history. *)
Fixpoint written (H : list Command) : Z :=
  match H with [] => 0 | c :: H' => zlength (enc c) + written H' end.

Lemma length_enc c : zlength (enc c) = 9 + zlength (Key c) + zlength (Value c).
Proof.
  unfold enc, encodeCommand, AppendUint32. rewrite !length_app, !length_le4. simpl. lia.
Qed.

Lemma written_app A B : written (A ++ B) = written A + written B.
Proof. induction A as [|c A IH]; simpl; [done|]. rewrite IH. lia. Qed.

Lemma written_length H : 9 * zlength H ≤ written H.
Proof. induction H as [|c H IH]; [done|]. cbn [written length]. rewrite length_enc. lia. Qed.

(** Bytes of the entries of a snapshot. *)
Fixpoint dumped (l : list (gostring * bytes)) : Z :=
  match l with [] => 0 | kv :: l' => 8 + zlength kv.1 + zlength kv.2 + dumped l' end.

#[export] Instance dumped_proper : Proper (Permutation ==> eq) dumped.
Proof. intros l l' Hp. induction Hp; simpl; lia. Qed.

Lemma length_dump l : zlength (concat (snapshot_entry <$> l)) = dumped l.
Proof.
  induction l as [|kv l IH]; [done|]. cbn [fmap list_fmap concat dumped]. rewrite length_app.
  assert (length (snapshot_entry kv) = 8 + length kv.1 + length kv.2)%nat as Hl.
  { unfold snapshot_entry, AppendUint32. rewrite !length_app, !length_le4. cbn [length]. lia. }
  lia.
Qed.

Lemma dumped_length l : 8 * zlength l ≤ dumped l.
Proof. induction l as [|kv l IH]; [done|]. cbn [dumped length]. lia. Qed.

Lemma dumped_delete (m : MemStore) k : dumped (map_to_list (delete k m)) ≤ dumped (map_to_list m).
Proof.
  destruct (m !! k) as [v|] eqn:E; [|by rewrite delete_id].
  rewrite <-(map_to_list_delete m k v E). cbn [dumped]. lia.
Qed.

Lemma dumped_insert (m : MemStore) k v :
  dumped (map_to_list (<[k := v]> m)) ≤ 8 + zlength k + zlength v + dumped (map_to_list m).
Proof.
  rewrite <-insert_delete_eq, map_to_list_insert by apply lookup_delete_eq. cbn [dumped fst snd].
  pose proof (dumped_delete m k). lia.
Qed.

Lemma dumped_state H : dumped (map_to_list (state_of H)) ≤ written H.
Proof.
  induction H as [|c H IH] using rev_ind; [by vm_compute|].
  unfold state_of. rewrite foldl_app, written_app. cbn [foldl written]. fold (state_of H).
  rewrite length_enc. unfold apply1. case_bool_decide; unfold Put, Delete; cbn [snd].
  - pose proof (dumped_insert (state_of H) (Key c) (Value c)). lia.
  - pose proof (dumped_delete (state_of H) (Key c)). lia.
Qed.

Lemma state_pairs H k v : Forall cmd_ok H → state_of H !! k = Some v → pair_wf (k, v).
Proof.
  induction H as [|c H IH] using rev_ind; [done|]. intros [HH Hc]%Forall_app.
  apply Forall_cons in Hc as [[(_ & Hk & Hv) _] _]. unfold state_of. rewrite foldl_app. cbn [foldl].
  fold (state_of H). unfold apply1, Put, Delete. case_bool_decide; cbn [snd].
  - rewrite lookup_insert_Some. intros [[<- <-]|[_ ?]]; [done|by apply IH].
  - rewrite lookup_delete_Some. intros [_ ?]. by apply IH.
Qed.

Lemma written_take n H : written (take n H) ≤ written H.
Proof.
  revert n. induction H as [|c H IH]; intros [|n]; cbn [take written]; try lia.
  - pose proof (written_length (c :: H)). cbn [written] in *. lia.
  - specialize (IH n). lia.
Qed.

(** Bounded commands and fewer than 2^63 bytes of them: the sequence numbers
    and the snapshots stay in range. *)
Lemma hist_ok_intro H : Forall cmd_ok H → written H < 2 ^ 63 → hist_ok H.
Proof.
  intros Hc Hw. pose proof (written_length H). split; [done|]. split; [lia|]. intros n visit Hr.
  pose proof (dumped_state (take n H)) as Hd. pose proof (written_take n H).
  unfold is_range in Hr. rewrite <-Hr in Hd. pose proof (dumped_length visit).
  split; [|split; [lia|rewrite length_dump; lia]]. apply Forall_forall. intros [k v] Hin.
  rewrite Hr in Hin. apply elem_of_map_to_list in Hin. eapply state_pairs; [|done]. by apply Forall_take.
Qed.

(** ** Runs *)

(** Finite runs of a labelled step relation. *)
Inductive runs {S E} (step : S → E → S → Prop) : S → list E → S → Prop :=
  | runs_nil s : runs step s [] s
  | runs_snoc s es s' e s'' : runs step s es s' → step s' e s'' → runs step s (es ++ [e]) s''.

(** What a client of the store sees.  A [Cut] operation was interrupted by the
    crash of the machine. *)
Inductive event :=
  | EPut (k : gostring) (v : bytes)
  | EPutCut (k : gostring) (v : bytes)
  | EDelete (k : gostring) (existed : bool)
  | EDeleteCut (k : gostring)
  | EGet (k : gostring) (v : bytes) (found : bool)
  | EStop
  | EBoot
  | EBootCut.

(** The store while the process runs, and its disk while it does not. *)
Inductive sys := Up (x : DurableStore) | Down (s : fs).

(** The machine stops in [s]; the disk works again without errors. *)
Definition falls (s s' : fs) : Prop := crash s s' ∧ no_io_errors s'.

(** The commands an event may have executed. *)
Definition commands_of (e : event) : list Command :=
  match e with
  | EPut k v | EPutCut k v => [mkCommand OpPut k v]
  | EDelete k _ | EDeleteCut k => [mkCommand OpDelete k []]
  | _ => []
  end.

(** The specification: a map. *)
Inductive map_step : MemStore → event → MemStore → Prop :=
  | map_put m k v : map_step m (EPut k v) (<[k := v]> m)
  | map_put_lost m k v : map_step m (EPutCut k v) m
  | map_put_done m k v : map_step m (EPutCut k v) (<[k := v]> m)
  | map_delete m k : map_step m (EDelete k (bool_decide (is_Some (m !! k)))) (delete k m)
  | map_delete_lost m k : map_step m (EDeleteCut k) m
  | map_delete_done m k : map_step m (EDeleteCut k) (delete k m)
  | map_get m k : map_step m (EGet k (default [] (m !! k)) (bool_decide (is_Some (m !! k)))) m
  | map_stop m : map_step m EStop m
  | map_boot m : map_step m EBoot m
  | map_boot_cut m : map_step m EBootCut m.

Section refine.
Context {dirs : StoreDirs} {rt : GoRuntime}.

Inductive step : sys → event → sys → Prop :=
  | step_put x k v x' : StorePut k v x = (Ok (), x') → step (Up x) (EPut k v) (Up x')
  | step_put_cut x k v x' s :
      StorePut k v x = (Crash, x') → falls (disk (wl x')) s → step (Up x) (EPutCut k v) (Down s)
  | step_delete x k b x' : StoreDelete k x = (Ok b, x') → step (Up x) (EDelete k b) (Up x')
  | step_delete_cut x k x' s :
      StoreDelete k x = (Crash, x') → falls (disk (wl x')) s → step (Up x) (EDeleteCut k) (Down s)
  | step_get x k v b : StoreGet k x = (v, b) → step (Up x) (EGet k v b) (Up x)
  | step_stop x s : falls (disk (wl x)) s → step (Up x) EStop (Down s)
  | step_boot thr s x s' : Open wd sd thr s = (Ok x, s') → step (Down s) EBoot (Up x)
  | step_boot_cut thr s s' s'' :
      Open wd sd thr s = (Crash, s') → falls s' s'' → step (Down s) EBootCut (Down s'').

(** ** The simulation *)

Definition holds (z : sys) (H : list Command) : Prop :=
  match z with
  | Up x => running H (length H) x
  | Down s => resting H s
  end.

(** A crash in the middle of one command. *)
Lemma cut_resting H c s s' :
  hist_ok (H ++ [c]) → (∃ lo, (length H ≤ lo ≤ length (H ++ [c]))%nat ∧ safe (H ++ [c]) lo s) → falls s s' →
  resting H s' ∨ resting (H ++ [c]) s'.
Proof.
  intros HH (lo & Hlo & Hs) [Hc Hq]. destruct (safe_resting _ _ _ _ HH Hs Hc Hq) as (n & Hn & Hr).
  rewrite length_app in Hn, Hlo. cbn in Hn, Hlo.
  destruct (decide (n = length H)) as [->|Hne]; [left|right].
  - by rewrite take_app_length in Hr.
  - rewrite take_ge in Hr; [done|]. rewrite length_app. cbn. lia.
Qed.

Lemma running_safe H x : running H (length H) x → safe H (length H) (disk (wl x)).
Proof. intros Hr. eapply active_safe, (run_log _ _ _ Hr). Qed.

Lemma safe_falls H s s' : hist_ok H → safe H (length H) s → falls s s' → resting H s'.
Proof.
  intros HH Hs [Hc Hq]. destruct (safe_resting _ _ _ _ HH Hs Hc Hq) as (n & Hn & Hr).
  by rewrite take_ge in Hr by lia.
Qed.

Lemma StoreDelete_spec H k x :
  running H (length H) x → hist_ok (H ++ [mkCommand OpDelete k []]) →
  wp (StoreDelete k) (λ o x',
    match o with
    | Ok b => b = bool_decide (is_Some (state_of H !! k)) ∧
        running (if b then H ++ [mkCommand OpDelete k []] else H)
          (length (if b then H ++ [mkCommand OpDelete k []] else H)) x'
    | Crash => is_Some (state_of H !! k) ∧ ∃ lo,
        (length H ≤ lo ≤ length (H ++ [mkCommand OpDelete k []]))%nat ∧
        safe (H ++ [mkCommand OpDelete k []]) lo (disk (wl x'))
    | _ => False
    end) x.
Proof.
  intros Hr HH. unfold StoreDelete. apply wp_bind, wp_get. cbn [wpk]. rewrite (run_mem _ _ _ Hr). unfold Get.
  destruct (state_of H !! k) as [v|] eqn:E; cbn [snd negb].
  - apply wp_bind. eapply wp_mono; [by apply (logAndApply_spec H (length H))|].
    intros o x' Ho. destruct o as [[]|e| |]; cbn [wpk]; [|done|done|done].
    apply wp_ret. split; [by rewrite bool_decide_eq_true_2|done].
  - apply wp_ret. split; [|done]. rewrite bool_decide_eq_false_2; [done|]. by intros [].
Qed.

Lemma state_of_snoc H c : state_of (H ++ [c]) = apply1 (state_of H) c.
Proof. unfold state_of. by rewrite foldl_app. Qed.

(** One step of the store is one step of the map. *)
Lemma step_refines z e z' H :
  holds z H → step z e z' → hist_ok (H ++ commands_of e) →
  ∃ H', holds z' H' ∧ map_step (state_of H) e (state_of H') ∧ (H' = H ∨ H' = H ++ commands_of e).
Proof.
  intros Hz Hstep HH. destruct Hstep as [x k v x' E|x k v x' s E Hf|x k b x' E|x k x' s E Hf|x k v b E|x s Hf|thr s x s' E|thr s s' s'' E Hf];
    cbn [holds commands_of] in *.
  - exists (H ++ [mkCommand OpPut k v]). pose proof (wp_elim _ _ _ _ _ (logAndApply_spec _ _ _ _ Hz HH) E) as Hr.
    split; [done|]. split; [|by right]. rewrite state_of_snoc. apply map_put.
  - pose proof (wp_elim _ _ _ _ _ (logAndApply_spec _ _ _ _ Hz HH) E) as Hr.
    destruct (cut_resting _ _ _ _ HH Hr Hf) as [Hr'|Hr']; eexists; (split; [exact Hr'|]).
    + split; [apply map_put_lost|by left].
    + split; [|by right]. rewrite state_of_snoc. apply map_put_done.
  - destruct (wp_elim _ _ _ _ _ (StoreDelete_spec _ _ _ Hz HH) E) as [Hb Hr]. eexists. split; [exact Hr|].
    split; [|destruct b; auto]. pose proof (map_delete (state_of H) k) as Hd. rewrite <-Hb in Hd.
    destruct b; [by rewrite state_of_snoc|]. symmetry in Hb. apply bool_decide_eq_false_1, eq_None_not_Some in Hb.
    by rewrite (delete_id _ _ Hb) in Hd.
  - destruct (wp_elim _ _ _ _ _ (StoreDelete_spec _ _ _ Hz HH) E) as [_ Hr].
    destruct (cut_resting _ _ _ _ HH Hr Hf) as [Hr'|Hr']; eexists; (split; [exact Hr'|]).
    + split; [apply map_delete_lost|by left].
    + split; [|by right]. rewrite state_of_snoc. apply map_delete_done.
  - exists H. split; [done|]. split; [|by left]. unfold StoreGet, Get in E. rewrite (run_mem _ _ _ Hz) in E.
    pose proof (map_get (state_of H) k) as Hg. destruct (state_of H !! k) as [w|] eqn:Ek;
      injection E as <- <-; [rewrite bool_decide_eq_true_2 in Hg by done|rewrite bool_decide_eq_false_2 in Hg by by intros []]; exact Hg.
  - exists H. split; [|split; [apply map_stop|by left]].
    apply (safe_falls H (disk (wl x))); [by apply Hz|by apply running_safe|done].
  - exists H. split; [|split; [apply map_boot|by left]].
    by destruct (wp_elim _ _ _ _ _ (Open_resting _ thr _ Hz) E).
  - exists H. split; [|split; [apply map_boot_cut|by left]].
    pose proof (wp_elim _ _ _ _ _ (Open_resting _ thr _ Hz) E) as Hs.
    apply (safe_falls H s'); [by destruct Hz|done|done].
Qed.

Definition trace_commands (es : list event) : list Command := concat (commands_of <$> es).

(** Fewer than 2^63 bytes of commands that fit their records. *)
Definition in_bounds (es : list event) : Prop :=
  Forall cmd_ok (trace_commands es) ∧ written (trace_commands es) < 2 ^ 63.

Lemma trace_commands_snoc es e : trace_commands (es ++ [e]) = trace_commands es ++ commands_of e.
Proof. unfold trace_commands. rewrite fmap_app, concat_app. cbn. by rewrite app_nil_r. Qed.

Lemma resting_empty r : no_io_errors (empty_fs r) → resting [] (empty_fs r).
Proof.
  intros Hq. assert (∀ d, prefix_dirs (empty_fs r) d → d = ∅) as Hd.
  { intros d Hd. by apply prefix_dirs_synced in Hd. }
  split; [by apply hist_ok_intro|]. split; [done|]. split; [done|]. split; [done|]. exists [].
  split; [split; [split; [done|intros p i []%elem_of_nil|done]|]|].
  - intros d d' p p' i ->%Hd _ _ Hi. by rewrite lookup_empty in Hi.
  - intros d ->%Hd. split; [done|]. split; [done|]. split; [|split; [done|split; [done|]]].
    + split; [constructor|]. intros k i. split; [by intros []%elem_of_nil|]. by intros [_ ?].
    + exists 0. split; [|done]. split; [done|]. by right.
Qed.

Lemma runs_hold r es z :
  no_io_errors (empty_fs r) → in_bounds es → runs step (Down (empty_fs r)) es z →
  ∃ H, holds z H ∧ runs map_step NewMemStore es (state_of H) ∧ Forall cmd_ok H ∧
    written H ≤ written (trace_commands es).
Proof.
  intros Hq Hb Hr. remember (Down (empty_fs r)) as z0 eqn:E. induction Hr as [|z0 es z e z' Hr IH Hs].
  - subst. exists []. split; [by apply resting_empty|]. split; [constructor|done].
  - destruct Hb as [Hc Hw]. rewrite trace_commands_snoc, written_app in Hw. rewrite trace_commands_snoc in Hc.
    apply Forall_app in Hc as [Hc Hce]. rewrite trace_commands_snoc, written_app.
    pose proof (written_length (commands_of e)) as Hwl.
    destruct IH as (H & Hz & Hm & HcH & HwH); [split; [done|lia]|done|].
    assert (hist_ok (H ++ commands_of e)) as HH.
    { apply hist_ok_intro; [by apply Forall_app|]. rewrite written_app. lia. }
    destruct (step_refines _ _ _ _ Hz Hs HH) as (H' & Hz' & Hm' & HH'). exists H'. split; [done|].
    split; [by econstructor|]. destruct HH' as [-> | ->]; [split; [done|lia]|].
    rewrite written_app. split; [by apply Forall_app|lia].
Qed.

(** C7: The durable store refines a map with atomic, durable updates.  Start it
    on an empty disk; let it execute puts, deletes and gets, stop the machine
    between or in the middle of them (also in the middle of a recovery, of a
    snapshot or of a log rotation), lose whatever was not durable, and boot
    again, any number of times.  Every observation (the acknowledged operations
    and what gets and deletes return) is one of the map; an operation cut by a
    crash took effect entirely or not at all, and the store's memory is the map. *)
Theorem store_refines_map r es z :
  no_io_errors (empty_fs r) → in_bounds es → runs step (Down (empty_fs r)) es z →
  ∃ m, runs map_step NewMemStore es m ∧ match z with Up x => mem x = m | Down _ => True end.
Proof.
  intros Hq Hb Hr. destruct (runs_hold r es z Hq Hb Hr) as (H & Hz & Hm & _). exists (state_of H).
  split; [done|]. destruct z as [x|s]; [|done]. by apply Hz.
Qed.

Definition ok_or_cut {A} (o : outcome A) : Prop :=
  match o with Ok _ | Crash => True | _ => False end.

(** C8: The store never fails on its own: after any such run, booting succeeds
    unless it is itself cut by a crash (no disk that a crash leaves is refused as
    corrupt), and so do puts and deletes within the bounds of the log. *)
Theorem store_never_fails r es z :
  no_io_errors (empty_fs r) → in_bounds es → runs step (Down (empty_fs r)) es z →
  match z with
  | Down s => ∀ thr, ok_or_cut (Open wd sd thr s).1
  | Up x =>
      (∀ k v, in_bounds (es ++ [EPut k v]) → ok_or_cut (StorePut k v x).1) ∧
      (∀ k, in_bounds (es ++ [EDelete k true]) → ok_or_cut (StoreDelete k x).1)
  end.
Proof.
  intros Hq Hb Hr. destruct (runs_hold r es z Hq Hb Hr) as (H & Hz & _ & HcH & HwH).
  assert (∀ e, in_bounds (es ++ [e]) → hist_ok (H ++ commands_of e)) as HH.
  { intros e [Hc Hw]. rewrite trace_commands_snoc in Hc, Hw. rewrite written_app in Hw.
    apply Forall_app in Hc as [_ Hc]. apply hist_ok_intro; [by apply Forall_app|]. rewrite written_app. lia. }
  destruct z as [x|s].
  - split.
    + intros k v Hkv. specialize (HH _ Hkv). pose proof (logAndApply_spec _ _ _ _ Hz HH) as Hw. unfold wp in Hw.
      unfold StorePut. cbn [commands_of] in *. by destruct (logAndApply _ x) as [[| | |] ?].
    + intros k Hk. specialize (HH _ Hk). pose proof (StoreDelete_spec _ _ _ Hz HH) as Hw. unfold wp in Hw.
      by destruct (StoreDelete k x) as [[| | |] ?].
  - intros thr. pose proof (Open_resting _ thr _ Hz) as Hw. unfold wp in Hw. by destruct (Open wd sd thr s) as [[| | |] ?].
Qed.
End refine.
