(* ===== verification/StoreSim.v ===== *)
(** * Playing runs of the durable store

    An executable scheduler for [StoreRefine.step], and concrete runs with
    crashes in the middle of writes. *)

From stdpp Require Import prelude gmap strings sorting.
From coqutil Require Import Byte.
From S2P Require Import Prelude GoRuntime GoBytes GoStrings GoFS Record MemStore Command Wal Snapshot Store StoreLaws StoreRun StoreSnap StoreRefine.
Open Scope Z_scope.

(** One thing to do.  When the machine falls, it loses all it can ([power_cut]),
    and the next life has the given faults. *)
Inductive action :=
  | APut (k : gostring) (v : bytes) (next : list fault)
  | ADelete (k : gostring) (next : list fault)
  | AGet (k : gostring)
  | AStop (next : list fault)
  | ABoot (thr : Z) (next : list fault).

Section play.
Context {dirs : StoreDirs} {rt : GoRuntime}.

Definition act (z : sys) (a : action) : option (event * sys) :=
  match a, z with
  | APut k v next, Up x =>
      match StorePut k v x with
      | (Ok _, x') => Some (EPut k v, Up x')
      | (Crash, x') => Some (EPutCut k v, Down (power_cut next (disk (wl x'))))
      | _ => None
      end
  | ADelete k next, Up x =>
      match StoreDelete k x with
      | (Ok b, x') => Some (EDelete k b, Up x')
      | (Crash, x') => Some (EDeleteCut k, Down (power_cut next (disk (wl x'))))
      | _ => None
      end
  | AGet k, Up x => let '(v, b) := StoreGet k x in Some (EGet k v b, Up x)
  | AStop next, Up x => Some (EStop, Down (power_cut next (disk (wl x))))
  | ABoot thr next, Down s =>
      match Open wd sd thr s with
      | (Ok x, _) => Some (EBoot, Up x)
      | (Crash, s') => Some (EBootCut, Down (power_cut next s'))
      | _ => None
      end
  | _, _ => None
  end.

Definition quiet_faults (l : list fault) : bool :=
  forallb (λ f, match f with FErr _ => false | _ => true end) l.

Definition action_quiet (a : action) : bool :=
  match a with
  | APut _ _ next | ADelete _ next | AStop next | ABoot _ next => quiet_faults next
  | AGet _ => true
  end.

Fixpoint play (acts : list action) (z : sys) (es : list event) : option (list event * sys) :=
  match acts with
  | [] => Some (es, z)
  | a :: acts' => '(e, z') ← act z a; play acts' z' (es ++ [e])
  end.

Lemma quiet_falls next s : quiet_faults next = true → falls s (power_cut next s).
Proof.
  intros Hq. split; [apply crash_power_cut|]. unfold no_io_errors. cbn. apply Forall_forall. intros f Hf k ->.
  unfold quiet_faults in Hq. rewrite forallb_forall in Hq.
  specialize (Hq (FErr k) (proj1 (list_elem_of_In _ _) Hf)). done.
Qed.

Lemma act_step z a e z' : action_quiet a = true → act z a = Some (e, z') → step z e z'.
Proof.
  intros Hq Ha. destruct a as [k v nx|k nx|k|nx|thr nx], z as [x|s]; cbn in Ha, Hq; try done.
  - destruct (StorePut k v x) as [[[]|er| |] x'] eqn:E; simplify_eq; econstructor; eauto using quiet_falls.
  - destruct (StoreDelete k x) as [[b|er| |] x'] eqn:E; simplify_eq; econstructor; eauto using quiet_falls.
  - destruct (StoreGet k x) as [v b] eqn:E. simplify_eq. by constructor.
  - simplify_eq. constructor. by apply quiet_falls.
  - destruct (Open wd sd thr s) as [[x|er| |] s'] eqn:E; simplify_eq; econstructor; eauto using quiet_falls.
Qed.

Lemma play_runs acts z0 z es es' z' :
  forallb action_quiet acts = true → runs step z0 es z → play acts z es = Some (es', z') → runs step z0 es' z'.
Proof.
  revert z es. induction acts as [|a acts IH]; intros z es Hq Hr Hp; cbn in *; [by simplify_eq|].
  apply andb_true_iff in Hq as [Hqa Hq]. destruct (act z a) as [[e z1]|] eqn:E; [|done]. cbn in Hp.
  eapply IH; [done| |exact Hp]. econstructor; [exact Hr|]. by eapply act_step.
Qed.
End play.

(** ** A run with crashes *)

#[export] Program Instance example_dirs : StoreDirs | 100 := {| wd := str "wal"; sd := str "snap" |}.
Next Obligation. done. Qed.

(** Boot, write, and crash in the middle of an append, of a recovery and of a
    delete; the threshold makes every write snapshot and rotate the log. *)
Definition example_script : list action :=
  [ABoot 1 []; APut (str "a") (str "1") []; APut (str "b") (str "2") [];
   AStop (replicate 12 FOk ++ [FCrash 7]); ABoot 1 []; APut (str "a") (str "3") (replicate 3 FOk ++ [FCrash 0]);
   ABoot 1 []; ABoot 1 []; AGet (str "a"); ADelete (str "b") [];
   APut (str "c") (str "4") []; AStop []; ABoot 0 []; AGet (str "b"); AGet (str "c")].

Definition example_trace : list event :=
  [EBoot; EPut (str "a") (str "1"); EPut (str "b") (str "2"); EStop; EBoot;
   EPutCut (str "a") (str "3"); EBootCut; EBoot; EGet (str "a") (str "3") true;
   EDelete (str "b") true; EPut (str "c") (str "4"); EStop; EBoot;
   EGet (str "b") [] false; EGet (str "c") (str "4") true].

Lemma example_runs : ∃ z, runs step (Down (empty_fs [])) example_trace z.
Proof.
  assert (fst <$> play example_script (Down (empty_fs [])) [] = Some example_trace) as Hp by (by vm_compute).
  destruct (play example_script (Down (empty_fs [])) []) as [[es z]|] eqn:E; [|done]. injection Hp as ->.
  exists z. eapply play_runs; [|apply runs_nil|exact E]. by vm_compute.
Qed.

Lemma example_in_bounds : in_bounds example_trace.
Proof.
  split; [|by vm_compute]. unfold example_trace, trace_commands. cbn [fmap list_fmap commands_of concat app].
  repeat constructor; (by left) || (by right) || by vm_compute.
Qed.

Lemma store_refines_map_witness :
  ∃ z m, runs step (Down (empty_fs [])) example_trace z ∧ runs map_step NewMemStore example_trace m ∧
    match z with Up x => mem x = m | Down _ => True end.
Proof.
  destruct example_runs as [z Hz].
  destruct (store_refines_map [] example_trace z ltac:(constructor) example_in_bounds Hz) as (m & Hm & Hz').
  by exists z, m.
Defined.

Lemma store_never_fails_witness :
  ∃ z, runs step (Down (empty_fs [])) example_trace z ∧
    match z with
    | Down s => ∀ thr, ok_or_cut (Open wd sd thr s).1
    | Up x =>
        (∀ k v, in_bounds (example_trace ++ [EPut k v]) → ok_or_cut (StorePut k v x).1) ∧
        (∀ k, in_bounds (example_trace ++ [EDelete k true]) → ok_or_cut (StoreDelete k x).1)
    end.
Proof.
  destruct example_runs as [z Hz]. exists z. split; [exact Hz|].
  exact (store_never_fails [] example_trace z ltac:(constructor) example_in_bounds Hz).
Defined.
