(* ===== verification/Server.v ===== *)
(** * internal/server/server.go: the service of a single node

    Request validation and the mapping between the results of a storage engine
    and responses.  The engine is the interface [Store]; [DurableStore] is the
    one the standalone server runs on. *)

From stdpp Require Import prelude gmap strings sorting.
From coqutil Require Import Byte.
From S2P Require Import Prelude GoRuntime GoBytes GoStrings GoText Grpc GoFS Record MemStore Command Wal Snapshot Store.
From S2P Require Import StoreLaws StoreRun StoreSnap StoreRefine StoreSim.
Open Scope Z_scope.

Definition MaxKeyBytes : Z := 4 * 1024.
Definition MaxValueBytes : Z := 1 * 1024 * 1024.

(** [server.Store]: mutations can fail, reads cannot. *)
Class KVStore (S : Type) := {
  kvPut : gostring → bytes → M S ();
  kvGet : gostring → S → bytes * bool;
  kvDelete : gostring → M S bool
}.

Record GetResponse := mkGetResponse { gr_value : bytes; gr_found : bool }.

Definition validateKey (key : gostring) : option grpcStatus :=
  if bool_decide (key = []) then Some (mkGrpc InvalidArgument (str "key must not be empty")) else
  if MaxKeyBytes <? zlength key
  then Some (mkGrpc InvalidArgument
    (str "key is " ++ Itoa (zlength key) ++ str " bytes, limit is " ++ Itoa MaxKeyBytes)) else
  None.

Section server.
Context {S : Type} `{KVStore S} {txt : ErrText}.

(** A handler returns a response or a status. *)
Definition serverPut (key : gostring) (value : bytes) : M S (() + grpcStatus) :=
  match validateKey key with
  | Some st => mret (inr st)
  | None =>
      if MaxValueBytes <? zlength value
      then mret (inr (mkGrpc InvalidArgument
        (str "value is " ++ Itoa (zlength value) ++ str " bytes, limit is " ++ Itoa MaxValueBytes))) else
      r ← attempt (kvPut key value);
      match r with
      | inr err => mret (inr (mkGrpc Internal (str "storage: " ++ errText err)))
      | inl _ => mret (inl ())
      end
  end.

Definition serverGet (key : gostring) : M S (GetResponse + grpcStatus) :=
  match validateKey key with
  | Some st => mret (inr st)
  | None =>
      s ← get;
      let '(value, found) := kvGet key s in
      mret (inl (mkGetResponse value found))
  end.

Definition serverDelete (key : gostring) : M S (bool + grpcStatus) :=
  match validateKey key with
  | Some st => mret (inr st)
  | None =>
      r ← attempt (kvDelete key);
      match r with
      | inr err => mret (inr (mkGrpc Internal (str "storage: " ++ errText err)))
      | inl existed => mret (inl existed)
      end
  end.
End server.

#[export] Instance durable_store `{GoRuntime} : KVStore DurableStore := {|
  kvPut := StorePut;
  kvGet := StoreGet;
  kvDelete := StoreDelete
|}.

(** ** The standalone server is within the bounds of the store *)

Definition valid_key (key : gostring) : Prop := key ≠ [] ∧ zlength key ≤ MaxKeyBytes.
Definition valid_put (key : gostring) (value : bytes) : Prop :=
  valid_key key ∧ zlength value ≤ MaxValueBytes.

Lemma validateKey_spec key :
  match validateKey key with
  | None => valid_key key
  | Some st => st_code st = InvalidArgument ∧ ¬ valid_key key
  end.
Proof.
  unfold validateKey, valid_key. case_bool_decide; [split; [done|by intros []]|].
  destruct (_ <? _) eqn:E; zify_bool; [split; [done|lia]|done].
Qed.

Lemma valid_cmd_ok op key value :
  op = OpPut ∨ op = OpDelete → valid_put key value → cmd_ok (mkCommand op key value).
Proof.
  intros Hop [[_ Hk] Hv]. unfold MaxKeyBytes, MaxValueBytes in *. split.
  - split; [done|]. cbn. lia.
  - unfold fits. rewrite length_enc. cbn. unfold walMaxRecordLen, walSeqSize, MaxKeyBytesOnDisk, MaxValueBytesOnDisk.
    change (Z.shiftl 1 20) with 1048576. change (Z.shiftl 1 26) with 67108864. lia.
Qed.

(** Room for one more command. *)
Definition has_room (H : list Command) : Prop := written H + 2 ^ 21 < 2 ^ 63.

Lemma has_room_snoc H op key value :
  Forall cmd_ok H → has_room H → op = OpPut ∨ op = OpDelete → valid_put key value →
  hist_ok (H ++ [mkCommand op key value]).
Proof.
  intros HH Hr Hop Hv. apply hist_ok_intro.
  - apply Forall_app. split; [done|]. constructor; [by apply valid_cmd_ok|constructor].
  - rewrite written_app. cbn [written]. rewrite length_enc. cbn. destruct Hv as [[_ ?] ?].
    unfold has_room, MaxKeyBytes, MaxValueBytes in *. lia.
Qed.

Section durable.
Context {dirs : StoreDirs} {rt : GoRuntime} {txt : ErrText}.

(** C16: [Put] of the standalone server.  A request outside the limits is
    answered with InvalidArgument and changes nothing.  Every other one is executed
    and durable when it is answered with success, and what the service accepts always
    fits the log: it is refused, with Internal, only when the write or the fsync of its
    record fails.  Then the map stays as it was, the log refuses every further write,
    and after a restart the command happened or did not, as it is when a crash cuts
    the request.  (I/O errors while the store takes a snapshot afterwards are not
    considered: [fails_early].) *)
Theorem serverPut_durable H x key value :
  serving H (length H) x → fails_early x → has_room H →
  wp (serverPut key value) (λ o x',
    let after := H ++ [mkCommand OpPut key value] in
    let cut := ∃ lo, (length H ≤ lo ≤ length after)%nat ∧ safe after lo (disk (wl x')) in
    match o with
    | Ok (inl _) => valid_put key value ∧ running after (length after) x'
    | Ok (inr st) =>
        (st_code st = InvalidArgument ∧ ¬ valid_put key value ∧ x' = x) ∨
        (st_code st = Internal ∧ valid_put key value ∧ ¬ no_io_errors (disk (wl x)) ∧
         mem x' = mem x ∧ wal_failed (log (wl x')) = true ∧ cut)
    | Crash => cut
    | _ => False
    end) x.
Proof.
  intros Hr Hq Hroom. unfold serverPut. pose proof (validateKey_spec key) as Hk.
  destruct (validateKey key) as [st|].
  { apply wp_ret. destruct Hk as [Hst Hk]. left. split; [done|]. split; [by intros []|done]. }
  destruct (MaxValueBytes <? zlength value) eqn:Ev; zify_bool.
  { apply wp_ret. left. split; [done|]. split; [intros []; lia|done]. }
  assert (valid_put key value) as Hv by done.
  assert (hist_ok (H ++ [mkCommand OpPut key value])) as HH.
  { apply has_room_snoc; [|done|by left|done]. by destruct (run_hist _ _ _ Hr). }
  apply wp_bind, wp_attempt. eapply wp_mono; [by apply (logAndApply_any H (length H))|].
  intros o x' Ho. destruct o as [[]|e| |]; cbn [wpk]; [by apply wp_ret| |done|done].
  destruct Ho as (? & ? & _ & ? & ?). apply wp_ret. right. split_and!; try done. exists (length H). split; [rewrite length_app; lia|done].
Qed.

(** [Get] of the standalone server answers from the map the executed
    commands give, rejects exactly the keys outside the limits, and changes
    nothing. *)
Theorem serverGet_spec H x key :
  running H (length H) x →
  wp (serverGet key) (λ o x', x' = x ∧
    match o with
    | Ok (inl r) => valid_key key ∧
        r = mkGetResponse (default [] (state_of H !! key)) (bool_decide (is_Some (state_of H !! key)))
    | Ok (inr st) => st_code st = InvalidArgument ∧ ¬ valid_key key
    | _ => False
    end) x.
Proof.
  intros Hr. unfold serverGet. pose proof (validateKey_spec key) as Hk.
  destruct (validateKey key) as [st|]; [by apply wp_ret|]. apply wp_bind, wp_get. cbn [wpk].
  change (kvGet key x) with (Get key (mem x)). unfold Get. rewrite (run_mem _ _ _ Hr).
  destruct (state_of H !! key) as [v|]; by apply wp_ret.
Qed.
End durable.

#[local] Instance plain_text : ErrText := λ _, str "i/o error".

Lemma opened : ∃ x, running (dirs := StoreSim.example_dirs) [] 0 x.
Proof.
  assert (match (Open (str "wal") (str "snap") 0 (empty_fs [])).1 with Ok _ => true | _ => false end = true) as Ho
    by (by vm_compute).
  pose proof (Open_resting (dirs := StoreSim.example_dirs) [] 0 (empty_fs []) (resting_empty [] ltac:(constructor))) as Hw.
  unfold wp in Hw. cbn [wd sd StoreSim.example_dirs] in Hw.
  destruct (Open (str "wal") (str "snap") 0 (empty_fs [])) as [[x|e| |] s]; try done. exists x. by destruct Hw.
Qed.

(** The fsync of the record fails. *)
Lemma serverPut_durable_witness :
  ∃ x, ¬ no_io_errors (disk (wl x)) ∧ serving (dirs := StoreSim.example_dirs) [] 0 x ∧
  wp (serverPut (str "k") (str "v")) (λ o x',
    let after := [mkCommand OpPut (str "k") (str "v")] in
    let cut := ∃ lo, (0 ≤ lo ≤ 1)%nat ∧ safe (dirs := StoreSim.example_dirs) after lo (disk (wl x')) in
    match o with
    | Ok (inl _) => valid_put (str "k") (str "v") ∧ running (dirs := StoreSim.example_dirs) after 1 x'
    | Ok (inr st) =>
        (st_code st = InvalidArgument ∧ ¬ valid_put (str "k") (str "v") ∧ x' = x) ∨
        (st_code st = Internal ∧ valid_put (str "k") (str "v") ∧ ¬ no_io_errors (disk (wl x)) ∧
         mem x' = mem x ∧ wal_failed (log (wl x')) = true ∧ cut)
    | Crash => cut
    | _ => False
    end) x.
Proof.
  destruct opened as [x Hx]. exists (x <| wl ::= set disk (set faults (λ _, [FOk; FErr 0])) |>).
  assert (serving (dirs := StoreSim.example_dirs) [] 0 (x <| wl ::= set disk (set faults (λ _, [FOk; FErr 0])) |>)) as Hs.
  { apply running_serving in Hx. exact Hx. }
  split; [|split; [exact Hs|]].
  - intros Hq. unfold no_io_errors in Hq. cbn in Hq. inversion_clear Hq as [|? ? _ Hq']. inversion_clear Hq' as [|? ? Hf _]. by apply (Hf 0%nat).
  - apply (serverPut_durable (dirs := StoreSim.example_dirs) [] _ (str "k") (str "v") Hs); [constructor|done].
Defined.

Lemma serverGet_spec_witness :
  ∃ x, running (dirs := StoreSim.example_dirs) [] 0 x ∧
  wp (serverGet (str "k")) (λ o x', x' = x ∧
    match o with
    | Ok (inl r) => valid_key (str "k") ∧ r = mkGetResponse [] false
    | Ok (inr st) => st_code st = InvalidArgument ∧ ¬ valid_key (str "k")
    | _ => False
    end) x.
Proof.
  destruct opened as [x Hx]. exists x. split; [exact Hx|].
  exact (serverGet_spec (dirs := StoreSim.example_dirs) [] x (str "k") Hx).
Defined.
