(* ===== verification/Standalone.v ===== *)
(** * cmd/server/main.go: the standalone server, from start to shutdown

    [runStandalone] opens the durable store, serves requests until a signal, and
    closes the store.  One life of the process answers every request as the same
    service on a plain map would, and hands the map on to the next life. *)

From stdpp Require Import prelude gmap strings.
From S2P Require Import Prelude GoRuntime GoBytes Grpc GoFS Record MemStore Command Wal Snapshot Store.
From S2P Require Import StoreLaws StoreRun StoreSnap StoreRefine StoreSim Server.
Open Scope Z_scope.

Inductive request := RPut (key : gostring) (value : bytes) | RGet (key : gostring) | RDelete (key : gostring).
Inductive response :=
  | APut (r : () + grpcStatus)
  | AGet (r : GetResponse + grpcStatus)
  | ADelete (r : bool + grpcStatus).

Section serve_requests.
Context {S : Type} `{KVStore S} {txt : ErrText}.

(** [RegisterKVServer]: the handler of a request. *)
Definition handle_request (r : request) : M S response :=
  match r with
  | RPut key value => x ← serverPut key value; mret (APut x)
  | RGet key => x ← serverGet key; mret (AGet x)
  | RDelete key => x ← serverDelete key; mret (ADelete x)
  end.

(** [grpcServer.Serve]: the requests that arrive before the signal, in the order the
    store's lock gives them. *)
Fixpoint serve_requests (rs : list request) : M S (list response) :=
  match rs with
  | [] => mret []
  | r :: rs' => a ← handle_request r; l ← serve_requests rs'; mret (a :: l)
  end.
End serve_requests.

(** The engine that is a map. *)
#[export] Instance map_store : KVStore MemStore := {|
  kvPut k v := modify (Put k v);
  kvGet := Get;
  kvDelete k := λ m, let '(existed, m') := Delete k m in (Ok existed, m')
|}.

Section standalone.
Context {dirs : StoreDirs} {rt : GoRuntime} {txt : ErrText}.

(** [defer store.Close()]: its error is dropped. *)
Definition close_store (x : DurableStore) : outcome () * fs :=
  match StoreClose x with
  | (Ok _, x') | (Err _, x') => (Ok (), disk (wl x'))
  | (Panic, x') => (Panic, disk (wl x'))
  | (Crash, x') => (Crash, disk (wl x'))
  end.

(** [runStandalone]; [listen] is the error of [net.Listen].  The signal makes [Serve]
    return when the requests under way are answered. *)
Definition runStandalone (listen : option error) (rs : list request) (threshold : Z) : M fs (list response) := λ s,
  match wrap "open storage in %s: %w" (Open wd sd threshold) s with
  | (Err e, s') => (Err e, s')
  | (Panic, s') => (Panic, s')
  | (Crash, s') => (Crash, s')
  | (Ok x, _) =>
      match listen with
      | Some err => let '(o, s') := close_store x in (o ≫= λ _, Err err, s')
      | None =>
          match serve_requests rs x with
          | (Ok l, x') => let '(o, s') := close_store x' in (o ≫= λ _, Ok l, s')
          | (Err e, x') => (Err e, disk (wl x'))
          | (Panic, x') => (Panic, disk (wl x'))
          | (Crash, x') => (Crash, disk (wl x'))
          end
      end
  end.

(** ** The service on the store is the service on a map *)

(** The command a request executes. *)
Definition request_commands (r : request) : list Command :=
  match r with
  | RPut key value =>
      match validateKey key with
      | Some _ => []
      | None => if MaxValueBytes <? zlength value then [] else [mkCommand OpPut key value]
      end
  | RGet _ => []
  | RDelete key => match validateKey key with Some _ => [] | None => [mkCommand OpDelete key []] end
  end.

(** What a request may have left on the disk when it was cut. *)
Definition cut_between (H H' : list Command) (s : fs) : Prop :=
  ∃ lo, (length H ≤ lo ≤ length H')%nat ∧ safe H' lo s.

Definition answers_as_map (r : request) (H : list Command) (x : DurableStore) (o : outcome response) (x' : DurableStore) : Prop :=
  match o with
  | Ok a => handle_request r (mem x) = (Ok a, mem x') ∧
      ∃ H', running H' (length H') x' ∧ (H' = H ∨ H' = H ++ request_commands r)
  | Crash => cut_between H (H ++ request_commands r) (disk (wl x'))
  | _ => False
  end.

Lemma request_valid r : Forall cmd_ok (request_commands r).
Proof.
  destruct r as [key value|key|key]; cbn; [|constructor|]; pose proof (validateKey_spec key) as Hk; destruct (validateKey key) as [st|]; try constructor.
  - destruct (MaxValueBytes <? zlength value) eqn:E; constructor; [|constructor]. zify_bool. apply valid_cmd_ok; [by left|done].
  - apply valid_cmd_ok; [by right|]. split; [done|]. cbn. unfold MaxValueBytes. lia.
  - constructor.
Qed.

Lemma handle_request_sim r H x :
  running H (length H) x → hist_ok (H ++ request_commands r) → wp (handle_request r) (answers_as_map r H x) x.
Proof.
  intros Hr HH. destruct r as [key value|key|key]; cbn [handle_request]; unfold answers_as_map; cbn [request_commands handle_request] in *;
    unfold serverPut, serverGet, serverDelete; destruct (validateKey key) as [st|].
  - apply wp_ret. split; [done|]. exists H. auto.
  - destruct (MaxValueBytes <? zlength value); [apply wp_ret; split; [done|]; exists H; auto|].
    apply wp_bind, wp_bind, wp_attempt. eapply wp_mono; [by apply (logAndApply_spec H (length H))|].
    intros o x' Ho. destruct o as [[]|e| |]; cbn [wpk]; [|done..]. apply wp_ret. cbn. split; [|by eauto].
    unfold mbind, M_bind, attempt. cbn. rewrite (run_mem _ _ _ Hr), (run_mem _ _ _ Ho), state_of_snoc. done.
  - apply wp_ret. split; [done|]. exists H. auto.
  - unfold mbind, M_bind, get, mret, M_ret, wp. cbn. destruct (Get key (mem x)) as [v b] eqn:E.
    change (StoreGet key x) with (Get key (mem x)). rewrite E. cbn. split; [done|]. exists H. auto.
  - apply wp_ret. split; [done|]. exists H. auto.
  - apply wp_bind, wp_bind, wp_attempt. eapply wp_mono; [by apply (StoreDelete_spec H)|].
    intros o x' Ho. destruct o as [b|e| |]; cbn [wpk]; [|done|done|].
    + destruct Ho as [Hb Hr']. apply wp_ret. cbn. split; [|destruct b; eauto].
      unfold mbind, M_bind, attempt. cbn. unfold Delete. rewrite (run_mem _ _ _ Hr), (run_mem _ _ _ Hr'). rewrite <- Hb.
      destruct b; [by rewrite state_of_snoc|]. symmetry in Hb. apply bool_decide_eq_false_1, eq_None_not_Some in Hb.
      by rewrite (delete_id _ _ Hb).
    + destruct Ho as [_ Ho]. exact Ho.
Qed.

(** Requests that keep the log within its bounds. *)
Definition commands (rs : list request) : list Command := concat (request_commands <$> rs).
Definition room (H : list Command) (rs : list request) : Prop := Forall cmd_ok H ∧ written H + written (commands rs) < 2 ^ 63.

Lemma room_hist H r rs : room H (r :: rs) → hist_ok (H ++ request_commands r).
Proof.
  intros [HH Hw]. unfold commands in Hw. cbn in Hw. rewrite written_app in Hw. pose proof (written_length (concat (request_commands <$> rs))).
  apply hist_ok_intro; [|rewrite written_app; lia]. apply Forall_app. split; [done|apply request_valid].
Qed.
Lemma room_next H H' r rs : room H (r :: rs) → H' = H ∨ H' = H ++ request_commands r → room H' rs.
Proof.
  intros [HH Hw]. unfold commands in Hw. cbn in Hw. rewrite written_app in Hw. pose proof (written_length (request_commands r)).
  intros [->| ->]; [split; [done|unfold commands; lia]|]. split; [apply Forall_app; split; [done|apply request_valid]|].
  rewrite written_app. unfold commands. lia.
Qed.

Lemma serve_sim rs H x l x' :
  running H (length H) x → room H rs → serve_requests rs x = (Ok l, x') →
  serve_requests rs (mem x) = (Ok l, mem x') ∧ ∃ H', running H' (length H') x' ∧ Forall cmd_ok H' ∧ written H' ≤ written H + written (commands rs).
Proof.
  revert H x l. induction rs as [|r rs IH]; intros H x l Hr Hroom.
  - intros [= <- <-]. split; [done|]. exists H. destruct Hroom as [HH _]. split; [done|]. split; [done|]. cbn. lia.
  - cbn [serve_requests]. unfold mbind, M_bind at 1 3. pose proof (handle_request_sim r H x Hr (room_hist H r rs Hroom)) as Hs. unfold wp, answers_as_map in Hs.
    destruct (handle_request r x) as [[a|e| |] x1]; cbn [fst snd] in Hs; try done. destruct Hs as [Hm (H1 & Hr1 & HH1)].
    rewrite Hm. pose proof (room_next _ _ _ _ Hroom HH1) as Hroom1.
    unfold M_bind. destruct (serve_requests rs x1) as [[l1|e| |] x2] eqn:E; try done. intros [= <- <-].
    destruct (IH H1 x1 l1 Hr1 Hroom1 E) as [Hm1 (H2 & Hr2 & Hc2 & Hw2)]. rewrite Hm1. split; [done|]. exists H2. split; [done|].
    split; [done|]. unfold commands in *. cbn. rewrite written_app. pose proof (written_length (request_commands r)).
    destruct HH1 as [-> | ->]; [lia|]. rewrite written_app in Hw2. lia.
Qed.

(** ** Lives of the process *)

(** A life that answered its requests and was shut down, one cut by a crash of the
    machine while it executed a request, and one cut while it started. *)
Inductive life :=
  | Served (rs : list request) (l : list response)
  | CutIn (rs : list request) (l : list response) (r : request)
  | CutStarting.

Definition life_requests (f : life) : list request :=
  match f with Served rs _ => rs | CutIn rs _ r => rs ++ [r] | CutStarting => [] end.

(** On the disk: between lives the machine may lose whatever is not durable. *)
Inductive lives : fs → list life → fs → Prop :=
  | lives_nil s : lives s [] s
  | lives_served s ls s1 thr rs l s2 s3 :
      lives s ls s1 → runStandalone None rs thr s1 = (Ok l, s2) → falls s2 s3 → lives s (ls ++ [Served rs l]) s3
  | lives_cut s ls s1 thr x s2 rs l x1 r x2 s3 :
      lives s ls s1 → Open wd sd thr s1 = (Ok x, s2) → serve_requests rs x = (Ok l, x1) → handle_request r x1 = (Crash, x2) →
      falls (disk (wl x2)) s3 → lives s (ls ++ [CutIn rs l r]) s3
  | lives_cut_starting s ls s1 thr s2 s3 :
      lives s ls s1 → Open wd sd thr s1 = (Crash, s2) → falls s2 s3 → lives s (ls ++ [CutStarting]) s3.

(** On a map: the request that was cut happened or did not. *)
Inductive map_lives : MemStore → list life → MemStore → Prop :=
  | map_lives_nil m : map_lives m [] m
  | map_lives_served m ls m1 rs l m2 :
      map_lives m ls m1 → serve_requests rs m1 = (Ok l, m2) → map_lives m (ls ++ [Served rs l]) m2
  | map_lives_lost m ls m1 rs l r m2 :
      map_lives m ls m1 → serve_requests rs m1 = (Ok l, m2) → map_lives m (ls ++ [CutIn rs l r]) m2
  | map_lives_done m ls m1 rs l r m2 a m3 :
      map_lives m ls m1 → serve_requests rs m1 = (Ok l, m2) → handle_request r m2 = (Ok a, m3) → map_lives m (ls ++ [CutIn rs l r]) m3
  | map_lives_starting m ls m1 : map_lives m ls m1 → map_lives m (ls ++ [CutStarting]) m1.

Lemma close_store_disk x o s : close_store x = (o, s) → ∃ r, s = (disk (wl x)) <| faults := r |>.
Proof.
  unfold close_store, StoreClose, zoom, CloseWAL, gets, mbind, M_bind, Close, GoFS.sys. destruct x as [m [w d] q sdir t k]. cbn.
  destruct d as [dd p i f]. cbn. destruct f as [|[|n|n] f]; cbn; intros [= _ <-]; by eexists.
Qed.

Lemma safe_quiet H lo s r : safe H lo s → safe H lo (s <| faults := r |>).
Proof. intros [[Hw Hi] Hv]. split; [|exact Hv]. split; [by apply fs_wf_faults|exact Hi]. Qed.

(** A request done on the map, when its command was executed. *)
Lemma command_done H r :
  request_commands r ≠ [] → ∃ a, handle_request r (state_of H) = (Ok a, state_of (H ++ request_commands r)).
Proof.
  destruct r as [key value|key|key]; cbn; unfold serverPut, serverDelete; destruct (validateKey key); try done.
  - destruct (MaxValueBytes <? zlength value); [done|]. intros _. eexists. unfold mbind, M_bind, attempt. cbn. by rewrite state_of_snoc.
  - intros _. eexists. unfold mbind, M_bind, attempt. cbn. by rewrite state_of_snoc.
Qed.

Lemma serve_life H s thr rs l s' s'' :
  resting H s → room H rs → runStandalone None rs thr s = (Ok l, s') → falls s' s'' →
  ∃ H', resting H' s'' ∧ serve_requests rs (state_of H) = (Ok l, state_of H') ∧ Forall cmd_ok H' ∧ written H' ≤ written H + written (commands rs).
Proof.
  intros Hrest Hroom Hrun Hf. unfold runStandalone, wrap in Hrun. pose proof (Open_resting H thr s Hrest) as Ho. unfold wp in Ho.
  destruct (Open wd sd thr s) as [[x|e| |] s1]; cbn [fst snd] in Ho; try done. destruct Ho as [_ Hr].
  destruct (serve_requests rs x) as [[l1|e| |] x1] eqn:E; try done.
  destruct (serve_sim rs H x l1 x1 Hr Hroom E) as [Hm (H' & Hr' & Hc' & Hw')].
  destruct (close_store x1) as [o s2] eqn:Ec. destruct (close_store_disk _ _ _ Ec) as [r ->].
  destruct o as [[]|e| |]; cbn in Hrun; try done. injection Hrun as <- <-. exists H'.
  rewrite <- (run_mem _ _ _ Hr), <- (run_mem _ _ _ Hr'). split; [|done].
  apply (safe_falls H' _ _ (run_hist _ _ _ Hr') (safe_quiet _ _ _ r (running_safe _ _ Hr')) Hf).
Qed.

Lemma cut_life H s thr x s1 rs l x1 r x2 s' :
  resting H s → room H (rs ++ [r]) → Open wd sd thr s = (Ok x, s1) → serve_requests rs x = (Ok l, x1) → handle_request r x1 = (Crash, x2) →
  falls (disk (wl x2)) s' →
  ∃ H1 H', serve_requests rs (state_of H) = (Ok l, state_of H1) ∧ resting H' s' ∧
    (H' = H1 ∨ ∃ a, handle_request r (state_of H1) = (Ok a, state_of H')) ∧
    Forall cmd_ok H' ∧ written H' ≤ written H + written (commands (rs ++ [r])).
Proof.
  intros Hrest Hroom Ho Hs Hh Hf. destruct (wp_elim _ _ _ _ _ (Open_resting H thr s Hrest) Ho) as [_ Hr].
  assert (commands (rs ++ [r]) = commands rs ++ request_commands r) as Hcm
    by (unfold commands; rewrite fmap_app, concat_app; cbn; by rewrite app_nil_r).
  destruct Hroom as [HcH Hw]. rewrite Hcm, written_app in Hw |- *. pose proof (written_length (request_commands r)) as Hwr.
  assert (room H rs) as Hroom by (split; [done|lia]).
  destruct (serve_sim rs H x l x1 Hr Hroom Hs) as [Hm (H1 & Hr1 & Hc1 & Hw1)].
  assert (hist_ok (H1 ++ request_commands r)) as HH.
  { apply hist_ok_intro; [apply Forall_app; split; [done|apply request_valid]|]. rewrite written_app. lia. }
  pose proof (wp_elim _ _ _ _ _ (handle_request_sim r H1 x1 Hr1 HH) Hh) as Hcut. cbn in Hcut. exists H1.
  rewrite (run_mem _ _ _ Hr), (run_mem _ _ _ Hr1) in Hm.
  assert (∀ H', resting H' s' → H' = H1 ∨ H' = H1 ++ request_commands r → ∃ H', serve_requests rs (state_of H) = (Ok l, state_of H1) ∧ resting H' s' ∧
    (H' = H1 ∨ ∃ a, handle_request r (state_of H1) = (Ok a, state_of H')) ∧ Forall cmd_ok H' ∧
    written H' ≤ written H + (written (commands rs) + written (request_commands r))) as Hend.
  { intros H' Hrest' HH'. exists H'. split; [done|]. split; [done|]. destruct (decide (request_commands r = [])) as [Hn|Hn].
    - rewrite Hn, app_nil_r in HH'. assert (H' = H1) as -> by tauto. split; [by left|]. split; [done|lia].
    - destruct HH' as [-> | ->]; [split; [by left|split; [done|lia]]|]. split; [right; by apply command_done|].
      split; [apply Forall_app; split; [done|apply request_valid]|rewrite written_app; lia]. }
  destruct Hcut as (lo & Hlo & Hsafe). destruct Hf as [Hcr Hq]. destruct (safe_resting _ _ _ _ HH Hsafe Hcr Hq) as (n & Hn & Hrest').
  assert (length (request_commands r) ≤ 1)%nat as Hone
    by (destruct r as [k v|k|k]; cbn; [destruct (validateKey k); cbn; [lia|destruct (_ <? _); cbn; lia]|lia|destruct (validateKey k); cbn; lia]).
  rewrite length_app in Hn. apply (Hend _ Hrest'). destruct (decide (n = length H1)) as [->|Hne]; [left; apply take_app_length|right].
  apply take_ge. rewrite length_app. lia.
Qed.

(** All the requests of some lives stay within the bounds of the log. *)
Definition lives_bounded (ls : list life) : Prop := written (commands (concat (life_requests <$> ls))) < 2 ^ 63.

Lemma commands_app rs rs' : commands (rs ++ rs') = commands rs ++ commands rs'.
Proof. unfold commands. by rewrite fmap_app, concat_app. Qed.

Lemma lives_map s0 ls s :
  resting [] s0 → lives s0 ls s → lives_bounded ls →
  ∃ H, resting H s ∧ map_lives NewMemStore ls (state_of H) ∧ Forall cmd_ok H ∧ written H ≤ written (commands (concat (life_requests <$> ls))).
Proof.
  intros H0 Hl. unfold lives_bounded.
  induction Hl as [s|s ls s1 thr rs l s2 s3 _ IH Hrun Hf|s ls s1 thr x s2 rs l x1 r x2 s3 _ IH Ho Hs Hh Hf|s ls s1 thr s2 s3 _ IH Ho Hf]; intros Hb.
  - exists []. split; [done|]. split; [constructor|]. split; [constructor|done].
  - rewrite fmap_app, concat_app, commands_app, written_app in Hb |- *. cbn [fmap list_fmap concat life_requests] in *. rewrite app_nil_r in *.
    pose proof (written_length (commands rs)) as Hwl.
    destruct (IH H0 ltac:(lia)) as (H & Hrest & Hm & Hc & Hw).
    destruct (serve_life H s1 thr rs l s2 s3 Hrest ltac:(split; [done|lia]) Hrun Hf) as (H' & Hrest' & Hm' & Hc' & Hw').
    exists H'. split; [done|]. split; [by eapply map_lives_served|]. split; [done|lia].
  - rewrite fmap_app, concat_app, commands_app, written_app in Hb |- *. cbn [fmap list_fmap concat life_requests] in *. rewrite app_nil_r in *.
    pose proof (written_length (commands (rs ++ [r]))) as Hwl. destruct (IH H0 ltac:(lia)) as (H & Hrest & Hm & Hc & Hw).
    destruct (cut_life H s1 thr x s2 rs l x1 r x2 s3 Hrest ltac:(split; [done|lia]) Ho Hs Hh Hf) as (H1 & H' & Hm' & Hrest' & Hd & Hc' & Hw').
    exists H'. split; [done|]. split; [|split; [done|lia]]. destruct Hd as [->|[a Ha]]; [by eapply map_lives_lost|by eapply map_lives_done].
  - rewrite fmap_app, concat_app, commands_app, written_app in Hb |- *. cbn [fmap list_fmap concat life_requests app] in *.
    change (written (commands [])) with 0 in *. destruct (IH H0 ltac:(lia)) as (H & Hrest & Hm & Hc & Hw). exists H. pose proof (wp_elim _ _ _ _ _ (Open_resting H thr _ Hrest) Ho) as Hsafe. cbn in Hsafe.
    split; [apply (safe_falls H s2); [by destruct Hrest|done|done]|]. split; [by apply map_lives_starting|]. split; [done|lia].
Qed.
End standalone.

(** C9: The standalone server is a map over all its lives.  Start it on an empty disk,
    let it serve requests and be shut down, or cut by a crash of the machine while it
    starts or executes a request, losing whatever was not durable, and start it again,
    any number of times.  All the answers of all the lives, refusals included, are
    those the same service gives on a plain map that lives on; the one request under
    way at a crash happened entirely or not at all. *)
Theorem standalone_is_a_map `{StoreDirs, GoRuntime, ErrText} r ls s :
  no_io_errors (empty_fs r) → lives (empty_fs r) ls s → lives_bounded ls → ∃ m, map_lives NewMemStore ls m.
Proof. intros Hq Hl Hb. destruct (lives_map _ _ _ (resting_empty r Hq) Hl Hb) as (H' & _ & Hm & _). by exists (state_of H'). Qed.

#[local] Instance plain_text : ErrText := λ _, str "i/o error".

(** Two lives, with a power cut between them. *)
Definition first_life : outcome (list response) * fs :=
  runStandalone (dirs := example_dirs) None [RPut (str "k") (str "v"); RPut [] (str "v")] 0 (empty_fs []).
Definition second_life : outcome (list response) * fs :=
  runStandalone (dirs := example_dirs) None [RGet (str "k"); RDelete (str "k"); RGet (str "k")] 0 (power_cut [] first_life.2).

Lemma first_answers : first_life.1 = Ok [APut (inl ()); APut (inr (mkGrpc InvalidArgument (str "key must not be empty")))].
Proof. vm_compute. reflexivity. Qed.
Lemma second_answers :
  second_life.1 = Ok [AGet (inl (mkGetResponse (str "v") true)); ADelete (inl true); AGet (inl (mkGetResponse [] false))].
Proof. vm_compute. reflexivity. Qed.

Lemma answered {A} (p : outcome A * fs) l : p.1 = Ok l → p = (Ok l, p.2).
Proof. intros <-. by destruct p. Qed.

Lemma two_lives :
  lives (dirs := example_dirs) (empty_fs [])
    [Served [RPut (str "k") (str "v"); RPut [] (str "v")]
       [APut (inl ()); APut (inr (mkGrpc InvalidArgument (str "key must not be empty")))];
     Served [RGet (str "k"); RDelete (str "k"); RGet (str "k")]
       [AGet (inl (mkGetResponse (str "v") true)); ADelete (inl true); AGet (inl (mkGetResponse [] false))]]
    (power_cut [] second_life.2).
Proof.
  assert (∀ s, falls s (power_cut [] s)) as Hf by (intros s; split; [apply crash_power_cut|constructor]).
  apply (lives_served _ [_] (power_cut [] first_life.2) 0 _ _ second_life.2); [|exact (answered _ _ second_answers)|apply Hf].
  apply (lives_served _ [] (empty_fs []) 0 _ _ first_life.2); [constructor|exact (answered _ _ first_answers)|apply Hf].
Qed.

Lemma standalone_is_a_map_witness :
  ∃ m, map_lives NewMemStore
    [Served [RPut (str "k") (str "v"); RPut [] (str "v")]
       [APut (inl ()); APut (inr (mkGrpc InvalidArgument (str "key must not be empty")))];
     Served [RGet (str "k"); RDelete (str "k"); RGet (str "k")]
       [AGet (inl (mkGetResponse (str "v") true)); ADelete (inl true); AGet (inl (mkGetResponse [] false))]] m.
Proof.
  refine (standalone_is_a_map (H := example_dirs) [] _ _ _ two_lives _); [constructor|]. vm_compute. reflexivity.
Defined.
