(* ===== verification/RaftTypes.v ===== *)
(** * Raft data: log entries, messages, snapshots, and the storage interface

    The messages of proto/raft/v1/raft.proto, the [Entry] of
    internal/raft/log.go, the [raftSnapshot] of internal/raft/raftsnap.go, and
    [RaftDisk], the operations through which the consensus core reaches its
    disk (state.go, log.go and raftsnap.go implement them). *)

From stdpp Require Import prelude gmap strings.
From S2P Require Import Prelude GoBytes.
Open Scope Z_scope.

(** [raftv1.EntryType], an integer enumeration. *)
Definition ENTRY_TYPE_UNSPECIFIED : Z := 0.
Definition ENTRY_TYPE_NORMAL : Z := 1.
Definition ENTRY_TYPE_NOOP : Z := 2.
Definition ENTRY_TYPE_CONFIG : Z := 3.

(** One slot of the replicated log.  The wire form [raftv1.LogEntry] has the
    same four fields; [toProto] and [entryFromProto] copy them. *)
Record Entry := mkEntry {
  Term : Z;
  Index : Z;
  Type_ : Z;
  EntryCommand : bytes
}.
#[export] Instance Entry_eq_dec : EqDecision Entry.
Proof. solve_decision. Defined.

Record RequestVoteRequest := mkRV {
  rv_term : Z;
  rv_candidateId : Z;
  rv_lastLogIndex : Z;
  rv_lastLogTerm : Z;
  rv_preVote : bool
}.

Record RequestVoteResponse := mkRVR {
  rvr_term : Z;
  rvr_voteGranted : bool
}.

Record AppendEntriesRequest := mkAE {
  ae_term : Z;
  ae_leaderId : Z;
  ae_prevLogIndex : Z;
  ae_prevLogTerm : Z;
  ae_entries : list Entry;
  ae_leaderCommit : Z;
  ae_seq : Z
}.

Record AppendEntriesResponse := mkAER {
  aer_term : Z;
  aer_success : bool;
  aer_seq : Z;
  aer_conflictTerm : Z;
  aer_conflictIndex : Z
}.

Record InstallSnapshotRequest := mkIS {
  is_term : Z;
  is_leaderId : Z;
  is_lastIncludedIndex : Z;
  is_lastIncludedTerm : Z;
  is_data : bytes;
  is_config : bytes
}.

Record InstallSnapshotResponse := mkISR { isr_term : Z }.

Record TimeoutNowRequest := mkTN { tn_term : Z; tn_leaderId : Z }.

(** [outbound]: one message the core wants sent; exactly one payload is set. *)
Inductive outbound :=
  | OutRequestVote (to : Z) (req : RequestVoteRequest)
  | OutAppendEntries (to : Z) (req : AppendEntriesRequest)
  | OutInstallSnapshot (to : Z) (req : InstallSnapshotRequest)
  | OutTimeoutNow (to : Z) (req : TimeoutNowRequest).

Definition out_to (o : outbound) : Z :=
  match o with
  | OutRequestVote to _ | OutAppendEntries to _ | OutInstallSnapshot to _
  | OutTimeoutNow to _ => to
  end.

(** A membership table [map[uint64]string]; [config] is nil only in the zero
    snapshot. *)
Abbreviation Members := (gmap Z gostring).

Record raftSnapshot := mkSnap {
  lastIndex : Z;
  lastTerm : Z;
  config : option Members;
  data : bytes
}.
Definition zero_snapshot : raftSnapshot := mkSnap 0 0 None [].

(** The disk as the core uses it. *)
Class RaftDisk (D : Type) := {
  (** [saveTermAndVote] (the core's [saveState]). *)
  saveState : Z → Z → M D ();
  (** [loadTermAndVote] *)
  loadState : M D (Z * Z);
  (** [logStore.append] and [logStore.rewrite] *)
  logAppend : list Entry → M D ();
  logRewrite : list Entry → M D ();
  (** [openLog(dir, base)] *)
  logOpen : Z → M D (list Entry);
  (** [persistRaftSnapshot] and [loadRaftSnapshot] *)
  saveSnapshot : raftSnapshot → M D ();
  loadSnapshot : M D raftSnapshot
}.
