(* ===== verification/Membership.v ===== *)
(** * internal/raft/membership.go: membership changes and their encodings

    The codec of a single-server change, the codec of a whole membership
    table, and the effect of a change on a table.  The core's own methods
    ([proposeConfChange], [recalcConfig], ...) are in Core. *)

From stdpp Require Import prelude gmap strings sorting.
From coqutil Require Import Byte Word.LittleEndianList.
From S2P Require Import Prelude GoBytes RaftTypes.
Open Scope Z_scope.

Definition confChangeAdd : Init.Byte.byte := Init.Byte.x01.
Definition confChangeRemove : Init.Byte.byte := Init.Byte.x02.

Record confChange := mkCC {
  cc_op : Init.Byte.byte;
  cc_id : Z;
  cc_addr : gostring
}.

Definition encodeConfChange (cc : confChange) : bytes :=
  let b := [cc_op cc] in
  let b := AppendUint64 b (cc_id cc) in
  let b := AppendUint32 b (u32 (zlength (cc_addr cc))) in
  b ++ cc_addr cc.

Definition decodeConfChange (b : bytes) : outcome confChange :=
  if zlength b <? 1 + 8 + 4 then Err (EMsg "raft: config change truncated: %d bytes") else
  op ← zindex b 0;
  b1 ← zslice_from b 1;
  id ← Uint64 b1;
  b9 ← zslice_from b 9;
  n ← Uint32 b9;
  if negb (u64 (zlength b - 13) =? n)
  then Err (EMsg "raft: config change address length mismatch") else
  addr ← zslice_from b 13;
  if negb (bool_decide (op = confChangeAdd)) && negb (bool_decide (op = confChangeRemove))
  then Err (EMsg "raft: unknown config change op %d") else
  mret (mkCC op id addr).

Definition sorted_ids (m : Members) : list Z := merge_sort Z.le (elements (dom m)).

Definition encode_member (m : Members) (id : Z) : bytes :=
  let addr := default [] (m !! id) in
  AppendUint32 (AppendUint64 [] id) (u32 (zlength addr)) ++ addr.

Definition encodeMembers (m : Members) : bytes :=
  let ids := sorted_ids m in
  AppendUint32 [] (u32 (zlength ids)) ++ concat (encode_member m <$> ids).

(** The loop of [decodeMembers]; an entry takes at least twelve bytes, so
    [length b] rounds are enough. *)
Fixpoint decode_members_loop (fuel : nat) (i count : Z) (b : bytes) (m : Members)
    : outcome Members :=
  if count <=? i then Ok m else
  match fuel with
  | O => Panic
  | S fuel' =>
      if zlength b <? 12 then Err (EMsg "raft: members table truncated at entry %d") else
      id ← Uint64 b;
      b8 ← zslice_from b 8;
      alen ← Uint32 b8;
      b ← zslice_from b 12;
      if u64 (zlength b) <? alen
      then Err (EMsg "raft: members table truncated in address %d") else
      addr ← zslice_to b alen;
      b ← zslice_from b alen;
      decode_members_loop fuel' (i + 1) count b (<[id := addr]> m)
  end.

Definition decodeMembers (b : bytes) : outcome Members :=
  if zlength b <? 4 then Err (EMsg "raft: members table truncated") else
  count ← Uint32 b;
  b ← zslice_from b 4;
  decode_members_loop (S (length b)) 0 count b ∅.

(** The [switch cc.op] that [applyConfChange], [recalcConfig] and [configAt]
    share: the effect of one change on a table. *)
Definition change_members (cc : confChange) (m : Members) : Members :=
  if bool_decide (cc_op cc = confChangeAdd) then <[cc_id cc := cc_addr cc]> m
  else if bool_decide (cc_op cc = confChangeRemove) then delete (cc_id cc) m
  else m.

(** What one log entry does to a membership table: only a decodable config
    entry changes it. *)
Definition entry_members (e : Entry) (m : Members) : Members :=
  if Type_ e =? ENTRY_TYPE_CONFIG then
    match decodeConfChange (EntryCommand e) with
    | Ok cc => change_members cc m
    | _ => m
    end
  else m.

(** The table after a run of entries. *)
Definition fold_members (m : Members) (l : list Entry) : Members :=
  foldl (λ m e, entry_members e m) m l.

(** Tables the encoding can carry. *)
Definition members_wf (m : Members) : Prop :=
  zlength (elements (dom m)) < 2 ^ 32 ∧
  (∀ id addr, m !! id = Some addr → is_u64 id ∧ zlength addr < 2 ^ 32) ∧
  zlength (encodeMembers m) < 2 ^ 32.

(** ** Round trips *)

Lemma encode_member_eq m id :
  encode_member m id =
    le_split 8 id ++ le_split 4 (u32 (zlength (default [] (m !! id)))) ++ default [] (m !! id).
Proof. unfold encode_member, AppendUint32, AppendUint64. by rewrite app_nil_l, <-!app_assoc. Qed.

(** One round of the decoder on one encoded entry. *)
Lemma decode_members_loop_step fuel i count m id rest acc :
  is_u64 id → zlength (default [] (m !! id)) < 2 ^ 32 → i < count →
  zlength (encode_member m id ++ rest) < 2 ^ 63 →
  decode_members_loop (S fuel) i count (encode_member m id ++ rest) acc =
    decode_members_loop fuel (i + 1) count rest (<[id := default [] (m !! id)]> acc).
Proof.
  intros Hid Ha Hi Hl. set (addr := default [] (m !! id)) in *.
  assert (is_u32 (zlength addr)) as Hu by (unfold is_u32; lia).
  cbn [decode_members_loop]. rewrite (proj2 (Z.leb_gt _ _)) by lia.
  rewrite encode_member_eq in *. fold addr in Hl |- *. rewrite <-!app_assoc in *.
  assert (zlength (le_split 8 id ++ le_split 4 (u32 (zlength addr)) ++ addr ++ rest) =
    12 + zlength addr + zlength rest) as Hlen.
  { rewrite !length_app, length_le8, length_le4. lia. }
  rewrite Hlen in *. rewrite (proj2 (Z.ltb_ge _ _)) by lia.
  rewrite Uint64_app, u64_small by done. cbn [mbind outcome_bind].
  rewrite zslice_from_le8. cbn [mbind outcome_bind].
  rewrite Uint32_app, !u32_small by (try done; apply u32_range). cbn [mbind outcome_bind].
  replace (zslice_from _ 12) with (Ok (addr ++ rest)).
  2:{ rewrite app_assoc. rewrite <-(zslice_from_app (le_split 8 id ++ le_split 4 (zlength addr))).
      by rewrite length_app, length_le8, length_le4. }
  cbn [mbind outcome_bind]. rewrite length_app.
  rewrite (u64_small (Z.of_nat _)) by (unfold is_u64; lia).
  rewrite (proj2 (Z.ltb_ge _ _)) by lia.
  rewrite zslice_to_app. cbn [mbind outcome_bind]. rewrite zslice_from_app. done.
Qed.

Lemma decode_members_loop_all m ids fuel i count acc :
  (∀ id, id ∈ ids → is_u64 id ∧ zlength (default [] (m !! id)) < 2 ^ 32) →
  zlength (concat (encode_member m <$> ids)) < 2 ^ 63 →
  (length ids ≤ fuel)%nat → count = i + zlength ids →
  decode_members_loop fuel i count (concat (encode_member m <$> ids)) acc =
    Ok (foldl (λ a id, <[id := default [] (m !! id)]> a) acc ids).
Proof.
  revert fuel i acc. induction ids as [|id ids IH]; intros fuel i acc Hids Hl Hf ->.
  - destruct fuel; simpl; by rewrite (proj2 (Z.leb_le _ _)) by lia.
  - destruct fuel as [|fuel]; simpl in Hf; [lia|]. cbn [fmap list_fmap concat] in Hl |- *.
    destruct (Hids id) as [? ?]; [left|].
    rewrite decode_members_loop_step by (try done; simpl; lia).
    rewrite IH; [done| | |lia|simpl; lia].
    + intros x Hx. apply Hids. by right.
    + rewrite length_app in Hl. lia.
Qed.

Lemma foldl_insert_lookup (m acc : Members) ids x :
  foldl (λ a id, <[id := default [] (m !! id)]> a) acc ids !! x =
    if decide (x ∈ ids) then Some (default [] (m !! x)) else acc !! x.
Proof.
  revert acc. induction ids as [|id ids IH]; intros acc; cbn [foldl].
  { by rewrite decide_False by apply not_elem_of_nil. }
  rewrite IH. destruct (decide (x ∈ ids)) as [Hx|Hx].
  - by rewrite decide_True by (by right).
  - rewrite lookup_insert. destruct (decide (id = x)) as [->|Hne].
    + by rewrite decide_True by left.
    + rewrite decide_False; [done|]. rewrite elem_of_cons. naive_solver.
Qed.

Lemma sorted_ids_elem m id : id ∈ sorted_ids m ↔ is_Some (m !! id).
Proof.
  unfold sorted_ids. rewrite (merge_sort_Permutation Z.le), elem_of_elements. apply elem_of_dom.
Qed.

Lemma length_sorted_ids m : length (sorted_ids m) = length (elements (dom m)).
Proof. unfold sorted_ids. by rewrite (merge_sort_Permutation Z.le). Qed.

(** A table survives its encoding: node ids and addresses come back, whatever
    the order they were stored in. *)
Lemma decodeMembers_encode m : members_wf m → decodeMembers (encodeMembers m) = Ok m.
Proof.
  intros (Hn & Hm & Hl). unfold encodeMembers, decodeMembers, AppendUint32 in *. rewrite app_nil_l in *.
  rewrite length_app, length_le4 in *. rewrite (proj2 (Z.ltb_ge _ _)) by lia.
  rewrite length_sorted_ids in *.
  rewrite Uint32_app, !u32_small by (try apply u32_range; unfold is_u32; lia).
  cbn [mbind outcome_bind]. rewrite zslice_from_le4. cbn [mbind outcome_bind].
  rewrite (decode_members_loop_all m (sorted_ids m)).
  - f_equal. apply map_eq. intros x. rewrite foldl_insert_lookup, lookup_empty.
    destruct (decide _) as [Hx|Hx]; rewrite sorted_ids_elem in Hx.
    + by destruct Hx as [a ->].
    + by apply eq_None_not_Some in Hx.
  - intros id [a Ha]%sorted_ids_elem. rewrite Ha. by apply Hm.
  - lia.
  - clear. induction (sorted_ids m) as [|id l IH]; cbn [fmap list_fmap concat length] in *; [lia|].
    rewrite length_app, encode_member_eq, !length_app, length_le8, length_le4. lia.
  - rewrite length_sorted_ids. lia.
Qed.

(** A change survives its encoding. *)
Definition confChange_wf (cc : confChange) : Prop :=
  (cc_op cc = confChangeAdd ∨ cc_op cc = confChangeRemove) ∧ is_u64 (cc_id cc) ∧
  zlength (cc_addr cc) < 2 ^ 32.

Lemma decodeConfChange_encode cc :
  confChange_wf cc → decodeConfChange (encodeConfChange cc) = Ok cc.
Proof.
  intros (Hop & Hid & Ha).
  assert (is_u32 (zlength (cc_addr cc))) as Hu by (unfold is_u32; lia).
  unfold encodeConfChange, decodeConfChange, AppendUint64, AppendUint32.
  rewrite <-!app_assoc.
  set (b := [cc_op cc] ++ le_split 8 (cc_id cc) ++ le_split 4 (u32 (zlength (cc_addr cc))) ++ cc_addr cc).
  assert (zlength b = 13 + zlength (cc_addr cc)) as Hl.
  { unfold b. rewrite !length_app, length_le8, length_le4. simpl. lia. }
  rewrite Hl, (proj2 (Z.ltb_ge _ _)) by lia.
  change (zindex b 0) with (Ok (cc_op cc)). cbn [mbind outcome_bind].
  replace (zslice_from b 1) with (Ok (drop 1 b)) by (rewrite zslice_from_ok by lia; done).
  replace (zslice_from b 9) with (Ok (drop 9 b)) by (rewrite zslice_from_ok by lia; done).
  replace (zslice_from b 13) with (Ok (drop 13 b)) by (rewrite zslice_from_ok by lia; done).
  cbn [mbind outcome_bind].
  change (drop 1 b) with (drop 0 (le_split 8 (cc_id cc) ++ le_split 4 (u32 (zlength (cc_addr cc))) ++ cc_addr cc)).
  rewrite drop_0.
  assert (drop 9 b = le_split 4 (u32 (zlength (cc_addr cc))) ++ cc_addr cc) as ->.
  { unfold b. rewrite app_assoc. apply drop_app_length'. by rewrite length_app, length_le8. }
  assert (drop 13 b = cc_addr cc) as ->.
  { unfold b. rewrite !app_assoc. apply drop_app_length'. by rewrite !length_app, length_le8, length_le4. }
  rewrite Uint64_app, (u64_small (cc_id cc)) by done. cbn [mbind outcome_bind].
  rewrite Uint32_app, !u32_small by (try apply u32_range; done). cbn [mbind outcome_bind].
  rewrite u64_small by (unfold is_u64; lia).
  replace (13 + zlength (cc_addr cc) - 13) with (zlength (cc_addr cc)) by lia.
  rewrite Z.eqb_refl. cbn [negb].
  rewrite (proj2 (andb_false_iff _ _)) by
    (destruct Hop as [-> | ->]; [left|right]; by rewrite bool_decide_true).
  by destruct cc.
Qed.
