(* ===== verification/RaftLaws.v ===== *)
(** * What the consensus core relies on its disk for

    [RaftDiskLaws] is the contract of the storage interface [RaftDisk]: what
    the next boot may read after each operation, whatever its outcome.  The
    theorems about the core and about a cluster are proved against it;
    RaftFiles proves it of the byte-level implementation. *)

From stdpp Require Import prelude gmap strings.
From S2P Require Import Prelude GoBytes RaftTypes Membership.
Open Scope Z_scope.

(** Entries the log file can carry: 64-bit term and index, a type that fits
    the byte it is stored in, a command within the replay bound. *)
Definition maxEntryCommand : Z := Z.shiftl 64 20.
Definition entry_wf (e : Entry) : Prop :=
  is_u64 (Term e) ∧ is_u64 (Index e) ∧ 0 ≤ Type_ e < 256 ∧
  zlength (EntryCommand e) ≤ maxEntryCommand.

Definition snapshot_wf (s : raftSnapshot) : Prop :=
  is_u64 (lastIndex s) ∧ is_u64 (lastTerm s) ∧ members_wf (default ∅ (config s)).

(** The supersede rule of the log file: the next entry extends the log, an
    entry at an index the log holds discards everything at or above it. *)
Definition log_put (l : list Entry) (e : Entry) : list Entry :=
  match l, last l with
  | e0 :: _, Some el =>
      if Index e =? u64 (Index el + 1) then l ++ [e]
      else take (Z.to_nat (u64 (Index e - Index e0))) l ++ [e]
  | _, _ => [e]
  end.
Definition log_supersede (l es : list Entry) : list Entry := foldl log_put l es.

(** A log whose first entry is at index [i]. *)
Definition starts_at (i : Z) (l : list Entry) : Prop :=
  match l with [] => True | e :: _ => Index e = i end.

Class RaftDiskLaws (D : Type) `{RaftDisk D} := {
  d_wf : D → Prop;     (* the files are intact *)
  d_open : D → Prop;   (* ... and the log is open (it may refuse to be written) *)
  (** What the next boot may read. *)
  may_state : D → Z → Z → Prop;
  may_log : D → list Entry → Prop;
  may_snap : D → raftSnapshot → Prop;
  (** The term and vote the running process reads; a crash may still undo them. *)
  now_state : D → Z → Z → Prop;
  (** The disk the next boot finds: after a crash of the machine, or of the
      process alone. *)
  reboot : D → D → Prop;

  d_open_wf : ∀ d, d_open d → d_wf d;

  reboot_law : ∀ d d', d_wf d → reboot d d' →
    d_wf d' ∧ (∀ t v, may_state d' t v → may_state d t v) ∧
    (∀ l, may_log d' l → may_log d l) ∧ (∀ s, may_snap d' s → may_snap d s);

  now_state_fun : ∀ d t v t' v', now_state d t v → now_state d t' v' → t = t' ∧ v = v';

  saveState_law : ∀ t v d, d_open d → is_u64 t → is_u64 v →
    wp (saveState t v) (λ o d',
      d_wf d' ∧ (o ≠ Crash → d_open d') ∧ (∀ l, may_log d' l → may_log d l) ∧ (∀ s, may_snap d' s → may_snap d s) ∧
      match o with
      | Ok _ => ∀ t' v', may_state d' t' v' → t' = t ∧ v' = v
      | Err _ | Crash => ∀ t' v', may_state d' t' v' → may_state d t' v' ∨ (t' = t ∧ v' = v)
      | Panic => False
      end) d;

  logAppend_law : ∀ es d, d_open d → Forall entry_wf es →
    wp (logAppend es) (λ o d',
      d_wf d' ∧ (o ≠ Crash → d_open d') ∧ (∀ t v, may_state d' t v → may_state d t v) ∧
      (∀ s, may_snap d' s → may_snap d s) ∧
      match o with
      | Ok _ => ∀ l', may_log d' l' → ∃ l, may_log d l ∧ l' = log_supersede l es
      | Err _ | Crash =>
          ∀ l', may_log d' l' → ∃ l n, may_log d l ∧ l' = log_supersede l (take n es)
      | Panic => False
      end) d;

  logRewrite_law : ∀ es d, d_open d → Forall entry_wf es →
    wp (logRewrite es) (λ o d',
      d_wf d' ∧ (o ≠ Crash → d_open d') ∧ (∀ t v, may_state d' t v → may_state d t v) ∧
      (∀ s, may_snap d' s → may_snap d s) ∧
      match o with
      | Ok _ => ∀ l', may_log d' l' → l' = log_supersede [] es
      | Err _ | Crash => ∀ l', may_log d' l' → may_log d l' ∨ l' = log_supersede [] es
      | Panic => False
      end) d;

  saveSnapshot_law : ∀ s d, d_open d → snapshot_wf s →
    wp (saveSnapshot s) (λ o d',
      d_wf d' ∧ (o ≠ Crash → d_open d') ∧ (∀ t v, may_state d' t v → may_state d t v) ∧
      (∀ l, may_log d' l → may_log d l) ∧
      match o with
      | Ok _ => ∀ s', may_snap d' s' →
          s' = mkSnap (lastIndex s) (lastTerm s) (Some (default ∅ (config s))) (data s)
      | Err _ | Crash => ∀ s', may_snap d' s' → may_snap d s' ∨
          s' = mkSnap (lastIndex s) (lastTerm s) (Some (default ∅ (config s))) (data s)
      | Panic => False
      end) d;

  loadState_law : ∀ d, d_wf d →
    wp loadState (λ o d',
      d_wf d' ∧ (∀ t v, now_state d' t v ↔ now_state d t v) ∧
      (∀ t v, may_state d' t v ↔ may_state d t v) ∧
      (∀ l, may_log d' l → may_log d l) ∧ (∀ s, may_snap d' s → may_snap d s) ∧
      match o with
      | Ok (t, v) => now_state d t v ∧ may_state d t v ∧ is_u64 t ∧ is_u64 v
      | Err _ | Crash => True
      | Panic => False
      end) d;

  (** [loadRaftSnapshot] is also called while the log is open. *)
  loadSnapshot_law : ∀ d, d_wf d →
    wp loadSnapshot (λ o d',
      d_wf d' ∧ (d_open d → d_open d') ∧ (∀ t v, now_state d' t v ↔ now_state d t v) ∧
      (∀ t v, may_state d' t v ↔ may_state d t v) ∧
      (∀ l, may_log d' l → may_log d l) ∧ (∀ s, may_snap d' s → may_snap d s) ∧
      match o with
      | Ok s => may_snap d s
      | Err _ | Crash => True
      | Panic => False
      end) d;

  (** Opening the log also makes the term and vote just read durable: it syncs
      the directory they were renamed in. *)
  logOpen_law : ∀ base d, d_wf d →
    wp (logOpen base) (λ o d',
      d_wf d' ∧ (∀ t v, may_state d' t v → may_state d t v) ∧
      (∀ l, may_log d' l → may_log d l) ∧ (∀ s, may_snap d' s → may_snap d s) ∧
      match o with
      | Ok l => d_open d' ∧ may_log d l ∧ (∀ t v, may_state d' t v → now_state d t v)
      | Err _ | Crash => True
      | Panic => False
      end) d;

  (** A log that does not continue the snapshot is refused. *)
  logOpen_base : ∀ base d, d_wf d →
    wp (logOpen base) (λ o _, match o with Ok l => starts_at (u64 (base + 1)) l | _ => True end) d
}.

(** A disk all of whose contents are durable: a boot can only read one log and
    one snapshot. *)
Definition settled {D} `{RaftDiskLaws D} (d : D) : Prop :=
  (∀ l l', may_log d l → may_log d l' → l = l') ∧ (∀ s s', may_snap d s → may_snap d s' → s = s').

(** Entries at consecutive indices. *)
Definition consecutive (es : list Entry) : Prop :=
  ∀ k x y, es !! k = Some x → es !! S k = Some y → Index y = u64 (Index x + 1).

Definition succeeds {A} (o : outcome A) : Prop := match o with Ok _ => True | _ => False end.

(** A disk that does what it is asked, now and from now on. *)
Class WorkingDisk (D : Type) `{RaftDiskLaws D} := {
  d_works : D → Prop;
  saveState_works : ∀ t v d, d_works d → wp (saveState t v) (λ o d', succeeds o ∧ d_works d') d;
  logAppend_works : ∀ es d, d_works d → consecutive es → wp (logAppend es) (λ o d', succeeds o ∧ d_works d') d;
  logRewrite_works : ∀ es d, d_works d → wp (logRewrite es) (λ o d', succeeds o ∧ d_works d') d;
  saveSnapshot_works : ∀ s d, d_works d → wp (saveSnapshot s) (λ o d', succeeds o ∧ d_works d') d;
  loadSnapshot_works : ∀ d, d_wf d → d_works d → wp loadSnapshot (λ o d', succeeds o ∧ d_works d') d
}.

Lemma log_put_elem l e x : x ∈ log_put l e → x ∈ l ∨ x = e.
Proof.
  assert (∀ n, x ∈ take n l → x ∈ l) as Ht.
  { intros n Hx. apply elem_of_take in Hx as (i & Hi & _). by eapply list_elem_of_lookup_2. }
  unfold log_put. repeat case_match; subst; rewrite ?elem_of_app, ?list_elem_of_singleton; naive_solver.
Qed.

(** Nothing from thin air: superseding adds only the new entries. *)
Lemma log_supersede_elem l es x : x ∈ log_supersede l es → x ∈ l ∨ x ∈ es.
Proof.
  unfold log_supersede. revert l. induction es as [|e es IH]; intros l; simpl; [auto|].
  intros Hx. apply IH in Hx as [Hx|Hx]; [|right; by right].
  apply log_put_elem in Hx as [?| ->]; [by left|right; left].
Qed.

Lemma log_supersede_Forall (P : Entry → Prop) l es :
  Forall P l → Forall P es → Forall P (log_supersede l es).
Proof.
  rewrite !Forall_forall. intros Hl Hes x Hx. apply log_supersede_elem in Hx as [?|?]; auto.
Qed.
