(* ===== verification/RaftFiles.v ===== *)
(** * internal/raft: state.go, log.go and raftsnap.go on the file system

    The vote file, the log file and the snapshot file of a node, byte by byte,
    and the proof that together they implement the storage contract
    [RaftDiskLaws]. *)

From stdpp Require Import prelude gmap strings sorting.
From coqutil Require Import Byte Word.LittleEndianList.
From S2P Require Import Prelude GoBytes GoFS Record RaftTypes Membership RaftLaws.
Open Scope Z_scope.

(** ** state.go: the term and vote *)

Definition stateFileName : gostring := str "state".
Definition stateMagic : gostring := str "RKVVOTE1".
Definition stateFileSize : Z := zlength stateMagic + 8 + 8 + 4.

Definition state_bytes (t v : Z) : bytes :=
  let b := stateMagic in
  let b := AppendUint64 b t in
  let b := AppendUint64 b v in
  AppendUint32 b (Checksum b).

Definition saveTermAndVote (dir : gostring) (t v : Z) : M fs () :=
  WriteFileAtomic (dir, stateFileName) (state_bytes t v).

(** [loadTermAndVote] on the bytes of the file. *)
Definition decodeState (data : bytes) : outcome (Z * Z) :=
  if negb (zlength data =? stateFileSize)
  then Err (EMsg "raft: state file is %d bytes, want %d") else
  body ← zslice_to data (zlength data - 4);
  tail ← zslice_from data (zlength data - 4);
  crc ← Uint32 tail;
  if negb (Checksum body =? crc)
  then Err (EMsg "raft: state file checksum mismatch - disk corruption") else
  magic ← zslice_to body (zlength stateMagic);
  if negb (bool_decide (magic = stateMagic)) then Err (EMsg "raft: state file has bad magic") else
  b8 ← zslice_from body (zlength stateMagic);
  t ← Uint64 b8;
  b16 ← zslice_from body (zlength stateMagic + 8);
  v ← Uint64 b16;
  mret (t, v).

Definition loadTermAndVote (dir : gostring) : M fs (Z * Z) :=
  r ← attempt (ReadFile (dir, stateFileName));
  match r with
  | inr ENotExist => mret (0, 0)
  | inr err => throw err
  | inl data => lift (decodeState data)
  end.

(** ** raftsnap.go: the snapshot *)

Definition raftSnapFileName : gostring := str "snapshot".
Definition raftSnapMagic : gostring := str "RKVRSNP1".

Definition raft_snapshot_bytes (s : raftSnapshot) : bytes :=
  let c := encodeMembers (default ∅ (config s)) in
  let b := raftSnapMagic in
  let b := AppendUint64 b (lastIndex s) in
  let b := AppendUint64 b (lastTerm s) in
  let b := AppendUint32 b (u32 (zlength c)) in
  let b := b ++ c in
  let b := b ++ data s in
  AppendUint32 b (Checksum b).

Definition persistRaftSnapshot (dir : gostring) (s : raftSnapshot) : M fs () :=
  WriteFileAtomic (dir, raftSnapFileName) (raft_snapshot_bytes s).

(** The length of a Go slice is below 2^63, so [uint64(len(body))] is exact. *)
Definition decodeRaftSnapshot (b : bytes) : outcome raftSnapshot :=
  if zlength b <? zlength raftSnapMagic + 16 + 4 + 4
  then Err (EMsg "raft: snapshot file too short (%d bytes)") else
  body ← zslice_to b (zlength b - 4);
  tail ← zslice_from b (zlength b - 4);
  crc ← Uint32 tail;
  if negb (Checksum body =? crc)
  then Err (EMsg "raft: snapshot checksum mismatch - disk corruption") else
  magic ← zslice_to body (zlength raftSnapMagic);
  if negb (bool_decide (magic = raftSnapMagic)) then Err (EMsg "raft: snapshot has bad magic") else
  body ← zslice_from body (zlength raftSnapMagic);
  li ← Uint64 body;
  body8 ← zslice_from body 8;
  lt ← Uint64 body8;
  body16 ← zslice_from body 16;
  cfgLen ← Uint32 body16;
  body ← zslice_from body 20;
  if zlength body <? cfgLen then Err (EMsg "raft: snapshot config truncated") else
  c ← zslice_to body cfgLen;
  m ← decodeMembers c;
  d ← zslice_from body cfgLen;
  mret (mkSnap li lt (Some m) d).

Definition loadRaftSnapshot (dir : gostring) : M fs raftSnapshot :=
  r ← attempt (ReadFile (dir, raftSnapFileName));
  match r with
  | inr ENotExist => mret zero_snapshot
  | inr err => throw err
  | inl b => lift (decodeRaftSnapshot b)
  end.

(** ** log.go: the log *)

Definition logFileName : gostring := str "log".
Definition entryHeaderLen : Z := 17.
Definition maxEntryPayload : Z := entryHeaderLen + Z.shiftl 64 20.

Record logStore := mkLog {
  ls_f : nat;        (* the open file *)
  ls_dir : gostring;
  ls_failed : bool
}.
#[export] Instance logStore_eta : Settable logStore := λ l, mkLog (ls_f l) (ls_dir l) (ls_failed l).
#[export] Instance set_ls_f : Setter ls_f := ltac:(solve_setter).
#[export] Instance set_ls_failed : Setter ls_failed := ltac:(solve_setter).

(** A node's disk: its open log and its directory. *)
Record raftdisk := mkRD { store : logStore; rfs : fs }.
#[export] Instance raftdisk_eta : Settable raftdisk := λ d, mkRD (store d) (rfs d).
#[export] Instance set_store : Setter store := ltac:(solve_setter).
#[export] Instance set_rfs : Setter rfs := ltac:(solve_setter).

(** The payload of one record: [uint64 term | uint64 index | uint8 type |
    command]. *)
Definition entry_payload (e : Entry) : bytes :=
  let p := AppendUint64 [] (Term e) in
  let p := AppendUint64 p (Index e) in
  let p := p ++ [byte.of_Z (Type_ e)] in
  p ++ EntryCommand e.

Definition frames (l : list Entry) : bytes := foldl (λ b e, Frame b (entry_payload e)) [] l.

Definition decode_entry (payload : bytes) : outcome Entry :=
  t ← Uint64 payload;
  p8 ← zslice_from payload 8;
  i ← Uint64 p8;
  ty ← zindex payload 16;
  cmd ← zslice_from payload entryHeaderLen;
  mret (mkEntry t i (byte.unsigned ty) cmd).

(** The [switch] of [openLog]: what is kept of [entries] before [e] is
    appended. *)
Definition place_entry (base : Z) (entries : list Entry) (e : Entry) : outcome (list Entry) :=
  match entries, last entries with
  | e0 :: _, Some l =>
      if Index e =? u64 (Index l + 1) then Ok entries else
      if (Index e0 <=? Index e) && (Index e <=? Index l)
      then zslice_to entries (u64 (Index e - Index e0))
      else Err (EMsg "raft: log index jumps from %d to %d")
  | _, _ =>
      if Index e =? u64 (base + 1) then Ok []
      else Err (EMsg "raft: log starts at index %d, want %d (snapshot covers through %d)")
  end.

(** The loop of [openLog]; a record takes at least eight bytes, so
    [length data] rounds are enough. *)
Fixpoint replay_log (fuel : nat) (base : Z) (data : bytes) (entries : list Entry) (off : Z)
    : outcome (list Entry * Z) :=
  match data with
  | [] => Ok (entries, off)
  | _ :: _ =>
      match fuel with
      | O => Panic
      | S fuel' =>
          r ← Parse data maxEntryPayload;
          match r with
          | None => Ok (entries, off)
          | Some (payload, recLen) =>
              if zlength payload <? entryHeaderLen then Ok (entries, off) else
              e ← decode_entry payload;
              kept ← place_entry base entries e;
              replay_log fuel' base (zdrop recLen data) (kept ++ [e]) (off + recLen)
          end
      end
  end.

Definition openLog (dir : gostring) (base : Z) : M fs (logStore * list Entry) :=
  let p := (dir, logFileName) in
  r ← attempt (ReadFile p);
  data ← match r with
         | inl data => mret data
         | inr ENotExist => mret []
         | inr err => throw err
         end;
  '(entries, off) ← lift (replay_log (length data) base data [] 0);
  r ← attempt (Truncate p off);
  match r with
  | inl _ | inr ENotExist => mret ()
  | inr err => throw (EWrap "raft: truncate torn log tail: %w" err)
  end;;
  f ← OpenCreateAppend p;
  r ← attempt (SyncDir dir);
  match r with
  | inr err => attempt (Close f);; throw err
  | inl _ => mret (mkLog f dir false, entries)
  end.

(** [l.failed = true; return err] *)
Definition fail_log {A} (err : error) : M raftdisk A :=
  modify (set store (set ls_failed (λ _, true)));; throw err.

(** The contiguity check of [append]. *)
Fixpoint contiguous_from (e : Entry) (l : list Entry) : bool :=
  match l with
  | [] => true
  | e' :: l' => (Index e' =? u64 (Index e + 1)) && contiguous_from e' l'
  end.

Definition append (entries : list Entry) : M raftdisk () :=
  l ← gets store;
  if ls_failed l then throw ELogFailed else
  match entries with
  | [] => mret ()
  | e :: es =>
      if negb (contiguous_from e es)
      then throw (EMsg "raft: non-contiguous append: %d after %d") else
      r ← attempt (zoom rfs (Write (ls_f l) (frames entries)));
      match r with inr err => fail_log err | inl _ =>
      r ← attempt (zoom rfs (Sync (ls_f l)));
      match r with inr err => fail_log err | inl _ => mret ()
      end end
  end.

Definition rewrite_log (entries : list Entry) : M raftdisk () :=
  l ← gets store;
  if ls_failed l then throw ELogFailed else
  r ← attempt (zoom rfs (Close (ls_f l)));
  match r with inr err => fail_log err | inl _ =>
  let p := (ls_dir l, logFileName) in
  r ← attempt (zoom rfs (WriteFileAtomic p (frames entries)));
  match r with inr err => fail_log err | inl _ =>
  r ← attempt (zoom rfs (OpenAppend p));
  match r with
  | inr err => fail_log err
  | inl f => modify (set store (set ls_f (λ _, f)))
  end end end.

Definition close_log : M raftdisk () :=
  l ← gets store; zoom rfs (Close (ls_f l)).

(** Running an operation of the node's directory. *)
Definition in_dir {A} (m : gostring → M fs A) : M raftdisk A :=
  l ← gets store; zoom rfs (m (ls_dir l)).

#[export] Instance raft_files : RaftDisk raftdisk := {
  saveState t v := in_dir (λ dir, saveTermAndVote dir t v);
  loadState := in_dir loadTermAndVote;
  logAppend := append;
  logRewrite := rewrite_log;
  logOpen base :=
    '(l, entries) ← in_dir (λ dir, openLog dir base);
    modify (set store (λ _, l));;
    mret entries;
  saveSnapshot s := in_dir (λ dir, persistRaftSnapshot dir s);
  loadSnapshot := in_dir loadRaftSnapshot
}.

(** ** Round trips *)

(** [b[:len(b)-4]] and [b[len(b)-4:]] of a body followed by its checksum. *)
Lemma split_crc (body : bytes) v n :
  n = zlength body →
  zslice_to (body ++ le_split 4 v) n = Ok body ∧
  zslice_from (body ++ le_split 4 v) n = Ok (le_split 4 v).
Proof. intros ->. split; [apply zslice_to_app|apply zslice_from_app]. Qed.

Lemma Uint32_le4 v : Uint32 (le_split 4 v) = Ok (u32 v).
Proof. rewrite <-(app_nil_r (le_split 4 v)). apply Uint32_app. Qed.

Lemma decodeState_bytes t v : is_u64 t → is_u64 v → decodeState (state_bytes t v) = Ok (t, v).
Proof.
  intros Ht Hv.
  assert (∃ body, state_bytes t v = body ++ le_split 4 (Checksum body) ∧
    body = stateMagic ++ le_split 8 t ++ le_split 8 v) as (body & -> & Hb).
  { eexists. split; [reflexivity|]. unfold AppendUint64. by rewrite <-app_assoc. }
  unfold decodeState.
  assert (zlength (body ++ le_split 4 (Checksum body)) = stateFileSize) as Hl.
  { rewrite Hb, !length_app, !length_le8, length_le4. done. }
  rewrite Hl, Z.eqb_refl. cbn [negb].
  destruct (split_crc body (Checksum body) (stateFileSize - 4)) as [-> ->].
  { rewrite Hb, !length_app, !length_le8. done. }
  cbn [mbind outcome_bind].
  rewrite Uint32_le4, u32_small by apply crc32c_range. cbn [mbind outcome_bind].
  rewrite Z.eqb_refl. cbn [negb]. clear Hl. subst body.
  rewrite zslice_to_app. cbn [mbind outcome_bind]. rewrite bool_decide_eq_true_2 by done. cbn [negb].
  rewrite zslice_from_app. cbn [mbind outcome_bind].
  rewrite Uint64_app, u64_small by done. cbn [mbind outcome_bind].
  replace (zlength stateMagic + 8) with (zlength (stateMagic ++ le_split 8 t))
    by (rewrite length_app, length_le8; lia).
  rewrite app_assoc, zslice_from_app. cbn [mbind outcome_bind].
  rewrite <-(app_nil_r (le_split 8 v)), Uint64_app, u64_small by done. done.
Qed.

Lemma decodeRaftSnapshot_bytes s :
  snapshot_wf s →
  decodeRaftSnapshot (raft_snapshot_bytes s) =
    Ok (mkSnap (lastIndex s) (lastTerm s) (Some (default ∅ (config s))) (data s)).
Proof.
  intros (Hi & Ht & Hm). set (c := encodeMembers (default ∅ (config s))).
  assert (zlength c < 2 ^ 32) as Hc by apply Hm.
  assert (is_u32 (zlength c)) as Hcu by (unfold is_u32; lia).
  assert (∃ body rest, raft_snapshot_bytes s = body ++ le_split 4 (Checksum body) ∧
    body = raftSnapMagic ++ rest ∧ rest = le_split 8 (lastIndex s) ++ le_split 8 (lastTerm s) ++
      le_split 4 (u32 (zlength c)) ++ c ++ data s) as (body & rest & -> & Hb & Hr).
  { eexists _, _. split; [reflexivity|]. unfold AppendUint64, AppendUint32. rewrite <-!app_assoc. eauto. }
  unfold decodeRaftSnapshot.
  assert (zlength rest = 20 + zlength c + zlength (data s)) as Hrl.
  { rewrite Hr, !length_app, !length_le8, length_le4. lia. }
  assert (zlength body = 8 + zlength rest) as Hl by (rewrite Hb, length_app; simpl; lia).
  assert (zlength (body ++ le_split 4 (Checksum body)) = zlength body + 4) as Hl'.
  { rewrite length_app, length_le4. lia. }
  rewrite Hl'. rewrite (proj2 (Z.ltb_ge _ _)) by (simpl; lia).
  destruct (split_crc body (Checksum body) (zlength body + 4 - 4)) as [-> ->]; [lia|].
  cbn [mbind outcome_bind].
  rewrite Uint32_le4, u32_small by apply crc32c_range. cbn [mbind outcome_bind].
  rewrite Z.eqb_refl. cbn [negb]. clear Hl'. subst body.
  rewrite zslice_to_app. cbn [mbind outcome_bind]. rewrite bool_decide_eq_true_2 by done. cbn [negb].
  rewrite zslice_from_app. cbn [mbind outcome_bind].
  replace (Uint64 rest) with (Ok (lastIndex s)) by (by rewrite Hr, Uint64_app, u64_small).
  cbn [mbind outcome_bind].
  replace (zslice_from rest 8) with (Ok (drop 8 rest)) by (by rewrite zslice_from_ok by lia).
  replace (zslice_from rest 16) with (Ok (drop 16 rest)) by (by rewrite zslice_from_ok by lia).
  replace (zslice_from rest 20) with (Ok (drop 20 rest)) by (by rewrite zslice_from_ok by lia).
  cbn [mbind outcome_bind].
  assert (drop 8 rest = le_split 8 (lastTerm s) ++ le_split 4 (u32 (zlength c)) ++ c ++ data s) as ->.
  { rewrite Hr. apply drop_app_length'. by rewrite length_le8. }
  assert (drop 16 rest = le_split 4 (u32 (zlength c)) ++ c ++ data s) as ->.
  { rewrite Hr, app_assoc. apply drop_app_length'. by rewrite length_app, !length_le8. }
  assert (drop 20 rest = c ++ data s) as ->.
  { rewrite Hr, !app_assoc, <-(app_assoc _ c). apply drop_app_length'.
    by rewrite !length_app, !length_le8, length_le4. }
  rewrite Uint64_app, (u64_small (lastTerm s)) by done. cbn [mbind outcome_bind].
  rewrite Uint32_app, !u32_small by (try apply u32_range; done). cbn [mbind outcome_bind].
  rewrite length_app.
  rewrite (proj2 (Z.ltb_ge _ _)) by lia. rewrite zslice_to_app. cbn [mbind outcome_bind].
  unfold c. rewrite decodeMembers_encode by apply Hm. cbn [mbind outcome_bind].
  rewrite zslice_from_app. done.
Qed.

Lemma length_entry_payload e : zlength (entry_payload e) = 17 + zlength (EntryCommand e).
Proof.
  unfold entry_payload, AppendUint64. rewrite !length_app, !length_le8. simpl. lia.
Qed.

Lemma decode_entry_payload e : entry_wf e → decode_entry (entry_payload e) = Ok e.
Proof.
  intros (Ht & Hi & Hty & _). unfold decode_entry.
  pose proof (length_entry_payload e) as Hl.
  assert (entry_payload e = le_split 8 (Term e) ++ le_split 8 (Index e) ++
    [byte.of_Z (Type_ e)] ++ EntryCommand e) as Hp.
  { unfold entry_payload, AppendUint64. by rewrite <-!app_assoc. }
  rewrite Hp. rewrite Uint64_app, u64_small by done. cbn [mbind outcome_bind].
  rewrite zslice_from_le8. cbn [mbind outcome_bind].
  rewrite Uint64_app, u64_small by done. cbn [mbind outcome_bind].
  replace (zindex _ 16) with (Ok (byte.of_Z (Type_ e))).
  2:{ symmetry. apply zindex_lookup. split; [lia|]. rewrite app_assoc.
      rewrite lookup_app_r by (rewrite length_app, !length_le8; lia).
      rewrite length_app, !length_le8. done. }
  cbn [mbind outcome_bind]. rewrite <-Hp.
  replace (zslice_from (entry_payload e) entryHeaderLen) with (Ok (EntryCommand e)).
  2:{ rewrite Hp, !app_assoc. rewrite <-(zslice_from_app ((le_split 8 (Term e) ++
        le_split 8 (Index e)) ++ [byte.of_Z (Type_ e)])).
      rewrite !length_app, !length_le8. done. }
  cbn [mbind outcome_bind]. rewrite byte.unsigned_of_Z. unfold byte.wrap.
  rewrite Z.mod_small by lia. by destruct e.
Qed.

(** ** The records of a log file *)

(** What the parsing part of [openLog]'s loop reads: the entries up to the
    first invalid record, and the offset at which it stops. *)
Fixpoint records (fuel : nat) (b : bytes) : list Entry * Z :=
  match fuel with
  | O => ([], 0)
  | S fuel' =>
      match Parse b maxEntryPayload with
      | Ok (Some (payload, n)) =>
          if zlength payload <? entryHeaderLen then ([], 0) else
          match decode_entry payload with
          | Ok e => let '(l, off) := records fuel' (zdrop n b) in (e :: l, n + off)
          | _ => ([], 0)
          end
      | _ => ([], 0)
      end
  end.
Definition records_of (b : bytes) : list Entry := (records (length b) b).1.
Definition records_end (b : bytes) : Z := (records (length b) b).2.

Lemma frames_snoc l e : frames (l ++ [e]) = frames l ++ Frame [] (entry_payload e).
Proof. unfold frames. rewrite foldl_app. simpl. apply Frame_app. Qed.

Lemma frames_cons e l : frames (e :: l) = Frame [] (entry_payload e) ++ frames l.
Proof.
  induction l as [|e' l IH] using rev_ind; [by rewrite app_nil_r|].
  rewrite app_comm_cons, !frames_snoc, IH. by rewrite app_assoc.
Qed.

Lemma frames_app l k : frames (l ++ k) = frames l ++ frames k.
Proof. induction l as [|e l IH]; [done|]. simpl app. rewrite !frames_cons, IH. by rewrite app_assoc. Qed.

Lemma entry_payload_bounds e :
  entry_wf e → 17 ≤ zlength (entry_payload e) ≤ maxEntryPayload ∧ zlength (entry_payload e) < 2 ^ 32.
Proof.
  intros (_ & _ & _ & Hc). rewrite length_entry_payload. unfold maxEntryPayload, maxEntryCommand,
    entryHeaderLen in *. change (Z.shiftl 64 20) with 67108864 in *. lia.
Qed.

(** More fuel changes nothing: every record consumes bytes. *)
Lemma records_fuel f b : (length b ≤ f)%nat → records f b = records (length b) b.
Proof.
  remember (length b) as n eqn:Hn. revert f b Hn. induction n as [n IH] using lt_wf_ind.
  intros f b -> Hf. destruct f as [|f]; destruct (length b) as [|m] eqn:Hb; try lia; [done|..].
  - destruct b; [|done]. done.
  - cbn [records]. destruct (Parse b maxEntryPayload) as [[[p k]|]| | |] eqn:HP; try done.
    case_match; [done|]. destruct (decode_entry p); try done.
    apply Parse_sound in HP as (_ & _ & -> & _).
    assert (length (zdrop (8 + zlength p) b) ≤ m)%nat as Hl by (unfold zdrop; rewrite length_drop; lia).
    rewrite (IH (length (zdrop (8 + zlength p) b)) ltac:(lia) f _ eq_refl ltac:(lia)).
    by rewrite (IH (length (zdrop (8 + zlength p) b)) ltac:(lia) m _ eq_refl ltac:(lia)).
Qed.

(** Reading one framed entry. *)
Lemma records_frame e rest :
  entry_wf e →
  records_of (Frame [] (entry_payload e) ++ rest) = e :: records_of rest ∧
  records_end (Frame [] (entry_payload e) ++ rest) =
    zlength (Frame [] (entry_payload e)) + records_end rest.
Proof.
  intros He. destruct (entry_payload_bounds e He) as [Hb Hb'].
  assert (zlength (Frame [] (entry_payload e)) = 8 + zlength (entry_payload e)) as Hl.
  { rewrite length_Frame. simpl. lia. }
  unfold records_of, records_end.
  destruct (length (Frame [] (entry_payload e) ++ rest)) as [|n] eqn:Hn.
  { rewrite length_app in Hn. lia. }
  cbn [records]. rewrite Parse_header by done. rewrite (proj2 (Z.ltb_ge _ _)) by lia.
  rewrite (proj2 (Z.ltb_ge _ _)) by (unfold entryHeaderLen; lia). rewrite decode_entry_payload by done.
  replace (zdrop _ _) with rest.
  2:{ unfold zdrop. rewrite drop_app_length'; [done|lia]. }
  rewrite records_fuel by (rewrite length_app in Hn; lia). rewrite Hl. by destruct (records _ rest).
Qed.

(** ... and a batch, possibly torn at its end. *)
Lemma records_frames l rest :
  Forall entry_wf l →
  records_of (frames l ++ rest) = l ++ records_of rest ∧
  records_end (frames l ++ rest) = zlength (frames l) + records_end rest.
Proof.
  induction 1 as [|e l He Hl IH]; [done|]. rewrite frames_cons, <-app_assoc.
  destruct (records_frame e (frames l ++ rest) He) as [-> ->]. destruct IH as [-> ->].
  split; [done|]. rewrite length_app. lia.
Qed.

(** A batch cut anywhere reads as some of its first entries. *)
Lemma records_torn l b :
  Forall entry_wf l → b `prefix_of` frames l → ∃ m, records_of b = take m l.
Proof.
  intros Hl. revert b. induction Hl as [|e l He Hl IH]; intros b Hb.
  { apply prefix_nil_inv in Hb as ->. by exists 0%nat. }
  rewrite frames_cons in Hb. set (fr := Frame [] (entry_payload e)) in *.
  destruct (decide (fr `prefix_of` b)) as [[r ->]|Hn].
  - apply prefix_app_inv in Hb. destruct (IH r Hb) as [m Hm]. exists (S m).
    destruct (records_frame e r He) as [Hr _]. unfold fr. by rewrite Hr, Hm.
  - exists 0%nat. assert (b `prefix_of` fr ∧ b ≠ fr) as [Hp Hne].
    { split; [|by intros ->]. destruct Hb as [r Hr].
      destruct (prefix_weak_total b fr (fr ++ frames l)) as [?|?]; [by exists r|by eexists|done|done]. }
    unfold records_of. destruct (length b); cbn [records take]; [done|].
    by rewrite (Parse_prefix (entry_payload e)) by (try done; by apply entry_payload_bounds).
Qed.

(** Decoding an entry is canonical. *)
Lemma decode_entry_inv payload :
  entryHeaderLen ≤ zlength payload →
  ∃ e, decode_entry payload = Ok e ∧ payload = entry_payload e ∧ is_u64 (Term e) ∧
    is_u64 (Index e) ∧ 0 ≤ Type_ e < 256 ∧ zlength (EntryCommand e) = zlength payload - 17.
Proof.
  unfold entryHeaderLen. intros Hl. unfold decode_entry.
  destruct (Uint64_long payload) as [t Ht]; [lia|]. rewrite Ht. cbn [mbind outcome_bind].
  apply Uint64_inv in Ht as [Htu Hp].
  rewrite (zslice_from_ok payload 8) by lia. cbn [mbind outcome_bind]. change (Z.to_nat 8) with 8%nat.
  destruct (Uint64_long (drop 8 payload)) as [i Hi]; [rewrite length_drop; lia|].
  rewrite Hi. cbn [mbind outcome_bind]. apply Uint64_inv in Hi as [Hiu Hp8].
  rewrite drop_drop in Hp8. change (8 + 8)%nat with 16%nat in Hp8.
  destruct (zindex_in_range payload 16) as (ty & -> & Hty); [lia|]. cbn [mbind outcome_bind].
  change (Z.to_nat 16) with 16%nat in Hty. apply drop_S in Hty as Hp16.
  unfold entryHeaderLen. rewrite (zslice_from_ok payload 17) by lia. cbn [mbind outcome_bind].
  change (Z.to_nat 17) with 17%nat.
  eexists. split; [reflexivity|]. cbn. split_and!; try done.
  - unfold entry_payload, AppendUint64. cbn. rewrite <-!app_assoc, byte.of_Z_unsigned.
    cbn. rewrite <-Hp16, <-Hp8. done.
  - apply byte.unsigned_range.
  - apply byte.unsigned_range.
  - rewrite length_drop. lia.
Qed.

Lemma records_unfold b :
  records (length b) b =
    match Parse b maxEntryPayload with
    | Ok (Some (payload, n)) =>
        if zlength payload <? entryHeaderLen then ([], 0) else
        match decode_entry payload with
        | Ok e => (e :: records_of (zdrop n b), n + records_end (zdrop n b))
        | _ => ([], 0)
        end
    | _ => ([], 0)
    end.
Proof.
  unfold records_of, records_end. destruct (length b) as [|m] eqn:Hb.
  { by apply nil_length_inv in Hb as ->. }
  cbn [records]. destruct (Parse b maxEntryPayload) as [[[p n]|]| | |] eqn:HP; try done.
  case_match; [done|]. destruct (decode_entry p); try done.
  apply Parse_sound in HP as (_ & _ & -> & _).
  rewrite (records_fuel m (zdrop (8 + zlength p) b)) by (unfold zdrop; rewrite length_drop; lia).
  by destruct (records _ _).
Qed.

(** One step of reading a log file: either it stops, or the bytes begin with
    the frame of a well-formed entry. *)
Lemma records_cases b :
  (records_of b = [] ∧ records_end b = 0 ∧
     (Parse b maxEntryPayload = Ok None ∨
      ∃ p n, Parse b maxEntryPayload = Ok (Some (p, n)) ∧ zlength p < entryHeaderLen)) ∨
  ∃ e rest, entry_wf e ∧ b = Frame [] (entry_payload e) ++ rest.
Proof.
  unfold records_of, records_end. rewrite records_unfold.
  destruct (Parse_total b maxEntryPayload) as [[[p n]|] HP]; rewrite HP; [|by left; auto].
  destruct (zlength p <? entryHeaderLen) eqn:Hp; zify_bool; [left; naive_solver|right].
  destruct (decode_entry_inv p Hp) as (e & _ & Hpe & ? & ? & ? & Hc).
  apply Parse_sound in HP as (Hmax & _ & _ & Hb). exists e, (drop (Z.to_nat n) b).
  rewrite <-Hpe. split; [|done]. unfold entry_wf, maxEntryCommand. split_and!; try done; try lia.
  unfold maxEntryPayload, entryHeaderLen in Hmax. lia.
Qed.

(** The part of a log file that is read is the frames of the entries read. *)
Lemma records_canonical b :
  Forall entry_wf (records_of b) ∧ records_end b = zlength (frames (records_of b)) ∧
  frames (records_of b) `prefix_of` b.
Proof.
  remember (length b) as n eqn:Hn. revert b Hn. induction n as [n IH] using lt_wf_ind. intros b ->.
  destruct (records_cases b) as [(-> & -> & _)|(e & rest & He & ->)].
  { split_and!; [done|done|apply prefix_nil]. }
  destruct (records_frame e rest He) as [-> ->].
  assert (length rest < length (Frame [] (entry_payload e) ++ rest))%nat as Hlt.
  { rewrite length_app, length_Frame. lia. }
  destruct (IH _ Hlt rest eq_refl) as (Hf & -> & Hp). split_and!; [by constructor| |].
  - rewrite frames_cons, length_app. lia.
  - rewrite frames_cons. by apply prefix_app.
Qed.

(** ** Replay *)

(** Enough entries for the truncation of [openLog] not to run past them. *)
Definition spans (l : list Entry) : Prop :=
  match head l, last l with
  | Some e0, Some el => Index el - Index e0 + 1 ≤ zlength l ∧ is_u64 (Index e0) ∧ is_u64 (Index el)
  | _, _ => True
  end.

Lemma place_entry_put base l e :
  spans l → is_u64 (Index e) →
  match place_entry base l e with
  | Ok kept => kept ++ [e] = log_put l e ∧ spans (kept ++ [e])
  | Err _ => True
  | _ => False
  end.
Proof.
  intros Hs He. unfold place_entry, log_put, spans in *. destruct l as [|e0 l0]; simpl head in *.
  { simpl. destruct (_ =? _); [|done]. split; [done|]. simpl. split; [lia|by split]. }
  destruct (last (e0 :: l0)) as [el|] eqn:Hl; [|by apply last_None in Hl].
  destruct Hs as (Hs & H0 & Hel). destruct (_ =? _) eqn:Hn; zify_bool.
  { split; [done|]. simpl head. rewrite last_snoc. split; [|by split].
    rewrite length_app. cbn [length]. assert (u64 (Index el + 1) ≤ Index el + 1).
    { unfold u64. apply Z.mod_le; unfold is_u64 in *; lia. }
    simpl length in *. lia. }
  destruct (_ && _) eqn:Hc; [|done]. zify_bool.
  rewrite u64_small by (unfold is_u64 in *; lia).
  rewrite zslice_to_ok by (unfold is_u64 in *; lia). split; [done|].
  rewrite last_snoc. set (k := Z.to_nat (Index e - Index e0)).
  assert (head (take k (e0 :: l0) ++ [e]) = Some (if decide (k = 0%nat) then e else e0)) as ->.
  { destruct k; simpl; [done|]. done. }
  rewrite length_app, length_take. cbn [length].
  case_decide; split_and!; try done; unfold is_u64 in *; try lia.
  simpl length in *. lia.
Qed.

(** The rule of [openLog] on a list of records: contiguous, or rewinding. *)
Fixpoint place_all (base : Z) (l es : list Entry) : outcome (list Entry) :=
  match es with
  | [] => Ok l
  | e :: es' => kept ← place_entry base l e; place_all base (kept ++ [e]) es'
  end.

Lemma place_all_app base l es es' :
  place_all base l (es ++ es') = (l' ← place_all base l es; place_all base l' es').
Proof.
  revert l. induction es as [|e es IH]; intros l; [done|]. simpl.
  destruct (place_entry base l e); cbn [mbind outcome_bind]; [apply IH|done..].
Qed.

Lemma place_all_take base l es l' n :
  place_all base l es = Ok l' → ∃ ln, place_all base l (take n es) = Ok ln.
Proof.
  rewrite <-(take_drop n es) at 1. rewrite place_all_app.
  destruct (place_all base l (take n es)) as [ln| | |]; [by eauto|done..].
Qed.

Lemma replay_log_place fuel base b l off :
  (length b ≤ fuel)%nat →
  replay_log fuel base b l off = (l' ← place_all base l (records_of b); Ok (l', off + records_end b)).
Proof.
  revert b l off. induction fuel as [|fuel IH]; intros b l off Hf.
  { destruct b; [|simpl in Hf; lia]. cbn. by rewrite Z.add_0_r. }
  destruct b as [|x b'] eqn:Hb; [cbn; by rewrite Z.add_0_r|]. rewrite <-Hb in *.
  assert (replay_log (S fuel) base b l off =
    (r ← Parse b maxEntryPayload;
     match r with
     | None => Ok (l, off)
     | Some (payload, recLen) =>
         if zlength payload <? entryHeaderLen then Ok (l, off) else
         e ← decode_entry payload;
         kept ← place_entry base l e;
         replay_log fuel base (zdrop recLen b) (kept ++ [e]) (off + recLen)
     end)) as -> by (by rewrite Hb).
  clear Hb. destruct (records_cases b) as [(Hr & He & HP)|(e & rest & Hwf & Hbe)].
  - rewrite Hr, He, Z.add_0_r. destruct HP as [->|(p & n & -> & Hp)]; cbn [mbind outcome_bind]; [done|].
    by rewrite (proj2 (Z.ltb_lt _ _)) by done.
  - rewrite Hbe. destruct (entry_payload_bounds e Hwf) as [Hpb Hpl].
    rewrite Parse_header by done. rewrite (proj2 (Z.ltb_ge _ _)) by lia. cbn [mbind outcome_bind].
    rewrite (proj2 (Z.ltb_ge _ _)) by (unfold entryHeaderLen; lia).
    rewrite decode_entry_payload by done. cbn [mbind outcome_bind].
    destruct (records_frame e rest Hwf) as [-> ->]. cbn [place_all].
    destruct (place_entry base l e) as [kept| | |]; cbn [mbind outcome_bind]; [|done..].
    assert (zlength (Frame [] (entry_payload e)) = 8 + zlength (entry_payload e)) as Hfl.
    { rewrite length_Frame. simpl. lia. }
    assert (zdrop (8 + zlength (entry_payload e)) (Frame [] (entry_payload e) ++ rest) = rest) as ->.
    { unfold zdrop. apply drop_app_length'. lia. }
    rewrite IH by (rewrite Hbe, length_app, length_Frame in Hf; lia).
    destruct (place_all _ _ _); cbn [mbind outcome_bind]; [|done..]. do 2 f_equal. lia.
Qed.

Lemma place_all_put base l es :
  spans l → Forall entry_wf es →
  match place_all base l es with
  | Ok l' => l' = log_supersede l es
  | Err _ => True
  | _ => False
  end.
Proof.
  intros Hs Hes. revert l Hs. induction Hes as [|e es He _ IH]; intros l Hs; [done|].
  cbn [place_all]. pose proof (place_entry_put base l e Hs) as Hput.
  destruct (place_entry base l e) as [kept| | |]; cbn [mbind outcome_bind]; [|done|by apply Hput, He..].
  destruct Hput as [Hput Hsp]; [apply He|]. specialize (IH _ Hsp). by rewrite Hput in IH |- *.
Qed.

Lemma place_all_starts base l es l' :
  spans l → Forall entry_wf es → starts_at (u64 (base + 1)) l → place_all base l es = Ok l' →
  starts_at (u64 (base + 1)) l'.
Proof.
  intros Hs Hes. revert l Hs. induction Hes as [|e es He _ IH]; intros l Hs Hst; [by intros [= <-]|].
  cbn [place_all]. pose proof (place_entry_put base l e Hs) as Hput.
  destruct (place_entry base l e) as [kept| | |] eqn:Hpl; cbn [mbind outcome_bind]; [|done..].
  destruct Hput as [_ Hsp]; [apply He|]. apply IH; [done|]. clear IH Hsp. revert Hpl.
  destruct He as (_ & He & _). unfold place_entry, spans in *. destruct l as [|e0 l0].
  { simpl. destruct (_ =? _) eqn:E; [|done]. zify_bool. by intros [= <-]. }
  simpl head in Hs. destruct (last (e0 :: l0)) as [el|] eqn:Hl; [|by apply last_None in Hl].
  destruct (_ =? _); [by intros [= <-]|]. destruct (_ && _) eqn:Hc; [|done]. zify_bool.
  destruct Hs as (Hs & Hu0 & Hel). rewrite u64_small by (unfold is_u64 in *; lia).
  unfold zslice_to, ztake. case_match; [|done]. intros [= <-].
  destruct (Z.to_nat (Index e - Index e0)) as [|k] eqn:Hk; simpl; [|done]. simpl in Hst. lia.
Qed.

(** [openLog]'s loop computes the supersede rule over the records of the file,
    and never panics. *)
Lemma replay_log_spec fuel base b l off :
  (length b ≤ fuel)%nat → spans l →
  match replay_log fuel base b l off with
  | Ok (l', off') => l' = log_supersede l (records_of b) ∧ off' = off + records_end b ∧
      (starts_at (u64 (base + 1)) l → starts_at (u64 (base + 1)) l')
  | Err _ => True
  | _ => False
  end.
Proof.
  intros Hf Hs. rewrite replay_log_place by done.
  pose proof (place_all_put base l (records_of b) Hs) as Hp.
  destruct (records_canonical b) as [Hwf _]. specialize (Hp Hwf).
  pose proof (place_all_starts base l (records_of b)) as Hst.
  destruct (place_all _ _ _); cbn [mbind outcome_bind]; [|done..]. split_and!; [done|done|]. eauto.
Qed.
