(* ===== verification/RaftFilesLaws.v ===== *)
(** * The files of a node implement the storage contract

    [RaftDiskLaws] holds of the byte-level disk of RaftFiles: what the next
    boot may read is read off the journal of the directory and the durable
    prefixes of the files. *)

From stdpp Require Import prelude gmap strings sorting.
From S2P Require Import Prelude GoBytes GoFS Record RaftTypes Membership RaftLaws RaftFiles.
Open Scope Z_scope.

#[local] Opaque decodeState decodeRaftSnapshot state_bytes raft_snapshot_bytes.

Definition pState (dir : gostring) : path := (dir, stateFileName).
Definition pSnap (dir : gostring) : path := (dir, raftSnapFileName).
Definition pLog (dir : gostring) : path := (dir, logFileName).

(** The file that the disk may come to show at [p]. *)
Definition possible (s : fs) (p : path) (o : option inode) : Prop :=
  ∃ d, prefix_dirs s d ∧ o = (d !! p ≫= λ i, inodes s !! i).

(** What a boot reads of a file. *)
Definition reads_state (ob : option bytes) (t v : Z) : Prop :=
  match ob with
  | None => t = 0 ∧ v = 0
  | Some b => decodeState b = Ok (t, v)
  end.
Definition reads_snap (ob : option bytes) (x : raftSnapshot) : Prop :=
  match ob with
  | None => x = zero_snapshot
  | Some b => decodeRaftSnapshot b = Ok x
  end.
Definition reads_log (o : option inode) (l : list Entry) : Prop :=
  match o with
  | None => l = []
  | Some n => ∃ k, (synced n ≤ k)%nat ∧ l = log_supersede [] (records_of (take k (content n)))
  end.

Definition good_state (ob : option bytes) : Prop := ∃ t v, is_u64 t ∧ is_u64 v ∧ reads_state ob t v.
Definition good_snap (ob : option bytes) : Prop := ∃ x, reads_snap ob x.

Lemma good_state_bytes t v : is_u64 t → is_u64 v → good_state (Some (state_bytes t v)).
Proof. intros Ht Hv. exact (ex_intro _ t (ex_intro _ v (conj Ht (conj Hv (decodeState_bytes t v Ht Hv))))). Qed.

Lemma reads_state_bytes t v t' v' :
  is_u64 t → is_u64 v → reads_state (Some (state_bytes t v)) t' v' → t' = t ∧ v' = v.
Proof.
  intros Ht Hv. cbn [reads_state]. rewrite (decodeState_bytes t v Ht Hv). clear.
  intros H. injection H. auto.
Qed.

(** The snapshot as the next boot reads it: an absent configuration is empty. *)
Definition snapshot_back (x : raftSnapshot) : raftSnapshot :=
  mkSnap (lastIndex x) (lastTerm x) (Some (default ∅ (config x))) (data x).

Lemma good_snap_bytes x : snapshot_wf x → good_snap (Some (raft_snapshot_bytes x)).
Proof. intros Hx. exact (ex_intro _ (snapshot_back x) (decodeRaftSnapshot_bytes x Hx)). Qed.

Lemma reads_snap_bytes x y :
  snapshot_wf x → reads_snap (Some (raft_snapshot_bytes x)) y → y = snapshot_back x.
Proof.
  intros Hx. cbn [reads_snap]. rewrite (decodeRaftSnapshot_bytes x Hx). clear.
  intros H. injection H. auto.
Qed.

Abbreviation altered g i s := (s <| inodes ::= alter g i |>).

Section fs_views.
Context (dir : gostring).

Definition log_names : list path := [pLog dir; tmp_of (pLog dir)].
Definition other_names : list path :=
  [pState dir; tmp_of (pState dir); pSnap dir; tmp_of (pSnap dir)].

(** The state and snapshot files are whole and readable, and share no inode
    with the log. *)
Record files_ok (s : fs) : Prop := {
  fo_wf : fs_wf s;
  fo_state : shows s (pState dir) good_state;
  fo_snap : shows s (pSnap dir) good_snap;
  fo_sep : ∀ i, reach s log_names i → reach s other_names i → False
}.

(** The log file is open as inode [f] and ends at the end of a record. *)
Definition clean (f : nat) (s : fs) : Prop :=
  (∀ d, prefix_dirs s d → d !! pLog dir = Some f) ∧
  ∃ recs k, Forall entry_wf recs ∧ inodes s !! f = Some (mkInode (frames recs) k).

Definition mstate (s : fs) (t v : Z) : Prop :=
  ∃ o, possible s (pState dir) o ∧ reads_state (content <$> o) t v.
Definition msnap (s : fs) (x : raftSnapshot) : Prop :=
  ∃ o, possible s (pSnap dir) o ∧ reads_snap (content <$> o) x.
Definition mlog (s : fs) (l : list Entry) : Prop :=
  ∃ o, possible s (pLog dir) o ∧ reads_log o l.

Lemma possible_names s p : possible s p (names s !! p ≫= λ i, inodes s !! i).
Proof. exists (names s). split; [apply prefix_dirs_names|done]. Qed.

Lemma file_possible s p : file s p = content <$> (names s !! p ≫= λ i, inodes s !! i).
Proof. unfold file. by destruct (names s !! p). Qed.

Lemma shows_possible s p P o : fs_wf s → shows_in s p P → possible s p o → P o.
Proof.
  intros Hwf Hs (d & Hd & ->). specialize (Hs d Hd). destruct (d !! p) as [i|]; [|done].
  simpl. by destruct Hs as (n & -> & ?).
Qed.

Lemma possible_shows s p : fs_wf s → shows_in s p (possible s p).
Proof.
  intros Hwf d Hd. destruct (d !! p) as [i|] eqn:E.
  - destruct (prefix_dirs_range s d p i Hwf Hd E) as [n Hn]. exists n. split; [done|].
    exists d. rewrite E. simpl. done.
  - exists d. by rewrite E.
Qed.

Lemma possible_untouched ps s s' p o :
  fs_wf s → p ∉ ps → untouched ps s s' → possible s' p o → possible s p o.
Proof.
  intros Hwf Hp (Hd & _ & Hi & _) (d' & H' & ->). destruct (Hd d' H') as (d & H & E).
  rewrite E by done. exists d. split; [done|]. destruct (d !! p) as [i|] eqn:Ei; [|done]. simpl.
  destruct (prefix_dirs_range s d p i Hwf H Ei) as [n Hn]. by rewrite Hn, (Hi i n Hn).
Qed.

Lemma reach_untouched ps qs s s' i :
  (∀ q, q ∈ qs → q ∉ ps) → untouched ps s s' → reach s' qs i → reach s qs i.
Proof.
  intros Hq (Hd & _ & _) (d' & q & H' & Hin & Hi). destruct (Hd d' H') as (d & H & E).
  exists d, q. rewrite <-E by auto. done.
Qed.

Lemma reach_inode s ps i : fs_wf s → reach s ps i → is_Some (inodes s !! i).
Proof. intros Hwf (d & q & Hd & _ & Hi). by eapply prefix_dirs_range. Qed.

(** *** The names are distinct *)

Lemma names_distinct : NoDup (log_names ++ other_names).
Proof.
  apply (NoDup_fmap_1 snd). unfold log_names, other_names, pLog, pState, pSnap, tmp_of. simpl.
  refine (bool_decide_eq_true_1 _ _). vm_compute. reflexivity.
Qed.

(** Two names of the directory that differ. *)
Lemma distinct_name a b :
  bool_decide (a ∈ [b; b ++ str ".tmp"]) = false → (dir, a) ∉ [(dir, b); tmp_of (dir, b)].
Proof.
  intros Hd%bool_decide_eq_false_1 Hin. apply Hd. apply (list_elem_of_fmap_2 snd) in Hin. done.
Qed.

(** Replacing the state or the snapshot file. *)
Lemma replace_other p s s' :
  p = pState dir ∨ p = pSnap dir → fs_wf s → untouched [p; tmp_of p] s s' →
  (∀ l, mlog s' l → mlog s l) ∧ (∀ f, clean f s → clean f s') ∧
  ((∀ i, reach s log_names i → reach s other_names i → False) →
   (∀ i, reach s' log_names i → reach s' other_names i → False)).
Proof.
  intros Hp Hwf Hu. pose proof names_distinct as Hnd.
  assert (∀ q, q ∈ log_names → q ∉ [p; tmp_of p]) as Hlog.
  { intros q Hq Hin. apply NoDup_app in Hnd as (_ & Hnd & _). apply (Hnd q Hq).
    unfold other_names. destruct Hp as [-> | ->]; set_solver. }
  assert ([p; tmp_of p] ⊆ other_names) as Hsub.
  { unfold other_names. destruct Hp as [-> | ->]; set_solver. }
  split_and!.
  - intros l (o & Ho & Hr). exists o. split; [|done].
    eapply possible_untouched; [done| |done|done]. apply Hlog. left.
  - intros f (Hd & recs & k & Hrecs & Hi). pose proof Hu as (Hd' & _ & Hin & _). split; [|by eauto 10].
    intros d H'. destruct (Hd' d H') as (d0 & H0 & E). rewrite E; [by apply Hd|]. apply Hlog. left.
  - intros Hsep i Hl Ho. apply (reach_untouched [p; tmp_of p] log_names s s') in Hl; [|done|done].
    destruct (untouched_weaken _ _ _ _ Hsub Hu) as (_ & _ & _ & Hr).
    destruct (Hr i Ho) as [Hn|?]; [|by eapply Hsep].
    destruct (reach_inode s _ i Hwf Hl) as [? ?]. congruence.
Qed.
(** ** Replacing the state and the snapshot *)

Lemma replace_file_spec p good data s :
  fs_wf s → shows s p good → good (Some data) →
  wp (WriteFileAtomic p data) (λ o s',
    fs_wf s' ∧ untouched [p; tmp_of p] s s' ∧ shows s' p good ∧
    match o with
    | Ok _ => ∀ o', possible s' p o' → content <$> o' = Some data
    | Err _ | Crash => ∀ o', possible s' p o' → possible s p o' ∨ content <$> o' = Some data
    | Panic => False
    end) s.
Proof.
  intros Hwf Hs Hg. set (P := λ o, possible s p o ∧ durably good o).
  assert (shows_in s p P) as HP.
  { intros d Hd. pose proof (Hs d Hd) as H1. pose proof (possible_shows s p Hwf d Hd) as H2.
    destruct (d !! p) as [i|]; [|by split]. destruct H1 as (n & Hn & ?), H2 as (n' & Hn' & ?).
    rewrite Hn in Hn'. injection Hn' as <-. by exists n. }
  eapply wp_mono; [by apply (WriteFileAtomic_spec p P)|].
  intros o s' (Hwf' & Hu & _ & Ho). split; [done|]. split; [done|].
  assert (∀ o, P o ∨ o = new_file data → durably good o) as Hdur.
  { intros o' [[_ ?]| ->]; [done|]. by split. }
  assert (shows_in s' p (λ o, P o ∨ o = new_file data) → shows s' p good ∧
    ∀ o', possible s' p o' → possible s p o' ∨ content <$> o' = Some data) as Hfail.
  { intros Hin. split; [exact (shows_in_mono _ _ _ _ Hdur Hin)|]. intros o' Hpo.
    destruct (shows_possible s' p _ o' Hwf' Hin Hpo) as [[? _]| ->]; auto. }
  destruct o as [[]|e| |]; [|by apply Hfail, Ho|done|by apply Hfail].
  destruct Ho as [Hst _]. split; [eapply shows_mono; [|done]; by intros ? ->|].
  intros o' Hpo. pose proof (shows_possible s' p _ o' Hwf' Hst Hpo) as Hd.
  destruct o' as [n|]; simpl in *; naive_solver.
Qed.

Definition other_kept (s s' : fs) : Prop :=
  files_ok s' ∧ (∀ f, clean f s → clean f s') ∧ (∀ l, mlog s' l → mlog s l).

Lemma saveTermAndVote_spec t v s :
  files_ok s → is_u64 t → is_u64 v →
  wp (saveTermAndVote dir t v) (λ o s',
    other_kept s s' ∧ (∀ x, msnap s' x → msnap s x) ∧
    match o with
    | Ok _ => ∀ t' v', mstate s' t' v' → t' = t ∧ v' = v
    | Err _ | Crash => ∀ t' v', mstate s' t' v' → mstate s t' v' ∨ (t' = t ∧ v' = v)
    | Panic => False
    end) s.
Proof.
  intros [Hwf Hst Hsn Hsep] Ht Hv.
  eapply wp_mono; [apply (replace_file_spec (pState dir) good_state); [done|done|by apply good_state_bytes]|].
  intros o s' (Hwf' & Hu & Hst' & Ho).
  destruct (replace_other (pState dir) s s') as (Hlog & Hcl & Hsep'); [by left|done|done|].
  assert (pSnap dir ∉ [pState dir; tmp_of (pState dir)]) as Hne.
  { apply distinct_name; by vm_compute. }
  split; [|split].
  - split; [|by split]. split; [done|done| |by apply Hsep'].
    by eapply (shows_untouched [pState dir; tmp_of (pState dir)]).
  - intros x (o' & Hp & Hr). exists o'. split; [|done]. by eapply possible_untouched.
  - assert (∀ o' t' v', content <$> o' = Some (state_bytes t v) →
      reads_state (content <$> o') t' v' → t' = t ∧ v' = v) as Hnew.
    { intros o' t' v' ->. by apply reads_state_bytes. }
    destruct o as [[]|e| |]; [..|done|].
    + intros t' v' (o' & Hp & Hr). by eapply Hnew; [apply Ho|].
    + intros t' v' (o' & Hp & Hr). destruct (Ho o' Hp); [left; by exists o'|right; by eapply Hnew].
    + intros t' v' (o' & Hp & Hr). destruct (Ho o' Hp); [left; by exists o'|right; by eapply Hnew].
Qed.

Lemma persistRaftSnapshot_spec x s :
  files_ok s → snapshot_wf x →
  wp (persistRaftSnapshot dir x) (λ o s',
    other_kept s s' ∧ (∀ t v, mstate s' t v → mstate s t v) ∧
    match o with
    | Ok _ => ∀ y, msnap s' y → y = snapshot_back x
    | Err _ | Crash => ∀ y, msnap s' y → msnap s y ∨ y = snapshot_back x
    | Panic => False
    end) s.
Proof.
  intros [Hwf Hst Hsn Hsep] Hx.
  eapply wp_mono; [apply (replace_file_spec (pSnap dir) good_snap); [done|done|by apply good_snap_bytes]|].
  intros o s' (Hwf' & Hu & Hsn' & Ho).
  destruct (replace_other (pSnap dir) s s') as (Hlog & Hcl & Hsep'); [by right|done|done|].
  assert (pState dir ∉ [pSnap dir; tmp_of (pSnap dir)]) as Hne.
  { apply distinct_name; by vm_compute. }
  split; [|split].
  - split; [|by split]. split; [done| |done|by apply Hsep'].
    by eapply (shows_untouched [pSnap dir; tmp_of (pSnap dir)]).
  - intros t v (o' & Hp & Hr). exists o'. split; [|done]. by eapply possible_untouched.
  - assert (∀ o' y, content <$> o' = Some (raft_snapshot_bytes x) →
      reads_snap (content <$> o') y → y = snapshot_back x) as Hnew.
    { intros o' y ->. by apply reads_snap_bytes. }
    destruct o as [[]|e| |]; [..|done|].
    + intros y (o' & Hp & Hr). by eapply Hnew; [apply Ho|].
    + intros y (o' & Hp & Hr). destruct (Ho o' Hp); [left; by exists o'|right; by eapply Hnew].
    + intros y (o' & Hp & Hr). destruct (Ho o' Hp); [left; by exists o'|right; by eapply Hnew].
Qed.

(** ** Writing to the log file *)

(** A step of the log leaves the state and the snapshot file alone. *)
Record log_step (s s' : fs) : Prop := {
  st_ok : files_ok s';
  st_state : ∀ t v, mstate s' t v → mstate s t v;
  st_snap : ∀ x, msnap s' x → msnap s x;
  st_now : file s' (pState dir) = file s (pState dir)
}.

Lemma log_step_trans s1 s2 s3 : log_step s1 s2 → log_step s2 s3 → log_step s1 s3.
Proof. intros [] []. split; auto. congruence. Qed.

Lemma log_step_faults s r : files_ok s → log_step s (s <| faults := r |>).
Proof. intros [? ? ? ?]. by split; [split; [apply fs_wf_faults|..]|..]. Qed.

Lemma reach_log s d i : prefix_dirs s d → d !! pLog dir = Some i → reach s log_names i.
Proof. intros. exists d, (pLog dir). split_and!; [done|left|done]. Qed.

Lemma reach_other s d q i : prefix_dirs s d → q ∈ other_names → d !! q = Some i → reach s other_names i.
Proof. intros. by exists d, q. Qed.

Lemma log_step_alter g i s :
  files_ok s → fs_wf (altered g i s) → reach s log_names i → log_step s (altered g i s).
Proof.
  intros [Hwf Hst Hsn Hsep] Hwf' Hi.
  assert (∀ d q, prefix_dirs s d → q ∈ other_names → d !! q ≫= (λ j, inodes (altered g i s) !! j) =
    d !! q ≫= λ j, inodes s !! j) as Heq.
  { intros d q Hd Hq. destruct (d !! q) as [j|] eqn:E; [|done]. cbn.
    rewrite lookup_alter_ne; [done|]. intros ->. eapply Hsep; [done|by eapply reach_other]. }
  assert (∀ q P, q ∈ other_names → shows s q P → shows (altered g i s) q P) as Hsh.
  { intros q P Hq Hs d Hd. specialize (Hs d Hd). specialize (Heq d q Hd Hq).
    destruct (d !! q) as [j|]; [|done]. destruct Hs as (n & Hn & ?). exists n. split; [|done].
    by etrans; [exact Heq|]. }
  assert (∀ q o, q ∈ other_names → possible (altered g i s) q o → possible s q o) as Hpo.
  { intros q o Hq (d & Hd & ->). exists d. split; [done|]. by apply Heq. }
  assert (pState dir ∈ other_names) as H1 by left.
  assert (pSnap dir ∈ other_names) as H2 by (do 2 right; left).
  split; [split; auto| | |].
  - intros t v (o & ? & ?). exists o. auto.
  - intros x (o & ? & ?). exists o. auto.
  - rewrite !file_possible. f_equal. exact (Heq (names s) (pState dir) (prefix_dirs_names s) H1).
Qed.

Lemma log_step_untouched s s' :
  files_ok s → fs_wf s' → untouched log_names s s' → log_step s s'.
Proof.
  intros [Hwf Hst Hsn Hsep] Hwf' Hu. pose proof names_distinct as Hnd.
  assert (∀ q, q ∈ other_names → q ∉ log_names) as Hq.
  { intros q Hq Hin. apply NoDup_app in Hnd as (_ & Hnd & _). exact (Hnd q Hin Hq). }
  assert (pState dir ∈ other_names) as H1 by left.
  assert (pSnap dir ∈ other_names) as H2 by (do 2 right; left).
  pose proof Hu as (_ & Hn & Hi & Hr). split; [split|..].
  - done.
  - eapply (shows_untouched log_names); [by apply Hq|done|done].
  - eapply (shows_untouched log_names); [by apply Hq|done|done].
  - intros i Hl Ho. apply (reach_untouched log_names other_names s s') in Ho; [|done|done].
    destruct (Hr i Hl) as [Hnone|?]; [|by eapply Hsep].
    destruct (reach_inode s _ i Hwf Ho) as [? ?]. congruence.
  - intros t v (o & Hp & ?). exists o. split; [|done]. eapply possible_untouched; [done| |done|done].
    by apply Hq.
  - intros x (o & Hp & ?). exists o. split; [|done]. eapply possible_untouched; [done| |done|done].
    by apply Hq.
  - rewrite !file_possible, Hn by (by apply Hq).
    destruct (names s !! pState dir) as [i|] eqn:E; [|done]. simpl.
    destruct (names_range s _ i Hwf E) as [n Hin]. by rewrite Hin, (Hi i n Hin).
Qed.

(** The log file with all its records written, [synced] or not. *)
Definition holds (f : nat) (recs : list Entry) (s : fs) : Prop :=
  (∀ d, prefix_dirs s d → d !! pLog dir = Some f) ∧ Forall entry_wf recs ∧
  ∃ k, inodes s !! f = Some (mkInode (frames recs) k).

Lemma clean_holds f s : clean f s ↔ ∃ recs, holds f recs s.
Proof. unfold clean, holds. naive_solver. Qed.

Lemma holds_reach f recs s : holds f recs s → reach s log_names f.
Proof. intros (Hd & _). exact (reach_log s (names s) f (prefix_dirs_names s) (Hd _ (prefix_dirs_names s))). Qed.

Lemma holds_mlog f recs s : fs_wf s → holds f recs s → mlog s (log_supersede [] recs).
Proof.
  intros Hwf (Hd & Hr & k & Hi). exists (Some (mkInode (frames recs) k)). split.
  - exists (names s). split; [apply prefix_dirs_names|]. rewrite (Hd _ (prefix_dirs_names s)). by simpl.
  - exists (length (frames recs)). split; [exact (wf_synced s Hwf f _ Hi)|]. cbn [content].
    rewrite firstn_all. destruct (records_frames recs [] Hr) as [Hrec _].
    rewrite !app_nil_r in Hrec. by rewrite Hrec.
Qed.

Lemma mlog_inode f s n l :
  (∀ d, prefix_dirs s d → d !! pLog dir = Some f) → inodes s !! f = Some n →
  mlog s l ↔ reads_log (Some n) l.
Proof.
  intros Hd Hn. split.
  - intros (o & (d & Hpd & ->) & Hr). rewrite (Hd d Hpd) in Hr. simpl in Hr. by rewrite Hn in Hr.
  - intros Hr. exists (Some n). split; [|done]. exists (names s). split; [apply prefix_dirs_names|].
    by rewrite (Hd _ (prefix_dirs_names s)).
Qed.

(** Writing a batch, or a part of it, after the records of the file. *)
Lemma log_write f recs es b s :
  files_ok s → holds f recs s → Forall entry_wf es → b `prefix_of` frames es →
  log_step s (write_inode f b s) ∧
  (∀ l', mlog (write_inode f b s) l' → ∃ l n, mlog s l ∧ l' = log_supersede l (take n es)) ∧
  (b = frames es → holds f (recs ++ es) (write_inode f b s)).
Proof.
  intros Hok Hh Hes Hb. pose proof (fo_wf s Hok) as Hwf. pose proof (holds_mlog _ _ _ Hwf Hh) as Hm.
  split; [apply log_step_alter; [done|by apply fs_wf_write|by eapply holds_reach]|].
  destruct Hh as (Hd & Hr & k & Hi).
  assert (inodes (write_inode f b s) !! f = Some (mkInode (frames recs ++ b) k)) as Hi'.
  { cbn. by rewrite lookup_alter_eq, Hi. }
  split.
  - intros l' Hl'. apply (mlog_inode f (write_inode f b s) _ l' Hd Hi') in Hl' as (j & Hj & ->). cbn [synced content] in *.
    destruct (decide (j ≤ length (frames recs))%nat) as [Hle|Hgt].
    + rewrite take_app_le by done. eexists _, 0%nat. split; [|reflexivity].
      eapply mlog_inode; [done|done|]. by exists j.
    + rewrite take_app_ge by lia.
      destruct (records_torn es (take (j - length (frames recs)) b)) as [m Hm']; [done| |].
      { etrans; [|done]. exists (drop (j - length (frames recs)) b). by rewrite take_drop. }
      destruct (records_frames recs (take (j - length (frames recs)) b) Hr) as [-> _].
      rewrite Hm'. exists (log_supersede [] recs), m. split; [done|]. apply foldl_app.
  - intros ->. split; [done|]. split; [by apply Forall_app_2|]. exists k. by rewrite frames_app.
Qed.

(** Syncing it. *)
Lemma log_fsync f recs s :
  files_ok s → holds f recs s →
  let s' := altered (λ n, mkInode (content n) (length (content n))) f s in
  log_step s s' ∧ holds f recs s' ∧ ∀ l', mlog s' l' → l' = log_supersede [] recs.
Proof.
  intros Hok Hh s'. pose proof (fo_wf s Hok) as Hwf.
  split; [apply log_step_alter; [done|by apply fs_wf_sync|by eapply holds_reach]|].
  destruct Hh as (Hd & Hr & k & Hi).
  assert (inodes s' !! f = Some (mkInode (frames recs) (length (frames recs)))) as Hi'.
  { unfold s'. cbn. by rewrite lookup_alter_eq, Hi. }
  split; [split; [done|split; [done|by eexists]]|].
  intros l' Hl'. apply (mlog_inode f s' _ l' Hd Hi') in Hl' as (j & Hj & ->). cbn [synced content] in *.
  rewrite take_ge by done. destruct (records_frames recs [] Hr) as [Hrec _].
  rewrite !app_nil_r in Hrec. by rewrite Hrec.
Qed.
End fs_views.

(** ** The operations of a node's disk *)

Abbreviation ddirof d := (ls_dir (store d)).
Definition rd_wf (d : raftdisk) : Prop := files_ok (ddirof d) (rfs d).
Definition rd_open (d : raftdisk) : Prop :=
  rd_wf d ∧ (ls_failed (store d) = false → clean (ddirof d) (ls_f (store d)) (rfs d)).
Definition rd_state (d : raftdisk) : Z → Z → Prop := mstate (ddirof d) (rfs d).
Definition rd_log (d : raftdisk) : list Entry → Prop := mlog (ddirof d) (rfs d).
Definition rd_snap (d : raftdisk) : raftSnapshot → Prop := msnap (ddirof d) (rfs d).
Definition rd_now (d : raftdisk) : Z → Z → Prop :=
  reads_state (file (rfs d) (pState (ddirof d))).

(** The disk the next process finds: a crash of the machine keeps what
    [GoFS.crash] keeps; a crash of the process alone keeps everything. *)
Definition rd_reboot (d d' : raftdisk) : Prop :=
  ddirof d' = ddirof d ∧ (crash (rfs d) (rfs d') ∨ ∃ r, rfs d' = (rfs d) <| faults := r |>).

(** What a step of the log leaves alone. *)
Definition rd_step (d d' : raftdisk) : Prop :=
  ddirof d' = ddirof d ∧ log_step (ddirof d) (rfs d) (rfs d').

Lemma rd_step_laws d d' :
  rd_step d d' →
  rd_wf d' ∧ (∀ t v, rd_state d' t v → rd_state d t v) ∧ (∀ x, rd_snap d' x → rd_snap d x).
Proof. unfold rd_wf, rd_state, rd_snap. intros [-> []]. done. Qed.

Definition append_post (es : list Entry) (d : raftdisk) (o : outcome ()) (d' : raftdisk) : Prop :=
  rd_step d d' ∧ (o ≠ Crash → rd_open d') ∧
  match o with
  | Ok _ => ∀ l', rd_log d' l' → ∃ l, rd_log d l ∧ l' = log_supersede l es
  | Err _ | Crash => ∀ l', rd_log d' l' → ∃ l n, rd_log d l ∧ l' = log_supersede l (take n es)
  | Panic => False
  end.

(** A write that fails part of the way. *)
Lemma append_failed es d s' :
  log_step (ddirof d) (rfs d) s' →
  (∀ l', mlog (ddirof d) s' l' → ∃ l n, rd_log d l ∧ l' = log_supersede l (take n es)) →
  (∀ e, wp (fail_log e) (append_post es d) (d <| rfs := s' |>)) ∧
  append_post es d Crash (d <| rfs := s' |>).
Proof.
  intros Hst Hl. split; [intros e; apply wp_bind, wp_modify; cbn [wpk]; apply wp_throw|].
  - split; [by split|]. split; [|done]. intros _. split; [apply Hst|done].
  - split; [by split|]. by split.
Qed.

Lemma append_spec es d : rd_open d → Forall entry_wf es → wp (append es) (append_post es d) d.
Proof.
  intros Hopen Hes. pose proof Hopen as [Hok Hcl]. unfold append. apply wp_bind, wp_gets. cbn [wpk].
  assert (rd_step d d) as Hrefl.
  { split; [done|]. destruct (log_step_faults _ _ (faults (rfs d)) Hok). by split. }
  destruct (ls_failed (store d)) eqn:Hf.
  { apply wp_throw. split; [done|]. split; [done|]. intros l' Hl'. by exists l', 0%nat. }
  specialize (Hcl eq_refl). apply clean_holds in Hcl as [recs Hh].
  destruct es as [|e es0]; [apply wp_ret|]. 2: set (es := e :: es0) in *.
  { split; [done|]. split; [done|]. eauto. }
  destruct (contiguous_from e es0); cbn [negb].
  2:{ apply wp_throw. split; [done|]. split; [done|].
      intros l' Hl'. by exists l', 0%nat. }
  assert (∀ b r, b `prefix_of` frames es →
    let s' := write_inode (ls_f (store d)) b ((rfs d) <| faults := r |>) in
    log_step (ddirof d) (rfs d) s' ∧
    (∀ l', mlog (ddirof d) s' l' → ∃ l n, rd_log d l ∧ l' = log_supersede l (take n es)) ∧
    (b = frames es → holds (ddirof d) (ls_f (store d)) (recs ++ es) s')) as Hw.
  { intros b r Hb. pose proof (log_step_faults (ddirof d) (rfs d) r Hok) as Hst.
    destruct (log_write (ddirof d) (ls_f (store d)) recs es b ((rfs d) <| faults := r |>))
      as (? & ? & ?); [by destruct Hst|done|done|done|].
    split; [by eapply log_step_trans|done]. }
  assert (∀ k, take k (frames es) `prefix_of` frames es) as Hpre.
  { intros k. exists (drop k (frames es)). by rewrite take_drop. }
  apply wp_bind, wp_attempt, wp_zoom, wp_sys.
  2:{ intros k r _. cbn [wpk]. destruct (Hw _ r (Hpre k)) as (? & ? & _). by apply append_failed. }
  2:{ intros k r _. cbn [wpk]. destruct (Hw _ r (Hpre k)) as (? & ? & _). by apply append_failed. }
  intros r _. unfold wp at 1. cbn [fst snd wpk].
  destruct (Hw (frames es) r) as (Hst & Hlog & Hh'); [done|]. specialize (Hh' eq_refl).
  set (s1 := write_inode _ _ _) in *. clearbody s1. clear Hw.
  assert (∀ r', log_step (ddirof d) (rfs d) (s1 <| faults := r' |>)) as Hst'.
  { intros r'. eapply log_step_trans; [exact Hst|]. by apply log_step_faults, Hst. }
  apply wp_bind, wp_attempt, wp_zoom, wp_sys.
  2:{ intros k r' _. exact (proj1 (append_failed es d (s1 <| faults := r' |>) (Hst' r') Hlog) EIO). }
  2:{ intros k r' _. exact (proj2 (append_failed es d (s1 <| faults := r' |>) (Hst' r') Hlog)). }
  intros r' _. unfold wp at 1. cbn [fst snd wpk]. apply wp_ret.
  destruct (log_fsync (ddirof d) (ls_f (store d)) (recs ++ es) (s1 <| faults := r' |>))
    as (Hst2 & Hh2 & Hl2); [apply Hst'|done|].
  split; [split; [done|exact (log_step_trans _ _ _ _ (Hst' r') Hst2)]|]. split.
  - intros _. split; [exact (st_ok _ _ _ Hst2)|]. intros _. apply clean_holds. eauto.
  - intros l' Hl'. apply Hl2 in Hl'. exists (log_supersede [] recs).
    split; [by eapply holds_mlog; [apply (fo_wf _ _ Hok)|]|]. rewrite Hl'. apply foldl_app.
Qed.

Definition rewrite_post (es : list Entry) (d : raftdisk) (o : outcome ()) (d' : raftdisk) : Prop :=
  rd_step d d' ∧ (o ≠ Crash → rd_open d') ∧
  match o with
  | Ok _ => ∀ l', rd_log d' l' → l' = log_supersede [] es
  | Err _ | Crash => ∀ l', rd_log d' l' → rd_log d l' ∨ l' = log_supersede [] es
  | Panic => False
  end.

Lemma rewrite_failed es d s' :
  log_step (ddirof d) (rfs d) s' →
  (∀ l', mlog (ddirof d) s' l' → rd_log d l' ∨ l' = log_supersede [] es) →
  (∀ e, wp (fail_log e) (rewrite_post es d) (d <| rfs := s' |>)) ∧
  rewrite_post es d Crash (d <| rfs := s' |>).
Proof.
  intros Hst Hl. split; [intros e; apply wp_bind, wp_modify; cbn [wpk]; apply wp_throw|].
  - split; [by split|]. split; [|done]. intros _. split; [apply Hst|done].
  - split; [by split|]. by split.
Qed.

(** A whole log file, all of it durable. *)
Lemma reads_log_new es l :
  Forall entry_wf es → reads_log (new_file (frames es)) l → l = log_supersede [] es.
Proof.
  intros Hes (k & Hk & ->). cbn [content synced] in *. rewrite take_ge by done.
  destruct (records_frames es [] Hes) as [Hr _]. rewrite !app_nil_r in Hr. by rewrite Hr.
Qed.

(** Replacing the log file. *)
Lemma replace_log_spec dir es s :
  files_ok dir s → Forall entry_wf es →
  wp (WriteFileAtomic (pLog dir) (frames es)) (λ o s',
    log_step dir s s' ∧
    match o with
    | Ok _ => (∀ l', mlog dir s' l' → l' = log_supersede [] es) ∧
        ∃ f, names s' !! pLog dir = Some f ∧ clean dir f s'
    | Err _ | Crash => ∀ l', mlog dir s' l' → mlog dir s l' ∨ l' = log_supersede [] es
    | Panic => False
    end) s.
Proof.
  intros Hok Hes. pose proof (fo_wf _ s Hok) as Hwf.
  eapply wp_mono; [apply (WriteFileAtomic_spec (pLog dir) (possible s (pLog dir)));
    [done|by apply possible_shows]|].
  intros o s' (Hwf' & Hu & _ & Ho). split; [by apply log_step_untouched|].
  assert (shows_in s' (pLog dir) (λ o, possible s (pLog dir) o ∨ o = new_file (frames es)) →
    ∀ l', mlog dir s' l' → mlog dir s l' ∨ l' = log_supersede [] es) as Hfail.
  { intros Hin l' (o' & Hp & Hr). destruct (shows_possible s' _ _ o' Hwf' Hin Hp) as [?| ->].
    - left. by exists o'.
    - right. by apply reads_log_new. }
  destruct o as [[]|e| |]; [|by apply Hfail, Ho|done|by apply Hfail].
  destruct Ho as [Hst Hpe]. split.
  - intros l' (o' & Hp & Hr). pose proof (shows_possible s' _ _ o' Hwf' Hst Hp) as Hd.
    apply reads_log_new; [done|]. destruct o' as [[c k]|]; simpl in Hd; [|done].
    destruct Hd as [-> [= ->]]. done.
  - pose proof (Hst _ (prefix_dirs_names s')) as Hn.
    destruct (names s' !! pLog dir) as [f|] eqn:Hf; [|done]. exists f. split; [done|].
    destruct Hn as ([c k] & Hi & _ & [= ->]). split; [|by eauto].
    intros d Hd. assert (d = names s') as ->; [|done].
    rewrite (prefix_dirs_synced s' d Hpe Hd). unfold names. by rewrite Hpe.
Qed.

Lemma rewrite_spec es d : rd_open d → Forall entry_wf es → wp (rewrite_log es) (rewrite_post es d) d.
Proof.
  intros Hopen Hes. pose proof Hopen as [Hok _]. unfold rewrite_log. apply wp_bind, wp_gets. cbn [wpk].
  assert (∀ r, log_step (ddirof d) (rfs d) ((rfs d) <| faults := r |>)) as Hr.
  { intros r. by apply log_step_faults. }
  destruct (ls_failed (store d)).
  { apply wp_throw. split; [split; [done|]|by auto]. destruct (Hr (faults (rfs d))). by split. }
  apply wp_bind, wp_attempt, wp_zoom, wp_sys.
  2:{ intros k r _. apply (proj1 (rewrite_failed es d _ (Hr r) (λ l' H, or_introl H)) EIO). }
  2:{ intros k r _. apply (proj2 (rewrite_failed es d _ (Hr r) (λ l' H, or_introl H))). }
  intros r _. unfold wp at 1. cbn [fst snd wpk]. specialize (Hr r).
  set (s0 := (rfs d) <| faults := r |>) in *.
  apply wp_bind, wp_attempt, wp_zoom.
  eapply wp_mono; [apply (replace_log_spec (ddirof d) es s0); [apply Hr|done]|].
  intros o s1 [Hst Ho]. pose proof (log_step_trans _ _ _ _ Hr Hst) as Hst1.
  destruct o as [[]|e| |]; cbn [wpk].
  2:{ apply (proj1 (rewrite_failed es d s1 Hst1 Ho) e). }
  2:{ done. }
  2:{ apply (proj2 (rewrite_failed es d s1 Hst1 Ho)). }
  destruct Ho as [Hnew (f & Hf & Hcl)].
  assert (∀ r', log_step (ddirof d) (rfs d) (s1 <| faults := r' |>)) as Hst2.
  { intros r'. eapply log_step_trans; [exact Hst1|]. apply log_step_faults, Hst1. }
  apply wp_bind, wp_attempt, wp_zoom, wp_sys.
  2:{ intros k r' _. apply (proj1 (rewrite_failed es d _ (Hst2 r') (λ l' H, or_intror (Hnew l' H))) EIO). }
  2:{ intros k r' _. apply (proj2 (rewrite_failed es d _ (Hst2 r') (λ l' H, or_intror (Hnew l' H)))). }
  intros r' _. unfold wp at 1. change (names _ !! _) with (names s1 !! pLog (ddirof d)). rewrite Hf.
  cbn [fst snd wpk]. apply wp_modify. split; [split; [done|exact (Hst2 r')]|].
  split; [|exact Hnew]. intros _. split; [exact (st_ok _ _ _ (Hst2 r'))|]. intros _. exact Hcl.
Qed.

(** ** Reading the files at boot *)

(** A read changes nothing. *)
Lemma ReadFile_spec p s :
  wp (ReadFile p) (λ o s', (∃ r, s' = s <| faults := r |>) ∧
    match o with
    | Ok b => file s p = Some b
    | Err ENotExist => file s p = None
    | Err EIO | Crash => True
    | _ => False
    end) s.
Proof.
  apply wp_sys; [|by eauto..]. intros r _. unfold wp.
  change (file (s <| faults := r |>) p) with (file s p).
  destruct (file s p); cbn; eauto.
Qed.

Lemma shows_now dir s : files_ok dir s → good_state (file s (pState dir)) ∧ good_snap (file s (pSnap dir)).
Proof. intros [? ? ? ?]. split; by apply shows_file. Qed.

Lemma reads_state_fun ob t v t' v' : reads_state ob t v → reads_state ob t' v' → t = t' ∧ v = v'.
Proof. destruct ob; simpl; [|naive_solver]. intros ->. intros [=]. auto. Qed.

Lemma loadTermAndVote_spec dir s :
  files_ok dir s →
  wp (loadTermAndVote dir) (λ o s', (∃ r, s' = s <| faults := r |>) ∧
    match o with
    | Ok (t, v) => reads_state (file s (pState dir)) t v ∧ is_u64 t ∧ is_u64 v
    | Err _ | Crash => True
    | Panic => False
    end) s.
Proof.
  intros Hok. destruct (shows_now dir s Hok) as [(t & v & Ht & Hv & Hr) _].
  unfold loadTermAndVote. apply wp_bind, wp_attempt. eapply wp_mono; [apply ReadFile_spec|].
  intros o s' [Hs Ho]. change (dir, stateFileName) with (pState dir) in Ho.
  destruct o as [b|e| |]; cbn [wpk]; [| |done|done].
  - rewrite Ho in Hr. simpl in Hr. apply wp_lift. rewrite Hr, Ho. split; [done|]. split; [exact Hr|done].
  - destruct e; try done; (split; [done|]). rewrite Ho. done.
Qed.

Lemma loadRaftSnapshot_spec dir s :
  files_ok dir s →
  wp (loadRaftSnapshot dir) (λ o s', (∃ r, s' = s <| faults := r |>) ∧
    match o with
    | Ok x => reads_snap (file s (pSnap dir)) x
    | Err _ | Crash => True
    | Panic => False
    end) s.
Proof.
  intros Hok. destruct (shows_now dir s Hok) as [_ (x & Hr)].
  unfold loadRaftSnapshot. apply wp_bind, wp_attempt. eapply wp_mono; [apply ReadFile_spec|].
  intros o s' [Hs Ho]. change (dir, raftSnapFileName) with (pSnap dir) in Ho.
  destruct o as [b|e| |]; cbn [wpk]; [| |done|done].
  - rewrite Ho in Hr. simpl in Hr. apply wp_lift. rewrite Hr, Ho. split; [done|]. exact Hr.
  - destruct e; try done; (split; [done|]). rewrite Ho. done.
Qed.

(** ** Opening the log *)

Lemma fs_wf_alter g i s :
  (∀ n, synced n ≤ length (content n) → synced (g n) ≤ length (content (g n)))%nat →
  fs_wf s → fs_wf (altered g i s).
Proof.
  intros Hg [Hd Hp Hs]. split; cbn.
  - intros p j Hj. apply lookup_alter_is_Some. eauto.
  - intros p j Hj. apply lookup_alter_is_Some. eauto.
  - intros j m. rewrite lookup_alter. case_decide; [|eauto]. subst j.
    destruct (inodes s !! i) eqn:E; intros [= <-]; eauto.
Qed.

(** The inode at the end of a boot: the records that were read, and no more. *)
Definition boot_step (dir : gostring) (s s' : fs) : Prop :=
  log_step dir s s' ∧ ∀ l, mlog dir s' l → mlog dir s l.

Lemma boot_step_trans dir s1 s2 s3 : boot_step dir s1 s2 → boot_step dir s2 s3 → boot_step dir s1 s3.
Proof. intros [? ?] [? ?]. split; [by eapply log_step_trans|auto]. Qed.

Lemma boot_step_faults dir s r : files_ok dir s → boot_step dir s (s <| faults := r |>).
Proof. intros. split; [by apply log_step_faults|done]. Qed.

(** Truncating the torn tail. *)
Lemma boot_truncate dir i n s :
  files_ok dir s → names s !! pLog dir = Some i → inodes s !! i = Some n →
  let cut f := mkInode (ztake (records_end (content n)) (content f))
                       (synced f `min` Z.to_nat (records_end (content n))) in
  boot_step dir s (altered cut i s) ∧
  ∃ k, inodes (altered cut i s) !! i = Some (mkInode (frames (records_of (content n))) k).
Proof.
  intros Hok Hnm Hi cut. destruct (records_canonical (content n)) as (Hwf & Hend & Hpre).
  set (off := length (frames (records_of (content n)))).
  assert (Z.to_nat (records_end (content n)) = off) as Hoff by lia.
  assert (take off (content n) = frames (records_of (content n))) as Hcut.
  { symmetry. by apply prefix_take. }
  assert (cut n = mkInode (frames (records_of (content n))) (synced n `min` off)) as Hn.
  { unfold cut, ztake. by rewrite Hoff, Hcut. }
  assert (inodes (altered cut i s) !! i = Some (cut n)) as Hi'.
  { cbn. by rewrite lookup_alter_eq, Hi. }
  split; [split|rewrite Hi', Hn; eauto].
  { apply log_step_alter; [done| |eapply reach_log; [apply prefix_dirs_names|done]].
    apply fs_wf_alter; [|by destruct Hok]. intros m Hm. cbn. unfold ztake. rewrite length_take. lia. }
  intros l (o & (d & Hd & ->) & Hr). change (prefix_dirs s d) in Hd.
  destruct (d !! pLog dir) as [j|] eqn:Hj.
  2:{ exists None. split; [|done]. exists d. by rewrite Hj. }
  destruct (decide (j = i)) as [->|Hne].
  2:{ simpl in Hr. rewrite lookup_alter_ne in Hr by done. eexists. split; [|exact Hr]. exists d. by rewrite Hj. }
  cbn [mbind option_bind] in Hr. rewrite Hi', Hn in Hr. destruct Hr as (k & Hk & ->).
  cbn [content synced] in *. exists (Some n). split; [exists d; rewrite Hj; by simpl|].
  destruct (decide (k < off)%nat) as [Hlt|Hge].
  - exists k. split; [lia|]. rewrite <-Hcut, take_take. by rewrite Nat.min_l by lia.
  - exists (synced n `max` length (content n))%nat. split; [lia|].
    rewrite take_ge by (fold off; lia). rewrite take_ge by lia.
    destruct (records_frames _ [] Hwf) as [Hf _]. rewrite !app_nil_r in Hf. by rewrite Hf.
Qed.

(** Creating an empty log. *)
Lemma boot_create dir s :
  files_ok dir s → names s !! pLog dir = None →
  boot_step dir s (create_inode (pLog dir) s).
Proof.
  intros Hok Hnone. pose proof (untouched_create (pLog dir) s) as Hu. split.
  { apply log_step_untouched; [done|by apply fs_wf_create, Hok|].
    eapply untouched_weaken; [|exact Hu]. set_solver. }
  intros l (o & (d & Hd & ->) & Hr). apply prefix_dirs_journal in Hd as [Hd| ->].
  - change (prefix_dirs s d) in Hd. exists (d !! pLog dir ≫= λ i, inodes s !! i).
    split; [by exists d|]. destruct (d !! pLog dir) as [j|] eqn:Hj; [|done]. simpl in *.
    destruct (prefix_dirs_range s d _ j (fo_wf _ _ Hok) Hd Hj) as [n Hn].
    rewrite lookup_insert_ne in Hr; [done|]. intros <-. by rewrite new_inode_fresh in Hn.
  - exists None. split; [exists (names s); split; [apply prefix_dirs_names|by rewrite Hnone]|].
    cbn in Hr. rewrite lookup_insert_eq in Hr. cbn in Hr. rewrite lookup_insert_eq in Hr.
    destruct Hr as (k & _ & ->). cbn. by rewrite take_nil.
Qed.

(** Syncing the directory settles the names. *)
Lemma boot_fsync dir s :
  files_ok dir s →
  let s' := s <| ddir := names s |> <| pend := [] |> in
  boot_step dir s s' ∧ (∀ t v, mstate dir s' t v → reads_state (file s (pState dir)) t v) ∧
  ∀ d, prefix_dirs s' d → d = names s.
Proof.
  intros Hok s'. assert (∀ d, prefix_dirs s' d → d = names s) as Hd.
  { intros d Hd. by apply prefix_dirs_synced in Hd. }
  pose proof (untouched_fsync (log_names dir) s) as Hu. split; [split|split; [|done]].
  - apply log_step_untouched; [done|by apply fs_wf_fsync, Hok|done].
  - intros l (o & (d & ->%Hd & ->) & Hr). eexists. split; [apply possible_names|done].
  - intros t v (o & (d & ->%Hd & ->) & Hr). by rewrite file_possible.
Qed.

Definition ends_clean (dir : gostring) (s : fs) : Prop :=
  ∀ i, names s !! pLog dir = Some i →
    ∃ recs k, Forall entry_wf recs ∧ inodes s !! i = Some (mkInode (frames recs) k).

Definition opened (dir : gostring) (s0 : fs) (es : list Entry)
    (o : outcome (logStore * list Entry)) (s' : fs) : Prop :=
  boot_step dir s0 s' ∧
  match o with
  | Ok (l, es') => es' = es ∧ ls_dir l = dir ∧ ls_failed l = false ∧ clean dir (ls_f l) s' ∧
      ∀ t v, mstate dir s' t v → reads_state (file s0 (pState dir)) t v
  | Err _ | Crash => True
  | Panic => False
  end.

Lemma boot_sync dir s0 s f es :
  boot_step dir s0 s → ends_clean dir s → names s !! pLog dir = Some f →
  wp (r ← attempt (SyncDir dir);
      match r with
      | inr err => attempt (Close f);; throw err
      | inl _ => mret (mkLog f dir false, es)
      end) (opened dir s0 es) s.
Proof.
  intros Hb Hec Hf. assert (∀ r, boot_step dir s0 (s <| faults := r |>)) as Hr.
  { intros r. eapply boot_step_trans; [done|]. by apply boot_step_faults, Hb. }
  apply wp_bind, wp_attempt, wp_sys; [|intros k r _; cbn [wpk]|by intros].
  - intros r _. unfold wp at 1. cbn [fst snd wpk]. apply wp_ret.
    destruct (boot_fsync dir (s <| faults := r |>)) as (Hb' & Hst & Hd); [apply Hr|].
    split; [exact (boot_step_trans _ _ _ _ (Hr r) Hb')|]. do 3 (split; [done|]). split.
    + destruct (Hec f Hf) as (recs & k & ? & ?). split; [|by exists recs, k]. by intros d ->%Hd.
    + intros t v Hm. apply Hst in Hm. destruct (Hr r) as [[_ _ _ Hn] _]. by rewrite Hn in Hm.
  - apply wp_bind, wp_attempt, wp_sys; [|by intros; split; [apply Hr|]..].
    intros r' _. unfold wp at 1. cbn [fst snd wpk]. apply wp_throw. by split; [apply Hr|].
Qed.

Lemma boot_open dir s0 s es :
  boot_step dir s0 s → ends_clean dir s →
  wp (f ← OpenCreateAppend (pLog dir);
      r ← attempt (SyncDir dir);
      match r with
      | inr err => attempt (Close f);; throw err
      | inl _ => mret (mkLog f dir false, es)
      end) (opened dir s0 es) s.
Proof.
  intros Hb Hec. assert (∀ r, boot_step dir s0 (s <| faults := r |>)) as Hr.
  { intros r. eapply boot_step_trans; [done|]. by apply boot_step_faults, Hb. }
  apply wp_bind, wp_sys; [|by intros..].
  intros r _. unfold wp at 1. change (names _ !! _) with (names s !! pLog dir).
  destruct (names s !! pLog dir) as [i|] eqn:Hi; cbn [fst snd wpk].
  - apply (boot_sync dir s0 (s <| faults := r |>)); [apply Hr|done|done].
  - set (s1 := s <| faults := r |>). pose proof (boot_create dir s1) as Hc.
    assert (names (create_inode (pLog dir) s1) !! pLog dir = Some (new_inode s1)) as Hn.
    { unfold create_inode. rewrite names_journal. apply lookup_insert_eq. }
    apply boot_sync; [|..|done].
    + eapply boot_step_trans; [exact (Hr r)|]. by apply Hc; [apply Hr|].
    + intros i. rewrite Hn. intros [= <-]. exists [], 0%nat. split; [done|].
      unfold create_inode. cbn. by rewrite lookup_insert_eq.
Qed.

(** Truncating the file at the end of its last whole record. *)
Lemma Truncate_tail dir s0 s :
  boot_step dir s0 s →
  wp (Truncate (pLog dir) (records_end (default [] (file s (pLog dir))))) (λ o s',
    boot_step dir s0 s' ∧
    match o with
    | Ok _ => ends_clean dir s'
    | Err ENotExist => ends_clean dir s'
    | Panic => False
    | _ => True
    end) s.
Proof.
  intros Hb. assert (∀ r, boot_step dir s0 (s <| faults := r |>)) as Hr.
  { intros r. eapply boot_step_trans; [done|]. by apply boot_step_faults, Hb. }
  apply wp_sys; [|by intros..]. intros r _. specialize (Hr r). unfold wp.
  change (names _ !! _) with (names s !! pLog dir). unfold file.
  destruct (names s !! pLog dir) as [i|] eqn:Hi; cbn [fst snd].
  - destruct (names_range s (pLog dir) i) as [n Hn]; [apply Hb|done|]. cbn [mbind option_bind]. rewrite Hn.
    destruct (boot_truncate dir i n (s <| faults := r |>)) as [Hb' [k Hk]]; [apply Hr|done|done|].
    split; [exact (boot_step_trans _ _ _ _ Hr Hb')|]. intros j Hj.
    assert (j = i) as -> by (change (names s !! pLog dir = Some j) in Hj; congruence).
    exists (records_of (content n)), k. split; [apply records_canonical|exact Hk].
  - split; [exact Hr|]. intros j Hj. change (names s !! pLog dir = Some j) in Hj. congruence.
Qed.

Lemma file_mlog dir s :
  fs_wf s → mlog dir s (log_supersede [] (records_of (default [] (file s (pLog dir))))).
Proof.
  intros Hwf. eexists. split; [apply possible_names|]. rewrite file_possible.
  destruct (names s !! pLog dir) as [i|] eqn:Hi; [|done]. cbn [mbind option_bind].
  destruct (names_range s (pLog dir) i Hwf Hi) as [n Hn]. rewrite Hn.
  exists (length (content n)). split; [by eapply wf_synced|]. by rewrite firstn_all.
Qed.

Lemma boot_replay dir base s :
  files_ok dir s → let data := default [] (file s (pLog dir)) in
  wp ('(entries, off) ← lift (replay_log (length data) base data [] 0);
      r ← attempt (Truncate (pLog dir) off);
      match r with
      | inl _ | inr ENotExist => mret ()
      | inr err => throw (EWrap "raft: truncate torn log tail: %w" err)
      end;;
      f ← OpenCreateAppend (pLog dir);
      r ← attempt (SyncDir dir);
      match r with
      | inr err => attempt (Close f);; throw err
      | inl _ => mret (mkLog f dir false, entries)
      end) (λ o s', opened dir s (log_supersede [] (records_of data)) o s' ∧
              ∀ l es, o = Ok (l, es) → starts_at (u64 (base + 1)) es) s.
Proof.
  intros Hok data. assert (boot_step dir s s) as Hrefl.
  { split; [|done]. destruct (log_step_faults dir s (faults s) Hok). by split. }
  apply wp_bind, wp_lift. pose proof (replay_log_spec (length data) base data [] 0) as Hrep.
  destruct (replay_log _ _ _ _ _) as [[es off]|e| |]; cbn [wpk]; [|by split|by destruct Hrep..].
  destruct Hrep as (-> & -> & Hbase); [done|done|]. rewrite Z.add_0_l. specialize (Hbase I).
  apply (wp_mono _ (opened dir s (log_supersede [] (records_of data)))).
  2:{ intros o s' Ho. split; [done|]. intros l es ->. by destruct Ho as (_ & -> & _). }
  apply wp_bind, wp_attempt. eapply wp_mono; [by apply Truncate_tail|].
  intros o s1 [Hb Ho]. destruct o as [[]|e| |]; cbn [wpk]; [|..|done|done].
  - apply wp_bind, wp_ret. cbn [wpk]. by apply boot_open.
  - apply wp_bind. destruct e; try (apply wp_throw; by split).
    apply wp_ret. cbn [wpk]. by apply boot_open.
Qed.

Lemma openLog_spec dir base s :
  files_ok dir s →
  wp (openLog dir base) (λ o s', boot_step dir s s' ∧
    match o with
    | Ok (l, es) => mlog dir s es ∧ ls_dir l = dir ∧ ls_failed l = false ∧ clean dir (ls_f l) s' ∧
        (∀ t v, mstate dir s' t v → reads_state (file s (pState dir)) t v) ∧
        starts_at (u64 (base + 1)) es
    | Err _ | Crash => True
    | Panic => False
    end) s.
Proof.
  intros Hok. unfold openLog. cbv zeta. change (dir, logFileName) with (pLog dir).
  apply wp_bind, wp_attempt. eapply wp_mono; [apply ReadFile_spec|].
  intros o s1 [[r1 Hs1] Ho]. assert (boot_step dir s s1) as Hb1.
  { rewrite Hs1. by apply boot_step_faults. }
  assert (∀ p, file s1 p = file s p) as Hf1 by (by rewrite Hs1). clear Hs1.
  rewrite <-Hf1 in Ho. pose proof (boot_replay dir base s1 ltac:(apply Hb1)) as Hmain.
  cbv zeta in Hmain.
  match goal with |- match _ with Ok _ => wpk _ ?Q _ _ | _ => _ end => eassert (wp _ Q s1) as Hmain' end.
  { eapply wp_mono; [exact Hmain|]. intros o' s' [[Hb Ho'] Hbase]. split; [by eapply boot_step_trans|].
    destruct o' as [[l es]|e| |]; [|done..]. specialize (Hbase _ _ eq_refl).
    destruct Ho' as (-> & ? & ? & ? & Hst). split; [apply Hb1, file_mlog, Hb1|]. rewrite Hf1 in Hst. done. }
  destruct o as [b|e| |]; cbn [wpk]; [|destruct e; try done|done|by split].
  - rewrite Ho in Hmain'. apply wp_bind, wp_ret. exact Hmain'.
  - rewrite Ho in Hmain'. apply wp_bind, wp_ret. exact Hmain'.
Qed.

(** ** The contract *)

Lemma rd_reboot_laws d d' :
  rd_wf d → rd_reboot d d' →
  rd_wf d' ∧ (∀ t v, rd_state d' t v → rd_state d t v) ∧
  (∀ l, rd_log d' l → rd_log d l) ∧ (∀ x, rd_snap d' x → rd_snap d x).
Proof.
  unfold rd_wf, rd_state, rd_log, rd_snap. intros Hok [-> Hr].
  destruct Hr as [Hc|[r ->]].
  2:{ destruct (log_step_faults _ _ r Hok). done. }
  destruct Hok as [Hwf Hst Hsn Hsep]. pose proof Hc as (Hd & Hp & Hi).
  assert (∀ dd, prefix_dirs (rfs d') dd → prefix_dirs (rfs d) dd) as Hpd.
  { intros dd Hdd. apply prefix_dirs_synced in Hdd as ->; [|done]. exact Hd. }
  assert (∀ ps i, reach (rfs d') ps i → reach (rfs d) ps i) as Hre.
  { intros ps i (dd & q & ? & ? & ?). exists dd, q. auto. }
  assert (∀ p good, shows (rfs d) p good → ∀ o, possible (rfs d') p o →
    ∃ o', possible (rfs d) p o' ∧ content <$> o' = content <$> o) as Hpos.
  { intros p good Hs o (dd & Hdd & ->). specialize (Hs dd (Hpd dd Hdd)).
    eexists. split; [exists dd; split; [by apply Hpd|done]|].
    destruct (dd !! p) as [i|]; [|done]. cbn [mbind option_bind]. destruct Hs as (n & Hn & Hsy & _).
    specialize (Hi i). rewrite Hn in *. inversion Hi as [? n' (k & Hk & Hc' & _)|]; subst.
    simpl. rewrite Hc', take_ge by lia. done. }
  split_and!; [split; [by eapply crash_wf|by eapply shows_crash|by eapply shows_crash|by eauto]|..].
  - intros t v (o & Ho & Hr). destruct (Hpos _ _ Hst o Ho) as (o' & ? & He). exists o'. by rewrite He.
  - intros l (o & (dd & Hdd & ->) & Hr). eexists. split; [exists dd; split; [by apply Hpd|done]|].
    destruct (dd !! pLog _) as [i|]; [|done]. cbn [mbind option_bind] in *. specialize (Hi i).
    destruct (inodes (rfs d) !! i) as [n|], (inodes (rfs d') !! i) as [n'|]; [|by inversion Hi..|done].
    inversion Hi as [? ? (k & Hk & Hc' & Hs')|]; subst. destruct Hr as (j & Hj & ->). exists k. split; [done|]. by rewrite take_ge, Hc' by lia.
  - intros x (o & Ho & Hr). destruct (Hpos _ _ Hsn o Ho) as (o' & ? & He). exists o'. by rewrite He.
Qed.

Lemma wp_in_dir {A} (m : gostring → M fs A) Q d :
  wp (m (ddirof d)) (λ o s', Q o (d <| rfs := s' |>)) (rfs d) → wp (in_dir m) Q d.
Proof. intros Hm. apply wp_bind, wp_gets. cbn [wpk]. by apply wp_zoom. Qed.

Lemma rd_saveState t v d :
  rd_open d → is_u64 t → is_u64 v →
  wp (saveState t v) (λ o d',
    rd_wf d' ∧ (o ≠ Crash → rd_open d') ∧ (∀ l, rd_log d' l → rd_log d l) ∧
    (∀ x, rd_snap d' x → rd_snap d x) ∧
    match o with
    | Ok _ => ∀ t' v', rd_state d' t' v' → t' = t ∧ v' = v
    | Err _ | Crash => ∀ t' v', rd_state d' t' v' → rd_state d t' v' ∨ (t' = t ∧ v' = v)
    | Panic => False
    end) d.
Proof.
  intros [Hok Hcl] Ht Hv. apply wp_in_dir. eapply wp_mono; [by apply saveTermAndVote_spec|].
  intros o s' ((Hok' & Hcl' & Hl) & Hsn & Ho). split; [done|]. split; [|by split].
  intros _. split; [done|]. intros Hf. apply Hcl', Hcl, Hf.
Qed.

Lemma rd_saveSnapshot x d :
  rd_open d → snapshot_wf x →
  wp (saveSnapshot x) (λ o d',
    rd_wf d' ∧ (o ≠ Crash → rd_open d') ∧ (∀ t v, rd_state d' t v → rd_state d t v) ∧
    (∀ l, rd_log d' l → rd_log d l) ∧
    match o with
    | Ok _ => ∀ y, rd_snap d' y → y = snapshot_back x
    | Err _ | Crash => ∀ y, rd_snap d' y → rd_snap d y ∨ y = snapshot_back x
    | Panic => False
    end) d.
Proof.
  intros [Hok Hcl] Hx. apply wp_in_dir. eapply wp_mono; [by apply persistRaftSnapshot_spec|].
  intros o s' ((Hok' & Hcl' & Hl) & Hst & Ho). split; [done|]. split; [|by split].
  intros _. split; [done|]. intros Hf. apply Hcl', Hcl, Hf.
Qed.

Lemma now_possible dir s t v :
  reads_state (file s (pState dir)) t v → mstate dir s t v.
Proof. intros Hr. eexists. split; [apply possible_names|]. by rewrite <-file_possible. Qed.

Lemma rd_logOpen base d :
  rd_wf d →
  wp (logOpen base) (λ o d',
    rd_wf d' ∧ (∀ t v, rd_state d' t v → rd_state d t v) ∧
    (∀ l, rd_log d' l → rd_log d l) ∧ (∀ x, rd_snap d' x → rd_snap d x) ∧
    match o with
    | Ok l => rd_open d' ∧ rd_log d l ∧ (∀ t v, rd_state d' t v → rd_now d t v)
    | Err _ | Crash => True
    | Panic => False
    end) d.
Proof.
  intros Hok. apply wp_bind, wp_in_dir. eapply wp_mono; [by apply openLog_spec|].
  intros o s' [[[Hok' Hst Hsn Hnow] Hl] Ho].
  destruct o as [[l es]|e| |]; cbn [wpk]; [|by split_and!..].
  destruct Ho as (? & Hdir & Hf & Hcl & Hrd & _). apply wp_bind, wp_modify. cbn [wpk]. apply wp_ret.
  unfold rd_open, rd_wf, rd_state, rd_log, rd_snap. cbn. rewrite Hdir. by split_and!.
Qed.

Lemma rd_logOpen_base base d :
  rd_wf d → wp (logOpen base) (λ o _, match o with Ok l => starts_at (u64 (base + 1)) l | _ => True end) d.
Proof.
  intros Hok. apply wp_bind, wp_in_dir. eapply wp_mono; [by apply openLog_spec|].
  intros o s' [_ Ho]. destruct o as [[l es]|e| |]; cbn [wpk]; [|done..].
  apply wp_bind, wp_modify. cbn [wpk]. apply wp_ret. apply Ho.
Qed.

#[export] Instance raft_files_laws : RaftDiskLaws raftdisk.
Proof.
  refine {| d_wf := rd_wf; d_open := rd_open; may_state := rd_state; may_log := rd_log;
            may_snap := rd_snap; now_state := rd_now; reboot := rd_reboot |}.
  - by intros d [? _].
  - apply rd_reboot_laws.
  - intros d t v t' v'. apply reads_state_fun.
  - apply rd_saveState.
  - intros es d Hd Hes. eapply wp_mono; [by apply append_spec|].
    intros o d' (Hst & Ho & Hl). by destruct (rd_step_laws d d' Hst) as (? & ? & ?).
  - intros es d Hd Hes. eapply wp_mono; [by apply rewrite_spec|].
    intros o d' (Hst & Ho & Hl). by destruct (rd_step_laws d d' Hst) as (? & ? & ?).
  - apply rd_saveSnapshot.
  - intros d Hok. apply wp_in_dir. eapply wp_mono; [by apply loadTermAndVote_spec|].
    intros o s' [[r ->] Ho]. split; [by apply log_step_faults|]. do 4 (split; [done|]).
    destruct o as [[t v]|e| |]; try done. destruct Ho as (? & ? & ?).
    split; [done|]. split; [by apply now_possible|done].
  - intros d Hok. apply wp_in_dir. eapply wp_mono; [by apply loadRaftSnapshot_spec|].
    intros o s' [[r ->] Ho]. assert (files_ok (ddirof d) ((rfs d) <| faults := r |>)) by (by apply log_step_faults).
    split; [done|]. split; [by intros [? ?]|]. do 4 (split; [done|]).
    destruct o as [x|e| |]; try done. eexists. split; [apply possible_names|]. by rewrite <-file_possible.
  - apply rd_logOpen.
  - apply rd_logOpen_base.
Defined.

(** After a crash of the machine the disk shows what is durable. *)
Lemma crash_settled d d' : crash (rfs d) (rfs d') → settled d'.
Proof.
  intros (_ & Hp & Hi).
  assert (∀ p o o', possible (rfs d') p o → possible (rfs d') p o' → o = o') as Hone.
  { intros p o o' (x & Hx & ->) (y & Hy & ->). apply prefix_dirs_synced in Hx as ->; [|done].
    by apply prefix_dirs_synced in Hy as ->. }
  split.
  - intros l l' (o & Ho & Hr) (o' & Ho' & Hr'). pose proof (Hone _ _ _ Ho Ho') as <-.
    destruct o as [n|]; cbn in Hr, Hr'; [|congruence]. destruct Ho as (x & _ & Hx).
    assert (synced n = length (content n)) as Hs.
    { destruct (x !! _) as [f|]; [|done]. cbn in Hx. specialize (Hi f). rewrite <-Hx in Hi.
      inversion Hi as [? ? (k & _ & _ & ?)|]; by subst. }
    destruct Hr as (k & Hk & ->), Hr' as (k' & Hk' & ->). by rewrite !take_ge by lia.
  - intros x x' (o & Ho & Hr) (o' & Ho' & Hr'). pose proof (Hone _ _ _ Ho Ho') as <-.
    destruct (content <$> o); cbn in Hr, Hr'; congruence.
Qed.

(** ** A disk without faults does what it is asked *)

Definition sound (s : fs) : Prop := faults s = [].
Definition rd_works (d : raftdisk) : Prop := sound (rfs d) ∧ ls_failed (store d) = false.

Lemma wp_sys_sound {A} (run : M fs A) partial Q s : sound s → wp run Q s → wp (sys run partial) Q s.
Proof. unfold wp, sys, sound. by intros ->. Qed.

Lemma WriteFileAtomic_sound p data s :
  sound s → wp (WriteFileAtomic p data) (λ o s', o = Ok () ∧ sound s' ∧ is_Some (names s' !! p)) s.
Proof.
  intros Hs. unfold WriteFileAtomic. apply wp_bind, wp_sys_sound; [done|]. cbn [wp fst snd wpk].
  set (s1 := create_inode _ s). assert (names s1 !! tmp_of p = Some (new_inode s)) as Hn.
  { unfold s1, create_inode. rewrite names_journal. cbn. by rewrite lookup_insert_eq. }
  apply wp_bind, wp_attempt.
  do 3 (apply wp_bind, wp_sys_sound; [done|]; cbn [wp fst snd wpk]).
  apply wp_bind, wp_sys_sound; [done|]. unfold wp at 1.
  match goal with |- context [names ?x !! tmp_of p] => change (names x) with (names s1) end. rewrite Hn.
  cbn [fst snd wpk]. apply wp_sys_sound; [done|]. cbn [wp fst snd wpk]. apply wp_ret. split; [done|]. split; [done|].
  match goal with |- is_Some (names ?x !! p) => change (names x) with (names (journal (DRename (tmp_of p) p) s1)) end.
  rewrite names_journal. cbn [apply_op]. rewrite Hn, lookup_insert_eq. eauto.
Qed.

Lemma in_dir_works {A} (m : gostring → M fs A) (Q : outcome A → Prop) d :
  rd_works d → wp (m (ddirof d)) (λ o s', Q o ∧ sound s') (rfs d) → wp (in_dir m) (λ o d', Q o ∧ rd_works d') d.
Proof. intros [Hs Hf] Hm. apply wp_in_dir. eapply wp_mono; [exact Hm|]. intros o s' [? ?]. done. Qed.

Lemma write_works p data s : sound s → wp (WriteFileAtomic p data) (λ o s', succeeds o ∧ sound s') s.
Proof. intros Hs. eapply wp_mono; [by apply WriteFileAtomic_sound|]. by intros o s' (-> & ? & _). Qed.

Lemma consecutive_contiguous e es : consecutive (e :: es) → contiguous_from e es = true.
Proof.
  revert e. induction es as [|e' es IH]; intros e Hc; [done|]. cbn. rewrite (Hc 0%nat e e' eq_refl eq_refl), Z.eqb_refl. cbn [andb].
  apply IH. intros k x y. apply (Hc (S k)).
Qed.

Lemma append_works es d :
  rd_works d → consecutive es → wp (append es) (λ o d', succeeds o ∧ rd_works d') d.
Proof.
  intros [Hs Hf] Hc. unfold append. apply wp_bind, wp_gets. cbn [wpk]. rewrite Hf. destruct es as [|e es]; [by apply wp_ret|].
  rewrite (consecutive_contiguous e es Hc). cbn [negb].
  do 2 (apply wp_bind, wp_attempt, wp_zoom, wp_sys_sound; [done|]; cbn [wp fst snd wpk]). by apply wp_ret.
Qed.

Lemma rewrite_works es d : rd_works d → wp (rewrite_log es) (λ o d', succeeds o ∧ rd_works d') d.
Proof.
  intros [Hs Hf]. unfold rewrite_log. apply wp_bind, wp_gets. cbn [wpk]. rewrite Hf.
  apply wp_bind, wp_attempt, wp_zoom, wp_sys_sound; [done|]. cbn [wp fst snd wpk]. cbv zeta.
  apply wp_bind, wp_attempt, wp_zoom. eapply wp_mono; [by apply WriteFileAtomic_sound|].
  intros o s' (-> & Hs' & i & Hi). cbn [wpk]. apply wp_bind, wp_attempt, wp_zoom, wp_sys_sound; [done|].
  unfold wp at 1. cbn [rfs set set_rfs]. change (names (rfs _)) with (names s'). rewrite Hi. cbn [fst snd wpk]. by apply wp_modify.
Qed.

Lemma load_works d : rd_wf d → rd_works d → wp loadSnapshot (λ o d', succeeds o ∧ rd_works d') d.
Proof.
  intros Hok Hd. apply in_dir_works; [done|]. destruct Hd as [Hs _]. unfold loadRaftSnapshot.
  apply wp_bind, wp_attempt, wp_sys_sound; [done|]. pose proof (shows_file _ _ _ (fo_snap _ _ Hok)) as [x Hx]. unfold wp at 1.
  change (ddirof d, raftSnapFileName) with (pSnap (ddirof d)). destruct (file _ _) as [b|]; cbn [fst snd wpk]; [|by apply wp_ret].
  apply wp_lift. cbn in Hx. by rewrite Hx.
Qed.

#[export] Instance raft_files_work : WorkingDisk raftdisk.
Proof.
  refine {| d_works := rd_works |}.
  - intros t v d Hd. apply in_dir_works; [done|]. by apply write_works, Hd.
  - intros es d. apply append_works.
  - intros es d. apply rewrite_works.
  - intros s d Hd. apply in_dir_works; [done|]. by apply write_works, Hd.
  - apply load_works.
Defined.

(** ** What a boot reads after a crash *)

(** With no fault ahead, a boot reads the term and vote that are on the disk. *)
Lemma loadTermAndVote_ok dir s :
  files_ok dir s → faults s = [] →
  ∃ t v, loadTermAndVote dir s = (Ok (t, v), s) ∧ reads_state (file s (pState dir)) t v.
Proof.
  intros Hok Hf. destruct (shows_now dir s Hok) as [(t & v & _ & _ & Hr) _]. exists t, v.
  split; [|done]. unfold loadTermAndVote, mbind, M_bind, attempt, ReadFile, sys. rewrite Hf.
  change (dir, stateFileName) with (pState dir). destruct (file s (pState dir)) as [b|]; simpl in Hr.
  - unfold lift. by rewrite Hr.
  - by destruct Hr as [-> ->].
Qed.

(** C10: a vote is durable before it is acknowledged, and is never torn.
    However [saveTermAndVote] ends (it may return an error or be cut short by a
    crash anywhere), the boot after any crash reads a term and a vote: the new
    ones if it returned, otherwise the new ones or ones a crash could have
    shown before the call. *)
Theorem saveTermAndVote_recovery dir t v s o s' s2 :
  files_ok dir s → is_u64 t → is_u64 v →
  saveTermAndVote dir t v s = (o, s') → crash s' s2 → faults s2 = [] →
  ∃ t' v', loadTermAndVote dir s2 = (Ok (t', v'), s2) ∧
    (t' = t ∧ v' = v ∨ o ≠ Ok () ∧ mstate dir s t' v').
Proof.
  intros Hok Ht Hv Hrun Hcr Hf.
  pose proof (wp_elim _ _ _ _ _ (saveTermAndVote_spec dir t v s Hok Ht Hv) Hrun) as ([Hok' _] & _ & Ho).
  destruct (rd_reboot_laws (mkRD (mkLog 0 dir false) s') (mkRD (mkLog 0 dir false) s2)) as (Hok2 & Hst & _);
    [exact Hok'|split; [done|by left]|].
  destruct (loadTermAndVote_ok dir s2 Hok2 Hf) as (t' & v' & Hl & Hr). exists t', v'. split; [done|].
  apply now_possible, Hst in Hr. cbn in Hr.
  destruct o as [[]|e| |]; [|..|done|]; [by left; apply Ho|..].
  - destruct (Ho _ _ Hr) as [?|?]; [by right|by left].
  - destruct (Ho _ _ Hr) as [?|?]; [by right|by left].
Qed.

Lemma files_ok_empty dir r : files_ok dir (empty_fs r).
Proof.
  assert (∀ d p, prefix_dirs (empty_fs r) d → d !! p = None) as Hd.
  { intros d p [j ->]. cbn. by rewrite take_nil. }
  split; [split; cbn; try set_solver|..].
  - intros d Hdd. rewrite (Hd d _ Hdd). exists 0, 0. done.
  - intros d Hdd. rewrite (Hd d _ Hdd). exists zero_snapshot. done.
  - intros i (d & q & Hdd & _ & Hi). by rewrite (Hd d q Hdd) in Hi.
Qed.

Lemma saveTermAndVote_recovery_witness :
  let s' := (saveTermAndVote (str "n1") 3 2 (empty_fs [])).2 in
  ∃ t' v', loadTermAndVote (str "n1") (power_cut [] s') = (Ok (t', v'), power_cut [] s') ∧
    (t' = 3 ∧ v' = 2 ∨ Ok () ≠ Ok () ∧ mstate (str "n1") (empty_fs []) t' v').
Proof.
  intros s'. eapply saveTermAndVote_recovery; [apply files_ok_empty|done|done| |apply crash_power_cut|done].
  by vm_compute.
Defined.

(** The log file: the records [recs], all durable, then the bytes [b]. *)
Definition log_tail (dir : gostring) (f : nat) (recs : list Entry) (b : bytes) (k : nat) (s : fs) : Prop :=
  (∀ d, prefix_dirs s d → d !! pLog dir = Some f) ∧
  inodes s !! f = Some (mkInode (frames recs ++ b) k) ∧ (length (frames recs) ≤ k)%nat.

Lemma log_tail_faults dir f recs b k s r : log_tail dir f recs b k s → log_tail dir f recs b k (s <| faults := r |>).
Proof. done. Qed.

(** Wherever [append] stops, it has written a part of its batch. *)
Lemma append_tail dir f recs es s :
  log_tail dir f recs [] (length (frames recs)) s →
  wp (append es) (λ o d', ∃ b k, log_tail dir f recs b k (rfs d') ∧ b `prefix_of` frames es ∧
    match o with
    | Ok _ => b = frames es ∧ (length (frames recs ++ b) ≤ k)%nat
    | Err _ | Crash => True
    | Panic => False
    end) (mkRD (mkLog f dir false) s).
Proof.
  intros Ht. unfold append. apply wp_bind, wp_gets. cbn [wpk store ls_failed].
  destruct es as [|e es0].
  { apply wp_ret. exists [], (length (frames recs)). by rewrite app_nil_r. }
  destruct (contiguous_from e es0); cbn [negb].
  2:{ apply wp_throw. eexists [], _. split_and!; [done|apply prefix_nil|done]. }
  set (es := e :: es0). cbn [ls_f].
  assert (∀ b r, log_tail dir f recs b (length (frames recs)) (write_inode f b (s <| faults := r |>))) as Hw.
  { intros b r. destruct Ht as (Hd & Hi & ?). split; [done|]. split; [|done].
    cbn. rewrite lookup_alter_eq, Hi. cbn. by rewrite app_nil_r. }
  assert (∀ k, take k (frames es) `prefix_of` frames es) as Hpre.
  { intros k. exists (drop k (frames es)). by rewrite take_drop. }
  apply wp_bind, wp_attempt, wp_zoom, wp_sys; [|by intros k r _; eexists _, _; split; [apply Hw|]..].
  intros r _. unfold wp at 1. cbn [fst snd wpk]. specialize (Hw (frames es) r).
  apply wp_bind, wp_attempt, wp_zoom, wp_sys; [|by intros k r' _; eexists _, _; split; [apply Hw|]..].
  intros r' _. unfold wp at 1. cbn [fst snd wpk]. apply wp_ret.
  exists (frames es), (length (frames recs ++ frames es)). destruct Hw as (Hd & Hi & Hl).
  split; [|done]. split; [exact Hd|]. split; [|rewrite length_app; lia].
  cbn in Hi |- *. by rewrite lookup_alter_eq, Hi.
Qed.

Lemma log_tail_crash dir f recs b k s s' :
  log_tail dir f recs b k s → crash s s' →
  ∃ b', file s' (pLog dir) = Some (frames recs ++ b') ∧ b' `prefix_of` b ∧
    ((length (frames recs ++ b) ≤ k)%nat → b' = b).
Proof.
  intros (Hd & Hi & Hk) (Hdd & Hp & Hin). specialize (Hin f). rewrite Hi in Hin.
  destruct (inodes s' !! f) as [n|] eqn:Hn; [|by inversion Hin].
  inversion Hin as [? ? (j & Hj & Hc & _)|]; subst. cbn [content synced] in *.
  exists (take (j - length (frames recs)) b). split_and!.
  - unfold file, names. rewrite Hp. cbn [foldl]. rewrite (Hd _ Hdd). cbn [mbind option_bind].
    rewrite Hn. cbn. rewrite Hc. by rewrite take_app_ge by lia.
  - eexists. by rewrite take_drop.
  - rewrite length_app. intros. by rewrite take_ge by lia.
Qed.

(** Opening a log file whose records can be replayed. *)
Lemma openLog_ok dir base s b L :
  faults s = [] → file s (pLog dir) = Some b → place_all base [] (records_of b) = Ok L →
  ∃ l s', openLog dir base s = (Ok (l, L), s').
Proof.
  intros Hf Hfile HL. unfold openLog. cbv zeta. change (dir, logFileName) with (pLog dir).
  assert (∃ i, names s !! pLog dir = Some i) as [i Hn].
  { unfold file in Hfile. destruct (names s !! pLog dir); by eauto. }
  assert (∀ {A} (run : M fs A) part s', faults s' = [] → sys run part s' = run s') as Hsys.
  { intros A run part s' Hs'. unfold sys. by rewrite Hs'. }
  erewrite bind_ok; [|apply attempt_ok; unfold ReadFile; by rewrite Hsys, Hfile].
  erewrite bind_ok; [|done]. rewrite replay_log_place by done. rewrite HL. cbn [mbind outcome_bind].
  erewrite bind_ok; [|done]. cbn beta iota.
  erewrite bind_ok; [|apply attempt_ok; unfold Truncate; by rewrite Hsys, Hn].
  erewrite bind_ok; [|done].
  erewrite bind_ok; [|unfold OpenCreateAppend; rewrite Hsys by done; cbn beta;
    change (names _ !! pLog dir) with (names s !! pLog dir); by rewrite Hn].
  erewrite bind_ok; [|apply attempt_ok; unfold SyncDir, FsyncDir; by rewrite Hsys]. by eexists _, _.
Qed.

(** C11: log entries are durable before [append] returns, and a torn batch
    leaves a prefix of it.  The log file holds the records [recs], from which
    a boot rebuilds [L]; [append es] may return, fail or be cut short anywhere.
    Whatever the crash, the next [openLog] succeeds, and rebuilds [L]
    followed, by the supersede rule, by the first [n] entries of the batch:
    all of them if [append] returned. *)
Theorem append_recovery dir f base recs L es L' s o d' s2 :
  log_tail dir f recs [] (length (frames recs)) s → Forall entry_wf recs → Forall entry_wf es →
  place_all base [] recs = Ok L → place_all base L es = Ok L' →
  append es (mkRD (mkLog f dir false) s) = (o, d') → crash (rfs d') s2 → faults s2 = [] →
  ∃ n l Ln s3, openLog dir base s2 = (Ok (l, Ln), s3) ∧ place_all base L (take n es) = Ok Ln ∧
    (o = Ok () → n = length es).
Proof.
  intros Ht Hrecs Hes HL HL' Hrun Hcr Hf.
  pose proof (wp_elim _ _ _ _ _ (append_tail dir f recs es s Ht) Hrun) as (b & k & Ht' & Hb & Ho).
  destruct (log_tail_crash _ _ _ _ _ _ _ Ht' Hcr) as (b' & Hfile & Hb' & Hall).
  destruct (records_frames recs b' Hrecs) as [Hrec _].
  assert (∃ n, records_of b' = take n es ∧ (o = Ok () → n = length es)) as (n & Hn & Hok).
  { destruct o as [[]|e| |]; [|destruct (records_torn es b' Hes) as [n ?]; [by etrans|by exists n]..].
    destruct Ho as [-> Hk]. rewrite (Hall Hk). exists (length es). rewrite firstn_all.
    destruct (records_frames es [] Hes) as [Hr _]. by rewrite !app_nil_r in Hr. }
  rewrite Hn in Hrec. destruct (place_all_take base L es L' n HL') as [Ln HLn].
  destruct (openLog_ok dir base s2 _ Ln Hf Hfile) as (l & s3 & Hopen).
  { by rewrite Hrec, place_all_app, HL. }
  by exists n, l, Ln, s3.
Qed.

Definition example_log_fs : fs := Eval vm_compute in (openLog (str "n1") 0 (empty_fs [])).2.
Definition example_batch : list Entry :=
  [mkEntry 1 1 ENTRY_TYPE_NOOP []; mkEntry 1 2 ENTRY_TYPE_NORMAL (str "x")].

Lemma append_recovery_witness :
  let d' := (append example_batch (mkRD (mkLog 0 (str "n1") false) example_log_fs)).2 in
  ∃ n l Ln s3, openLog (str "n1") 0 (power_cut [] (rfs d')) = (Ok (l, Ln), s3) ∧
    place_all 0 [] (take n example_batch) = Ok Ln ∧ (Ok () = Ok () → n = length example_batch).
Proof.
  intros d'. refine (append_recovery (str "n1") 0 0 [] [] example_batch example_batch example_log_fs
    (Ok ()) d' _ _ _ _ _ _ _ (crash_power_cut [] _) _).
  - split; [|by vm_compute]. intros d Hd. apply prefix_dirs_synced in Hd as ->; by vm_compute.
  - done.
  - repeat constructor; done.
  - done.
  - by vm_compute.
  - by vm_compute.
  - done.
Defined.
