(* ===== verification/Core.v ===== *)
(** * internal/raft: the consensus core

    The [core] struct of core.go and its methods, from core.go,
    replication.go, leadership.go, readindex.go, membership.go and raftsnap.go:
    single-threaded, every method mutates the state and returns; what must be
    sent accumulates in [outbox].  The disk is reached through [RaftDisk]; the
    order of map iterations and the random election timeouts come from
    [GoRuntime].

    A nil map is [None]: reading it gives zero, writing it panics. *)

From stdpp Require Import prelude gmap strings sorting.
From S2P Require Import Prelude GoRuntime GoBytes RaftTypes Membership.
Open Scope Z_scope.

Inductive Role := follower | candidate | leader.

(** [role.String] *)
Definition role_String (r : Role) : gostring :=
  match r with follower => str "follower" | candidate => str "candidate" | leader => str "leader" end.
#[export] Instance Role_eq_dec : EqDecision Role.
Proof. solve_decision. Defined.

(** The part of [Config] the methods use. *)
Record Config := mkConfig {
  ID : Z;
  ElectionTicksMin : Z;
  ElectionTicksMax : Z;
  HeartbeatTicks : Z;
  DisablePreVote : bool
}.

(** [cfg.applyDefaults()] *)
Definition applyDefaults (cfg : Config) : Config :=
  mkConfig (ID cfg)
    (if ElectionTicksMin cfg =? 0 then 20 else ElectionTicksMin cfg)
    (if ElectionTicksMax cfg =? 0 then 40 else ElectionTicksMax cfg)
    (if HeartbeatTicks cfg =? 0 then 2 else HeartbeatTicks cfg)
    (DisablePreVote cfg).

Definition noVote : Z := 0.

(** [maxAppendBytes] *)
Definition maxAppendBytes : Z := Z.shiftl 1 20.

Record pendingRead := mkRead {
  pr_id : Z;
  pr_index : Z;      (* commitIndex at registration *)
  pr_minSeq : Z;     (* acks must answer sends at or after this *)
  pr_acks : gset Z
}.

Record readOutcome := mkOutcome {
  ro_id : Z;
  ro_index : Z;
  ro_confirmed : bool
}.

Record core (D : Type) := mkCore {
  cfg : Config;
  role : Role;
  term : Z;
  votedFor : Z;
  leaderID : Z;
  entries : list Entry;
  disk : D;
  commitIndex : Z;
  electionElapsed : Z;
  electionTimeout : Z;
  heartbeatElapsed : Z;
  ticksSinceLeader : Z;
  votes : option (gset Z);
  preVotes : option (gset Z);
  outbox : list outbound;
  nextIndex : option (gmap Z Z);
  matchIndex : option (gmap Z Z);
  committed : list Entry;
  lastDelivered : Z;
  snapIndex : Z;
  snapTerm : Z;
  snapConfig : Members;
  pendingRestore : bytes;
  members : Members;
  lastConfigIndex : Z;
  configVersion : Z;
  transferTarget : Z;
  transferTicks : Z;
  appendSeq : Z;
  readCounter : Z;
  pendingReads : list pendingRead;
  readOutcomes : list readOutcome;
  rt : nat
}.
Arguments mkCore {D}.
Arguments cfg {D} _.
Arguments role {D} _.
Arguments term {D} _.
Arguments votedFor {D} _.
Arguments leaderID {D} _.
Arguments entries {D} _.
Arguments disk {D} _.
Arguments commitIndex {D} _.
Arguments electionElapsed {D} _.
Arguments electionTimeout {D} _.
Arguments heartbeatElapsed {D} _.
Arguments ticksSinceLeader {D} _.
Arguments votes {D} _.
Arguments preVotes {D} _.
Arguments outbox {D} _.
Arguments nextIndex {D} _.
Arguments matchIndex {D} _.
Arguments committed {D} _.
Arguments lastDelivered {D} _.
Arguments snapIndex {D} _.
Arguments snapTerm {D} _.
Arguments snapConfig {D} _.
Arguments pendingRestore {D} _.
Arguments members {D} _.
Arguments lastConfigIndex {D} _.
Arguments configVersion {D} _.
Arguments transferTarget {D} _.
Arguments transferTicks {D} _.
Arguments appendSeq {D} _.
Arguments readCounter {D} _.
Arguments pendingReads {D} _.
Arguments readOutcomes {D} _.
Arguments rt {D} _.

#[export] Instance core_eta {D} : Settable (core D) := λ c,
  mkCore (cfg c) (role c) (term c) (votedFor c) (leaderID c) (entries c) (disk c) 
    (commitIndex c) (electionElapsed c) (electionTimeout c) (heartbeatElapsed c) 
    (ticksSinceLeader c) (votes c) (preVotes c) (outbox c) (nextIndex c) (matchIndex c) 
    (committed c) (lastDelivered c) (snapIndex c) (snapTerm c) (snapConfig c) 
    (pendingRestore c) (members c) (lastConfigIndex c) (configVersion c) 
    (transferTarget c) (transferTicks c) (appendSeq c) (readCounter c) (pendingReads c) 
    (readOutcomes c) (rt c).
#[export] Instance set_role {D} : Setter (@role D) := ltac:(solve_setter).
#[export] Instance set_term {D} : Setter (@term D) := ltac:(solve_setter).
#[export] Instance set_votedFor {D} : Setter (@votedFor D) := ltac:(solve_setter).
#[export] Instance set_leaderID {D} : Setter (@leaderID D) := ltac:(solve_setter).
#[export] Instance set_entries {D} : Setter (@entries D) := ltac:(solve_setter).
#[export] Instance set_disk {D} : Setter (@disk D) := ltac:(solve_setter).
#[export] Instance set_commitIndex {D} : Setter (@commitIndex D) := ltac:(solve_setter).
#[export] Instance set_electionElapsed {D} : Setter (@electionElapsed D) := ltac:(solve_setter).
#[export] Instance set_electionTimeout {D} : Setter (@electionTimeout D) := ltac:(solve_setter).
#[export] Instance set_heartbeatElapsed {D} : Setter (@heartbeatElapsed D) := ltac:(solve_setter).
#[export] Instance set_ticksSinceLeader {D} : Setter (@ticksSinceLeader D) := ltac:(solve_setter).
#[export] Instance set_votes {D} : Setter (@votes D) := ltac:(solve_setter).
#[export] Instance set_preVotes {D} : Setter (@preVotes D) := ltac:(solve_setter).
#[export] Instance set_outbox {D} : Setter (@outbox D) := ltac:(solve_setter).
#[export] Instance set_nextIndex {D} : Setter (@nextIndex D) := ltac:(solve_setter).
#[export] Instance set_matchIndex {D} : Setter (@matchIndex D) := ltac:(solve_setter).
#[export] Instance set_committed {D} : Setter (@committed D) := ltac:(solve_setter).
#[export] Instance set_lastDelivered {D} : Setter (@lastDelivered D) := ltac:(solve_setter).
#[export] Instance set_snapIndex {D} : Setter (@snapIndex D) := ltac:(solve_setter).
#[export] Instance set_snapTerm {D} : Setter (@snapTerm D) := ltac:(solve_setter).
#[export] Instance set_snapConfig {D} : Setter (@snapConfig D) := ltac:(solve_setter).
#[export] Instance set_pendingRestore {D} : Setter (@pendingRestore D) := ltac:(solve_setter).
#[export] Instance set_members {D} : Setter (@members D) := ltac:(solve_setter).
#[export] Instance set_lastConfigIndex {D} : Setter (@lastConfigIndex D) := ltac:(solve_setter).
#[export] Instance set_configVersion {D} : Setter (@configVersion D) := ltac:(solve_setter).
#[export] Instance set_transferTarget {D} : Setter (@transferTarget D) := ltac:(solve_setter).
#[export] Instance set_transferTicks {D} : Setter (@transferTicks D) := ltac:(solve_setter).
#[export] Instance set_appendSeq {D} : Setter (@appendSeq D) := ltac:(solve_setter).
#[export] Instance set_readCounter {D} : Setter (@readCounter D) := ltac:(solve_setter).
#[export] Instance set_pendingReads {D} : Setter (@pendingReads D) := ltac:(solve_setter).
#[export] Instance set_readOutcomes {D} : Setter (@readOutcomes D) := ltac:(solve_setter).
#[export] Instance set_rt {D} : Setter (@rt D) := ltac:(solve_setter).

(** Maps that may be nil. *)
Definition map_get (m : option (gmap Z Z)) (k : Z) : Z := default 0 (m ≫= lookup k).
Definition map_tracked (m : option (gmap Z Z)) (k : Z) : bool :=
  bool_decide (is_Some (m ≫= lookup k)).
Definition map_put (k v : Z) (m : option (gmap Z Z)) : outcome (option (gmap Z Z)) :=
  match m with Some m => Ok (Some (<[k := v]> m)) | None => Panic end.
Definition map_delete (k : Z) (m : option (gmap Z Z)) : option (gmap Z Z) := delete k <$> m.
Definition set_put (k : Z) (s : option (gset Z)) : outcome (option (gset Z)) :=
  match s with Some s => Ok (Some ({[k]} ∪ s)) | None => Panic end.
Definition set_len (s : option (gset Z)) : Z :=
  match s with Some s => Z.of_nat (size s) | None => 0 end.

Section core.
Context {D : Type} `{RaftDisk D} `{GoRuntime}.

Abbreviation C := (core D).

(** ** core.go: queries *)

Definition lastLogIndex (c : C) : Z :=
  match last (entries c) with
  | None => snapIndex c
  | Some e => Index e
  end.

Definition lastLogTerm (c : C) : Z :=
  match last (entries c) with
  | None => snapTerm c
  | Some e => Term e
  end.

Definition termAt (c : C) (index : Z) : outcome Z :=
  if index =? snapIndex c then Ok (snapTerm c) else
  match entries c with
  | [] => Ok 0
  | e0 :: _ =>
      if index =? 0 then Ok 0 else
      let base := Index e0 in
      if (index <? base) || (lastLogIndex c <? index) then Ok 0 else
      e ← zindex (entries c) (u64 (index - base));
      Ok (Term e)
  end.

(** [len(c.members)/2 + 1] *)
Definition majority (c : C) : Z := Z.of_nat (size (members c)) / 2 + 1.

Definition isMember (c : C) : bool := bool_decide (is_Some (members c !! ID (cfg c))).

Definition logUpToDate (c : C) (lastIndex lastTerm : Z) : bool :=
  if negb (lastTerm =? lastLogTerm c) then lastLogTerm c <? lastTerm
  else lastLogIndex c <=? lastIndex.

(** The keys of [c.members] but our own, in the order of this iteration. *)
Definition peerIDs : M C (list Z) :=
  c ← get;
  modify (set rt S);;
  mret (filter (λ id, id ≠ ID (cfg c)) (map_order (rt c) (elements (dom (members c))))).

Definition resetElectionTimer : M C () :=
  c ← get;
  let span := ElectionTicksMax (cfg c) - ElectionTicksMin (cfg c) in
  modify (set electionElapsed (λ _, 0));;
  if span <=? 0 then panic else       (* rng.Intn panics *)
  modify (λ c, c <| electionTimeout := ElectionTicksMin (cfg c) + rand_intn (rt c) span |>
                 <| rt ::= S |>).

Definition takeOutbox : M C (list outbound) :=
  c ← get; modify (set outbox (λ _, []));; mret (outbox c).

Definition takeCommitted : M C (list Entry) :=
  c ← get; modify (set committed (λ _, []));; mret (committed c).

Definition takeReadOutcomes : M C (list readOutcome) :=
  c ← get; modify (set readOutcomes (λ _, []));; mret (readOutcomes c).

Definition takeRestore : M C bytes :=
  c ← get; modify (set pendingRestore (λ _, []));; mret (pendingRestore c).

Definition send (o : outbound) : M C () := modify (set outbox (λ l, l ++ [o])).

(** ** readindex.go *)

Definition confirmReads : M C bool :=
  c ← get;
  let done_ := filter (λ r, majority c ≤ Z.of_nat (size (pr_acks r))) (pendingReads c) in
  let remaining := filter (λ r, ¬ majority c ≤ Z.of_nat (size (pr_acks r))) (pendingReads c) in
  modify (λ c, c <| readOutcomes ::= λ l, l ++ ((λ r, mkOutcome (pr_id r) (pr_index r) true) <$> done_) |>
                 <| pendingReads := remaining |>);;
  mret (bool_decide (remaining = [])).

Definition abortPendingReads : M C () :=
  modify (λ c, c <| readOutcomes ::= λ l, l ++ ((λ r, mkOutcome (pr_id r) 0 false) <$> pendingReads c) |>
                 <| pendingReads := [] |>).

Definition noteFreshAck (from seq : Z) : M C () :=
  c ← get;
  let touched := existsb (λ r, pr_minSeq r <=? seq) (pendingReads c) in
  modify (set pendingReads (fmap (λ r,
    if pr_minSeq r <=? seq
    then mkRead (pr_id r) (pr_index r) (pr_minSeq r) ({[from]} ∪ pr_acks r) else r)));;
  if touched then confirmReads;; mret () else mret ().

(** ** replication.go: sending *)

(** The loop that fills a request from index [i]; it stops at [last] or once
    the commands reach [maxAppendBytes].  An index beyond the slice panics, so
    [length entries + 1] rounds are enough. *)
Fixpoint fill_entries (fuel : nat) (l : list Entry) (base i last payload : Z)
    : outcome (list Entry) :=
  if last <? i then Ok [] else
  match fuel with
  | O => Panic
  | S fuel' =>
      e ← zindex l (u64 (i - base));
      let payload := payload + zlength (EntryCommand e) in
      if maxAppendBytes <=? payload then Ok [e] else
      rest ← fill_entries fuel' l base (u64 (i + 1)) last payload;
      Ok (e :: rest)
  end.

Definition sendAppend (peer : Z) : M C () :=
  c ← get;
  let next := if map_get (nextIndex c) peer =? 0 then 1 else map_get (nextIndex c) peer in
  if next <=? snapIndex c then
    r ← attempt (zoom disk loadSnapshot);
    match r with
    | inr _ => mret ()                (* logged *)
    | inl snap =>
        send (OutInstallSnapshot peer
          (mkIS (term c) (ID (cfg c)) (lastIndex snap) (lastTerm snap) (data snap)
                (encodeMembers (default ∅ (config snap)))))
    end
  else
    let prev := u64 (next - 1) in
    modify (set appendSeq (λ n, u64 (n + 1)));;
    prevTerm ← lift (termAt c prev);
    ents ← lift (match entries c with
                 | e0 :: _ =>
                     if next <=? lastLogIndex c
                     then fill_entries (S (length (entries c))) (entries c) (Index e0) next
                            (lastLogIndex c) 0
                     else Ok []
                 | [] => Ok []
                 end);
    send (OutAppendEntries peer
      (mkAE (term c) (ID (cfg c)) prev prevTerm ents (commitIndex c) (u64 (appendSeq c + 1)))).

Definition broadcastAppends : M C () :=
  ids ← peerIDs;
  for_each ids sendAppend.

(** ** replication.go: committing *)

(** The body of the loop of [deliverCommitted] at index [i]. *)
Definition deliver_one (base i : Z) : M C () :=
  c ← get;
  e ← lift (zindex (entries c) (u64 (i - base)));
  modify (set committed (λ l, l ++ [e]));;
  if (Type_ e =? ENTRY_TYPE_CONFIG) && bool_decide (role c = leader) && negb (isMember c) then
    modify (λ c, c <| role := follower |> <| leaderID := 0 |> <| transferTarget := 0 |>);;
    abortPendingReads
  else mret ().

Fixpoint deliver_loop (fuel : nat) (base i commit : Z) : M C () :=
  if commit <? i then mret () else
  match fuel with
  | O => panic
  | S fuel' => deliver_one base i;; deliver_loop fuel' base (u64 (i + 1)) commit
  end.

Definition deliverCommitted : M C () :=
  c ← get;
  match entries c with
  | [] => mret ()
  | e0 :: _ =>
      deliver_loop (S (length (entries c))) (Index e0) (u64 (lastDelivered c + 1)) (commitIndex c);;
      modify (λ c, if lastDelivered c <? commitIndex c
                   then c <| lastDelivered := commitIndex c |> else c)
  end.

(** How many members store index [n]: the leader itself, if it is one, and
    every peer whose [matchIndex] has reached it. *)
Definition replicas (c : C) (ids : list Z) (n : Z) : Z :=
  (if isMember c then 1 else 0) +
  zlength (filter (λ id, n ≤ map_get (matchIndex c) id) ids).

(** The loop of [maybeAdvanceCommit] at index [n], at most down to
    [commitIndex]. *)
Fixpoint advance_loop (fuel : nat) (n : Z) : M C () :=
  match fuel with
  | O => mret ()
  | S fuel' =>
      c ← get;
      if negb (commitIndex c <? n) then mret () else
      t ← lift (termAt c n);
      if negb (t =? term c) then mret () else
      ids ← peerIDs;
      if majority c <=? replicas c ids n then
        modify (set commitIndex (λ _, n));;
        deliverCommitted
      else advance_loop fuel' (u64 (n - 1))
  end.

Definition maybeAdvanceCommit : M C () :=
  c ← get;
  advance_loop (Z.to_nat (lastLogIndex c - commitIndex c)) (lastLogIndex c).

(** ** core.go: elections *)

Definition stepDown (t : Z) : M C () :=
  modify (λ c, c <| role := follower |> <| term := t |> <| votedFor := noVote |>
                 <| leaderID := 0 |> <| votes := None |> <| preVotes := None |>
                 <| transferTarget := 0 |>);;
  abortPendingReads;;
  wrap "raft: persisting step-down: %w" (zoom disk (saveState t noVote)).

Definition maybeWinElection : M C () :=
  c ← get;
  if negb (bool_decide (role c = candidate)) || (set_len (votes c) <? majority c)
  then mret () else
  modify (λ c, c <| role := leader |> <| leaderID := ID (cfg c) |> <| heartbeatElapsed := 0 |>
                 <| preVotes := None |> <| transferTarget := 0 |>);;
  ids ← peerIDs;
  c ← get;
  modify (λ c, c <| nextIndex := Some (list_to_map ((λ id, (id, u64 (lastLogIndex c + 1))) <$> ids)) |>
                 <| matchIndex := Some ∅ |>);;
  let noop := mkEntry (term c) (u64 (lastLogIndex c + 1)) ENTRY_TYPE_NOOP [] in
  wrap "raft: persisting term-start no-op: %w" (zoom disk (logAppend [noop]));;
  modify (set entries (λ l, l ++ [noop]));;
  broadcastAppends;;
  maybeAdvanceCommit.

Definition vote_request (c : C) (t : Z) (pre : bool) : RequestVoteRequest :=
  mkRV t (ID (cfg c)) (lastLogIndex c) (lastLogTerm c) pre.

Definition startCampaign : M C () :=
  modify (λ c, c <| role := candidate |> <| term ::= λ t, u64 (t + 1) |>
                 <| votedFor := ID (cfg c) |> <| leaderID := 0 |>
                 <| votes := Some {[ID (cfg c)]} |>);;
  resetElectionTimer;;
  c ← get;
  wrap "raft: persisting candidacy: %w" (zoom disk (saveState (term c) (votedFor c)));;
  ids ← peerIDs;
  for_each ids (λ id, send (OutRequestVote id (vote_request c (term c) false)));;
  maybeWinElection.

(** ** leadership.go: pre-vote *)

Definition maybeWinPreVote : M C () :=
  c ← get;
  match preVotes c with
  | None => mret ()
  | Some s =>
      if Z.of_nat (size s) <? majority c then mret () else
      modify (set preVotes (λ _, None));;
      startCampaign
  end.

Definition startPreCampaign : M C () :=
  modify (λ c, c <| preVotes := Some {[ID (cfg c)]} |>);;
  resetElectionTimer;;
  c ← get;
  ids ← peerIDs;
  for_each ids (λ id, send (OutRequestVote id (vote_request c (u64 (term c + 1)) true)));;
  maybeWinPreVote.

Definition handlePreVote (c : C) (req : RequestVoteRequest) : RequestVoteResponse :=
  if negb (leaderID c =? 0) && (ticksSinceLeader c <? ElectionTicksMin (cfg c))
  then mkRVR (term c) false
  else mkRVR (term c) ((term c <? rv_term req) &&
                       logUpToDate c (rv_lastLogIndex req) (rv_lastLogTerm req)).

Definition handlePreVoteResponse (from askedTerm : Z) (resp : RequestVoteResponse) : M C () :=
  c ← get;
  if term c <? rvr_term resp then stepDown (rvr_term resp) else
  if negb (bool_decide (role c = follower)) || negb (askedTerm =? u64 (term c + 1)) ||
     bool_decide (preVotes c = None) then mret () else
  if rvr_voteGranted resp then
    pv ← lift (set_put from (preVotes c));
    modify (set preVotes (λ _, pv));;
    maybeWinPreVote
  else mret ().

(** ** core.go: votes and time *)

Definition handleRequestVote (req : RequestVoteRequest) : M C RequestVoteResponse :=
  c ← get;
  if rv_preVote req then mret (handlePreVote c req) else
  (if term c <? rv_term req then stepDown (rv_term req) else mret ());;
  c ← get;
  if rv_term req <? term c then mret (mkRVR (term c) false) else
  let canVote := (votedFor c =? noVote) || (votedFor c =? rv_candidateId req) in
  if canVote && logUpToDate c (rv_lastLogIndex req) (rv_lastLogTerm req) then
    (if negb (votedFor c =? rv_candidateId req) then
       modify (set votedFor (λ _, rv_candidateId req));;
       zoom disk (saveState (term c) (rv_candidateId req))
     else mret ());;
    resetElectionTimer;;
    mret (mkRVR (term c) true)
  else mret (mkRVR (term c) false).

Definition handleVoteResponse (from campaignTerm : Z) (resp : RequestVoteResponse) : M C () :=
  c ← get;
  if term c <? rvr_term resp then stepDown (rvr_term resp) else
  if negb (bool_decide (role c = candidate)) || negb (campaignTerm =? term c) then mret () else
  if rvr_voteGranted resp then
    vs ← lift (set_put from (votes c));
    modify (set votes (λ _, vs));;
    maybeWinElection
  else mret ().

Definition tick : M C () :=
  c ← get;
  if bool_decide (role c = leader) then
    modify (set ticksSinceLeader (λ _, 0));;
    modify (λ c, if transferTarget c =? 0 then c else
      let c := c <| transferTicks ::= λ n, i64 (n - 1) |> in
      if transferTicks c <=? 0 then c <| transferTarget := 0 |> else c);;
    modify (set heartbeatElapsed (λ n, i64 (n + 1)));;
    c ← get;
    if HeartbeatTicks (cfg c) <=? heartbeatElapsed c then
      modify (set heartbeatElapsed (λ _, 0));;
      broadcastAppends
    else mret ()
  else
    modify (λ c, c <| electionElapsed ::= λ n, i64 (n + 1) |>
                   <| ticksSinceLeader ::= λ n, i64 (n + 1) |>);;
    c ← get;
    if electionTimeout c <=? electionElapsed c then
      if negb (isMember c) then resetElectionTimer
      else if DisablePreVote (cfg c) then startCampaign
      else startPreCampaign
    else mret ().

(** ** membership.go *)

Definition applyConfChange (cc : confChange) (index : Z) : M C () :=
  c ← get;
  (if bool_decide (cc_op cc = confChangeAdd) then
     modify (set members (insert (cc_id cc) (cc_addr cc)));;
     if bool_decide (role c = leader) && negb (map_tracked (nextIndex c) (cc_id cc)) then
       ni ← lift (map_put (cc_id cc) (u64 (lastLogIndex c + 1)) (nextIndex c));
       modify (set nextIndex (λ _, ni));;
       mi ← lift (map_put (cc_id cc) 0 (matchIndex c));
       modify (set matchIndex (λ _, mi))
     else mret ()
   else if bool_decide (cc_op cc = confChangeRemove) then
     modify (λ c, c <| members ::= delete (cc_id cc) |>
                    <| nextIndex ::= map_delete (cc_id cc) |>
                    <| matchIndex ::= map_delete (cc_id cc) |>)
   else mret ());;
  modify (λ c, c <| lastConfigIndex := index |> <| configVersion ::= λ v, u64 (v + 1) |>).

Definition noteAppendedConfigs (l : list Entry) : M C () :=
  for_each l (λ e,
    if negb (Type_ e =? ENTRY_TYPE_CONFIG) then mret () else
    match decodeConfChange (EntryCommand e) with
    | Ok cc => applyConfChange cc (Index e)
    | Err _ => mret ()                (* logged *)
    | Panic => panic
    | Crash => panic
    end).

(** [lastConfigIndex] as [recalcConfig] computes it: the index of the last
    decodable config entry of the log. *)
Definition last_config_index (l : list Entry) : Z :=
  foldl (λ i e, if Type_ e =? ENTRY_TYPE_CONFIG then
                  match decodeConfChange (EntryCommand e) with
                  | Ok _ => Index e
                  | _ => i
                  end
                else i) 0 l.

Definition recalcConfig : M C () :=
  modify (λ c, c <| lastConfigIndex := last_config_index (entries c) |>
                 <| members := fold_members (snapConfig c) (entries c) |>
                 <| configVersion ::= λ v, u64 (v + 1) |>).

(** The entries up to the first one beyond [index]. *)
Fixpoint entries_through (index : Z) (l : list Entry) : list Entry :=
  match l with
  | [] => []
  | e :: l' => if index <? Index e then [] else e :: entries_through index l'
  end.

Definition configAt (c : C) (index : Z) : Members :=
  fold_members (snapConfig c) (entries_through index (entries c)).

(** ** replication.go: the follower *)

Definition truncateAndAppend (l : list Entry) : M C () :=
  c ← get;
  first ← lift (zindex l 0);
  let first := Index first in
  if first <=? commitIndex c
  then throw (EMsg "raft: leader tried to truncate committed entry %d (commit %d)") else
  truncated ←
    match entries c with
    | e0 :: _ =>
        if first <=? lastLogIndex c then
          cut ← lift (zslice_from (entries c) (u64 (first - Index e0)));
          kept ← lift (zslice_to (entries c) (u64 (first - Index e0)));
          modify (set entries (λ _, kept));;
          mret (existsb (λ e, Type_ e =? ENTRY_TYPE_CONFIG) cut)
        else mret false
    | [] => mret false
    end;
  wrap "raft: persisting entries: %w" (zoom disk (logAppend l));;
  modify (set entries (λ k, k ++ l));;
  if (truncated : bool) then recalcConfig else noteAppendedConfigs l.

Fixpoint first_index_loop (fuel : nat) (c : C) (t i : Z) : outcome Z :=
  match fuel with
  | O => Ok i
  | S fuel' =>
      if negb (1 <? i) then Ok i else
      t' ← termAt c (u64 (i - 1));
      if t' =? t then first_index_loop fuel' c t (u64 (i - 1)) else Ok i
  end.
Definition firstIndexOfTerm (c : C) (t from : Z) : outcome Z :=
  first_index_loop (Z.to_nat from) c t from.

Fixpoint last_index_loop (fuel : nat) (c : C) (t i : Z) : outcome Z :=
  match fuel with
  | O => Ok 0
  | S fuel' =>
      if negb (0 <? i) then Ok 0 else
      t' ← termAt c i;
      if t' =? t then Ok i else
      if (t' <? t) || (t' =? 0) then Ok 0 else
      last_index_loop fuel' c t (u64 (i - 1))
  end.
Definition lastIndexOfTerm (c : C) (t : Z) : outcome Z :=
  last_index_loop (Z.to_nat (lastLogIndex c)) c t (lastLogIndex c).

(** The entries from the first one the follower does not hold. *)
Fixpoint new_entries (c : C) (l : list Entry) : outcome (list Entry) :=
  match l with
  | [] => Ok []
  | pe :: l' =>
      if lastLogIndex c <? Index pe then Ok l else
      t ← termAt c (Index pe);
      if negb (t =? Term pe) then Ok l else new_entries c l'
  end.

(** The log-matching check: [None] when it passes, else the conflict hints
    [(conflictTerm, conflictIndex)]. *)
Definition check_prev (c : C) (prevIndex prevTerm : Z) : outcome (option (Z * Z)) :=
  if negb (0 <? prevIndex) then Ok None else
  if lastLogIndex c <? prevIndex then Ok (Some (0, u64 (lastLogIndex c + 1))) else
  t ← termAt c prevIndex;
  if t =? prevTerm then Ok None else
  i ← firstIndexOfTerm c t prevIndex;
  Ok (Some (t, i)).

(** A request at our own term comes from its leader. *)
Definition recognize_leader (id : Z) : M C () :=
  modify (λ c, if bool_decide (role c = follower) then c
               else c <| role := follower |> <| votes := None |>);;
  modify (set leaderID (λ _, id));;
  resetElectionTimer;;
  modify (set ticksSinceLeader (λ _, 0)).

Definition handleAppendEntries (req : AppendEntriesRequest) : M C AppendEntriesResponse :=
  c ← get;
  (if term c <? ae_term req then stepDown (ae_term req) else mret ());;
  c ← get;
  if ae_term req <? term c then mret (mkAER (term c) false (ae_seq req) 0 0) else
  recognize_leader (ae_leaderId req);;
  c ← get;
  conflict ← lift (check_prev c (ae_prevLogIndex req) (ae_prevLogTerm req));
  match conflict with
  | Some (ct, ci) => mret (mkAER (term c) false (ae_seq req) ct ci)
  | None =>
      toAppend ← lift (new_entries c (ae_entries req));
      (if bool_decide (toAppend = []) then mret () else truncateAndAppend toAppend);;
      c ← get;
      let lastNew := u64 (ae_prevLogIndex req + zlength (ae_entries req)) in
      (if commitIndex c <? ae_leaderCommit req then
         modify (set commitIndex (λ _, Z.min (ae_leaderCommit req) lastNew));;
         deliverCommitted
       else mret ());;
      c ← get;
      mret (mkAER (term c) true (ae_seq req) 0 0)
  end.

(** ** replication.go and leadership.go: the leader *)

Definition propose (command : bytes) (typ : Z) : M C (Z * Z) :=
  c ← get;
  if negb (bool_decide (role c = leader)) then throw (ENotLeader (leaderID c)) else
  if negb (transferTarget c =? 0) then throw (ENotLeader (transferTarget c)) else
  let e := mkEntry (term c) (u64 (lastLogIndex c + 1)) typ command in
  r ← attempt (zoom disk (logAppend [e]));
  match r with
  | inr err => throw (EPersistFailure err)
  | inl _ =>
      modify (set entries (λ l, l ++ [e]));;
      broadcastAppends;;
      maybeAdvanceCommit;;
      mret (Index e, Term e)
  end.

Definition sendTimeoutNow (to : Z) : M C () :=
  c ← get; send (OutTimeoutNow to (mkTN (term c) (ID (cfg c)))).

Definition put_next (from v : Z) : M C () :=
  c ← get; ni ← lift (map_put from v (nextIndex c)); modify (set nextIndex (λ _, ni)).
Definition put_match (from v : Z) : M C () :=
  c ← get; mi ← lift (map_put from v (matchIndex c)); modify (set matchIndex (λ _, mi)).

Definition handleAppendResponse (from : Z) (req : AppendEntriesRequest)
    (resp : AppendEntriesResponse) : M C () :=
  c ← get;
  if term c <? aer_term resp then stepDown (aer_term resp) else
  if negb (bool_decide (role c = leader)) || negb (ae_term req =? term c) then mret () else
  if aer_success resp then
    noteFreshAck from (aer_seq resp);;
    let m := u64 (ae_prevLogIndex req + zlength (ae_entries req)) in
    c ← get;
    (if map_get (matchIndex c) from <? m then
       put_match from m;;
       put_next from (u64 (m + 1));;
       maybeAdvanceCommit
     else mret ());;
    c ← get;
    (if (from =? transferTarget c) && (map_get (matchIndex c) from =? lastLogIndex c)
     then sendTimeoutNow from else mret ());;
    c ← get;
    if map_get (nextIndex c) from <=? lastLogIndex c then sendAppend from else mret ()
  else
    next ← (if negb (aer_conflictTerm resp =? 0) then
              last ← lift (lastIndexOfTerm c (aer_conflictTerm resp));
              mret (if negb (last =? 0) then u64 (last + 1) else aer_conflictIndex resp)
            else mret (aer_conflictIndex resp));
    let next := if next =? 0 then 1 else next in
    (if next <? map_get (nextIndex c) from then put_next from next
     else put_next from (Z.max 1 (u64 (map_get (nextIndex c) from - 1))));;
    sendAppend from.

Definition proposeConfChange (cc : confChange) : M C (Z * Z) :=
  c ← get;
  if negb (bool_decide (role c = leader)) then throw (ENotLeader (leaderID c)) else
  if commitIndex c <? lastConfigIndex c
  then throw (EMsg "raft: a membership change is already in flight (index %d, commit %d)") else
  if bool_decide (cc_op cc = confChangeAdd) && bool_decide (members c !! cc_id cc = Some (cc_addr cc))
  then throw (EMsg "raft: node %d is already a member") else
  if negb (bool_decide (cc_op cc = confChangeAdd)) && bool_decide (members c !! cc_id cc = None)
  then throw (EMsg "raft: node %d is not a member") else
  '(index, t) ← propose (encodeConfChange cc) ENTRY_TYPE_CONFIG;
  applyConfChange cc index;;
  mret (index, t).

Definition transferLeadership (to : Z) : M C () :=
  c ← get;
  if negb (bool_decide (role c = leader)) then throw (ENotLeader (leaderID c)) else
  if to =? ID (cfg c) then mret () else
  if bool_decide (members c !! to = None)
  then throw (EMsg "raft: transfer target %d is not a member") else
  modify (λ c, c <| transferTarget := to |> <| transferTicks := ElectionTicksMax (cfg c) |>);;
  if map_get (matchIndex c) to =? lastLogIndex c then sendTimeoutNow to else sendAppend to.

Definition handleTimeoutNow (req : TimeoutNowRequest) : M C () :=
  c ← get;
  (if term c <? tn_term req then stepDown (tn_term req) else mret ());;
  c ← get;
  if tn_term req <? term c then mret () else startCampaign.

Definition requestRead : M C Z :=
  c ← get;
  if negb (bool_decide (role c = leader)) then throw (ENotLeader (leaderID c)) else
  t ← lift (termAt c (commitIndex c));
  if negb (t =? term c) then throw ELeaderNotReady else
  modify (set readCounter (λ n, u64 (n + 1)));;
  c ← get;
  modify (set pendingReads (λ l, l ++
    [mkRead (readCounter c) (commitIndex c) (u64 (appendSeq c + 1)) {[ID (cfg c)]}]));;
  b ← confirmReads;
  (if (b : bool) then mret () else broadcastAppends);;
  mret (readCounter c).

(** ** raftsnap.go *)

Definition compact (appliedIndex : Z) (smData : bytes) : M C () :=
  c ← get;
  if appliedIndex <=? snapIndex c then mret () else
  if lastDelivered c <? appliedIndex
  then throw (EMsg "raft: cannot compact through %d: only applied through %d") else
  t ← lift (termAt c appliedIndex);
  let snap := mkSnap appliedIndex t (Some (configAt c appliedIndex)) smData in
  wrap "raft: persisting snapshot: %w" (zoom disk (saveSnapshot snap));;
  e0 ← lift (zindex (entries c) 0);
  keep ← lift (zslice_from (entries c) (u64 (appliedIndex - Index e0 + 1)));
  wrap "raft: rewriting compacted log: %w" (zoom disk (logRewrite keep));;
  modify (λ c, c <| entries := keep |> <| snapIndex := lastIndex snap |>
                 <| snapTerm := lastTerm snap |> <| snapConfig := default ∅ (config snap) |>).

Definition handleInstallSnapshot (req : InstallSnapshotRequest) : M C InstallSnapshotResponse :=
  c ← get;
  (if term c <? is_term req then stepDown (is_term req) else mret ());;
  c ← get;
  if is_term req <? term c then mret (mkISR (term c)) else
  recognize_leader (is_leaderId req);;
  c ← get;
  let idx := is_lastIncludedIndex req in
  let t := is_lastIncludedTerm req in
  if (idx <=? snapIndex c) || (idx <=? commitIndex c) then mret (mkISR (term c)) else
  cfg' ← wrap "raft: snapshot config: %w" (lift (decodeMembers (is_config req)));
  wrap "raft: persisting installed snapshot: %w"
    (zoom disk (saveSnapshot (mkSnap idx t (Some cfg') (is_data req))));;
  keep ← lift (if idx <=? lastLogIndex c then
                 t' ← termAt c idx;
                 if t' =? t then
                   e0 ← zindex (entries c) 0;
                   zslice_from (entries c) (u64 (idx - Index e0 + 1))
                 else Ok []
               else Ok []);
  wrap "raft: rewriting log for snapshot: %w" (zoom disk (logRewrite keep));;
  modify (λ c, c <| entries := keep |> <| snapIndex := idx |> <| snapTerm := t |>
                 <| snapConfig := cfg' |> <| commitIndex ::= Z.max idx |>
                 <| lastDelivered ::= Z.max idx |>);;
  recalcConfig;;
  modify (set pendingRestore (λ _, is_data req));;
  mret (mkISR (term c)).

Definition handleInstallSnapshotResponse (from : Z) (req : InstallSnapshotRequest)
    (resp : InstallSnapshotResponse) : M C () :=
  c ← get;
  if term c <? isr_term resp then stepDown (isr_term resp) else
  if negb (bool_decide (role c = leader)) || negb (is_term req =? term c) then mret () else
  let idx := is_lastIncludedIndex req in
  (if map_get (matchIndex c) from <? idx then
     put_match from idx;;
     put_next from (u64 (idx + 1))
   else mret ());;
  c ← get;
  if map_get (nextIndex c) from <=? lastLogIndex c then sendAppend from else mret ().

(** ** core.go: construction *)

Definition initial_core (cfg : Config) (d : D) (t v : Z) (snap : raftSnapshot)
    (l : list Entry) (mem0 : Members) : C :=
  mkCore cfg follower t v 0 l d (lastIndex snap) 0 0 0 0 None None [] None None []
    (lastIndex snap) (lastIndex snap) (lastTerm snap) (default mem0 (config snap))
    (data snap) ∅ 0 0 0 0 0 0 [] [] 0.

(** The members a configuration names: [cfg.Members], or, when that is nil, the node
    and its [cfg.PeerIDs], all without an address. *)
Definition config_members (id : Z) (members : option Members) (peerIDs : list Z) : outcome Members :=
  match members with
  | Some m => Ok m
  | None =>
      if bool_decide (id ∈ peerIDs) then Err (EMsg "raft: PeerIDs must not contain the node's own ID %d")
      else Ok (foldl (λ m p, <[p := []]> m) {[id := []]} peerIDs)
  end.

(** [newCore]: recover term, vote, snapshot and log, then rebuild the
    membership.  [mem0] is what [config_members] gives. *)
Definition newCore (cfg : Config) (mem0 : Members) (d : D) : outcome C * D :=
  if ID cfg =? 0 then (Err (EMsg "raft: node ID must be nonzero"), d) else
  let load : M D (Z * Z * raftSnapshot * list Entry) :=
    '(t, v) ← loadState;
    snap ← loadSnapshot;
    l ← logOpen (lastIndex snap);
    mret (t, v, snap, l) in
  match load d with
  | (Ok (t, v, snap, l), d') =>
      let c := initial_core (applyDefaults cfg) d' t v snap l mem0 in
      match (recalcConfig;; resetElectionTimer) c with
      | (Ok _, c') => (Ok c', d')
      | (Err e, _) => (Err e, d')
      | (Panic, _) => (Panic, d')
      | (Crash, _) => (Crash, d')
      end
  | (Err e, d') => (Err e, d')
  | (Panic, d') => (Panic, d')
  | (Crash, d') => (Crash, d')
  end.

(** [newCore] from the configuration as it is written. *)
Definition newCore_from (cfg : Config) (members : option Members) (peerIDs : list Z) (d : D) : outcome C * D :=
  if ID cfg =? 0 then (Err (EMsg "raft: node ID must be nonzero"), d) else
  match config_members (ID cfg) members peerIDs with
  | Ok mem0 => newCore cfg mem0 d
  | Err e => (Err e, d)
  | Panic => (Panic, d)
  | Crash => (Crash, d)
  end.

(** The table made of [cfg.PeerIDs] has the node and its peers, once each. *)
Lemma config_members_dom id peerIDs m :
  config_members id None peerIDs = Ok m → dom m = {[id]} ∪ list_to_set peerIDs ∧ id ∉ peerIDs.
Proof.
  cbn. case_bool_decide as Hid; [done|]. intros [= <-]. split; [|done]. clear Hid.
  assert (∀ m0 : Members, dom (foldl (λ m p, <[p := []]> m) m0 peerIDs) = dom m0 ∪ list_to_set peerIDs) as Hd.
  { induction peerIDs as [|p l IH]; intros m0; cbn; [set_solver|]. rewrite IH, dom_insert_L. set_solver. }
  by rewrite Hd, dom_singleton_L.
Qed.
End core.
