(* ===== verification/CoreVotes.v ===== *)
(** * The core's vote discipline

    What every handler of the core keeps, whatever its outcome and wherever a
    crash cuts it: a node's durable term and vote only move forward, a vote is
    on disk before it is announced, and a candidate or leader holds the votes
    it counts.  The cluster-level theorems compose these facts.

    The membership [Cfg] is fixed here: the logs and messages considered carry
    no membership change. *)

From stdpp Require Import prelude gmap strings sorting.
From S2P Require Import Prelude GoRuntime GoBytes RaftTypes Membership RaftLaws Core.
Open Scope Z_scope.

(** [(t, v)] may be followed by [(t', v')]: the term does not go back, and
    within one term a cast vote stays. *)
Definition vle (t v t' v' : Z) : Prop := t < t' ∨ (t = t' ∧ (v = noVote ∨ v = v')).

Lemma vle_refl t v : vle t v t v.
Proof. right. auto. Qed.

Lemma vle_trans t1 v1 t2 v2 t3 v3 : vle t1 v1 t2 v2 → vle t2 v2 t3 v3 → vle t1 v1 t3 v3.
Proof.
  unfold vle. intros [?|[-> Hv]] [?|[-> Hv']]; [left; lia..|].
  right. split; [done|]. destruct Hv as [->| ->]; auto.
Qed.

(** Two majorities of one membership share a member. *)
Lemma quorums_meet (U A B : gset Z) :
  A ⊆ U → B ⊆ U → Z.of_nat (size U) / 2 + 1 ≤ Z.of_nat (size A) →
  Z.of_nat (size U) / 2 + 1 ≤ Z.of_nat (size B) → ∃ v, v ∈ A ∧ v ∈ B.
Proof.
  intros HA HB Ha Hb. destruct (set_choose_or_empty (A ∩ B)) as [[v Hv]|He]; [set_solver|].
  exfalso. assert (size (A ∪ B) = size A + size B)%nat as Hu by (apply size_union; set_solver).
  assert (size (A ∪ B) ≤ size U)%nat by (apply subseteq_size; set_solver).
  pose proof (Z.div_mod (Z.of_nat (size U)) 2). pose proof (Z.mod_pos_bound (Z.of_nat (size U)) 2). lia.
Qed.

(** An entry of a log without membership changes. *)
Definition plain (e : Entry) : Prop := entry_wf e ∧ Type_ e ≠ ENTRY_TYPE_CONFIG.

Section votes.
Context {D : Type} `{RaftDiskLaws D} `{GoRuntime}.
Context (Cfg : Members) (Cfg_wf : members_wf Cfg) (Cfg_rt : decodeMembers (encodeMembers Cfg) = Ok Cfg).
(** [E v t i]: there is evidence that node [v] voted for [i] in term [t]. *)
Context (E : Z → Z → Z → Prop).

Abbreviation C := (core D).

Definition quorum : Z := Z.of_nat (size Cfg) / 2 + 1.

Definition plain_snap (s : raftSnapshot) : Prop :=
  is_u64 (lastIndex s) ∧ is_u64 (lastTerm s) ∧
  (config s = Some Cfg ∨ config s = None ∧ lastIndex s = 0).

(** What a message says of its sender [i], whose term is [t]. *)
Definition out_ok (i t : Z) (o : outbound) : Prop :=
  match o with
  | OutRequestVote to req =>
      rv_candidateId req = i ∧ is_u64 (rv_term req)
  | OutAppendEntries to req => is_u64 (ae_term req) ∧ Forall plain (ae_entries req)
  | OutInstallSnapshot to req =>
      is_u64 (is_term req) ∧ is_u64 (is_lastIncludedIndex req) ∧ is_u64 (is_lastIncludedTerm req) ∧
      (is_lastIncludedIndex req = 0 ∨ is_config req = encodeMembers Cfg)
  | OutTimeoutNow to req => 0 ≤ tn_term req ≤ t
  end.

(** What the next boot may find, relative to a term and vote. *)
Record dview (t0 v0 : Z) (d : D) : Prop := {
  dv_wf : d_wf d;
  dv_state : ∀ t v, may_state d t v → vle t0 v0 t v;
  dv_log : ∀ l, may_log d l → Forall plain l;
  dv_snap : ∀ s, may_snap d s → plain_snap s
}.

Record ninv (c : C) : Prop := {
  ni_id : ID (cfg c) ≠ 0 ∧ is_u64 (ID (cfg c)) ∧ ID (cfg c) ∈ dom Cfg;
  ni_open : d_open (disk c);
  ni_state : ∀ t v, may_state (disk c) t v → t = term c ∧ v = votedFor c;
  ni_log : ∀ l, may_log (disk c) l → Forall plain l;
  ni_snap : ∀ s, may_snap (disk c) s → plain_snap s;
  ni_term : is_u64 (term c);
  ni_voted : is_u64 (votedFor c);
  ni_entries : Forall plain (entries c);
  ni_base : is_u64 (snapIndex c) ∧ is_u64 (snapTerm c);
  ni_members : members c = Cfg;
  ni_snapConfig : snapConfig c = Cfg;
  ni_votes : role c ≠ follower → votedFor c = ID (cfg c) ∧ ∃ vs, votes c = Some vs ∧
    ∀ v, v ∈ vs → v ∈ dom Cfg ∧ (v = ID (cfg c) ∨ E v (term c) (ID (cfg c)));
  ni_leader : role c = leader → quorum ≤ set_len (votes c);
  ni_out : Forall (out_ok (ID (cfg c)) (term c)) (outbox c);
  ni_committed : Forall plain (committed c)
}.

(** The later state [c'] of the same node. *)
Definition after (c c' : C) : Prop :=
  cfg c' = cfg c ∧ vle (term c) (votedFor c) (term c') (votedFor c').

Lemma after_refl c : after c c.
Proof. split; [done|apply vle_refl]. Qed.

Lemma after_trans c1 c2 c3 : after c1 c2 → after c2 c3 → after c1 c3.
Proof. intros [E1 V1] [E2 V2]. split; [congruence|by eapply vle_trans]. Qed.

(** The postcondition of the handlers.  After an error the node stops (unless
    the handler is one of those with [keeps_err]), so only its disk matters. *)
Definition keeps {A} (c : C) (o : outcome A) (c' : C) : Prop :=
  dview (term c) (votedFor c) (disk c') ∧
  match o with Ok _ => ninv c' ∧ after c c' | _ => True end.

Definition keeps_err {A} (c : C) (o : outcome A) (c' : C) : Prop :=
  dview (term c) (votedFor c) (disk c') ∧
  match o with Ok _ | Err _ => ninv c' ∧ after c c' | _ => True end.

Lemma ninv_dview c c0 : ninv c → after c0 c → dview (term c0) (votedFor c0) (disk c).
Proof.
  intros Hn [_ Hv]. split; [apply d_open_wf, Hn| |apply Hn|apply Hn].
  intros t v Hm. apply (ni_state c Hn) in Hm as [-> ->]. done.
Qed.

Lemma keeps_ok {A} (a : A) c c' : ninv c' → after c c' → keeps c (Ok a) c'.
Proof. intros Hn Ha. split; [by apply ninv_dview|done]. Qed.

Lemma keeps_fail {A} c c' (o : outcome A) :
  (∀ a, o ≠ Ok a) → ninv c' → after c c' → keeps c o c'.
Proof. intros Ho Hn Ha. split; [by apply ninv_dview|]. destruct o; naive_solver. Qed.

Lemma keeps_err_keeps {A} c (o : outcome A) c' : keeps_err c o c' → keeps c o c'.
Proof. intros [? ?]. split; [done|]. by destruct o. Qed.

Lemma keeps_after {A} c c1 (o : outcome A) c2 : after c c1 → keeps c1 o c2 → keeps c o c2.
Proof.
  intros Ha [Hd Ho]. split.
  - destruct Hd as [? Hs ? ?]. split; [done| |done|done].
    intros t v Hm. destruct Ha as [_ Ha]. eapply vle_trans; [exact Ha|]. by apply Hs.
  - destruct o; [|done..]. destruct Ho as [? ?]. split; [done|]. by eapply after_trans.
Qed.

(** Sequencing. *)
Lemma wp_keeps_bind {A B} (m : M C A) (k : A → M C B) c :
  wp m (keeps c) c →
  (∀ a c1, ninv c1 → after c c1 → wp (k a) (keeps c1) c1) →
  wp (m ≫= k) (keeps c) c.
Proof.
  intros Hm Hk. apply wp_bind. eapply wp_mono; [exact Hm|].
  intros o c1 [Hd Ho]. destruct o as [a|e| |]; cbn [wpk]; [|done..].
  destruct Ho as [Hn Ha]. eapply wp_mono; [by apply Hk|]. intros. by eapply keeps_after.
Qed.

Lemma wp_keeps_modify f c : ninv (f c) → after c (f c) → wp (modify f) (keeps c) c.
Proof. intros. by apply wp_modify, keeps_ok. Qed.

Lemma wp_keeps_ret {A} (a : A) c : ninv c → wp (mret a) (keeps c) c.
Proof. intros. apply wp_ret, keeps_ok; [done|apply after_refl]. Qed.

Lemma wp_keeps_lift {A} (o : outcome A) c : ninv c → wp (lift o) (keeps c) c.
Proof.
  intros. apply wp_lift. destruct o; [apply keeps_ok|apply keeps_fail..]; try done;
    apply after_refl.
Qed.

Lemma wp_keeps_throw {A} e c : ninv c → wp (throw (A:=A) e) (keeps c) c.
Proof. intros. apply wp_throw, keeps_fail; [done..|apply after_refl]. Qed.

Lemma wp_keeps_for_each {A} (l : list A) (f : A → M C ()) c :
  ninv c → (∀ x c1, x ∈ l → ninv c1 → after c c1 → wp (f x) (keeps c1) c1) →
  wp (for_each l f) (keeps c) c.
Proof.
  revert c. induction l as [|x l IH]; intros c Hn Hf; simpl; [by apply wp_keeps_ret|].
  apply wp_keeps_bind; [apply Hf; [left|done|apply after_refl]|]. intros [] c1 Hn1 Ha.
  apply IH; [done|]. intros y c2 Hy Hn2 Ha2.
  apply Hf; [by right|done|by eapply after_trans].
Qed.

(** [c'] differs from [c] in fields the invariant does not read. *)
Ltac ninv_frame :=
  match goal with
  | Hn : ninv ?c |- ninv _ => destruct Hn; split; cbn; solve [assumption | done | eauto]
  end.
Ltac after_frame := split; [done|cbn; apply vle_refl].
(** Symbolic execution up to the next call of a named routine. *)
Ltac keeps_step :=
  lazymatch goal with
  | |- wp (mbind _ get) _ _ => apply wp_bind, wp_get; cbn [wpk]
  | |- wp (mbind _ (modify _)) _ _ =>
      apply wp_keeps_bind; [apply wp_keeps_modify; [try ninv_frame|try after_frame]|intros [] ? ? ?]
  | |- wp (mbind _ (lift _)) _ _ => apply wp_keeps_bind; [by apply wp_keeps_lift|intros ? ? ? ?]
  | |- wp (modify _) _ _ => apply wp_keeps_modify; [try ninv_frame|try after_frame]
  | |- wp (mret _) _ _ => by apply wp_keeps_ret
  | |- wp (throw _) _ _ => by apply wp_keeps_throw
  | |- wp (if ?b then _ else _) _ _ => destruct b eqn:?
  end.
Ltac keeps_steps := repeat keeps_step.

Lemma wp_resetElectionTimer Q (c : C) :
  Q Panic (c <| electionElapsed := 0 |>) →
  (∀ n, Q (Ok ()) (c <| electionElapsed := 0 |> <| electionTimeout := n |> <| rt ::= S |>)) →
  wp resetElectionTimer Q c.
Proof. intros HP HO. unfold resetElectionTimer. wp_steps; [done|apply HO]. Qed.

Lemma resetElectionTimer_keeps c : ninv c → wp resetElectionTimer (keeps c) c.
Proof.
  intros Hn. apply wp_resetElectionTimer.
  - apply keeps_fail; [done|ninv_frame|after_frame].
  - intros n. apply keeps_ok; [ninv_frame|after_frame].
Qed.

Lemma peerIDs_keeps c : ninv c → wp peerIDs (keeps c) c.
Proof. intros Hn. unfold peerIDs. keeps_steps. Qed.

Lemma abortPendingReads_keeps c : ninv c → wp abortPendingReads (keeps c) c.
Proof. intros Hn. unfold abortPendingReads. keeps_steps. Qed.

Lemma confirmReads_keeps c : ninv c → wp confirmReads (keeps c) c.
Proof. intros Hn. unfold confirmReads. keeps_steps. Qed.

Lemma noteFreshAck_keeps from seq c : ninv c → wp (noteFreshAck from seq) (keeps c) c.
Proof.
  intros Hn. unfold noteFreshAck. keeps_steps.
  apply wp_keeps_bind; [by apply confirmReads_keeps|intros]. keeps_steps.
Qed.

Lemma send_keeps o c : ninv c → out_ok (ID (cfg c)) (term c) o → wp (send o) (keeps c) c.
Proof.
  intros Hn Ho. unfold send. apply wp_keeps_modify; [|after_frame].
  destruct Hn; split; cbn; try done. by apply Forall_app_2, Forall_singleton.
Qed.

Lemma fill_entries_sub fuel l base i last payload es :
  fill_entries fuel l base i last payload = Ok es → es ⊆ l.
Proof.
  revert i payload es. induction fuel as [|fuel IH]; intros i payload es; simpl.
  { case_match; [|done]. intros [= <-]. set_solver. }
  case_match; [intros [= <-]; set_solver|].
  destruct (zindex l _) as [e| | |] eqn:Hz; simpl; [|done..].
  apply zindex_lookup in Hz as [_ Hz]. apply list_elem_of_lookup_2 in Hz.
  case_match; [intros [= <-]; set_solver|].
  destruct (fill_entries fuel _ _ _ _ _) as [rest| | |] eqn:Hr; simpl; [|done..].
  intros [= <-]. apply IH in Hr. set_solver.
Qed.

(** Reading the snapshot back changes nothing. *)
Lemma loadSnapshot_keeps c :
  ninv c →
  wp (zoom disk loadSnapshot) (λ o c', ninv c' ∧ after c c' ∧ cfg c' = cfg c ∧ term c' = term c ∧
    match o with Ok s => plain_snap s | _ => True end) c.
Proof.
  intros Hn. apply wp_zoom. eapply wp_mono; [apply loadSnapshot_law, d_open_wf, Hn|].
  intros o d' (_ & Ho & _ & Hs & Hl & Hsn & Hm). split_and!; [|after_frame|done|done|].
  - destruct Hn; split; cbn; try done; [by apply Ho|..|by intros ? ?%Hl; eauto|by intros ? ?%Hsn; eauto].
    intros t v ?%Hs. eauto.
  - destruct o; try done. by apply (ni_snap c Hn).
Qed.

Lemma sendAppend_keeps peer c : ninv c → wp (sendAppend peer) (keeps c) c.
Proof.
  intros Hn. unfold sendAppend. keeps_step. cbv zeta.
  set (next := if _ =? 0 then 1 else _). destruct (next <=? snapIndex c).
  - apply wp_bind, wp_attempt. eapply wp_mono; [by apply loadSnapshot_keeps|].
    intros o c1 (Hn1 & Ha & Hc & Ht & Ho). destruct o as [s|e| |]; cbn [wpk].
    + eapply wp_mono; [apply send_keeps; [done|]|intros; by eapply keeps_after].
      rewrite Hc. cbn. destruct Ho as (? & ? & Hcf). split_and!; try done; [apply Hn|].
      destruct Hcf as [->|[_ ->]]; auto.
    + eapply wp_mono; [by apply wp_keeps_ret|intros; by eapply keeps_after].
    + by apply keeps_fail.
    + by apply keeps_fail.
  - apply wp_bind, wp_modify. cbn [wpk].
    match goal with |- wp _ _ ?s => assert (ninv s) as Hn1 by ninv_frame;
      assert (after c s) as Ha by after_frame end.
    apply wp_bind, wp_lift. destruct (termAt c _) as [pt| | |]; cbn [wpk];
      [|by apply keeps_fail..].
    apply wp_bind, wp_lift.
    match goal with |- wpk _ _ ?o _ => destruct o as [es| | |] eqn:Hes end; cbn [wpk];
      [|by apply keeps_fail..].
    eapply wp_mono; [apply send_keeps; [exact Hn1|]|intros; by eapply keeps_after].
    cbn. split; [apply Hn|].
    destruct (entries c) as [|e0 l] eqn:El; [by injection Hes as <-|].
    case_match; [|by injection Hes as <-]. apply fill_entries_sub in Hes.
    pose proof (ni_entries c Hn) as He. rewrite El in He.
    rewrite Forall_forall in He |- *. eauto.
Qed.

Lemma broadcastAppends_keeps c : ninv c → wp broadcastAppends (keeps c) c.
Proof.
  intros Hn. unfold broadcastAppends. apply wp_keeps_bind; [by apply peerIDs_keeps|].
  intros ids c1 Hn1 _. apply wp_keeps_for_each; [done|]. intros; by apply sendAppend_keeps.
Qed.

Lemma deliver_one_keeps base i c : ninv c → wp (deliver_one base i) (keeps c) c.
Proof.
  intros Hn. unfold deliver_one. keeps_step. apply wp_bind, wp_lift.
  destruct (zindex _ _) as [e| | |] eqn:Hz; cbn [wpk]; [|apply keeps_fail; [done..|apply after_refl]..].
  keeps_step; [|keeps_steps; by apply abortPendingReads_keeps].
  apply zindex_lookup in Hz as [_ Hz]. destruct Hn; split; cbn; try done.
  apply Forall_app_2; [done|]. apply Forall_singleton. eapply Forall_lookup_1; [exact ni_entries0|exact Hz].
Qed.

Lemma deliver_loop_keeps fuel base i commit c :
  ninv c → wp (deliver_loop fuel base i commit) (keeps c) c.
Proof.
  revert i c. induction fuel as [|fuel IH]; intros i c Hn; simpl; keeps_steps.
  - apply wp_panic, keeps_fail; [done..|apply after_refl].
  - apply wp_keeps_bind; [by apply deliver_one_keeps|]. intros. by apply IH.
Qed.

Lemma deliverCommitted_keeps c : ninv c → wp deliverCommitted (keeps c) c.
Proof.
  intros Hn. unfold deliverCommitted. keeps_step. destruct (entries c); [by keeps_steps|].
  apply wp_keeps_bind; [by apply deliver_loop_keeps|]. intros _ c1 Hn1 _.
  apply wp_keeps_modify; case_match; try done; [ninv_frame|after_frame|apply after_refl].
Qed.

Lemma advance_loop_keeps fuel n c : ninv c → wp (advance_loop fuel n) (keeps c) c.
Proof.
  revert n c. induction fuel as [|fuel IH]; intros n c Hn; simpl; keeps_steps.
  apply wp_keeps_bind; [by apply peerIDs_keeps|]. intros ids c2 Hn2 _. keeps_steps.
  - by apply deliverCommitted_keeps.
  - by apply IH.
Qed.

Lemma maybeAdvanceCommit_keeps c : ninv c → wp maybeAdvanceCommit (keeps c) c.
Proof. intros Hn. unfold maybeAdvanceCommit. keeps_step. by apply advance_loop_keeps. Qed.
(** ** Persisting *)

Lemma saveState_view t v t0 v0 (d : D) :
  d_open d → dview t0 v0 d → vle t0 v0 t v → is_u64 t → is_u64 v →
  wp (saveState t v) (λ o d', (o ≠ Crash → d_open d') ∧ dview t0 v0 d' ∧
    match o with
    | Ok _ => ∀ t' v', may_state d' t' v' → t' = t ∧ v' = v
    | Panic => False
    | _ => True
    end) d.
Proof.
  intros Ho [Hw Hs Hl Hsn] Hv Ht Hvv. eapply wp_mono; [by apply saveState_law|].
  intros o d' (Hw' & Ho' & Hl' & Hsn' & Hm). split; [done|]. split.
  - split; [exact Hw'| |by eauto|by eauto]. intros t' v' Hm'.
    destruct o as [[]|e| |]; [|..|done|].
    + by destruct (Hm _ _ Hm') as [-> ->].
    + destruct (Hm _ _ Hm') as [?|[-> ->]]; auto.
    + destruct (Hm _ _ Hm') as [?|[-> ->]]; auto.
  - by destruct o.
Qed.

Lemma logAppend_view es t0 v0 (d : D) :
  d_open d → dview t0 v0 d → Forall plain es →
  wp (logAppend es) (λ o d', (o ≠ Crash → d_open d') ∧ dview t0 v0 d' ∧ o ≠ Panic ∧
    (∀ t v, may_state d' t v → may_state d t v)) d.
Proof.
  intros Ho [Hw Hs Hl Hsn] Hes. eapply wp_mono.
  { apply logAppend_law; [done|]. eapply Forall_impl; [done|]. by intros ? []. }
  intros o d' (Hw' & Ho' & Hs' & Hsn' & Hm). split_and!; [done| |by destruct o|done].
  split; [exact Hw'|by eauto| |by eauto]. intros l' Hl'.
  destruct o as [[]|e| |]; [..|done|].
  - destruct (Hm _ Hl') as (l & ? & ->). apply log_supersede_Forall; eauto.
  - destruct (Hm _ Hl') as (l & n & ? & ->). apply log_supersede_Forall; eauto using Forall_take.
  - destruct (Hm _ Hl') as (l & n & ? & ->). apply log_supersede_Forall; eauto using Forall_take.
Qed.

Lemma logRewrite_view es t0 v0 (d : D) :
  d_open d → dview t0 v0 d → Forall plain es →
  wp (logRewrite es) (λ o d', (o ≠ Crash → d_open d') ∧ dview t0 v0 d' ∧ o ≠ Panic ∧
    (∀ t v, may_state d' t v → may_state d t v)) d.
Proof.
  intros Ho [Hw Hs Hl Hsn] Hes. eapply wp_mono.
  { apply logRewrite_law; [done|]. eapply Forall_impl; [done|]. by intros ? []. }
  intros o d' (Hw' & Ho' & Hs' & Hsn' & Hm). split_and!; [done| |by destruct o|done].
  split; [exact Hw'|by eauto| |by eauto]. intros l' Hl'.
  destruct o as [[]|e| |]; [..|done|].
  - rewrite (Hm _ Hl'). by apply log_supersede_Forall.
  - destruct (Hm _ Hl') as [?| ->]; eauto using log_supersede_Forall.
  - destruct (Hm _ Hl') as [?| ->]; eauto using log_supersede_Forall.
Qed.

Lemma saveSnapshot_view i t data t0 v0 (d : D) :
  d_open d → dview t0 v0 d → is_u64 i → is_u64 t →
  wp (saveSnapshot (mkSnap i t (Some Cfg) data)) (λ o d', (o ≠ Crash → d_open d') ∧ dview t0 v0 d' ∧ o ≠ Panic ∧
    (∀ t v, may_state d' t v → may_state d t v)) d.
Proof.
  intros Ho [Hw Hs Hl Hsn] Hi Ht. eapply wp_mono.
  { apply saveSnapshot_law; [done|]. split; [done|]. split; [done|]. exact Cfg_wf. }
  intros o d' (Hw' & Ho' & Hs' & Hl' & Hm). split_and!; [done| |by destruct o|done].
  assert (plain_snap (mkSnap i t (Some Cfg) data)) by (split_and!; auto).
  split; [exact Hw'|by eauto|by eauto|]. intros s' Hs1.
  destruct o as [[]|e| |]; [..|done|].
  - by rewrite (Hm _ Hs1).
  - destruct (Hm _ Hs1) as [?| ->]; eauto.
  - destruct (Hm _ Hs1) as [?| ->]; eauto.
Qed.

(** The node after a successful write of its term and vote. *)
Lemma ninv_dview_self c : ninv c → dview (term c) (votedFor c) (disk c).
Proof. intros. apply ninv_dview; [done|apply after_refl]. Qed.

Definition stepped (t : Z) (c c' : C) : Prop :=
  term c' = t ∧ votedFor c' = noVote ∧ role c' = follower ∧ entries c' = entries c ∧
  snapIndex c' = snapIndex c ∧ snapTerm c' = snapTerm c.

Lemma stepDown_keeps t c :
  ninv c → is_u64 t → term c < t →
  wp (stepDown t) (λ o c', keeps c o c' ∧ (o = Ok () → stepped t c c')) c.
Proof.
  intros Hn Ht Hlt. unfold stepDown, abortPendingReads.
  apply wp_bind, wp_modify. cbn [wpk]. apply wp_bind, wp_modify. cbn [wpk].
  apply wp_wrap, wp_zoom.
  eapply wp_mono.
  { apply (saveState_view t noVote (term c) (votedFor c)).
    - exact (ni_open c Hn).
    - exact (ninv_dview_self c Hn).
    - by left.
    - done.
    - done. }
  intros o d' (Ho & Hd & Hm). destruct o as [[]|e| |]; [|by split; [split|]|done|by split; [split|]].
  specialize (Ho ltac:(done)). split; [|done]. apply keeps_ok.
  - destruct Hn, Hd; split; cbn; try done. clear -ni_out0 Hlt.
    eapply Forall_impl; [done|]. intros o. destruct o; simpl; try done. lia.
  - split; [done|]. cbn. by left.
Qed.

Lemma wp_stepDown_to t c :
  ninv c → is_u64 t →
  wp (if term c <? t then stepDown t else mret ())
    (λ o c', keeps c o c' ∧ (o = Ok () → (term c < t ∧ stepped t c c') ∨ (t ≤ term c ∧ c' = c))) c.
Proof.
  intros Hn Ht. destruct (term c <? t) eqn:Hlt; zify_bool.
  - eapply wp_mono; [by apply stepDown_keeps|]. intros o c' [? ?]. split; [done|]. auto.
  - apply wp_ret. split; [|by auto]. apply keeps_ok; [done|apply after_refl].
Qed.
Lemma wp_keeps_wrap {A} fmt (m : M C A) c : wp m (keeps c) c → wp (wrap fmt m) (keeps c) c.
Proof. intros Hm. apply wp_wrap. eapply wp_mono; [exact Hm|]. by intros []. Qed.

(** A write to the log keeps the invariant even when it fails. *)
Lemma logAppend_keeps es c :
  ninv c → Forall plain es →
  wp (zoom disk (logAppend es)) (λ o c', keeps_err c o c' ∧ o ≠ Panic ∧
    entries c' = entries c ∧ commitIndex c' = commitIndex c) c.
Proof.
  intros Hn Hes. apply wp_zoom. eapply wp_mono.
  { apply (logAppend_view es (term c) (votedFor c)); [apply Hn|by apply ninv_dview_self|done]. }
  intros o d' (Ho & Hd & HP & Hs). split_and!; [|done..]. split; [done|].
  assert (o ≠ Crash → ninv (c <| disk := d' |>)).
  { intros Hc. specialize (Ho Hc). destruct Hn, Hd; split; cbn; try done. intros t v ?%Hs. eauto. }
  destruct o; try done; (split; [auto|after_frame]).
Qed.

Lemma ninv_entries f c : ninv c → Forall plain (f (entries c)) → ninv (set entries f c).
Proof. intros Hn Hl. destruct Hn; split; cbn; done. Qed.

Lemma plain_new t i ty cmd :
  is_u64 t → is_u64 i → ty = ENTRY_TYPE_NORMAL ∨ ty = ENTRY_TYPE_NOOP →
  zlength cmd ≤ maxEntryCommand → plain (mkEntry t i ty cmd).
Proof.
  intros Ht Hi Hty Hc. unfold plain, entry_wf. cbn.
  unfold ENTRY_TYPE_NORMAL, ENTRY_TYPE_NOOP, ENTRY_TYPE_CONFIG in *. split_and!; try done; lia.
Qed.

Lemma majority_quorum c : ninv c → majority c = quorum.
Proof. intros Hn. unfold majority, quorum. by rewrite (ni_members c Hn). Qed.

Lemma maybeWinElection_keeps c : ninv c → wp maybeWinElection (keeps c) c.
Proof.
  intros Hn. unfold maybeWinElection. keeps_step. keeps_step; [by keeps_steps|]. zify_bool.
  rewrite (majority_quorum c Hn) in *.
  apply wp_keeps_bind.
  { apply wp_keeps_modify; [|after_frame].
    destruct Hn; split; cbn; try done. intros _. apply ni_votes0. congruence. }
  intros [] c1 Hn1 _. apply wp_keeps_bind; [by apply peerIDs_keeps|].
  intros ids c2 Hn2 _. keeps_step. keeps_step. cbv zeta.
  match goal with |- wp (mbind _ (wrap _ (zoom _ (logAppend [?e])))) _ _ =>
    assert (plain e) as Hp end.
  { apply plain_new; [apply Hn2|apply u64_range|by right|done]. }
  apply wp_keeps_bind.
  { apply wp_keeps_wrap. eapply wp_mono; [apply logAppend_keeps; [done|by apply Forall_singleton]|].
    intros o c4 [? _]. by apply keeps_err_keeps. }
  intros [] c4 Hn4 _. apply wp_keeps_bind.
  { apply wp_keeps_modify; [|after_frame]. apply ninv_entries; [done|].
    apply Forall_app_2; [exact (ni_entries c4 Hn4)|by apply Forall_singleton]. }
  intros [] c5 Hn5 _. apply wp_keeps_bind; [by apply broadcastAppends_keeps|].
  intros. by apply maybeAdvanceCommit_keeps.
Qed.

(** The core once its candidacy is on disk. *)
Definition campaigning (n : Z) (d : D) (c : C) : C :=
  c <| role := candidate |> <| term ::= λ t, u64 (t + 1) |> <| votedFor := ID (cfg c) |> <| leaderID := 0 |>
    <| votes := Some {[ID (cfg c)]} |> <| electionElapsed := 0 |> <| electionTimeout := n |> <| rt ::= S |>
    <| disk := d |>.

Lemma campaigning_ninv n d c :
  ninv c → term c < 2 ^ 64 - 1 → d_open d → dview (term c) (votedFor c) d →
  (∀ t v, may_state d t v → t = u64 (term c + 1) ∧ v = ID (cfg c)) →
  ninv (campaigning n d c) ∧ after c (campaigning n d c).
Proof.
  intros Hn Hb Ho Hd Hm. pose proof (ni_term c Hn) as Ht. pose proof (ni_id c Hn) as (Hi0 & Hi & Hid).
  assert (u64 (term c + 1) = term c + 1) as Hu by (apply u64_small; unfold is_u64 in *; lia). rewrite Hu in Hm. split.
  - destruct Hn, Hd; split; cbn; rewrite ?Hu; try done.
    + unfold is_u64 in *. lia.
    + intros _. split; [done|]. eexists. split; [done|]. intros v ->%elem_of_singleton. auto.
    + eapply Forall_impl; [done|]. intros o. destruct o; simpl; try done. lia.
  - split; [done|]. cbn. rewrite Hu. left. lia.
Qed.

Lemma startCampaign_keeps c : ninv c → term c < 2 ^ 64 - 1 → wp startCampaign (keeps c) c.
Proof.
  intros Hn Hb. pose proof (ni_term c Hn) as Ht. pose proof (ni_id c Hn) as (Hi0 & Hi & Hid).
  unfold startCampaign. apply wp_bind, wp_modify. cbn [wpk]. apply wp_bind, wp_resetElectionTimer.
  { split; [|done]. exact (ninv_dview_self c Hn). }
  intros n. cbn [wpk]. keeps_step. apply wp_bind, wp_wrap, wp_zoom. eapply wp_mono.
  { apply (saveState_view _ _ (term c) (votedFor c)).
    - exact (ni_open c Hn).
    - exact (ninv_dview_self c Hn).
    - left. cbn. rewrite u64_small; unfold is_u64 in *; lia.
    - cbn. apply u64_range.
    - exact Hi. }
  intros o d' (Ho & Hd & Hm). destruct o as [[]|e| |]; cbn [wpk]; [|by split|done|by split].
  specialize (Ho ltac:(done)). destruct (campaigning_ninv n d' c Hn Hb Ho Hd Hm) as [Hn1 Ha].
  apply (λ H, wp_mono _ _ _ _ H (λ o c', keeps_after c _ o c' Ha)).
  apply wp_keeps_bind; [by apply peerIDs_keeps|].
  intros ids c2 Hn2 [Hc2 _]. apply wp_keeps_bind.
  { apply wp_keeps_for_each; [done|]. intros id c3 _ Hn3 [Hc3 _].
    apply send_keeps; [done|]. cbn. rewrite Hc3, Hc2. split; [done|apply u64_range]. }
  intros. by apply maybeWinElection_keeps.
Qed.
(** ** The handlers *)

Lemma wp_send_all ids (f : Z → outbound) Q (c : C) :
  Q (Ok ()) (set outbox (λ l, l ++ (f <$> ids)) c) →
  wp (for_each ids (λ id, send (f id))) Q c.
Proof.
  revert c. induction ids as [|id ids IH]; intros c HQ; simpl.
  - apply wp_ret. replace c with (set outbox (λ l, l ++ []) c); [done|].
    destruct c; unfold set, set_outbox; cbn. by rewrite app_nil_r.
  - apply wp_bind, wp_modify, IH. revert HQ. unfold set, set_outbox; cbn. by rewrite <-app_assoc.
Qed.

Lemma maybeWinPreVote_keeps c : ninv c → term c < 2 ^ 64 - 1 → wp maybeWinPreVote (keeps c) c.
Proof.
  intros Hn Hb. unfold maybeWinPreVote. keeps_step. destruct (preVotes c); [|by keeps_steps].
  keeps_step; [by keeps_steps|]. apply wp_bind, wp_modify. cbn [wpk].
  match goal with |- wp _ _ ?s => assert (ninv s) as Hn1 by ninv_frame;
    assert (after c s) as Ha by after_frame end.
  eapply wp_mono; [by apply startCampaign_keeps|]. intros. by eapply keeps_after.
Qed.

Lemma startPreCampaign_keeps c : ninv c → term c < 2 ^ 64 - 1 → wp startPreCampaign (keeps c) c.
Proof.
  intros Hn Hb. unfold startPreCampaign. apply wp_bind, wp_modify. cbn [wpk].
  apply wp_bind, wp_resetElectionTimer.
  { apply keeps_fail; [done|ninv_frame|after_frame]. }
  intros n. cbn [wpk]. keeps_step. unfold peerIDs. wp_steps. apply wp_send_all. cbn [wpk].
  match goal with |- wp _ _ ?s => assert (ninv s) as Hn1; [|assert (after c s) as Ha by after_frame] end.
  { destruct Hn; split; cbn; try done. apply Forall_app_2; [done|]. apply Forall_fmap, Forall_true.
    intros id. cbn. split; [done|apply u64_range]. }
  eapply wp_mono; [by apply maybeWinPreVote_keeps|]. intros. by eapply keeps_after.
Qed.

Lemma handlePreVoteResponse_keeps from asked resp c :
  ninv c → is_u64 (rvr_term resp) → term c < 2 ^ 64 - 1 →
  wp (handlePreVoteResponse from asked resp) (keeps c) c.
Proof.
  intros Hn Ht Hb. unfold handlePreVoteResponse. keeps_step. keeps_step.
  { zify_bool. eapply wp_mono; [by apply stepDown_keeps|]. by intros ? ? [? _]. }
  keeps_step; [by keeps_steps|]. keeps_step; [|by keeps_steps].
  apply wp_bind, wp_lift. destruct (set_put _ _) as [pv| | |]; cbn [wpk];
    try (apply keeps_fail; [done..|apply after_refl]).
  apply wp_bind, wp_modify. cbn [wpk].
  match goal with |- wp _ _ ?s => assert (ninv s) as Hn1 by ninv_frame;
    assert (after c s) as Ha by after_frame end.
  eapply wp_mono; [by apply maybeWinPreVote_keeps|]. intros. by eapply keeps_after.
Qed.

(** Granting a vote: it is the candidate's, in the candidate's term, and it is
    on disk. *)
Definition vote_post (req : RequestVoteRequest) (c : C) (o : outcome RequestVoteResponse) (c' : C)
    : Prop :=
  keeps c o c' ∧
  ∀ resp, o = Ok resp → is_u64 (rvr_term resp) ∧
    (rvr_voteGranted resp = true → rv_preVote req = false →
     votedFor c' = rv_candidateId req ∧ term c' = rv_term req).

Lemma handleRequestVote_keeps req c :
  ninv c → is_u64 (rv_term req) → is_u64 (rv_candidateId req) →
  wp (handleRequestVote req) (vote_post req c) c.
Proof.
  intros Hn Ht Hc. unfold handleRequestVote. keeps_step. keeps_step.
  { apply wp_ret. split; [apply keeps_ok; [done|apply after_refl]|].
    intros resp [= <-]. unfold handlePreVote. split; [|congruence]. case_match; apply Hn. }
  apply wp_bind. eapply wp_mono; [by apply wp_stepDown_to|].
  intros o c1 [Hk Hst]. destruct o as [[]|e| |]; cbn [wpk]; [|by split..].
  destruct Hk as [_ [Hn1 Ha1]]. specialize (Hst eq_refl). keeps_step. keeps_step; zify_bool.
  { apply wp_ret. split; [by apply keeps_ok|]. intros resp [= <-]. split; [apply Hn1|done]. }
  assert (term c1 = rv_term req) as Htr.
  { destruct Hst as [[_ (? & _)]|[? ->]]; [done|lia]. }
  keeps_step.
  2:{ apply wp_ret. split; [by apply keeps_ok|]. intros resp [= <-]. split; [apply Hn1|done]. }
  apply andb_true_iff in Heqb1 as [Hcan _]. apply orb_true_iff in Hcan.
  assert (∀ c2, ninv c2 → after c c2 → term c2 = term c1 → votedFor c2 = rv_candidateId req →
    wp (resetElectionTimer;; mret (mkRVR (term c1) true)) (vote_post req c) c2) as Hfin.
  { intros c2 Hn2 Ha2 Ht2 Hv2. apply wp_bind, wp_resetElectionTimer; cbn [wpk].
    - split; [|done]. apply keeps_fail; [done|ninv_frame|done].
    - intros n. apply wp_ret. split; [apply keeps_ok; [ninv_frame|done]|].
      intros resp [= <-]. cbn. split; [apply Hn1|]. intros _ _. split; [done|congruence]. }
  apply wp_bind. destruct (votedFor c1 =? rv_candidateId req) eqn:Heq; cbn [negb]; zify_bool.
  { apply wp_ret. cbn [wpk]. by apply Hfin. }
  destruct Hcan as [Hcan|?]; [|done]. apply Z.eqb_eq in Hcan.
  apply wp_bind, wp_modify. cbn [wpk]. apply wp_zoom. eapply wp_mono.
  { apply (saveState_view _ _ (term c1) (votedFor c1)).
    - exact (ni_open c1 Hn1).
    - exact (ninv_dview_self c1 Hn1).
    - right. rewrite Hcan. auto.
    - apply Hn1.
    - done. }
  intros o d' (Ho & Hd & Hm).
  destruct o as [[]|e| |]; cbn [wpk].
  2:{ split; [|done]. eapply keeps_after; [exact Ha1|]. by split. }
  2:{ done. }
  2:{ split; [|done]. eapply keeps_after; [exact Ha1|]. by split. }
  specialize (Ho ltac:(done)). apply Hfin; try done.
  - destruct Hn1, Hd; split; cbn; try done. intros Hr.
    destruct (ni_votes0 Hr) as [Hv _]. rewrite Hcan in Hv. by destruct ni_id0 as [[] _].
  - eapply after_trans; [exact Ha1|]. split; [done|]. cbn. right. auto.
Qed.
(** A granted vote counts only as evidence for the current campaign. *)
Lemma handleVoteResponse_keeps from campaign resp c :
  ninv c → is_u64 (rvr_term resp) → from ∈ dom Cfg →
  (rvr_voteGranted resp = true → E from campaign (ID (cfg c))) →
  wp (handleVoteResponse from campaign resp) (keeps c) c.
Proof.
  intros Hn Ht Hfrom HE. unfold handleVoteResponse. keeps_step. keeps_step.
  { zify_bool. eapply wp_mono; [by apply stepDown_keeps|]. by intros ? ? [? _]. }
  keeps_step; [by keeps_steps|]. zify_bool. subst campaign. keeps_step; [|by keeps_steps].
  destruct (ni_votes c Hn ltac:(congruence)) as (Hv & vs & Hvs & Hev). rewrite Hvs. cbn [set_put].
  apply wp_bind, wp_lift. cbn [wpk]. apply wp_bind, wp_modify. cbn [wpk].
  match goal with |- wp _ _ ?s => assert (ninv s) as Hn1; [|assert (after c s) as Ha by after_frame] end.
  { destruct Hn; split; cbn; try done.
    - intros _. split; [done|]. eexists. split; [done|]. intros v [->%elem_of_singleton|?]%elem_of_union.
      + split; [done|]. right. auto.
      + auto.
    - intros. congruence. }
  eapply wp_mono; [by apply maybeWinElection_keeps|]. intros. by eapply keeps_after.
Qed.

Lemma tick_keeps c : ninv c → term c < 2 ^ 64 - 1 → wp tick (keeps c) c.
Proof.
  intros Hn Hb. unfold tick. keeps_step. keeps_step.
  - keeps_step. keeps_step.
    { repeat case_match; [done|ninv_frame..]. }
    { repeat case_match; after_frame. }
    keeps_steps. by apply broadcastAppends_keeps.
  - apply wp_bind, wp_modify. cbn [wpk].
    match goal with |- wp _ _ ?s => assert (ninv s) as Hn1 by ninv_frame;
      assert (after c s) as Ha by after_frame end.
    keeps_step. eapply wp_mono; [|intros; by eapply keeps_after].
    keeps_step; [|by keeps_steps]. keeps_step; [by apply resetElectionTimer_keeps|].
    keeps_step; [by apply startCampaign_keeps|by apply startPreCampaign_keeps].
Qed.

(** ** Membership: entries without config changes leave it alone *)

Lemma fold_members_plain m l : Forall plain l → fold_members m l = m.
Proof.
  unfold fold_members. intros Hl. revert m. induction Hl as [|e l [_ He] _ IH]; intros m; simpl; [done|].
  rewrite IH. unfold entry_members. by rewrite (proj2 (Z.eqb_neq _ _)).
Qed.

Lemma entries_through_sub i l : entries_through i l ⊆ l.
Proof. clear. induction l as [|e l IH]; simpl; [set_solver|]. case_match; set_solver. Qed.

Lemma recalcConfig_keeps c : ninv c → wp recalcConfig (keeps c) c.
Proof.
  intros Hn. unfold recalcConfig. apply wp_keeps_modify; [|after_frame].
  destruct Hn; split; cbn; try done. by rewrite fold_members_plain.
Qed.

Lemma noteAppendedConfigs_keeps l c :
  ninv c → Forall plain l → wp (noteAppendedConfigs l) (keeps c) c.
Proof.
  intros Hn Hl. unfold noteAppendedConfigs. apply wp_keeps_for_each; [done|].
  intros e c1 He Hn1 _. rewrite Forall_forall in Hl. destruct (Hl e He) as [_ Hne].
  rewrite (proj2 (Z.eqb_neq _ _)) by done. by keeps_steps.
Qed.

Lemma zslice_to_sub {A} (l k : list A) i : zslice_to l i = Ok k → k ⊆ l.
Proof.
  unfold zslice_to, ztake. case_match; [|done]. intros [= <-] x Hx.
  apply elem_of_take in Hx as (? & ? & _). by eapply list_elem_of_lookup_2.
Qed.

Lemma zslice_from_sub {A} (l k : list A) i : zslice_from l i = Ok k → k ⊆ l.
Proof.
  unfold zslice_from, zdrop. case_match; [|done]. intros [= <-] x Hx.
  by eapply (subseteq_drop _ l).
Qed.

Lemma Forall_sub {A} (P : A → Prop) l k : Forall P l → k ⊆ l → Forall P k.
Proof. rewrite !Forall_forall. eauto. Qed.
Lemma logAppend_wrap_keeps fmt es c :
  ninv c → Forall plain es → wp (wrap fmt (zoom disk (logAppend es))) (keeps c) c.
Proof.
  intros. apply wp_keeps_wrap. eapply wp_mono; [by apply logAppend_keeps|].
  intros o c1 [? _]. by apply keeps_err_keeps.
Qed.

Lemma truncateAndAppend_keeps l c :
  ninv c → Forall plain l → wp (truncateAndAppend l) (keeps c) c.
Proof.
  intros Hn Hl. unfold truncateAndAppend. keeps_step. apply wp_bind, wp_lift.
  destruct (zindex l 0) as [e| | |]; cbn [wpk];
    [|apply keeps_fail; [done..|apply after_refl]..].
  keeps_step; [by keeps_steps|]. apply wp_keeps_bind.
  { destruct (entries c) as [|e0 es] eqn:El; [by keeps_steps|]. keeps_step; [|by keeps_steps].
    apply wp_bind, wp_lift. destruct (zslice_from _ _); cbn [wpk];
      [|apply keeps_fail; [done..|apply after_refl]..].
    apply wp_bind, wp_lift. destruct (zslice_to _ _) as [kept| | |] eqn:Hk; cbn [wpk];
      [|apply keeps_fail; [done..|apply after_refl]..].
    keeps_step; [|by keeps_steps]. apply ninv_entries; [done|].
    eapply Forall_sub; [exact (ni_entries c Hn)|]. rewrite El. by eapply zslice_to_sub. }
  intros truncated c1 Hn1 _. apply wp_keeps_bind; [by apply logAppend_wrap_keeps|].
  intros [] c2 Hn2 _. keeps_step.
  { apply ninv_entries; [done|]. apply Forall_app_2; [exact (ni_entries c2 Hn2)|done]. }
  destruct truncated; [by apply recalcConfig_keeps|by apply noteAppendedConfigs_keeps].
Qed.

Lemma new_entries_sub (c : C) l k : new_entries c l = Ok k → k ⊆ l.
Proof.
  revert k. induction l as [|pe l IH]; intros k; simpl; [intros [= <-]; done|].
  case_match; [by intros [= <-]|]. destruct (termAt c _); simpl; [|done..].
  case_match; [by intros [= <-]|]. intros ?%IH. set_solver.
Qed.

Lemma recognize_leader_keeps id c : ninv c → wp (recognize_leader id) (keeps c) c.
Proof.
  intros Hn. unfold recognize_leader. keeps_step.
  { case_match; [done|]. ninv_frame. }
  { case_match; after_frame. }
  keeps_step. apply wp_keeps_bind; [by apply resetElectionTimer_keeps|]. intros. by keeps_steps.
Qed.

(** [keeps], with a property of the result. *)
Definition keeps_res {A} (P : A → Prop) (c : C) (o : outcome A) (c' : C) : Prop :=
  keeps c o c' ∧ ∀ a, o = Ok a → P a.

Lemma wp_keeps_res_bind {A B} (P : B → Prop) (m : M C A) (k : A → M C B) c :
  wp m (keeps c) c →
  (∀ a c1, ninv c1 → after c c1 → wp (k a) (keeps_res P c1) c1) →
  wp (m ≫= k) (keeps_res P c) c.
Proof.
  intros Hm Hk. apply wp_bind. eapply wp_mono; [exact Hm|].
  intros o c1 [Hd Ho]. destruct o as [a|e| |]; cbn [wpk]; [|by split..].
  destruct Ho as [Hn Ha]. eapply wp_mono; [by apply Hk|].
  intros o c2 [? ?]. split; [by eapply keeps_after|done].
Qed.

Lemma wp_keeps_res_ret {A} (P : A → Prop) a c : ninv c → P a → wp (mret a) (keeps_res P c) c.
Proof. intros. apply wp_ret. split; [apply keeps_ok; [done|apply after_refl]|by intros ? [= <-]]. Qed.

Lemma wp_stepDown_keeps t c :
  ninv c → is_u64 t → wp (if term c <? t then stepDown t else mret ()) (keeps c) c.
Proof. intros. eapply wp_mono; [by apply wp_stepDown_to|]. by intros ? ? [? _]. Qed.

Lemma handleAppendEntries_keeps req c :
  ninv c → is_u64 (ae_term req) → Forall plain (ae_entries req) →
  wp (handleAppendEntries req) (keeps_res (λ resp, is_u64 (aer_term resp)) c) c.
Proof.
  intros Hn Ht He. unfold handleAppendEntries. keeps_step.
  apply wp_keeps_res_bind; [by apply wp_stepDown_keeps|]. intros _ c1 Hn1 _. keeps_step.
  keeps_step; [apply wp_keeps_res_ret; [done|apply Hn1]|].
  apply wp_keeps_res_bind; [by apply recognize_leader_keeps|]. intros _ c2 Hn2 _. keeps_step.
  apply wp_keeps_res_bind; [by apply wp_keeps_lift|]. intros conflict c3 Hn3 _.
  destruct conflict as [[ct ci]|]; [apply wp_keeps_res_ret; [done|apply Hn2]|].
  apply wp_bind, wp_lift. destruct (new_entries c2 _) as [l| | |] eqn:Hl; cbn [wpk];
    [|split; [apply keeps_fail; [done..|apply after_refl]|done]..].
  apply wp_keeps_res_bind.
  { keeps_step; [by keeps_steps|]. apply truncateAndAppend_keeps; [done|].
    eapply Forall_sub; [exact He|by eapply new_entries_sub]. }
  intros _ c4 Hn4 _. keeps_step. cbv zeta. apply wp_keeps_res_bind.
  { keeps_step; [|by keeps_steps]. keeps_step. by apply deliverCommitted_keeps. }
  intros _ c5 Hn5 _. keeps_step. apply wp_keeps_res_ret; [done|apply Hn5].
Qed.

Lemma put_next_keeps from v c : ninv c → wp (put_next from v) (keeps c) c.
Proof. intros Hn. unfold put_next. keeps_steps. Qed.
Lemma put_match_keeps from v c : ninv c → wp (put_match from v) (keeps c) c.
Proof. intros Hn. unfold put_match. keeps_steps. Qed.

Lemma sendTimeoutNow_keeps to c : ninv c → wp (sendTimeoutNow to) (keeps c) c.
Proof.
  intros Hn. unfold sendTimeoutNow. keeps_step. apply send_keeps; [done|]. cbn.
  pose proof (ni_term c Hn). unfold is_u64 in *. lia.
Qed.

Lemma handleAppendResponse_keeps from req resp c :
  ninv c → is_u64 (aer_term resp) → wp (handleAppendResponse from req resp) (keeps c) c.
Proof.
  intros Hn Ht. unfold handleAppendResponse. keeps_step. keeps_step.
  { zify_bool. eapply wp_mono; [by apply stepDown_keeps|]. by intros ? ? [? _]. }
  keeps_step; [by keeps_steps|]. keeps_step.
  - apply wp_keeps_bind; [by apply noteFreshAck_keeps|]. intros _ c1 Hn1 _. cbv zeta. keeps_step.
    apply wp_keeps_bind.
    { keeps_step; [|by keeps_steps]. apply wp_keeps_bind; [by apply put_match_keeps|]. intros _ c2 Hn2 _.
      apply wp_keeps_bind; [by apply put_next_keeps|]. intros. by apply maybeAdvanceCommit_keeps. }
    intros _ c2 Hn2 _. keeps_step. apply wp_keeps_bind.
    { keeps_step; [by apply sendTimeoutNow_keeps|by keeps_steps]. }
    intros _ c3 Hn3 _. keeps_steps. by apply sendAppend_keeps.
  - apply wp_keeps_bind; [by keeps_steps|]. intros next c1 Hn1 _. cbv zeta.
    apply wp_keeps_bind; [keeps_step; by apply put_next_keeps|]. intros. by apply sendAppend_keeps.
Qed.

Lemma handleInstallSnapshotResponse_keeps from req resp c :
  ninv c → is_u64 (isr_term resp) → wp (handleInstallSnapshotResponse from req resp) (keeps c) c.
Proof.
  intros Hn Ht. unfold handleInstallSnapshotResponse. keeps_step. keeps_step.
  { zify_bool. eapply wp_mono; [by apply stepDown_keeps|]. by intros ? ? [? _]. }
  keeps_step; [by keeps_steps|]. cbv zeta. apply wp_keeps_bind.
  { keeps_step; [|by keeps_steps]. apply wp_keeps_bind; [by apply put_match_keeps|].
    intros. by apply put_next_keeps. }
  intros _ c1 Hn1 _. keeps_steps. by apply sendAppend_keeps.
Qed.

Lemma handleTimeoutNow_keeps req c :
  ninv c → is_u64 (tn_term req) → term c < 2 ^ 64 - 1 → tn_term req < 2 ^ 64 - 1 →
  wp (handleTimeoutNow req) (keeps c) c.
Proof.
  intros Hn Ht Hb Hb'. unfold handleTimeoutNow. keeps_step. apply wp_bind.
  eapply wp_mono; [by apply wp_stepDown_to|]. intros o c1 [Hk Hst].
  destruct o as [[]|e| |]; cbn [wpk]; [|done..]. destruct Hk as [_ [Hn1 Ha1]].
  keeps_step. eapply wp_mono; [|intros; by eapply keeps_after]. keeps_step; [by keeps_steps|].
  apply startCampaign_keeps; [done|]. destruct (Hst eq_refl) as [[_ (-> & _)]|[_ ->]]; done.
Qed.
(** ** Client requests: a rejection leaves the node running *)

Definition errfree {A} (m : M C A) : Prop := ∀ c e, (m c).1 ≠ Err e.
Definition errless {A} (o : outcome A) : Prop := ∀ e, o ≠ Err e.

Lemma errfree_bind {A B} (m : M C A) (k : A → M C B) :
  errfree m → (∀ a, errfree (k a)) → errfree (m ≫= k).
Proof.
  intros Hm Hk c e. unfold mbind, M_bind. specialize (Hm c). destruct (m c) as [[a|e'| |] c1]; simpl in *;
    [apply Hk|naive_solver|done..].
Qed.
Lemma errfree_lift {A} (o : outcome A) : errless o → errfree (lift o).
Proof. intros Ho c e. apply Ho. Qed.
Lemma errfree_attempt {A} (m : M C A) : errfree (attempt m).
Proof. intros c e. unfold attempt. by destruct (m c) as [[]]. Qed.
Lemma errfree_for_each {A} (l : list A) f : (∀ x, errfree (f x)) → errfree (for_each l f).
Proof. intros Hf. induction l; simpl; [done|]. apply errfree_bind; auto. Qed.
Lemma errless_bind {A B} (o : outcome A) (k : A → outcome B) :
  errless o → (∀ a, errless (k a)) → errless (o ≫= k).
Proof. intros Ho Hk e. destruct o as [a|e'| |]; simpl; [apply Hk|by destruct (Ho e')|done..]. Qed.
Lemma errless_zindex {A} (l : list A) i : errless (zindex l i).
Proof. intros e. unfold zindex. by repeat case_match. Qed.

Ltac errfree_step :=
  lazymatch goal with
  | |- errfree (mbind _ _) => apply errfree_bind; [|intros ?]
  | |- errfree (attempt _) => apply errfree_attempt
  | |- errfree (lift _) => apply errfree_lift
  | |- errless (mbind _ _) => apply errless_bind; [|intros ?]
  | |- errless (zindex _ _) => apply errless_zindex
  | |- errless (if ?b then _ else _) => destruct b
  | |- errless (match ?x with _ => _ end) => destruct x
  | |- errfree (if ?b then _ else _) => destruct b
  | |- errfree (match ?x with _ => _ end) => destruct x
  | |- errfree (for_each _ _) => apply errfree_for_each; intros ?
  | |- errless _ => intros ?; discriminate
  | |- errfree _ => intros ? ?; discriminate
  end.

Lemma errless_termAt (c : C) i : errless (termAt c i).
Proof. unfold termAt. cbv zeta. repeat errfree_step. Qed.

Lemma errless_fill_entries fuel l base i last payload :
  errless (fill_entries fuel l base i last payload).
Proof.
  revert i payload. induction fuel as [|fuel IH]; intros i payload; simpl; cbv zeta;
    repeat errfree_step. apply IH.
Qed.

Lemma errfree_sendAppend peer : errfree (sendAppend peer).
Proof.
  unfold sendAppend. cbv zeta.
  repeat first [apply errfree_lift, errless_termAt | apply errless_fill_entries | errfree_step].
Qed.

Lemma errfree_broadcastAppends : errfree broadcastAppends.
Proof. unfold broadcastAppends, peerIDs. repeat errfree_step. apply errfree_sendAppend. Qed.

Lemma errfree_deliverCommitted : errfree deliverCommitted.
Proof.
  assert (∀ fuel base i commit, errfree (deliver_loop fuel base i commit)) as Hl.
  { induction fuel as [|fuel IH]; intros base i commit; simpl; unfold deliver_one, abortPendingReads;
      repeat errfree_step; apply IH. }
  unfold deliverCommitted. repeat first [apply Hl|errfree_step].
Qed.

Lemma errfree_maybeAdvanceCommit : errfree maybeAdvanceCommit.
Proof.
  assert (∀ fuel n, errfree (advance_loop fuel n)) as Hl.
  { induction fuel as [|fuel IH]; intros n; simpl; [done|]. unfold peerIDs.
    repeat first [apply errless_termAt|apply errfree_deliverCommitted|apply IH|errfree_step]. }
  unfold maybeAdvanceCommit. repeat first [apply Hl|errfree_step].
Qed.

Lemma keeps_errfree {A} (m : M C A) c :
  errfree m → wp m (keeps c) c → wp m (keeps_err c) c.
Proof.
  intros He. unfold wp. intros [Hd Ho]. split; [done|]. specialize (He c).
  destruct (m c) as [[] ?]; simpl in *; [done|naive_solver|done..].
Qed.

Lemma keeps_err_bind {A B} (m : M C A) (k : A → M C B) c :
  wp m (keeps_err c) c →
  (∀ a c1, ninv c1 → after c c1 → wp (k a) (keeps_err c1) c1) →
  wp (m ≫= k) (keeps_err c) c.
Proof.
  intros Hm Hk. apply wp_bind. eapply wp_mono; [exact Hm|].
  intros o c1 [Hd Ho]. destruct o as [a|e| |]; cbn [wpk]; [|done..].
  destruct Ho as [Hn Ha]. eapply wp_mono; [by apply Hk|]. intros o c2 [Hd2 Ho2].
  split; [exact (proj1 (keeps_after c c1 (Crash (A:=B)) c2 Ha (conj Hd2 I)))|].
  destruct o; try done; destruct Ho2; (split; [done|by eapply after_trans]).
Qed.

Lemma propose_keeps command typ c :
  ninv c → typ = ENTRY_TYPE_NORMAL ∨ typ = ENTRY_TYPE_NOOP → zlength command ≤ maxEntryCommand →
  wp (propose command typ) (keeps_err c) c.
Proof.
  intros Hn Hty Hcmd. unfold propose. keeps_step.
  keeps_step; [apply wp_throw; split; [by apply ninv_dview_self|]; split; [done|apply after_refl]|].
  keeps_step; [apply wp_throw; split; [by apply ninv_dview_self|]; split; [done|apply after_refl]|].
  cbv zeta. set (e := mkEntry _ _ _ _).
  assert (plain e) as Hp by (apply plain_new; [apply Hn|apply u64_range|done|done]).
  apply wp_bind, wp_attempt. eapply wp_mono; [apply logAppend_keeps; [done|by apply Forall_singleton]|].
  intros o c1 [[Hd Ho] _]. destruct o as [[]|err| |]; cbn [wpk]; [..|by split|by split].
  2:{ apply wp_throw. by split. }
  destruct Ho as [Hn1 Ha1]. apply wp_bind, wp_modify. cbn [wpk].
  match goal with |- wp _ _ ?s => assert (ninv s) as Hn2; [|assert (after c s) as Ha2 by done] end.
  { apply ninv_entries; [done|]. apply Forall_app_2; [exact (ni_entries c1 Hn1)|by apply Forall_singleton]. }
  match goal with |- wp _ _ ?s => eapply (wp_mono _ (keeps_err s)) end.
  - apply keeps_err_bind; [apply keeps_errfree; [apply errfree_broadcastAppends|by apply broadcastAppends_keeps]|].
    intros _ c3 Hn3 _.
    apply keeps_err_bind; [apply keeps_errfree; [apply errfree_maybeAdvanceCommit|by apply maybeAdvanceCommit_keeps]|].
    intros _ c4 Hn4 _. apply wp_ret. split; [by apply ninv_dview_self|]. split; [done|apply after_refl].
  - intros o c2 [Hd2 Ho2].
    split; [exact (proj1 (keeps_after c _ (Crash (A:=())) c2 Ha2 (conj Hd2 I)))|].
    destruct o; try done; destruct Ho2; (split; [done|by eapply after_trans]).
Qed.
Lemma keeps_err_refl {A} c (o : outcome A) : ninv c → keeps_err c o c.
Proof.
  intros. split; [by apply ninv_dview_self|]. destruct o; try done; (split; [done|apply after_refl]).
Qed.

Lemma transferLeadership_keeps to c : ninv c → wp (transferLeadership to) (keeps_err c) c.
Proof.
  intros Hn. unfold transferLeadership. keeps_step.
  keeps_step; [by apply wp_throw, keeps_err_refl|].
  keeps_step; [by apply wp_ret, keeps_err_refl|].
  keeps_step; [by apply wp_throw, keeps_err_refl|].
  apply keeps_err_bind.
  { apply keeps_errfree; [done|]. apply wp_keeps_modify; [ninv_frame|after_frame]. }
  intros _ c1 Hn1 _. apply keeps_errfree.
  - case_match; [unfold sendTimeoutNow; repeat errfree_step|apply errfree_sendAppend].
  - case_match; [by apply sendTimeoutNow_keeps|by apply sendAppend_keeps].
Qed.

Lemma requestRead_keeps c : ninv c → wp requestRead (keeps_err c) c.
Proof.
  intros Hn. unfold requestRead. keeps_step.
  keeps_step; [by apply wp_throw, keeps_err_refl|].
  apply keeps_err_bind; [by apply wp_lift, keeps_err_refl|]. intros t c1 Hn1 _.
  keeps_step; [by apply wp_throw, keeps_err_refl|].
  apply keeps_err_bind; [apply keeps_errfree; [done|apply wp_keeps_modify; [ninv_frame|after_frame]]|].
  intros _ c2 Hn2 _. keeps_step.
  apply keeps_err_bind; [apply keeps_errfree; [done|apply wp_keeps_modify; [ninv_frame|after_frame]]|].
  intros _ c3 Hn3 _. apply keeps_err_bind.
  { apply keeps_errfree; [unfold confirmReads; repeat errfree_step|by apply confirmReads_keeps]. }
  intros b c4 Hn4 _. apply keeps_err_bind.
  { destruct b; [by apply wp_ret, keeps_err_refl|].
    apply keeps_errfree; [apply errfree_broadcastAppends|by apply broadcastAppends_keeps]. }
  intros _ c5 Hn5 _. by apply wp_ret, keeps_err_refl.
Qed.

(** ** Snapshots *)

Lemma keeps_err_wrap {A} fmt (m : M C A) c :
  wp m (keeps_err c) c → wp (wrap fmt m) (keeps_err c) c.
Proof. intros Hm. apply wp_wrap. eapply wp_mono; [exact Hm|]. by intros []. Qed.

Lemma saveSnapshot_keeps i t data c :
  ninv c → is_u64 i → is_u64 t →
  wp (zoom disk (saveSnapshot (mkSnap i t (Some Cfg) data))) (keeps_err c) c.
Proof.
  intros Hn Hi Ht. apply wp_zoom. eapply wp_mono.
  { apply (saveSnapshot_view i t data (term c) (votedFor c)); [apply Hn|by apply ninv_dview_self|done..]. }
  intros o d' (Ho & Hd & HP & Hs). split; [done|].
  assert (o ≠ Crash → ninv (c <| disk := d' |>)).
  { intros Hc. specialize (Ho Hc). destruct Hn, Hd; split; cbn; try done. intros t' v' ?%Hs. eauto. }
  destruct o; try done; (split; [auto|after_frame]).
Qed.

Lemma logRewrite_keeps es c :
  ninv c → Forall plain es → wp (zoom disk (logRewrite es)) (keeps_err c) c.
Proof.
  intros Hn Hes. apply wp_zoom. eapply wp_mono.
  { apply (logRewrite_view es (term c) (votedFor c)); [apply Hn|by apply ninv_dview_self|done]. }
  intros o d' (Ho & Hd & HP & Hs). split; [done|].
  assert (o ≠ Crash → ninv (c <| disk := d' |>)).
  { intros Hc. specialize (Ho Hc). destruct Hn, Hd; split; cbn; try done. intros t v ?%Hs. eauto. }
  destruct o; try done; (split; [auto|after_frame]).
Qed.

Lemma termAt_u64 c i t : ninv c → termAt c i = Ok t → is_u64 t.
Proof.
  intros Hn. unfold termAt. case_match; [intros [= <-]; apply Hn|].
  destruct (entries c) as [|e0 es] eqn:El; [by intros [= <-]|].
  case_match; [by intros [= <-]|]. cbv zeta. case_match; [by intros [= <-]|].
  rewrite <-El. destruct (zindex (entries c) _) as [e| | |] eqn:Hz; simpl; [|done..].
  intros [= <-]. apply zindex_lookup in Hz as [_ Hz].
  pose proof (ni_entries c Hn) as He. rewrite Forall_lookup in He.
  destruct (He _ _ Hz) as [(? & _) _]. done.
Qed.

Lemma compact_keeps applied data c :
  ninv c → is_u64 applied → wp (compact applied data) (keeps_err c) c.
Proof.
  intros Hn Hi. unfold compact. keeps_step.
  keeps_step; [by apply wp_ret, keeps_err_refl|].
  keeps_step; [by apply wp_throw, keeps_err_refl|].
  apply wp_bind, wp_lift. destruct (termAt c applied) as [t| | |] eqn:Ht; cbn [wpk];
    [|by apply keeps_err_refl..].
  apply termAt_u64 in Ht; [|done]. cbv zeta. cbn [lastIndex lastTerm config default].
  assert (configAt c applied = Cfg) as Hcf.
  { unfold configAt. rewrite fold_members_plain; [apply Hn|].
    eapply Forall_sub; [exact (ni_entries c Hn)|apply entries_through_sub]. }
  rewrite Hcf. apply keeps_err_bind; [by apply keeps_err_wrap, saveSnapshot_keeps|].
  intros _ c1 Hn1 _. apply keeps_err_bind; [by apply wp_lift, keeps_err_refl|].
  intros e0 c2 Hn2 _. apply wp_bind, wp_lift.
  destruct (zslice_from _ _) as [keep| | |] eqn:Hk; cbn [wpk]; [|by apply keeps_err_refl..].
  assert (Forall plain keep) as Hp.
  { eapply Forall_sub; [exact (ni_entries c Hn)|by eapply zslice_from_sub]. }
  apply keeps_err_bind; [by apply keeps_err_wrap, logRewrite_keeps|].
  intros _ c3 Hn3 _. apply keeps_errfree; [done|]. apply wp_keeps_modify; [|after_frame].
  destruct Hn3; split; cbn; done.
Qed.
Lemma handleInstallSnapshot_keeps req c :
  ninv c → is_u64 (is_term req) → is_u64 (is_lastIncludedIndex req) →
  is_u64 (is_lastIncludedTerm req) →
  (is_lastIncludedIndex req = 0 ∨ is_config req = encodeMembers Cfg) →
  wp (handleInstallSnapshot req) (keeps_res (λ resp, is_u64 (isr_term resp)) c) c.
Proof.
  intros Hn Ht Hi Hlt Hcf. unfold handleInstallSnapshot. keeps_step.
  apply wp_keeps_res_bind; [by apply wp_stepDown_keeps|]. intros _ c1 Hn1 _. keeps_step.
  keeps_step; [apply wp_keeps_res_ret; [done|apply Hn1]|].
  apply wp_keeps_res_bind; [by apply recognize_leader_keeps|]. intros _ c2 Hn2 _. keeps_step.
  cbv zeta. keeps_step; [apply wp_keeps_res_ret; [done|apply Hn2]|]. zify_bool.
  destruct Hcf as [Hz|Hcf].
  { pose proof (ni_base c2 Hn2) as [[? _] _]. lia. }
  rewrite Hcf, Cfg_rt. apply wp_bind, wp_wrap, wp_lift. cbn [wpk].
  apply wp_keeps_res_bind.
  { apply wp_keeps_wrap. eapply wp_mono; [by apply saveSnapshot_keeps|]. apply keeps_err_keeps. }
  intros _ c3 Hn3 _. apply wp_bind, wp_lift.
  match goal with |- wpk _ _ ?o _ => destruct o as [keep| | |] eqn:Hk end; cbn [wpk];
    [|split; [apply keeps_fail; [done..|apply after_refl]|done]..].
  assert (Forall plain keep) as Hp.
  { revert Hk. case_match; [|by intros [= <-]]. destruct (termAt _ _); simpl; [|done..].
    case_match; [|by intros [= <-]]. destruct (zindex _ 0); simpl; [|done..].
    intros ?%zslice_from_sub. by eapply Forall_sub; [exact (ni_entries c2 Hn2)|]. }
  apply wp_keeps_res_bind.
  { apply wp_keeps_wrap. eapply wp_mono; [by apply logRewrite_keeps|]. apply keeps_err_keeps. }
  intros _ c4 Hn4 _. apply wp_keeps_res_bind.
  { apply wp_keeps_modify; [|after_frame]. destruct Hn4; split; cbn; done. }
  intros _ c5 Hn5 _. apply wp_keeps_res_bind; [by apply recalcConfig_keeps|].
  intros _ c6 Hn6 _. apply wp_keeps_res_bind; [apply wp_keeps_modify; [ninv_frame|after_frame]|].
  intros _ c7 Hn7 _. apply wp_keeps_res_ret; [done|apply Hn2].
Qed.

(** ** Booting *)

(** Booting recovers the term and vote that the disk holds, and makes them
    durable before the node takes part in anything. *)
Lemma newCore_ninv conf t0 v0 (d : D) :
  ID conf ∈ dom Cfg → is_u64 (ID conf) → dview t0 v0 d →
  match newCore conf Cfg d with
  | (Ok c, _) => ninv c ∧ cfg c = applyDefaults conf ∧ role c = follower ∧ outbox c = [] ∧
                 may_state d (term c) (votedFor c)
  | (_, d') => dview t0 v0 d'
  end.
Proof.
  intros Hid Hidu [Hw Hs Hl Hsn]. unfold newCore.
  destruct (ID conf =? 0) eqn:Hid0; [by split|]. zify_bool.
  match goal with |- context [match ?m d with _ => _ end] => set (load := m) end.
  assert (wp load (λ o d', d_wf d' ∧ (∀ t v, may_state d' t v → may_state d t v) ∧
      (∀ l, may_log d' l → may_log d l) ∧ (∀ s, may_snap d' s → may_snap d s) ∧
      match o with
      | Ok (t, v, snap, l) => d_open d' ∧ may_state d t v ∧ is_u64 t ∧ is_u64 v ∧
          (∀ t' v', may_state d' t' v' → t' = t ∧ v' = v) ∧ may_snap d snap ∧ may_log d l
      | _ => True
      end) d) as Hload.
  { unfold load. apply wp_bind. eapply wp_mono; [by apply loadState_law|].
    intros o d1 (Hw1 & Hnow1 & Hs1 & Hl1 & Hsn1 & Ho).
    assert (∀ t v, may_state d1 t v → may_state d t v) as Hs1' by (intros ? ? ?%Hs1; done).
    destruct o as [[t v]|e| |]; cbn [wpk]; [|by split_and!..].
    destruct Ho as (Hnow & Hst & Htu & Hvu). apply wp_bind.
    eapply wp_mono; [by apply loadSnapshot_law|].
    intros o d2 (Hw2 & _ & Hnow2 & Hs2 & Hl2 & Hsn2 & Ho).
    assert (∀ t v, may_state d2 t v → may_state d t v) as Hs2' by (intros ? ? ?%Hs2; auto).
    destruct o as [snap|e| |]; cbn [wpk]; [|by split_and!; auto..].
    apply wp_bind. eapply wp_mono; [by apply logOpen_law|].
    intros o d3 (Hw3 & Hs3 & Hl3 & Hsn3 & Ho3).
    destruct o as [l|e| |]; cbn [wpk]; [|by split_and!; auto..].
    apply wp_ret. destruct Ho3 as (Hop & Hlog & Hnow3). split_and!; auto.
    intros t' v' ?%Hnow3%Hnow2%Hnow1. by eapply now_state_fun. }
  unfold wp in Hload. destruct (load d) as [o d'] eqn:Eload. cbn [fst snd] in Hload.
  destruct Hload as (Hw' & Hs' & Hl' & Hsn' & Ho).
  assert (dview t0 v0 d') as Hd' by (split; auto).
  destruct o as [[[[t v] snap] l]|e| |]; [|done..].
  destruct Ho as (Hopen & Hst & Htu & Hvu & Huniq & Hsnap & Hlog).
  apply Hsn in Hsnap as (Hsi & Hst' & Hcf). apply Hl in Hlog.
  assert (default Cfg (config snap) = Cfg) as Hdef by (destruct Hcf as [->|[-> _]]; done).
  set (c := initial_core _ _ _ _ _ _ _).
  assert (∃ c1, recalcConfig c = (Ok (), c1) ∧ ninv c1 ∧ cfg c1 = applyDefaults conf ∧
            role c1 = follower ∧ outbox c1 = [] ∧ term c1 = t ∧ votedFor c1 = v)
    as (c1 & Hr & Hn1 & Hc1 & Hf1 & Ho1 & <- & <-).
  { eexists. split; [reflexivity|]. split; [|done]. split; cbn; try done; [by auto..|].
    by rewrite fold_members_plain. }
  unfold mbind, M_bind. rewrite Hr.
  assert (wp resetElectionTimer (λ o c', match o with
    | Ok _ => ninv c' ∧ cfg c' = cfg c1 ∧ role c' = role c1 ∧ outbox c' = outbox c1 ∧
              term c' = term c1 ∧ votedFor c' = votedFor c1
    | _ => True end) c1) as Hreset.
  { apply wp_resetElectionTimer; [done|]. intros n. split; [ninv_frame|done]. }
  unfold wp in Hreset. destruct (resetElectionTimer c1) as [[[]|e| |] c2]; cbn [fst snd] in *; [|done..].
  destruct Hreset as (? & ? & ? & ? & ? & ?). split_and!; congruence.
Qed.
End votes.
