(* ===== verification/RaftSpec.v ===== *)
(** * Raft as a specification, and its safety

    An abstract Raft for a fixed membership: nodes with a term, a vote and a
    whole log, and the history the protocol's argument needs (candidacies,
    votes, leaders with their logs, acknowledgements).  No messages, no disks, no
    snapshots: a step is what a handler of the core makes durable.  A stopped
    node is the set of states its disk may show.  The invariant of this system
    gives Leader Completeness and the agreement of all committed prefixes; the
    files that follow show that the nodes of internal/raft implement it. *)

From stdpp Require Import prelude gmap strings.
From S2P Require Import Prelude RaftTypes RaftLaws Core CoreVotes.
Open Scope Z_scope.

(** ** Logs *)

(** A log is the list of its entries from index 1; [k] entries are its prefix
    through index [k]. *)
Definition last_term (l : list Entry) : Z := match last l with Some e => Term e | None => 0 end.

Definition up_to_date (cl vl : list Entry) : Prop :=
  last_term vl < last_term cl ∨ (last_term cl = last_term vl ∧ (length vl ≤ length cl)%nat).

(** Every entry carries its position, short of the end of the 64-bit range, and
    no membership change. *)
Definition log_wf (l : list Entry) : Prop :=
  ∀ k e, l !! k = Some e → Index e = Z.of_nat k + 1 ∧ Index e < 2 ^ 64 - 1 ∧ plain e.

(** ** States *)

Record lead := mkLead {
  ld_id : Z;
  ld_start : list Entry;   (* the log it was elected with *)
  ld_log : list Entry      (* ... and the entries it has appended or begun to *)
}.

Record anode := mkA { an_term : Z; an_vote : Z; an_log : list Entry }.

Inductive astatus := Live (r : Role) (a : anode) | Dead (P : anode → Prop).

Record abs := mkAbs {
  a_nodes : gmap Z astatus;
  a_cands : list (Z * Z * list Entry);       (* term, candidate, its log *)
  a_votes : list (Z * Z * Z * list Entry);   (* voter, term, candidate, the voter's log *)
  a_leads : gmap Z lead;                     (* the leader of a term *)
  a_acks : list (Z * Z * nat)                (* node, term, how much of that leader's log it held *)
}.

#[export] Instance abs_eta : Settable abs := λ A,
  mkAbs (a_nodes A) (a_cands A) (a_votes A) (a_leads A) (a_acks A).
#[export] Instance set_a_nodes : Setter a_nodes := ltac:(solve_setter).
#[export] Instance set_a_cands : Setter a_cands := ltac:(solve_setter).
#[export] Instance set_a_votes : Setter a_votes := ltac:(solve_setter).
#[export] Instance set_a_leads : Setter a_leads := ltac:(solve_setter).
#[export] Instance set_a_acks : Setter a_acks := ltac:(solve_setter).

(** A state node [i] is in, or may be in when it comes back. *)
Definition view (A : abs) (i : Z) (a : anode) : Prop :=
  match a_nodes A !! i with
  | Some (Live _ a') => a = a'
  | Some (Dead P) => P a
  | None => False
  end.

(** ** Steps *)

(** One write of a node's disk. *)
Inductive moves (A : abs) (i : Z) (a : anode) : anode → Prop :=
  | move_term t : an_term a < t → moves A i a (mkA t noVote (an_log a))
  | move_campaign : moves A i a (mkA (an_term a + 1) i (an_log a))
  | move_vote j : an_vote a = noVote → moves A i a (mkA (an_term a) j (an_log a))
  | move_adopt ld q :
      a_leads A !! an_term a = Some ld → ¬ take q (ld_log ld) `prefix_of` an_log a →
      moves A i a (mkA (an_term a) (an_vote a) (take q (ld_log ld))).

Definition status (A : abs) (i : Z) (st : astatus) : abs := A <| a_nodes ::= <[i := st]> |>.

Section spec.
Context (Cfg : Members).

Definition is_quorum (Q : gset Z) : Prop := Q ⊆ dom Cfg ∧ quorum Cfg ≤ Z.of_nat (size Q).

Inductive astep (i : Z) (A : abs) : abs → Prop :=
  | as_term r a t :
      a_nodes A !! i = Some (Live r a) → an_term a < t →
      astep i A (status A i (Live follower (mkA t noVote (an_log a))))
  | as_follow r a :
      a_nodes A !! i = Some (Live r a) → astep i A (status A i (Live follower a))
  | as_campaign r a :
      a_nodes A !! i = Some (Live r a) → i ≠ noVote → 0 ≤ an_term a →
      let t := an_term a + 1 in
      astep i A ((status A i (Live candidate (mkA t i (an_log a))))
        <| a_cands ::= cons (t, i, an_log a) |> <| a_votes ::= cons (i, t, i, an_log a) |>)
  | as_vote a j :
      a_nodes A !! i = Some (Live follower a) → an_vote a = noVote →
      astep i A (status A i (Live follower (mkA (an_term a) j (an_log a))))
  | as_announce r a cl :
      a_nodes A !! i = Some (Live r a) → an_vote a ≠ noVote →
      (an_term a, an_vote a, cl) ∈ a_cands A → up_to_date cl (an_log a) →
      astep i A (A <| a_votes ::= cons (i, an_term a, an_vote a, an_log a) |>)
  | as_elect a Q :
      a_nodes A !! i = Some (Live candidate a) → is_quorum Q →
      (∀ v, v ∈ Q → ∃ l, (v, an_term a, i, l) ∈ a_votes A) →
      astep i A ((status A i (Live leader a))
        <| a_leads ::= <[an_term a := mkLead i (an_log a) (an_log a)]> |>)
  | as_reserve a ld e :
      a_nodes A !! i = Some (Live leader a) → a_leads A !! an_term a = Some ld → ld_log ld = an_log a →
      Term e = an_term a → Index e = Z.of_nat (length (an_log a)) + 1 → Index e < 2 ^ 64 - 1 → plain e →
      astep i A (A <| a_leads ::= <[an_term a := mkLead (ld_id ld) (ld_start ld) (ld_log ld ++ [e])]> |>)
  | as_adopt r a ld q :
      a_nodes A !! i = Some (Live r a) → r ≠ candidate → a_leads A !! an_term a = Some ld →
      ¬ take q (ld_log ld) `prefix_of` an_log a →
      astep i A (status A i (Live r (mkA (an_term a) (an_vote a) (take q (ld_log ld)))))
  | as_ack r a ld m :
      a_nodes A !! i = Some (Live r a) → a_leads A !! an_term a = Some ld →
      (m ≤ length (ld_log ld))%nat → take m (ld_log ld) `prefix_of` an_log a →
      astep i A (A <| a_acks ::= cons (i, an_term a, m) |>)
  | as_crash r a (P : anode → Prop) :
      a_nodes A !! i = Some (Live r a) → (∀ x, P x → x = a ∨ moves A i a x) →
      astep i A (status A i (Dead P))
  | as_forget (P P' : anode → Prop) :
      a_nodes A !! i = Some (Dead P) → (∀ x, P' x → P x) → astep i A (status A i (Dead P'))
  | as_boot (P : anode → Prop) a :
      a_nodes A !! i = Some (Dead P) → P a → astep i A (status A i (Live follower a)).

(** Every member starts stopped, at term 0, with an empty log. *)
Definition ainitial (A : abs) : Prop :=
  (∀ i st, a_nodes A !! i = Some st → st = Dead (λ a, a = mkA 0 noVote [])) ∧
  a_cands A = [] ∧ a_votes A = [] ∧ a_leads A = ∅ ∧ a_acks A = [].

(** ** The invariant *)

(** Log Matching: a log is a prefix of the log of the leader of any of its
    entries, up to that entry. *)
Definition log_ok (A : abs) (l : list Entry) : Prop :=
  ∀ k e, l !! k = Some e → ∃ ld, a_leads A !! Term e = Some ld ∧ take (S k) l `prefix_of` ld_log ld.

(** [p], acknowledged in term [t], is in [l], or a leader of a later term, at
    most [T], was elected without it; so for every prefix acknowledged. *)
Definition kept (A : abs) (t T : Z) (p l : list Entry) : Prop :=
  p `prefix_of` l ∨
  ∃ t' ld, t < t' ≤ T ∧ a_leads A !! t' = Some ld ∧ ¬ p `prefix_of` ld_start ld.

Definition acks_kept (A : abs) (i T T' : Z) (l : list Entry) : Prop :=
  ∀ t k m ld, (i, t, k) ∈ a_acks A → (m ≤ k)%nat → a_leads A !! t = Some ld → t < T →
    kept A t T' (take m (ld_log ld)) l.

Record view_ok (A : abs) (i : Z) (a : anode) : Prop := {
  vo_terms : Forall (λ e, Term e ≤ an_term a) (an_log a);
  vo_log : log_ok A (an_log a);
  vo_acks : acks_kept A i (an_term a + 1) (an_term a) (an_log a);
  vo_past : ∀ t m, (i, t, m) ∈ a_acks A → t ≤ an_term a;
  vo_votes : ∀ t j l, (i, t, j, l) ∈ a_votes A → t < an_term a ∨ (t = an_term a ∧ an_vote a = j);
  vo_cands : ∀ t l, (t, i, l) ∈ a_cands A → t ≤ an_term a
}.

Record lead_ok (A : abs) (t : Z) (ld : lead) : Prop := {
  lo_start : ld_start ld `prefix_of` ld_log ld;
  lo_log : log_ok A (ld_log ld);
  lo_terms : Forall (λ e, Term e ≤ t) (ld_log ld);
  lo_wf : log_wf (ld_log ld);
  lo_cand : (t, ld_id ld, ld_start ld) ∈ a_cands A;
  lo_votes : ∃ Q, is_quorum Q ∧ ∀ v, v ∈ Q → ∃ vl, (v, t, ld_id ld, vl) ∈ a_votes A ∧
    acks_kept A v t (t - 1) vl
}.

Record ainv (A : abs) : Prop := {
  ai_view : ∀ i a, view A i a → view_ok A i a;
  ai_cand : ∀ i a, a_nodes A !! i = Some (Live candidate a) →
    (an_term a, i, an_log a) ∈ a_cands A ∧
    (∀ ld, a_leads A !! an_term a = Some ld → ld_id ld ≠ i);
  ai_leader : ∀ i a, a_nodes A !! i = Some (Live leader a) →
    ∃ ld, a_leads A !! an_term a = Some ld ∧ ld_id ld = i ∧ an_log a `prefix_of` ld_log ld;
  ai_cands : ∀ t i l, (t, i, l) ∈ a_cands A → 0 < t ∧ log_ok A l ∧ Forall (λ e, Term e < t) l;
  ai_cands_fun : ∀ t i l l', (t, i, l) ∈ a_cands A → (t, i, l') ∈ a_cands A → l = l';
  ai_votes : ∀ v t j vl, (v, t, j, vl) ∈ a_votes A → j ≠ noVote ∧ log_ok A vl ∧
    acks_kept A v t t vl ∧ ∃ cl, (t, j, cl) ∈ a_cands A ∧ up_to_date cl vl;
  ai_votes_fun : ∀ v t i j l l', (v, t, i, l) ∈ a_votes A → (v, t, j, l') ∈ a_votes A → i = j;
  ai_leads : ∀ t ld, a_leads A !! t = Some ld → lead_ok A t ld;
  ai_acks : ∀ n t m, (n, t, m) ∈ a_acks A → ∃ ld, a_leads A !! t = Some ld ∧ (m ≤ length (ld_log ld))%nat
}.

(** ** Facts about prefixes *)

Lemma prefix_comparable {A} (p q l : list A) :
  p `prefix_of` l → q `prefix_of` l → (length p ≤ length q)%nat → p `prefix_of` q.
Proof.
  intros [x ->] [y Hy] Hle. exists (drop (length p) q).
  apply (f_equal (take (length p))) in Hy. rewrite take_app_length, take_app_le in Hy by done.
  rewrite Hy at 1. by rewrite take_drop.
Qed.

Lemma take_prefix {A} n (l : list A) : take n l `prefix_of` l.
Proof. exists (drop n l). by rewrite take_drop. Qed.

Lemma prefix_take_eq {A} m (l l' : list A) :
  l `prefix_of` l' → (m ≤ length l)%nat → take m l' = take m l.
Proof. intros [x ->] Hm. by apply take_app_le. Qed.

Lemma prefix_lookup_1 {A} (p l : list A) k x : p `prefix_of` l → p !! k = Some x → l !! k = Some x.
Proof. intros [y ->] Hk. by apply lookup_app_l_Some. Qed.

Lemma last_term_lookup l : l ≠ [] → ∃ e, l !! (length l - 1)%nat = Some e ∧ last_term l = Term e.
Proof.
  intros Hl. unfold last_term. rewrite last_lookup. destruct l as [|x l]; [done|].
  replace (pred (length (x :: l))) with (length (x :: l) - 1)%nat by (simpl; lia).
  destruct ((x :: l) !! _) as [e|] eqn:E; [by exists e|]. apply lookup_ge_None in E. simpl in E. lia.
Qed.

(** ** How history grows *)

Record grows (A A' : abs) : Prop := {
  gr_cands : a_cands A ⊆ a_cands A';
  gr_votes : a_votes A ⊆ a_votes A';
  gr_acks : a_acks A ⊆ a_acks A';
  gr_leads : ∀ t ld, a_leads A !! t = Some ld → ∃ ld', a_leads A' !! t = Some ld' ∧
    ld_id ld' = ld_id ld ∧ ld_start ld' = ld_start ld ∧ ld_log ld `prefix_of` ld_log ld'
}.

Lemma grows_refl A : grows A A.
Proof. split; try done. intros t ld. eauto. Qed.

Lemma grows_status A i st : grows A (status A i st).
Proof. split; cbn; try done. intros t ld. eauto. Qed.

Lemma grows_trans A B C : grows A B → grows B C → grows A C.
Proof.
  intros [? ? ? H1] [? ? ? H2]. split; [set_solver..|]. intros t ld (ld1 & E1 & I1 & S1 & P1)%H1.
  apply H2 in E1 as (ld2 & E2 & I2 & S2 & P2). exists ld2. split_and!; try congruence. by etrans.
Qed.

Lemma log_ok_grow A A' l : grows A A' → log_ok A l → log_ok A' l.
Proof.
  intros Hg Hl k e Hk. destruct (Hl k e Hk) as (ld & Hld & Hp).
  destruct (gr_leads _ _ Hg _ _ Hld) as (ld' & ? & _ & _ & ?). exists ld'. split; [done|]. by etrans.
Qed.

Lemma log_ok_prefix A l l' : l `prefix_of` l' → log_ok A l' → log_ok A l.
Proof.
  intros Hp Hl k e Hk. destruct (Hl k e) as (ld & Hld & Hpl); [by eapply prefix_lookup_1|].
  exists ld. split; [done|]. apply lookup_lt_Some in Hk.
  by rewrite (prefix_take_eq (S k) l l') in Hpl by (done || lia).
Qed.

Lemma kept_grow A A' t T p l : grows A A' → kept A t T p l → kept A' t T p l.
Proof.
  intros Hg [?|(t' & ld & ? & Hld & ?)]; [by left|right].
  destruct (gr_leads _ _ Hg _ _ Hld) as (ld' & ? & _ & Hs & _). exists t', ld'. by rewrite Hs.
Qed.

Lemma kept_later A t T T' p l : T ≤ T' → kept A t T p l → kept A t T' p l.
Proof. intros ? [?|(t' & ld & ? & ?)]; [by left|right]. exists t', ld. split; [lia|done]. Qed.

Lemma acks_kept_grow A A' i T T' l :
  grows A A' → ainv A → (∀ t m, (i, t, m) ∈ a_acks A' → t < T → (i, t, m) ∈ a_acks A) →
  acks_kept A i T T' l → acks_kept A' i T T' l.
Proof.
  intros Hg Hi Hsame Hk t k m ld' Hin Hmk Hld' Ht. apply Hsame in Hin; [|done].
  destruct (ai_acks _ Hi _ _ _ Hin) as (ld & Hld & Hm).
  destruct (gr_leads _ _ Hg _ _ Hld) as (ld1 & Hld1 & _ & _ & Hp). assert (ld1 = ld') as -> by congruence.
  rewrite (prefix_take_eq m _ _ Hp) by lia. eapply kept_grow; [done|]. by apply (Hk t k m ld).
Qed.

Lemma view_ok_grow A A' i a :
  grows A A' → ainv A →
  (∀ t m, (i, t, m) ∈ a_acks A' → (i, t, m) ∈ a_acks A) →
  (∀ t j l, (i, t, j, l) ∈ a_votes A' → (i, t, j, l) ∈ a_votes A) →
  (∀ t l, (t, i, l) ∈ a_cands A' → (t, i, l) ∈ a_cands A) →
  view_ok A i a → view_ok A' i a.
Proof.
  intros Hg Hi Ha Hv Hc [? ? ? ? ? ?]. split; eauto using log_ok_grow. eapply acks_kept_grow; eauto.
Qed.

Lemma lead_ok_grow A A' t ld :
  grows A A' → ainv A →
  (∀ v t' m, (v, t', m) ∈ a_acks A' → t' < t → (v, t', m) ∈ a_acks A ∨
     ∀ j l, (v, t, j, l) ∉ a_votes A) →
  lead_ok A t ld → lead_ok A' t ld.
Proof.
  intros Hg Hi Ha [? ? ? ? Hc (Q & HQ & Hv)]. split; eauto using log_ok_grow.
  - by apply (gr_cands _ _ Hg).
  - exists Q. split; [done|]. intros v Hin. destruct (Hv v Hin) as (vl & Hvl & Hk). exists vl.
    split; [by apply (gr_votes _ _ Hg)|]. eapply acks_kept_grow; [done|done| |done].
    intros t' m Hm Ht. destruct (Ha v t' m Hm Ht) as [?|Hno]; [done|]. by destruct (Hno _ _ Hvl).
Qed.

(** ** Every step keeps the invariant *)

Lemma moves_ok A i a a' : ainv A → view_ok A i a → moves A i a a' → view_ok A i a'.
Proof.
  intros Hi [Ht Hl Ha Hp Hv Hc] Hm.
  assert (∀ t v, an_term a < t → view_ok A i (mkA t v (an_log a))) as Hup.
  { intros t v Hlt. split; cbn; [|done|..].
    - eapply Forall_impl; [done|]. simpl. lia.
    - intros t' k m ld Hin Hmk Hld _. eapply kept_later; [|apply (Ha t' k m ld)]; [lia|done..|].
      apply Hp in Hin. lia.
    - intros t' m Hin. apply Hp in Hin. lia.
    - intros t' j l [?|[-> _]]%Hv; left; lia.
    - intros t' l Hin. apply Hc in Hin. lia. }
  destruct Hm as [t Hlt| |j Hnv|ld q Hld Hq]; [by apply Hup|apply Hup; lia|..].
  - split; try done. intros t j0 l Hin. destruct (Hv _ _ _ Hin) as [?|[-> Hj]]; [by left|].
    destruct (ai_votes _ Hi _ _ _ _ Hin) as [Hne _]. congruence.
  - destruct (ai_leads _ Hi _ _ Hld) as [Hs Hlo Htm Hw _ _]. split; cbn; try done.
    + by apply Forall_take.
    + eapply log_ok_prefix; [apply take_prefix|done].
    + intros t k m ld0 Hin Hmk Hld0 Hlt. destruct (Ha t k m ld0 Hin Hmk Hld0 Hlt) as [Hpre|?]; [|by right].
      destruct (ai_acks _ Hi _ _ _ Hin) as (ld1 & E1 & Hm). assert (ld1 = ld0) as -> by congruence.
      destruct (decide (take m (ld_log ld0) `prefix_of` ld_log ld)) as [Hin'|Hnot].
      * left. destruct (decide (m ≤ q)%nat) as [Hle|Hgt].
        { eapply prefix_comparable; [exact Hin'|apply take_prefix|]. rewrite !length_take.
          apply prefix_length in Hin'. rewrite length_take in Hin'. lia. }
        exfalso. apply Hq. etrans; [|exact Hpre].
        eapply prefix_comparable; [apply take_prefix|exact Hin'|]. rewrite !length_take. lia.
      * right. exists (an_term a), ld. split; [|split; [done|]].
        { destruct (decide (t = an_term a)) as [->|]; [|lia]. destruct Hnot.
          assert (ld0 = ld) as -> by congruence. apply take_prefix. }
        intros Hst. apply Hnot. by etrans.
Qed.

(** Steps that only change the state of node [i]. *)
Definition shows (st : astatus) (a : anode) : Prop :=
  match st with Live _ a' => a = a' | Dead P => P a end.

Lemma view_status A i st j a :
  view (status A i st) j a → (j = i ∧ shows st a) ∨ (j ≠ i ∧ view A j a).
Proof.
  unfold view, status. cbn. destruct (decide (j = i)) as [->|]; [rewrite lookup_insert_eq; auto|].
  rewrite lookup_insert_ne by done. auto.
Qed.

Lemma status_inv A i st j st' :
  a_nodes (status A i st) !! j = Some st' → (j = i ∧ st' = st) ∨ (j ≠ i ∧ a_nodes A !! j = Some st').
Proof. unfold status. cbn. rewrite lookup_insert. case_decide; naive_solver. Qed.

Lemma ainv_status A i st :
  ainv A → (∀ a, shows st a → view_ok A i a) →
  (∀ a, st = Live candidate a → (an_term a, i, an_log a) ∈ a_cands A ∧
     ∀ ld, a_leads A !! an_term a = Some ld → ld_id ld ≠ i) →
  (∀ a, st = Live leader a → ∃ ld, a_leads A !! an_term a = Some ld ∧ ld_id ld = i ∧
     an_log a `prefix_of` ld_log ld) →
  ainv (status A i st).
Proof.
  intros Hi Hs Hc Hl. destruct Hi. split; try done.
  - intros j a [[-> Hv]|[_ Hv]]%view_status; [by destruct (Hs a Hv)|by destruct (ai_view0 j a Hv)].
  - intros j a [[-> <-]|[_ Hj]]%status_inv; [by apply Hc|by apply ai_cand0].
  - intros j a [[-> <-]|[_ Hj]]%status_inv; [by apply Hl|by apply ai_leader0].
  - intros t ld Hld. by destruct (ai_leads0 t ld Hld).
Qed.

Lemma live_view A i r a : a_nodes A !! i = Some (Live r a) → view A i a.
Proof. unfold view. by intros ->. Qed.

Lemma up_to_date_refl l : up_to_date l l.
Proof. right. split; [done|lia]. Qed.

Lemma campaign_inv i A r a :
  ainv A → a_nodes A !! i = Some (Live r a) → i ≠ noVote → 0 ≤ an_term a →
  let t := an_term a + 1 in
  ainv ((status A i (Live candidate (mkA t i (an_log a))))
    <| a_cands ::= cons (t, i, an_log a) |> <| a_votes ::= cons (i, t, i, an_log a) |>).
Proof.
  intros Hi Hn Hi0 Ht0 t. pose proof (ai_view _ Hi i a (live_view _ _ _ _ Hn)) as Hv.
  pose proof (moves_ok _ _ _ _ Hi Hv (move_campaign A i a)) as Hv'.
  match goal with |- ainv ?B => set (A' := B) end.
  assert (grows A A') as Hg by (split; [set_solver|set_solver|done|cbn; eauto]).
  assert (∀ l, (t, i, l) ∉ a_cands A) as Hnew by (intros l Hin; apply (vo_cands _ _ _ Hv) in Hin; lia).
  assert (∀ j l, (i, t, j, l) ∉ a_votes A) as Hnewv.
  { intros j l Hin. apply (vo_votes _ _ _ Hv) in Hin. lia. }
  split.
  - intros j b [[-> Hb]|[Hne Hb]]%view_status.
    + simpl in Hb. subst b. destruct Hv' as [? ? ? ? Hvv Hcc]. split; try done; cbn.
      * intros t' j l [E|Hin]%elem_of_cons; [|apply (Hvv _ _ _ Hin)]. injection E as -> -> _. by right.
      * intros t' l [E|Hin]%elem_of_cons; [|apply (Hcc _ _ Hin)]. by injection E as -> _.
    + apply (view_ok_grow A); try done; cbn; [set_solver..|]. by apply (ai_view _ Hi).
  - intros j b [[-> [= ->]]|[Hne Hj]]%status_inv.
    + split; [cbn; by left|]. cbn. intros ld Hld Hid. apply (Hnew (ld_start ld)). rewrite <-Hid.
      by apply (ai_leads _ Hi).
    + destruct (ai_cand _ Hi j b Hj) as [? ?]. split; [cbn; by right|done].
  - intros j b [[-> [=]]|[Hne Hj]]%status_inv. by apply (ai_leader _ Hi).
  - cbn. intros t' j l [[= -> -> ->]|Hin]%elem_of_cons; [|by apply (ai_cands _ Hi t' j)].
    split; [lia|]. split; [apply Hv|]. eapply Forall_impl; [apply Hv|]. simpl. lia.
  - cbn. intros t' j l l' [[= -> -> ->]|Hin]%elem_of_cons [E|Hin']%elem_of_cons; simplify_eq; try done.
    + by apply Hnew in Hin'.
    + by apply Hnew in Hin.
    + by eapply (ai_cands_fun _ Hi).
  - cbn. intros v t' j vl [[= -> -> -> ->]|Hin]%elem_of_cons.
    + split; [done|]. split; [apply Hv|]. split; [|exists (an_log a); split; [by left|apply up_to_date_refl]].
      intros t' k m ld Hin Hmk Hld Ht. apply (vo_acks _ _ _ Hv' t' k); cbn; [done..|lia].
    + destruct (ai_votes _ Hi _ _ _ _ Hin) as (? & ? & ? & cl & ? & ?). split_and!; try done.
      exists cl. split; [by right|done].
  - cbn. intros v t' j k l l' [[= -> -> -> ->]|Hin]%elem_of_cons [E|Hin']%elem_of_cons; simplify_eq; try done.
    + by apply Hnewv in Hin'.
    + by apply Hnewv in Hin.
    + by eapply (ai_votes_fun _ Hi).
  - intros t' ld Hld. apply (lead_ok_grow A); try done; cbn; [by left|]. by apply (ai_leads _ Hi).
  - by apply (ai_acks _ Hi).
Qed.

Lemma announce_inv i A r a cl :
  ainv A → a_nodes A !! i = Some (Live r a) → an_vote a ≠ noVote →
  (an_term a, an_vote a, cl) ∈ a_cands A → up_to_date cl (an_log a) →
  ainv (A <| a_votes ::= cons (i, an_term a, an_vote a, an_log a) |>).
Proof.
  intros Hi Hn Hv0 Hcl Hup. pose proof (ai_view _ Hi i a (live_view _ _ _ _ Hn)) as Hv.
  match goal with |- ainv ?B => set (A' := B) end.
  assert (grows A A') as Hg by (split; [done|set_solver|done|cbn; eauto]).
  assert (∀ j l, (i, an_term a, j, l) ∈ a_votes A → j = an_vote a) as Hsame.
  { intros j l Hin. apply (vo_votes _ _ _ Hv) in Hin as [?|[_ ?]]; [lia|done]. }
  split; try apply Hi.
  - intros j b Hb. change (view A j b) in Hb. destruct (decide (j = i)) as [->|].
    + assert (b = a) as -> by (unfold view in Hb; by rewrite Hn in Hb). destruct Hv as [? ? ? ? Hvv ?].
      split; try done. cbn. intros t j l [[= -> -> ->]|Hin]%elem_of_cons; [by right|]. by apply (Hvv _ _ _ Hin).
    + apply (view_ok_grow A); try done; cbn; [set_solver..|]. by apply (ai_view _ Hi).
  - cbn. intros v t j vl [[= -> -> -> ->]|Hin]%elem_of_cons; [|by apply (ai_votes _ Hi)].
    split; [done|]. split; [apply Hv|]. split; [|by exists cl].
    intros t k m ld Hin Hmk Hld Ht. apply (vo_acks _ _ _ Hv t k); try done. lia.
  - cbn. intros v t j k l l' [[= -> -> -> ->]|Hin]%elem_of_cons [E|Hin']%elem_of_cons; simplify_eq; try done.
    + symmetry. by eapply Hsame.
    + by eapply Hsame.
    + by eapply (ai_votes_fun _ Hi).
  - intros t ld Hld. apply (lead_ok_grow A); try done; cbn; [by left|]. by apply (ai_leads _ Hi).
Qed.

Lemma log_ok_wf A l : ainv A → log_ok A l → log_wf l.
Proof.
  intros Hi Hl k e Hk. destruct (Hl k e Hk) as (ld & Hld & Hp).
  apply (lo_wf _ _ _ (ai_leads _ Hi _ _ Hld)). eapply prefix_lookup_1; [exact Hp|].
  rewrite lookup_take_lt by lia. done.
Qed.

Lemma is_quorum_meet Q Q' : is_quorum Q → is_quorum Q' → ∃ v, v ∈ Q ∧ v ∈ Q'.
Proof.
  unfold is_quorum, quorum. rewrite <-(size_dom (D := gset Z) Cfg). intros [? ?] [? ?].
  by eapply quorums_meet.
Qed.

(** Election Safety: a candidate with a quorum finds its term without leader. *)
Lemma elect_fresh i A a Q :
  ainv A → a_nodes A !! i = Some (Live candidate a) → is_quorum Q →
  (∀ v, v ∈ Q → ∃ l, (v, an_term a, i, l) ∈ a_votes A) → a_leads A !! an_term a = None.
Proof.
  intros Hi Hn HQ HQv. destruct (a_leads A !! an_term a) as [ld|] eqn:Hld; [exfalso|done].
  destruct (lo_votes _ _ _ (ai_leads _ Hi _ _ Hld)) as (Q' & HQ' & HQv').
  destruct (is_quorum_meet Q Q' HQ HQ') as (v & Hv & Hv').
  destruct (HQv v Hv) as [l Hl]. destruct (HQv' v Hv') as (l' & Hl' & _).
  eapply (proj2 (ai_cand _ Hi _ _ Hn)); [done|]. by eapply (ai_votes_fun _ Hi).
Qed.

Lemma elect_inv i A a Q :
  ainv A → a_nodes A !! i = Some (Live candidate a) → is_quorum Q →
  (∀ v, v ∈ Q → ∃ l, (v, an_term a, i, l) ∈ a_votes A) →
  ainv ((status A i (Live leader a)) <| a_leads ::= <[an_term a := mkLead i (an_log a) (an_log a)]> |>).
Proof.
  intros Hi Hn HQ HQv. pose proof (ai_view _ Hi i a (live_view _ _ _ _ Hn)) as Hv.
  pose proof (elect_fresh _ _ _ _ Hi Hn HQ HQv) as Hnone.
  match goal with |- ainv ?B => set (A' := B) end.
  assert (grows A A') as Hg.
  { split; [done..|]. intros t ld Hld. exists ld. cbn. rewrite lookup_insert_ne; [done|congruence]. }
  split; try apply Hi.
  - intros j b Hb. apply (view_ok_grow A); try done.
    apply view_status in Hb as [[-> ->]|[_ Hb]]; [done|by apply (ai_view _ Hi)].
  - intros j b [[-> [=]]|[Hne Hj]]%status_inv. destruct (ai_cand _ Hi j b Hj) as [Hc Hid].
    split; [done|]. cbn. intros ld. rewrite lookup_insert. case_decide; [by intros [= <-]|by apply Hid].
  - intros j b [[-> [= ->]]|[Hne Hj]]%status_inv.
    + exists (mkLead i (an_log a) (an_log a)). cbn. by rewrite lookup_insert_eq.
    + destruct (ai_leader _ Hi j b Hj) as (ld & Hld & Hid & Hp).
      destruct (gr_leads _ _ Hg _ _ Hld) as (ld' & ? & ? & _ & ?). exists ld'. split_and!; [done|congruence|by etrans].
  - intros t j l Hin. destruct (ai_cands _ Hi t j l Hin) as (? & ? & ?). split_and!; [done|by eapply log_ok_grow|done].
  - intros v t j vl Hin. destruct (ai_votes _ Hi _ _ _ _ Hin) as (? & ? & ? & ?).
    split_and!; [done|by eapply log_ok_grow|by eapply acks_kept_grow|done].
  - intros t ld. cbn. rewrite lookup_insert. case_decide as Ht; intros Hld.
    2:{ apply (lead_ok_grow A); try done; [by left|by apply (ai_leads _ Hi)]. }
    injection Hld as <-. subst t. split; cbn; [done|eapply log_ok_grow; [done|apply Hv]|apply Hv| | |].
    + eapply log_ok_wf; [done|apply Hv].
    + by apply (ai_cand _ Hi).
    + exists Q. split; [done|]. intros v Hin. destruct (HQv v Hin) as [vl Hvl]. exists vl. split; [done|].
      eapply (acks_kept_grow A); [done|done|done|]. intros t k m ld Hm Hmk Hld Ht.
      destruct (ai_votes _ Hi _ _ _ _ Hvl) as (_ & _ & Hk & _).
      destruct (Hk t k m ld Hm Hmk Hld Ht) as [?|(t' & ld' & Ht' & Hld' & ?)]; [by left|right].
      exists t', ld'. split; [|done]. assert (t' ≠ an_term a) by congruence. lia.
  - intros n t m Hin. destruct (ai_acks _ Hi _ _ _ Hin) as (ld & Hld & Hm).
    destruct (gr_leads _ _ Hg _ _ Hld) as (ld' & ? & _ & _ & ?%prefix_length). exists ld'. split; [done|lia].
Qed.

Lemma reserve_inv i A a ld e :
  ainv A → a_nodes A !! i = Some (Live leader a) → a_leads A !! an_term a = Some ld → ld_log ld = an_log a →
  Term e = an_term a → Index e = Z.of_nat (length (an_log a)) + 1 → Index e < 2 ^ 64 - 1 → plain e →
  ainv (A <| a_leads ::= <[an_term a := mkLead (ld_id ld) (ld_start ld) (ld_log ld ++ [e])]> |>).
Proof.
  intros Hi Hn Hld Hlog Ht Hidx Hbnd Hpl. pose proof (ai_leads _ Hi _ _ Hld) as Hlo.
  set (ld2 := mkLead _ _ _). match goal with |- ainv ?B => set (A' := B) end.
  assert (grows A A') as Hg.
  { split; [done..|]. intros t ld1 Hld1. cbn. rewrite lookup_insert. case_decide; [|by eauto].
    subst t. exists ld2. assert (ld1 = ld) as -> by congruence. split_and!; try done. by exists [e]. }
  split; try apply Hi.
  - intros j b Hb. apply (view_ok_grow A); try done. by apply (ai_view _ Hi).
  - intros j b Hj. destruct (ai_cand _ Hi j b Hj) as [Hc Hid]. split; [done|].
    cbn. intros ld1. rewrite lookup_insert. case_decide as E; [|by apply Hid].
    intros [= <-]. cbn. apply Hid. congruence.
  - intros j b Hj. destruct (ai_leader _ Hi j b Hj) as (ld1 & Hld1 & Hid & Hp).
    destruct (gr_leads _ _ Hg _ _ Hld1) as (ld' & ? & ? & _ & ?). exists ld'. split_and!; [done|congruence|by etrans].
  - intros t j l Hin. destruct (ai_cands _ Hi t j l Hin) as (? & ? & ?). split_and!; [done|by eapply log_ok_grow|done].
  - intros v t j vl Hin. destruct (ai_votes _ Hi _ _ _ _ Hin) as (? & ? & ? & ?).
    split_and!; [done|by eapply log_ok_grow|by eapply acks_kept_grow|done].
  - intros t ld1. cbn. rewrite lookup_insert. case_decide as E; intros Hld1.
    2:{ apply (lead_ok_grow A); try done; [by left|by apply (ai_leads _ Hi)]. }
    injection Hld1 as <-. subst t. assert (lead_ok A' (an_term a) ld) as [Hs Hl Htm Hw Hc HQ].
    { apply (lead_ok_grow A); try done. by left. }
    split; cbn; try done.
    + etrans; [exact Hs|by exists [e]].
    + intros k x Hk. apply lookup_app_Some in Hk as [Hk|[Hk Hx]].
      * destruct (Hl k x Hk) as (ld1 & ? & ?). exists ld1. split; [done|].
        apply lookup_lt_Some in Hk. by rewrite take_app_le by lia.
      * apply list_lookup_singleton_Some in Hx as [Hk0 ->]. exists ld2. rewrite Ht. cbn.
        rewrite lookup_insert_eq. split; [done|]. apply take_prefix.
    + apply Forall_app_2; [done|]. apply Forall_singleton. lia.
    + intros k x Hk. apply lookup_app_Some in Hk as [Hk|[Hk Hx]]; [by apply Hw|].
      apply list_lookup_singleton_Some in Hx as [Hk0 <-]. split; [|by split]. rewrite Hidx, <-Hlog. lia.
  - intros n t m Hin. destruct (ai_acks _ Hi _ _ _ Hin) as (ld1 & Hld1 & Hm).
    destruct (gr_leads _ _ Hg _ _ Hld1) as (ld' & ? & _ & _ & ?%prefix_length). exists ld'. split; [done|lia].
Qed.

Lemma ack_inv i A r a ld m :
  ainv A → a_nodes A !! i = Some (Live r a) → a_leads A !! an_term a = Some ld →
  (m ≤ length (ld_log ld))%nat → take m (ld_log ld) `prefix_of` an_log a →
  ainv (A <| a_acks ::= cons (i, an_term a, m) |>).
Proof.
  intros Hi Hn Hld Hm Hp. pose proof (ai_view _ Hi i a (live_view _ _ _ _ Hn)) as Hv.
  match goal with |- ainv ?B => set (A' := B) end.
  assert (grows A A') as Hg by (split; [done|done|set_solver|cbn; eauto]).
  assert (∀ t j vl, (i, t, j, vl) ∈ a_votes A → t ≤ an_term a) as Hpast.
  { intros t j vl [?|[-> _]]%(vo_votes _ _ _ Hv); lia. }
  split; try apply Hi.
  - intros j b Hb. change (view A j b) in Hb. destruct (decide (j = i)) as [->|].
    + assert (b = a) as -> by (unfold view in Hb; by rewrite Hn in Hb). destruct Hv as [? ? Ha Hpa ? ?].
      split; try done; cbn.
      * intros t k k' ld1 [E|Hin]%elem_of_cons Hk Hld1 Ht; [|by apply (Ha t k)]. injection E as -> ->.
        left. assert (ld1 = ld) as -> by (cbn in Hld1; congruence). etrans; [|exact Hp].
        eapply prefix_comparable; [apply take_prefix|apply take_prefix|]. rewrite !length_take. lia.
      * intros t k [E|Hin]%elem_of_cons; [by injection E as -> _|by eapply Hpa].
    + apply (view_ok_grow A); try done; cbn; [set_solver..|]. by apply (ai_view _ Hi).
  - intros v t j vl Hin. destruct (ai_votes _ Hi _ _ _ _ Hin) as (? & ? & ? & ?).
    split_and!; [done|by eapply log_ok_grow| |done]. eapply (acks_kept_grow A); try done.
    cbn. intros t' k [E|?]%elem_of_cons Ht'; [|done]. injection E as -> -> ->. apply Hpast in Hin. lia.
  - intros t ld1 Hld1. apply (lead_ok_grow A); try done; [|by apply (ai_leads _ Hi)].
    cbn. intros v t' k [E|?]%elem_of_cons Ht'; [|by left]. injection E as -> -> ->. right.
    intros j l Hin. apply Hpast in Hin. lia.
  - cbn. intros n t k [E|Hin]%elem_of_cons; [|by apply (ai_acks _ Hi n)]. injection E as -> -> ->. by exists ld.
Qed.

Lemma astep_inv i A A' : ainv A → astep i A A' → ainv A'.
Proof.
  intros Hi Hst. destruct Hst as [r a t Hn Ht|r a Hn|r a Hn Hi0 Ht0 t|a j Hn Hv|r a cl Hn Hv Hcl Hup|a Q Hn HQ HQv
    |a ld e Hn Hld Hlog Ht Hidx Hb Hpl|r a ld q Hn Hr Hld Hq|r a ld m Hn Hld Hm Hp|r a P Hn HP|P P' Hn HP|P a Hn HP];
    try match type of Hn with _ = Some (Live _ ?b) =>
      pose proof (ai_view _ Hi _ _ (live_view _ _ _ _ Hn)) as Hvo end.
  - apply ainv_status; try done. intros b ->. by eapply moves_ok; [..|by constructor].
  - apply ainv_status; try done. by intros b ->.
  - by eapply campaign_inv.
  - apply ainv_status; try done. intros b ->. by eapply moves_ok; [..|by constructor].
  - by eapply announce_inv.
  - by eapply elect_inv.
  - by eapply reserve_inv.
  - apply ainv_status; try done.
    + intros b ->. by eapply moves_ok; [..|by constructor].
    + intros b [= -> <-]. done.
    + intros b [= -> <-]. cbn. destruct (ai_leader _ Hi _ _ Hn) as (ld1 & Hld1 & Hid & _).
      exists ld1. split_and!; try done. assert (ld1 = ld) as -> by congruence. apply take_prefix.
  - by eapply ack_inv.
  - apply ainv_status; try done. intros b Hb. destruct (HP b Hb) as [->|Hm]; [done|]. by eapply moves_ok.
  - apply ainv_status; try done. intros b Hb. apply (ai_view _ Hi). unfold view. rewrite Hn. by apply HP.
  - apply ainv_status; try done. intros b ->. apply (ai_view _ Hi). unfold view. by rewrite Hn.
Qed.

Lemma astep_grows i A A' : ainv A → astep i A A' → grows A A'.
Proof.
  intros Hi Hst. destruct Hst as [| |r a Hn ? ? t| |r a cl Hn Hv Hcl Hup|a Q Hn HQ HQv|a ld e Hn Hld Hlog| | | | | ];
    try apply grows_refl; try (split; cbn; [set_solver..|by eauto]); (split; [done..|]); cbn.
  - intros t ld Hld. exists ld. rewrite lookup_insert_ne; [done|].
    pose proof (elect_fresh _ _ _ _ Hi Hn HQ HQv). congruence.
  - intros t ld1 Hld1. rewrite lookup_insert. case_decide; [|by eauto]. subst t.
    eexists. split; [done|]. assert (ld1 = ld) as -> by congruence. split_and!; try done. by exists [e].
Qed.

Lemma astep_others i A A' j : astep i A A' → j ≠ i → a_nodes A' !! j = a_nodes A !! j.
Proof. intros Hst Hj. destruct Hst; cbn; rewrite ?lookup_insert_ne; done. Qed.

(** Only its leader extends the log of a term. *)
Lemma astep_lead_others i A A' j a :
  ainv A → astep i A A' → j ≠ i → a_nodes A !! j = Some (Live leader a) →
  a_leads A' !! an_term a = a_leads A !! an_term a.
Proof.
  intros Hi Hst Hj Hn. destruct (ai_leader _ Hi _ _ Hn) as (ld & Hld & Hid & _).
  destruct Hst as [| | | | |b Q Hb HQ HQv|b ld' e Hb Hld' ? ? ?| | | | | ]; try done; cbn.
  - rewrite lookup_insert_ne; [done|]. intros E. pose proof (elect_fresh _ _ _ _ Hi Hb HQ HQv). congruence.
  - rewrite lookup_insert_ne; [done|]. intros E. destruct (ai_leader _ Hi _ _ Hb) as (ld2 & Hld2 & Hid2 & _). congruence.
Qed.

Definition asteps (i : Z) : relation abs := rtc (astep i).

Lemma asteps_spec i A A' :
  ainv A → asteps i A A' →
  ainv A' ∧ grows A A' ∧ ∀ j, j ≠ i → a_nodes A' !! j = a_nodes A !! j ∧
    ∀ a, a_nodes A !! j = Some (Live leader a) → a_leads A' !! an_term a = a_leads A !! an_term a.
Proof.
  intros Hi Hs. induction Hs as [A|A B C Hst _ IH]; [by split_and!; [|apply grows_refl|]|].
  destruct IH as (? & ? & Ho); [by eapply astep_inv|]. split_and!; [done| |].
  - eapply grows_trans; [by eapply astep_grows|done].
  - intros j Hj. pose proof (astep_others _ _ _ j Hst Hj) as Hn. destruct (Ho j Hj) as [Hn' Hl].
    rewrite Hn', Hn. split; [done|]. intros a Ha. rewrite (Hl a) by congruence. by eapply astep_lead_others.
Qed.

Lemma ainitial_inv A : ainitial A → ainv A.
Proof.
  intros (Hn & Hc & Hv & Hl & Ha).
  assert (∀ i r a, a_nodes A !! i ≠ Some (Live r a)) as Hno by (intros i r a E; by apply Hn in E).
  split; rewrite ?Hc, ?Hv, ?Hl, ?Ha; try set_solver.
  - intros i a Hva. unfold view in Hva. destruct (a_nodes A !! i) as [st|] eqn:E; [|done].
    rewrite (Hn _ _ E) in Hva. subst a. split; rewrite ?Hc, ?Hv, ?Hl, ?Ha; cbn; try set_solver.
    + done.
    + intros t k m ld. rewrite Ha. set_solver.
Qed.

(** ** Commitment *)

(** The first [m] entries of the log of term [t]'s leader are committed: a
    quorum has acknowledged them, and the last is of that term. *)
Definition commits (A : abs) (t : Z) (m : nat) : Prop :=
  ∃ ld e Q, a_leads A !! t = Some ld ∧ ld_log ld !! m = Some e ∧ Term e = t ∧ is_quorum Q ∧
    ∀ n, n ∈ Q → ∃ k, (S m ≤ k)%nat ∧ (n, t, k) ∈ a_acks A.

(** A candidate whose log is as up to date as one that holds [p] holds [p] too,
    if the leaders of the terms between do. *)
Lemma up_to_date_holds A t e m p vl cl t' :
  ainv A → p !! m = Some e → length p = S m → Term e = t → Forall (λ x, Term x ≤ t) p →
  p `prefix_of` vl → log_ok A vl → log_ok A cl → Forall (λ x, Term x < t') cl →
  (∀ t2 ld2, t < t2 < t' → a_leads A !! t2 = Some ld2 → p `prefix_of` ld_log ld2) →
  up_to_date cl vl → p `prefix_of` cl.
Proof.
  intros Hi He Hlen Ht Htp Hpv Hvok Hcok Hct Hmid Hup.
  assert (∀ l, log_ok A l → l ≠ [] → ∃ x ld, last_term l = Term x ∧ x ∈ l ∧
    a_leads A !! Term x = Some ld ∧ l `prefix_of` ld_log ld) as Hlast.
  { intros l Hl Hne. destruct (last_term_lookup l Hne) as (x & Hx & ->).
    destruct (Hl _ _ Hx) as (ld & Hld & Hp). pose proof (lookup_lt_Some _ _ _ Hx).
    rewrite take_ge in Hp by lia. exists x, ld. split_and!; try done. by eapply list_elem_of_lookup_2. }
  pose proof (prefix_length _ _ Hpv) as Hlv.
  destruct (Hlast vl) as (ev & ldv & Hev & _ & Hldv & Hpre); [done|by intros ->; simpl in *; lia|].
  assert (t ≤ Term ev) as Hge.
  { pose proof (lo_terms _ _ _ (ai_leads _ Hi _ _ Hldv)) as Htm. rewrite Forall_forall in Htm.
    rewrite <-Ht. apply Htm. eapply list_elem_of_lookup_2, prefix_lookup_1; [|exact He]. by etrans. }
  destruct Hup as [Hup|[Heq Hle]].
  - rewrite Hev in Hup. destruct (decide (cl = [])) as [->|Hne].
    { unfold last_term in Hup. simpl in Hup.
      assert (0 ≤ Term e) by (apply (log_ok_wf A vl Hi Hvok m e); by eapply prefix_lookup_1). lia. }
    destruct (Hlast cl Hcok Hne) as (ec & ldc & Hec & Hin & Hldc & Hprec).
    rewrite Forall_forall in Hct, Htp. pose proof (Hct _ Hin).
    assert (p `prefix_of` ld_log ldc) as Hpc by (apply (Hmid (Term ec)); [lia|done]).
    destruct (decide (length p ≤ length cl)%nat); [by eapply prefix_comparable|].
    assert (cl `prefix_of` p) as [x ->] by (eapply prefix_comparable; [done|done|lia]).
    assert (Term ec ≤ t) by (apply Htp, elem_of_app; by left). lia.
  - destruct (Hlast cl) as (ec & ldc & Hec & Hin & Hldc & Hprec); [done|by intros ->; simpl in *; lia|].
    assert (Term ec = Term ev) as E by congruence. rewrite E in Hldc. assert (ldc = ldv) as -> by congruence.
    etrans; [exact Hpv|]. by eapply prefix_comparable.
Qed.

(** Leader Completeness: a committed entry is in the log every later leader is
    elected with. *)
Lemma leader_complete A t m ld t' ld' :
  ainv A → commits A t m → a_leads A !! t = Some ld → a_leads A !! t' = Some ld' → t < t' →
  take (S m) (ld_log ld) `prefix_of` ld_start ld'.
Proof.
  intros Hi (ld0 & e & Q & Hld0 & He & Hte & HQ & HQa) Hld. assert (ld0 = ld) as -> by congruence. clear Hld0.
  set (p := take (S m) (ld_log ld)). pose proof (lookup_lt_Some _ _ _ He) as Hm.
  assert (p !! m = Some e) as Hp by (unfold p; by rewrite lookup_take_lt by lia).
  assert (length p = S m) as Hlp by (unfold p; rewrite length_take; lia).
  revert t' ld'. apply (well_founded_induction (Z.lt_wf t)
    (λ t', ∀ ld', a_leads A !! t' = Some ld' → t < t' → p `prefix_of` ld_start ld')).
  intros t' IH ld' Hld' Ht. pose proof (ai_leads _ Hi _ _ Hld') as [Hs Hlog _ _ Hc (Q' & HQ' & HQv)].
  destruct (is_quorum_meet Q Q' HQ HQ') as (v & Hv & Hv').
  destruct (HQa v Hv) as (k & Hk & Hack). destruct (HQv v Hv') as (vl & Hvl & Hkept).
  destruct (ai_votes _ Hi _ _ _ _ Hvl) as (_ & Hvok & _ & cl & Hcl & Hup).
  assert (cl = ld_start ld') as -> by (by eapply (ai_cands_fun _ Hi)).
  apply (up_to_date_holds A t e m p vl _ t'); try done.
  - apply Forall_take. by apply (ai_leads _ Hi).
  - destruct (Hkept t k (S m) ld Hack Hk Hld Ht) as [?|(t2 & ld2 & Ht2 & Hld2 & Hno)]; [done|].
    destruct Hno. apply (IH t2); [lia|done|lia].
  - by apply (ai_cands _ Hi) in Hc as (_ & ? & _).
  - by apply (ai_cands _ Hi) in Hc as (_ & _ & ?).
  - intros t2 ld2 Ht2 Hld2. etrans; [apply (IH t2 ltac:(lia) ld2 Hld2); lia|].
    apply (lo_start _ _ _ (ai_leads _ Hi _ _ Hld2)).
Qed.

(** [p] was committed in a term up to [T]. *)
Definition committed_in (A : abs) (T : Z) (p : list Entry) : Prop :=
  p = [] ∨ ∃ t m ld, t ≤ T ∧ commits A t m ∧ a_leads A !! t = Some ld ∧
    p `prefix_of` take (S m) (ld_log ld).

Lemma commits_grow A A' t m : grows A A' → commits A t m → commits A' t m.
Proof.
  intros Hg (ld & e & Q & Hld & He & Ht & HQ & Ha). destruct (gr_leads _ _ Hg _ _ Hld) as (ld' & Hld' & _ & _ & Hp).
  exists ld', e, Q. split_and!; try done; [by eapply prefix_lookup_1|].
  intros n Hn. destruct (Ha n Hn) as (k & ? & ?). exists k. split; [done|]. by apply (gr_acks _ _ Hg).
Qed.

Lemma committed_in_grow A A' T p : grows A A' → committed_in A T p → committed_in A' T p.
Proof.
  intros Hg [->|(t & m & ld & Ht & Hc & Hld & Hp)]; [by left|right].
  destruct (gr_leads _ _ Hg _ _ Hld) as (ld' & Hld' & _ & _ & Hpre).
  exists t, m, ld'. split_and!; try done; [by eapply commits_grow|].
  destruct Hc as (ld0 & e & Q & Hld0 & He & _). assert (ld0 = ld) as -> by congruence.
  apply lookup_lt_Some in He. by rewrite (prefix_take_eq (S m) _ _ Hpre).
Qed.

Lemma committed_in_later A T T' p : T ≤ T' → committed_in A T p → committed_in A T' p.
Proof.
  intros ? [->|(t & m & ld & ? & ?)]; [by left|right]. exists t, m, ld. split; [lia|done].
Qed.

Lemma committed_in_prefix A T p q : q `prefix_of` p → committed_in A T p → committed_in A T q.
Proof.
  intros Hq [->|(t & m & ld & ? & ? & ? & ?)]; [left; by apply prefix_nil_inv|right].
  exists t, m, ld. split_and!; try done. by etrans.
Qed.

Lemma committed_in_leader A T p t ld :
  ainv A → committed_in A T p → a_leads A !! t = Some ld → T ≤ t → p `prefix_of` ld_log ld.
Proof.
  intros Hi [->|(t0 & m & ld0 & Ht0 & Hc & Hld0 & Hp)] Hld Ht; [apply prefix_nil|].
  destruct (decide (t0 = t)) as [->|Hne].
  - assert (ld0 = ld) as -> by congruence. etrans; [exact Hp|apply take_prefix].
  - etrans; [exact Hp|]. etrans; [by eapply (leader_complete A t0 m ld0 t ld); try done; lia|].
    apply (lo_start _ _ _ (ai_leads _ Hi _ _ Hld)).
Qed.

(** State Machine Safety, for the specification: committed prefixes agree. *)
Lemma committed_agree A T T' p q :
  ainv A → committed_in A T p → committed_in A T' q → (length p ≤ length q)%nat → p `prefix_of` q.
Proof.
  intros Hi Hp Hq Hle. destruct Hq as [->|(t & m & ld & _ & Hc & Hld & Hq)].
  { destruct p; [apply prefix_nil|simpl in Hle; lia]. }
  destruct Hp as [->|(t' & m' & ld' & _ & Hc' & Hld' & Hp)]; [apply prefix_nil|].
  assert (∀ t m ld t' m' ld' x y, commits A t m → a_leads A !! t = Some ld → x `prefix_of` take (S m) (ld_log ld) →
    a_leads A !! t' = Some ld' → y `prefix_of` take (S m') (ld_log ld') → t ≤ t' →
    x `prefix_of` ld_log ld' ∧ y `prefix_of` ld_log ld') as Hboth.
  { clear -Hi. intros t m ld t' m' ld' x y Hc Hld Hx Hld' Hy Ht. split; [|etrans; [exact Hy|apply take_prefix]].
    apply (committed_in_leader A t _ t'); try done. right. by exists t, m, ld. }
  destruct (decide (t ≤ t')).
  - destruct (Hboth t m ld t' m' ld' q p) as [? ?]; try done. by eapply prefix_comparable.
  - destruct (Hboth t' m' ld' t m ld p q) as [? ?]; try done; [lia|]. by eapply prefix_comparable.
Qed.
End spec.
