(* ===== verification/CoreLog.v ===== *)
(** * The core's log as a whole log

    The core keeps the entries after its snapshot; [shape F c] says of which
    whole log [F] they are the rest.  What the queries of the core compute
    (termAt, logUpToDate, the matching of an AppendEntries request, the choice of
    what to send) is stated in terms of [F]. *)

From stdpp Require Import prelude gmap strings sorting.
From S2P Require Import Prelude GoRuntime GoBytes RaftTypes Membership RaftLaws Core CoreVotes RaftSpec.
Open Scope Z_scope.

Record shaped (F : list Entry) (base bterm : Z) (es : list Entry) : Prop := {
  sh_wf : log_wf F;
  sh_snap : 0 ≤ base ≤ zlength F;
  sh_entries : es = zdrop base F;
  sh_term : bterm = last_term (ztake base F)
}.
Abbreviation shape F c := (shaped F (snapIndex c) (snapTerm c) (entries c)).

(** The term of the entry at an index that is not compacted away. *)
Definition term_at (F : list Entry) (base idx : Z) : Z :=
  if (base <=? idx) && (idx <=? zlength F) then last_term (ztake idx F) else 0.

Lemma log_wf_length F : log_wf F → zlength F < 2 ^ 64 - 1.
Proof.
  intros Hwf. destruct (decide (F = [])) as [->|Hne]; [done|].
  destruct (last_term_lookup F Hne) as (e & He & _). pose proof (lookup_lt_Some _ _ _ He).
  destruct (Hwf _ _ He) as (? & ? & _). lia.
Qed.

Lemma log_wf_prefix F G : F `prefix_of` G → log_wf G → log_wf F.
Proof. intros Hp Hwf k e Hk. apply Hwf. by eapply prefix_lookup_1. Qed.

Lemma last_term_take (F : list Entry) k e : F !! k = Some e → last_term (take (S k) F) = Term e.
Proof. intros Hk. unfold last_term. by rewrite (take_S_r _ _ _ Hk), last_snoc. Qed.

Lemma last_take_drop {A} (l : list A) k : (k < length l)%nat → last (drop k l) = last l.
Proof.
  intros Hk. rewrite <-(take_drop k l) at 2. rewrite last_app.
  destruct (last (drop k l)) eqn:E; [done|]. apply last_None, (f_equal length) in E. rewrite length_drop in E. simpl in E. lia.
Qed.

Section queries.
Context {D : Type}.
Abbreviation C := (core D).

Lemma shape_entries_cons F (c : C) e0 l :
  shape F c → entries c = e0 :: l → Index e0 = snapIndex c + 1 ∧ snapIndex c < zlength F.
Proof.
  intros [Hwf Hs He _] El. rewrite He in El.
  assert (F !! Z.to_nat (snapIndex c) = Some e0) as Hk.
  { replace (Z.to_nat (snapIndex c)) with (Z.to_nat (snapIndex c) + 0)%nat by lia.
    rewrite <-lookup_drop. unfold zdrop in El. by rewrite El. }
  destruct (Hwf _ _ Hk) as [-> _]. apply lookup_lt_Some in Hk. lia.
Qed.

Lemma shape_entries_nil F (c : C) : shape F c → entries c = [] → snapIndex c = zlength F.
Proof.
  intros [_ Hs He _] El. rewrite He in El. apply (f_equal length) in El.
  unfold zdrop in El. rewrite length_drop in El. simpl in El. lia.
Qed.

Lemma shape_last F (c : C) :
  shape F c → entries c ≠ [] → last (entries c) = last F ∧ snapIndex c < zlength F.
Proof.
  intros Hsh Hne. assert (∃ e0 l, entries c = e0 :: l) as (e0 & l & El) by (destruct (entries c); by eauto).
  destruct (shape_entries_cons F c e0 l Hsh El) as [_ Hlt]. split; [|done]. rewrite (sh_entries _ _ _ _ Hsh). apply last_take_drop. pose proof (sh_snap _ _ _ _ Hsh). lia.
Qed.

Lemma shape_lastLogIndex F (c : C) : shape F c → lastLogIndex c = zlength F.
Proof.
  intros Hsh. unfold lastLogIndex. destruct (decide (entries c = [])) as [E|Hne].
  { rewrite E. by apply shape_entries_nil. }
  destruct (shape_last F c Hsh Hne) as [-> Hlt]. rewrite last_lookup.
  destruct (F !! pred (length F)) as [e|] eqn:He.
  - destruct (sh_wf _ _ _ _ Hsh _ _ He) as [-> _]. pose proof (sh_snap _ _ _ _ Hsh). lia.
  - apply lookup_ge_None in He. pose proof (sh_snap _ _ _ _ Hsh). lia.
Qed.

Lemma shape_lastLogTerm F (c : C) : shape F c → lastLogTerm c = last_term F.
Proof.
  intros Hsh. unfold lastLogTerm. destruct (decide (entries c = [])) as [E|Hne].
  { rewrite E. change (snapTerm c = last_term F). rewrite (sh_term _ _ _ _ Hsh). unfold ztake. rewrite take_ge; [done|].
    rewrite (shape_entries_nil F c) by done. lia. }
  destruct (shape_last F c Hsh Hne) as [-> Hlt]. unfold last_term. destruct (last F) eqn:E; [done|].
  apply last_None in E as ->. pose proof (sh_snap _ _ _ _ Hsh). simpl in *. lia.
Qed.

Lemma shape_lookup F (c : C) idx :
  shape F c → snapIndex c < idx ≤ zlength F →
  ∃ e, entries c !! Z.to_nat (idx - 1 - snapIndex c) = Some e ∧ F !! Z.to_nat (idx - 1) = Some e.
Proof.
  intros Hsh Hi. pose proof (sh_snap _ _ _ _ Hsh).
  destruct (lookup_lt_is_Some_2 F (Z.to_nat (idx - 1))) as [e He]; [lia|]. exists e. split; [|done].
  rewrite (sh_entries _ _ _ _ Hsh). unfold zdrop. rewrite lookup_drop.
  by replace (Z.to_nat (snapIndex c) + Z.to_nat (idx - 1 - snapIndex c))%nat with (Z.to_nat (idx - 1)) by lia.
Qed.

Lemma shape_termAt F (c : C) idx :
  shape F c → is_u64 idx → termAt c idx = Ok (term_at F (snapIndex c) idx).
Proof.
  intros Hsh Hu. pose proof (sh_snap _ _ _ _ Hsh) as Hs. unfold termAt, term_at.
  destruct (idx =? snapIndex c) eqn:E; zify_bool.
  { subst idx. rewrite (proj2 (andb_true_iff _ _)) by lia. by rewrite (sh_term _ _ _ _ Hsh). }
  destruct (decide (entries c = [])) as [El|Hne].
  { pose proof (shape_entries_nil F c Hsh El). rewrite El. destruct (_ && _) eqn:E2; [zify_bool; lia|done]. }
  assert (∃ e0 l, entries c = e0 :: l) as (e0 & l & El) by (destruct (entries c); by eauto).
  destruct (shape_entries_cons F c e0 l Hsh El) as [Hb Hlt]. rewrite El, Hb, (shape_lastLogIndex F c Hsh).
  destruct (idx =? 0) eqn:E0; zify_bool.
  { destruct (_ && _) eqn:E2; [zify_bool; lia|done]. }
  destruct (_ || _) eqn:E1; destruct (_ && _) eqn:E2; zify_bool; try lia; [done|].
  destruct (shape_lookup F c idx Hsh) as (e & He & HF); [lia|]. rewrite El in He.
  pose proof (log_wf_length F (sh_wf _ _ _ _ Hsh)).
  replace (u64 (idx - (snapIndex c + 1))) with (idx - 1 - snapIndex c)
    by (rewrite u64_small; unfold is_u64 in *; lia).
  rewrite (proj2 (zindex_lookup _ _ e)) by (split; [lia|done]). cbn [mbind outcome_bind]. f_equal.
  unfold ztake. replace (Z.to_nat idx) with (S (Z.to_nat (idx - 1))) by lia. symmetry. by apply last_term_take.
Qed.

Lemma shape_logUpToDate F (c : C) cl :
  shape F c → logUpToDate c (zlength cl) (last_term cl) = true → up_to_date cl F.
Proof.
  intros Hsh. unfold logUpToDate, up_to_date.
  rewrite (shape_lastLogIndex F c), (shape_lastLogTerm F c) by done.
  destruct (_ =? _) eqn:E; cbn [negb]; intros ?; zify_bool; lia.
Qed.

(** ** What is sent *)

Lemma prefix_drop_S (F : list Entry) k e es :
  F !! k = Some e → es `prefix_of` drop (S k) F → e :: es `prefix_of` drop k F.
Proof. intros He Hp. rewrite (drop_S _ _ _ He). by apply prefix_cons. Qed.

Lemma fill_entries_slice fuel (F : list Entry) b i last payload es :
  log_wf F → 0 ≤ b < i → b ≤ zlength F → last = zlength F → is_u64 i →
  fill_entries fuel (zdrop b F) (b + 1) i last payload = Ok es →
  es `prefix_of` zdrop (i - 1) F ∧ (es = [] → last < i).
Proof.
  intros Hwf Hb HbF ->. revert i payload es Hb. pose proof (log_wf_length F Hwf) as Hlen.
  induction fuel as [|fuel IH]; intros i payload es Hb Hu; simpl; destruct (_ <? _) eqn:E; zify_bool; try done.
  1-2: intros [= <-]; split; [apply prefix_nil|lia].
  rewrite (u64_small (i - (b + 1))), (u64_small (i + 1)) by (unfold is_u64 in *; lia).
  destruct (zindex (zdrop b F) _) as [e| | |] eqn:Hz; cbn [mbind outcome_bind]; [|done..].
  apply zindex_lookup in Hz as [_ Hz]. unfold zdrop in Hz. rewrite lookup_drop in Hz.
  replace (Z.to_nat b + Z.to_nat (i - (b + 1)))%nat with (Z.to_nat (i - 1)) in Hz by lia.
  unfold zdrop. destruct (_ <=? _); [intros [= <-]; split; [|done]; apply prefix_drop_S; [done|apply prefix_nil]|].
  destruct (fill_entries _ _ _ _ _ _) as [rest| | |] eqn:Hr; cbn [mbind outcome_bind]; [|done..].
  intros [= <-]. split; [|done]. apply prefix_drop_S; [done|].
  apply IH in Hr as [Hr _]; [|lia|unfold is_u64 in *; lia]. unfold zdrop in Hr.
  by replace (S (Z.to_nat (i - 1))) with (Z.to_nat (i + 1 - 1)) by lia.
Qed.

(** ** Matching a request against the log *)

Lemma log_match A F L k :
  log_ok A F → log_ok A L → (0 < k)%nat → (k ≤ length F)%nat → (k ≤ length L)%nat →
  last_term (take k F) = last_term (take k L) → take k F = take k L.
Proof.
  intros HF HL Hk HkF HkL. destruct k as [|k]; [lia|].
  destruct (lookup_lt_is_Some_2 F k) as [e He]; [lia|]. destruct (lookup_lt_is_Some_2 L k) as [x Hx]; [lia|].
  rewrite (last_term_take _ _ _ He), (last_term_take _ _ _ Hx). intros Ht.
  destruct (HF _ _ He) as (ld & Hld & [y Hy]). destruct (HL _ _ Hx) as (ld' & Hld' & [z Hz]).
  rewrite <-Ht in Hld'. assert (ld' = ld) as -> by congruence. rewrite Hy in Hz.
  apply app_inj_1 in Hz as [? _]; [done|]. rewrite !length_take. lia.
Qed.

Lemma log_ok_pos Cfg A l e : ainv Cfg A → log_ok A l → e ∈ l → 0 < Term e.
Proof.
  intros Hi Hl [k Hk]%list_elem_of_lookup. destruct (Hl _ _ Hk) as (ld & Hld & _).
  by apply (ai_leads _ _ Hi), lo_cand, (ai_cands _ _ Hi) in Hld as [? _].
Qed.

Lemma ztake_prefix_iff {A} (F L : list A) k :
  0 ≤ k ≤ zlength L → ztake k L `prefix_of` F ↔ ztake k F = ztake k L ∧ k ≤ zlength F.
Proof.
  intros Hk. unfold ztake. split.
  - intros [x ->]. rewrite length_app, length_take. split; [|lia].
    rewrite take_app_le by (rewrite length_take; lia). by rewrite take_take, Nat.min_id.
  - intros [<- _]. apply take_prefix.
Qed.

Section matching.
Context (Cfg : Members) (A : abs) (Hinv : ainv Cfg A).
Context (F L : list Entry) (c : C) (Hsh : shape F c) (HF : log_ok A F) (HL : log_ok A L).

Lemma last_term_pos k : 0 < k ≤ zlength L → 0 < last_term (ztake k L).
Proof.
  intros Hk. destruct (lookup_lt_is_Some_2 L (Z.to_nat (k - 1))) as [e He]; [lia|].
  unfold ztake. replace (Z.to_nat k) with (S (Z.to_nat (k - 1))) by lia. rewrite (last_term_take _ _ _ He).
  eapply log_ok_pos; [done|exact HL|]. by eapply list_elem_of_lookup_2.
Qed.

(** The term at an index agrees with that of [L] just when the logs agree
    through it. *)
Lemma term_at_match k :
  0 < k ≤ zlength L → k ≤ zlength F →
  term_at F (snapIndex c) k = last_term (ztake k L) → ztake k F = ztake k L.
Proof.
  intros Hk HkF. pose proof (last_term_pos k Hk) as Hpos. unfold term_at.
  destruct (_ && _) eqn:E; [|lia]. unfold ztake. intros Ht.
  apply (log_match A); try done; lia.
Qed.

Lemma check_prev_match prev :
  0 ≤ prev ≤ zlength L →
  check_prev c prev (last_term (ztake prev L)) = Ok None → ztake prev L `prefix_of` F.
Proof.
  intros Hp. pose proof (log_wf_length F (sh_wf _ _ _ _ Hsh)) as HlF. unfold check_prev.
  destruct (0 <? prev) eqn:E0; cbn [negb]; zify_bool.
  2:{ intros _. assert (prev = 0) as -> by lia. apply prefix_nil. }
  rewrite (shape_lastLogIndex F c) by done. destruct (_ <? _) eqn:E1; [done|]. zify_bool.
  rewrite (shape_termAt F c) by (try done; unfold is_u64; lia). cbn [mbind outcome_bind].
  destruct (_ =? _) eqn:E2; [|by destruct (firstIndexOfTerm c _ _)]. zify_bool. intros _.
  apply ztake_prefix_iff; [done|]. split; [|lia]. apply term_at_match; [lia|done|done].
Qed.

(** The entries of a request that the follower does not hold: it agrees with the
    leader before them, and not with the first of them. *)
Lemma new_entries_match prev es rest :
  log_wf L → 0 ≤ prev → es `prefix_of` zdrop prev L → ztake prev L `prefix_of` F →
  new_entries c es = Ok rest →
  ∃ j, 0 ≤ j ∧ rest = zdrop j es ∧ j ≤ zlength es ∧ ztake (prev + j) L `prefix_of` F ∧
    (rest ≠ [] → prev + j + 1 ≤ snapIndex c ∨ ¬ ztake (prev + j + 1) L `prefix_of` F).
Proof.
  intros HwL. revert prev. induction es as [|pe es IH]; intros prev Hp Hes Hpre; simpl.
  { intros [= <-]. exists 0. rewrite Z.add_0_r. done. }
  assert (L !! Z.to_nat prev = Some pe) as Hpe.
  { apply (prefix_lookup_1 _ _ 0%nat pe) in Hes; [|done]. unfold zdrop in Hes. rewrite lookup_drop in Hes.
    by rewrite Nat.add_0_r in Hes. }
  destruct (HwL _ _ Hpe) as (Hidx & Hub & _). pose proof (lookup_lt_Some _ _ _ Hpe) as HlL.
  assert (es `prefix_of` zdrop (prev + 1) L) as Hes'.
  { unfold zdrop in *. rewrite (drop_S _ _ _ Hpe) in Hes. apply prefix_cons_inv_2 in Hes.
    by replace (Z.to_nat (prev + 1)) with (S (Z.to_nat prev)) by lia. }
  assert (last_term (ztake (prev + 1) L) = Term pe) as Hlt.
  { unfold ztake. replace (Z.to_nat (prev + 1)) with (S (Z.to_nat prev)) by lia. by apply last_term_take. }
  assert (Index pe = prev + 1) as Hi by lia.
  rewrite (shape_lastLogIndex F c) by done. rewrite Hi in *. destruct (_ <? _) eqn:E; zify_bool.
  { intros [= <-]. exists 0. split_and!; [done|done|simpl; lia|by rewrite Z.add_0_r|]. intros _. right.
    rewrite Z.add_0_r. intros Hc%prefix_length. unfold ztake in Hc. rewrite length_take in Hc. lia. }
  rewrite (shape_termAt F c) by (try done; unfold is_u64; lia). cbn [mbind outcome_bind].
  destruct (_ =? _) eqn:E2; cbn [negb]; zify_bool.
  - intros Hn. destruct (IH (prev + 1)) as (j & ? & -> & ? & ? & Hno); [lia|done| |done|].
    { apply ztake_prefix_iff; [lia|]. split; [|lia]. apply term_at_match; [lia|lia|congruence]. }
    exists (j + 1). replace (prev + (j + 1)) with (prev + 1 + j) by lia.
    split_and!; [lia| |simpl; lia|done|done]. unfold zdrop. by replace (Z.to_nat (j + 1)) with (S (Z.to_nat j)) by lia.
  - intros [= <-]. exists 0. split_and!; [done|done|simpl; lia|by rewrite Z.add_0_r|]. intros _.
    rewrite Z.add_0_r. destruct (decide (prev + 1 ≤ snapIndex c)) as [|Hgt]; [by left|right].
    intros Hc. apply E2. apply ztake_prefix_iff in Hc as [Hc _]; [|lia].
    unfold term_at. rewrite (proj2 (andb_true_iff _ _)) by lia. congruence.
Qed.
End matching.
End queries.

(** ** Superseding a suffix *)

Lemma zdrop_app_le {A} (l k : list A) b : 0 ≤ b ≤ zlength l → zdrop b (l ++ k) = zdrop b l ++ k.
Proof. intros Hb. unfold zdrop. apply drop_app_le. lia. Qed.

Lemma log_wf_take_snoc F f e :
  log_wf F → 0 ≤ f ≤ zlength F → Index e = f + 1 → Index e < 2 ^ 64 - 1 → plain e → log_wf (ztake f F ++ [e]).
Proof.
  intros Hwf Hf Hi Hb Hp k x Hk. apply lookup_app_Some in Hk as [Hk|[Hlen Hk]].
  - apply Hwf. unfold ztake in Hk. by apply lookup_take_Some in Hk as [? _].
  - apply list_lookup_singleton_Some in Hk as [Hk <-]. unfold ztake in *. rewrite length_take in *.
    split; [lia|done].
Qed.

Lemma log_put_drop F b f e :
  log_wf F → 0 ≤ b ≤ f → f ≤ zlength F → Index e = f + 1 → Index e < 2 ^ 64 - 1 →
  log_put (zdrop b F) e = zdrop b (ztake f F ++ [e]).
Proof.
  intros Hwf Hb Hf Hi Hu.
  assert (zlength (ztake f F) = f) as Hlf by (unfold ztake; rewrite length_take; lia).
  rewrite zdrop_app_le by lia. unfold log_put. destruct (zdrop b F) as [|e0 l] eqn:El.
  { apply (f_equal length) in El. unfold zdrop in *. rewrite length_drop in El. simpl in El.
    unfold ztake. rewrite drop_ge; [done|]. rewrite length_take. lia. }
  assert (b < zlength F) as Hlt.
  { apply (f_equal length) in El. unfold zdrop in El. rewrite length_drop in El. simpl in El. lia. }
  assert (Index e0 = b + 1) as H0.
  { assert (F !! Z.to_nat b = Some e0) as Hk.
    { rewrite <-(Nat.add_0_r (Z.to_nat b)), <-lookup_drop. unfold zdrop in El. by rewrite El. }
    destruct (Hwf _ _ Hk) as [? _]. lia. }
  rewrite <-El. assert (last (zdrop b F) = last F) as -> by (apply last_take_drop; lia).
  rewrite last_lookup. destruct (F !! pred (length F)) as [el|] eqn:Hel; [|apply lookup_ge_None in Hel; lia].
  destruct (Hwf _ _ Hel) as (Hidx & Hub & _). rewrite (u64_small (Index el + 1)) by (unfold is_u64; lia).
  destruct (_ =? _) eqn:E; zify_bool.
  - f_equal. unfold ztake. rewrite take_ge by lia. done.
  - f_equal. rewrite H0, Hi, u64_small by (unfold is_u64; lia). unfold zdrop, ztake.
    rewrite take_drop_commute. do 2 f_equal. lia.
Qed.

Lemma log_supersede_drop F b f es :
  log_wf F → 0 ≤ b ≤ f → f ≤ zlength F → es ≠ [] → log_wf (ztake f F ++ es) →
  log_supersede (zdrop b F) es = zdrop b (ztake f F ++ es).
Proof.
  intros Hwf Hb Hf Hne Hwf'. revert F f Hwf Hf Hb Hwf' Hne. induction es as [|e es IH]; intros F f Hwf Hf Hb Hwf' Hne; [done|].
  assert (zlength (ztake f F) = f) as Hlf by (unfold ztake; rewrite length_take; lia).
  assert ((ztake f F ++ e :: es) !! Z.to_nat f = Some e) as He.
  { rewrite lookup_app_r by lia. by replace (Z.to_nat f - length (ztake f F))%nat with 0%nat by lia. }
  destruct (Hwf' _ _ He) as (Hi & Hu & Hpl). change (log_supersede _ _) with (log_supersede (log_put (zdrop b F) e) es).
  rewrite (log_put_drop F b f) by (done || lia).
  set (F1 := ztake f F ++ [e]). assert (zlength F1 = f + 1) as HF1 by (unfold F1; rewrite length_app; simpl; lia).
  assert (ztake f F ++ e :: es = ztake (f + 1) F1 ++ es) as Heq.
  { unfold ztake at 2. rewrite take_ge by lia. unfold F1. by rewrite <-app_assoc. }
  rewrite Heq in *. destruct (decide (es = [])) as [->|Hne'].
  { rewrite app_nil_r. unfold ztake. by rewrite take_ge by lia. }
  apply IH; try done; try lia. apply (log_wf_take_snoc F f e); try done; lia.
Qed.
