(* ===== verification/CoreRefine.v ===== *)
(** * The core refines the specification

    Every handler of the core is a sequence of steps of RaftSpec: [rel A F c]
    relates the core [c] of node [i] to the specification's state [A], in which
    the node's whole log is [F]; [dead] relates the disk of a stopped node.  What
    the core sends, counts and delivers is what the history of [A] supports. *)

From stdpp Require Import prelude gmap strings sorting.
From S2P Require Import Prelude GoRuntime GoBytes RaftTypes Membership RaftLaws Core CoreVotes RaftSpec CoreLog.
Open Scope Z_scope.

Section rel.
Context {D : Type} `{RaftDiskLaws D} `{GoRuntime}.
Context (Cfg : Members).
(** [SD p b]: the bytes [b] are a snapshot of the state machine after [p]. *)
Context (SD : list Entry → bytes → Prop).
Context (i : Z).

Abbreviation C := (core D).
Abbreviation committed_in := (committed_in Cfg).

(** ** Messages *)

Definition acked (A : abs) (j t m : Z) : Prop := ∃ k, m ≤ Z.of_nat k ∧ (j, t, k) ∈ a_acks A.

(** A request sent by node [from]. *)
Definition out_rel (A : abs) (from : Z) (o : outbound) : Prop :=
  match o with
  | OutRequestVote _ req =>
      rv_preVote req = false → ∃ cl, (rv_term req, from, cl) ∈ a_cands A ∧
        rv_candidateId req = from ∧ rv_lastLogIndex req = zlength cl ∧ rv_lastLogTerm req = last_term cl
  | OutAppendEntries to req =>
      to ≠ from ∧ ∃ ld, a_leads A !! ae_term req = Some ld ∧ 0 ≤ ae_prevLogIndex req ≤ zlength (ld_log ld) ∧
        ae_prevLogTerm req = last_term (ztake (ae_prevLogIndex req) (ld_log ld)) ∧
        ae_entries req `prefix_of` zdrop (ae_prevLogIndex req) (ld_log ld) ∧
        0 ≤ ae_leaderCommit req ≤ zlength (ld_log ld) ∧
        committed_in A (ae_term req) (ztake (ae_leaderCommit req) (ld_log ld))
  | OutInstallSnapshot to req =>
      to ≠ from ∧ ∃ ld, a_leads A !! is_term req = Some ld ∧ 0 < is_lastIncludedIndex req ≤ zlength (ld_log ld) ∧
        let p := ztake (is_lastIncludedIndex req) (ld_log ld) in
        is_lastIncludedTerm req = last_term p ∧ committed_in A (is_term req) p ∧
        SD p (is_data req) ∧ is_config req = encodeMembers Cfg
  | OutTimeoutNow _ _ => True
  end.

(** ** Disks *)

(** A snapshot on the disk of a node whose log is [F]. *)
Definition snap_rel (A : abs) (F : list Entry) (t : Z) (s : raftSnapshot) : Prop :=
  0 ≤ lastIndex s ≤ zlength F ∧ lastTerm s = last_term (ztake (lastIndex s) F) ∧
  committed_in A t (ztake (lastIndex s) F) ∧
  (lastIndex s = 0 → s = zero_snapshot) ∧
  (0 < lastIndex s → config s = Some Cfg ∧ SD (ztake (lastIndex s) F) (data s)).

(** The disk of a running node: the files hold [F] after some index that was
    delivered, and a file without entries goes with a snapshot of all of [F]. *)
Record disk_rel (A : abs) (F : list Entry) (t v base k : Z) (d : D) : Prop := {
  dr_state : ∀ t' v', may_state d t' v' → t' = t ∧ v' = v;
  dr_log : ∀ l, may_log d l → ∃ b, 0 ≤ b ≤ k ∧ l = zdrop b F;
  dr_snap : ∀ s, may_snap d s → snap_rel A F t s ∧ base ≤ lastIndex s ≤ k;
  dr_empty : may_log d [] → ∀ s, may_snap d s → lastIndex s = zlength F
}.

(** The disk of a stopped node: every pair of snapshot and log that a boot
    accepts is a state in [P]. *)
Definition dead_rel (A : abs) (P : anode → Prop) (d : D) : Prop :=
  ∀ t v s l, may_state d t v → may_snap d s → may_log d l → starts_at (u64 (lastIndex s + 1)) l →
    ∃ F, P (mkA t v F) ∧ snap_rel A F t s ∧ l = zdrop (lastIndex s) F.

Definition dead (A : abs) (d : D) : Prop :=
  ∃ P, a_nodes A !! i = Some (Dead P) ∧ d_wf d ∧ dead_rel A P d.

(** ** Cores *)

(** A leader knows where to go on with every other member. *)
Definition next_ok (F : list Entry) (ni : option (gmap Z Z)) : Prop :=
  ∀ j, 0 ≤ map_get ni j ≤ zlength F + 1 ∧ (j ∈ dom Cfg → j ≠ i → 0 < map_get ni j).

Record rel (A : abs) (F : list Entry) (c : C) : Prop := {
  r_node : a_nodes A !! i = Some (Live (role c) (mkA (term c) (votedFor c) F));
  r_id : ID (cfg c) = i;
  r_self : role c ≠ follower → votedFor c = i;
  r_members : members c = Cfg ∧ snapConfig c = Cfg;
  r_u64 : is_u64 (term c) ∧ is_u64 (votedFor c);
  r_shape : shape F c;
  r_open : d_open (disk c);
  r_disk : disk_rel A F (term c) (votedFor c) (snapIndex c) (lastDelivered c) (disk c);
  r_commit : 0 ≤ commitIndex c ≤ zlength F ∧ committed_in A (term c) (ztake (commitIndex c) F);
  r_deliv : snapIndex c ≤ lastDelivered c ≤ zlength F ∧
    committed_in A (term c) (ztake (lastDelivered c) F);
  r_queue : zlength (committed c) ≤ lastDelivered c ∧
    committed c = zdrop (lastDelivered c - zlength (committed c)) (ztake (lastDelivered c) F);
  r_lead : role c = leader →
    (∃ ld, a_leads A !! term c = Some ld ∧ ld_log ld = F) ∧
    next_ok F (nextIndex c) ∧
    (∀ j, map_get (matchIndex c) j = 0 ∨ acked A j (term c) (map_get (matchIndex c) j));
  r_votes : role c = candidate → ∃ vs, votes c = Some vs ∧
    ∀ v, v ∈ vs → v ∈ dom Cfg ∧ ∃ l, (v, term c, i, l) ∈ a_votes A;
  r_out : Forall (out_rel A i) (outbox c);
  r_restore : pendingRestore c = []
}.

(** ** History only supports more *)

Lemma acked_grow A A' j t m : grows A A' → acked A j t m → acked A' j t m.
Proof. intros Hg (k & ? & ?). exists k. split; [done|]. by apply (gr_acks _ _ Hg). Qed.

Lemma ztake_grow (L L' : list Entry) k : L `prefix_of` L' → k ≤ zlength L → ztake k L' = ztake k L.
Proof. intros Hp Hk. unfold ztake. apply prefix_take_eq; [done|lia]. Qed.

Lemma zdrop_grow (L L' : list Entry) k : L `prefix_of` L' → k ≤ zlength L → zdrop k L `prefix_of` zdrop k L'.
Proof. intros [x ->] Hk. unfold zdrop. rewrite drop_app_le by lia. by exists x. Qed.

Lemma out_rel_grow A A' from o : grows A A' → out_rel A from o → out_rel A' from o.
Proof.
  intros Hg. destruct o as [to req|to req|to req|to req]; simpl; [| | |done].
  - intros Ho Hp. destruct (Ho Hp) as (cl & ? & ?). exists cl. split; [by apply (gr_cands _ _ Hg)|done].
  - intros (? & ld & Hld & Hp & Ht & He & Hc & Hco). destruct (gr_leads _ _ Hg _ _ Hld) as (ld' & Hld' & _ & _ & Hpre).
    pose proof (prefix_length _ _ Hpre). split; [done|]. exists ld'. rewrite !(ztake_grow _ _ _ Hpre) by lia.
    split_and!; try done; try lia; [|by eapply committed_in_grow]. etrans; [exact He|]. apply zdrop_grow; [done|lia].
  - intros (? & ld & Hld & Hp & Ht & Hco & Hsd & ?). destruct (gr_leads _ _ Hg _ _ Hld) as (ld' & Hld' & _ & _ & Hpre).
    pose proof (prefix_length _ _ Hpre). split; [done|]. exists ld'. rewrite !(ztake_grow _ _ _ Hpre) by lia.
    split_and!; try done; try lia. by eapply committed_in_grow.
Qed.

Lemma snap_rel_grow A A' F t t' s : grows A A' → t ≤ t' → snap_rel A F t s → snap_rel A' F t' s.
Proof.
  intros Hg Ht (? & ? & ? & ? & ?). split_and!; try done; [lia|lia|].
  eapply committed_in_later, committed_in_grow; done.
Qed.

Lemma disk_rel_grow A A' F t v b k d : grows A A' → disk_rel A F t v b k d → disk_rel A' F t v b k d.
Proof.
  intros Hg [Hs Hl Hsn He]. split; try done. intros s Hm. destruct (Hsn s Hm). split; [|done].
  by eapply snap_rel_grow.
Qed.

Lemma dead_grow A A' d : grows A A' → a_nodes A' !! i = a_nodes A !! i → dead A d → dead A' d.
Proof.
  intros Hg Hn (P & HP & Hwf & Hd). exists P. split; [congruence|]. split; [done|].
  intros t v s l ? ? ? ?. destruct (Hd t v s l) as (F & ? & ? & ?); try done.
  exists F. split_and!; try done. by eapply snap_rel_grow.
Qed.

Lemma rel_grow A A' F c :
  grows A A' → a_nodes A' !! i = a_nodes A !! i →
  (role c = leader → a_leads A' !! term c = a_leads A !! term c) → rel A F c → rel A' F c.
Proof.
  intros Hg Hn Hl [? ? ? ? ? ? ? ? Hc Hdl ? Hle Hv Ho ?]. split; try done.
  - congruence.
  - by eapply disk_rel_grow.
  - destruct Hc. split; [done|by eapply committed_in_grow].
  - destruct Hdl. split; [done|by eapply committed_in_grow].
  - intros Hr. destruct (Hle Hr) as ((ld & ? & ?) & ? & Hm). split_and!; [|done|].
    + exists ld. by rewrite Hl.
    + intros j. destruct (Hm j) as [?|?]; [by left|right; by eapply acked_grow].
  - intros Hr. destruct (Hv Hr) as (vs & ? & Hvs). exists vs. split; [done|]. intros v Hin.
    destruct (Hvs v Hin) as [? [l ?]]. split; [done|]. exists l. by apply (gr_votes _ _ Hg).
  - eapply Forall_impl; [done|]. intros. by eapply out_rel_grow.
Qed.

(** ** Stopping *)

Lemma crash_dead A r a (d : D) :
  a_nodes A !! i = Some (Live r a) → d_wf d →
  (∀ t v s l, may_state d t v → may_snap d s → may_log d l → starts_at (u64 (lastIndex s + 1)) l →
    ∃ F, (mkA t v F = a ∨ moves A i a (mkA t v F)) ∧ snap_rel A F t s ∧ l = zdrop (lastIndex s) F) →
  ∃ A', asteps Cfg i A A' ∧ dead A' d.
Proof.
  intros Hn Hwf Hd. eexists. split.
  { apply rtc_once, (as_crash _ _ _ r a (λ x, x = a ∨ moves A i a x)); done. }
  eexists. split; [cbn; apply lookup_insert_eq|]. split; [done|]. intros t v s l Hs Hsn Hl Hst.
  destruct (Hd t v s l Hs Hsn Hl Hst) as (F & ? & ? & ?). by exists F.
Qed.

(** A boot accepts only the log that continues its snapshot. *)
Lemma accepts_base F b idx :
  log_wf F → 0 ≤ b → 0 ≤ idx ≤ zlength F → starts_at (u64 (idx + 1)) (zdrop b F) → zdrop b F ≠ [] → b = idx.
Proof.
  intros Hwf Hb Hi Hst Hne. pose proof (log_wf_length F Hwf). destruct (zdrop b F) as [|e0 l0] eqn:El; [done|].
  assert (F !! Z.to_nat b = Some e0) as Hk0.
  { rewrite <-(Nat.add_0_r (Z.to_nat b)), <-lookup_drop. unfold zdrop in El. by rewrite El. }
  destruct (Hwf _ _ Hk0) as [Hidx _]. simpl in Hst. rewrite u64_small in Hst by (unfold is_u64; lia). lia.
Qed.

Lemma disk_accepts A F t v base k d s l :
  log_wf F → disk_rel A F t v base k d → may_snap d s → may_log d l →
  starts_at (u64 (lastIndex s + 1)) l → l = zdrop (lastIndex s) F.
Proof.
  intros Hwf [_ Hl Hs He] Hms Hml Hst. destruct (Hl l Hml) as (b & Hb & ->).
  destruct (Hs s Hms) as [(Hr & _) Hsk]. destruct (decide (zdrop b F = [])) as [E|Hne].
  - rewrite E in Hml |- *. rewrite (He Hml s Hms). unfold zdrop. by rewrite drop_ge by lia.
  - f_equal. apply (accepts_base F); try done; lia.
Qed.

Lemma rel_dead A F c : rel A F c → ∃ A', asteps Cfg i A A' ∧ dead A' (disk c).
Proof.
  intros Hr. eapply crash_dead; [apply Hr|apply d_open_wf, Hr|]. intros t v s l Ht Hs Hl Hst.
  destruct (dr_state _ _ _ _ _ _ _ (r_disk _ _ _ Hr) _ _ Ht) as [-> ->]. exists F.
  split; [by left|]. split; [by apply (dr_snap _ _ _ _ _ _ _ (r_disk _ _ _ Hr))|].
  destruct Hr. apply (disk_accepts A F (term c) (votedFor c) (snapIndex c) (lastDelivered c) (disk c)); try done.
  by apply sh_wf in r_shape0.
Qed.

(** ** Writing the disk *)

Lemma snap_rel_take A F f es t s :
  snap_rel A F t s → lastIndex s ≤ f → f ≤ zlength F → snap_rel A (ztake f F ++ es) t s.
Proof.
  intros (Hi & Ht & Hc & Hz & Hp) Hf HF.
  assert (ztake (lastIndex s) (ztake f F ++ es) = ztake (lastIndex s) F) as E.
  { unfold ztake. rewrite take_app_le by (rewrite length_take; lia). rewrite take_take. f_equal. lia. }
  unfold snap_rel. rewrite E. split; [|by split_and!]. rewrite length_app. unfold ztake. rewrite length_take. lia.
Qed.

(** A batch appended at index [f + 1], superseding what is there. *)
Lemma logAppend_rel A F t v base k f es (d : D) :
  d_open d → disk_rel A F t v base k d → log_wf F → 0 ≤ k ≤ f → f ≤ zlength F → es ≠ [] →
  log_wf (ztake f F ++ es) →
  wp (logAppend es) (λ o d',
    match o with
    | Ok _ => d_open d' ∧ disk_rel A (ztake f F ++ es) t v base k d'
    | Panic => False
    | _ => d_wf d' ∧ ∀ t' v' s l, may_state d' t' v' → may_snap d' s → may_log d' l →
        starts_at (u64 (lastIndex s + 1)) l → t' = t ∧ v' = v ∧
        ∃ F', (F' = F ∨ ∃ n, (0 < n ≤ length es)%nat ∧ F' = ztake f F ++ take n es) ∧
          snap_rel A F' t s ∧ l = zdrop (lastIndex s) F'
    end) d.
Proof.
  intros Ho Hd Hwf Hf HfF Hne Hwf'. assert (Forall entry_wf es) as Hes.
  { apply Forall_lookup_2. intros n e He. destruct (Hwf' (length (ztake f F) + n)%nat e) as (_ & _ & Hp & _); [|done].
    rewrite lookup_app_r by lia. by replace (length (ztake f F) + n - length (ztake f F))%nat with n by lia. }
  assert (zlength (ztake f F) = f) as Hlf by (unfold ztake; rewrite length_take; lia).
  assert (∀ b n, 0 ≤ b ≤ k → (0 < n)%nat →
    log_supersede (zdrop b F) (take n es) = zdrop b (ztake f F ++ take n es)) as Hsup.
  { intros b n Hb Hn. apply log_supersede_drop; try done; [lia|destruct es, n; (done || lia)|].
    eapply log_wf_prefix; [|exact Hwf']. by apply prefix_app, take_prefix. }
  eapply wp_mono; [by apply logAppend_law|]. intros o d' (Hw' & Ho' & Hs' & Hsn' & Hm).
  destruct o as [[]|e| |]; [|..|done|].
  { split; [by apply Ho'|]. split.
    - intros t' v' Hms. by apply (dr_state _ _ _ _ _ _ _ Hd), Hs'.
    - intros l' Hl'. destruct (Hm l' Hl') as (l & Hl & ->). destruct (dr_log _ _ _ _ _ _ _ Hd l Hl) as (b & Hb & ->).
      exists b. split; [done|]. rewrite <-(firstn_all es) at 1. rewrite Hsup; [by rewrite firstn_all|done|].
      destruct es; [done|simpl; lia].
    - intros s Hs. destruct (dr_snap _ _ _ _ _ _ _ Hd s (Hsn' s Hs)). split; [|done]. apply snap_rel_take; [done|lia|lia].
    - intros Hl'. exfalso. destruct (Hm [] Hl') as (l & Hl & E). destruct (dr_log _ _ _ _ _ _ _ Hd l Hl) as (b & Hb & ->).
      rewrite <-(firstn_all es), Hsup in E; [|done|by destruct es; [done|simpl; lia]].
      apply (f_equal length) in E. unfold zdrop in E. rewrite length_drop, length_app, firstn_all in E.
      destruct es; [done|]. simpl in E. lia. }
  all: split; [done|]; intros t' v' s l' Hms Hss Hl' Hst;
    destruct (dr_state _ _ _ _ _ _ _ Hd _ _ (Hs' _ _ Hms)) as [-> ->]; split; [done|]; split; [done|];
    destruct (Hm l' Hl') as (l & n & Hl & ->); destruct (dr_snap _ _ _ _ _ _ _ Hd s (Hsn' s Hss)) as [Hsr Hsk];
    destruct n as [|n];
    [exists F; split; [by left|]; split; [done|]; by eapply disk_accepts; try done; apply Hsn'|];
    destruct (dr_log _ _ _ _ _ _ _ Hd l Hl) as (b & Hb & ->); rewrite Hsup in Hst |- * by (done || lia);
    exists (ztake f F ++ take (S n) es);
    (split; [right; exists (S n `min` length es)%nat; split; [destruct es; [done|simpl; lia]|]; by rewrite <-take_take, firstn_all|]);
    (split; [apply snap_rel_take; [done|lia|lia]|]);
    f_equal; apply (accepts_base (ztake f F ++ take (S n) es)); try done; try lia.
  all: first [by eapply log_wf_prefix; [|exact Hwf']; apply prefix_app, take_prefix
             |destruct Hsr as [? _]; rewrite length_app; lia
             |intros E; apply (f_equal length) in E; unfold zdrop in E; rewrite length_drop, length_app in E;
              destruct es; [done|]; simpl in E; lia].
Qed.

(** A new term and vote. *)
Lemma saveState_rel A F t0 v0 r t v base k (d : D) :
  a_nodes A !! i = Some (Live r (mkA t0 v0 F)) → log_wf F → d_open d → disk_rel A F t0 v0 base k d →
  is_u64 t → is_u64 v → t0 ≤ t → moves A i (mkA t0 v0 F) (mkA t v F) →
  wp (saveState t v) (λ o d',
    match o with
    | Ok _ => d_open d' ∧ disk_rel A F t v base k d'
    | Panic => False
    | _ => ∃ A', asteps Cfg i A A' ∧ dead A' d'
    end) d.
Proof.
  intros Hn Hwf Hop Hd Ht Hv Hle Hmv. eapply wp_mono; [by apply saveState_law|].
  intros o d' (Hw' & Ho' & Hl' & Hsn' & Hm).
  assert (∀ s, may_snap d' s → snap_rel A F t s ∧ base ≤ lastIndex s ≤ k) as Hsn.
  { intros s Hs. destruct (dr_snap _ _ _ _ _ _ _ Hd s (Hsn' s Hs)). split; [|done].
    eapply snap_rel_grow; [apply grows_refl|exact Hle|done]. }
  destruct o as [[]|e| |]; [|..|done|].
  { split; [by apply Ho'|]. split; [done|..].
    - intros l Hl. eapply dr_log; [done|by apply Hl'].
    - done.
    - intros Hl s Hs. eapply dr_empty; [done|by apply Hl'|by apply Hsn']. }
  all: eapply crash_dead; [exact Hn|done|]; intros t' v' s l Hms Hss Hll Hst; exists F;
    assert (l = zdrop (lastIndex s) F) by (eapply disk_accepts; eauto);
    destruct (Hm _ _ Hms) as [Hold|[-> ->]];
    [destruct (dr_state _ _ _ _ _ _ _ Hd _ _ Hold) as [-> ->]; split; [by left|]; split; [|done];
     by apply (dr_snap _ _ _ _ _ _ _ Hd), Hsn'
    |split; [by right|]; split; [by apply Hsn|done]].
Qed.

(** ** Postconditions *)

Definition post {X} (R : X → abs → list Entry → C → Prop) (A : abs) (o : outcome X) (c' : C) : Prop :=
  ∃ A', asteps Cfg i A A' ∧
    match o with
    | Ok a => ∃ F', rel A' F' c' ∧ R a A' F' c'
    | _ => dead A' (disk c')
    end.

Lemma post_ok {X} (R : X → abs → list Entry → C → Prop) a A F c' :
  rel A F c' → R a A F c' → post R A (Ok a) c'.
Proof. intros. exists A. split; [apply rtc_refl|]. by exists F. Qed.

Lemma post_step {X} (R : X → abs → list Entry → C → Prop) A A1 o c' :
  asteps Cfg i A A1 → post R A1 o c' → post R A o c'.
Proof. intros Hs (A' & ? & ?). exists A'. split; [by etrans|done]. Qed.

Lemma post_fail {X} (R : X → abs → list Entry → C → Prop) A F c c' (o : outcome X) :
  rel A F c → disk c' = disk c → (∀ a, o ≠ Ok a) → post R A o c'.
Proof.
  intros Hr Hd Ho. destruct (rel_dead A F c Hr) as (A' & Hs & Hde). exists A'. split; [done|].
  rewrite Hd. destruct o; [by destruct (Ho a)|done..].
Qed.

Lemma wp_post_bind {X Y} (R1 : X → abs → list Entry → C → Prop) (R : Y → abs → list Entry → C → Prop)
    (m : M C X) (k : X → M C Y) A c :
  ainv Cfg A → wp m (post R1 A) c →
  (∀ a A1 F1 c1, asteps Cfg i A A1 → ainv Cfg A1 → grows A A1 → rel A1 F1 c1 → R1 a A1 F1 c1 →
    wp (k a) (post R A1) c1) →
  wp (m ≫= k) (post R A) c.
Proof.
  intros Hi Hm Hk. apply wp_bind. eapply wp_mono; [exact Hm|].
  intros o c1 (A1 & Hs & Ho). destruct (asteps_spec _ _ _ _ Hi Hs) as (Hi1 & Hg & _).
  destruct o as [a|e| |]; cbn [wpk]; [|by exists A1..].
  destruct Ho as (F1 & Hr & HR). eapply wp_mono; [by eapply Hk|]. intros o c2. by apply post_step.
Qed.

Lemma wp_post_wrap {X} (R : X → abs → list Entry → C → Prop) fmt (m : M C X) A c :
  wp m (post R A) c → wp (wrap fmt m) (post R A) c.
Proof. intros Hm. apply wp_wrap. eapply wp_mono; [exact Hm|]. by intros []. Qed.

Lemma wp_post_weaken {X} (R1 R2 : X → abs → list Entry → C → Prop) (m : M C X) A c :
  wp m (post R1 A) c → (∀ a A' F' c', rel A' F' c' → R1 a A' F' c' → R2 a A' F' c') → wp m (post R2 A) c.
Proof.
  intros Hm HR. eapply wp_mono; [exact Hm|]. intros o c' (A' & Hs & Ho). exists A'. split; [done|].
  destruct o; [|done..]. destruct Ho as (F' & ? & ?). eauto.
Qed.

Definition anything {X} : X → abs → list Entry → C → Prop := λ _ _ _ _, True.

(** ** Parts that only send, or keep time and counters *)

Definition bkey (c : C) := (role c, term c, votedFor c, (entries c, snapIndex c),
  (nextIndex c, matchIndex c, votes c)).
Definition key (c : C) := (bkey c, commitIndex c, (lastDelivered c, committed c)).

(** How much has been handed to the state machine. *)
Definition qbase (c : C) : Z := lastDelivered c - zlength (committed c).

(** The state is the same for the specification. *)
Definition quiet {X} (A : abs) (F : list Entry) (c : C) : X → abs → list Entry → C → Prop :=
  λ _ A' F' c', A' = A ∧ F' = F ∧ key c' = key c.
End rel.

Arguments r_node {D _ _ Cfg SD i A F c} _.
Arguments r_id {D _ _ Cfg SD i A F c} _.
Arguments r_self {D _ _ Cfg SD i A F c} _.
Arguments r_members {D _ _ Cfg SD i A F c} _.
Arguments r_u64 {D _ _ Cfg SD i A F c} _.
Arguments r_shape {D _ _ Cfg SD i A F c} _.
Arguments r_open {D _ _ Cfg SD i A F c} _.
Arguments r_disk {D _ _ Cfg SD i A F c} _.
Arguments r_commit {D _ _ Cfg SD i A F c} _.
Arguments r_deliv {D _ _ Cfg SD i A F c} _.
Arguments r_queue {D _ _ Cfg SD i A F c} _.
Arguments r_lead {D _ _ Cfg SD i A F c} _.
Arguments r_votes {D _ _ Cfg SD i A F c} _.
Arguments r_out {D _ _ Cfg SD i A F c} _.
Arguments r_restore {D _ _ Cfg SD i A F c} _.
Arguments dr_state {D _ _ Cfg SD A F t v base k d} _.
Arguments dr_log {D _ _ Cfg SD A F t v base k d} _.
Arguments dr_snap {D _ _ Cfg SD A F t v base k d} _.
Arguments dr_empty {D _ _ Cfg SD A F t v base k d} _.

(** [c'] differs from [c] in fields that [rel] does not read. *)
Ltac rel_frame :=
  match goal with Hr : rel _ _ _ _ _ _ |- rel _ _ _ _ _ _ => destruct Hr; split; cbn; solve [assumption | done | eauto] end.
