(* ===== verification/CoreSteps.v ===== *)
(** * The handlers of the core, as steps of the specification *)

From stdpp Require Import prelude gmap strings sorting.
From S2P Require Import Prelude GoRuntime GoBytes RaftTypes Membership RaftLaws Core CoreVotes RaftSpec CoreLog.
From S2P Require Import CoreRefine.
Open Scope Z_scope.

#[local] Arguments map_get : simpl never.

Section steps.
Context {D : Type} `{RaftDiskLaws D} `{GoRuntime}.
Context (Cfg : Members) (Cfg_wf : members_wf Cfg) (Cfg_rt : decodeMembers (encodeMembers Cfg) = Ok Cfg).
Context (SD : list Entry → bytes → Prop) (i : Z) (i_nonzero : i ≠ noVote) (i_u64 : is_u64 i) (i_member : i ∈ dom Cfg).

Abbreviation C := (core D).
Abbreviation rel := (rel Cfg SD i).
Abbreviation post := (post Cfg SD i).
Abbreviation dead := (dead Cfg SD i).
Abbreviation out_rel := (out_rel Cfg SD).
Abbreviation asteps := (asteps Cfg i).
Abbreviation ainv := (ainv Cfg).
Abbreviation committed_in := (committed_in Cfg).

(** ** Sending *)

Lemma wp_quiet_bind {X Y} (R : Y → abs → list Entry → C → Prop) (m : M C X) (k : X → M C Y) A F c :
  wp m (post (quiet A F c) A) c →
  (∀ a c1, rel A F c1 → key c1 = key c → wp (k a) (post R A) c1) →
  wp (m ≫= k) (post R A) c.
Proof.
  intros Hm Hk. apply wp_bind. eapply wp_mono; [exact Hm|]. intros o c1 (A1 & Hs & Ho).
  destruct o as [a|e| |]; cbn [wpk]; [|by exists A1..]. destruct Ho as (F1 & Hr & -> & -> & Hq). by apply Hk.
Qed.

Lemma wp_quiet_ret {X} (a : X) A F c c0 : rel A F c → key c = key c0 → wp (mret a) (post (quiet A F c0) A) c.
Proof. intros. apply wp_ret. by apply (post_ok Cfg SD i _ a A F). Qed.

Lemma wp_quiet_modify f A F c c0 :
  rel A F (f c) → key (f c) = key c0 → wp (modify f) (post (quiet A F c0) A) c.
Proof. intros. apply wp_modify. by apply (post_ok Cfg SD i _ () A F). Qed.

Lemma quiet_from {X} (m : M C X) A F c c0 :
  key c = key c0 → wp m (post (quiet A F c) A) c → wp m (post (quiet A F c0) A) c.
Proof.
  intros Hk Hm. eapply wp_post_weaken; [exact Hm|]. intros a A' F' c' _ (-> & -> & E).
  split_and!; [done|done|congruence].
Qed.

Lemma wp_quiet_for_each {X} (l : list X) (f : X → M C ()) A F c :
  rel A F c → (∀ x c1, x ∈ l → rel A F c1 → key c1 = key c → wp (f x) (post (quiet A F c1) A) c1) →
  wp (for_each l f) (post (quiet A F c) A) c.
Proof.
  revert c. induction l as [|x l IH]; intros c Hr Hf; simpl; [by apply wp_quiet_ret|].
  eapply wp_quiet_bind; [by apply Hf; [left|..]|]. intros [] c1 Hr1 Hk1.
  apply quiet_from; [done|]. apply IH; [done|]. intros y c2 Hy Hr2 Hk2. apply Hf; [by right|done|congruence].
Qed.

Lemma send_quiet o A F c : rel A F c → out_rel A i o → wp (send o) (post (quiet A F c) A) c.
Proof.
  intros Hr Ho. unfold send. apply wp_quiet_modify; [|done]. destruct Hr; split; cbn; try done.
  by apply Forall_app_2, Forall_singleton.
Qed.

Lemma resetElectionTimer_quiet A F c : rel A F c → wp resetElectionTimer (post (quiet A F c) A) c.
Proof.
  intros Hr. apply wp_resetElectionTimer.
  - by apply (post_fail Cfg SD i _ A F c).
  - intros n. apply (post_ok Cfg SD i _ () A F); [rel_frame|done].
Qed.

Lemma peerIDs_quiet A F c : rel A F c → wp peerIDs (post (quiet A F c) A) c.
Proof.
  intros Hr. unfold peerIDs. apply wp_bind, wp_get, wp_bind, wp_modify. cbn [wpk]. apply wp_quiet_ret; [rel_frame|done].
Qed.

Lemma abortPendingReads_quiet A F c : rel A F c → wp abortPendingReads (post (quiet A F c) A) c.
Proof. intros Hr. apply wp_quiet_modify; [rel_frame|done]. Qed.

Lemma confirmReads_quiet A F c : rel A F c → wp confirmReads (post (quiet A F c) A) c.
Proof.
  intros Hr. unfold confirmReads. apply wp_bind, wp_get, wp_bind, wp_modify. cbn [wpk]. apply wp_quiet_ret; [rel_frame|done].
Qed.

Lemma noteFreshAck_quiet from seq A F c : rel A F c → wp (noteFreshAck from seq) (post (quiet A F c) A) c.
Proof.
  intros Hr. unfold noteFreshAck. apply wp_bind, wp_get, wp_bind, wp_modify. cbn [wpk].
  match goal with |- wp _ _ ?s => assert (rel A F s) as Hr1 by rel_frame; assert (key s = key c) as Hk by done end.
  destruct (existsb _ _); [|by apply wp_quiet_ret].
  apply quiet_from; [done|]. eapply wp_quiet_bind; [by apply confirmReads_quiet|]. intros. by apply wp_quiet_ret.
Qed.

Lemma loadSnapshot_rel A F c :
  rel A F c →
  wp (zoom disk loadSnapshot) (λ o c', rel A F c' ∧ key c' = key c ∧ cfg c' = cfg c ∧
    match o with Ok s => snap_rel Cfg SD A F (term c) s ∧ snapIndex c ≤ lastIndex s | _ => True end) c.
Proof.
  intros Hr. apply wp_zoom. eapply wp_mono; [apply loadSnapshot_law, d_open_wf, Hr|].
  intros o d' (_ & Ho & _ & Hs & Hl & Hsn & Hm). split_and!; try done.
  - destruct Hr; split; cbn; try done; [by apply Ho|]. destruct r_disk as [? ? ? He]. split.
    + intros t v Hmm%Hs. eauto.
    + intros l Hmm%Hl. eauto.
    + intros s Hmm%Hsn. eauto.
    + intros Hmm%Hl s Hms%Hsn. eauto.
  - destruct o; try done. by destruct (dr_snap (r_disk Hr) _ Hm) as [? [? _]].
Qed.

(** Reading off [key]. *)
Lemma bkey_eq (c c' : C) :
  bkey c' = bkey c → role c' = role c ∧ term c' = term c ∧ votedFor c' = votedFor c ∧ entries c' = entries c ∧
  snapIndex c' = snapIndex c ∧ nextIndex c' = nextIndex c ∧ matchIndex c' = matchIndex c ∧ votes c' = votes c.
Proof. unfold bkey. by intros [= -> -> -> -> -> -> -> ->]. Qed.
Lemma key_eq (c c' : C) :
  key c' = key c → bkey c' = bkey c ∧ commitIndex c' = commitIndex c ∧ lastDelivered c' = lastDelivered c ∧
  committed c' = committed c.
Proof. intros Hk. injection Hk. intros -> -> -> ? ? ? ? ? ? ? ?. unfold bkey. by split_and!; [congruence|..]. Qed.
Lemma key_role (c c' : C) : key c' = key c → role c' = role c ∧ term c' = term c.
Proof. intros (Hk & _)%key_eq. by apply bkey_eq in Hk as (? & ? & _). Qed.

(** The entries chosen for a request that starts at [next]. *)
Lemma chosen_entries F (c : C) next es :
  shape F c → snapIndex c < next → is_u64 next →
  match entries c with
  | e0 :: _ => if next <=? lastLogIndex c
               then fill_entries (S (length (entries c))) (entries c) (Index e0) next (lastLogIndex c) 0
               else Ok []
  | [] => Ok []
  end = Ok es → es `prefix_of` zdrop (next - 1) F.
Proof.
  intros Hsh Hn Hu. destruct (decide (entries c = [])) as [E|Hne].
  { rewrite E. intros [= <-]. apply prefix_nil. }
  assert (∃ e0 l, entries c = e0 :: l) as (e0 & l & El) by (destruct (entries c); by eauto).
  destruct (shape_entries_cons F c e0 l Hsh El) as [Hb Hlt]. rewrite El at 1.
  rewrite (shape_lastLogIndex F c Hsh), Hb, (sh_entries _ _ _ _ Hsh).
  destruct (_ <=? _); [|intros [= <-]; apply prefix_nil]. intros Hf. pose proof (sh_snap _ _ _ _ Hsh).
  eapply fill_entries_slice in Hf as [? _]; try done; [apply Hsh|lia..].
Qed.

Lemma sendAppend_quiet peer A F c :
  rel A F c → role c = leader → peer ≠ i → wp (sendAppend peer) (post (quiet A F c) A) c.
Proof.
  intros Hr Hl Hpeer. destruct (r_lead Hr Hl) as ((ld & Hld & Hlog) & Hnext & _). pose proof (r_shape Hr) as Hsh.
  pose proof (log_wf_length F (sh_wf _ _ _ _ Hsh)) as HF. pose proof (sh_snap _ _ _ _ Hsh) as Hsn.
  unfold sendAppend. apply wp_bind, wp_get. cbn [wpk]. cbv zeta.
  set (next := if _ =? 0 then 1 else _).
  assert (1 ≤ next ≤ zlength F + 1) as Hn.
  { unfold next. destruct (Hnext peer) as [? _]. destruct (_ =? _) eqn:E; zify_bool; lia. }
  destruct (next <=? snapIndex c) eqn:Ens; zify_bool.
  - apply wp_bind, wp_attempt. eapply wp_mono; [by apply loadSnapshot_rel|].
    intros o c1 (Hr1 & Hk1 & Hc1 & Ho). destruct o as [s|e| |]; cbn [wpk].
    + destruct Ho as [(Hs0 & Hst & Hsc & _ & Hsd) Hsi]. destruct Hsd as [Hcf Hsd]; [lia|].
      apply quiet_from; [done|]. apply send_quiet; [done|]. cbn. split; [done|]. exists ld. rewrite Hlog, Hcf.
      split_and!; try done; lia.
    + by apply wp_quiet_ret.
    + by apply (post_fail Cfg SD i _ A F c1).
    + by apply (post_fail Cfg SD i _ A F c1).
  - apply wp_bind, wp_modify. cbn [wpk].
    match goal with |- wp _ _ ?s => assert (rel A F s) as Hr1 by rel_frame; assert (key s = key c) as Hk1 by done end.
    rewrite (u64_small (next - 1)) by (unfold is_u64; lia).
    apply wp_bind, wp_lift. rewrite (shape_termAt F c) by (try done; unfold is_u64; lia). cbn [wpk].
    apply wp_bind, wp_lift.
    match goal with |- wpk _ _ ?o _ => destruct o as [es| | |] eqn:Hes end; cbn [wpk];
      [|by apply (post_fail Cfg SD i _ A F c)..].
    apply chosen_entries with (F := F) in Hes; [|done|lia|unfold is_u64; lia].
    apply quiet_from; [done|]. apply send_quiet; [done|]. cbn. split; [done|]. exists ld. rewrite Hlog.
    destruct (r_commit Hr) as [? ?]. split_and!; try done; try lia.
    unfold term_at. by rewrite (proj2 (andb_true_iff _ _)) by lia.
Qed.

Lemma broadcastAppends_quiet A F c :
  rel A F c → role c = leader → wp broadcastAppends (post (quiet A F c) A) c.
Proof.
  intros Hr Hl. unfold broadcastAppends. unfold peerIDs at 1.
  apply wp_bind, wp_bind, wp_get, wp_bind, wp_modify, wp_ret. cbn [wpk].
  match goal with |- wp _ _ ?s => assert (rel A F s ∧ key s = key c) as [Hr1 Hk1] by (split; [rel_frame|done]) end.
  apply quiet_from; [done|]. apply wp_quiet_for_each; [done|].
  intros x c2 Hx Hr2 Hk2. apply sendAppend_quiet; [done| |].
  - apply key_role in Hk1, Hk2. destruct Hk1, Hk2. congruence.
  - apply list_elem_of_filter in Hx as [Hx _]. by rewrite (r_id Hr) in Hx.
Qed.

Lemma sendTimeoutNow_quiet to A F c : rel A F c → wp (sendTimeoutNow to) (post (quiet A F c) A) c.
Proof. intros Hr. unfold sendTimeoutNow. apply wp_bind, wp_get. cbn [wpk]. by apply send_quiet. Qed.

(** ** Delivering what is committed *)

Lemma slice_extend {X} (F : list X) a b c :
  0 ≤ a ≤ b → b ≤ c → b ≤ zlength F →
  zdrop a (ztake b F) ++ ztake (c - b) (zdrop b F) = zdrop a (ztake c F).
Proof.
  intros Ha Hb HF. unfold zdrop, ztake.
  assert (take (Z.to_nat c) F = take (Z.to_nat b) F ++ take (Z.to_nat (c - b)) (drop (Z.to_nat b) F)) as ->.
  { rewrite take_drop_commute. replace (Z.to_nat b + Z.to_nat (c - b))%nat with (Z.to_nat c) by lia.
    rewrite <-(take_drop (Z.to_nat b) (take (Z.to_nat c) F)) at 1. f_equal.
    rewrite take_take. f_equal. lia. }
  rewrite drop_app_le; [done|]. rewrite length_take. lia.
Qed.

Lemma deliver_loop_spec fuel (F : list Entry) base x commit (c : C) :
  log_wf F → entries c = zdrop base F → 0 ≤ base < x → x ≤ commit + 1 → commit ≤ zlength F →
  wp (deliver_loop fuel (base + 1) x commit) (λ o c',
    (o = Panic ∧ disk c' = disk c ∧ Z.of_nat fuel < commit + 1 - x) ∨
    (o = Ok () ∧ c' = set committed (λ q, q ++ ztake (commit - (x - 1)) (zdrop (x - 1) F)) c)) c.
Proof.
  intros Hwf He Hb Hx Hc. pose proof (log_wf_length F Hwf) as HF. revert x c He Hb Hx.
  induction fuel as [|fuel IH]; intros x c He Hb Hx; simpl; destruct (_ <? _) eqn:E; zify_bool.
  1,3: apply wp_ret; right; split; [done|]; assert (x = commit + 1) as -> by lia;
    replace (commit - (commit + 1 - 1)) with 0 by lia; destruct c; unfold set, set_committed; cbn;
    by rewrite app_nil_r.
  { apply wp_panic. left. split_and!; [done..|lia]. }
  apply wp_bind. unfold deliver_one. apply wp_bind, wp_get. cbn [wpk]. apply wp_bind, wp_lift.
  destruct (lookup_lt_is_Some_2 F (Z.to_nat (x - 1))) as [e Hl]; [lia|].
  rewrite (u64_small (x - (base + 1))) by (unfold is_u64; lia). rewrite (proj2 (zindex_lookup _ _ e)).
  2:{ split; [lia|]. rewrite He. unfold zdrop. rewrite lookup_drop.
      by replace (Z.to_nat base + Z.to_nat (x - (base + 1)))%nat with (Z.to_nat (x - 1)) by lia. }
  cbn [wpk]. apply wp_bind, wp_modify. cbn [wpk]. destruct (Hwf _ _ Hl) as (_ & _ & _ & Hty).
  rewrite (proj2 (Z.eqb_neq _ _) Hty). cbn [andb]. apply wp_ret. cbn [wpk].
  rewrite u64_small by (unfold is_u64; lia). eapply wp_mono; [apply (IH (x + 1)); [done|lia|lia]|].
  intros o c' [(-> & ? & ?)|[-> ->]]; [left; split_and!; [done..|lia]|right]. split; [done|].
  unfold set, set_committed. cbn. rewrite <-app_assoc. do 2 f_equal. unfold ztake, zdrop.
  replace (Z.to_nat (commit - (x - 1))) with (S (Z.to_nat (commit - (x + 1 - 1)))) by lia.
  rewrite (drop_S _ _ _ Hl). by replace (S (Z.to_nat (x - 1))) with (Z.to_nat (x + 1 - 1)) by lia.
Qed.

(** As [quiet], but entries may have been delivered, or the commit index moved. *)
Definition delivering {X} (A : abs) (F : list Entry) (c : C) : X → abs → list Entry → C → Prop :=
  λ _ A' F' c', A' = A ∧ F' = F ∧ bkey c' = bkey c ∧ qbase c' = qbase c.
Definition advancing {X} (F : list Entry) (c : C) : X → abs → list Entry → C → Prop :=
  λ _ A' F' c', F' = F ∧ bkey c' = bkey c ∧ qbase c' = qbase c.

Lemma deliverCommitted_rel A F c : rel A F c → wp deliverCommitted (post (delivering A F c) A) c.
Proof.
  intros Hr. pose proof (r_shape Hr) as Hsh. destruct (r_commit Hr) as [Hc Hcc]. destruct (r_deliv Hr) as [Hd Hdd].
  pose proof (log_wf_length F (sh_wf _ _ _ _ Hsh)) as HF. pose proof (sh_snap _ _ _ _ Hsh) as Hsn.
  unfold deliverCommitted. apply wp_bind, wp_get. cbn [wpk].
  destruct (decide (entries c = [])) as [E|Hne].
  { rewrite E. apply wp_ret. by apply (post_ok Cfg SD i _ () A F). }
  assert (∃ e0 l, entries c = e0 :: l) as (e0 & l & El) by (destruct (entries c); by eauto).
  destruct (shape_entries_cons F c e0 l Hsh El) as [Hb Hlt]. rewrite El at 1. rewrite Hb.
  rewrite (u64_small (lastDelivered c + 1)) by (unfold is_u64; lia).
  destruct (decide (lastDelivered c ≤ commitIndex c)) as [Hle|Hgt].
  - apply wp_bind. eapply wp_mono.
    { apply (deliver_loop_spec _ F); [apply Hsh|apply Hsh|lia|lia|lia]. }
    intros o c1 [(-> & Hdk & _)|[-> ->]]; cbn [wpk]; [by apply (post_fail Cfg SD i _ A F c)|].
    apply wp_modify. cbn. destruct (_ <? _) eqn:E; zify_bool.
    + apply (post_ok Cfg SD i _ () A F).
      2:{ split_and!; [done..|]. unfold qbase, ztake, zdrop. cbn.
          rewrite length_app, length_take, length_drop. lia. }
      destruct (r_queue Hr) as [Hq1 Hq2]. destruct Hr; split; cbn; try done.
      * destruct r_disk as [? Hdl Hds ?]. split; try done.
        { intros l' Hl'. destruct (Hdl l' Hl') as (b & ? & ->). exists b. split; [lia|done]. }
        { intros s Hs. destruct (Hds s Hs). split; [done|lia]. }
      * split; [lia|done].
      * rewrite length_app. unfold ztake, zdrop. rewrite length_take, length_drop. split; [lia|].
        rewrite Hq2 at 1. replace (lastDelivered c + 1 - 1) with (lastDelivered c) by lia.
        fold (zdrop (lastDelivered c) F). fold (ztake (commitIndex c - lastDelivered c) (zdrop (lastDelivered c) F)).
        rewrite slice_extend by lia. unfold zdrop, ztake. f_equal. lia.
    + assert (commitIndex c = lastDelivered c) as Heq by lia.
      replace (commitIndex c - (lastDelivered c + 1 - 1)) with 0 by lia. apply (post_ok Cfg SD i _ () A F).
      2:{ split_and!; [done..|]. unfold qbase. cbn. by rewrite app_nil_r. }
      destruct Hr; split; cbn; try done. by rewrite app_nil_r.
  - simpl. rewrite (proj2 (Z.ltb_lt _ _)) by lia. apply wp_bind, wp_ret. cbn [wpk]. apply wp_modify.
    rewrite (proj2 (Z.ltb_ge _ _)) by lia. by apply (post_ok Cfg SD i _ () A F).
Qed.

(** ** The leader's commit index *)

Lemma acked_le A j t m m' : m' ≤ m → acked A j t m → acked A j t m'.
Proof. intros ? (k & ? & ?). exists k. split; [lia|done]. Qed.

Lemma peers_spec A F c n :
  rel A F c →
  let ids := filter (λ id, id ≠ ID (cfg c)) (map_order n (elements (dom (members c)))) in
  NoDup ids ∧ (∀ j, j ∈ ids → j ∈ dom Cfg ∧ j ≠ i).
Proof.
  intros Hr ids. destruct (r_members Hr) as [Hm _]. unfold ids. rewrite (r_id Hr), Hm. split.
  - apply NoDup_filter. rewrite map_order_perm. apply NoDup_elements.
  - intros j. rewrite list_elem_of_filter, map_order_perm, elem_of_elements. tauto.
Qed.

Lemma replicas_quorum A F c ids n :
  rel A F c → role c = leader → 0 < n → NoDup ids → (∀ j, j ∈ ids → j ∈ dom Cfg ∧ j ≠ i) →
  majority c ≤ replicas c ids n →
  ∃ Q, is_quorum Cfg Q ∧ ∀ j, j ∈ Q → j = i ∨ acked A j (term c) n.
Proof.
  intros Hr Hl Hn Hnd Hids Hmaj. destruct (r_lead Hr Hl) as (_ & _ & Hmatch).
  set (ok := filter (λ id, n ≤ map_get (matchIndex c) id) ids) in *.
  exists ({[i]} ∪ list_to_set ok). split; [split|].
  - intros j [->%elem_of_singleton|Hj]%elem_of_union; [done|].
    apply elem_of_list_to_set, list_elem_of_filter in Hj as [_ Hj]. by apply Hids.
  - rewrite size_union, size_singleton, size_list_to_set.
    + unfold majority, replicas in Hmaj. fold ok in Hmaj. rewrite (proj1 (r_members Hr)) in Hmaj.
      unfold quorum. destruct (isMember c); lia.
    + by apply NoDup_filter.
    + intros j ->%elem_of_singleton Hj. apply elem_of_list_to_set, list_elem_of_filter in Hj as [_ Hj].
      by apply Hids in Hj as [_ ?].
  - intros j [->%elem_of_singleton|Hj]%elem_of_union; [by left|right].
    apply elem_of_list_to_set, list_elem_of_filter in Hj as [Hj _].
    destruct (Hmatch j) as [?|Ha]; [lia|]. by eapply acked_le.
Qed.

(** The leader acknowledges its own log and advances its commit index. *)
Lemma commit_step A F c n Q :
  ainv A → rel A F c → role c = leader → 0 < n ≤ zlength F →
  last_term (ztake n F) = term c → is_quorum Cfg Q → (∀ j, j ∈ Q → j = i ∨ acked A j (term c) n) →
  ∃ A', asteps A A' ∧ rel A' F (c <| commitIndex := n |>).
Proof.
  intros Hi Hr Hl Hn Ht HQ Hacks. destruct (r_lead Hr Hl) as ((ld & Hld & Hlog) & Hnx & Hm).
  set (a := mkA (term c) (votedFor c) F).
  assert (astep Cfg i A (A <| a_acks ::= cons (i, term c, length F) |>)) as Hst.
  { apply (as_ack Cfg i A (role c) a ld (length F)); [apply Hr|done|rewrite Hlog; lia|].
    rewrite Hlog. apply take_prefix. }
  set (A1 := A <| a_acks ::= _ |>) in *. exists A1. split; [by apply rtc_once|].
  pose proof (astep_grows _ _ _ _ Hi Hst) as Hg.
  assert (rel A1 F c) as Hr1 by (by apply (rel_grow Cfg SD i A)).
  destruct (lookup_lt_is_Some_2 F (Z.to_nat (n - 1))) as [e He]; [lia|].
  assert (Term e = term c) as Hte.
  { rewrite <-Ht. unfold ztake. replace (Z.to_nat n) with (S (Z.to_nat (n - 1))) by lia.
    symmetry. by apply last_term_take. }
  assert (commits Cfg A1 (term c) (Z.to_nat (n - 1))) as Hcm.
  { exists ld, e, Q. rewrite Hlog. split_and!; try done. intros j Hj. destruct (Hacks j Hj) as [->|(k & ? & ?)].
    - exists (length F). split; [lia|]. cbn. by left.
    - exists k. split; [lia|]. cbn. by right. }
  destruct Hr1. split; cbn; try done. split; [lia|]. right. exists (term c), (Z.to_nat (n - 1)), ld.
  split_and!; [done|done|done|]. rewrite Hlog. unfold ztake.
  by replace (Z.to_nat n) with (S (Z.to_nat (n - 1))) by lia.
Qed.

Lemma leader_term_pos A F c : ainv A → rel A F c → role c = leader → 0 < term c.
Proof.
  intros Hi Hr Hl. destruct (r_lead Hr Hl) as ((ld & Hld & _) & _).
  by apply (ai_leads _ _ Hi), lo_cand, (ai_cands _ _ Hi) in Hld as [? _].
Qed.

Lemma advance_loop_rel fuel n A F c :
  ainv A → rel A F c → role c = leader → 0 ≤ n ≤ zlength F →
  wp (advance_loop fuel n) (post (advancing F c) A) c.
Proof.
  intros Hi. revert n c. induction fuel as [|fuel IH]; intros n c Hr Hl Hn; simpl.
  { apply wp_ret. by apply (post_ok Cfg SD i _ () A F). }
  pose proof (r_shape Hr) as Hsh. pose proof (log_wf_length F (sh_wf _ _ _ _ Hsh)) as HF.
  apply wp_bind, wp_get. cbn [wpk]. destruct (commitIndex c <? n) eqn:E; cbn [negb]; zify_bool.
  2:{ apply wp_ret. by apply (post_ok Cfg SD i _ () A F). }
  apply wp_bind, wp_lift. rewrite (shape_termAt F c) by (try done; unfold is_u64; lia). cbn [wpk].
  destruct (_ =? _) eqn:Et; cbn [negb]; zify_bool.
  2:{ apply wp_ret. by apply (post_ok Cfg SD i _ () A F). }
  unfold peerIDs. apply wp_bind, wp_bind, wp_get, wp_bind, wp_modify, wp_ret. cbn [wpk].
  match goal with |- wp _ _ ?s => assert (rel A F s) as Hr1 by rel_frame; assert (key s = key c) as Hk1 by done end.
  destruct (peers_spec A F c (rt c) Hr) as [Hnd Hids]. destruct (r_commit Hr) as [Hc _].
  destruct (_ <=? _) eqn:Em; zify_bool.
  - pose proof (leader_term_pos A F c Hi Hr Hl).
    destruct (replicas_quorum A F c _ n Hr Hl ltac:(lia) Hnd Hids Em) as (Q & HQ & Hacks).
    edestruct (commit_step A F _ n Q Hi Hr1) as (A1 & Hs1 & Hr2); [done|lia| |done|done|].
    { unfold term_at in Et. destruct (_ && _); [done|lia]. }
    apply wp_bind, wp_modify. cbn [wpk]. eapply wp_mono; [|intros o c'; by apply post_step].
    eapply wp_post_weaken; [by apply deliverCommitted_rel|]. intros a A' F' c' _ (-> & -> & Hb & ?). by split_and!.
  - rewrite u64_small by (unfold is_u64; lia). eapply wp_post_weaken; [apply IH; [done|done|lia]|].
    intros a A' F' c' _ (-> & Hb & ?). by split_and!.
Qed.

Lemma maybeAdvanceCommit_rel A F c :
  ainv A → rel A F c → role c = leader → wp maybeAdvanceCommit (post (advancing F c) A) c.
Proof.
  intros Hi Hr Hl. unfold maybeAdvanceCommit. apply wp_bind, wp_get. cbn [wpk].
  rewrite (shape_lastLogIndex F c) by apply Hr. apply advance_loop_rel; try done. lia.
Qed.

(** ** Terms and votes *)

(** What the log side of a core is. *)
Definition lkey (c : C) := (snapIndex c, commitIndex c, (lastDelivered c, committed c)).

Definition stepped_to {X} (F : list Entry) (t : Z) (c : C) : X → abs → list Entry → C → Prop :=
  λ _ A' F' c', F' = F ∧ role c' = follower ∧ term c' = t ∧ votedFor c' = noVote ∧ lkey c' = lkey c.

Lemma stepDown_rel t A F c :
  ainv A → rel A F c → is_u64 t → term c < t → wp (stepDown t) (post (stepped_to F t c) A) c.
Proof.
  intros Hi Hr Ht Hlt. unfold stepDown, abortPendingReads.
  apply wp_bind, wp_modify. cbn [wpk]. apply wp_bind, wp_modify. cbn [wpk]. apply wp_wrap, wp_zoom.
  eapply wp_mono.
  { apply (saveState_rel Cfg SD i A F (term c) (votedFor c) (role c) t noVote (snapIndex c) (lastDelivered c)).
    - apply Hr.
    - exact (sh_wf _ _ _ _ (r_shape Hr)).
    - exact (r_open Hr).
    - exact (r_disk Hr).
    - done.
    - done.
    - lia.
    - by constructor. }
  intros o d' Ho. destruct o as [[]|e| |]; [|exact Ho|done|exact Ho]. destruct Ho as [Hop Hd].
  eexists. split; [apply rtc_once; eapply as_term; [apply Hr|exact Hlt]|]. exists F. split; [|done].
  assert (grows A (status A i (Live follower (mkA t noVote F)))) as Hg by apply grows_status.
  destruct Hr. split; cbn; try done.
  - apply lookup_insert_eq.
  - by eapply disk_rel_grow.
  - destruct r_commit. split; [done|]. eapply committed_in_later, committed_in_grow; [|exact Hg|done]. lia.
  - destruct r_deliv. split; [done|]. eapply committed_in_later, committed_in_grow; [|exact Hg|done]. lia.
Qed.

(** Catching up with the term of a message. *)
Definition caught_up {X} (F : list Entry) (t : Z) (c : C) : X → abs → list Entry → C → Prop :=
  λ _ A' F' c', F' = F ∧ term c' = Z.max t (term c) ∧ lkey c' = lkey c ∧ (t ≤ term c → c' = c).

Lemma catch_up_rel t A F c :
  ainv A → rel A F c → is_u64 t →
  wp (if term c <? t then stepDown t else mret ()) (post (caught_up F t c) A) c.
Proof.
  intros Hi Hr Ht. destruct (term c <? t) eqn:E; zify_bool.
  - eapply wp_post_weaken; [by apply stepDown_rel|].
    intros a A' F' c' _ (-> & _ & Et & _ & ?). split_and!; [done|lia|done|lia].
  - apply wp_ret. apply (post_ok Cfg SD i _ () A F); [done|]. split_and!; [done|lia|done|done].
Qed.

(** ** The leader's own entries *)

Lemma ztake_all {X} (l : list X) : ztake (zlength l) l = l.
Proof. unfold ztake. apply take_ge. lia. Qed.

Lemma ztake_app_le {X} (l k : list X) n : n ≤ zlength l → ztake n (l ++ k) = ztake n l.
Proof. intros. unfold ztake. apply take_app_le. lia. Qed.

Lemma snoc_not_prefix {X} (l : list X) e : ¬ (l ++ [e]) `prefix_of` l.
Proof. intros Hp%prefix_length. rewrite length_app in Hp. simpl in Hp. lia. Qed.

(** Reserving the entry, and then holding it. *)
Lemma reserve_steps e A F c :
  ainv A → rel A F c → role c = leader →
  Term e = term c → Index e = zlength F + 1 → Index e < 2 ^ 64 - 1 → plain e →
  ∃ A1 ld, astep Cfg i A A1 ∧ a_nodes A1 !! i = a_nodes A !! i ∧ a_leads A1 !! term c = Some ld ∧
    ld_log ld = F ++ [e] ∧
    astep Cfg i A1 (status A1 i (Live leader (mkA (term c) (votedFor c) (F ++ [e])))).
Proof.
  intros Hi Hr Hl Ht Hidx Hb Hp. destruct (r_lead Hr Hl) as ((ld & Hld & Hlog) & _).
  pose proof (r_node Hr) as Hn. rewrite Hl in Hn. set (a := mkA (term c) (votedFor c) F) in *.
  eexists _, _. split; [by apply (as_reserve Cfg i A a ld e)|]. cbn. rewrite lookup_insert_eq, Hlog.
  split; [done|]. split; [done|]. split; [done|].
  match goal with |- astep _ _ ?B _ => set (A1 := B) end.
  assert (take (S (length F)) (F ++ [e]) = F ++ [e]) as Hq by (apply take_ge; rewrite length_app; simpl; lia).
  rewrite <-Hq. apply (as_adopt Cfg i A1 leader a (mkLead (ld_id ld) (ld_start ld) (F ++ [e]))); try done.
  - cbn. apply lookup_insert_eq.
  - cbn [ld_log]. rewrite Hq. apply snoc_not_prefix.
Qed.

Lemma rel_extend e A A' F c ld d :
  rel A F c → role c = leader → grows A A' → log_wf (F ++ [e]) →
  a_nodes A' !! i = Some (Live leader (mkA (term c) (votedFor c) (F ++ [e]))) →
  a_leads A' !! term c = Some ld → ld_log ld = F ++ [e] →
  d_open d → disk_rel Cfg SD A (F ++ [e]) (term c) (votedFor c) (snapIndex c) (lastDelivered c) d →
  rel A' (F ++ [e]) (c <| disk := d |> <| entries := entries c ++ [e] |>).
Proof.
  intros Hr Hl Hg Hwf Hn Hld Hlog Hop Hd. destruct (r_lead Hr Hl) as (_ & Hnx & Hm).
  destruct (r_commit Hr) as [Hc1 Hc2]. destruct (r_deliv Hr) as [Hd1 Hd2]. destruct (r_queue Hr) as [Hq1 Hq2].
  pose proof (r_shape Hr) as [_ Hs1 Hs2 Hs3].
  assert (zlength (F ++ [e]) = zlength F + 1) as HlF by (rewrite length_app; simpl; lia).
  destruct Hr. split; cbn; try done.
  - by rewrite Hl.
  - split; [done|lia| |].
    + by rewrite zdrop_app_le, Hs2 by lia.
    + by rewrite ztake_app_le by lia.
  - by eapply disk_rel_grow.
  - rewrite ztake_app_le by lia. split; [lia|by eapply committed_in_grow].
  - rewrite ztake_app_le by lia. split; [lia|by eapply committed_in_grow].
  - rewrite ztake_app_le by lia. done.
  - intros _. split_and!; [by exists ld|intros j; destruct (Hnx j); split; [lia|done]|].
    intros j. destruct (Hm j) as [?|?]; [by left|right; by eapply acked_grow].
  - intros ?. congruence.
  - eapply Forall_impl; [done|]. intros. by eapply out_rel_grow.
Qed.

Lemma append_own e A F c :
  ainv A → rel A F c → role c = leader →
  Term e = term c → Index e = zlength F + 1 → Index e < 2 ^ 64 - 1 → plain e →
  wp (zoom disk (logAppend [e])) (λ o c',
    match o with
    | Ok _ => ∃ A' d', asteps A A' ∧ c' = c <| disk := d' |> ∧
        rel A' (F ++ [e]) (c <| disk := d' |> <| entries := entries c ++ [e] |>)
    | Panic => False
    | _ => ∃ A', asteps A A' ∧ dead A' (disk c')
    end) c.
Proof.
  intros Hi Hr Hl Ht Hidx Hb Hp.
  destruct (reserve_steps e A F c Hi Hr Hl Ht Hidx Hb Hp) as (A1 & ld & Hst1 & Hn1 & Hld1 & Hlog1 & Hst2).
  pose proof (astep_grows _ _ _ _ Hi Hst1) as Hg1. pose proof (astep_inv _ _ _ _ Hi Hst1) as Hi1.
  pose proof (r_shape Hr) as [Hwf Hs1 _ _]. destruct (r_deliv Hr) as [Hd _].
  assert (log_wf (F ++ [e])) as Hwf'.
  { rewrite <-(ztake_all F) at 1. apply log_wf_take_snoc; try done; lia. }
  apply wp_zoom. eapply wp_mono.
  { apply (logAppend_rel Cfg SD A F (term c) (votedFor c) (snapIndex c) (lastDelivered c) (zlength F));
      try done; [apply Hr|apply Hr|lia|by rewrite ztake_all]. }
  rewrite ztake_all. intros o d' Ho.
  destruct o as [[]|er| |]; [|..|done|].
  { destruct Ho as [Hop Hd']. eexists _, d'. split; [eapply rtc_l; [exact Hst1|by apply rtc_once]|]. split; [done|].
    apply (rel_extend e A _ F c ld); try done.
    - eapply grows_trans; [exact Hg1|apply grows_status].
    - cbn. apply lookup_insert_eq. }
  all: destruct Ho as [Hw Hd']; edestruct (crash_dead Cfg SD i A1) as (A' & Hs' & Hde);
    [rewrite Hn1; apply Hr|exact Hw| |exists A'; split; [by eapply rtc_l|exact Hde]];
    intros t v s l Hms Hss Hll Hst; destruct (Hd' t v s l Hms Hss Hll Hst) as (-> & -> & F' & HF' & Hsr & Hlz);
    exists F'; (split; [|split; [by eapply snap_rel_grow|done]]);
    destruct HF' as [->|(n & Hn & ->)]; [by left|right]; simpl in Hn; assert (n = 1%nat) as -> by lia;
    assert (take (S (length F)) (F ++ [e]) = F ++ [e]) as Hq by (apply take_ge; rewrite length_app; simpl; lia);
    simpl; rewrite <-Hq, <-Hlog1; apply (move_adopt A1 i (mkA (term c) (votedFor c) F) ld); try done;
    rewrite Hlog1, Hq; apply snoc_not_prefix.
Qed.
End steps.
