(* ===== verification/CoreElections.v ===== *)
(** * Elections, as steps of the specification

    Campaigns, votes and their counting: the handlers of core.go and of
    leadership.go's pre-vote. *)

From stdpp Require Import prelude gmap strings sorting.
From S2P Require Import Prelude GoRuntime GoBytes RaftTypes Membership RaftLaws Core CoreVotes RaftSpec CoreLog.
From S2P Require Import CoreRefine CoreSteps.
Open Scope Z_scope.

#[local] Arguments map_get : simpl never.

Section elections.
Context {D : Type} `{RaftDiskLaws D} `{GoRuntime}.
Context (Cfg : Members) (SD : list Entry → bytes → Prop).
Context (i : Z) (i_nonzero : i ≠ noVote) (i_u64 : is_u64 i) (i_member : i ∈ dom Cfg).

Abbreviation C := (core D).
Abbreviation rel := (rel Cfg SD i).
Abbreviation post := (post Cfg SD i).
Abbreviation dead := (dead Cfg SD i).
Abbreviation out_rel := (out_rel Cfg SD).
Abbreviation asteps := (asteps Cfg i).
Abbreviation ainv := (ainv Cfg).
Abbreviation committed_in := (committed_in Cfg).

(** The entries handed over so far stay handed over. *)
Definition handed {X} (b : Z) : X → abs → list Entry → C → Prop := λ _ _ _ c', qbase c' = b.

Lemma key_handed (c c' : C) : key c' = key c → qbase c' = qbase c.
Proof. intros (_ & _ & H2 & H3)%key_eq. unfold qbase. by rewrite H2, H3. Qed.

Lemma quiet_handed {X} (m : M C X) A F c b :
  qbase c = b → wp m (post (quiet A F c) A) c → wp m (post (handed b) A) c.
Proof.
  intros Hb Hm. eapply wp_post_weaken; [exact Hm|]. intros a A' F' c' _ (-> & -> & Hk).
  unfold handed. rewrite <-Hb. by apply key_handed.
Qed.

Lemma handed_ret {X} (a : X) A F c b : rel A F c → qbase c = b → wp (mret a) (post (handed b) A) c.
Proof. intros. apply wp_ret. by apply (post_ok Cfg SD i _ a A F). Qed.

(** A change of role, term or vote that leaves the log alone. *)
Definition rkey (c : C) := (cfg c, members c, snapConfig c, (entries c, snapIndex c, snapTerm c),
  (commitIndex c, (lastDelivered c, committed c)), (outbox c, pendingRestore c)).

Lemma rel_update A A' F (c c' : C) :
  rel A F c → grows A A' → rkey c' = rkey c →
  a_nodes A' !! i = Some (Live (role c') (mkA (term c') (votedFor c') F)) →
  (role c' ≠ follower → votedFor c' = i) →
  is_u64 (term c') ∧ is_u64 (votedFor c') → term c ≤ term c' → d_open (disk c') →
  disk_rel Cfg SD A F (term c') (votedFor c') (snapIndex c) (lastDelivered c) (disk c') →
  (role c' = leader →
    (∃ ld, a_leads A' !! term c' = Some ld ∧ ld_log ld = F) ∧
    next_ok Cfg i F (nextIndex c') ∧
    (∀ j, map_get (matchIndex c') j = 0 ∨ acked A' j (term c') (map_get (matchIndex c') j))) →
  (role c' = candidate → ∃ vs, votes c' = Some vs ∧
    ∀ v, v ∈ vs → v ∈ dom Cfg ∧ ∃ l, (v, term c', i, l) ∈ a_votes A') →
  rel A' F c'.
Proof.
  intros [] Hg Hk Hn Hself Hu Ht Hop Hd Hl Hv. injection Hk. intros E1 E2 E3 E4 E5 E6 E7 E8 E9 E10 E11.
  split; rewrite ?E1, ?E2, ?E3, ?E4, ?E5, ?E6, ?E7, ?E8, ?E9, ?E10, ?E11; try done.
  - by eapply disk_rel_grow.
  - destruct r_commit. split; [done|]. eapply committed_in_later; [exact Ht|by eapply committed_in_grow].
  - destruct r_deliv. split; [done|]. eapply committed_in_later; [exact Ht|by eapply committed_in_grow].
  - eapply Forall_impl; [done|]. intros. by eapply out_rel_grow.
Qed.

Lemma rkey_eq (c c' : C) :
  rkey c' = rkey c → cfg c' = cfg c ∧ members c' = members c ∧ qbase c' = qbase c ∧ snapIndex c' = snapIndex c ∧
  lastDelivered c' = lastDelivered c ∧ ∀ F, shape F c → shape F c'.
Proof.
  intros Hk. injection Hk. intros E1 E2 E3 E4 E5 E6 E7 E8 E9 E10 E11. unfold qbase.
  rewrite E3, E4, E6, E7, E8, E10, E11. done.
Qed.

(** ** Winning *)

Lemma map_get_const (ids : list Z) v j :
  0 ≤ v → 0 ≤ map_get (Some (list_to_map ((λ id, (id, v)) <$> ids))) j ≤ v ∧
    (j ∈ ids → map_get (Some (list_to_map ((λ id, (id, v)) <$> ids))) j = v).
Proof.
  intros Hv. unfold map_get. cbn. destruct (list_to_map _ !! j) as [x|] eqn:E; cbn.
  - apply elem_of_list_to_map_2, list_elem_of_fmap in E as (id & [= _ ->] & _). lia.
  - split; [lia|]. intros Hj. apply not_elem_of_list_to_map_2 in E. destruct E.
    rewrite <-list_fmap_compose. apply list_elem_of_fmap. by exists j.
Qed.

Lemma elect_steps A F c :
  ainv A → rel A F c → role c = candidate → quorum Cfg ≤ set_len (votes c) →
  ∃ A', astep Cfg i A A' ∧ a_nodes A' !! i = Some (Live leader (mkA (term c) (votedFor c) F)) ∧
    ∃ ld, a_leads A' !! term c = Some ld ∧ ld_log ld = F.
Proof.
  intros Hi Hr Hc Hq. destruct (r_votes Hr Hc) as (vs & Hvs & Hev). rewrite Hvs in Hq. simpl in Hq.
  pose proof (r_node Hr) as Hn. rewrite Hc in Hn. eexists. split.
  { eapply (as_elect Cfg i A _ vs); [exact Hn|split; [|done]|]; intros v Hv; by apply Hev in Hv as [? ?]. }
  cbn. rewrite !lookup_insert_eq. eauto.
Qed.

Lemma maybeWinElection_rel A F c b :
  ainv A → rel A F c → zlength F < 2 ^ 64 - 2 → qbase c = b → wp maybeWinElection (post (handed b) A) c.
Proof.
  intros Hi Hr HF Hb. unfold maybeWinElection. apply wp_bind, wp_get. cbn [wpk].
  destruct (_ || _) eqn:E; [by eapply handed_ret|]. apply orb_false_iff in E as [Hc%negb_false_iff%bool_decide_eq_true Hq%Z.ltb_ge].
  unfold majority in Hq. rewrite (proj1 (r_members Hr)) in Hq. fold (quorum Cfg) in Hq.
  destruct (elect_steps A F c Hi Hr Hc Hq) as (A1 & Hst & Hn1 & ld & Hld & Hlog).
  pose proof (astep_inv _ _ _ _ Hi Hst) as Hi1. pose proof (astep_grows _ _ _ _ Hi Hst) as Hg1.
  eapply wp_mono; [|intros o c'; apply (post_step Cfg SD i); by apply rtc_once].
  pose proof (r_shape Hr) as Hsh. pose proof (sh_snap _ _ _ _ Hsh) as Hsn.
  apply wp_bind, wp_modify. cbn [wpk]. unfold peerIDs.
  apply wp_bind, wp_bind, wp_get, wp_bind, wp_modify, wp_ret. cbn [wpk].
  apply wp_bind, wp_get. cbn [wpk]. apply wp_bind, wp_modify. cbn [wpk]. cbv zeta.
  match goal with |- context [filter ?P ?l] =>
    assert (∀ j, j ∈ dom Cfg → j ≠ i → j ∈ filter P l) as Hids; [|revert Hids; generalize (filter P l); intros ids Hids] end.
  { intros j Hj Hji. apply list_elem_of_filter. cbn. rewrite (r_id Hr), map_order_perm, elem_of_elements, (proj1 (r_members Hr)).
    done. }
  match goal with |- context [lastLogIndex ?x] =>
    assert (lastLogIndex x = zlength F) as -> by (by apply (shape_lastLogIndex F)) end.
  rewrite (u64_small (zlength F + 1)) by (unfold is_u64; lia).
  match goal with |- context [mkEntry ?t _ _ _] => change t with (term c) end.
  match goal with |- wp _ _ ?s =>
    assert (rel A1 F s ∧ role s = leader ∧ term s = term c ∧ qbase s = b) as Hs; [|revert Hs; generalize s] end.
  { split_and!; try done. apply (rel_update A A1 F c); try done; cbn; try apply Hr; try done.
    - intros _. apply (r_self Hr). congruence.
    - intros _. split_and!; [by eauto| |by left]. intros j. destruct (map_get_const ids (zlength F + 1) j) as [Hj1 Hj2]; [lia|].
      split; [done|]. intros Hj Hji. rewrite Hj2; [lia|by apply Hids]. }
  clear Hb. intros c1 (Hr1 & Hl1 & Ht1 & Hb).
  assert (plain (mkEntry (term c) (zlength F + 1) ENTRY_TYPE_NOOP [])) as Hp.
  { apply plain_new; [apply Hr|unfold is_u64; lia|by right|done]. }
  apply wp_bind, wp_wrap. eapply wp_mono.
  { apply (append_own Cfg SD i _ _ _ _ Hi1 Hr1); [done|by rewrite Ht1|done|cbn; lia|done]. }
  intros o c2 Ho. destruct o as [[]|e| |]; cbn [wpk]; [|exact Ho|done|exact Ho].
  destruct Ho as (A2 & d' & Hs2 & -> & Hr2). destruct (asteps_spec _ _ _ _ Hi1 Hs2) as (Hi2 & _).
  eapply wp_mono; [|intros o c'; by apply (post_step Cfg SD i)].
  apply wp_bind, wp_modify. cbn [wpk].
  eapply wp_quiet_bind; [by apply broadcastAppends_quiet|]. intros [] c3 Hr3 Hk3.
  eapply wp_post_weaken; [apply maybeAdvanceCommit_rel; try done|].
  { by apply key_role in Hk3 as [-> _]. }
  intros a A' F' c' _ (_ & _ & Hq'). unfold handed. rewrite Hq', (key_handed _ _ Hk3). exact Hb.
Qed.

(** ** Campaigning *)

Lemma startCampaign_rel A F c b :
  ainv A → rel A F c → term c < 2 ^ 64 - 1 → zlength F < 2 ^ 64 - 2 → qbase c = b →
  wp startCampaign (post (handed b) A) c.
Proof.
  intros Hi Hr Hb HF Hq. destruct (r_u64 Hr) as [Ht Hv]. pose proof (r_id Hr) as Hid.
  assert (u64 (term c + 1) = term c + 1) as Hu by (apply u64_small; unfold is_u64 in *; lia).
  unfold startCampaign. apply wp_bind, wp_modify. cbn [wpk]. apply wp_bind, wp_resetElectionTimer.
  { by apply (post_fail Cfg SD i _ A F c). }
  intros n. cbn [wpk]. match goal with |- wp _ _ ?s =>
    assert (role s = candidate ∧ term s = u64 (term c + 1) ∧ votedFor s = ID (cfg c) ∧
      votes s = Some {[ID (cfg c)]} ∧ rkey s = rkey c ∧ disk s = disk c) as Hs by done; revert Hs; generalize s end.
  rewrite Hu, Hid. intros c1 (Hro & Hte & Hvo & Hvs & Hk1 & Hdk). apply wp_bind, wp_get. cbn [wpk].
  destruct (rkey_eq _ _ Hk1) as (Hcf & _ & Hq1 & Hsi & Hld & Hsh1).
  apply wp_bind, wp_wrap, wp_zoom. rewrite Hte, Hvo, Hdk. eapply wp_mono.
  { apply (saveState_rel Cfg SD i A F (term c) (votedFor c) (role c) (term c + 1) i (snapIndex c) (lastDelivered c)).
    - apply Hr.
    - exact (sh_wf _ _ _ _ (r_shape Hr)).
    - exact (r_open Hr).
    - exact (r_disk Hr).
    - unfold is_u64 in *. lia.
    - done.
    - lia.
    - apply (move_campaign A i (mkA (term c) (votedFor c) F)). }
  intros o d' Ho. destruct o as [[]|e| |]; cbn [wpk]; [|exact Ho|done|exact Ho]. destruct Ho as [Hop Hd].
  pose proof (as_campaign Cfg i A _ _ (r_node Hr) i_nonzero (proj1 Ht)) as Hst. cbn in Hst.
  match type of Hst with astep _ _ _ ?B => set (A1 := B) in * end.
  pose proof (astep_inv _ _ _ _ Hi Hst) as Hi1. pose proof (astep_grows _ _ _ _ Hi Hst) as Hg1.
  eapply wp_mono; [|intros o c'; apply (post_step Cfg SD i); by apply rtc_once].
  assert (rel A1 F (c1 <| disk := d' |>)) as Hr1.
  { apply (rel_update A A1 F c); try done; cbn; rewrite ?Hro, ?Hte, ?Hvo, ?Hvs; try done.
    - apply lookup_insert_eq.
    - unfold is_u64 in *. lia.
    - lia.
    - intros _. eexists. split; [done|]. intros v ->%elem_of_singleton. split; [done|].
      exists F. cbn. by left. }
  assert (∀ to, out_rel A1 i (OutRequestVote to (vote_request c1 (term c + 1) false))) as Hout.
  { intros to. cbn. intros _. rewrite Hcf, Hid. exists F. split; [by left|]. split; [done|].
    split; [apply (shape_lastLogIndex F)|apply (shape_lastLogTerm F)]; apply Hsh1, Hr. }
  assert (qbase (c1 <| disk := d' |>) = b) as Hb1 by (by rewrite <-Hq, <-Hq1).
  eapply wp_quiet_bind; [by apply peerIDs_quiet|]. intros ids c2 Hr2 Hk2.
  eapply wp_quiet_bind; [apply wp_quiet_for_each; [exact Hr2|]; intros; by apply send_quiet|].
  intros [] c3 Hr3 Hk3. apply (maybeWinElection_rel A1 F); try done.
  by rewrite (key_handed _ _ Hk3), (key_handed _ _ Hk2).
Qed.

Lemma maybeWinPreVote_rel A F c b :
  ainv A → rel A F c → term c < 2 ^ 64 - 1 → zlength F < 2 ^ 64 - 2 → qbase c = b →
  wp maybeWinPreVote (post (handed b) A) c.
Proof.
  intros Hi Hr Hb HF Hq. unfold maybeWinPreVote. apply wp_bind, wp_get. cbn [wpk].
  destruct (preVotes c); [|by eapply handed_ret]. destruct (_ <? _); [by eapply handed_ret|].
  apply wp_bind, wp_modify. cbn [wpk]. apply (startCampaign_rel A F); try done. rel_frame.
Qed.

Lemma startPreCampaign_rel A F c b :
  ainv A → rel A F c → term c < 2 ^ 64 - 1 → zlength F < 2 ^ 64 - 2 → qbase c = b →
  wp startPreCampaign (post (handed b) A) c.
Proof.
  intros Hi Hr Hb HF Hq. unfold startPreCampaign. apply wp_bind, wp_modify. cbn [wpk].
  match goal with |- wp _ _ ?s => assert (rel A F s ∧ key s = key c) as [Hr1 Hk1] by (split; [rel_frame|done]);
    revert Hr1 Hk1; generalize s; intros c1 Hr1 Hk1 end.
  eapply wp_quiet_bind; [by apply resetElectionTimer_quiet|]. intros [] c2 Hr2 Hk2.
  apply wp_bind, wp_get. cbn [wpk]. eapply wp_quiet_bind; [by apply peerIDs_quiet|]. intros ids c3 Hr3 Hk3.
  eapply wp_quiet_bind; [apply wp_quiet_for_each; [exact Hr3|]; intros; by apply send_quiet|].
  intros [] c4 Hr4 Hk4. assert (key c4 = key c) as Hk by congruence.
  destruct (key_role _ _ Hk) as [_ Ht]. apply (maybeWinPreVote_rel A F); try done.
  - by rewrite Ht.
  - by rewrite (key_handed _ _ Hk).
Qed.

Lemma stepDown_handed t A F c b :
  ainv A → rel A F c → is_u64 t → term c < t → qbase c = b → wp (stepDown t) (post (handed b) A) c.
Proof.
  intros Hi Hr Ht Hlt Hb. eapply wp_post_weaken; [by apply stepDown_rel|].
  intros a A' F' c' _ (_ & _ & _ & _ & Hk). injection Hk. intros E1 E2 _ _. unfold handed, qbase in *. by rewrite E1, E2.
Qed.

Lemma handlePreVoteResponse_rel from asked resp A F c b :
  ainv A → rel A F c → is_u64 (rvr_term resp) → term c < 2 ^ 64 - 1 → zlength F < 2 ^ 64 - 2 → qbase c = b →
  wp (handlePreVoteResponse from asked resp) (post (handed b) A) c.
Proof.
  intros Hi Hr Ht Hb HF Hq. unfold handlePreVoteResponse. apply wp_bind, wp_get. cbn [wpk].
  destruct (_ <? _) eqn:E; zify_bool; [by apply (stepDown_handed _ A F)|].
  destruct (_ || _); [by eapply handed_ret|]. destruct (rvr_voteGranted resp); [|by eapply handed_ret].
  apply wp_bind, wp_lift. destruct (set_put _ _) as [pv| | |]; cbn [wpk]; try by apply (post_fail Cfg SD i _ A F c).
  apply wp_bind, wp_modify. cbn [wpk]. apply (maybeWinPreVote_rel A F); try done. rel_frame.
Qed.

Lemma handleVoteResponse_rel from campaign resp A F c b :
  ainv A → rel A F c → is_u64 (rvr_term resp) → from ∈ dom Cfg → zlength F < 2 ^ 64 - 2 → qbase c = b →
  (rvr_voteGranted resp = true → ∃ l, (from, campaign, i, l) ∈ a_votes A) →
  wp (handleVoteResponse from campaign resp) (post (handed b) A) c.
Proof.
  intros Hi Hr Ht Hfrom HF Hq HE. unfold handleVoteResponse. apply wp_bind, wp_get. cbn [wpk].
  destruct (_ <? _) eqn:E; zify_bool; [by apply (stepDown_handed _ A F)|].
  destruct (_ || _) eqn:E1; [by eapply handed_ret|]. destruct (rvr_voteGranted resp); [|by eapply handed_ret].
  apply orb_false_iff in E1 as [Hc%negb_false_iff%bool_decide_eq_true Hct%negb_false_iff%Z.eqb_eq]. subst campaign.
  destruct (r_votes Hr Hc) as (vs & Hvs & Hev). rewrite Hvs. cbn [set_put].
  apply wp_bind, wp_lift. cbn [wpk]. apply wp_bind, wp_modify. cbn [wpk].
  apply (maybeWinElection_rel A F); try done. destruct Hr; split; cbn; try done.
  intros _. eexists. split; [done|]. intros v [->%elem_of_singleton|?]%elem_of_union; [auto|by apply Hev].
Qed.

Lemma tick_rel A F c b :
  ainv A → rel A F c → term c < 2 ^ 64 - 1 → zlength F < 2 ^ 64 - 2 → qbase c = b →
  wp tick (post (handed b) A) c.
Proof.
  intros Hi Hr Hb HF Hq. unfold tick. apply wp_bind, wp_get. cbn [wpk]. case_bool_decide as Hl.
  - do 3 (apply wp_bind, wp_modify; cbn [wpk]).
    match goal with |- wp _ _ ?s => assert (rel A F s ∧ key s = key c) as [Hr1 Hk1];
      [|revert Hr1 Hk1; generalize s; intros c1 Hr1 Hk1] end.
    { cbn. destruct (_ =? 0); [|destruct (_ <=? _)]; (split; [rel_frame|done]). }
    apply wp_bind, wp_get. cbn [wpk]. destruct (_ <=? _).
    + apply wp_bind, wp_modify. cbn [wpk]. eapply quiet_handed; [|apply broadcastAppends_quiet; [rel_frame|]].
      * by rewrite <-Hq, <-(key_handed _ _ Hk1).
      * cbn. by apply key_role in Hk1 as [-> _].
    + eapply handed_ret; [done|]. by rewrite (key_handed _ _ Hk1).
  - apply wp_bind, wp_modify. cbn [wpk].
    match goal with |- wp _ _ ?s => assert (rel A F s ∧ key s = key c) as [Hr1 Hk1] by (split; [rel_frame|done]);
      revert Hr1 Hk1; generalize s; intros c1 Hr1 Hk1 end.
    pose proof (key_handed _ _ Hk1) as Hq1. destruct (key_role _ _ Hk1) as [_ Ht1].
    apply wp_bind, wp_get. cbn [wpk]. destruct (_ <=? _); [|by eapply handed_ret; [|congruence]].
    destruct (negb _); [eapply quiet_handed; [|by apply resetElectionTimer_quiet]; congruence|].
    destruct (DisablePreVote _); [apply (startCampaign_rel A F)|apply (startPreCampaign_rel A F)]; try done; congruence || lia.
Qed.

Lemma lkey_handed (c c' : C) : lkey c' = lkey c → qbase c' = qbase c.
Proof. intros Hk. injection Hk. intros E1 E2 _ _. unfold qbase. by rewrite E1, E2. Qed.

Lemma handleTimeoutNow_rel req A F c b :
  ainv A → rel A F c → 0 ≤ tn_term req < 2 ^ 64 - 1 → term c < 2 ^ 64 - 1 → zlength F < 2 ^ 64 - 2 → qbase c = b →
  wp (handleTimeoutNow req) (post (handed b) A) c.
Proof.
  intros Hi Hr Ht Hb HF Hq. unfold handleTimeoutNow. apply wp_bind, wp_get. cbn [wpk].
  eapply (wp_post_bind Cfg SD i); [done|apply catch_up_rel; try done; unfold is_u64; lia|].
  intros _ A1 F1 c1 _ Hi1 _ Hr1 (-> & Ht1 & Hk1 & _). apply lkey_handed in Hk1.
  apply wp_bind, wp_get. cbn [wpk]. destruct (_ <? _); [eapply handed_ret; [done|congruence]|].
  apply (startCampaign_rel A1 F); try done; [lia|congruence].
Qed.

(** ** Voting *)

(** A granted vote is in the history. *)
Definition voted (req : RequestVoteRequest) (b : Z) : RequestVoteResponse → abs → list Entry → C → Prop :=
  λ resp A' _ c', qbase c' = b ∧ is_u64 (rvr_term resp) ∧
    (rvr_voteGranted resp = true → rv_preVote req = false →
     ∃ l, (i, rv_term req, rv_candidateId req, l) ∈ a_votes A').

Lemma announce_rel req cl A F c b :
  ainv A → rel A F c → qbase c = b → term c = rv_term req → votedFor c = rv_candidateId req →
  rv_candidateId req ≠ noVote → (rv_term req, rv_candidateId req, cl) ∈ a_cands A → up_to_date cl F →
  wp (resetElectionTimer;; mret (mkRVR (rv_term req) true)) (post (voted req b) A) c.
Proof.
  intros Hi Hr Hb Ht Hv Hv0 Hcl Hup. rewrite <-Ht, <-Hv in *.
  pose proof (as_announce Cfg i A _ _ cl (r_node Hr) Hv0 Hcl Hup) as Hst. cbn in Hst.
  match type of Hst with astep _ _ _ ?B => set (A1 := B) in * end.
  assert (rel A1 F c) as Hr1 by (apply (rel_grow Cfg SD i A); [by eapply astep_grows|done..]).
  eapply wp_mono; [|intros o c'; apply (post_step Cfg SD i); by apply rtc_once].
  eapply wp_quiet_bind; [by apply resetElectionTimer_quiet|]. intros [] c2 Hr2 Hk2. apply wp_ret.
  apply (post_ok Cfg SD i _ _ A1 F); [done|]. split; [by rewrite (key_handed _ _ Hk2)|]. split; [apply Hr|].
  intros _ _. exists F. rewrite <-Ht, <-Hv. cbn. by left.
Qed.

Lemma voted_ret req resp A F c b :
  rel A F c → qbase c = b → is_u64 (rvr_term resp) →
  (rvr_voteGranted resp = true → rv_preVote req = true) → wp (mret resp) (post (voted req b) A) c.
Proof.
  intros Hr Hb Ht Hg. apply wp_ret. apply (post_ok Cfg SD i _ _ A F); [done|]. split_and!; try done.
  intros Hgr Hp. rewrite Hg in Hp by done. done.
Qed.

Lemma handleRequestVote_rel req from to A F c b :
  ainv A → rel A F c → is_u64 (rv_term req) → is_u64 (rv_candidateId req) → rv_candidateId req ≠ noVote →
  out_rel A from (OutRequestVote to req) → qbase c = b →
  wp (handleRequestVote req) (post (voted req b) A) c.
Proof.
  intros Hi Hr Ht Hcu Hc0 Hout Hb. unfold handleRequestVote. apply wp_bind, wp_get. cbn [wpk].
  destruct (rv_preVote req) eqn:Hpre.
  { eapply voted_ret; try done. unfold handlePreVote. destruct (_ && _); apply Hr. }
  destruct (Hout Hpre) as (cl & Hcl & Hcand & Hli & Hlt). rewrite <-Hcand in Hcl.
  eapply (wp_post_bind Cfg SD i); [done|by apply catch_up_rel|].
  intros _ A1 F1 c1 _ Hi1 Hg1 Hr1 (-> & Ht1 & Hk1 & _). apply lkey_handed in Hk1.
  assert (qbase c1 = b) as Hb1 by congruence. apply (gr_cands _ _ Hg1) in Hcl.
  apply wp_bind, wp_get. cbn [wpk]. destruct (_ <? _) eqn:E; zify_bool.
  { eapply voted_ret; try done. apply Hr1. }
  assert (term c1 = rv_term req) as Htr by lia. rewrite Htr, Hli, Hlt.
  destruct (_ && _) eqn:E1; [|eapply voted_ret; try done].
  apply andb_true_iff in E1 as [Hcan Hup]. apply (shape_logUpToDate F) in Hup; [|apply Hr1].
  apply wp_bind. destruct (votedFor c1 =? rv_candidateId req) eqn:Heq; cbn [negb]; zify_bool.
  { apply wp_ret. cbn [wpk]. by apply (announce_rel req cl A1 F). }
  apply orb_true_iff in Hcan as [Hno|?]; [|done]. apply Z.eqb_eq in Hno.
  assert (role c1 = follower) as Hf.
  { destruct (decide (role c1 = follower)) as [|Hne]; [done|]. apply (r_self Hr1) in Hne. congruence. }
  apply wp_bind, wp_modify. cbn [wpk]. apply wp_zoom. eapply wp_mono.
  { apply (saveState_rel Cfg SD i A1 F (term c1) (votedFor c1) (role c1) (rv_term req) (rv_candidateId req)
      (snapIndex c1) (lastDelivered c1)).
    - apply Hr1.
    - exact (sh_wf _ _ _ _ (r_shape Hr1)).
    - exact (r_open Hr1).
    - exact (r_disk Hr1).
    - done.
    - done.
    - lia.
    - rewrite <-Htr. by apply (move_vote A1 i (mkA (term c1) (votedFor c1) F)). }
  intros o d' Ho. destruct o as [[]|e| |]; cbn [wpk]; [|exact Ho|done|exact Ho]. destruct Ho as [Hop Hd].
  pose proof (r_node Hr1) as Hn. rewrite Hf in Hn.
  pose proof (as_vote Cfg i A1 _ (rv_candidateId req) Hn Hno) as Hst. cbn in Hst.
  match type of Hst with astep _ _ _ ?B => set (A2 := B) in * end.
  pose proof (astep_inv _ _ _ _ Hi1 Hst) as Hi2.
  eapply wp_mono; [|intros o c'; apply (post_step Cfg SD i); by apply rtc_once].
  apply (announce_rel req cl A2 F); try done.
  apply (rel_update A1 A2 F c1); try done; cbn; rewrite ?Htr; try done; try congruence.
  - apply grows_status.
  - rewrite Hf. apply lookup_insert_eq.
Qed.
End elections.
