(* ===== verification/CoreReplicate.v ===== *)
(** * Replication, as steps of the specification

    The follower's and the leader's side of replication.go, with
    leadership.go's transfer and readindex.go's requests. *)

From stdpp Require Import prelude gmap strings sorting.
From S2P Require Import Prelude GoRuntime GoBytes RaftTypes Membership RaftLaws Core CoreVotes RaftSpec CoreLog.
From S2P Require Import CoreRefine CoreSteps CoreElections.
Open Scope Z_scope.

#[local] Arguments map_get : simpl never.

Section replicate.
Context {D : Type} `{RaftDiskLaws D} `{GoRuntime}.
Context (Cfg : Members) (SD : list Entry → bytes → Prop).
Context (i : Z) (i_member : i ∈ dom Cfg).

Abbreviation C := (core D).
Abbreviation rel := (rel Cfg SD i).
Abbreviation post := (post Cfg SD i).
Abbreviation dead := (dead Cfg SD i).
Abbreviation out_rel := (out_rel Cfg SD).
Abbreviation asteps := (asteps Cfg i).
Abbreviation ainv := (ainv Cfg).
Abbreviation committed_in := (committed_in Cfg).

(** ** The membership does not change *)

Lemma shape_plain F (c : C) : shape F c → Forall plain (entries c).
Proof.
  intros [Hwf _ -> _]. apply Forall_lookup_2. intros k e Hk. unfold zdrop in Hk. rewrite lookup_drop in Hk.
  by apply Hwf in Hk as (_ & _ & ?).
Qed.

Lemma recalcConfig_quiet A F c : rel A F c → wp recalcConfig (post (quiet A F c) A) c.
Proof.
  intros Hr. apply wp_quiet_modify; [|done]. pose proof (shape_plain F c (r_shape Hr)) as Hp.
  destruct Hr; split; cbn; try done. rewrite fold_members_plain by done. by destruct r_members.
Qed.

Lemma noteAppendedConfigs_quiet l A F c :
  rel A F c → Forall plain l → wp (noteAppendedConfigs l) (post (quiet A F c) A) c.
Proof.
  intros Hr Hl. unfold noteAppendedConfigs. apply wp_quiet_for_each; [done|].
  intros e c1 He Hr1 _. rewrite Forall_forall in Hl. destruct (Hl e He) as [_ Hne].
  rewrite (proj2 (Z.eqb_neq _ _)) by done. by apply wp_quiet_ret.
Qed.

(** ** Recognizing the leader *)

Definition following {X} (F : list Entry) (c : C) : X → abs → list Entry → C → Prop :=
  λ _ A' F' c', F' = F ∧ role c' = follower ∧ term c' = term c ∧ lkey c' = lkey c.

Lemma recognize_leader_rel id A F c :
  ainv A → rel A F c → wp (recognize_leader id) (post (following F c) A) c.
Proof.
  intros Hi Hr. unfold recognize_leader. apply wp_bind, wp_modify. cbn [wpk].
  match goal with |- wp _ _ ?s => assert (∃ A1, asteps A A1 ∧ rel A1 F s ∧ role s = follower ∧ term s = term c ∧ lkey s = lkey c)
    as (A1 & Hs1 & Hr1 & Hf & Ht & Hk); [|revert Hr1 Hf Ht Hk; generalize s; intros c1 Hr1 Hf Ht Hk] end.
  { case_bool_decide as Hf; [exists A; split; [apply rtc_refl|done]|].
    pose proof (as_follow Cfg i A _ _ (r_node Hr)) as Hst. eexists. split; [by apply rtc_once|].
    split; [|done]. apply (rel_update Cfg SD i A _ F c); try done; try apply Hr; cbn.
    - apply grows_status.
    - apply lookup_insert_eq. }
  eapply wp_mono; [|intros o c'; by apply (post_step Cfg SD i)].
  apply wp_bind, wp_modify. cbn [wpk].
  match goal with |- wp _ _ ?s => assert (rel A1 F s) as Hr2 by rel_frame; assert (key s = key c1) as Hk2 by done;
    revert Hr2 Hk2; generalize s; intros c2 Hr2 Hk2 end.
  eapply wp_quiet_bind; [by apply resetElectionTimer_quiet|]. intros [] c3 Hr3 Hk3.
  apply wp_modify. apply (post_ok Cfg SD i _ () A1 F); [rel_frame|].
  assert (key c3 = key c1) as Hk13 by congruence. destruct (key_role _ _ Hk13) as [? ?].
  split_and!; [done|cbn; congruence|cbn; congruence|].
  apply key_eq in Hk13 as (Hb & Hci & Hld & Hcm). apply bkey_eq in Hb as (_ & _ & _ & _ & Hsi & _).
  unfold lkey in *. cbn. congruence.
Qed.

(** ** The follower's log *)

Lemma take_app_prefix (L rest : list Entry) f :
  0 ≤ f ≤ zlength L → rest `prefix_of` zdrop f L → ztake f L ++ rest = ztake (f + zlength rest) L.
Proof.
  intros Hf [x Hx]. unfold ztake, zdrop in *. transitivity (take (Z.to_nat (f + zlength rest)) (take (Z.to_nat f) L ++ drop (Z.to_nat f) L)); [|by rewrite take_drop].
  rewrite Hx.
  rewrite app_assoc, take_app_le; [|rewrite length_app, length_take; lia].
  rewrite (take_ge (_ ++ _)); [done|]. rewrite length_app, length_take. lia.
Qed.

Lemma rest_head (L rest : list Entry) f e r :
  0 ≤ f → rest `prefix_of` zdrop f L → rest = e :: r → L !! Z.to_nat f = Some e ∧ f < zlength L.
Proof.
  intros Hf Hp ->. assert (zdrop f L !! 0%nat = Some e) as Hz by (eapply prefix_lookup_1; [exact Hp|done]).
  unfold zdrop in Hz. rewrite lookup_drop, Nat.add_0_r in Hz. split; [done|]. apply lookup_lt_Some in Hz. lia.
Qed.

Lemma nonempty_cons {X} (l : list X) : l ≠ [] → ∃ x k, l = x :: k.
Proof. destruct l as [|x k]; [done|by eauto]. Qed.

(** The log becomes [F1], a prefix of the leader's. *)
Definition adopted {X} (ld : lead) (F1 : list Entry) (c : C) : X → abs → list Entry → C → Prop :=
  λ _ A' F' c', F' = F1 ∧ role c' = follower ∧ term c' = term c ∧ lkey c' = lkey c ∧
    a_leads A' !! term c' = Some ld.

Section adopt.
Context (A : abs) (F : list Entry) (c : C) (ld : lead) (f : Z) (rest : list Entry).
Context (Hi : ainv A) (Hr : rel A F c) (Hfo : role c = follower) (Hld : a_leads A !! term c = Some ld).
Context (Hf : lastDelivered c ≤ f) (Hf0 : 0 ≤ f) (Hne : rest ≠ []) (Hrest : rest `prefix_of` zdrop f (ld_log ld)).
Context (Hpre : ztake f (ld_log ld) `prefix_of` F) (Hno : ¬ ztake (f + 1) (ld_log ld) `prefix_of` F).

Lemma adopt_bounds : f < zlength (ld_log ld) ∧ f ≤ zlength F ∧ ztake f F = ztake f (ld_log ld).
Proof.
  destruct (nonempty_cons rest Hne) as (e & r & E). destruct (rest_head _ _ f e r Hf0 Hrest E) as [_ Hlt].
  destruct (proj1 (ztake_prefix_iff F (ld_log ld) f ltac:(lia)) Hpre) as [-> ?]. done.
Qed.

(** The log after some of the batch. *)
Lemma adopt_take n :
  (0 < n ≤ length rest)%nat →
  ∃ q, ztake f F ++ take n rest = take q (ld_log ld) ∧ ¬ take q (ld_log ld) `prefix_of` F.
Proof.
  intros Hn. destruct adopt_bounds as (Hb1 & Hb2 & Hb3).
  assert (take n rest `prefix_of` zdrop f (ld_log ld)) as Hp by (etrans; [apply take_prefix|done]).
  exists (Z.to_nat (f + zlength (take n rest))). rewrite Hb3, (take_app_prefix (ld_log ld)) by (done || lia).
  split; [done|]. intros Hc. apply Hno. etrans; [|exact Hc]. unfold ztake. rewrite length_take.
  eapply prefix_comparable; [apply take_prefix..|]. rewrite !length_take. lia.
Qed.

Lemma adopt_wf : log_wf (ztake f F ++ rest).
Proof.
  destruct adopt_bounds as (Hb1 & Hb2 & ->). rewrite take_app_prefix by (done || lia).
  eapply log_wf_prefix; [apply take_prefix|]. exact (lo_wf _ _ _ _ (ai_leads _ _ Hi _ _ Hld)).
Qed.

(** The core that holds the batch, when its disk does. *)
Lemma adopt_done d :
  commitIndex c ≤ f → snapIndex c ≤ f → d_open d →
  disk_rel Cfg SD A (ztake f F ++ rest) (term c) (votedFor c) (snapIndex c) (lastDelivered c) d →
  ∃ A1, asteps A A1 ∧ a_leads A1 = a_leads A ∧
    rel A1 (ztake f F ++ rest) (c <| entries := zdrop (snapIndex c) (ztake f F) ++ rest |> <| disk := d |>).
Proof.
  intros Hc Hs Hop Hd. destruct adopt_bounds as (Hb1 & Hb2 & Hb3).
  destruct (nonempty_cons rest Hne) as (e & r & E).
  destruct (adopt_take (length rest)) as (q & Hq & Hnq); [rewrite E; simpl; lia|].
  rewrite firstn_all in Hq. pose proof (r_node Hr) as Hn. eexists. split.
  { apply rtc_once, (as_adopt Cfg i A _ _ ld q Hn); [by rewrite Hfo|done|done]. }
  split; [done|]. cbn [an_term an_vote]. rewrite <-Hq. pose proof adopt_wf as Hwf.
  assert (zlength (ztake f F) = f) as Hl by (unfold ztake; rewrite length_take; lia).
  assert (∀ k, k ≤ f → ztake k (ztake f F ++ rest) = ztake k F) as Htk.
  { intros k Hk. rewrite ztake_app_le by lia. unfold ztake. rewrite take_take. f_equal. lia. }
  assert (zlength (ztake f F ++ rest) = f + zlength rest) as HlF by (rewrite length_app; lia).
  match goal with |- CoreRefine.rel _ _ _ ?B _ _ => assert (grows A B) as Hg by apply grows_status end.
  destruct (r_deliv Hr) as [? ?]. destruct Hr. split; cbn; rewrite ?Htk by lia; try done.
  - apply lookup_insert_eq.
  - destruct r_shape. split; [done|lia| |by rewrite Htk by lia]. symmetry. apply zdrop_app_le. lia.
  - by eapply disk_rel_grow.
  - destruct r_commit. split; [lia|by eapply committed_in_grow].
  - split; [lia|by eapply committed_in_grow].
  - by rewrite Hfo.
Qed.
(** Persisting the batch over the log cut at [f]. *)
Lemma adopt_persist (k : M C ()) (c1 : C) :
  commitIndex c ≤ f → snapIndex c ≤ f → c1 = c <| entries := zdrop (snapIndex c) (ztake f F) |> →
  (∀ A1 c2, asteps A A1 → rel A1 (ztake f F ++ rest) c2 → a_leads A1 = a_leads A → role c2 = follower →
    term c2 = term c → lkey c2 = lkey c → wp k (post (quiet A1 (ztake f F ++ rest) c2) A1) c2) →
  wp (wrap "raft: persisting entries: %w" (zoom disk (logAppend rest));; modify (set entries (λ l, l ++ rest));; k)
    (post (adopted ld (ztake f F ++ rest) c) A) c1.
Proof.
  intros Hc Hs -> Hk. destruct adopt_bounds as (Hb1 & Hb2 & Hb3). pose proof (r_shape Hr) as Hsh.
  apply wp_bind, wp_wrap, wp_zoom. eapply wp_mono.
  { apply (logAppend_rel Cfg SD A F (term c) (votedFor c) (snapIndex c) (lastDelivered c) f);
      [exact (r_open Hr)|exact (r_disk Hr)|apply Hsh| |done|done|apply adopt_wf].
    pose proof (sh_snap _ _ _ _ Hsh). destruct (r_deliv Hr). lia. }
  intros o d' Ho. destruct o as [[]|e| |]; cbn [wpk]; [|..|done|].
  { destruct Ho as [Hop Hd]. destruct (adopt_done d' Hc Hs Hop Hd) as (A1 & Hs1 & Hl1 & Hr1).
    apply wp_bind, wp_modify. cbn [wpk]. eapply wp_mono; [|intros o c'; by apply (post_step Cfg SD i)].
    eapply wp_post_weaken; [by apply (Hk A1)|]. intros a A' F' c' _ (-> & -> & Hkey).
    destruct (key_role _ _ Hkey) as [Hro Hte]. apply key_eq in Hkey as (Hb & Hci & Hli & Hcm).
    apply bkey_eq in Hb as (_ & _ & _ & _ & Hsi & _). cbn in *. unfold adopted, lkey.
    rewrite Hl1, Hte, Hro, Hci, Hli, Hcm, Hsi. done. }
  all: destruct Ho as [Hw Hd']; eapply (crash_dead Cfg SD i A); [apply Hr|exact Hw|];
    intros t v s l Hms Hss Hll Hst; destruct (Hd' t v s l Hms Hss Hll Hst) as (-> & -> & F' & HF' & Hsr & Hlz);
    exists F'; (split; [|done]); destruct HF' as [->|(n & Hn & ->)]; [by left|right];
    destruct (adopt_take n Hn) as (q & -> & Hq); by apply (move_adopt A i (mkA (term c) (votedFor c) F) ld).
Qed.

Lemma truncateAndAppend_rel :
  lastDelivered c ≤ commitIndex c →
  wp (truncateAndAppend rest) (post (adopted ld (ztake f F ++ rest) c) A) c.
Proof.
  intros Hst. destruct adopt_bounds as (Hb1 & Hb2 & Hb3). destruct (nonempty_cons rest Hne) as (e & r & E).
  destruct (rest_head _ _ f e r Hf0 Hrest E) as [Hl _]. pose proof (r_shape Hr) as Hsh.
  destruct (lo_wf _ _ _ _ (ai_leads _ _ Hi _ _ Hld) _ _ Hl) as (Hidx & Hmax & _).
  assert (Forall plain rest) as Hpl.
  { apply Forall_lookup_2. intros k x Hx. destruct (adopt_wf (length (ztake f F) + k)%nat x) as (_ & _ & ?); [|done].
    rewrite lookup_app_r by lia. by rewrite Nat.add_comm, Nat.add_sub. }
  unfold truncateAndAppend. apply wp_bind, wp_get. cbn [wpk]. apply wp_bind, wp_lift.
  assert (zindex rest 0 = Ok e) as -> by (by rewrite E). cbn [wpk]. rewrite Hidx, Z2Nat.id by done.
  destruct (_ <=? _) eqn:Ec; [by apply (post_fail Cfg SD i _ A F c)|]. apply Z.leb_gt in Ec.
  destruct (r_deliv Hr) as [Hd _]. rewrite (shape_lastLogIndex F c Hsh).
  assert (∀ t : bool, ∀ A1 F1 c2, rel A1 F1 c2 →
    wp (if t then recalcConfig else noteAppendedConfigs rest) (post (quiet A1 F1 c2) A1) c2) as Hcf.
  { intros [] A1 F1 c2 Hr2; [by apply recalcConfig_quiet|by apply noteAppendedConfigs_quiet]. }
  assert (zlength F ≤ f → c = c <| entries := zdrop (snapIndex c) (ztake f F) |>) as Hsame.
  { intros Hle. unfold ztake. rewrite take_ge by lia. rewrite <-(sh_entries _ _ _ _ Hsh). by destruct c. }
  apply wp_bind. destruct (decide (entries c = [])) as [El|(e0 & l0 & El)%nonempty_cons].
  { rewrite El. apply wp_ret. cbn [wpk]. pose proof (shape_entries_nil F c Hsh El).
    apply adopt_persist; [lia|lia|apply Hsame; lia|]. intros. by apply (Hcf false). }
  destruct (shape_entries_cons F c e0 l0 Hsh El) as [He0 _]. rewrite El at 1.
  destruct (f + 1 <=? zlength F) eqn:Ef; [apply Z.leb_le in Ef|apply Z.leb_gt in Ef].
  2:{ apply wp_ret. cbn [wpk]. apply adopt_persist; [lia|lia|apply Hsame; lia|]. intros. by apply (Hcf false). }
  pose proof (sh_snap _ _ _ _ Hsh). rewrite He0, u64_small by (unfold is_u64; lia). replace (f + 1 - (snapIndex c + 1)) with (f - snapIndex c) by lia.
  assert (zlength (entries c) = zlength F - snapIndex c) as Hle.
  { rewrite (sh_entries _ _ _ _ Hsh). unfold zdrop. rewrite length_drop. lia. }
  rewrite zslice_from_ok, zslice_to_ok by lia.
  apply wp_bind, wp_lift. cbn [wpk]. apply wp_bind, wp_lift. cbn [wpk]. apply wp_bind, wp_modify, wp_ret. cbn [wpk].
  apply adopt_persist; [lia|lia| |intros; by apply Hcf].
  rewrite (sh_entries _ _ _ _ Hsh). unfold zdrop, ztake.
  rewrite take_drop_commute. unfold set, set_entries. do 2 f_equal. f_equal. lia.
Qed.
End adopt.
(** ** AppendEntries *)

(** A successful answer is an acknowledgement in the history. *)
Definition appended (req : AppendEntriesRequest) (b : Z) : AppendEntriesResponse → abs → list Entry → C → Prop :=
  λ resp A' _ c', qbase c' = b ∧ is_u64 (aer_term resp) ∧ 0 ≤ aer_conflictIndex resp ∧
    (aer_success resp = true → 0 ≤ ae_prevLogIndex req ∧
     acked A' i (ae_term req) (ae_prevLogIndex req + zlength (ae_entries req))).

Lemma appended_refuse req resp A F c b :
  rel A F c → qbase c = b → is_u64 (aer_term resp) → 0 ≤ aer_conflictIndex resp → aer_success resp = false →
  wp (mret resp) (post (appended req b) A) c.
Proof.
  intros Hr Hb Ht Hci Hs. apply wp_ret. apply (post_ok Cfg SD i _ _ A F); [done|]. split_and!; [done..|]. congruence.
Qed.

(** The node holds [m] entries of its leader's log. *)
Lemma ack_step A F c ld m :
  ainv A → rel A F c → a_leads A !! term c = Some ld → 0 ≤ m ≤ zlength (ld_log ld) →
  ztake m (ld_log ld) `prefix_of` F →
  ∃ A1, asteps A A1 ∧ rel A1 F c ∧ ainv A1 ∧ a_leads A1 = a_leads A ∧ grows A A1 ∧ acked A1 i (term c) m.
Proof.
  intros Hi Hr Hld Hm Hp. assert (astep Cfg i A (A <| a_acks ::= cons (i, term c, Z.to_nat m) |>)) as Hst.
  { apply (as_ack Cfg i A (role c) (mkA (term c) (votedFor c) F) ld (Z.to_nat m)); [apply Hr|done|lia|done]. }
  pose proof (astep_grows _ _ _ _ Hi Hst) as Hg. eexists. split; [by apply rtc_once|]. split_and!.
  - by apply (rel_grow Cfg SD i A).
  - by eapply astep_inv.
  - done.
  - done.
  - exists (Z.to_nat m). split; [lia|]. cbn. by left.
Qed.

(** The end of the handler: the commit index follows the leader's. *)
Lemma append_commit req ld A F c b :
  ainv A → rel A F c → term c = ae_term req → a_leads A !! term c = Some ld →
  let m := ae_prevLogIndex req + zlength (ae_entries req) in
  0 ≤ ae_prevLogIndex req → m ≤ zlength (ld_log ld) → ztake m (ld_log ld) `prefix_of` F →
  0 ≤ ae_leaderCommit req → committed_in A (ae_term req) (ztake (ae_leaderCommit req) (ld_log ld)) →
  qbase c = b →
  wp (c ← get;
      let lastNew := u64 m in
      (if commitIndex c <? ae_leaderCommit req then
         modify (set commitIndex (λ _, Z.min (ae_leaderCommit req) lastNew));;
         deliverCommitted
       else mret ());;
      c ← get;
      mret (mkAER (term c) true (ae_seq req) 0 0)) (post (appended req b) A) c.
Proof.
  intros Hi Hr Ht Hld m Hprev Hm' Hp Hlc Hco Hb. assert (0 ≤ m ≤ zlength (ld_log ld)) as Hm by lia. destruct (ack_step A F c ld m Hi Hr Hld Hm Hp) as (A1 & Hs1 & Hr1 & Hi1 & _ & Hg1 & Hack).
  eapply wp_mono; [|intros o c'; by apply (post_step Cfg SD i)]. rewrite Ht in Hack.
  pose proof (log_wf_length _ (lo_wf _ _ _ _ (ai_leads _ _ Hi _ _ Hld))) as HL.
  apply ztake_prefix_iff in Hp as [Hp1 Hp2]; [|done].
  apply wp_bind, wp_get. cbn [wpk]. cbv zeta. rewrite u64_small by (unfold is_u64; lia). apply wp_bind.
  destruct (_ <? _).
  2:{ apply wp_ret. cbn [wpk]. apply wp_bind, wp_get. cbn [wpk]. apply wp_ret. apply (post_ok Cfg SD i _ _ A1 F); [done|].
      split_and!; [done|apply Hr1|done|done]. }
  apply wp_bind, wp_modify. cbn [wpk]. set (n := Z.min _ _).
  assert (rel A1 F (set commitIndex (λ _, n) c)) as Hr2.
  { destruct Hr1. split; cbn; try done. split; [lia|]. rewrite Ht. eapply committed_in_prefix, committed_in_grow, Hco; [|done].
    assert (ztake n F = ztake n (ld_log ld)) as ->.
    { apply (f_equal (ztake n)) in Hp1. unfold ztake in Hp1. rewrite !take_take in Hp1. unfold ztake.
      by replace (Z.to_nat n) with (Z.to_nat n `min` Z.to_nat m)%nat by lia. }
    eapply prefix_comparable; [apply take_prefix..|]. unfold ztake; rewrite !length_take. lia. }
  eapply wp_mono; [by apply deliverCommitted_rel|]. intros o c3 (A3 & Hs3 & Ho).
  destruct o as [[]|e| |]; cbn [wpk]; [|by exists A3..]. destruct Ho as (F3 & Hr3 & -> & -> & Hb3 & Hq3).
  apply wp_bind, wp_get. cbn [wpk]. apply wp_ret. apply (post_ok Cfg SD i _ _ A1 F); [done|].
  split_and!; [by rewrite <-Hb|apply Hr3|done|done].
Qed.
Lemma check_prev_hint (c : C) prev t ct ci : check_prev c prev t = Ok (Some (ct, ci)) → 0 ≤ ci.
Proof.
  assert (∀ fuel t' x y, 0 ≤ x → first_index_loop fuel c t' x = Ok y → 0 ≤ y) as Hloop.
  { induction fuel as [|fuel IH]; simpl; intros t' x y Hx; [by intros [= ->]|].
    destruct (negb _); [by intros [= ->]|]. destruct (termAt _ _); simpl; try done.
    destruct (_ =? _); [|by intros [= ->]]. apply IH. apply u64_range. }
  unfold check_prev. destruct (0 <? prev) eqn:E; simpl; [|done]. zify_bool. destruct (_ <? _).
  { intros [= _ <-]. apply u64_range. }
  destruct (termAt _ _); simpl; try done. destruct (_ =? _); [done|]. unfold firstIndexOfTerm.
  destruct (first_index_loop _ _ _ _) eqn:Ef; simpl; try done. intros [= _ <-]. eapply Hloop; [|done]. lia.
Qed.

(** Holding the entries of the request, whichever of them were missing. *)
Lemma append_entries_rel (es rest : list Entry) ld A F c prev :
  ainv A → rel A F c → role c = follower → a_leads A !! term c = Some ld →
  lastDelivered c ≤ commitIndex c → 0 ≤ prev ≤ zlength (ld_log ld) → es `prefix_of` zdrop prev (ld_log ld) →
  ztake prev (ld_log ld) `prefix_of` F → new_entries c es = Ok rest →
  wp (if bool_decide (rest = []) then mret () else truncateAndAppend rest)
    (post (λ _ A' F' c', term c' = term c ∧ lkey c' = lkey c ∧ a_leads A' !! term c' = Some ld ∧
       ztake (prev + zlength es) (ld_log ld) `prefix_of` F') A) c.
Proof.
  intros Hi Hr Hf Hld Hst Hp Hes Hpre Hn. pose proof (ai_leads _ _ Hi _ _ Hld) as Hlo.
  assert (log_ok A F) as HF.
  { apply (ai_view _ _ Hi i (mkA (term c) (votedFor c) F)). unfold view. by rewrite (r_node Hr). }
  destruct (new_entries_match Cfg A Hi F (ld_log ld) c (r_shape Hr) HF (lo_log _ _ _ _ Hlo) prev es rest)
    as (j & Hj & -> & Hje & Hpj & Hno); [apply Hlo|lia|done..|].
  assert (zlength es ≤ zlength (ld_log ld) - prev) as Hle.
  { apply prefix_length in Hes. unfold zdrop in Hes. rewrite length_drop in Hes. lia. }
  case_bool_decide as Hz.
  { apply wp_ret. apply (post_ok Cfg SD i _ _ A F); [done|]. split_and!; [done..|].
    apply (f_equal length) in Hz. unfold zdrop in Hz. rewrite length_drop in Hz. simpl in Hz.
    by replace (zlength es) with j by lia. }
  destruct (decide (prev + j < commitIndex c)) as [Hlt|Hge].
  - destruct (nonempty_cons _ Hz) as (e & r & E). unfold truncateAndAppend.
    apply wp_bind, wp_get. cbn [wpk]. apply wp_bind, wp_lift. assert (zindex (zdrop j es) 0 = Ok e) as -> by (by rewrite E).
    cbn [wpk]. destruct (rest_head (ld_log ld) (zdrop j es) (prev + j) e r) as [He _]; [lia| |done|].
    { destruct Hes as [x Hx]. unfold zdrop in *. replace (Z.to_nat (prev + j)) with (Z.to_nat prev + Z.to_nat j)%nat by lia.
      rewrite <-drop_drop, Hx. exists x. rewrite drop_app_le by lia. done. }
    destruct (lo_wf _ _ _ _ Hlo _ _ He) as [Hidx _]. rewrite (proj2 (Z.leb_le _ _)) by lia.
    by apply (post_fail Cfg SD i _ A F c).
  - destruct (r_deliv Hr) as [Hd _].
    assert (zdrop j es `prefix_of` zdrop (prev + j) (ld_log ld)) as Hrest.
    { destruct Hes as [x Hx]. unfold zdrop in *. replace (Z.to_nat (prev + j)) with (Z.to_nat prev + Z.to_nat j)%nat by lia.
      rewrite <-drop_drop, Hx. exists x. rewrite drop_app_le by lia. done. }
    eapply wp_post_weaken.
    { apply (truncateAndAppend_rel A F c ld (prev + j) (zdrop j es)); try done; try lia.
      destruct (Hno Hz) as [?|?]; [lia|done]. }
    intros a A' F' c' _ (-> & _ & Ht & Hk & Hl). split_and!; [done..|].
    apply ztake_prefix_iff in Hpj as [-> _]; [|lia]. rewrite take_app_prefix by (done || lia).
    replace (prev + j + zlength (zdrop j es)) with (prev + zlength es); [done|].
    unfold zdrop. rewrite length_drop. lia.
Qed.

Lemma handleAppendEntries_rel req from to A F c b :
  ainv A → rel A F c → is_u64 (ae_term req) → out_rel A from (OutAppendEntries to req) →
  lastDelivered c ≤ commitIndex c → qbase c = b →
  wp (handleAppendEntries req) (post (appended req b) A) c.
Proof.
  intros Hi Hr Ht Hout Hst Hb. unfold handleAppendEntries. apply wp_bind, wp_get. cbn [wpk].
  eapply (wp_post_bind Cfg SD i); [done|by apply catch_up_rel|].
  intros _ A1 F1 c1 _ Hi1 Hg1 Hr1 (-> & Ht1 & Hk1 & _). apply (out_rel_grow _ _ _ _ _ _ Hg1) in Hout.
  apply wp_bind, wp_get. cbn [wpk]. destruct (_ <? _) eqn:E; zify_bool.
  { eapply appended_refuse; try done; [rewrite (lkey_handed _ _ Hk1); done|apply Hr1]. }
  eapply (wp_post_bind Cfg SD i); [done|by apply recognize_leader_rel|].
  intros _ A2 F2 c2 _ Hi2 Hg2 Hr2 (-> & Hf2 & Ht2 & Hk2). apply (out_rel_grow _ _ _ _ _ _ Hg2) in Hout.
  assert (lkey c2 = lkey c) as Hk by congruence. assert (term c2 = ae_term req) as Hte by lia.
  destruct Hout as (_ & ld & Hld & Hp & Hpt & Hes & Hlc & Hco). rewrite <-Hte in Hld.
  assert (log_ok A2 F) as HF.
  { apply (ai_view _ _ Hi2 i (mkA (term c2) (votedFor c2) F)). unfold view. by rewrite (r_node Hr2). }
  apply wp_bind, wp_get. cbn [wpk]. apply wp_bind, wp_lift. rewrite Hpt.
  destruct (check_prev _ _ _) as [[[ct ci]|]| | |] eqn:Hcp; cbn [wpk]; try by apply (post_fail Cfg SD i _ A2 F c2).
  { apply check_prev_hint in Hcp. eapply appended_refuse; try done; [rewrite (lkey_handed _ _ Hk); done|apply Hr2]. }
  eapply (check_prev_match Cfg A2 Hi2 F (ld_log ld) c2 (r_shape Hr2) HF) in Hcp; [|apply (ai_leads _ _ Hi2 _ _ Hld)|done].
  apply wp_bind, wp_lift. destruct (new_entries _ _) as [rest| | |] eqn:Hn; cbn [wpk]; try by apply (post_fail Cfg SD i _ A2 F c2).
  eapply (wp_post_bind Cfg SD i); [done|apply (append_entries_rel (ae_entries req) rest ld A2 F c2 (ae_prevLogIndex req)); try done|].
  { injection Hk. intros _ -> -> _. done. }
  intros _ A3 F3 c3 Hs3 Hi3 Hg3 Hr3 (Ht3 & Hk3 & Hl3 & Hp3).
  assert (zlength (ae_entries req) ≤ zlength (ld_log ld) - ae_prevLogIndex req) as Hle.
  { apply prefix_length in Hes. unfold zdrop in Hes. rewrite length_drop in Hes. lia. }
  apply (append_commit req ld A3 F3 c3 b); try done; [congruence|lia|lia|lia|by eapply committed_in_grow|].
  rewrite <-Hb. apply lkey_handed. congruence.
Qed.
(** ** The leader's side *)

(** Handlers whose errors, but for those that write ([w]) a failure to persist,
    leave the node running. *)
Definition tried {X} (w : bool) (R : X → abs → list Entry → C → Prop) (A : abs) (c : C) (o : outcome X) (c' : C) : Prop :=
  match o with
  | Err e => (w = true ∧ (∃ x, e = EPersistFailure x) ∧ post R A o c') ∨ ((∀ x, e ≠ EPersistFailure x) ∧ c' = c)
  | _ => post R A o c'
  end.

Lemma tried_errfree {X} w (R : X → abs → list Entry → C → Prop) (m : M C X) A c0 c :
  errfree m → wp m (post R A) c → wp m (tried w R A c0) c.
Proof.
  intros He. unfold wp. specialize (He c). destruct (m c) as [[a|e| |] c']; cbn in *; try done. by destruct (He e).
Qed.

Lemma tried_throw {X} w (R : X → abs → list Entry → C → Prop) e A c :
  (∀ x, e ≠ EPersistFailure x) → wp (throw e) (tried w R A c) c.
Proof. intros He. apply wp_throw. by right. Qed.

Lemma propose_rel command typ A F c b :
  ainv A → rel A F c → zlength F < 2 ^ 64 - 2 → typ = ENTRY_TYPE_NORMAL ∨ typ = ENTRY_TYPE_NOOP →
  zlength command ≤ maxEntryCommand → qbase c = b →
  wp (propose command typ) (tried true (handed b) A c) c.
Proof.
  intros Hi Hr HF Hty Hcmd Hb. unfold propose. apply wp_bind, wp_get. cbn [wpk].
  destruct (negb _) eqn:El; [by apply tried_throw|]. apply negb_false_iff, bool_decide_eq_true in El.
  destruct (negb _); [by apply tried_throw|]. cbv zeta.
  rewrite (shape_lastLogIndex F c) by apply Hr. rewrite u64_small by (unfold is_u64; lia).
  assert (plain (mkEntry (term c) (zlength F + 1) typ command)) as Hp.
  { apply plain_new; [apply Hr|unfold is_u64; lia|done|done]. }
  apply wp_bind, wp_attempt. eapply wp_mono.
  { apply (append_own Cfg SD i _ _ _ _ Hi Hr); [done|done|done|cbn; lia|done]. }
  intros o c1 Ho. destruct o as [[]|e| |]; cbn [wpk]; [|..|done|exact Ho].
  2:{ apply wp_throw. left. split; [done|]. split; [by eauto|]. exact Ho. }
  destruct Ho as (A1 & d' & Hs1 & -> & Hr1). destruct (asteps_spec _ _ _ _ Hi Hs1) as (Hi1 & _).
  apply tried_errfree.
  { repeat first [apply errfree_broadcastAppends|apply errfree_maybeAdvanceCommit|apply errfree_bind; [|intros ?]|by intros ? ?]. }
  eapply wp_mono; [|intros o c'; by apply (post_step Cfg SD i)].
  apply wp_bind, wp_modify. cbn [wpk].
  match goal with |- wp _ _ ?s => assert (role s = leader ∧ qbase s = b) as [Hl2 Hq2] by done; revert Hr1 Hl2 Hq2;
    change (rel A1 (F ++ [mkEntry (term c) (zlength F + 1) typ command]) s → role s = leader → qbase s = b →
      wp (broadcastAppends;; maybeAdvanceCommit;; mret (zlength F + 1, term c)) (post (handed b) A1) s);
    generalize s; intros c2 Hr2 Hl2 Hq2 end.
  eapply wp_quiet_bind; [by apply broadcastAppends_quiet|]. intros [] c3 Hr3 Hk3.
  eapply (wp_post_bind Cfg SD i); [done|apply maybeAdvanceCommit_rel; try done|].
  { by apply key_role in Hk3 as [-> _]. }
  intros a A4 F4 c4 _ _ _ Hr4 (_ & _ & Hq4). eapply handed_ret; [done|].
  by rewrite Hq4, (key_handed _ _ Hk3).
Qed.
(** *** What the leader knows of its followers *)

(** Only the leader's tables may have changed. *)
Definition led {X} (A : abs) (F : list Entry) (c : C) : X → abs → list Entry → C → Prop :=
  λ _ A' F' c', A' = A ∧ F' = F ∧ role c' = leader ∧ term c' = term c ∧ qbase c' = qbase c.

Lemma map_get_put m k v m' j :
  map_put k v m = Ok m' → map_get m' j = if decide (j = k) then v else map_get m j.
Proof.
  destruct m as [m|]; [|done]. intros [= <-]. unfold map_get. cbn. rewrite lookup_insert.
  destruct (decide (k = j)), (decide (j = k)); congruence || done.
Qed.

Lemma put_next_rel from v A F c :
  rel A F c → role c = leader → 0 < v ≤ zlength F + 1 → wp (put_next from v) (post (led A F c) A) c.
Proof.
  intros Hr Hl Hv. unfold put_next. apply wp_bind, wp_get. cbn [wpk]. apply wp_bind, wp_lift.
  destruct (map_put _ _ _) as [ni| | |] eqn:E; cbn [wpk]; try by apply (post_fail Cfg SD i _ A F c).
  apply wp_modify. apply (post_ok Cfg SD i _ _ A F); [|done].
  destruct Hr; split; cbn; try done. intros _. destruct (r_lead Hl) as (? & Hn & ?). split_and!; try done.
  intros j. rewrite (map_get_put _ _ _ _ _ E). destruct (decide (j = from)); [lia|apply Hn].
Qed.

Lemma put_match_rel from v A F c :
  rel A F c → role c = leader → acked A from (term c) v → wp (put_match from v) (post (led A F c) A) c.
Proof.
  intros Hr Hl Hv. unfold put_match. apply wp_bind, wp_get. cbn [wpk]. apply wp_bind, wp_lift.
  destruct (map_put _ _ _) as [mi| | |] eqn:E; cbn [wpk]; try by apply (post_fail Cfg SD i _ A F c).
  apply wp_modify. apply (post_ok Cfg SD i _ _ A F); [|done].
  destruct Hr; split; cbn; try done. intros _. destruct (r_lead Hl) as (? & ? & Hm). split_and!; try done.
  intros j. rewrite (map_get_put _ _ _ _ _ E). destruct (decide (j = from)) as [->|]; [by right|apply Hm].
Qed.

(** What a follower acknowledged is in the leader's log. *)
Lemma acked_bound A F c from m :
  ainv A → rel A F c → role c = leader → acked A from (term c) m → m ≤ zlength F.
Proof.
  intros Hi Hr Hl (k & Hk & Hin). destruct (ai_acks _ _ Hi _ _ _ Hin) as (ld & Hld & ?).
  destruct (r_lead Hr Hl) as ((ld' & Hld' & <-) & _). assert (ld' = ld) as -> by congruence. lia.
Qed.

(** Recording that [from] holds [m] entries. *)
Lemma record_match from m A F c :
  ainv A → rel A F c → role c = leader → 0 ≤ m → acked A from (term c) m →
  wp (put_match from m;; put_next from (u64 (m + 1))) (post (led A F c) A) c.
Proof.
  intros Hi Hr Hl Hm Hack. pose proof (acked_bound A F c from m Hi Hr Hl Hack) as Hle.
  pose proof (log_wf_length F (sh_wf _ _ _ _ (r_shape Hr))) as HF.
  eapply (wp_post_bind Cfg SD i); [done|by apply put_match_rel|].
  intros _ A1 F1 c1 _ _ _ Hr1 (-> & -> & Hl1 & Ht1 & Hq1).
  rewrite u64_small by (unfold is_u64; lia).
  eapply wp_post_weaken; [apply put_next_rel; [done|done|lia]|].
  intros a A2 F2 c2 _ (-> & -> & Hl2 & Ht2 & Hq2). split_and!; congruence || done.
Qed.

(** The end of the handlers of responses. *)
Lemma send_rest from A F c b :
  rel A F c → role c = leader → from ≠ i → qbase c = b →
  wp (c ← get; if map_get (nextIndex c) from <=? lastLogIndex c then sendAppend from else mret ())
    (post (handed b) A) c.
Proof.
  intros Hr Hl Hf Hb. apply wp_bind, wp_get. cbn [wpk]. destruct (_ <=? _); [|by eapply handed_ret].
  eapply quiet_handed; [done|by apply sendAppend_quiet].
Qed.

Lemma assoc_bind {X Y Z0} (m : M C X) (f : X → M C Y) (g : Y → M C Z0) Q c :
  wp ((m ≫= f) ≫= g) Q c → wp (m ≫= λ x, f x ≫= g) Q c.
Proof.
  unfold wp, mbind, M_bind. by destruct (m c) as [[a|e| |] c1].
Qed.

Lemma acknowledged_rel from m A F c b :
  ainv A → rel A F c → role c = leader → 0 ≤ m → acked A from (term c) m → qbase c = b →
  wp (if map_get (matchIndex c) from <? m then
        put_match from m;; put_next from (u64 (m + 1));; maybeAdvanceCommit else mret ())
    (post (λ _ _ _ c', role c' = leader ∧ qbase c' = b) A) c.
Proof.
  intros Hi Hr Hl Hm Hack Hb. destruct (_ <? _); [|apply wp_ret; by apply (post_ok Cfg SD i _ _ A F)].
  apply (assoc_bind (put_match from m) (λ _, put_next from (u64 (m + 1))) (λ _, maybeAdvanceCommit)).
  eapply (wp_post_bind Cfg SD i); [done|by apply record_match|].
  intros _ A1 F1 c1 _ _ _ Hr1 (-> & -> & Hl1 & Ht1 & Hq1).
  eapply wp_post_weaken; [by apply maybeAdvanceCommit_rel|].
  intros a A' F' c' _ (_ & Hbk & ?). apply bkey_eq in Hbk as (-> & _). split; [done|congruence].
Qed.

Lemma last_index_bound (c : C) t F x :
  shape F c → lastIndexOfTerm c t = Ok x → 0 ≤ x ≤ zlength F.
Proof.
  intros Hsh. unfold lastIndexOfTerm. rewrite (shape_lastLogIndex F c Hsh). set (fuel := Z.to_nat _). clearbody fuel.
  pose proof (log_wf_length F (sh_wf _ _ _ _ Hsh)) as HF.
  assert (∀ y, 0 ≤ y ≤ zlength F → last_index_loop fuel c t y = Ok x → 0 ≤ x ≤ zlength F) as Hl; [|apply Hl; lia].
  induction fuel as [|fuel IH]; simpl; intros y Hy; [intros [= <-]; lia|].
  destruct (0 <? y) eqn:E; cbn [negb]; [|intros [= <-]; lia]. zify_bool. destruct (termAt c y); simpl; try done.
  destruct (_ =? _); [intros [= <-]; lia|]. destruct (_ || _); [intros [= <-]; lia|]. apply IH.
  rewrite u64_small by (unfold is_u64; lia). lia.
Qed.
(** Going back after a refusal. *)
Lemma refused_rel from resp A F c b :
  rel A F c → role c = leader → from ∈ dom Cfg → from ≠ i → 0 ≤ aer_conflictIndex resp → qbase c = b →
  wp (next ← (if negb (aer_conflictTerm resp =? 0) then
              last ← lift (lastIndexOfTerm c (aer_conflictTerm resp));
              mret (if negb (last =? 0) then u64 (last + 1) else aer_conflictIndex resp)
            else mret (aer_conflictIndex resp));
    let next := if next =? 0 then 1 else next in
    (if next <? map_get (nextIndex c) from then put_next from next
     else put_next from (Z.max 1 (u64 (map_get (nextIndex c) from - 1))));;
    sendAppend from) (post (handed b) A) c.
Proof.
  intros Hr Hl Hfd Hf Hci Hb. destruct (r_lead Hr Hl) as (_ & Hn & _). destruct (Hn from) as [Hn1 Hn2].
  specialize (Hn2 Hfd Hf). pose proof (log_wf_length F (sh_wf _ _ _ _ (r_shape Hr))) as HF. apply wp_bind.
  match goal with |- wp ?m _ _ => assert (wp m (λ o c', c' = c ∧
    match o with Ok x => 0 ≤ x | _ => True end) c) as Hm end.
  { destruct (negb _); [|by apply wp_ret]. apply wp_bind, wp_lift.
    destruct (lastIndexOfTerm _ _) eqn:E; cbn [wpk]; [|done..]. apply wp_ret. split; [done|].
    destruct (negb _); [apply u64_range|done]. }
  eapply wp_mono; [exact Hm|]. intros o c1 [-> Ho]. destruct o as [x|e| |]; cbn [wpk];
    [|by apply (post_fail Cfg SD i _ A F c)..]. cbv zeta.
  set (next := if x =? 0 then 1 else x). assert (0 < next) as Hnx by (unfold next; destruct (x =? 0) eqn:E; zify_bool; lia).
  assert (∀ v, 0 < v ≤ zlength F + 1 → wp (put_next from v;; sendAppend from) (post (handed b) A) c) as Hput.
  { intros v Hv. apply wp_bind. eapply wp_mono; [by apply put_next_rel|]. intros o c2 (A2 & Hs2 & Ho2).
    destruct o as [[]|e| |]; cbn [wpk]; [|by exists A2..]. destruct Ho2 as (F2 & Hr2 & -> & -> & Hl2 & Ht2 & Hq2).
    eapply quiet_handed; [|by apply sendAppend_quiet]. congruence. }
  destruct (next <? _) eqn:E; apply Hput; zify_bool; [lia|]. rewrite u64_small by (unfold is_u64; lia). lia.
Qed.

Lemma handleAppendResponse_rel from req resp A F c b :
  ainv A → rel A F c → is_u64 (aer_term resp) → from ∈ dom Cfg → from ≠ i → 0 ≤ aer_conflictIndex resp →
  (aer_success resp = true → 0 ≤ ae_prevLogIndex req ∧
     acked A from (ae_term req) (ae_prevLogIndex req + zlength (ae_entries req))) → qbase c = b →
  wp (handleAppendResponse from req resp) (post (handed b) A) c.
Proof.
  intros Hi Hr Ht Hfd Hf Hci Hs Hb. unfold handleAppendResponse. apply wp_bind, wp_get. cbn [wpk].
  destruct (_ <? _) eqn:E; zify_bool; [by apply (stepDown_handed Cfg SD i _ A F)|].
  destruct (_ || _) eqn:E1; [by eapply handed_ret|].
  apply orb_false_iff in E1 as [Hl%negb_false_iff%bool_decide_eq_true Hte%negb_false_iff%Z.eqb_eq].
  destruct (aer_success resp); [|by apply (refused_rel from resp A F)].
  destruct (Hs eq_refl) as [Hp Hack]. rewrite Hte in Hack.
  eapply wp_quiet_bind; [by apply noteFreshAck_quiet|]. intros [] c1 Hr1 Hk1.
  destruct (key_role _ _ Hk1) as [Hl1 Ht1]. rewrite <-Ht1 in Hack. rewrite Hl in Hl1.
  pose proof (acked_bound A F c1 from _ Hi Hr1 Hl1 Hack) as Hle.
  pose proof (log_wf_length F (sh_wf _ _ _ _ (r_shape Hr1))) as HF.
  cbv zeta. rewrite u64_small by (unfold is_u64; lia). apply wp_bind, wp_get. cbn [wpk].
  eapply (wp_post_bind Cfg SD i); [done|apply (acknowledged_rel from _ A F c1 b); try done; [lia|]|].
  { by rewrite (key_handed _ _ Hk1). }
  intros _ A2 F2 c2 _ Hi2 _ Hr2 [Hl2 Hq2]. apply wp_bind, wp_get. cbn [wpk].
  assert (wp (if (from =? transferTarget c2) && (map_get (matchIndex c2) from =? lastLogIndex c2)
    then sendTimeoutNow from else mret ()) (post (quiet A2 F2 c2) A2) c2) as Hsend.
  { destruct (_ && _); [by apply sendTimeoutNow_quiet|by apply wp_quiet_ret]. }
  eapply wp_quiet_bind; [exact Hsend|]. intros [] c3 Hr3 Hk3. destruct (key_role _ _ Hk3) as [Hl3 _].
  eapply send_rest; [done|congruence|done|]. by rewrite (key_handed _ _ Hk3).
Qed.

Lemma handleInstallSnapshotResponse_rel from req resp A F c b :
  ainv A → rel A F c → is_u64 (isr_term resp) → from ≠ i →
  (isr_term resp ≤ is_term req → 0 ≤ is_lastIncludedIndex req ∧ acked A from (is_term req) (is_lastIncludedIndex req)) →
  qbase c = b →
  wp (handleInstallSnapshotResponse from req resp) (post (handed b) A) c.
Proof.
  intros Hi Hr Ht Hf Hs Hb. unfold handleInstallSnapshotResponse. apply wp_bind, wp_get. cbn [wpk].
  destruct (_ <? _) eqn:E; zify_bool; [by apply (stepDown_handed Cfg SD i _ A F)|].
  destruct (_ || _) eqn:E1; [by eapply handed_ret|].
  apply orb_false_iff in E1 as [Hl%negb_false_iff%bool_decide_eq_true Hte%negb_false_iff%Z.eqb_eq].
  destruct Hs as [Hp Hack]; [lia|]. rewrite Hte in Hack. cbv zeta.
  assert (wp (if map_get (matchIndex c) from <? is_lastIncludedIndex req then
      put_match from (is_lastIncludedIndex req);; put_next from (u64 (is_lastIncludedIndex req + 1)) else mret ())
    (post (led A F c) A) c) as Hrec.
  { destruct (_ <? _); [by apply record_match|]. apply wp_ret. by apply (post_ok Cfg SD i _ _ A F). }
  eapply (wp_post_bind Cfg SD i); [done|exact Hrec|].
  intros _ A1 F1 c1 _ _ _ Hr1 (-> & -> & Hl1 & _ & Hq1). eapply send_rest; try done. congruence.
Qed.

(** ** Clients *)

Lemma transferLeadership_rel to A F c b :
  rel A F c → qbase c = b → wp (transferLeadership to) (tried false (handed b) A c) c.
Proof.
  intros Hr Hb. unfold transferLeadership. apply wp_bind, wp_get. cbn [wpk].
  destruct (negb _) eqn:El; [by apply tried_throw|]. apply negb_false_iff, bool_decide_eq_true in El.
  destruct (_ =? _) eqn:Et; [apply wp_ret; by apply (post_ok Cfg SD i _ _ A F)|]. apply Z.eqb_neq in Et.
  rewrite (r_id Hr) in Et. case_bool_decide; [by apply tried_throw|]. apply tried_errfree.
  { apply errfree_bind; [by intros ? ?|]. intros _. destruct (_ =? _); [by intros ? ?|apply errfree_sendAppend]. }
  apply wp_bind, wp_modify. cbn [wpk].
  match goal with |- wp _ _ ?s => assert (rel A F s ∧ qbase s = b ∧ role s = leader) as (Hr1 & Hb1 & Hl1)
    by (split; [rel_frame|done]); revert Hr1 Hb1 Hl1; generalize s; intros c1 Hr1 Hb1 Hl1 end.
  destruct (_ =? _); (eapply quiet_handed; [done|]); [by apply sendTimeoutNow_quiet|by apply sendAppend_quiet].
Qed.

Lemma requestRead_rel A F c b :
  rel A F c → qbase c = b → wp requestRead (tried false (handed b) A c) c.
Proof.
  intros Hr Hb. unfold requestRead. apply wp_bind, wp_get. cbn [wpk].
  destruct (negb _) eqn:El; [by apply tried_throw|]. apply negb_false_iff, bool_decide_eq_true in El.
  apply wp_bind, wp_lift. pose proof (errless_termAt c (commitIndex c)) as Hte.
  destruct (termAt _ _) as [t|e| |]; cbn [wpk]; [|by destruct (Hte e)|by apply (post_fail Cfg SD i _ A F c)..].
  destruct (negb _); [by apply tried_throw|]. apply tried_errfree.
  { repeat first [apply errfree_broadcastAppends|apply errfree_bind; [|intros ?]|case_match|by intros ? ?]. }
  apply wp_bind, wp_modify. cbn [wpk]. apply wp_bind, wp_get. cbn [wpk]. apply wp_bind, wp_modify. cbn [wpk].
  match goal with |- context [mret (readCounter ?x)] => generalize (readCounter x); intros rc end.
  match goal with |- wp _ _ ?s => assert (rel A F s ∧ qbase s = b ∧ role s = leader) as (Hr1 & Hb1 & Hl1)
    by (split; [rel_frame|done]); revert Hr1 Hb1 Hl1; generalize s; intros c1 Hr1 Hb1 Hl1 end.
  eapply wp_quiet_bind; [by apply confirmReads_quiet|]. intros q c2 Hr2 Hk2.
  pose proof (key_handed _ _ Hk2). destruct (key_role _ _ Hk2) as [Hl2 _].
  eapply (wp_quiet_bind Cfg SD i _ _ _ A F).
  { destruct q; [by apply wp_quiet_ret|apply broadcastAppends_quiet; [done|congruence]]. }
  intros [] c3 Hr3 Hk3. eapply handed_ret; [done|]. rewrite (key_handed _ _ Hk3). congruence.
Qed.
End replicate.
