(* ===== verification/CoreSnapshot.v ===== *)
(** * Snapshots and boots, as steps of the specification

    raftsnap.go: compaction keeps the node's log as the specification sees it,
    an installed snapshot adopts a prefix of its leader's; and the recovery of
    core.go's newCore. *)

From stdpp Require Import prelude gmap strings sorting.
From S2P Require Import Prelude GoRuntime GoBytes RaftTypes Membership RaftLaws Core CoreVotes RaftSpec CoreLog.
From S2P Require Import CoreRefine CoreSteps CoreElections CoreReplicate.
Open Scope Z_scope.

#[local] Arguments map_get : simpl never.

Section snapshots.
Context {D : Type} `{RaftDiskLaws D} `{GoRuntime}.
Context (Cfg : Members) (Cfg_wf : members_wf Cfg) (Cfg_rt : decodeMembers (encodeMembers Cfg) = Ok Cfg).
Context (SD : list Entry → bytes → Prop) (i : Z).

Abbreviation C := (core D).
Abbreviation rel := (rel Cfg SD i).
Abbreviation post := (post Cfg SD i).
Abbreviation dead := (dead Cfg SD i).
Abbreviation out_rel := (out_rel Cfg SD).
Abbreviation disk_rel := (disk_rel Cfg SD).
Abbreviation snap_rel := (snap_rel Cfg SD).
Abbreviation asteps := (asteps Cfg i).
Abbreviation ainv := (ainv Cfg).
Abbreviation committed_in := (committed_in Cfg).

(** ** Logs and snapshots on the disk *)

Lemma zdrop_nil {X} (F : list X) b : 0 ≤ b → zdrop b F = [] ↔ zlength F ≤ b.
Proof.
  intros Hb. unfold zdrop. split.
  - intros E. apply (f_equal length) in E. rewrite length_drop in E. simpl in E. lia.
  - intros. apply drop_ge. lia.
Qed.

(** A rewritten log holds what it is given. *)
Lemma supersede_rest F a : log_wf F → 0 ≤ a ≤ zlength F → log_supersede [] (zdrop a F) = zdrop a F.
Proof.
  intros Hwf Ha. destruct (decide (zdrop a F = [])) as [->|Hne]; [done|].
  assert (zlength (ztake a F) = a) as Hl by (unfold ztake; rewrite length_take; lia).
  assert (ztake a (ztake a F) ++ zdrop a F = F) as E.
  { unfold ztake, zdrop. rewrite take_take, Nat.min_id. apply take_drop. }
  rewrite <-(proj2 (zdrop_nil (ztake a F) a ltac:(lia))) at 1 by lia.
  rewrite (log_supersede_drop (ztake a F) a a); [by rewrite E|..]; try done; try lia; [|by rewrite E].
  eapply log_wf_prefix; [apply take_prefix|done].
Qed.

Lemma log_plain F b : log_wf F → Forall plain (zdrop b F).
Proof.
  intros Hwf. apply Forall_lookup_2. intros k e Hk. unfold zdrop in Hk. rewrite lookup_drop in Hk.
  by apply Hwf in Hk as (_ & _ & ?).
Qed.
Lemma log_entry_wf F b : log_wf F → Forall entry_wf (zdrop b F).
Proof. intros Hwf. eapply Forall_impl; [by apply log_plain|]. by intros e [? _]. Qed.

Lemma last_term_u64 F k : log_wf F → is_u64 (last_term (ztake k F)).
Proof.
  intros Hwf. destruct (decide (ztake k F = [])) as [->|Hne]; [done|].
  destruct (last_term_lookup _ Hne) as (e & He & ->). unfold ztake in He. apply lookup_take_Some in He as [He _].
  apply Hwf in He as (_ & _ & [[? _] _]). done.
Qed.

Lemma log_wf_view A F r t v : ainv A → a_nodes A !! i = Some (Live r (mkA t v F)) → log_wf F.
Proof.
  intros Hi Hn. apply (log_ok_wf Cfg A); [done|]. apply (ai_view _ _ Hi i (mkA t v F)). unfold view. by rewrite Hn.
Qed.

(** A node that stops with its disk in order. *)
Lemma disk_dead A F r t v base k (d : D) :
  a_nodes A !! i = Some (Live r (mkA t v F)) → log_wf F → d_wf d → disk_rel A F t v base k d →
  ∃ A', asteps A A' ∧ dead A' d.
Proof.
  intros Hn Hwf Hw Hd. eapply (crash_dead Cfg SD i); [exact Hn|done|]. intros t' v' s l Ht Hs Hl Hst.
  destruct (dr_state Hd _ _ Ht) as [-> ->]. exists F. split; [by left|].
  split; [by apply (dr_snap Hd)|by eapply disk_accepts].
Qed.

(** ** Compaction *)

Section compact.
Context (A : abs) (F : list Entry) (t v base k : Z) (sd : bytes).
Context (Hwf : log_wf F) (Hbase : 0 ≤ base ≤ k) (Hk : 0 < k ≤ zlength F).
Context (Hco : committed_in A t (ztake k F)) (Hsd : SD (ztake k F) sd).

Abbreviation snap := (mkSnap k (last_term (ztake k F)) (Some Cfg) sd).

Lemma snap_taken : snap_rel A F t snap.
Proof. split_and!; cbn; try done; lia. Qed.

Lemma disk_empty_all d : disk_rel A F t v base k d → may_log d [] → k = zlength F.
Proof.
  intros Hd Hl. destruct (dr_log Hd [] Hl) as (b & Hb & E). symmetry in E. apply zdrop_nil in E; lia.
Qed.

Lemma saveSnapshot_rel d :
  d_open d → disk_rel A F t v base k d →
  wp (saveSnapshot snap) (λ o d', d_wf d' ∧ (o ≠ Crash → d_open d') ∧ disk_rel A F t v base k d' ∧
    match o with Ok _ => ∀ s, may_snap d' s → s = snap | Panic => False | _ => True end) d.
Proof.
  intros Hop Hd. eapply wp_mono.
  { apply saveSnapshot_law; [done|]. pose proof (log_wf_length F Hwf). split_and!; cbn; [unfold is_u64; lia|by apply last_term_u64|done]. }
  intros o d' (Hw & Ho & Hs & Hl & Hm). cbn in Hm.
  assert (o ≠ Panic → ∀ s, may_snap d' s → may_snap d s ∨ s = snap) as Hsn by (destruct o; naive_solver).
  destruct o as [[]|e| |]; try done.
  all: split_and!; try done; split; [intros; apply (dr_state Hd); auto|intros; apply (dr_log Hd); auto
    |intros s [Hold| ->]%Hsn; [by apply (dr_snap Hd)|split; [apply snap_taken|cbn; lia]|done]
    |intros Hnil s [Hold| ->]%Hsn; [apply (dr_empty Hd); auto|cbn; apply (disk_empty_all d); auto|done]].
Qed.

Lemma logRewrite_rel d :
  d_open d → disk_rel A F t v base k d → (∀ s, may_snap d s → s = snap) →
  wp (logRewrite (zdrop k F)) (λ o d', d_wf d' ∧ (o ≠ Crash → d_open d') ∧
    disk_rel A F t v (match o with Ok _ => k | _ => base end) k d' ∧ o ≠ Panic) d.
Proof.
  intros Hop Hd Honly. eapply wp_mono; [apply logRewrite_law; [done|by apply log_entry_wf]|].
  intros o d' (Hw & Ho & Hs & Hsn & Hm). rewrite supersede_rest in Hm by (done || lia).
  assert (o ≠ Panic → ∀ l, may_log d' l → may_log d l ∨ l = zdrop k F) as Hl by (destruct o; naive_solver).
  assert (o ≠ Panic) as Hnp by (by destruct o). split_and!; try done. split.
  - intros; apply (dr_state Hd); auto.
  - intros l [Hold| ->]%Hl; [by apply (dr_log Hd)|exists k; split; [lia|done]|done].
  - intros s Hms. pose proof (Honly s (Hsn s Hms)) as ->. split; [apply snap_taken|]. cbn. destruct o; lia.
  - intros Hnil s Hms. rewrite (Honly s (Hsn s Hms)). cbn.
    apply Hl in Hnil as [Hnil|Hnil]; [by apply (disk_empty_all d)| |done]. symmetry in Hnil. apply zdrop_nil in Hnil; lia.
Qed.
End compact.
(** What [compact] does not touch. *)
Definition ckey (c : C) := (role c, term c, votedFor c, (lastDelivered c, committed c), (outbox c, readOutcomes c)).

Definition compacted (A : abs) (F : list Entry) (c : C) (o : outcome ()) (c' : C) : Prop :=
  match o with
  | Ok _ | Err _ => rel A F c' ∧ ckey c' = ckey c
  | _ => ∃ A', asteps A A' ∧ dead A' (disk c')
  end.

Lemma rel_disk A F c d base :
  rel A F c → d_open d → disk_rel A F (term c) (votedFor c) base (lastDelivered c) d → snapIndex c ≤ base →
  rel A F (c <| disk := d |>).
Proof.
  intros Hr Ho Hd Hb. destruct Hr; split; cbn; try done. destruct Hd as [? ? Hs ?]. split; try done.
  intros s Hm. destruct (Hs s Hm). split; [done|lia].
Qed.

Lemma rel_compacted A F c d :
  rel A F c → d_open d → disk_rel A F (term c) (votedFor c) (lastDelivered c) (lastDelivered c) d →
  rel A F (c <| disk := d |> <| entries := zdrop (lastDelivered c) F |> <| snapIndex := lastDelivered c |>
             <| snapTerm := last_term (ztake (lastDelivered c) F) |> <| snapConfig := Cfg |>).
Proof.
  intros Hr Ho Hd. destruct (r_deliv Hr) as [? ?]. pose proof (r_shape Hr) as [? ? ? ?]. destruct (r_members Hr).
  destruct Hr; split; cbn; try done; [|split; [lia|done]]. split; [done|lia|done|done].
Qed.

Lemma compact_rel data A F c :
  rel A F c → SD (ztake (lastDelivered c) F) data →
  wp (compact (lastDelivered c) data) (compacted A F c) c.
Proof.
  intros Hr Hsd. pose proof (r_shape Hr) as Hsh. destruct (r_deliv Hr) as [Hd Hco]. pose proof (sh_wf _ _ _ _ Hsh) as Hwf.
  pose proof (log_wf_length F Hwf) as HF. pose proof (sh_snap _ _ _ _ Hsh) as Hsn.
  unfold compact. apply wp_bind, wp_get. cbn [wpk]. destruct (_ <=? _) eqn:Ele; [by apply wp_ret|].
  rewrite Z.ltb_irrefl. zify_bool. apply wp_bind, wp_lift.
  rewrite (shape_termAt F c) by (done || unfold is_u64; lia). cbn [wpk]. unfold term_at.
  rewrite (proj2 (andb_true_iff _ _)) by lia. cbv zeta. cbn [lastIndex lastTerm config default].
  assert (configAt c (lastDelivered c) = Cfg) as ->.
  { unfold configAt. rewrite fold_members_plain; [apply (r_members Hr)|].
    eapply Forall_sub; [exact (shape_plain F c Hsh)|apply entries_through_sub]. }
  apply wp_bind, wp_wrap, wp_zoom. eapply wp_mono.
  { apply (saveSnapshot_rel A F (term c) (votedFor c) (snapIndex c)); try done; [lia|lia|apply Hr|apply Hr]. }
  intros o d1 (Hw1 & Ho1 & Hd1 & Hm1). destruct o as [[]|e| |]; cbn [wpk]; [|..|done|].
  2:{ split; [|done]. eapply rel_disk; [done|by apply Ho1|done|done]. }
  2:{ eapply disk_dead; [apply Hr|done..]. }
  destruct (shape_lookup F c (snapIndex c + 1) Hsh) as (e0 & He0 & HF0); [lia|].
  replace (Z.to_nat (snapIndex c + 1 - 1 - snapIndex c)) with 0%nat in He0 by lia.
  replace (snapIndex c + 1 - 1) with (snapIndex c) in HF0 by lia. destruct (Hwf _ _ HF0) as [Hidx _].
  apply wp_bind, wp_lift. rewrite (proj2 (zindex_lookup _ _ e0)) by done. cbn [wpk].
  apply wp_bind, wp_lift. rewrite Hidx, u64_small by (unfold is_u64; lia).
  assert (zlength (entries c) = zlength F - snapIndex c) as Hlen.
  { rewrite (sh_entries _ _ _ _ Hsh). unfold zdrop. rewrite length_drop. lia. }
  rewrite zslice_from_ok by lia. cbn [wpk].
  replace (drop _ (entries c)) with (zdrop (lastDelivered c) F).
  2:{ rewrite (sh_entries _ _ _ _ Hsh). unfold zdrop. rewrite drop_drop. f_equal. lia. }
  apply wp_bind, wp_wrap, wp_zoom. eapply wp_mono.
  { apply (logRewrite_rel A F (term c) (votedFor c) (snapIndex c) (lastDelivered c) data); try done; [lia|lia|by apply Ho1]. }
  intros o d2 (Hw2 & Ho2 & Hd2 & Hm2). destruct o as [[]|e| |]; cbn [wpk]; [|..|done|].
  - apply wp_modify. split; [|done]. apply (rel_compacted A F c d2); [done|by apply Ho2|done].
  - split; [|done]. apply (rel_disk A F c d2 (snapIndex c)); [done|by apply Ho2|done|done].
  - eapply disk_dead; [apply Hr|done..].
Qed.
(** ** Installing a snapshot *)

Section install.
Context (A : abs) (F : list Entry) (c : C) (ld : lead) (idx : Z) (sd : bytes).
Context (Hi : ainv A) (Hr : rel A F c) (Hfo : role c = follower) (Hld : a_leads A !! term c = Some ld).
Context (Hidx : 0 < idx ≤ zlength (ld_log ld)).

Abbreviation P := (ztake idx (ld_log ld)).
Context (Hco : committed_in A (term c) P) (Hsd : SD P sd).
Context (Hst : lastDelivered c ≤ commitIndex c) (Hnew : commitIndex c < idx).

Abbreviation snap := (mkSnap idx (last_term P) (Some Cfg) sd).

(** The log after the snapshot: the old one if it holds the snapshot's prefix,
    else that prefix. *)
Definition installed_log : list Entry := if decide (P `prefix_of` F) then F else P.

Lemma installed_take : ztake idx installed_log = P ∧ idx ≤ zlength installed_log.
Proof.
  unfold installed_log. case_decide as Hp.
  - by apply ztake_prefix_iff in Hp as [-> ?]; [|lia].
  - unfold ztake. rewrite take_take, Nat.min_id, length_take. split; [done|lia].
Qed.

Lemma installed_wf : log_wf installed_log.
Proof.
  unfold installed_log. case_decide; [apply Hr|]. eapply log_wf_prefix; [apply take_prefix|].
  exact (lo_wf _ _ _ _ (ai_leads _ _ Hi _ _ Hld)).
Qed.

Lemma installed_move :
  mkA (term c) (votedFor c) installed_log = mkA (term c) (votedFor c) F ∨
  moves A i (mkA (term c) (votedFor c) F) (mkA (term c) (votedFor c) installed_log).
Proof.
  unfold installed_log. case_decide as Hp; [by left|right].
  by apply (move_adopt A i (mkA (term c) (votedFor c) F) ld (Z.to_nat idx)).
Qed.

Lemma installed_snap : snap_rel A installed_log (term c) snap.
Proof.
  destruct installed_take as [E Hle]. split_and!; cbn; rewrite ?E; try done; lia.
Qed.

(** The new snapshot with what was on the disk before: refused, unless the log
    was empty. *)
Lemma installed_accepts d l :
  disk_rel A F (term c) (votedFor c) (snapIndex c) (lastDelivered c) d → may_log d l →
  starts_at (u64 (idx + 1)) l → l = zdrop idx installed_log.
Proof.
  intros Hd Hl Hs. destruct (dr_log Hd l Hl) as (b & Hb & ->). pose proof (sh_wf _ _ _ _ (r_shape Hr)) as Hwf.
  pose proof (log_wf_length _ (lo_wf _ _ _ _ (ai_leads _ _ Hi _ _ Hld))) as HL. destruct (r_deliv Hr) as [Hdl _].
  destruct (zdrop b F) as [|e0 l0] eqn:E.
  - apply zdrop_nil in E; [|lia]. symmetry. apply zdrop_nil; [lia|]. unfold installed_log. case_decide; [lia|].
    unfold ztake. rewrite length_take. lia.
  - assert (F !! Z.to_nat b = Some e0) as H0'.
    { rewrite <-(Nat.add_0_r (Z.to_nat b)), <-lookup_drop. unfold zdrop in E. by rewrite E. }
    apply Hwf in H0' as [H0' _]. simpl in Hs. rewrite u64_small in Hs by (unfold is_u64; lia). lia.
Qed.

(** The node stops while the snapshot goes to disk. *)
Lemma install_dead d0 d :
  disk_rel A F (term c) (votedFor c) (snapIndex c) (lastDelivered c) d0 → d_wf d →
  (∀ t v, may_state d t v → may_state d0 t v) →
  (∀ s, may_snap d s → may_snap d0 s ∨ s = snap) →
  (∀ l, may_log d l → may_log d0 l ∨ l = zdrop idx installed_log ∧ ∀ s, may_snap d s → s = snap) →
  ∃ A', asteps A A' ∧ dead A' d.
Proof.
  intros Hd0 Hw Hs Hsn Hl. eapply (crash_dead Cfg SD i); [apply Hr|done|].
  intros t v s l Hms Hss Hll Hst'. destruct (dr_state Hd0 _ _ (Hs _ _ Hms)) as [-> ->].
  destruct (Hl l Hll) as [Hold|[-> Honly]].
  - destruct (Hsn s Hss) as [Hos| ->].
    + exists F. split; [by left|]. split; [by apply (dr_snap Hd0)|]. eapply disk_accepts; try done. apply Hr.
    + exists installed_log. split; [apply installed_move|]. split; [apply installed_snap|].
      by apply (installed_accepts d0).
  - pose proof (Honly s Hss) as ->. exists installed_log. split; [apply installed_move|]. split; [apply installed_snap|done].
Qed.
(** The entries the handler keeps. *)
Lemma installed_keep (c1 : C) :
  c1 = c →
  (if idx <=? lastLogIndex c1 then
     t' ← termAt c1 idx;
     if t' =? last_term P then
       e0 ← zindex (entries c1) 0;
       zslice_from (entries c1) (u64 (idx - Index e0 + 1))
     else Ok []
   else Ok []) = Ok (zdrop idx installed_log).
Proof.
  intros ->. pose proof (r_shape Hr) as Hsh. rewrite (shape_lastLogIndex F c Hsh).
  pose proof (log_wf_length F (sh_wf _ _ _ _ Hsh)) as HF. pose proof (sh_snap _ _ _ _ Hsh) as Hsn.
  destruct (r_deliv Hr) as [Hdl _].
  assert (∀ l : list Entry, zlength l ≤ idx → zdrop idx l = []) as Hnil by (intros; apply zdrop_nil; lia).
  assert (zlength P ≤ idx) as HP by (unfold ztake; rewrite length_take; lia).
  unfold installed_log. destruct (idx <=? zlength F) eqn:E; zify_bool.
  2:{ rewrite decide_False; [by rewrite Hnil|]. intros Hc%prefix_length. unfold ztake in Hc. rewrite length_take in Hc. lia. }
  rewrite (shape_termAt F c) by (try done; unfold is_u64; lia). cbn [mbind outcome_bind]. unfold term_at.
  rewrite (proj2 (andb_true_iff _ _)) by lia. destruct (_ =? _) eqn:Et; zify_bool.
  - rewrite decide_True.
    2:{ apply ztake_prefix_iff; [lia|]. split; [|done].
        apply (term_at_match Cfg A Hi F (ld_log ld) c); try done; [| |unfold term_at; rewrite (proj2 (andb_true_iff _ _)); [done|lia]].
        - apply (ai_view _ _ Hi i (mkA (term c) (votedFor c) F)). unfold view. by rewrite (r_node Hr).
        - exact (lo_log _ _ _ _ (ai_leads _ _ Hi _ _ Hld)). }
    destruct (shape_lookup F c (snapIndex c + 1) Hsh) as (e0 & He0 & HF0); [lia|].
    replace (Z.to_nat (snapIndex c + 1 - 1 - snapIndex c)) with 0%nat in He0 by lia.
    replace (snapIndex c + 1 - 1) with (snapIndex c) in HF0 by lia. destruct (sh_wf _ _ _ _ Hsh _ _ HF0) as [Hix _].
    rewrite (proj2 (zindex_lookup _ _ e0)) by done. cbn [mbind outcome_bind]. rewrite Hix, u64_small by (unfold is_u64; lia).
    rewrite zslice_from_ok; [|rewrite (sh_entries _ _ _ _ Hsh); unfold zdrop; rewrite length_drop; lia].
    rewrite (sh_entries _ _ _ _ Hsh). unfold zdrop. rewrite drop_drop. do 2 f_equal. lia.
  - rewrite decide_False; [by rewrite Hnil|]. intros Hc. apply ztake_prefix_iff in Hc as [Hc _]; [|lia]. congruence.
Qed.

(** The core once its disk holds the snapshot and the rest of the log. *)
Lemma install_done d :
  committed c = [] → d_open d →
  (∀ t v, may_state d t v → t = term c ∧ v = votedFor c) →
  (∀ s, may_snap d s → s = snap) → (∀ l, may_log d l → l = zdrop idx installed_log) →
  ∃ A1, asteps A A1 ∧ a_leads A1 = a_leads A ∧
    rel A1 installed_log (c <| disk := d |> <| entries := zdrop idx installed_log |> <| snapIndex := idx |>
      <| snapTerm := last_term P |> <| snapConfig := Cfg |> <| commitIndex ::= Z.max idx |>
      <| lastDelivered ::= Z.max idx |>).
Proof.
  intros Hq Ho Hs Hsn Hl. destruct installed_take as [E Hle].
  assert (∃ A1, asteps A A1 ∧ a_leads A1 = a_leads A ∧ grows A A1 ∧
    a_nodes A1 !! i = Some (Live follower (mkA (term c) (votedFor c) installed_log))) as (A1 & Hs1 & Hl1 & Hg & Hn1).
  { pose proof (r_node Hr) as Hn. rewrite Hfo in Hn. unfold installed_log in *. case_decide as Hp.
    - exists A. split; [apply rtc_refl|]. split; [done|]. split; [apply grows_refl|done].
    - eexists. split; [apply rtc_once, (as_adopt Cfg i A _ _ ld (Z.to_nat idx) Hn); done|].
      split; [done|]. split; [apply grows_status|]. cbn. apply lookup_insert_eq. }
  exists A1. split; [done|]. split; [done|].
  assert (committed_in A1 (term c) (ztake idx installed_log)) as Hci.
  { rewrite E. by eapply committed_in_grow. }
  assert (snap_rel A1 installed_log (term c) snap) as Hsr.
  { eapply snap_rel_grow; [exact Hg|reflexivity|apply installed_snap]. }
  destruct (r_commit Hr) as [Hc0 _]. destruct (r_deliv Hr) as [Hd0 _].
  rewrite <-E in Hsn |- *. destruct Hr; split; cbn; rewrite ?(Z.max_l idx) by lia; try done.
  - by rewrite Hfo.
  - by destruct r_members.
  - split; [apply installed_wf|lia|done|done].
  - split; [done|..].
    + intros l Hml. exists idx. split; [lia|by apply Hl].
    + intros s Hms. rewrite (Hsn s Hms), E. split; [done|cbn; lia].
    + intros Hml s Hms. rewrite (Hsn s Hms). cbn. apply Hl in Hml. symmetry in Hml. apply zdrop_nil in Hml; lia.
  - split; [lia|done].
  - rewrite Hq. cbn. split; [lia|]. symmetry. apply zdrop_nil; [lia|]. unfold ztake. rewrite length_take. lia.
  - by rewrite Hfo.
  - by rewrite Hfo.
  - eapply Forall_impl; [done|]. intros. by eapply out_rel_grow.
Qed.
End install.
(** ** InstallSnapshot *)

(** The state machine is to be restored to the node's log through its snapshot. *)
Definition restoring (F : list Entry) (c : C) : Prop :=
  0 < snapIndex c ∧ lastDelivered c = snapIndex c ∧ committed c = [] ∧
  SD (ztake (snapIndex c) F) (pendingRestore c).

(** The core, but for a restore it has pending. *)
Definition rrel (A : abs) (F : list Entry) (c : C) : Prop :=
  rel A F (c <| pendingRestore := [] |>) ∧ (pendingRestore c = [] ∨ restoring F c).

Lemma rel_rrel A F c : rel A F c → rrel A F c.
Proof. intros Hr. split; [|left; apply Hr]. pose proof (r_restore Hr) as E. rel_frame. Qed.

Definition rpost {X} (R : X → abs → list Entry → C → Prop) (A : abs) (o : outcome X) (c' : C) : Prop :=
  ∃ A', asteps A A' ∧
    match o with
    | Ok a => ∃ F', rrel A' F' c' ∧ R a A' F' c'
    | _ => dead A' (disk c')
    end.

Lemma post_rpost {X} (R : X → abs → list Entry → C → Prop) A o c' : post R A o c' → rpost R A o c'.
Proof.
  intros (A' & Hs & Ho). exists A'. split; [done|]. destruct o; [|done..]. destruct Ho as (F' & ? & ?).
  exists F'. split; [by apply rel_rrel|done].
Qed.

Lemma rpost_step {X} (R : X → abs → list Entry → C → Prop) A A1 o c' :
  asteps A A1 → rpost R A1 o c' → rpost R A o c'.
Proof. intros Hs (A' & ? & ?). exists A'. split; [by etrans|done]. Qed.

Lemma wp_rpost_weaken {X} (R1 R2 : X → abs → list Entry → C → Prop) (m : M C X) A c :
  wp m (rpost R1 A) c → (∀ a A' F' c', R1 a A' F' c' → R2 a A' F' c') → wp m (rpost R2 A) c.
Proof.
  intros Hm HR. eapply wp_mono; [exact Hm|]. intros o c' (A' & Hs & Ho). exists A'. split; [done|].
  destruct o; [|done..]. destruct Ho as (F' & ? & ?). eauto.
Qed.

Lemma wp_rpost_bind {X Y} (R1 : X → abs → list Entry → C → Prop) (R : Y → abs → list Entry → C → Prop)
    (m : M C X) (k : X → M C Y) A c :
  ainv A → wp m (post R1 A) c →
  (∀ a A1 F1 c1, ainv A1 → grows A A1 → rel A1 F1 c1 → R1 a A1 F1 c1 → wp (k a) (rpost R A1) c1) →
  wp (m ≫= k) (rpost R A) c.
Proof.
  intros Hi Hm Hk. apply wp_bind. eapply wp_mono; [exact Hm|].
  intros o c1 (A1 & Hs & Ho). destruct (asteps_spec _ _ _ _ Hi Hs) as (Hi1 & Hg & _).
  destruct o as [a|e| |]; cbn [wpk]; [|by exists A1..].
  destruct Ho as (F1 & Hr & HR). eapply wp_mono; [by eapply Hk|]. intros o c2. by apply rpost_step.
Qed.

(** An answer in the snapshot's term is an acknowledgement in the history. *)
Definition installed (req : InstallSnapshotRequest) (b : Z) : InstallSnapshotResponse → abs → list Entry → C → Prop :=
  λ resp A' _ c', (pendingRestore c' = [] → qbase c' = b) ∧ is_u64 (isr_term resp) ∧
    (isr_term resp ≤ is_term req →
     0 ≤ is_lastIncludedIndex req ∧ acked A' i (is_term req) (is_lastIncludedIndex req)).

(** The snapshot is already covered. *)
Lemma install_skip req ld A F c b :
  ainv A → rel A F c → term c = is_term req → a_leads A !! term c = Some ld →
  let idx := is_lastIncludedIndex req in
  0 < idx ≤ zlength (ld_log ld) → committed_in A (term c) (ztake idx (ld_log ld)) →
  lastDelivered c ≤ commitIndex c → idx ≤ commitIndex c → qbase c = b →
  wp (mret (mkISR (term c))) (post (installed req b) A) c.
Proof.
  intros Hi Hr Ht Hld idx Hidx Hco Hst Hle Hb. destruct (r_commit Hr) as [Hc Hcc].
  assert (ztake idx (ld_log ld) `prefix_of` F) as Hp.
  { etrans; [|apply (take_prefix (Z.to_nat (commitIndex c)))].
    eapply (committed_agree Cfg A (term c) (term c)); try done. unfold ztake. rewrite !length_take. lia. }
  destruct (ack_step Cfg SD i A F c ld idx Hi Hr Hld) as (A1 & Hs1 & Hr1 & _ & _ & _ & Hack); [lia|done|].
  apply wp_ret. apply (post_step Cfg SD i _ A A1); [done|]. apply (post_ok Cfg SD i _ _ A1 F); [done|].
  rewrite Ht in Hack. split_and!; [done|apply Hr|]. intros _. split; [lia|done].
Qed.
(** The end of the handler, from a core that holds the snapshot. *)
Lemma install_finish req ld A F c t0 b :
  ainv A → rel A F c → term c = is_term req → t0 = term c → a_leads A !! term c = Some ld →
  let idx := is_lastIncludedIndex req in
  0 < idx ≤ zlength (ld_log ld) → snapIndex c = idx → lastDelivered c = idx → committed c = [] →
  ztake idx F = ztake idx (ld_log ld) → idx ≤ zlength F → SD (ztake idx F) (is_data req) → is_data req ≠ [] →
  wp (recalcConfig;; modify (set pendingRestore (λ _, is_data req));; mret (mkISR t0)) (rpost (installed req b) A) c.
Proof.
  intros Hi Hr Ht -> Hld idx Hidx Hsi Hdl Hcm Htk HleF Hsd Hne.
  destruct (ack_step Cfg SD i A F c ld idx Hi Hr Hld) as (A1 & Hs1 & Hr1 & Hi1 & _ & _ & Hack).
  { lia. }
  { by apply ztake_prefix_iff; [lia|]. }
  eapply wp_mono; [|intros o c'; by apply rpost_step]. rewrite Ht in Hack.
  eapply wp_rpost_bind; [done|by apply recalcConfig_quiet|]. intros [] A2 F2 c2 _ _ Hr2 (-> & -> & Hk2).
  apply key_eq in Hk2 as (Hb & _ & Hdl2 & Hcm2). apply bkey_eq in Hb as (_ & _ & _ & _ & Hsi2 & _).
  apply wp_bind, wp_modify, wp_ret. exists A1. split; [apply rtc_refl|]. exists F. split; [split|].
  - pose proof (r_restore Hr2). rel_frame.
  - right. split_and!; cbn; rewrite ?Hsi2, ?Hdl2, ?Hcm2, ?Hsi, ?Hdl; try done. lia.
  - cbn. split_and!; [done|apply Hr|]. intros _. split; [lia|done].
Qed.

Lemma install_rel req ld A F c b :
  ainv A → rel A F c → role c = follower → term c = is_term req → a_leads A !! term c = Some ld →
  let idx := is_lastIncludedIndex req in
  let p := ztake idx (ld_log ld) in
  0 < idx ≤ zlength (ld_log ld) → committed_in A (term c) p → SD p (is_data req) → is_data req ≠ [] →
  is_config req = encodeMembers Cfg → is_lastIncludedTerm req = last_term p →
  lastDelivered c ≤ commitIndex c → commitIndex c < idx → committed c = [] →
  wp (cfg' ← wrap "raft: snapshot config: %w" (lift (decodeMembers (is_config req)));
      wrap "raft: persisting installed snapshot: %w"
        (zoom disk (saveSnapshot (mkSnap idx (is_lastIncludedTerm req) (Some cfg') (is_data req))));;
      keep ← lift (if idx <=? lastLogIndex c then
                 t' ← termAt c idx;
                 if t' =? is_lastIncludedTerm req then
                   e0 ← zindex (entries c) 0;
                   zslice_from (entries c) (u64 (idx - Index e0 + 1))
                 else Ok []
               else Ok []);
      wrap "raft: rewriting log for snapshot: %w" (zoom disk (logRewrite keep));;
      modify (λ c, c <| entries := keep |> <| snapIndex := idx |> <| snapTerm := is_lastIncludedTerm req |>
                 <| snapConfig := cfg' |> <| commitIndex ::= Z.max idx |>
                 <| lastDelivered ::= Z.max idx |>);;
      recalcConfig;;
      modify (set pendingRestore (λ _, is_data req));;
      mret (mkISR (term c))) (rpost (installed req b) A) c.
Proof.
  intros Hi Hr Hf Ht Hld idx p Hidx Hco Hsd Hne Hcf Hlt Hst Hnew Hcm. subst p. rewrite Hcf, Cfg_rt, Hlt.
  pose proof (lo_wf _ _ _ _ (ai_leads _ _ Hi _ _ Hld)) as HwL. pose proof (log_wf_length _ HwL) as HL.
  set (s := mkSnap idx (last_term (ztake idx (ld_log ld))) (Some Cfg) (is_data req)).
  apply wp_bind, wp_wrap, wp_lift. cbn [wpk]. apply wp_bind, wp_wrap, wp_zoom. eapply wp_mono.
  { apply (saveSnapshot_law s); [apply Hr|]. split_and!; cbn; [unfold is_u64; lia|by apply last_term_u64|done]. }
  intros o d1 (Hw1 & Ho1 & Hs1 & Hl1 & Hm1). cbn in Hm1.
  pose proof (install_dead A F c ld idx (is_data req) Hi Hr Hld Hidx Hco Hsd Hst Hnew (disk c)) as Hdead.
  destruct o as [[]|e| |]; cbn [wpk]; [|..|done|].
  2-3: destruct (Hdead d1) as (A' & ? & ?); [apply Hr|done|done|exact Hm1|by auto|by exists A'].
  apply wp_bind, wp_lift. rewrite (installed_keep A F c ld idx Hi Hr Hld Hidx Hst Hnew c eq_refl). cbn [wpk].
  set (F1 := installed_log F ld idx) in *. pose proof (installed_take F ld idx Hidx) as [Htk HleF]. fold F1 in Htk, HleF.
  assert (log_wf F1) as Hwf1 by (by apply (installed_wf A F c)).
  apply wp_bind, wp_wrap, wp_zoom. cbn. eapply wp_mono.
  { apply (logRewrite_law (zdrop idx F1)); [by apply Ho1|by apply log_entry_wf]. }
  intros o d2 (Hw2 & Ho2 & Hs2 & Hsn2 & Hm2). rewrite supersede_rest in Hm2 by (done || lia).
  destruct o as [[]|e| |]; cbn [wpk]; [|..|done|].
  2-3: destruct (Hdead d2) as (A' & ? & ?); [apply Hr|done|by auto|by auto| |by exists A'];
    intros l [Hl| ->]%Hm2; [by auto|right; by auto].
  apply wp_bind, wp_modify. cbn [wpk].
  destruct (install_done A F c ld idx (is_data req) Hi Hr Hf Hld Hidx Hco Hsd Hst Hnew d2) as (A1 & Hst1 & Hl2 & Hr1); try done.
  { by apply Ho2. }
  { intros t v Hms. by apply (dr_state (r_disk Hr)), Hs1, Hs2. }
  { intros s' Hms. by apply Hm1, Hsn2. }
  destruct (asteps_spec _ _ _ _ Hi Hst1) as (Hi1 & _). eapply wp_mono; [|intros o c'; by apply rpost_step].
  fold F1 in Hr1.
  match goal with |- wp _ _ ?st => change st with (c <| disk := d2 |> <| entries := zdrop idx F1 |> <| snapIndex := idx |>
    <| snapTerm := last_term (ztake idx (ld_log ld)) |> <| snapConfig := Cfg |> <| commitIndex ::= Z.max idx |> <| lastDelivered ::= Z.max idx |>) end.
  apply (install_finish req ld A1 F1); try done; cbn; try (by rewrite Hl2); try (by rewrite Htk).
  - fold idx. lia.
  - fold idx. by rewrite Htk.
Qed.
Lemma handleInstallSnapshot_rel req from to A F c b :
  (∀ p x, SD p x → x ≠ []) →
  ainv A → rel A F c → is_u64 (is_term req) → out_rel A from (OutInstallSnapshot to req) →
  lastDelivered c ≤ commitIndex c → committed c = [] → qbase c = b →
  wp (handleInstallSnapshot req) (rpost (installed req b) A) c.
Proof.
  intros HSD Hi Hr Ht Hout Hst Hcm Hb. unfold handleInstallSnapshot. apply wp_bind, wp_get. cbn [wpk].
  eapply wp_rpost_bind; [done|by apply catch_up_rel|].
  intros _ A1 F1 c1 Hi1 Hg1 Hr1 (-> & Ht1 & Hk1 & _). apply (out_rel_grow _ _ _ _ _ _ Hg1) in Hout.
  apply wp_bind, wp_get. cbn [wpk]. destruct (_ <? _) eqn:E; zify_bool.
  { apply wp_ret, post_rpost, (post_ok Cfg SD i _ _ A1 F); [done|].
    split_and!; [intros _; by rewrite (lkey_handed _ _ Hk1)|apply Hr1|cbn; lia]. }
  eapply wp_rpost_bind; [done|by apply recognize_leader_rel|].
  intros _ A2 F2 c2 Hi2 Hg2 Hr2 (-> & Hf2 & Ht2 & Hk2). apply (out_rel_grow _ _ _ _ _ _ Hg2) in Hout.
  assert (lkey c2 = lkey c) as Hk by congruence. assert (term c2 = is_term req) as Hte by lia.
  destruct Hout as (_ & ld & Hld & Hidx & Hlt & Hco & Hsd & Hcf). rewrite <-Hte in Hld, Hco.
  assert (qbase c2 = b) as Hb2 by (by rewrite (lkey_handed _ _ Hk)).
  assert (lastDelivered c2 ≤ commitIndex c2 ∧ committed c2 = []) as [Hst2 Hcm2].
  { injection Hk. intros -> -> -> _. done. }
  destruct (r_deliv Hr2) as [Hdl _].
  apply wp_bind, wp_get. cbn [wpk]. cbv zeta. destruct (_ || _) eqn:E2.
  { eapply wp_mono; [|intros o c'; by apply post_rpost].
    apply (install_skip req ld A2 F); try done. apply orb_true_iff in E2 as [E2|E2]; zify_bool; lia. }
  apply orb_false_iff in E2 as [_ E2]. zify_bool.
  apply (install_rel req ld A2 F); try done. by eapply HSD.
Qed.

(** ** Booting *)

Lemma dead_sub A (d d' : D) :
  d_wf d' → (∀ t v, may_state d' t v → may_state d t v) → (∀ l, may_log d' l → may_log d l) →
  (∀ s, may_snap d' s → may_snap d s) → dead A d → dead A d'.
Proof.
  intros Hw Hs Hl Hsn (P & HP & _ & Hd). exists P. split; [done|]. split; [done|].
  intros t v s l ? ? ? ?. apply Hd; auto.
Qed.

Lemma reboot_dead A (d d' : D) : dead A d → reboot d d' → dead A d'.
Proof.
  intros Hd Hre. pose proof Hd as (P & _ & Hw & _). destruct (reboot_law d d' Hw Hre) as (? & ? & ? & ?).
  by apply (dead_sub A d).
Qed.

(** What [newCore] finds. *)
Lemma boot_load (d : D) :
  d_wf d →
  wp ('(t, v) ← loadState; snap ← loadSnapshot; l ← logOpen (lastIndex snap); mret (t, v, snap, l))
    (λ o d', d_wf d' ∧ (∀ t v, may_state d' t v → may_state d t v) ∧
      (∀ l, may_log d' l → may_log d l) ∧ (∀ s, may_snap d' s → may_snap d s) ∧
      match o with
      | Ok (t, v, snap, l) => d_open d' ∧ may_state d t v ∧ is_u64 t ∧ is_u64 v ∧
          (∀ t' v', may_state d' t' v' → t' = t ∧ v' = v) ∧ may_snap d snap ∧ may_log d l ∧
          starts_at (u64 (lastIndex snap + 1)) l
      | _ => True
      end) d.
Proof.
  intros Hw. apply wp_bind. eapply wp_mono; [by apply loadState_law|].
  intros o d1 (Hw1 & Hnow1 & Hs1 & Hl1 & Hsn1 & Ho).
  assert (∀ t v, may_state d1 t v → may_state d t v) as Hs1' by (intros ? ? ?%Hs1; done).
  destruct o as [[t v]|e| |]; cbn [wpk]; [|by split_and!..].
  destruct Ho as (Hnow & Hst & Htu & Hvu). apply wp_bind. eapply wp_mono; [by apply loadSnapshot_law|].
  intros o d2 (Hw2 & _ & Hnow2 & Hs2 & Hl2 & Hsn2 & Ho).
  assert (∀ t v, may_state d2 t v → may_state d t v) as Hs2' by (intros ? ? ?%Hs2; auto).
  destruct o as [snap|e| |]; cbn [wpk]; [|by split_and!; auto..].
  apply wp_bind. eapply wp_mono; [by apply wp_and; [apply logOpen_law|apply logOpen_base]|].
  intros o d3 [(Hw3 & Hs3 & Hl3 & Hsn3 & Ho3) Hst3].
  destruct o as [l|e| |]; cbn [wpk]; [|by split_and!; auto..].
  destruct Ho3 as (Hop & Hlog & Hnow3). apply wp_ret. split_and!; auto.
  intros t' v' ?%Hnow3%Hnow2%Hnow1. by eapply now_state_fun.
Qed.
(** A core that has just been recovered. *)
Record booted (A : abs) (F : list Entry) (c : C) : Prop := {
  bo_rel : rel A F (c <| pendingRestore := [] |>);
  bo_queue : committed c = [] ∧ lastDelivered c = snapIndex c;
  bo_restore : (pendingRestore c = [] ∧ snapIndex c = 0) ∨ restoring F c
}.

Lemma initial_core_rel A P conf (d d' : D) t v s l :
  ainv A → a_nodes A !! i = Some (Dead P) → dead_rel Cfg SD A P d → ID conf = i →
  settled d → d_open d' → may_state d t v → is_u64 t → is_u64 v →
  (∀ t' v', may_state d' t' v' → t' = t ∧ v' = v) → may_snap d s → may_log d l →
  starts_at (u64 (lastIndex s + 1)) l →
  (∀ l, may_log d' l → may_log d l) → (∀ s, may_snap d' s → may_snap d s) →
  ∃ A' F, asteps A A' ∧ booted A' F ((initial_core (applyDefaults conf) d' t v s l Cfg) <| members := Cfg |>) ∧
    Forall plain l.
Proof.
  intros Hi HP Hdr Hid [Hul Hus] Hop Hst Htu Hvu Huniq Hs Hl Hstart Hl' Hs'.
  destruct (Hdr t v s l Hst Hs Hl Hstart) as (F & HPF & Hsr & Hlz).
  pose proof (as_boot Cfg i A P (mkA t v F) HP HPF) as Hstep. pose proof (astep_inv _ _ _ _ Hi Hstep) as Hi'.
  eexists _, F. split; [by apply rtc_once|]. pose proof (grows_status A i (Live follower (mkA t v F))) as Hg.
  set (A' := RaftSpec.status A i _) in *.
  assert (a_nodes A' !! i = Some (Live follower (mkA t v F))) as Hn by apply lookup_insert_eq.
  pose proof (log_wf_view A' F follower t v Hi' Hn) as Hwf.
  apply (snap_rel_grow _ _ A A' F t t s Hg ltac:(lia)) in Hsr.
  pose proof Hsr as (Hb & Hbt & Hco & Hzero & Hpos).
  assert (default Cfg (config s) = Cfg) as Hdef.
  { destruct (decide (lastIndex s = 0)) as [E|]; [by rewrite Hzero|]. destruct Hpos as [-> _]; [lia|done]. }
  split; [|rewrite Hlz; by apply log_plain]. split; cbn; [|done|].
  - split; cbn; try done.
    + split; [done|..].
      * intros l' Hml. exists (lastIndex s). split; [lia|]. rewrite <-Hlz. apply Hul; auto.
      * intros s' Hms. assert (s' = s) as -> by (apply Hus; auto). split; [done|lia].
      * intros Hml s' Hms. assert (s' = s) as -> by (apply Hus; auto).
        assert (l = []) as Hnil by (apply Hul; auto). rewrite Hlz in Hnil. apply zdrop_nil in Hnil; lia.
    + split; [lia|done].
    + split; [lia|]. symmetry. apply zdrop_nil; [lia|]. unfold ztake. rewrite length_take. lia.
  - destruct (decide (lastIndex s = 0)) as [E|]; [left; by rewrite Hzero|right].
    destruct Hpos as [_ ?]; [lia|]. split_and!; cbn; try done. lia.
Qed.

Lemma newCore_rel conf A (d : D) :
  ainv A → dead A d → ID conf = i →
  match newCore conf Cfg d with
  | (Ok c, d') => disk c = d' ∧ dead A d' ∧ (settled d → ∃ A' F, asteps A A' ∧ booted A' F c)
  | (_, d') => dead A d'
  end.
Proof.
  intros Hi Hd Hid. pose proof Hd as (P & HP & Hw & Hdr). unfold newCore.
  destruct (ID conf =? 0); [done|]. cbv zeta.
  pose proof (boot_load d Hw) as Hload. unfold wp in Hload.
  match goal with |- context [match ?m d with _ => _ end] => destruct (m d) as [o d'] end.
  cbn [fst snd] in Hload. destruct Hload as (Hw' & Hs' & Hl' & Hsn' & Ho).
  assert (dead A d') as Hd' by (by apply (dead_sub A d)).
  destruct o as [[[[t v] s] l]|e| |]; [|done..].
  destruct Ho as (Hop & Hst & Htu & Hvu & Huniq & Hs & Hl & Hstart).
  set (c0 := initial_core _ _ _ _ _ _ _).
  assert (wp (recalcConfig;; resetElectionTimer) (λ o c', match o with
    | Ok _ => disk c' = d' ∧ (settled d → ∃ A' F, asteps A A' ∧ booted A' F c') | _ => True end) c0) as Hrun.
  { apply wp_bind, wp_modify. cbn [wpk]. apply wp_resetElectionTimer; [done|]. intros n. split; [done|]. intros Hset.
    edestruct (initial_core_rel A P conf d d' t v s l) as (A' & F & Hsteps & Hb & Hp); try done.
    exists A', F. split; [done|].
    assert (fold_members (snapConfig c0) (entries c0) = Cfg) as Hm.
    { destruct Hb as [Hr _ _]. destruct (r_members Hr) as [_ E]. cbn in E. rewrite fold_members_plain; [exact E|exact Hp]. }
    destruct Hb as [Hr ? ?]. split; cbn; [|done|done]. destruct Hr; split; cbn in *; try done. split; [exact Hm|by destruct r_members]. }
  unfold wp in Hrun. destruct ((recalcConfig;; resetElectionTimer) c0) as [[[]|e| |] c]; cbn [fst snd] in Hrun; try done.
  destruct Hrun. done.
Qed.
End snapshots.
