(* ===== verification/CoreReads.v ===== *)
(** * What one event does to a core's reads, commit index and messages

    The facts about the handlers that linearizable reads rest on, whatever the
    outcome of the handler: how far the commit index and the snapshots on disk can
    move, what a leader says of its commit index and with which sequence number, and
    what becomes of a pending read barrier (readindex.go).

    [c0] is the core before the event; [B] bounds the commit index it had and the
    commit index or snapshot index the event carries.  One read barrier is followed:
    the one with id [id0], registered in term [T] at index [k], which counts answers
    to messages numbered [s] or later.  [good j] is what an answer of node [j] is
    worth. *)

From stdpp Require Import prelude gmap strings sorting.
From S2P Require Import Prelude GoRuntime GoBytes RaftTypes Membership RaftLaws Core CoreVotes RaftSpec.
Open Scope Z_scope.

Section reads.
Context {D : Type} `{RaftDiskLaws D} `{GoRuntime}.
Context (Cfg : Members) (Cfg_wf : members_wf Cfg) (Cfg_rt : decodeMembers (encodeMembers Cfg) = Ok Cfg).
Context (E : Z → Z → Z → Prop).
Context (id0 k s T : Z) (good : Z → Prop).

Abbreviation C := (core D).
Abbreviation ninv := (ninv Cfg E).
Abbreviation keeps := (keeps Cfg E).

(** ** The barrier *)

(** A majority of the members gave a good answer. *)
Definition confirmed : Prop := ∃ Q, is_quorum Cfg Q ∧ ∀ j, j ∈ Q → good j.

Record reads_ok (c : C) : Prop := {
  rd_idle : role c ≠ leader → pendingReads c = [];
  rd_ids : 0 ≤ readCounter c ∧ Forall (λ r, 0 ≤ pr_id r ≤ readCounter c) (pendingReads c);
  rd_known : id0 ≤ readCounter c;
  rd_pending : ∀ r, r ∈ pendingReads c → pr_id r = id0 →
    term c = T ∧ pr_index r = k ∧ pr_minSeq r = s ∧ ∀ j, j ∈ pr_acks r → j ∈ dom Cfg ∧ good j;
  rd_outcomes : ∀ o, o ∈ readOutcomes c → ro_id o = id0 → ro_confirmed o = true → ro_index o = k ∧ confirmed
}.

(** ** Since the event began *)

Context (c0 : C) (B : Z).

(** A message sent since then. *)
Definition new_msg (c : C) (o : outbound) : Prop :=
  match o with
  | OutRequestVote _ _ => True
  | OutAppendEntries _ req =>
      role c = leader ∧ ae_term req = term c ∧ ae_leaderCommit req ≤ commitIndex c ∧
      appendSeq c0 < ae_seq req ≤ appendSeq c
  | OutInstallSnapshot _ req => role c = leader ∧ is_term req = term c ∧ is_lastIncludedIndex req ≤ B
  | OutTimeoutNow to req => role c = leader ∧ tn_term req = term c ∧ to ≠ ID (cfg c0)
  end.

(** [b] AppendEntries requests at most. *)
Record steps_ok (b : Z) (c : C) : Prop := {
  so_cfg : cfg c = cfg c0;
  so_term : term c0 ≤ term c;
  so_role : term c = term c0 →
    (role c = candidate → role c0 = candidate) ∧ (role c = leader → role c0 ≠ follower);
  so_pos : 0 ≤ commitIndex c;
  so_commit : commitIndex c ≤ B ∨
    role c = leader ∧ ((role c0 = leader ∧ term c = term c0) ∨ (size Cfg ≤ 1)%nat);
  so_deliv : lastDelivered c ≤ B ∨ lastDelivered c ≤ commitIndex c;
  so_mono : role c0 = leader → role c = leader → term c = term c0 → commitIndex c0 ≤ commitIndex c;
  so_seq : appendSeq c0 ≤ appendSeq c ≤ appendSeq c0 + b;
  so_out : ∃ os, outbox c = outbox c0 ++ os ∧ Forall (new_msg c) os;
  so_snaps : ∀ sn, may_snap (disk c) sn → lastIndex sn ≤ B
}.

Definition fine (b : Z) (c : C) : Prop := reads_ok c ∧ steps_ok b c.

(** Nothing has been sent or committed as a leader yet. *)
Definition calm (c : C) : Prop :=
  commitIndex c ≤ B ∧ lastDelivered c ≤ B ∧ appendSeq c = appendSeq c0 ∧
  ∃ os, outbox c = outbox c0 ++ os ∧ Forall (λ o, match o with OutRequestVote _ _ => True | _ => False end) os.

(** What the invariants read. *)
Definition vis (c : C) :=
  (role c, term c, commitIndex c, lastDelivered c, appendSeq c, outbox c, disk c, cfg c,
   pendingReads c, readOutcomes c, readCounter c).

Lemma vis_fine b c c' : vis c' = vis c → fine b c → fine b c'.
Proof.
  unfold vis. intros [= E1 E2 E3 E4 E5 E6 E7 E8 E9 E10 E11] [[] [? ? ? ? ? ? ? ? Ho ?]].
  assert (∀ o, new_msg c o → new_msg c' o) as Hm.
  { intros []; unfold new_msg; rewrite ?E1, ?E2, ?E3, ?E5; done. }
  split; split; rewrite ?E1, ?E2, ?E3, ?E4, ?E5, ?E6, ?E7, ?E8, ?E9, ?E10, ?E11; try done.
  destruct Ho as (os & ? & Hos). exists os. split; [done|]. by eapply Forall_impl.
Qed.

Lemma vis_calm c c' : vis c' = vis c → calm c → calm c'.
Proof. unfold vis, calm. by intros [= _ _ -> -> -> -> _ _ _ _ _]. Qed.

Lemma fine_more b b' c : b ≤ b' → fine b c → fine b' c.
Proof. intros Hb [Hr []]. split; [done|]. split; try done. lia. Qed.

Lemma calm_votes c : calm c → ∃ os, outbox c = outbox c0 ++ os ∧ ∀ c', Forall (new_msg c') os.
Proof.
  intros (_ & _ & _ & os & ? & Hos). exists os. split; [done|]. intros c'. eapply Forall_impl; [exact Hos|]. by intros [].
Qed.

(** From a calm state: the role and the term may change. *)
Lemma calm_fine b c c' :
  fine b c → calm c → reads_ok c' → cfg c' = cfg c → outbox c' = outbox c → commitIndex c' = commitIndex c →
  lastDelivered c' = lastDelivered c → appendSeq c' = appendSeq c → term c ≤ term c' →
  (∀ sn, may_snap (disk c') sn → lastIndex sn ≤ B) →
  (term c' = term c0 → (role c' = candidate → role c0 = candidate) ∧ (role c' = leader → role c0 = candidate)) →
  fine b c' ∧ calm c'.
Proof.
  intros [_ Hs] Hc Hr Ecfg Eout Ecom Edel Eseq Ht Hsn Hrole.
  assert (calm c') as Hc' by (unfold calm; by rewrite Eout, Ecom, Edel, Eseq). split; [|done]. split; [done|].
  destruct Hs as [? ? _ ? _ _ _ ? _ _]. destruct (calm_votes _ Hc') as (os & Hos & Hv).
  destruct Hc' as (? & ? & _). split; rewrite ?Ecom, ?Eseq; try done.
  - congruence.
  - lia.
  - intros E1. destruct (Hrole E1) as [? Hl]. split; [done|]. intros E2. by rewrite (Hl E2).
  - left. congruence.
  - by left.
  - intros E1 E2 E3. destruct (Hrole E3) as [_ Hl]. rewrite (Hl E2) in E1. done.
  - by exists os.
Qed.

Lemma reads_frame c c' :
  (role c' ≠ leader → pendingReads c' = []) → term c' = term c → pendingReads c' = pendingReads c →
  readOutcomes c' = readOutcomes c → readCounter c' = readCounter c → reads_ok c → reads_ok c'.
Proof. intros ? Et Ep Eo Er []. split; rewrite ?Et, ?Eo, ?Er; try done; by rewrite Ep. Qed.

(** ** Stepping through code *)

Ltac ninv_frame :=
  match goal with
  | Hn : ninv ?c |- ninv _ => destruct Hn; split; cbn; solve [assumption | done | eauto]
  end.

Definition held {X} (b : Z) (R : C → Prop) (m : M C X) (c : C) : Prop := wp m (λ _ c', fine b c' ∧ R c') c.

Lemma held_weaken {X} b b' (R R' : C → Prop) (m : M C X) c :
  b ≤ b' → (∀ c', R c' → R' c') → held b R m c → held b' R' m c.
Proof. unfold held. intros Hb HR Hm. eapply wp_mono; [exact Hm|]. intros _ c' [? ?]. split; [by eapply fine_more|auto]. Qed.

Lemma held_bind {X Y} b b' (R R' : C → Prop) (m : M C X) (f : X → M C Y) c :
  held b R m c → wp m (keeps c) c → b ≤ b' → (∀ c1, R c1 → R' c1) →
  (∀ a c1, ninv c1 → fine b c1 → R c1 → held b' R' (f a) c1) → held b' R' (m ≫= f) c.
Proof.
  unfold held. intros Hm Hk Hb HR Hf. apply wp_bind. eapply wp_mono; [exact (wp_and _ _ _ _ Hm Hk)|].
  intros o c1 [[Hg Hr] [_ Ho]]. destruct o; cbn [wpk]; [|split; [by eapply fine_more|by apply HR]..].
  destruct Ho. by apply Hf.
Qed.

Lemma held_and {X} b (R : C → Prop) (Q : outcome X → C → Prop) (m : M C X) c :
  held b R m c → wp m Q c → wp m (λ o c', (fine b c' ∧ R c') ∧ Q o c') c.
Proof. apply wp_and. Qed.

(** Code that changes nothing the invariants read. *)
Definition still_vis {X} (m : M C X) : Prop := ∀ c, wp m (λ _ c', vis c' = vis c) c.

Lemma still_vis_bind {X Y} (m : M C X) (f : X → M C Y) :
  still_vis m → (∀ a, still_vis (f a)) → still_vis (m ≫= f).
Proof.
  intros Hm Hf c. apply wp_bind. eapply wp_mono; [apply Hm|]. intros o c1 E1.
  destruct o; cbn [wpk]; [|done..]. eapply wp_mono; [apply Hf|]. intros ? ? E2. congruence.
Qed.

Ltac still_vis :=
  repeat lazymatch goal with
  | |- still_vis (mbind _ _) => apply still_vis_bind; [|intros ?]
  | |- still_vis (if ?b then _ else _) => destruct b
  | |- still_vis (match ?x with _ => _ end) => destruct x
  | |- still_vis _ => intros ?; reflexivity
  end.

Lemma peerIDs_vis : still_vis peerIDs.
Proof. unfold peerIDs. still_vis. Qed.
Lemma resetElectionTimer_vis : still_vis resetElectionTimer.
Proof. unfold resetElectionTimer. still_vis. Qed.
Lemma put_next_vis from v : still_vis (put_next from v).
Proof. unfold put_next. still_vis. Qed.
Lemma put_match_vis from v : still_vis (put_match from v).
Proof. unfold put_match. still_vis. Qed.

Lemma still_held {X} b (R : C → Prop) (m : M C X) c :
  still_vis m → fine b c → (∀ c', vis c' = vis c → R c') → held b R m c.
Proof. unfold held. intros Hm Hf HR. eapply wp_mono; [apply Hm|]. cbv beta. intros _ c' Hv. split; [by eapply vis_fine|auto]. Qed.

(** ** Leading *)

Context (seq_room : 0 ≤ appendSeq c0 ∧ appendSeq c0 + Z.of_nat (size Cfg) < 2 ^ 64).

Definition leads (c c' : C) : Prop := role c' = leader ∧ term c' = term c ∧ matchIndex c' = matchIndex c.

Lemma leads_refl c : role c = leader → leads c c.
Proof. done. Qed.
Lemma leads_trans c1 c2 c3 : leads c1 c2 → leads c2 c3 → leads c1 c3.
Proof. unfold leads. intros (? & ? & ?) (? & ? & ?). split_and!; congruence. Qed.

Lemma held_leads {X} b (m : M C X) c c1 : leads c c1 → held b (leads c1) m c1 → held b (leads c) m c1.
Proof. intros Hl. apply held_weaken; [done|]. intros c'. by apply leads_trans. Qed.

Lemma fine_send b o c : fine b c → new_msg c o → fine b (set outbox (λ l, l ++ [o]) c).
Proof.
  intros [[] [? ? ? ? ? ? ? ? (os & Hos & Hm) ?]] Ho. split; split; cbn; try done.
  exists (os ++ [o]). rewrite Hos, app_assoc. split; [done|]. apply Forall_app_2; [exact Hm|by apply Forall_singleton].
Qed.

Lemma fine_disk b c d : fine b c → (∀ sn, may_snap d sn → may_snap (disk c) sn) → fine b (c <| disk := d |>).
Proof. intros [[] [? ? ? ? ? ? ? ? ? Hsn]] Hd. split; split; cbn; try done. intros sn ?%Hd. by apply Hsn. Qed.

Lemma sendAppend_held b peer c :
  ninv c → fine b c → role c = leader → b + 1 ≤ Z.of_nat (size Cfg) → held (b + 1) (leads c) (sendAppend peer) c.
Proof.
  intros Hn Hf Hl Hb. assert (fine (b + 1) c) as Hf' by (apply (fine_more b); [lia|done]).
  unfold held, sendAppend. apply wp_bind, wp_get. cbn [wpk]. cbv zeta. set (next := if _ =? 0 then 1 else _).
  destruct (next <=? snapIndex c).
  - apply wp_bind, wp_attempt, wp_zoom. eapply wp_mono; [apply loadSnapshot_law, d_open_wf, Hn|].
    intros o d' (_ & _ & _ & _ & _ & Hsn & Ho). pose proof (fine_disk _ _ d' Hf' Hsn) as Hd.
    destruct o as [snap|e| |]; cbn [wpk]; [|by apply wp_ret|done|done].
    apply wp_modify. split; [|done]. apply fine_send; [done|]. cbn. split_and!; [done..|].
    destruct Hf' as [_ Hs]. by apply (so_snaps _ _ Hs).
  - pose proof Hf as [[] [? ? ? ? ? ? ? Hseq (os & Hos & Hm) ?]].
    assert (u64 (appendSeq c + 1) = appendSeq c + 1) as Hu by (apply u64_small; unfold is_u64; lia).
    apply wp_bind, wp_modify. cbn [wpk].
    match goal with |- wp _ _ ?s => assert (fine (b + 1) s) as Hf1; [|assert (leads c s) as Hl1 by done] end.
    { split; split; cbn; try done; rewrite ?Hu; [lia|]. exists os. split; [done|]. eapply Forall_impl; [exact Hm|].
      intros []; cbn; try done. intros (? & ? & ? & ?). split_and!; try done; lia. }
    apply wp_bind, wp_lift. destruct (termAt c _); cbn [wpk]; [|done..].
    apply wp_bind, wp_lift. match goal with |- wpk _ _ ?o _ => destruct o end; cbn [wpk]; [|done..].
    apply wp_modify. split; [|done]. apply fine_send; [done|]. cbn. rewrite Hu. split_and!; try done; lia.
Qed.

Lemma send_all_held b ids c :
  ninv c → fine b c → role c = leader → b + zlength ids ≤ Z.of_nat (size Cfg) →
  held (b + zlength ids) (leads c) (for_each ids sendAppend) c.
Proof.
  revert b c. induction ids as [|id ids IH]; intros b c Hn Hf Hl Hb; simpl length in *; cbn [for_each].
  { apply wp_ret. split; [by apply (fine_more b); [lia|]|done]. }
  apply (held_bind (b + 1) _ (leads c)).
  - apply sendAppend_held; try done. lia.
  - by apply sendAppend_keeps.
  - lia.
  - done.
  - intros _ c1 Hn1 Hf1 Hl1. apply held_leads; [done|].
    replace (b + Z.of_nat (Datatypes.S (length ids))) with (b + 1 + zlength ids) by lia. apply IH; try done; [apply Hl1|lia].
Qed.

Lemma broadcastAppends_held b c :
  ninv c → fine b c → role c = leader → b ≤ 0 → held (Z.of_nat (size Cfg)) (leads c) broadcastAppends c.
Proof.
  intros Hn Hf Hl Hb. unfold broadcastAppends, peerIDs. apply wp_bind, wp_bind, wp_get, wp_bind, wp_modify, wp_ret. cbn [wpk].
  match goal with |- wp (for_each ?l _) _ ?s => set (ids := l); assert (ninv s) as Hn1 by ninv_frame;
    assert (fine b s) as Hf1 by (by apply (vis_fine b c)) end.
  assert (length ids ≤ size Cfg)%nat as Hlen.
  { unfold ids. etrans; [apply length_filter|]. rewrite map_order_perm, (ni_members _ _ _ Hn).
    change (size (dom Cfg) ≤ size Cfg)%nat. by rewrite size_dom. }
  eapply held_weaken; [| |apply (send_all_held 0)]; try done; [lia|by apply (fine_more b)|lia].
Qed.

(** ** Committing *)

Definition delivers_only (c c' : C) : Prop := vis c' = vis c ∧ members c' = members c ∧ matchIndex c' = matchIndex c.

Lemma ninv_isMember c : ninv c → isMember c = true.
Proof.
  intros Hn. unfold isMember. rewrite (ni_members _ _ _ Hn). apply bool_decide_eq_true_2, elem_of_dom. apply Hn.
Qed.

Lemma deliver_one_only base i c : isMember c = true → wp (deliver_one base i) (λ _ c', delivers_only c c') c.
Proof.
  intros Hm. unfold deliver_one. apply wp_bind, wp_get. cbn [wpk]. apply wp_bind, wp_lift.
  destruct (zindex _ _); cbn [wpk]; [|done..]. apply wp_bind, wp_modify. cbn [wpk]. rewrite Hm, andb_false_r. by apply wp_ret.
Qed.

Lemma deliver_loop_only fuel base i commit c :
  isMember c = true → wp (deliver_loop fuel base i commit) (λ _ c', delivers_only c c') c.
Proof.
  revert i c. induction fuel as [|fuel IH]; intros i c Hm; simpl; (destruct (_ <? _); [by apply wp_ret|]); [by apply wp_panic|].
  apply wp_bind. eapply wp_mono; [by apply deliver_one_only|]. intros o c1 (Hv & Hme & Hma).
  destruct o; cbn [wpk]; [|done..]. assert (cfg c1 = cfg c) as Hc by (unfold vis in Hv; congruence).
  eapply wp_mono; [apply IH; unfold isMember in *; by rewrite Hme, Hc|]. intros _ c2 (? & ? & ?). split_and!; congruence.
Qed.

Lemma deliverCommitted_held b c :
  ninv c → fine b c →
  held b (λ c', role c' = role c ∧ term c' = term c ∧ commitIndex c' = commitIndex c ∧ appendSeq c' = appendSeq c ∧
    outbox c' = outbox c ∧ matchIndex c' = matchIndex c) deliverCommitted c.
Proof.
  intros Hn Hf. unfold held, deliverCommitted. apply wp_bind, wp_get. cbn [wpk]. destruct (entries c); [by apply wp_ret|].
  apply wp_bind. eapply wp_mono; [by apply deliver_loop_only, ninv_isMember|]. intros o c1 (Hv & _ & Hm).
  pose proof (vis_fine b c c1 Hv Hf) as Hf1. injection Hv as ? ? ? ? ? ? ? ? ? ? ?. destruct o; cbn [wpk]; [|done..].
  apply wp_modify. case_match; [|done]. split; [|done]. destruct Hf1 as [[] []]. split; split; cbn; try done. by right.
Qed.

(** Whose commits count: a leader from before the event, or the only member. *)
Definition entitled (c : C) : Prop :=
  (role c0 = leader ∧ term c = term c0) ∨ (size Cfg ≤ 1)%nat ∨ ∀ j, map_get (matchIndex c) j = 0.

Lemma replicas_alone (c : C) ids n : (∀ j, map_get (matchIndex c) j = 0) → 0 < n → replicas c ids n ≤ 1.
Proof.
  intros Hz Hn. unfold replicas. assert (filter (λ id, n ≤ map_get (matchIndex c) id) ids = []) as ->.
  { induction ids as [|j ids IH]; [done|]. rewrite filter_cons_False; [done|]. rewrite Hz. lia. }
  destruct (isMember c); simpl; lia.
Qed.

Lemma advance_loop_held fuel b n c :
  ninv c → fine b c → role c = leader → entitled c → held b (leads c) (advance_loop fuel n) c.
Proof.
  revert n c. induction fuel as [|fuel IH]; intros n c Hn Hf Hl He; simpl; [by apply wp_ret|].
  apply wp_bind, wp_get. cbn [wpk]. destruct (commitIndex c <? n) eqn:Hlt; cbn [negb]; [|by apply wp_ret]. zify_bool.
  apply wp_bind, wp_lift. destruct (termAt c n); cbn [wpk]; [|done..]. destruct (negb _); [by apply wp_ret|].
  unfold peerIDs. apply wp_bind, wp_bind, wp_get, wp_bind, wp_modify, wp_ret. cbn [wpk].
  match goal with |- wp _ _ ?s => assert (ninv s) as Hn1 by ninv_frame;
    assert (fine b s) as Hf1 by (by apply (vis_fine b c)); set (c1 := s) in * end.
  case_match eqn:Hmaj; [|by apply (held_leads _ _ c c1), IH]. zify_bool. apply wp_bind, wp_modify. cbn [wpk].
  match goal with |- wp _ _ ?s => assert (ninv s) as Hn2 by ninv_frame; set (c2 := s) in * end.
  assert (fine b c2) as Hf2.
  { destruct Hf1 as [[] [? ? ? ? ? Hdel ? ? (os & Hos & Hm) ?]]. cbn in *. split; split; cbn; try done; try lia.
    - right. split; [done|]. destruct He as [?|[?|Hz]]; [by left|by right|right].
      unfold majority in Hmaj. rewrite (ni_members _ _ _ Hn) in Hmaj.
      match type of Hmaj with _ ≤ replicas _ ?ids _ => pose proof (replicas_alone c ids n Hz) end.
      pose proof (Z.div_mod (Z.of_nat (size Cfg)) 2). pose proof (Z.mod_pos_bound (Z.of_nat (size Cfg)) 2). lia.
    - intros E1 E2 E3. specialize (so_mono0 E1 E2 E3). lia.
    - exists os. split; [done|]. eapply Forall_impl; [exact Hm|]. intros []; cbn; try done. intros (? & ? & ? & ?). split_and!; try done; lia. }
  eapply held_weaken; [reflexivity| |by apply deliverCommitted_held]. intros c' (? & ? & _ & _ & _ & ?).
  subst c1 c2. cbn in *. split_and!; congruence.
Qed.

Lemma maybeAdvanceCommit_held b c :
  ninv c → fine b c → role c = leader → entitled c → held b (leads c) maybeAdvanceCommit c.
Proof. intros. unfold maybeAdvanceCommit. apply wp_bind, wp_get. cbn [wpk]. by apply advance_loop_held. Qed.

(** ** Reads *)

Lemma abort_reads c c' :
  pendingReads c' = [] → readCounter c' = readCounter c →
  readOutcomes c' = readOutcomes c ++ ((λ r, mkOutcome (pr_id r) 0 false) <$> pendingReads c) →
  reads_ok c → reads_ok c'.
Proof.
  intros Ep Er Eo [? [? ?] ? ? Hout]. split; rewrite ?Ep, ?Er; try done; [by intros r ?%elem_of_nil|].
  intros o Ho. rewrite Eo in Ho. apply elem_of_app in Ho as [Ho|Ho]; [by apply Hout|].
  apply list_elem_of_fmap in Ho as (r & -> & _). done.
Qed.

Lemma confirmReads_held b c : ninv c → fine b c → held b (λ c', role c' = role c ∧ term c' = term c ∧ matchIndex c' = matchIndex c) confirmReads c.
Proof.
  intros Hn [[Hidle [Hctr Hids] Hknown Hpend Hout] Hs]. unfold confirmReads. apply wp_bind, wp_get. cbn [wpk]. cbv zeta.
  apply wp_bind, wp_modify. cbn [wpk]. apply wp_ret. split; [|done]. split; [|destruct Hs; by split].
  rewrite (majority_quorum _ _ _ Hn). split; cbn; try done.
  - intros Hr. by rewrite (Hidle Hr).
  - split; [done|]. rewrite Forall_forall in Hids |- *. intros r [_ Hr]%list_elem_of_filter. by apply Hids.
  - intros r [_ Hr]%list_elem_of_filter. by apply Hpend.
  - intros o [Ho|Ho]%elem_of_app; [by apply Hout|]. apply list_elem_of_fmap in Ho as (r & -> & [Hq Hr]%list_elem_of_filter).
    cbn. intros Hid _. destruct (Hpend r Hr Hid) as (_ & ? & _ & Hacks). split; [done|]. exists (pr_acks r).
    split; [split; [|exact Hq]|]; intros j Hj; by apply Hacks.
Qed.

Lemma noteFreshAck_held b from seq c :
  ninv c → fine b c → from ∈ dom Cfg → (term c = T → s ≤ seq → good from) →
  held b (λ c', role c' = role c ∧ term c' = term c ∧ matchIndex c' = matchIndex c) (noteFreshAck from seq) c.
Proof.
  intros Hn [[Hidle [Hctr Hids] Hknown Hpend Hout] Hs] Hfrom Hgood. unfold noteFreshAck. apply wp_bind, wp_get. cbn [wpk]. cbv zeta.
  apply wp_bind, wp_modify. cbn [wpk].
  match goal with |- wp _ _ ?x => assert (ninv x) as Hn1 by ninv_frame; assert (fine b x) as Hf1; [|set (c1 := x) in *] end.
  { split; [|destruct Hs; by split]. split; cbn; try done.
    - intros Hr. by rewrite (Hidle Hr).
    - split; [done|]. apply Forall_fmap. eapply Forall_impl; [exact Hids|]. intros r ?. cbn. by case_match.
    - intros r' (r & -> & Hr)%list_elem_of_fmap. case_match; [|by apply Hpend]. cbn. intros Hid.
      destruct (Hpend r Hr Hid) as (? & ? & ? & Hacks). split_and!; try done. zify_bool.
      intros j [->%elem_of_singleton|?]%elem_of_union; [|by apply Hacks]. split; [done|]. apply Hgood; [done|lia]. }
  case_match; [|by apply wp_ret]. eapply held_bind; [by apply confirmReads_held|by apply confirmReads_keeps|done|done|].
  intros. by apply wp_ret.
Qed.

(** ** Following *)

Definition follows (t : Z) (c : C) : Prop := calm c ∧ role c = follower ∧ term c = t.

Lemma stepDown_held b t c :
  ninv c → fine b c → calm c → is_u64 t → term c < t → held b (follows t) (stepDown t) c.
Proof.
  intros Hn Hf Hc Ht Hlt. unfold held, stepDown, abortPendingReads.
  apply wp_bind, wp_modify. cbn [wpk]. apply wp_bind, wp_modify. cbn [wpk]. apply wp_wrap, wp_zoom.
  eapply wp_mono; [apply saveState_law; [apply Hn|done|done]|]. intros o d' (_ & _ & _ & Hsn & _).
  pose proof Hf as [Hr Hs].
  match goal with |- context [fine b ?x] => set (c' := x) end.
  assert (fine b c' ∧ calm c') as [? ?].
  { apply (calm_fine b c); try done.
    - by apply (abort_reads c).
    - cbn. lia.
    - intros sn ?%Hsn. by apply (so_snaps _ _ Hs). }
  by destruct o.
Qed.

(** ... if the message's term is newer, from the start of the event. *)
Lemma stepDown_to_held t :
  ninv c0 → fine 0 c0 → calm c0 → is_u64 t →
  held 0 (λ c', calm c' ∧ ((term c0 < t ∧ role c' = follower ∧ term c' = t) ∨ (t ≤ term c0 ∧ c' = c0)))
    (if term c0 <? t then stepDown t else mret ()) c0.
Proof.
  intros Hn Hf Hc Ht. destruct (term c0 <? t) eqn:Hlt; zify_bool.
  - eapply held_weaken; [reflexivity| |by apply stepDown_held]. intros c' (? & ? & ?). auto.
  - apply wp_ret. split; [done|]. auto.
Qed.

Lemma recognize_leader_held id c :
  fine 0 c → calm c → role c ≠ leader → held 0 (follows (term c)) (recognize_leader id) c.
Proof.
  intros Hf Hc Hl. unfold recognize_leader. apply wp_bind, wp_modify. cbn [wpk].
  match goal with |- wp _ _ ?x => assert (fine 0 x ∧ follows (term c) x) as [Hf1 Hc1] end.
  { destruct (bool_decide (role c = follower)) eqn:Er; zify_bool; [done|]. pose proof Hf as [Hr Hs].
    assert (pendingReads c = []) as Hnil by (by apply Hr).
    edestruct (calm_fine 0 c) as [? ?]; [exact Hf|exact Hc|..|by split_and!]; try done; [by apply (reads_frame c)|apply (so_snaps _ _ Hs)]. }
  revert Hf1 Hc1. generalize (if bool_decide (role c = follower) then c else c <| role := follower |> <| votes := None |>).
  intros c1 Hf1 (Hc1 & ? & ?). assert (still_vis (modify (set leaderID (λ _, id));; resetElectionTimer;; modify (set ticksSinceLeader (λ _, 0)))) as Hst.
  { apply still_vis_bind; [done|]. intros _. apply still_vis_bind; [apply resetElectionTimer_vis|done]. }
  apply still_held; [exact Hst|done|]. intros c' Hv. pose proof (vis_calm _ _ Hv Hc1). injection Hv as ? ? ? ? ? ? ? ? ? ? ?.
  split_and!; congruence.
Qed.

(** ** Elections *)

Lemma logAppend_held b es c (R : C → Prop) :
  ninv c → fine b c → Forall plain es → (∀ d, R (c <| disk := d |>)) → held b R (zoom disk (logAppend es)) c.
Proof.
  intros Hn Hf Hes HR. apply wp_zoom. eapply wp_mono.
  { apply logAppend_law; [apply Hn|]. eapply Forall_impl; [exact Hes|]. by intros ? []. }
  intros o d' (_ & _ & _ & Hsn & _). split; [by apply fine_disk|done].
Qed.

Lemma held_wrap {X} b (R : C → Prop) fmt (m : M C X) c : held b R m c → held b R (wrap fmt m) c.
Proof. unfold held. intros Hm. apply wp_wrap. eapply wp_mono; [exact Hm|]. by intros []. Qed.

Lemma held_any {X} b b' (R : C → Prop) (m : M C X) c : b ≤ b' → held b R m c → held b' (λ _, True) m c.
Proof. intros Hb. by apply held_weaken. Qed.

Abbreviation room := (Z.of_nat (size Cfg)).

Lemma maybeWinElection_held c : ninv c → fine 0 c → calm c → held room (λ _, True) maybeWinElection c.
Proof.
  intros Hn Hf Hc. unfold maybeWinElection. apply wp_bind, wp_get. cbn [wpk].
  destruct (_ || _) eqn:Eif; [apply wp_ret; split; [|done]; by apply (fine_more 0); [lia|]|]. zify_bool.
  apply wp_bind, wp_modify. cbn [wpk]. pose proof Hf as [Hr Hs].
  match goal with |- wp _ _ ?x => assert (ninv x) as Hn1; [|assert (fine 0 x) as Hf1; [|set (c1 := x) in *]] end.
  { rewrite (majority_quorum _ _ _ Hn) in *. destruct Hn; split; cbn; try done. intros _. apply ni_votes. congruence. }
  { edestruct (calm_fine 0 c) as [? _]; [exact Hf|exact Hc|..|done]; try done.
    - by apply (reads_frame c).
    - apply (so_snaps _ _ Hs).
    - cbn. intros Et. destruct (so_role _ _ Hs Et). auto. }
  unfold peerIDs at 1. apply wp_bind, wp_bind, wp_get, wp_bind, wp_modify, wp_ret. cbn [wpk].
  apply wp_bind, wp_get. cbn [wpk]. apply wp_bind, wp_modify. cbn [wpk]. cbv zeta.
  match goal with |- wp _ _ ?x => assert (ninv x) as Hn2 by ninv_frame; assert (fine 0 x) as Hf2 by (by apply (vis_fine 0 c1)); set (c2 := x) in * end.
  match goal with |- wp (mbind _ (wrap _ (zoom _ (logAppend [?e])))) _ _ => assert (plain e) as Hp end.
  { apply plain_new; [apply Hn2|apply u64_range|by right|done]. }
  apply (held_bind 0 _ (λ c', role c' = leader ∧ matchIndex c' = Some ∅)).
  { apply held_wrap, logAppend_held; try done. by apply Forall_singleton. }
  { apply logAppend_wrap_keeps; [done|by apply Forall_singleton]. }
  { lia. } { done. }
  intros _ c3 Hn3 Hf3 [Hl3 Hm3]. apply wp_bind, wp_modify. cbn [wpk].
  match goal with |- wp _ _ ?x => assert (ninv x) as Hn4; [|assert (fine 0 x) as Hf4 by (by apply (vis_fine 0 c3)); set (c4 := x) in *] end.
  { apply ninv_entries; [done|]. apply Forall_app_2; [apply (ni_entries _ _ _ Hn3)|by apply Forall_singleton]. }
  apply (held_bind room _ (leads c4)); [by apply (broadcastAppends_held 0)|by apply broadcastAppends_keeps|done|done|].
  intros _ c5 Hn5 Hf5 (Hl5 & _ & Hm5). eapply held_any; [reflexivity|]. apply maybeAdvanceCommit_held; try done.
  right; right. intros j. rewrite Hm5. cbn. by rewrite Hm3.
Qed.

Lemma ninv_outbox outs c :
  ninv c → Forall (out_ok Cfg (ID (cfg c)) (term c)) outs → ninv (set outbox (λ l, l ++ outs) c).
Proof. intros [] Houts. split; cbn; try done. by apply Forall_app_2. Qed.

Lemma fine_votes b outs c :
  fine b c → calm c → Forall (λ o, match o with OutRequestVote _ _ => True | _ => False end) outs →
  let c' := set outbox (λ l, l ++ outs) c in
  fine b c' ∧ calm c' ∧ (role c ≠ leader → role c' ≠ leader) ∧ (term c < 2 ^ 64 - 1 → term c' < 2 ^ 64 - 1).
Proof.
  intros [[] [? ? ? ? ? ? ? ? (os & Hos & Hm) ?]] (Hc1 & Hc2 & Hc3 & os' & Hos' & Hm') Houts. cbv zeta.
  assert (os' = os) as -> by (apply (app_inv_head (outbox c0)); congruence). split; [|split; [|done]].
  - split; split; cbn; try done. exists (os ++ outs). rewrite Hos, app_assoc. split; [done|].
    apply Forall_app_2; [exact Hm|]. eapply Forall_impl; [exact Houts|]. by intros [].
  - split_and!; try done. exists (os ++ outs). cbn. rewrite Hos, app_assoc. split; [done|by apply Forall_app_2].
Qed.

Lemma startCampaign_held c :
  ninv c → fine 0 c → calm c → role c ≠ leader → term c < 2 ^ 64 - 1 → held room (λ _, True) startCampaign c.
Proof.
  intros Hn Hf Hc Hl Hb. pose proof (ni_term _ _ _ Hn) as Ht. pose proof (ni_id _ _ _ Hn) as (_ & Hi & _). pose proof Hf as [Hr Hs].
  assert (u64 (term c + 1) = term c + 1) as Hu by (apply u64_small; unfold is_u64 in *; lia).
  assert (∀ c1, (∃ n d, (∀ sn, may_snap d sn → may_snap (disk c) sn) ∧ vis c1 = vis (campaigning n d c)) → fine 0 c1 ∧ calm c1) as Hc1.
  { intros c1 (n & d & Hd & Hv). assert (pendingReads c = []) as Hnil by (by apply Hr).
    edestruct (calm_fine 0 c (campaigning n d c)) as [? ?]; try done; cbn.
    - destruct Hr as [? [? ?] ? ? ?]. split; cbn; rewrite ?Hnil; try done. by intros r ?%elem_of_nil.
    - lia.
    - intros sn ?%Hd. by apply (so_snaps _ _ Hs).
    - rewrite Hu. pose proof (so_term _ _ Hs). lia.
    - split; [by eapply vis_fine|by eapply vis_calm]. }
  assert (∀ c1, (∃ n d, (∀ sn, may_snap d sn → may_snap (disk c) sn) ∧ vis c1 = vis (campaigning n d c)) → fine room c1 ∧ True) as Hstop.
  { intros c1 Hx. split; [|done]. apply (fine_more 0); [lia|by apply Hc1]. }
  unfold startCampaign. apply wp_bind, wp_modify. cbn [wpk]. apply wp_bind, wp_resetElectionTimer.
  { apply Hstop. by exists 0, (disk c). }
  intros n. cbn [wpk]. apply wp_bind, wp_get. cbn [wpk]. apply wp_bind, wp_wrap, wp_zoom.
  eapply wp_mono; [apply (wp_and _ _ _ _ (saveState_law (u64 (term c + 1)) (ID (cfg c)) (disk c) (ni_open _ _ _ Hn) (u64_range _) Hi)
    (saveState_view Cfg (u64 (term c + 1)) (ID (cfg c)) (term c) (votedFor c) (disk c) (ni_open _ _ _ Hn) (ninv_dview_self _ _ _ Hn)
      ltac:(left; lia) (u64_range _) Hi))|].
  intros o d' [(_ & _ & _ & Hsn & _) (Ho & Hd & Hm)].
  destruct o as [[]|e| |]; cbn [wpk]; [|by apply Hstop; exists n, d'..].
  specialize (Ho ltac:(done)). destruct (campaigning_ninv _ _ n d' c Hn Hb Ho Hd Hm) as [Hn1 _].
  match goal with |- wp _ _ ?x => change x with (campaigning n d' c) end.
  destruct (Hc1 (campaigning n d' c)) as [Hf1 Hcm1]; [exists n, d'; split; [exact Hsn|reflexivity]|].
  assert (cfg (campaigning n d' c) = cfg c) as Ecfg by done.
  generalize dependent (campaigning n d' c). intros c1 Hn1 Hf1 Hcm1 Ecfg.
  unfold peerIDs. apply wp_bind, wp_bind, wp_get, wp_bind, wp_modify, wp_ret. cbn [wpk]. apply wp_bind, wp_send_all. cbn [wpk].
  match goal with |- wp _ _ (set outbox _ ?x) => assert (ninv x) as Hn2 by (clear -Hn1; ninv_frame);
    assert (fine 0 x) as Hf2 by (by apply (vis_fine 0 c1)); assert (calm x) as Hc2 by (by apply (vis_calm c1)); set (c2 := x) in * end.
  match goal with |- wp _ _ (set outbox (λ l, l ++ ?os) _) =>
    destruct (fine_votes 0 os c2 Hf2 Hc2) as (Hf3 & Hc3 & _); [by apply Forall_fmap, Forall_true|] end.
  apply maybeWinElection_held; [|exact Hf3|exact Hc3].
  apply ninv_outbox; [exact Hn2|]. apply Forall_fmap, Forall_true. intros id. cbn. rewrite Ecfg. split; [done|apply u64_range].
Qed.
Lemma maybeWinPreVote_held c :
  ninv c → fine 0 c → calm c → role c ≠ leader → term c < 2 ^ 64 - 1 → held room (λ _, True) maybeWinPreVote c.
Proof.
  intros Hn Hf Hc Hl Hb. assert (fine room c) by (by apply (fine_more 0); [lia|]).
  unfold maybeWinPreVote. apply wp_bind, wp_get. cbn [wpk]. destruct (preVotes c); [|by apply wp_ret].
  case_match; [by apply wp_ret|]. apply wp_bind, wp_modify. cbn [wpk]. apply startCampaign_held; try done.
  - ninv_frame.
  - by apply (vis_fine 0 c).
Qed.

Lemma startPreCampaign_held c :
  ninv c → fine 0 c → calm c → role c ≠ leader → term c < 2 ^ 64 - 1 → held room (λ _, True) startPreCampaign c.
Proof.
  intros Hn Hf Hc Hl Hb. unfold startPreCampaign. apply wp_bind, wp_modify. cbn [wpk]. apply wp_bind, wp_resetElectionTimer.
  { split; [|done]. apply (fine_more 0); [lia|]. by apply (vis_fine 0 c). }
  intros n. cbn [wpk]. apply wp_bind, wp_get. cbn [wpk]. unfold peerIDs. apply wp_bind, wp_bind, wp_get, wp_bind, wp_modify, wp_ret.
  cbn [wpk]. apply wp_bind, wp_send_all. cbn [wpk].
  match goal with |- wp _ _ (set outbox _ ?x) => assert (ninv x) as Hn1 by ninv_frame;
    assert (fine 0 x) as Hf1 by (by apply (vis_fine 0 c)); assert (calm x) as Hc1 by (by apply (vis_calm c));
    assert (role x ≠ leader ∧ term x < 2 ^ 64 - 1 ∧ cfg x = cfg c) as (Hl1 & Hb1 & Ecfg) by done; set (c1 := x) in * end.
  clearbody c1. match goal with |- wp _ _ (set outbox (λ l, l ++ ?os) _) =>
    destruct (fine_votes 0 os c1 Hf1 Hc1) as (Hf2 & Hc2 & Hl2 & Hb2); [by apply Forall_fmap, Forall_true|] end.
  apply maybeWinPreVote_held; [|exact Hf2|exact Hc2|exact (Hl2 Hl1)|exact (Hb2 Hb1)].
  apply ninv_outbox; [exact Hn1|]. apply Forall_fmap, Forall_true. intros id. cbn. rewrite Ecfg. split; [done|apply u64_range].
Qed.

(** ** The handlers, from the start of the event *)

Context (start_ninv : ninv c0) (start_fine : fine 0 c0) (start_calm : calm c0) (start_term : term c0 < 2 ^ 64 - 1).

Lemma start_room : fine room c0 ∧ True.
Proof. split; [|done]. apply (fine_more 0); [lia|done]. Qed.
#[local] Hint Resolve start_room : core.

Lemma stepDown_any t : is_u64 t → term c0 < t → held room (λ _, True) (stepDown t) c0.
Proof. intros. eapply (held_any 0); [lia|]. by apply stepDown_held. Qed.

Lemma tick_held : held room (λ _, True) tick c0.
Proof.
  unfold tick. apply wp_bind, wp_get. cbn [wpk]. case_match eqn:Hl; zify_bool.
  - apply wp_bind, wp_modify. cbn [wpk]. apply wp_bind, wp_modify. cbn [wpk]. apply wp_bind, wp_modify. cbn [wpk].
    apply wp_bind, wp_get. cbn [wpk].
    match goal with |- wp _ _ ?x => assert (ninv x) as Hn; [|assert (vis x = vis c0) as Hv; [|revert Hn Hv; generalize x]] end.
    { repeat case_match; ninv_frame. }
    { by repeat case_match. }
    intros c Hn Hv. pose proof (vis_fine 0 c0 c Hv start_fine) as Hf. assert (role c = leader) by (unfold vis in Hv; congruence). case_match; [|apply wp_ret; split; [|done]; by apply (fine_more 0); [lia|]].
    apply wp_bind, wp_modify. cbn [wpk]. eapply held_any; [reflexivity|]. apply (broadcastAppends_held 0); try done; [ninv_frame|by apply (vis_fine 0 c)].
  - apply wp_bind, wp_modify. cbn [wpk]. apply wp_bind, wp_get. cbn [wpk].
    match goal with |- wp _ _ ?x => assert (ninv x) as Hn by ninv_frame; assert (fine 0 x) as Hf by (by apply (vis_fine 0 c0));
      assert (calm x) as Hc by (by apply (vis_calm c0)); set (c := x) in * end.
    assert (fine room c) by (by apply (fine_more 0); [lia|]).
    case_match; [|by apply wp_ret]. case_match; [by apply still_held; [apply resetElectionTimer_vis|done|]|].
    case_match; [by apply startCampaign_held|by apply startPreCampaign_held].
Qed.

Lemma handlePreVoteResponse_held from asked resp :
  is_u64 (rvr_term resp) → held room (λ _, True) (handlePreVoteResponse from asked resp) c0.
Proof.
  intros Ht. unfold handlePreVoteResponse. apply wp_bind, wp_get. cbn [wpk]. case_match eqn:Hlt; zify_bool; [by apply stepDown_any|].
  case_match eqn:Hif; [by apply wp_ret|]. zify_bool. case_match; [|by apply wp_ret].
  apply wp_bind, wp_lift. destruct (set_put _ _); cbn [wpk]; try done. apply wp_bind, wp_modify. cbn [wpk].
  apply maybeWinPreVote_held; try done; [ninv_frame|by apply (vis_fine 0 c0)|cbn; congruence].
Qed.

Lemma handleVoteResponse_held from campaign resp :
  is_u64 (rvr_term resp) → from ∈ dom Cfg → (rvr_voteGranted resp = true → E from campaign (ID (cfg c0))) →
  held room (λ _, True) (handleVoteResponse from campaign resp) c0.
Proof.
  intros Ht Hfrom HE. unfold handleVoteResponse. apply wp_bind, wp_get. cbn [wpk]. case_match eqn:Hlt; zify_bool; [by apply stepDown_any|].
  case_match eqn:Hif; [by apply wp_ret|]. zify_bool. subst campaign. case_match; [|by apply wp_ret].
  destruct (ni_votes _ _ _ start_ninv ltac:(congruence)) as (Hv & vs & Hvs & Hev). rewrite Hvs. cbn [set_put].
  apply wp_bind, wp_lift. cbn [wpk]. apply wp_bind, wp_modify. cbn [wpk]. apply maybeWinElection_held; [|by apply (vis_fine 0 c0)|done].
  destruct start_ninv; split; cbn; try done; [|congruence]. intros _. split; [done|]. eexists. split; [done|].
  intros v [->%elem_of_singleton|?]%elem_of_union; auto.
Qed.

Lemma handleRequestVote_held req :
  is_u64 (rv_term req) → is_u64 (rv_candidateId req) → held room (λ _, True) (handleRequestVote req) c0.
Proof.
  intros Ht Hc. unfold handleRequestVote. apply wp_bind, wp_get. cbn [wpk]. case_match; [by apply wp_ret|].
  eapply held_bind; [by apply stepDown_to_held|by apply wp_stepDown_keeps|lia|done|]. intros _ c1 Hn1 Hf1 _.
  apply wp_bind, wp_get. cbn [wpk]. assert (fine room c1) by (by apply (fine_more 0); [lia|]). case_match; [by apply wp_ret|].
  cbv zeta. case_match; [|by apply wp_ret].
  assert (∀ c2, fine room c2 → held room (λ _, True) (resetElectionTimer;; mret (mkRVR (term c1) true)) c2) as Hfin.
  { intros c2 Hf2. apply still_held; [|done|done]. apply still_vis_bind; [apply resetElectionTimer_vis|done]. }
  apply wp_bind. case_match; [|apply wp_ret; cbn [wpk]; by apply Hfin]. apply wp_bind, wp_modify. cbn [wpk]. apply wp_zoom.
  eapply wp_mono; [apply saveState_law; [apply Hn1|apply Hn1|done]|]. intros o d' (_ & _ & _ & Hsn & _).
  match goal with |- wpk _ _ _ ?x => assert (fine room x) as Hf2 end.
  { apply fine_disk; [by apply (vis_fine room c1)|done]. }
  destruct o; cbn [wpk]; [by apply Hfin|done..].
Qed.

(** A leader is told of no other leader in its term. *)
Abbreviation not_ours t := (role c0 = leader → t ≠ term c0).

Lemma led_by_other t c1 :
  not_ours t → ((term c0 < t ∧ role c1 = follower ∧ term c1 = t) ∨ (t ≤ term c0 ∧ c1 = c0)) → ¬ t < term c1 →
  role c1 ≠ leader ∧ term c0 ≤ t.
Proof. intros Ho [(? & -> & _)|[? ->]] Ht; [split; [done|lia]|]. split; [|lia]. intros Hl. apply (Ho Hl). lia. Qed.

Lemma truncateAndAppend_held l c t :
  ninv c → fine 0 c → follows t c → Forall plain l → held 0 (follows t) (truncateAndAppend l) c.
Proof.
  intros Hn Hf Hfl Hl. assert (∀ c', vis c' = vis c → follows t c') as Hvis.
  { intros c' Hv. destruct Hfl as (Hc & ? & ?). split; [by eapply vis_calm|]. injection Hv as ? ? ? ? ? ? ? ? ? ? ?. split; congruence. }
  unfold truncateAndAppend. apply wp_bind, wp_get. cbn [wpk]. apply wp_bind, wp_lift. destruct (zindex l 0) as [e| | |]; cbn [wpk]; [|done..].
  cbv zeta. case_match; [by apply wp_throw|].
  eapply (held_bind 0 _ (λ c1, vis c1 = vis c)).
  { destruct (entries c) as [|e0 es]; [by apply wp_ret|]. case_match; [|by apply wp_ret].
    apply wp_bind, wp_lift. destruct (zslice_from _ _); cbn [wpk]; [|done..].
    apply wp_bind, wp_lift. destruct (zslice_to _ _); cbn [wpk]; [|done..].
    apply wp_bind, wp_modify. cbn [wpk]. apply wp_ret. split; [by apply (vis_fine 0 c)|done]. }
  { destruct (entries c) as [|e0 es] eqn:El; [by apply wp_keeps_ret|]. case_match; [|by apply wp_keeps_ret].
    apply wp_keeps_bind; [by apply wp_keeps_lift|]. intros cut c1 Hn1 _. apply wp_bind, wp_lift.
    destruct (zslice_to _ _) as [kept| | |] eqn:Hk; cbn [wpk]; [|by apply keeps_fail; [..|apply after_refl]..].
    apply wp_bind, wp_modify. cbn [wpk]. apply wp_ret, keeps_ok; [|by split; [|apply vle_refl]]. apply ninv_entries; [done|].
    eapply Forall_sub; [exact (ni_entries _ _ _ Hn)|]. rewrite El. by eapply zslice_to_sub. }
  { done. } { exact Hvis. }
  intros truncated c1 Hn1 Hf1 Hv1. pose proof (Hvis c1 Hv1) as Hfl1.
  eapply (held_bind 0 _ (follows t)); [by apply held_wrap, logAppend_held|by apply logAppend_wrap_keeps|done|done|].
  intros _ c2 Hn2 Hf2 (Hc2 & ? & ?). apply wp_bind, wp_modify. cbn [wpk].
  assert (∀ c', vis c' = vis c2 → fine 0 c' ∧ follows t c') as Hend.
  { intros c' Hv. split; [by eapply vis_fine|]. split; [by eapply vis_calm|]. injection Hv as ? ? ? ? ? ? ? ? ? ? ?. split; congruence. }
  destruct truncated; [by apply wp_modify, Hend|]. unfold noteAppendedConfigs.
  match goal with |- wp _ _ ?x => generalize x (eq_refl : vis x = vis c2) end. clear -Hl Hend.
  induction Hl as [|e l [_ He] _ IH]; intros c Hc; cbn [for_each]; [by apply wp_ret, Hend|].
  rewrite (proj2 (Z.eqb_neq _ _)) by done. apply wp_bind, wp_ret. cbn [wpk]. by apply IH.
Qed.

Lemma handleAppendEntries_held req :
  is_u64 (ae_term req) → Forall plain (ae_entries req) → not_ours (ae_term req) → 0 ≤ ae_leaderCommit req ≤ B →
  wp (handleAppendEntries req) (λ o c', fine room c' ∧ match o with
    | Ok resp => aer_success resp = true → aer_seq resp = ae_seq req ∧ term c0 ≤ ae_term req
    | _ => True end) c0.
Proof.
  intros Ht He Ho HB. unfold handleAppendEntries. apply wp_bind, wp_get. cbn [wpk]. apply wp_bind.
  eapply wp_mono; [exact (held_and _ _ _ _ _ (stepDown_to_held _ start_ninv start_fine start_calm Ht) (wp_stepDown_keeps _ _ _ _ start_ninv Ht))|].
  cbv beta. intros o c1 [[Hf1 (Hc1 & Hst)] [_ Hk1]]. assert (∀ c, fine 0 c → fine room c) as Hroom by (intros c; apply fine_more; lia).
  destruct o as [[]|e| |]; cbn [wpk]; [|by auto..]. destruct Hk1 as [Hn1 _]. apply wp_bind, wp_get. cbn [wpk].
  destruct (ae_term req <? term c1) eqn:Hlt; [by apply wp_ret; split; [auto|]|]. apply Z.ltb_ge in Hlt.
  destruct (led_by_other _ _ Ho Hst) as [Hnl Hle]; [lia|]. apply wp_bind.
  eapply wp_mono; [exact (held_and _ _ _ _ _ (recognize_leader_held (ae_leaderId req) c1 Hf1 Hc1 Hnl) (recognize_leader_keeps _ _ _ _ Hn1))|].
  cbv beta. intros o c2 [[Hf2 Hfl2] [_ Hk2]]. destruct o as [[]|e| |]; cbn [wpk]; [|by auto..]. destruct Hk2 as [Hn2 _].
  apply wp_bind, wp_get. cbn [wpk]. apply wp_bind, wp_lift. destruct (check_prev c2 _ _) as [conflict| | |]; cbn [wpk]; [|by auto..].
  destruct conflict as [[ct ci]|]; [by apply wp_ret; split; [auto|]|]. apply wp_bind, wp_lift.
  destruct (new_entries c2 _) as [l| | |] eqn:Hl; cbn [wpk]; [|by auto..].
  assert (Forall plain l) as Hpl by (eapply Forall_sub; [exact He|by eapply new_entries_sub]).
  apply wp_bind. eapply (wp_mono _ (λ o c', (fine 0 c' ∧ follows (term c1) c') ∧ keeps c2 o c')).
  { apply wp_and; (case_match; [by apply wp_ret; first [done|apply keeps_ok; [done|apply after_refl]]|]);
      [by apply truncateAndAppend_held|by apply truncateAndAppend_keeps]. }
  intros o c3 [[Hf3 (Hc3 & Hr3 & Ht3)] [_ Hk3]]. destruct o as [[]|e| |]; cbn [wpk]; [|by auto..]. destruct Hk3 as [Hn3 _].
  apply wp_bind, wp_get. cbn [wpk]. cbv zeta. apply wp_bind.
  eapply (wp_mono _ (λ _ c', fine room c')).
  - case_match; [|by apply wp_ret, Hroom]. apply wp_bind, wp_modify. cbn [wpk].
    match goal with |- wp _ _ ?x => assert (ninv x) as Hn4 by (clear -Hn3; ninv_frame); assert (fine 0 x) as Hf4; [|set (c4 := x) in *] end.
    { pose proof (u64_range (ae_prevLogIndex req + zlength (ae_entries req))) as Hu. unfold is_u64 in Hu.
      clear -Hf3 HB Hr3 Hc3 Hu. destruct (calm_votes _ Hc3) as (os & Hos & Hv). destruct Hc3 as (_ & Hd & _).
      destruct Hf3 as [[] []]. split; split; cbn; try done; [lia|left; lia|by left|congruence|by exists os]. }
    eapply wp_mono; [by apply (deliverCommitted_held 0)|]. cbv beta. intros _ c5 [? _]. by apply Hroom.
  - intros o c5 Hf5. destruct o as [[]|e| |]; cbn [wpk]; [|done..]. apply wp_bind, wp_get. cbn [wpk]. by apply wp_ret.
Qed.

(** *** The leader *)

Definition still_leads (c : C) : Prop := role c = leader ∧ term c = term c0.

Lemma room_pos : 0 + 1 ≤ room.
Proof.
  destruct (ni_id _ _ _ start_ninv) as (_ & _ & [x Hx]%elem_of_dom).
  assert (size Cfg ≠ 0%nat); [|lia]. intros Hz%map_size_empty_inv. by rewrite Hz in Hx.
Qed.

Lemma leads_still c c' : still_leads c → leads c c' → still_leads c'.
Proof. intros [? ?] (? & ? & _). split; congruence. Qed.

Lemma vis_leads c c' : vis c' = vis c → still_leads c → still_leads c'.
Proof. intros [= ? ? ? ? ? ? ? ? ? ? ?] [? ?]. split; congruence. Qed.

Lemma sendAppend_one peer c : ninv c → fine 0 c → still_leads c → held room (λ _, True) (sendAppend peer) c.
Proof.
  intros Hn Hf [Hl _]. pose proof room_pos. eapply (held_any 1); [lia|]. apply (sendAppend_held 0); try done.
Qed.

Lemma sendTimeoutNow_held to c : fine 0 c → still_leads c → to ≠ ID (cfg c0) → held 0 still_leads (sendTimeoutNow to) c.
Proof.
  intros Hf [Hl Ht] Hto. unfold sendTimeoutNow, send. apply wp_bind, wp_get. cbn [wpk]. apply wp_modify. split; [|done]. by apply fine_send.
Qed.

Lemma handleAppendResponse_held from req resp :
  is_u64 (aer_term resp) → from ∈ dom Cfg → from ≠ ID (cfg c0) →
  (aer_success resp = true → ae_term req = T → s ≤ aer_seq resp → good from) →
  held room (λ _, True) (handleAppendResponse from req resp) c0.
Proof.
  intros Ht Hfrom Hne Hgood. unfold handleAppendResponse. apply wp_bind, wp_get. cbn [wpk]. case_match eqn:Hlt; zify_bool; [by apply stepDown_any|].
  case_match eqn:Hif; [by apply wp_ret|]. zify_bool. assert (still_leads c0) as Hsl by done. destruct (aer_success resp) eqn:Hsucc.
  - apply (held_bind 0 _ (λ c', role c' = role c0 ∧ term c' = term c0 ∧ matchIndex c' = matchIndex c0)).
    { apply noteFreshAck_held; try done. intros. apply Hgood; [done|congruence|done]. }
    { by apply noteFreshAck_keeps. }
    { pose proof room_pos. lia. } { done. }
    intros _ c1 Hn1 Hf1 (Hr1 & Ht1 & _). cbv zeta. apply wp_bind, wp_get. cbn [wpk].
    assert (still_leads c1) as Hs1 by (split; congruence).
    apply (held_bind 0 _ still_leads).
    { case_match; [|by apply wp_ret]. apply (held_bind 0 _ still_leads); [apply still_held; [apply put_match_vis|done|intros; by eapply vis_leads]|by apply put_match_keeps|done|done|].
      intros _ c2 Hn2 Hf2 Hs2. apply (held_bind 0 _ still_leads); [apply still_held; [apply put_next_vis|done|intros; by eapply vis_leads]|by apply put_next_keeps|done|done|].
      intros _ c3 Hn3 Hf3 Hs3. eapply held_weaken; [reflexivity| |apply maybeAdvanceCommit_held; try done; [apply Hs3|left; split; [done|apply Hs3]]].
      intros c'. by apply leads_still. }
    { case_match; [|by apply wp_keeps_ret]. apply wp_keeps_bind; [by apply put_match_keeps|]. intros _ c2 Hn2 _.
      apply wp_keeps_bind; [by apply put_next_keeps|]. intros. by apply maybeAdvanceCommit_keeps. }
    { pose proof room_pos. lia. } { done. }
    intros _ c2 Hn2 Hf2 Hs2. apply wp_bind, wp_get. cbn [wpk]. apply (held_bind 0 _ still_leads).
    { case_match; [|by apply wp_ret]. by apply sendTimeoutNow_held. }
    { case_match; [by apply sendTimeoutNow_keeps|by apply wp_keeps_ret]. }
    { pose proof room_pos. lia. } { done. }
    intros _ c3 Hn3 Hf3 Hs3. apply wp_bind, wp_get. cbn [wpk]. case_match; [by apply sendAppend_one|].
    apply wp_ret. split; [|done]. apply (fine_more 0); [lia|done].
  - apply (held_bind 0 _ still_leads).
    { case_match; [|by apply wp_ret]. apply wp_bind, wp_lift. destruct (lastIndexOfTerm _ _); cbn [wpk]; [by apply wp_ret|done..]. }
    { case_match; [|by apply wp_keeps_ret]. apply wp_keeps_bind; [by apply wp_keeps_lift|]. intros. by apply wp_keeps_ret. }
    { lia. } { done. }
    intros next c1 Hn1 Hf1 Hs1. cbv zeta. apply (held_bind 0 _ still_leads).
    { case_match; (apply still_held; [apply put_next_vis|done|intros; by eapply vis_leads]). }
    { case_match; by apply put_next_keeps. }
    { lia. } { done. }
    intros _ c2 Hn2 Hf2 Hs2. by apply sendAppend_one.
Qed.

Lemma handleInstallSnapshotResponse_held from req resp :
  is_u64 (isr_term resp) → held room (λ _, True) (handleInstallSnapshotResponse from req resp) c0.
Proof.
  intros Ht. unfold handleInstallSnapshotResponse. apply wp_bind, wp_get. cbn [wpk]. case_match eqn:Hlt; zify_bool; [by apply stepDown_any|].
  case_match eqn:Hif; [by apply wp_ret|]. zify_bool. assert (still_leads c0) as Hsl by done. cbv zeta.
  apply (held_bind 0 _ still_leads).
  { case_match; [|by apply wp_ret]. apply still_held; [|done|intros; by eapply vis_leads].
    apply still_vis_bind; [apply put_match_vis|]. intros _. apply put_next_vis. }
  { case_match; [|by apply wp_keeps_ret]. apply wp_keeps_bind; [by apply put_match_keeps|]. intros. by apply put_next_keeps. }
  { lia. } { done. }
  intros _ c1 Hn1 Hf1 Hs1. apply wp_bind, wp_get. cbn [wpk]. case_match; [by apply sendAppend_one|].
  apply wp_ret. split; [|done]. apply (fine_more 0); [lia|done].
Qed.

Lemma handleTimeoutNow_held req :
  is_u64 (tn_term req) → tn_term req < 2 ^ 64 - 1 → not_ours (tn_term req) → held room (λ _, True) (handleTimeoutNow req) c0.
Proof.
  intros Ht Hb Ho. unfold handleTimeoutNow. apply wp_bind, wp_get. cbn [wpk].
  eapply held_bind; [by apply stepDown_to_held|by apply wp_stepDown_keeps|lia|done|]. intros _ c1 Hn1 Hf1 [Hc1 Hst].
  apply wp_bind, wp_get. cbn [wpk]. destruct (_ <? _) eqn:Hlt; zify_bool; [apply wp_ret; split; [|done]; apply (fine_more 0); [lia|done]|].
  destruct (led_by_other _ _ Ho Hst) as [Hnl _]; [lia|]. apply startCampaign_held; try done.
  destruct Hst as [(_ & _ & ->)|[_ ->]]; done.
Qed.

Lemma propose_held command typ :
  typ = ENTRY_TYPE_NORMAL ∨ typ = ENTRY_TYPE_NOOP → zlength command ≤ maxEntryCommand → held room (λ _, True) (propose command typ) c0.
Proof.
  intros Hty Hcmd. unfold propose. apply wp_bind, wp_get. cbn [wpk]. case_match eqn:Hl; [by apply wp_throw|].
  case_match; [by apply wp_throw|]. cbv zeta. zify_bool. set (e := mkEntry _ _ _ _).
  assert (plain e) as Hp by (apply plain_new; [apply start_ninv|apply u64_range|done|done]).
  assert (Forall plain [e]) as Hps by (by apply Forall_singleton).
  apply wp_bind, wp_attempt. eapply wp_mono; [exact (held_and _ _ _ _ _ (logAppend_held 0 _ c0 still_leads start_ninv start_fine Hps ltac:(done)) (logAppend_keeps _ _ _ _ start_ninv Hps))|].
  cbv beta. intros o c1 [[Hf1 Hs1] [[_ Hk] _]]. assert (fine room c1) by (by apply (fine_more 0); [lia|]).
  destruct o as [[]|err| |]; cbn [wpk]; [|by apply wp_throw|done..]. destruct Hk as [Hn1 _].
  apply wp_bind, wp_modify. cbn [wpk].
  match goal with |- wp _ _ ?x => assert (ninv x) as Hn2; [|assert (fine 0 x) as Hf2 by (by apply (vis_fine 0 c1)); assert (still_leads x) as Hs2 by done; set (c2 := x) in *] end.
  { apply ninv_entries; [done|]. apply Forall_app_2; [apply (ni_entries _ _ _ Hn1)|done]. }
  apply (held_bind room _ still_leads).
  { eapply held_weaken; [reflexivity| |apply (broadcastAppends_held 0); try done; apply Hs2]. intros c'. by apply leads_still. }
  { by apply broadcastAppends_keeps. } { done. } { done. }
  intros _ c3 Hn3 Hf3 Hs3. apply (held_bind room _ (λ _, True)).
  { eapply held_any; [reflexivity|]. apply maybeAdvanceCommit_held; try done; [apply Hs3|left; split; [done|apply Hs3]]. }
  { by apply maybeAdvanceCommit_keeps. } { done. } { done. }
  intros. by apply wp_ret.
Qed.

Lemma transferLeadership_held to : held room (λ _, True) (transferLeadership to) c0.
Proof.
  unfold transferLeadership. apply wp_bind, wp_get. cbn [wpk]. case_match eqn:Hl; [by apply wp_throw|].
  case_match eqn:Hto; [by apply wp_ret|]. case_match; [by apply wp_throw|]. zify_bool. apply wp_bind, wp_modify. cbn [wpk].
  match goal with |- wp _ _ ?x => assert (ninv x) as Hn1 by ninv_frame; assert (fine 0 x) as Hf1 by (by apply (vis_fine 0 c0)); assert (still_leads x) as Hs1 by done end.
  case_match; [|by apply sendAppend_one]. eapply (held_any 0); [lia|]. by apply sendTimeoutNow_held.
Qed.

(** *** Snapshots *)

Lemma saveSnapshot_held i t data c (R : C → Prop) :
  ninv c → fine 0 c → is_u64 i → is_u64 t → i ≤ B → (∀ d, R (c <| disk := d |>)) →
  held 0 R (zoom disk (saveSnapshot (mkSnap i t (Some Cfg) data))) c.
Proof.
  intros Hn [[] Hs] Hi Ht HB HR. apply wp_zoom. eapply wp_mono; [apply saveSnapshot_law; [apply Hn|by split_and!]|].
  intros o d' (_ & _ & _ & _ & Hsn). split; [|done]. pose proof (so_snaps _ _ Hs) as Hold.
  assert (∀ sn, may_snap d' sn → lastIndex sn ≤ B) as Hnew.
  { intros sn Hsn'. destruct o; [by rewrite (Hsn _ Hsn')|..]; try done; (destruct (Hsn _ Hsn') as [?| ->]; [by apply Hold|done]). }
  split; [by split|]. destruct Hs; split; cbn; done.
Qed.

Lemma handleInstallSnapshot_held req :
  is_u64 (is_term req) → is_u64 (is_lastIncludedIndex req) → is_u64 (is_lastIncludedTerm req) →
  (is_lastIncludedIndex req = 0 ∨ is_config req = encodeMembers Cfg) → not_ours (is_term req) →
  is_lastIncludedIndex req ≤ B → held room (λ _, True) (handleInstallSnapshot req) c0.
Proof.
  intros Ht Hi Hit Hcf Ho HB. assert (∀ c, fine 0 c → fine room c ∧ True) as Hroom by (intros c ?; split; [apply (fine_more 0); [lia|done]|done]).
  unfold handleInstallSnapshot. apply wp_bind, wp_get. cbn [wpk].
  eapply held_bind; [by apply stepDown_to_held|by apply wp_stepDown_keeps|lia|done|]. intros _ c1 Hn1 Hf1 [Hc1 Hst].
  apply wp_bind, wp_get. cbn [wpk]. destruct (_ <? _) eqn:Hlt; [by apply wp_ret, Hroom|]. apply Z.ltb_ge in Hlt.
  destruct (led_by_other _ _ Ho Hst) as [Hnl _]; [lia|].
  eapply held_bind; [by apply recognize_leader_held|by apply recognize_leader_keeps|lia|done|]. intros _ c2 Hn2 Hf2 Hfl2.
  apply wp_bind, wp_get. cbn [wpk]. cbv zeta. case_match eqn:Hif; [by apply wp_ret, Hroom|]. zify_bool.
  destruct Hcf as [Hz|Hcf]; [pose proof (ni_base _ _ _ Hn2) as [[? _] _]; lia|]. rewrite Hcf, Cfg_rt. apply wp_bind, wp_wrap, wp_lift. cbn [wpk].
  eapply (held_bind 0 _ (follows (term c1))); [by apply held_wrap, saveSnapshot_held| |lia|done|].
  { apply wp_keeps_wrap. eapply wp_mono; [by apply saveSnapshot_keeps|]. intros o c'. apply keeps_err_keeps. }
  intros _ c3 Hn3 Hf3 Hfl3. apply wp_bind, wp_lift.
  match goal with |- wpk _ _ ?o _ => destruct o as [keep| | |] eqn:Hk end; cbn [wpk]; [|by apply Hroom..].
  assert (Forall plain keep) as Hp.
  { revert Hk. case_match; [|by intros [= <-]]. destruct (termAt _ _); simpl; [|done..].
    case_match; [|by intros [= <-]]. destruct (zindex _ 0); simpl; [|done..].
    intros ?%zslice_from_sub. by eapply Forall_sub; [exact (ni_entries _ _ _ Hn2)|]. }
  eapply (held_bind 0 _ (follows (term c1))); [| |lia|done|].
  { apply held_wrap. apply wp_zoom. eapply wp_mono.
    { apply logRewrite_law; [apply Hn3|]. eapply Forall_impl; [exact Hp|]. by intros ? []. }
    intros o d' (_ & _ & _ & Hsn & _). split; [by apply fine_disk|done]. }
  { apply wp_keeps_wrap. eapply wp_mono; [by apply logRewrite_keeps|]. intros o c'. apply keeps_err_keeps. }
  intros _ c4 Hn4 Hf4 (Hc4 & Hr4 & Ht4). unfold recalcConfig. apply wp_bind, wp_modify. cbn [wpk]. apply wp_bind, wp_modify. cbn [wpk].
  apply wp_bind, wp_modify. cbn [wpk]. apply wp_ret, Hroom.
  clear -Hf4 Hc4 Hr4 HB. destruct (calm_votes _ Hc4) as (os & Hos & Hv). destruct Hc4 as (? & ? & _). destruct Hf4 as [[] []].
  split; split; cbn; try done; [lia|left; lia|left; lia|congruence|by exists os].
Qed.

(** *** A new read barrier *)

Definition registered (c : C) : C :=
  c <| readCounter := u64 (readCounter c + 1) |>
    <| pendingReads ::= λ l, l ++ [mkRead (u64 (readCounter c + 1)) (commitIndex c) (u64 (appendSeq c + 1)) {[ID (cfg c)]}] |>.

Lemma requestRead_held :
  (role c0 = leader → fine 0 (registered c0)) →
  wp requestRead (λ o c', match o with
    | Ok id => fine room c' ∧ id = u64 (readCounter c0 + 1) ∧ role c0 = leader ∧ termAt c0 (commitIndex c0) = Ok (term c0)
    | _ => (fine room c' ∧ role c0 = leader ∧ termAt c0 (commitIndex c0) = Ok (term c0)) ∨ c' = c0
    end) c0.
Proof.
  intros Hreg. unfold requestRead. apply wp_bind, wp_get. cbn [wpk]. case_match eqn:Hl; [by apply wp_throw; right|].
  apply wp_bind, wp_lift. destruct (termAt c0 (commitIndex c0)) as [t|e| |] eqn:Ht; cbn [wpk]; [|by right..].
  case_match eqn:Heq; [by apply wp_throw; right|]. zify_bool. subst t. specialize (Hreg Hl). apply wp_bind, wp_modify. cbn [wpk]. apply wp_bind, wp_get. cbn [wpk].
  apply wp_bind, wp_modify. cbn [wpk]. match goal with |- wp _ _ ?x => change x with (registered c0) end.
  assert (ninv (registered c0)) as Hn by (unfold registered; ninv_frame). apply wp_bind.
  eapply wp_mono; [exact (held_and _ _ _ _ _ (confirmReads_held 0 _ Hn Hreg) (confirmReads_keeps _ _ _ Hn))|].
  cbv beta. intros o c1 [[Hf1 (Hr1 & Ht1 & _)] [_ Hk1]]. assert (fine room c1) as Hf1' by (by apply (fine_more 0); [lia|]).
  destruct o as [b|e| |]; cbn [wpk]; [|by left..]. destruct Hk1 as [Hn1 _]. apply wp_bind.
  assert (held room (λ _, True) (if b then mret () else broadcastAppends) c1) as Hb.
  { destruct b; [by apply wp_ret|]. eapply held_any; [reflexivity|]. apply (broadcastAppends_held 0); try done. by rewrite Hr1. }
  unfold held in Hb. eapply wp_mono; [exact Hb|]. cbv beta. intros o c2 [Hf2 _]. destruct o; cbn [wpk]; [by apply wp_ret|by left..].
Qed.

(** The counter does not wrap: the new barrier is not the one followed. *)
Lemma registered_other :
  readCounter c0 < 2 ^ 64 - 1 → role c0 = leader → fine 0 (registered c0).
Proof.
  intros Hc Hl. pose proof start_fine as [[Hidle [Hctr Hids] Hknown Hpend Hout] Hs].
  assert (u64 (readCounter c0 + 1) = readCounter c0 + 1) as Hu by (apply u64_small; unfold is_u64; lia).
  split; [|destruct Hs; split; cbn; done]. split; cbn; rewrite ?Hu; try done; try lia.
  - split; [lia|]. apply Forall_app_2; [|apply Forall_singleton; cbn; lia]. eapply Forall_impl; [exact Hids|]. cbn. lia.
  - intros r [Hr|Hr]%elem_of_app; [by apply Hpend|]. apply list_elem_of_singleton in Hr as ->. cbn. lia.
Qed.
End reads.

Section register.
Context {D : Type} `{RaftDiskLaws D} `{GoRuntime} (Cfg : Members).

(** The barrier that is followed from here on. *)
Lemma registered_this k s T (good good' : Z → Prop) (c : core D) :
  reads_ok Cfg (-1) k s T good' c → readOutcomes c = [] → role c = leader → readCounter c < 2 ^ 64 - 1 →
  ID (cfg c) ∈ dom Cfg → good (ID (cfg c)) →
  reads_ok Cfg (readCounter c + 1) (commitIndex c) (u64 (appendSeq c + 1)) (term c) good (registered c).
Proof.
  intros [_ [Hctr Hids] _ _ _] Hnil Hl Hc Hid Hg.
  assert (u64 (readCounter c + 1) = readCounter c + 1) as Hu by (apply u64_small; unfold is_u64; lia).
  split; cbn; rewrite ?Hu; try done.
  - split; [lia|]. apply Forall_app_2; [|apply Forall_singleton; cbn; lia]. eapply Forall_impl; [exact Hids|]. cbn. lia.
  - intros r [Hr|Hr]%elem_of_app.
    + rewrite Forall_forall in Hids. specialize (Hids r Hr). cbn in Hids. lia.
    + apply list_elem_of_singleton in Hr as ->. cbn. intros _. split_and!; try done. by intros j ->%elem_of_singleton.
  - rewrite Hnil. by intros o ?%elem_of_nil.
Qed.

(** Compaction touches the disk and the log only. *)
Lemma compact_vis E a data (c : core D) :
  members_wf Cfg → ninv Cfg E c → is_u64 a →
  wp (compact a data) (λ _ c', vis c' = vis (c <| disk := disk c' |>) ∧
    (∀ t v, may_state (disk c') t v → may_state (disk c) t v) ∧
    ∀ sn, may_snap (disk c') sn → may_snap (disk c) sn ∨ lastIndex sn = a) c.
Proof.
  intros Hwf Hn Ha. unfold compact. apply wp_bind, wp_get. cbn [wpk].
  assert (vis c = vis (c <| disk := disk c |>) ∧ (∀ t v, may_state (disk c) t v → may_state (disk c) t v) ∧
    ∀ sn, may_snap (disk c) sn → may_snap (disk c) sn ∨ lastIndex sn = a) as Hsame by auto.
  case_match; [by apply wp_ret|]. case_match; [by apply wp_throw|]. apply wp_bind, wp_lift.
  destruct (termAt c a) as [t| | |] eqn:Ht; cbn [wpk]; [|done..]. apply (termAt_u64 Cfg E) in Ht; [|done]. cbv zeta.
  cbn [lastIndex lastTerm config default].
  assert (configAt c a = Cfg) as Hcf.
  { unfold configAt. rewrite fold_members_plain; [apply Hn|].
    eapply Forall_sub; [exact (ni_entries _ _ _ Hn)|apply entries_through_sub]. }
  rewrite Hcf. apply wp_bind, wp_wrap, wp_zoom. eapply wp_mono; [apply saveSnapshot_law; [apply Hn|by split_and!]|].
  intros o d1 (Hwf1 & Ho1 & Hms1 & _ & Hsn).
  assert (∀ sn, may_snap d1 sn → may_snap (disk c) sn ∨ lastIndex sn = a) as Hnew.
  { intros sn Hm. destruct o; [by rewrite (Hsn _ Hm); right|..]; try done; (destruct (Hsn _ Hm) as [?| ->]; by auto). }
  destruct o as [[]|e| |]; cbn [wpk]; [|done..]. specialize (Ho1 ltac:(done)).
  apply wp_bind, wp_lift. destruct (zindex _ 0); cbn [wpk]; [|done..]. apply wp_bind, wp_lift.
  destruct (zslice_from _ _) as [keep| | |] eqn:Hk; cbn [wpk]; [|done..]. apply wp_bind, wp_wrap, wp_zoom.
  eapply wp_mono.
  { apply logRewrite_law; [done|]. apply zslice_from_sub in Hk. eapply Forall_impl; [eapply Forall_sub; [exact (ni_entries _ _ _ Hn)|exact Hk]|].
    by intros ? []. }
  intros o d2 (_ & _ & Hms2 & Hsn2 & _). destruct o; cbn [wpk]; [apply wp_modify|..]; (split; [done|]); cbn; auto.
Qed.
End register.
