(* ===== verification/Node.v ===== *)
(** * internal/raft/node.go: the event loop around the core

    The loop goroutine is the only one that touches the core: ticks, RPCs,
    responses and client requests are events, and each is handled by one
    [dispatch] followed, unless the node halts, by one [afterStep].

    A Go channel is its number; what is sent on channels is the list [replies]
    in sending order (every channel here has room for its one value, so a send
    never blocks).  [net] is what has been handed to [sendAsync]. *)

From stdpp Require Import prelude gmap strings.
From S2P Require Import Prelude GoRuntime GoBytes RaftTypes Membership Core.
Open Scope Z_scope.

(** [raft.StateMachine] *)
Class StateMachine (S : Type) := {
  smApply : Z → bytes → S → S;
  smSnapshot : S → outcome bytes;
  smRestore : bytes → S → outcome S
}.

(** What the node relies on of its state machine: a snapshot is not empty, and
    restoring it gives the state it was taken of. *)
Class StateMachineLaws (S : Type) `{StateMachine S} := {
  snapshot_restore : ∀ s b s', smSnapshot s = Ok b → b ≠ [] ∧ smRestore b s' = Ok s
}.

(** Values sent on channels; an error is [inr]. *)
Inductive reply :=
  | ReplyVote (r : RequestVoteResponse + error)
  | ReplyAppend (r : AppendEntriesResponse + error)
  | ReplySnapshot (r : InstallSnapshotResponse + error)
  | ReplyTimeoutNow (r : () + error)
  | ReplyPropose (r : Z * Z + error)
  | ReplyTransfer (r : () + error)
  | ReplyRead (r : Z + error)
  | ReplyDone (r : () + error).

(** Loop messages. *)
Inductive event :=
  | evTick
  | evRequestVote (req : RequestVoteRequest) (respc : nat)
  | evAppendEntries (req : AppendEntriesRequest) (respc : nat)
  | evVoteResp (from campaignTerm : Z) (preVote : bool) (resp : RequestVoteResponse)
  | evAppendResp (from : Z) (req : AppendEntriesRequest) (resp : AppendEntriesResponse)
  | evInstallSnapshot (req : InstallSnapshotRequest) (respc : nat)
  | evSnapshotResp (from : Z) (req : InstallSnapshotRequest) (resp : InstallSnapshotResponse)
  | evTimeoutNow (req : TimeoutNowRequest) (respc : nat)
  | evPropose (command : bytes) (typ : Z) (done respc : nat)
  | evConfChange (cc : confChange) (done respc : nat)
  | evTransfer (to : Z) (respc : nat)
  | evRead (respc : nat).

Record waiter := mkWaiter { w_term : Z; w_done : nat }.
Record appliedWaiter := mkApplied { aw_index : Z; aw_c : nat }.

Record Status := mkStatus {
  st_ID : Z;
  st_Term : Z;
  st_LeaderID : Z;
  st_IsLeader : bool;
  st_Role : gostring;
  st_CommitIndex : Z;
  st_LastApplied : Z;
  st_LastLogIndex : Z;
  st_Members : Members
}.

Record Node (D S : Type) := mkNode {
  nc : core D;
  sm : S;
  compactAt : Z;
  waiters : gmap Z waiter;
  syncedConfigV : Z;
  transportPeers : option Members;      (* the transport's peers, if it tracks them *)
  applied : Z;
  readWaiters : gmap Z nat;
  appliedWaiters : list appliedWaiter;
  replies : list (nat * reply);
  net : list outbound;
  status : option Status;
  stopping : bool                       (* stopc is closed *)
}.
Arguments mkNode {D S}.
Arguments nc {D S} _.
Arguments sm {D S} _.
Arguments compactAt {D S} _.
Arguments waiters {D S} _.
Arguments syncedConfigV {D S} _.
Arguments transportPeers {D S} _.
Arguments applied {D S} _.
Arguments readWaiters {D S} _.
Arguments appliedWaiters {D S} _.
Arguments replies {D S} _.
Arguments net {D S} _.
Arguments status {D S} _.
Arguments stopping {D S} _.
#[export] Instance node_eta {D S} : Settable (Node D S) := λ n,
  mkNode (nc n) (sm n) (compactAt n) (waiters n) (syncedConfigV n) (transportPeers n) (applied n)
    (readWaiters n) (appliedWaiters n) (replies n) (net n) (status n) (stopping n).
#[export] Instance set_nc {D S} : Setter (@nc D S) := ltac:(solve_setter).
#[export] Instance set_sm {D S} : Setter (@sm D S) := ltac:(solve_setter).
#[export] Instance set_waiters {D S} : Setter (@waiters D S) := ltac:(solve_setter).
#[export] Instance set_syncedConfigV {D S} : Setter (@syncedConfigV D S) := ltac:(solve_setter).
#[export] Instance set_transportPeers {D S} : Setter (@transportPeers D S) := ltac:(solve_setter).
#[export] Instance set_applied {D S} : Setter (@applied D S) := ltac:(solve_setter).
#[export] Instance set_readWaiters {D S} : Setter (@readWaiters D S) := ltac:(solve_setter).
#[export] Instance set_appliedWaiters {D S} : Setter (@appliedWaiters D S) := ltac:(solve_setter).
#[export] Instance set_replies {D S} : Setter (@replies D S) := ltac:(solve_setter).
#[export] Instance set_net {D S} : Setter (@net D S) := ltac:(solve_setter).
#[export] Instance set_status {D S} : Setter (@status D S) := ltac:(solve_setter).
#[export] Instance set_stopping {D S} : Setter (@stopping D S) := ltac:(solve_setter).

Section node.
Context {D S : Type} `{RaftDisk D} `{GoRuntime} `{StateMachine S}.

Abbreviation N := (Node D S).

(** [ch <- r] *)
Definition reply_on (ch : nat) (r : reply) : M N () :=
  modify (set replies (λ l, l ++ [(ch, r)])).

(** An RPC handler: the reply is sent, and an error halts the node. *)
Definition serve {A} (ch : nat) (mk : A + error → reply) (m : M (core D) A) : M N () :=
  r ← attempt (zoom nc m);
  reply_on ch (mk r);;
  match r with
  | inl _ => mret ()
  | inr e => throw e
  end.

(** [errors.Is(err, errPersistFailure)] *)
Definition is_persist_failure (e : error) : bool :=
  match e with EPersistFailure _ => true | _ => false end.

(** [evPropose] and [evConfChange]: register the waiter, answer, halt only on a
    persistence failure. *)
Definition serve_proposal (done respc : nat) (m : M (core D) (Z * Z)) : M N () :=
  r ← attempt (zoom nc m);
  match r with
  | inl (index, t) => modify (set waiters (insert index (mkWaiter t done)))
  | inr _ => mret ()
  end;;
  reply_on respc (ReplyPropose r);;
  match r with
  | inr e => if is_persist_failure e then throw e else mret ()
  | inl _ => mret ()
  end.

Definition dispatch (ev : event) : M N () :=
  match ev with
  | evTick => zoom nc tick
  | evRequestVote req respc => serve respc ReplyVote (handleRequestVote req)
  | evAppendEntries req respc => serve respc ReplyAppend (handleAppendEntries req)
  | evInstallSnapshot req respc => serve respc ReplySnapshot (handleInstallSnapshot req)
  | evTimeoutNow req respc => serve respc ReplyTimeoutNow (handleTimeoutNow req)
  | evVoteResp from campaignTerm preVote resp =>
      if preVote then zoom nc (handlePreVoteResponse from campaignTerm resp)
      else zoom nc (handleVoteResponse from campaignTerm resp)
  | evAppendResp from req resp => zoom nc (handleAppendResponse from req resp)
  | evSnapshotResp from req resp => zoom nc (handleInstallSnapshotResponse from req resp)
  | evConfChange cc done respc => serve_proposal done respc (proposeConfChange cc)
  | evTransfer to respc =>
      r ← attempt (zoom nc (transferLeadership to));
      reply_on respc (ReplyTransfer r)
  | evRead respc =>
      r ← attempt (zoom nc requestRead);
      match r with
      | inr err => reply_on respc (ReplyRead (inr err))
      | inl id => modify (set readWaiters (insert id respc))
      end
  | evPropose command typ done respc => serve_proposal done respc (propose command typ)
  end.

(** ** afterStep *)

Definition fireAppliedWaiters : M N () :=
  n ← get;
  let fired := filter (λ w, aw_index w ≤ applied n) (appliedWaiters n) in
  let remaining := filter (λ w, ¬ aw_index w ≤ applied n) (appliedWaiters n) in
  for_each fired (λ w, reply_on (aw_c w) (ReplyRead (inl (aw_index w))));;
  modify (set appliedWaiters (λ _, remaining)).

Definition applyEntry (e : Entry) : M N () :=
  (if Type_ e =? ENTRY_TYPE_NORMAL
   then modify (set sm (smApply (Index e) (EntryCommand e))) else mret ());;
  modify (set applied (λ _, Index e));;
  fireAppliedWaiters;;
  n ← get;
  match waiters n !! Index e with
  | None => mret ()
  | Some w =>
      modify (set waiters (delete (Index e)));;
      reply_on (w_done w)
        (ReplyDone (if w_term w =? Term e then inl () else inr EProposalLost))
  end.

Definition resolveRead (r : readOutcome) : M N () :=
  n ← get;
  match readWaiters n !! ro_id r with
  | None => mret ()
  | Some w =>
      modify (set readWaiters (delete (ro_id r)));;
      if negb (ro_confirmed r) then reply_on w (ReplyRead (inr EProposalLost)) else
      if ro_index r <=? applied n then reply_on w (ReplyRead (inl (ro_index r))) else
      modify (set appliedWaiters (λ l, l ++ [mkApplied (ro_index r) w]))
  end.

(** Failures are logged; the log keeps growing. *)
Definition maybeCompact : M N () :=
  n ← get;
  if applied n <? u64 (snapIndex (nc n) + compactAt n) then mret () else
  r ← attempt (lift (smSnapshot (sm n)));
  match r with
  | inr _ => mret ()
  | inl data => attempt (zoom nc (compact (applied n) data));; mret ()
  end.

(** Every member but ourselves that has an address becomes dialable. *)
Definition syncTransportConfig : M N () :=
  n ← get;
  match transportPeers n with
  | None => mret ()
  | Some peers =>
      if configVersion (nc n) =? syncedConfigV n then mret () else
      modify (λ n, n <| transportPeers :=
                Some (filter (λ '(id, addr), id ≠ ID (cfg (nc n)) ∧ addr ≠ []) (members (nc n)) ∪ peers) |>
                     <| syncedConfigV := configVersion (nc n) |>)
  end.

Definition publishStatus : M N () :=
  modify (λ n, let c := nc n in
    n <| status := Some (mkStatus (ID (cfg c)) (term c) (leaderID c) (bool_decide (role c = leader))
                           (role_String (role c)) (commitIndex c) (applied n) (lastLogIndex c) (members c)) |>).

Definition sendAsync (o : outbound) : M N () := modify (set net (λ l, l ++ [o])).

(** A [nil] restore is an empty one: [append([]byte(nil), data...)]. *)
Definition afterStep : M N () :=
  data ← zoom nc takeRestore;
  ok ← (if bool_decide (data = []) then mret true else
        n ← get;
        match smRestore data (sm n) with
        | Ok s =>
            modify (λ n, n <| sm := s |> <| applied := snapIndex (nc n) |>);;
            fireAppliedWaiters;;
            mret true
        | Err _ => modify (set stopping (λ _, true));; mret false
        | Panic => panic
        | Crash => lift Crash
        end);
  if negb ok then mret () else
  entries ← zoom nc takeCommitted;
  for_each entries applyEntry;;
  outcomes ← zoom nc takeReadOutcomes;
  for_each outcomes resolveRead;;
  maybeCompact;;
  syncTransportConfig;;
  outs ← zoom nc takeOutbox;
  for_each outs sendAsync;;
  publishStatus.

(** One round of [run]: an error of [dispatch] halts the node, and nothing of
    [afterStep] happens. *)
Definition handle (ev : event) : M N () := dispatch ev;; afterStep.

(** ** NewNode *)

Definition node_of (c : core D) (s : S) (compactAt : Z) (peers : option Members) : N :=
  mkNode c s (if compactAt =? 0 then 4096 else compactAt) ∅ 0 peers (snapIndex c) ∅ [] [] [] None false.

Definition NewNode (conf : Config) (mem0 : Members) (s : S) (compactAt : Z)
    (peers : option Members) (d : D) : outcome N * D :=
  match newCore conf mem0 d with
  | (Ok c, d') =>
      let start : M N () :=
        data ← zoom nc takeRestore;
        (if bool_decide (data = []) then mret () else
         n ← get;
         match smRestore data (sm n) with
         | Ok s => modify (set sm (λ _, s))
         | Err e => throw (EWrap "raft: restoring state machine from snapshot: %w" e)
         | Panic => panic
         | Crash => lift Crash
         end);;
        syncTransportConfig;;
        publishStatus in
      match start (node_of c s compactAt peers) with
      | (Ok _, n) => (Ok n, d')
      | (Err e, n) => (Err e, disk (nc n))
      | (Panic, n) => (Panic, disk (nc n))
      | (Crash, n) => (Crash, disk (nc n))
      end
  | (Err e, d') => (Err e, d')
  | (Panic, d') => (Panic, d')
  | (Crash, d') => (Crash, d')
  end.
End node.
