(* ===== verification/NodeApi.v ===== *)
(** * internal/raft/node.go: the entry points of a node

    What other goroutines run: [Propose], [ReadBarrier], the [Handle...]
    functions of the RPC service, membership changes and leadership transfer.
    A goroutine is a [prog]: it makes channels, waits in [select] statements for
    the loop, for [stopc] or for its context, and reads what the node shares
    with it.  [System] runs goroutines against the loop. *)

From stdpp Require Import prelude gmap strings.
From S2P Require Import Prelude GoRuntime GoBytes RaftTypes Membership Core Node.
Open Scope Z_scope.

(** The case a [select] took: the channel operation, [<-n.stopc], or
    [<-ctx.Done()], which gives [ctx.Err()]. *)
Inductive selected (A : Type) :=
  | Got (a : A)
  | StopClosed
  | CtxDone (e : error).
Arguments Got {A} a.
Arguments StopClosed {A}.
Arguments CtxDone {A} e.

(** A goroutine that returns an [A]; [S] is the state machine.  A receive says
    which values its channel carries, and whether it also waits for [stopc]. *)
Inductive prog (S A : Type) :=
  | Return (a : A)
  | MakeChan (k : nat → prog S A)
  | SelectSend (ev : event) (k : selected () → prog S A)
  | SelectRecv (B : Type) (carries : reply → option B) (stoppable : bool) (ch : nat)
      (k : selected B → prog S A)
  | ReadMachine (k : S → prog S A)
  | ReadStatus (k : Status → prog S A).
Arguments Return {S A} a.
Arguments MakeChan {S A} k.
Arguments SelectSend {S A} ev k.
Arguments SelectRecv {S A B} carries stoppable ch k.
Arguments ReadMachine {S A} k.
Arguments ReadStatus {S A} k.

#[export] Instance prog_ret {S} : MRet (prog S) := λ A a, Return a.
Fixpoint prog_bind_ {S A B} (f : A → prog S B) (p : prog S A) : prog S B :=
  match p with
  | Return a => f a
  | MakeChan k => MakeChan (λ c, prog_bind_ f (k c))
  | SelectSend ev k => SelectSend ev (λ s, prog_bind_ f (k s))
  | SelectRecv carries st ch k => SelectRecv carries st ch (λ s, prog_bind_ f (k s))
  | ReadMachine k => ReadMachine (λ s, prog_bind_ f (k s))
  | ReadStatus k => ReadStatus (λ s, prog_bind_ f (k s))
  end.
#[export] Instance prog_bind {S} : MBind (prog S) := λ A B f p, prog_bind_ f p.

Definition makeChan {S} : prog S nat := MakeChan Return.
Definition selectSend {S} (ev : event) : prog S (selected ()) := SelectSend ev Return.
Definition selectRecv {S B} (carries : reply → option B) (stoppable : bool) (ch : nat) : prog S (selected B) :=
  SelectRecv carries stoppable ch Return.

(** [Node.Status]: the snapshot last published, without the loop. *)
Definition node_Status {S} : prog S Status := ReadStatus Return.

(** What each kind of channel carries. *)
Definition carries_vote (r : reply) := match r with ReplyVote x => Some x | _ => None end.
Definition carries_append (r : reply) := match r with ReplyAppend x => Some x | _ => None end.
Definition carries_snapshot (r : reply) := match r with ReplySnapshot x => Some x | _ => None end.
Definition carries_timeoutNow (r : reply) := match r with ReplyTimeoutNow x => Some x | _ => None end.
Definition carries_propose (r : reply) := match r with ReplyPropose x => Some x | _ => None end.
Definition carries_transfer (r : reply) := match r with ReplyTransfer x => Some x | _ => None end.
Definition carries_read (r : reply) := match r with ReplyRead x => Some x | _ => None end.
Definition carries_done (r : reply) := match r with ReplyDone x => Some x | _ => None end.

Section api.
Context {S : Type}.

(** [error] results: [None] is [nil]. *)
Definition Propose (command : bytes) : prog S (option error) :=
  done ← makeChan;
  respc ← makeChan;
  s ← selectSend (evPropose command ENTRY_TYPE_NORMAL done respc);
  match s with
  | StopClosed => mret (Some EStopped)
  | CtxDone e => mret (Some e)
  | Got _ =>
      s ← selectRecv carries_propose true respc;
      match s with
      | Got (inr e) => mret (Some e)
      | StopClosed => mret (Some EStopped)
      | CtxDone e => mret (Some e)
      | Got (inl _) =>
          s ← selectRecv carries_done true done;
          match s with
          | Got (inl _) => mret None
          | Got (inr e) => mret (Some e)
          | StopClosed => mret (Some EStopped)
          | CtxDone e => mret (Some e)
          end
      end
  end.

(** The four RPC entry points have one shape; the second wait is not for
    [stopc]. *)
Definition handle_rpc {B} (mk : nat → event) (carries : reply → option (B + error)) : prog S (B + error) :=
  respc ← makeChan;
  s ← selectSend (mk respc);
  match s with
  | StopClosed => mret (inr EStopped)
  | CtxDone e => mret (inr e)
  | Got _ =>
      s ← selectRecv carries false respc;
      match s with
      | Got r => mret r
      | StopClosed => mret (inr EStopped)
      | CtxDone e => mret (inr e)
      end
  end.

Definition HandleRequestVote (req : RequestVoteRequest) := handle_rpc (evRequestVote req) carries_vote.
Definition HandleAppendEntries (req : AppendEntriesRequest) := handle_rpc (evAppendEntries req) carries_append.
Definition HandleInstallSnapshot (req : InstallSnapshotRequest) := handle_rpc (evInstallSnapshot req) carries_snapshot.
Definition HandleTimeoutNow (req : TimeoutNowRequest) := handle_rpc (evTimeoutNow req) carries_timeoutNow.

Definition ReadBarrier : prog S (option error) :=
  respc ← makeChan;
  s ← selectSend (evRead respc);
  match s with
  | StopClosed => mret (Some EStopped)
  | CtxDone e => mret (Some e)
  | Got _ =>
      s ← selectRecv carries_read true respc;
      match s with
      | Got (inl _) => mret None
      | Got (inr e) => mret (Some e)
      | StopClosed => mret (Some EStopped)
      | CtxDone e => mret (Some e)
      end
  end.

(** [Node.confChange] *)
Definition changeMembers (cc : confChange) : prog S (option error) :=
  done ← makeChan;
  respc ← makeChan;
  s ← selectSend (evConfChange cc done respc);
  match s with
  | StopClosed => mret (Some EStopped)
  | CtxDone e => mret (Some e)
  | Got _ =>
      s ← selectRecv carries_propose true respc;
      match s with
      | Got (inr e) => mret (Some e)
      | StopClosed => mret (Some EStopped)
      | CtxDone e => mret (Some e)
      | Got (inl _) =>
          s ← selectRecv carries_done true done;
          match s with
          | Got (inl _) => mret None
          | Got (inr e) => mret (Some e)
          | StopClosed => mret (Some EStopped)
          | CtxDone e => mret (Some e)
          end
      end
  end.

Definition AddMember (id : Z) (addr : gostring) : prog S (option error) :=
  changeMembers (mkCC confChangeAdd id addr).
Definition RemoveMember (id : Z) : prog S (option error) :=
  changeMembers (mkCC confChangeRemove id []).

Definition TransferLeadership (to : Z) : prog S (option error) :=
  respc ← makeChan;
  s ← selectSend (evTransfer to respc);
  match s with
  | StopClosed => mret (Some EStopped)
  | CtxDone e => mret (Some e)
  | Got _ =>
      s ← selectRecv carries_transfer true respc;
      match s with
      | Got (inl _) => mret None
      | Got (inr e) => mret (Some e)
      | StopClosed => mret (Some EStopped)
      | CtxDone e => mret (Some e)
      end
  end.
End api.
