(* ===== verification/Transport.v ===== *)
(** * internal/raft/transport.go and service.go

    The transport dials one connection per peer and caches it while peers come,
    move and go; the service routes an RPC to the group it names.  Connections
    are handles into a table, so that dialling, caching and closing are
    distinct; [grpc.NewClient] enters as [dial]. *)

From stdpp Require Import prelude gmap strings.
From S2P Require Import Prelude GoRuntime GoBytes GoStrings GoText Grpc RaftTypes Membership Core Node NodeApi.
Open Scope Z_scope.

(** A client connection: where it leads, and whether it is still open. *)
Record ClientConn := mkConn { cc_target : gostring; cc_open : bool }.

Record GRPCTransport := mkTransport {
  addrs : gmap Z gostring;
  conns : gmap Z nat;
  dialled : gmap nat ClientConn          (* every connection ever made *)
}.
#[export] Instance transport_eta : Settable GRPCTransport := λ t, mkTransport (addrs t) (conns t) (dialled t).
#[export] Instance set_addrs : Setter addrs := ltac:(solve_setter).
#[export] Instance set_conns : Setter conns := ltac:(solve_setter).
#[export] Instance set_dialled : Setter dialled := ltac:(solve_setter).

Definition NewGRPCTransport (a : gmap Z gostring) : GRPCTransport := mkTransport a ∅ ∅.

(** [c.Close()] *)
Definition close_conn (h : nat) (t : GRPCTransport) : GRPCTransport :=
  t <| dialled ::= alter (λ c, mkConn (cc_target c) false) h |>.

(** [if c, okc := t.conns[id]; okc { c.Close(); delete(t.conns, id) }] *)
Definition drop_conn (id : Z) (t : GRPCTransport) : GRPCTransport :=
  match conns t !! id with
  | Some h => (close_conn h t) <| conns ::= delete id |>
  | None => t
  end.

Definition SetPeer (id : Z) (addr : gostring) (t : GRPCTransport) : GRPCTransport :=
  if bool_decide (default [] (addrs t !! id) = addr) then t else
  drop_conn id (t <| addrs ::= <[id := addr]> |>).

Definition RemovePeer (id : Z) (t : GRPCTransport) : GRPCTransport :=
  drop_conn id (t <| addrs ::= delete id |>).

(** The loop visits the connections in some order; none is left. *)
Definition CloseTransport (t : GRPCTransport) : GRPCTransport :=
  foldr (λ kv t, drop_conn kv.1 t) t (map_to_list (conns t)).

(** [client] takes the read lock, and then the write lock if the first look
    found nothing; another goroutine may run in between. *)
Definition client_cached (to : Z) (t : GRPCTransport) : option nat := conns t !! to.

Definition client_dial (dial : gostring → option error) (to : Z) : M GRPCTransport nat :=
  t ← get;
  match conns t !! to with
  | Some h => mret h
  | None =>
      match addrs t !! to with
      | None => throw (EMsg "raft transport: no address for node %d")
      | Some addr =>
          match dial addr with
          | Some err => throw err
          | None =>
              let h := fresh (dom (dialled t) : gset nat) in
              modify (λ t, t <| dialled ::= <[h := mkConn addr true]> |> <| conns ::= <[to := h]> |>);;
              mret h
          end
      end
  end.

(** [client], with nobody in between. *)
Definition client (dial : gostring → option error) (to : Z) : M GRPCTransport nat :=
  t ← get;
  match client_cached to t with Some h => mret h | None => client_dial dial to end.

(** A call through the stub of a connection; [remote] is what the server at an
    address answers.  A closed connection fails the call. *)
Definition stub_call {Req Resp} (remote : gostring → Req → Resp + error) (h : nat) (req : Req) : M GRPCTransport Resp :=
  t ← get;
  match dialled t !! h with
  | Some c =>
      if cc_open c
      then match remote (cc_target c) req with inl resp => mret resp | inr err => throw err end
      else throw (EMsg "grpc: the client connection is closing")
  | None => panic
  end.

(** The four methods of [Transport]. *)
Section methods.
Context (dial : gostring → option error).
Definition rpcRequestVote (remote : gostring → RequestVoteRequest → RequestVoteResponse + error) (to : Z)
    (req : RequestVoteRequest) : M GRPCTransport RequestVoteResponse := c ← client dial to; stub_call remote c req.
Definition rpcAppendEntries (remote : gostring → AppendEntriesRequest → AppendEntriesResponse + error) (to : Z)
    (req : AppendEntriesRequest) : M GRPCTransport AppendEntriesResponse := c ← client dial to; stub_call remote c req.
Definition rpcInstallSnapshot (remote : gostring → InstallSnapshotRequest → InstallSnapshotResponse + error) (to : Z)
    (req : InstallSnapshotRequest) : M GRPCTransport InstallSnapshotResponse := c ← client dial to; stub_call remote c req.
Definition rpcTimeoutNow (remote : gostring → TimeoutNowRequest → () + error) (to : Z)
    (req : TimeoutNowRequest) : M GRPCTransport () := c ← client dial to; stub_call remote c req.
End methods.

(** ** Goroutines on one transport *)

Section transport.
Variable dial : gostring → option error.

Inductive tstep (t : GRPCTransport) : GRPCTransport → Prop :=
  | t_set id addr : tstep t (SetPeer id addr t)
  | t_remove id : tstep t (RemovePeer id t)
  | t_close : tstep t (CloseTransport t)
  | t_client to o t' : client_dial dial to t = (o, t') → tstep t t'.

(** The cache holds exactly the open connections, and each leads to the address
    its peer has now; no connection serves two peers. *)
Record conns_current (t : GRPCTransport) : Prop := {
  cur_open id h : conns t !! id = Some h → ∃ a, addrs t !! id = Some a ∧ dialled t !! h = Some (mkConn a true);
  cur_leak h c : dialled t !! h = Some c → cc_open c = true → ∃ id, conns t !! id = Some h;
  cur_one id id' h : conns t !! id = Some h → conns t !! id' = Some h → id = id'
}.

(** Dropping restores the cache when only [id]'s address has changed. *)
Lemma drop_current id t t' :
  conns_current t → conns t' = conns t → dialled t' = dialled t →
  (∀ id', id' ≠ id → addrs t' !! id' = addrs t !! id') → conns_current (drop_conn id t').
Proof.
  intros Ht Hc Hd Ha. unfold drop_conn. rewrite Hc. destruct (conns t !! id) as [h|] eqn:E.
  - constructor; cbn; rewrite ?Hc, ?Hd.
    + intros id' h' [Hne Hl]%lookup_delete_Some. destruct (cur_open _ Ht _ _ Hl) as (a & Haddr & Hdial). exists a.
      rewrite Ha by done. split; [done|]. rewrite lookup_alter_ne; [done|]. intros ->. by destruct Hne, (cur_one _ Ht id id' h').
    + intros h' c. rewrite lookup_alter. case_decide as Hh.
      * subst h'. destruct (dialled t !! h); [|done]. by intros [= <-].
      * intros Hl Ho. destruct (cur_leak _ Ht _ _ Hl Ho) as [id' Hid']. exists id'. rewrite lookup_delete_ne; [done|].
        intros ->. congruence.
    + intros i1 i2 h' [_ H1]%lookup_delete_Some [_ H2]%lookup_delete_Some. by apply (cur_one _ Ht i1 i2 h').
  - constructor; rewrite ?Hc, ?Hd; [|apply Ht|apply Ht]. intros id' h' Hl. rewrite Ha by congruence. by apply (cur_open _ Ht).
Qed.

Lemma close_current l t : conns_current t → conns_current (foldr (λ (kv : Z * nat) t, drop_conn kv.1 t) t l).
Proof. intros Ht. induction l as [|[id h] l IH]; [done|]. cbn. by apply (drop_current id _ _ IH). Qed.

Lemma client_current to t o t' : conns_current t → client_dial dial to t = (o, t') → conns_current t'.
Proof.
  intros Ht. unfold client_dial. unfold mbind, M_bind. cbn. destruct (conns t !! to) as [h|] eqn:E; [by intros [= <- <-]|].
  destruct (addrs t !! to) as [a|] eqn:Ea; [|by intros [= <- <-]]. destruct (dial a); [by intros [= <- <-]|].
  cbn. intros [= <- <-]. set (h := fresh _).
  assert (dialled t !! h = None) as Hf by (apply not_elem_of_dom, is_fresh).
  assert (∀ id, conns t !! id ≠ Some h) as Hnew.
  { intros id Hid. destruct (cur_open _ Ht _ _ Hid) as (? & _ & ?). congruence. }
  constructor; cbn.
  - intros id h' [[<- <-]|[Hne Hl]]%lookup_insert_Some; [exists a; by rewrite lookup_insert_eq|].
    destruct (cur_open _ Ht _ _ Hl) as (a' & Ha' & Hd). exists a'. rewrite lookup_insert_ne by congruence. done.
  - intros h' c [[<- <-]|[Hne Hl]]%lookup_insert_Some Ho; [exists to; by rewrite lookup_insert_eq|].
    destruct (cur_leak _ Ht _ _ Hl Ho) as [id Hid]. exists id. rewrite lookup_insert_ne; [done|congruence].
  - intros i1 i2 h' [[<- <-]|[? H1]]%lookup_insert_Some [[<- ?]|[? H2]]%lookup_insert_Some; try done.
    + by destruct (Hnew i2).
    + subst h'. by destruct (Hnew i1).
    + by apply (cur_one _ Ht i1 i2 h').
Qed.

Lemma tstep_current t t' : conns_current t → tstep t t' → conns_current t'.
Proof.
  intros Ht [id addr|id| |to o t2 Hc].
  - unfold SetPeer. case_bool_decide; [done|]. apply (drop_current id t); [done..|]. intros id' Hne. cbn.
    by rewrite lookup_insert_ne.
  - apply (drop_current id t); [done..|]. intros id' Hne. cbn. by rewrite lookup_delete_ne.
  - by apply close_current.
  - by eapply client_current.
Qed.

(** A call to a known peer reaches the server at the address the peer has now, and
    returns its answer; one to an unknown peer fails and dials nothing. *)
Lemma call_reaches {Req Resp} (remote : gostring → Req → Resp + error) to req t :
  conns_current t → (∀ a, dial a = None) →
  ((c ← client dial to; stub_call remote c req) t).1 =
    match addrs t !! to with
    | None => Err (EMsg "raft transport: no address for node %d")
    | Some a => match remote a req with inl resp => Ok resp | inr err => Err err end
    end.
Proof.
  intros Ht Hdial. unfold client, client_cached, client_dial, stub_call, mbind, M_bind, get. cbn.
  destruct (conns t !! to) as [h|] eqn:E.
  - destruct (cur_open _ Ht _ _ E) as (a & Ha & Hd). cbn. rewrite Ha, Hd. cbn. by destruct (remote a req).
  - rewrite E. destruct (addrs t !! to) as [a|]; [|done]. rewrite Hdial. cbn. rewrite lookup_insert_eq. cbn. by destruct (remote a req).
Qed.
End transport.

(** C22: A message never leaves on a stale connection.  Whatever interleaving of
    [SetPeer], [RemovePeer], [Close] and concurrent sends a transport goes
    through, the connection a send picks, from the cache or by dialling, is open
    and leads to the address the peer has at that moment, and no open connection
    is ever lost from the cache. *)
Theorem client_never_stale dial a t to :
  rtc (tstep dial) (NewGRPCTransport a) t →
  (∀ h, client_cached to t = Some h ∨ (client_dial dial to t).1 = Ok h →
     ∃ addr, addrs t !! to = Some addr ∧ dialled (client_dial dial to t).2 !! h = Some (mkConn addr true)) ∧
  (∀ h c, dialled t !! h = Some c → cc_open c = true → ∃ id, client_cached id t = Some h).
Proof.
  intros Hr. assert (conns_current t) as Ht.
  { assert (conns_current (NewGRPCTransport a)) as H0 by by constructor.
    induction Hr as [|t0 t1 t2 Hs _ IH]; [done|]. apply IH. by eapply tstep_current. }
  split; [|apply Ht]. intros h Hh.
  pose proof (client_current dial to t _ _ Ht (surjective_pairing _)) as Ht'.
  assert (conns (client_dial dial to t).2 !! to = Some h ∧ addrs (client_dial dial to t).2 = addrs t) as [Hc <-].
  { unfold client_cached, client_dial, mbind, M_bind in *. cbn in *. destruct (conns t !! to) as [h'|] eqn:E.
    - cbn in *. destruct Hh as [?|?]; split; congruence.
    - destruct Hh as [?|Hh]; [done|]. destruct (addrs t !! to); [|done]. destruct (dial _); [done|].
      cbn in *. injection Hh as <-. split; [apply lookup_insert_eq|done]. }
  by apply (cur_open _ Ht').
Qed.

Lemma client_never_stale_witness :
  let a := {[1 := str "a:1"; 2 := str "b:2"]} in
  let t := SetPeer 2 (str "c:3") (client_dial (λ _, None) 2 (NewGRPCTransport a)).2 in
  (∀ h, client_cached 2 t = Some h ∨ (client_dial (λ _, None) 2 t).1 = Ok h →
     ∃ addr, addrs t !! 2 = Some addr ∧ dialled (client_dial (λ _, None) 2 t).2 !! h = Some (mkConn addr true)) ∧
  (∀ h c, dialled t !! h = Some c → cc_open c = true → ∃ id, client_cached id t = Some h).
Proof.
  intros a t. apply (client_never_stale (λ _, None) a t 2).
  eapply rtc_l; [by eapply (t_client _ _ 2), surjective_pairing|]. eapply rtc_once, t_set.
Defined.

(** ** The service *)

Section service.
Context {N : Type}.

(** [Service]: the nodes of this process by group. *)
Record Service := mkService { svc_nodes : gmap Z N }.
Definition NewService (nodes : gmap Z N) : Service := mkService nodes.

Definition svc_node (s : Service) (group : Z) : N + grpcStatus :=
  match svc_nodes s !! group with
  | Some n => inl n
  | None => inr (mkGrpc NotFound (str "raft: no group " ++ fmt_d group ++ str " on this node"))
  end.

(** An RPC: the node that handles it and the goroutine it runs, or the status it
    is refused with. *)
Definition svc_rpc {S A} (s : Service) (group : Z) (p : prog S A) : (N * prog S A) + grpcStatus :=
  match svc_node s group with
  | inr st => inr st
  | inl n => inl (n, p)
  end.
End service.

Definition svcRequestVote {N S} (s : Service (N:=N)) group req := svc_rpc s group (HandleRequestVote (S:=S) req).
Definition svcAppendEntries {N S} (s : Service (N:=N)) group req := svc_rpc s group (HandleAppendEntries (S:=S) req).
Definition svcInstallSnapshot {N S} (s : Service (N:=N)) group req := svc_rpc s group (HandleInstallSnapshot (S:=S) req).
Definition svcTimeoutNow {N S} (s : Service (N:=N)) group req := svc_rpc s group (HandleTimeoutNow (S:=S) req).
