(* ===== verification/System.v ===== *)
(** * Goroutines around the event loop of a node

    The loop of [Node] and any number of goroutines of [NodeApi], interleaved
    at the granularity of channel operations.  Every reply channel is made with
    room for one value; the theorem of this file is that the loop never sends a
    second one, so that it never blocks on a caller that has gone away. *)

From Stdlib Require Import Permutation.
From stdpp Require Import prelude gmap strings.
From S2P Require Import Prelude GoRuntime GoBytes RaftTypes Membership Core Node NodeApi.
Open Scope Z_scope.

#[local] Instance app_permutation {A} : Proper ((≡ₚ) ==> (≡ₚ) ==> (≡ₚ)) (@app A) | 0.
Proof. apply Permutation_app'. Qed.

(** [S] is the state machine, [R] what the goroutines return. *)
Record system (D S R : Type) := mkSystem {
  loop : Node D S;
  looping : bool;                     (* [run] has not returned *)
  msgc : list event;
  next_chan : nat;                    (* channels below it have been made *)
  received : list nat;                (* channels whose value has been taken *)
  threads : gmap nat (prog S R)
}.
Arguments mkSystem {D S R}.
Arguments loop {D S R} _.
Arguments looping {D S R} _.
Arguments msgc {D S R} _.
Arguments next_chan {D S R} _.
Arguments received {D S R} _.
Arguments threads {D S R} _.
#[export] Instance system_eta {D S R} : Settable (system D S R) := λ y,
  mkSystem (loop y) (looping y) (msgc y) (next_chan y) (received y) (threads y).
#[export] Instance set_loop {D S R} : Setter (@loop D S R) := ltac:(solve_setter).
#[export] Instance set_looping {D S R} : Setter (@looping D S R) := ltac:(solve_setter).
#[export] Instance set_msgc {D S R} : Setter (@msgc D S R) := ltac:(solve_setter).
#[export] Instance set_next_chan {D S R} : Setter (@next_chan D S R) := ltac:(solve_setter).
#[export] Instance set_received {D S R} : Setter (@received D S R) := ltac:(solve_setter).
#[export] Instance set_threads {D S R} : Setter (@threads D S R) := ltac:(solve_setter).

(** The channels a message carries. *)
Definition ev_chans (ev : event) : list nat :=
  match ev with
  | evTick | evVoteResp _ _ _ _ | evAppendResp _ _ _ | evSnapshotResp _ _ _ => []
  | evRequestVote _ c | evAppendEntries _ c | evInstallSnapshot _ c | evTimeoutNow _ c
  | evTransfer _ c | evRead c => [c]
  | evPropose _ _ d c | evConfChange _ d c => [d; c]
  end.

(** [make(chan any, 256)] *)
Definition msgc_cap : nat := 256.

Section system.
Context {D S R : Type} `{RaftDisk D} `{GoRuntime} `{StateMachine S}.
Variable spawnable : prog S R → Prop.

Abbreviation Y := (system D S R).

Inductive sstep (y : Y) : Y → Prop :=
  (** a caller arrives *)
  | ss_spawn t p :
      threads y !! t = None → spawnable p → sstep y (y <| threads ::= <[t := p]> |>)
  | ss_make t k :
      threads y !! t = Some (MakeChan k) →
      sstep y (y <| next_chan ::= λ c, (c + 1)%nat |> <| threads ::= <[t := k (next_chan y)]> |>)
  | ss_send t ev k :
      threads y !! t = Some (SelectSend ev k) → (length (msgc y) < msgc_cap)%nat →
      sstep y (y <| msgc ::= λ q, q ++ [ev] |> <| threads ::= <[t := k (Got ())]> |>)
  | ss_send_stopped t ev k :
      threads y !! t = Some (SelectSend ev k) → stopping (loop y) = true →
      sstep y (y <| threads ::= <[t := k StopClosed]> |>)
  | ss_send_ctx t ev k e :
      threads y !! t = Some (SelectSend ev k) → e = EDeadlineExceeded ∨ e = ECanceled →
      sstep y (y <| threads ::= <[t := k (CtxDone e)]> |>)
  | ss_recv t B (carries : reply → option B) b c k r v :
      threads y !! t = Some (SelectRecv carries b c k) →
      (c, r) ∈ replies (loop y) → c ∉ received y → carries r = Some v →
      sstep y (y <| received ::= cons c |> <| threads ::= <[t := k (Got v)]> |>)
  | ss_recv_stopped t B (carries : reply → option B) c k :
      threads y !! t = Some (SelectRecv carries true c k) → stopping (loop y) = true →
      sstep y (y <| threads ::= <[t := k StopClosed]> |>)
  | ss_recv_ctx t B (carries : reply → option B) b c k e :
      threads y !! t = Some (SelectRecv carries b c k) → e = EDeadlineExceeded ∨ e = ECanceled →
      sstep y (y <| threads ::= <[t := k (CtxDone e)]> |>)
  | ss_machine t k :
      threads y !! t = Some (ReadMachine k) →
      sstep y (y <| threads ::= <[t := k (sm (loop y))]> |>)
  | ss_status t k st :
      threads y !! t = Some (ReadStatus k) → status (loop y) = Some st →
      sstep y (y <| threads ::= <[t := k st]> |>)
  (** the ticker and the goroutines that carry responses back: [enqueue] *)
  | ss_enqueue ev :
      ev_chans ev = [] → (length (msgc y) < msgc_cap)%nat →
      sstep y (y <| msgc ::= λ q, q ++ [ev] |>)
  (** [Stop] *)
  | ss_stop :
      sstep y (y <| loop ::= set stopping (λ _, true) |>)
  (** a round of [run] *)
  | ss_loop ev q n' :
      looping y = true → msgc y = ev :: q → handle ev (loop y) = (Ok (), n') →
      sstep y (y <| msgc := q |> <| loop := n' |>)
  | ss_loop_halt ev q e n' :
      looping y = true → msgc y = ev :: q → handle ev (loop y) = (Err e, n') →
      sstep y (y <| msgc := q |> <| loop := n' <| stopping := true |> |> <| looping := false |>)
  | ss_loop_exit :
      looping y = true → stopping (loop y) = true →
      sstep y (y <| looping := false |>).

(** ** Discipline of the callers: a channel a goroutine made goes into at most
    one message *)
Fixpoint disciplined {A} (own : gset nat) (p : prog S A) : Prop :=
  match p with
  | Return _ => True
  | MakeChan k => ∀ c, c ∉ own → disciplined ({[c]} ∪ own) (k c)
  | SelectSend ev k =>
      NoDup (ev_chans ev) ∧ Forall (.∈ own) (ev_chans ev) ∧
      ∀ s, disciplined (own ∖ list_to_set (ev_chans ev)) (k s)
  | SelectRecv _ _ _ k => ∀ s, disciplined own (k s)
  | ReadMachine k => ∀ s, disciplined own (k s)
  | ReadStatus k => ∀ s, disciplined own (k s)
  end.

Lemma disciplined_mono {A} (own own' : gset nat) (p : prog S A) :
  own ⊆ own' → disciplined own p → disciplined own' p.
Proof.
  revert own own'. induction p as [a|k IH|ev k IH|B f b c k IH|k IH|k IH]; intros own own' Ho Hd; cbn in *; [done| | |eauto..].
  - intros c Hc. apply (IH c ({[c]} ∪ own)); [set_solver|]. apply Hd. set_solver.
  - destruct Hd as (? & Hf & Hd). split_and!; [done| |].
    + eapply Forall_impl; [exact Hf|]. set_solver.
    + intros s. apply (IH s (own ∖ list_to_set (ev_chans ev))); [set_solver|done].
Qed.

Lemma disciplined_bind {A B} own (p : prog S A) (f : A → prog S B) :
  disciplined own p → (∀ a, disciplined ∅ (f a)) → disciplined own (p ≫= f).
Proof.
  intros Hp Hf. revert own Hp.
  induction p as [a|k IH|ev k IH|C g b c k IH|k IH|k IH]; intros own Hp; cbn in *; [|naive_solver..].
  eapply disciplined_mono; [|apply Hf]. set_solver.
Qed.

(** The entry points follow it. *)
Ltac discipline :=
  repeat match goal with
  | |- disciplined _ _ => progress cbn
  | |- ∀ _, _ => intros
  | |- _ ∧ _ => split
  | |- disciplined _ (match ?x with _ => _ end) => destruct x
  | |- disciplined _ _ => done
  | |- True => done
  | |- NoDup _ => repeat constructor; set_solver
  | |- Forall _ _ => repeat constructor; set_solver
  end.

Lemma Propose_disciplined command : disciplined ∅ (Propose (S:=S) command).
Proof. unfold Propose. discipline. Qed.
Lemma ReadBarrier_disciplined : disciplined ∅ (ReadBarrier (S:=S)).
Proof. unfold ReadBarrier. discipline. Qed.
Lemma changeMembers_disciplined cc : disciplined ∅ (changeMembers (S:=S) cc).
Proof. unfold changeMembers. discipline. Qed.
Lemma TransferLeadership_disciplined to : disciplined ∅ (TransferLeadership (S:=S) to).
Proof. unfold TransferLeadership. discipline. Qed.
Lemma handle_rpc_disciplined {B} (mk : nat → event) (f : reply → option (B + error)) :
  (∀ c, ev_chans (mk c) = [c]) → disciplined ∅ (handle_rpc (S:=S) mk f).
Proof.
  intros Hm. unfold handle_rpc. cbn. intros c _. rewrite Hm. split_and!.
  - apply NoDup_singleton.
  - repeat constructor; set_solver.
  - intros []; cbn; [|done..]. by intros [].
Qed.

(** ** The channels of a node: those it has answered on, and those it holds *)
Definition vals {A} (m : gmap Z A) : list A := (map_to_list m).*2.

Definition node_chans (n : Node D S) : list nat :=
  (replies n).*1 ++ (w_done <$> vals (waiters n)) ++ vals (readWaiters n) ++ (aw_c <$> appliedWaiters n).

Lemma vals_insert {A} (m : gmap Z A) i x : vals (<[i := x]> m) ⊆+ x :: vals m.
Proof.
  unfold vals. destruct (m !! i) as [y|] eqn:E.
  - rewrite <-insert_delete_eq, map_to_list_insert by apply lookup_delete_eq. cbn.
    apply submseteq_skip. rewrite <-(map_to_list_delete m i y E). cbn. by apply submseteq_cons.
  - by rewrite map_to_list_insert.
Qed.

Lemma vals_delete {A} (m : gmap Z A) i x : m !! i = Some x → vals m ≡ₚ x :: vals (delete i m).
Proof. intros E. unfold vals. by rewrite <-(map_to_list_delete m i x E). Qed.

(** The rest of the node plays no part. *)
Lemma node_chans_nc (n : Node D S) c : node_chans (n <| nc := c |>) = node_chans n.
Proof. done. Qed.

Abbreviation from cs n := (λ _ n', node_chans n' ⊆+ cs ++ node_chans n).

Lemma wp_from_bind {A B} (m : M (Node D S) A) (k : A → M (Node D S) B) cs1 cs2 n :
  wp m (from cs1 n) n → (∀ a n', wp (k a) (from cs2 n') n') → wp (m ≫= k) (from (cs2 ++ cs1) n) n.
Proof.
  intros Hm Hk. apply wp_bind. eapply wp_mono; [exact Hm|]. intros [a|e| |] n' Hn'; cbn [wpk];
    [eapply wp_mono; [apply Hk|]; intros o n2 Hn2; cbn in *|..]; rewrite <-app_assoc;
    [etrans; [exact Hn2|by apply submseteq_app]|by apply submseteq_inserts_l..].
Qed.

(** Sequences that add no channel. *)
Lemma wp_from_nil {A B} (m : M (Node D S) A) (k : A → M (Node D S) B) n :
  wp m (from [] n) n → (∀ a n', wp (k a) (from [] n') n') → wp (m ≫= k) (from [] n) n.
Proof. apply (wp_from_bind m k [] []). Qed.

Lemma wp_from_zoom {A} (m : M (core D) A) n : wp (zoom nc m) (from [] n) n.
Proof. apply wp_zoom, wp_intro. intros o c _. by rewrite node_chans_nc. Qed.

Lemma wp_from_modify f n : node_chans (f n) = node_chans n → wp (modify f) (from [] n) n.
Proof. intros E. apply wp_modify. by rewrite E. Qed.

Lemma wp_from_ret {A} (a : A) n : wp (mret a) (from [] n) n.
Proof. by apply wp_ret. Qed.

Lemma wp_from_for_each {A} (l : list A) f n :
  (∀ x n, wp (f x) (from [] n) n) → wp (for_each l f) (from [] n) n.
Proof.
  intros Hf. revert n. induction l as [|x l IH]; intros n; [apply wp_from_ret|].
  apply wp_from_nil; [apply Hf|]. intros _ n'. apply IH.
Qed.

Lemma wp_reply_on c r n : wp (reply_on c r) (from [c] n) n.
Proof.
  apply wp_modify. unfold node_chans. cbn. rewrite fmap_app. cbn. rewrite <-app_assoc. cbn.
  by rewrite <-Permutation_middle.
Qed.

Lemma fireAppliedWaiters_chans n : wp fireAppliedWaiters (from [] n) n.
Proof.
  unfold fireAppliedWaiters. apply wp_bind, wp_get. cbn [wpk]. apply wp_bind.
  set (fired := filter _ _). set (rest := filter _ _).
  assert (aw_c <$> appliedWaiters n ≡ₚ (aw_c <$> fired) ++ (aw_c <$> rest)) as Hsplit.
  { rewrite <-fmap_app. apply fmap_Permutation. symmetry. apply filter_app_complement. }
  assert (∀ l (n : Node D S), wp (for_each l (λ w, reply_on (aw_c w) (ReplyRead (inl (aw_index w)))))
            (λ o n', o = Ok () ∧ ∃ rs, n' = n <| replies ::= λ l, l ++ rs |> ∧ rs.*1 = aw_c <$> l) n) as Hall.
  { clear. intros l. induction l as [|w l IH]; intros n; [apply wp_ret; split; [done|]; exists []; split; [destruct n; unfold set, set_replies; cbn; by rewrite app_nil_r|done]|].
    cbn [for_each]. apply wp_bind, wp_modify. cbn [wpk]. eapply wp_mono; [apply IH|].
    intros o n' [-> (rs & -> & Hrs)]. split; [done|]. exists ((aw_c w, ReplyRead (inl (aw_index w))) :: rs).
    split; [destruct n; unfold set, set_replies; cbn; by rewrite <-app_assoc|cbn; by rewrite Hrs]. }
  eapply wp_mono; [apply Hall|]. intros o n' [-> (rs & -> & Hrs)]. cbn [wpk]. apply wp_modify.
  unfold node_chans. cbn. rewrite fmap_app, Hrs. apply Permutation_submseteq. rewrite Hsplit. solve_Permutation.
Qed.

Lemma applyEntry_chans e n : wp (applyEntry e) (from [] n) n.
Proof.
  unfold applyEntry. apply wp_from_nil; [destruct (_ =? _); [by apply wp_from_modify|apply wp_from_ret]|].
  intros _ n1. apply wp_from_nil; [by apply wp_from_modify|]. intros _ n2.
  apply wp_from_nil; [apply fireAppliedWaiters_chans|]. intros _ n3. apply wp_bind, wp_get. cbn [wpk].
  destruct (waiters n3 !! Index e) as [w|] eqn:E; [|apply wp_from_ret].
  apply wp_bind, wp_modify. cbn [wpk]. eapply wp_mono; [apply wp_reply_on|]. intros o n' Hn'. etrans; [exact Hn'|].
  unfold node_chans. cbn. apply Permutation_submseteq. rewrite (vals_delete _ _ _ E). cbn. solve_Permutation.
Qed.

Lemma resolveRead_chans r n : wp (resolveRead r) (from [] n) n.
Proof.
  unfold resolveRead. apply wp_bind, wp_get. cbn [wpk].
  destruct (readWaiters n !! ro_id r) as [w|] eqn:E; [|apply wp_from_ret].
  apply wp_bind, wp_modify. cbn [wpk].
  assert (w :: node_chans (n <| readWaiters ::= delete (ro_id r) |>) ≡ₚ node_chans n) as Hc.
  { unfold node_chans. cbn. rewrite (vals_delete _ _ _ E). solve_Permutation. }
  assert (∀ x, wp (reply_on w x) (from [] n) (n <| readWaiters ::= delete (ro_id r) |>)) as Hreply.
  { intros x. eapply wp_mono; [apply wp_reply_on|]. intros o n' Hn'. etrans; [exact Hn'|]. by apply Permutation_submseteq. }
  destruct (negb _); [apply Hreply|]. destruct (_ <=? _); [apply Hreply|].
  apply wp_modify, Permutation_submseteq. cbn. rewrite <-Hc. unfold node_chans. cbn. rewrite fmap_app. cbn.
  solve_Permutation.
Qed.

Lemma maybeCompact_chans n : wp maybeCompact (from [] n) n.
Proof.
  unfold maybeCompact. apply wp_bind, wp_get. cbn [wpk]. destruct (_ <? _); [apply wp_from_ret|].
  apply wp_from_nil.
  { apply wp_attempt, wp_lift. by destruct (smSnapshot (sm n)). }
  intros [data|e] n1; [|apply wp_from_ret]. apply wp_from_nil; [|intros; apply wp_from_ret].
  apply wp_attempt. eapply wp_mono; [apply wp_from_zoom|]. by intros [] n2 Hn2.
Qed.

Lemma syncTransportConfig_chans n : wp syncTransportConfig (from [] n) n.
Proof.
  unfold syncTransportConfig. apply wp_bind, wp_get. cbn [wpk]. destruct (transportPeers n); [|apply wp_from_ret].
  destruct (_ =? _); [apply wp_from_ret|by apply wp_from_modify].
Qed.

Lemma afterStep_chans n : wp afterStep (from [] n) n.
Proof.
  unfold afterStep. apply wp_from_nil; [apply wp_from_zoom|]. intros data n1. apply wp_from_nil.
  { destruct (bool_decide _); [apply wp_from_ret|]. apply wp_bind, wp_get. cbn [wpk].
    destruct (smRestore data (sm n1)); [|by apply wp_bind, wp_modify; apply wp_ret|by apply wp_panic|by apply wp_lift].
    apply wp_from_nil; [by apply wp_from_modify|]. intros _ n2.
    apply wp_from_nil; [apply fireAppliedWaiters_chans|]. intros. apply wp_from_ret. }
  intros ok n2. destruct (negb ok); [apply wp_from_ret|].
  apply wp_from_nil; [apply wp_from_zoom|]. intros es n3.
  apply wp_from_nil; [apply wp_from_for_each; intros; apply applyEntry_chans|]. intros _ n4.
  apply wp_from_nil; [apply wp_from_zoom|]. intros rs n5.
  apply wp_from_nil; [apply wp_from_for_each; intros; apply resolveRead_chans|]. intros _ n6.
  apply wp_from_nil; [apply maybeCompact_chans|]. intros _ n7. apply wp_from_nil; [apply syncTransportConfig_chans|].
  intros _ n8. apply wp_from_nil; [apply wp_from_zoom|]. intros os n9.
  apply wp_from_nil; [apply wp_from_for_each; intros; by apply wp_from_modify|]. intros _ n10.
  by apply wp_from_modify.
Qed.

Lemma wp_from_submseteq {A} (m : M (Node D S) A) cs cs' n :
  cs ⊆+ cs' → wp m (from cs n) n → wp m (from cs' n) n.
Proof.
  intros Hc Hm. eapply wp_mono; [exact Hm|]. intros o n' Hn'. etrans; [exact Hn'|]. by apply submseteq_app.
Qed.

Lemma wp_from_attempt {A} (m : M (core D) A) n : wp (attempt (zoom nc m)) (from [] n) n.
Proof. apply wp_attempt. eapply wp_mono; [apply wp_from_zoom|]. by intros [] n' Hn'. Qed.

Lemma serve_chans {A} c (mk : A + error → reply) m n : wp (serve c mk m) (from [c] n) n.
Proof.
  unfold serve. apply (wp_from_bind _ _ [] [c]); [apply wp_from_attempt|]. intros r n1.
  apply (wp_from_bind _ _ [c] []); [apply wp_reply_on|]. intros _ n2. by destruct r; [apply wp_ret|apply wp_throw].
Qed.

Lemma serve_proposal_chans d c m n : wp (serve_proposal d c m) (from [d; c] n) n.
Proof.
  eapply (wp_from_submseteq _ ([c] ++ [d])); [apply Permutation_submseteq, Permutation_swap|]. unfold serve_proposal.
  apply (wp_from_bind _ _ [] ([c] ++ [d])); [apply wp_from_attempt|]. intros r n1.
  apply (wp_from_bind _ _ [d] [c]).
  - destruct r as [[i t]|e]; [|by apply wp_ret, submseteq_cons]. apply wp_modify. unfold node_chans. cbn.
    rewrite (Permutation_middle (replies n1).*1). apply submseteq_app; [done|].
    rewrite app_comm_cons. apply submseteq_app; [|done].
    change (d :: (w_done <$> vals (waiters n1))) with (w_done <$> mkWaiter t d :: vals (waiters n1)).
    by apply fmap_submseteq, vals_insert.
  - intros _ n2. apply (wp_from_bind _ _ [c] []); [apply wp_reply_on|]. intros _ n3.
    destruct r; [by apply wp_ret|]. destruct (is_persist_failure _); [by apply wp_throw|by apply wp_ret].
Qed.

Lemma dispatch_chans ev n : wp (dispatch ev) (from (ev_chans ev) n) n.
Proof.
  destruct ev; cbn [dispatch ev_chans]; try apply serve_chans; try apply serve_proposal_chans; try apply wp_from_zoom.
  - destruct preVote; apply wp_from_zoom.
  - apply (wp_from_bind _ _ [] [respc]); [apply wp_from_attempt|]. intros. apply wp_reply_on.
  - apply (wp_from_bind _ _ [] [respc]); [apply wp_from_attempt|]. intros [id|e] n1; [|apply wp_reply_on].
    apply wp_modify. unfold node_chans. cbn. rewrite !(app_assoc (replies n1).*1).
    etrans; [|apply Permutation_submseteq; symmetry; apply Permutation_middle]. apply submseteq_app; [done|]. rewrite app_comm_cons.
    apply submseteq_app; [apply vals_insert|done].
Qed.

Lemma handle_chans ev n o n' : handle ev n = (o, n') → node_chans n' ⊆+ ev_chans ev ++ node_chans n.
Proof.
  intros E. refine (wp_elim _ (from (ev_chans ev) n) _ _ _ _ E).
  apply (wp_from_bind _ _ (ev_chans ev) []); [apply dispatch_chans|]. intros. apply afterStep_chans.
Qed.

(** ** The invariant *)

(** Every channel that has left its maker: queued, held by the node, or
    answered. *)
Definition used (y : Y) : list nat := (msgc y ≫= ev_chans) ++ node_chans (loop y).

Record owned (y : Y) (own : nat → gset nat) : Prop := {
  o_nodup : NoDup (used y);
  o_made : Forall (λ c, (c < next_chan y)%nat) (used y);
  o_threads t p : threads y !! t = Some p → disciplined (own t) p;
  o_own t c : c ∈ own t → (c < next_chan y)%nat ∧ c ∉ used y;
  o_disjoint t t' c : c ∈ own t → c ∈ own t' → t = t'
}.
Definition sinv (y : Y) : Prop := ∃ own, owned y own.

(** A goroutine goes on; the channels in [cs], its own, are used. *)
Lemma sinv_thread y y' t p own own_t cs :
  owned y own → used y' ≡ₚ cs ++ used y → next_chan y' = next_chan y →
  threads y' = <[t := p]> (threads y) → own_t ⊆ own t → disciplined own_t p →
  NoDup cs → Forall (.∈ own t) cs → Forall (.∉ own_t) cs → sinv y'.
Proof.
  intros Ho Hu Hc Ht Hot Hp Hcs Hin Hout. rewrite Forall_forall in Hin, Hout.
  exists (λ t', if decide (t' = t) then own_t else own t').
  constructor; [rewrite Hu| |rewrite Ht|rewrite Hc|].
  - apply NoDup_app. split_and!; [done| |apply Ho]. intros c Hc1. by apply (o_own _ _ Ho t), Hin.
  - rewrite Hc, Hu, Forall_app. split; [|apply Ho]. rewrite Forall_forall. intros c Hc1. by apply (o_own _ _ Ho t), Hin.
  - intros t' p'. rewrite lookup_insert. repeat case_decide; subst; try done; [naive_solver|]. apply Ho.
  - intros t' c. rewrite Hu, elem_of_app. case_decide as Ht'; [subst t'|].
    + intros Hc1. destruct (o_own _ _ Ho t c) as [? ?]; [by apply Hot|]. split; [done|]. intros [Hc2|?]; [|done].
      by apply (Hout c).
    + intros Hc1. destruct (o_own _ _ Ho t' c Hc1) as [? ?]. split; [done|]. intros [Hc2|?]; [|done].
      apply Ht'. by apply (o_disjoint _ _ Ho t' t c); [|apply Hin].
  - intros t1 t2 c. repeat case_decide; subst; [done|..|apply Ho]; intros Hc1 Hc2.
    + apply (o_disjoint _ _ Ho t t2 c); [by apply Hot|done].
    + apply (o_disjoint _ _ Ho t1 t c); [done|by apply Hot].
Qed.

(** The node goes on. *)
Lemma sinv_used y y' own :
  owned y own → used y' ⊆+ used y → next_chan y' = next_chan y → threads y' = threads y → sinv y'.
Proof.
  intros Ho Hu Hc Ht. exists own. constructor; [..|apply Ho].
  - destruct (submseteq_Permutation _ _ Hu) as [k Hk]. pose proof (o_nodup _ _ Ho) as Hn. rewrite Hk in Hn.
    by apply NoDup_app in Hn as (? & _).
  - rewrite Hc. rewrite Forall_forall. intros c Hin. pose proof (o_made _ _ Ho) as Hm. rewrite Forall_forall in Hm.
    by apply Hm, (elem_of_submseteq _ _ _ Hin Hu).
  - rewrite Ht. apply Ho.
  - intros t c Hin. rewrite Hc. destruct (o_own _ _ Ho t c Hin) as [? Hn]. split; [done|].
    intros Hin'. by apply Hn, (elem_of_submseteq _ _ _ Hin' Hu).
Qed.

Lemma sinv_make y t k own :
  owned y own → threads y !! t = Some (MakeChan k) →
  sinv (y <| next_chan ::= λ c, (c + 1)%nat |> <| threads ::= <[t := k (next_chan y)]> |>).
Proof.
  intros Ho Ht. pose proof (o_threads _ _ Ho _ _ Ht) as Hd. cbn in Hd.
  assert (∀ t', next_chan y ∉ own t') as Hfresh by (intros t' Hin; apply (o_own _ _ Ho) in Hin; lia).
  exists (λ t', if decide (t' = t) then {[next_chan y]} ∪ own t else own t').
  constructor; change (used (_ <| threads ::= _ |>)) with (used y); cbn; [apply Ho|..].
  - eapply Forall_impl; [apply Ho|]. intros c Hc. cbn in *. lia.
  - intros t' p'. rewrite lookup_insert. repeat case_decide; subst; try done; [naive_solver|]. apply Ho.
  - intros t' c Hc. assert (c = next_chan y ∨ c ∈ own t') as [->|Hin] by (case_decide; set_solver).
    + split; [lia|]. intros Hin. pose proof (o_made _ _ Ho) as Hm. rewrite Forall_forall in Hm. apply Hm in Hin. lia.
    + apply (o_own _ _ Ho) in Hin. split; [lia|]. apply Hin.
  - intros t1 t2 c Hc1 Hc2. destruct (decide (c = next_chan y)) as [->|Hne].
    + repeat case_decide; subst; [done|..]; set_solver.
    + apply (o_disjoint _ _ Ho t1 t2 c); repeat case_decide; subst; set_solver.
Qed.

Lemma used_loop y ev q n' (y' : Y) :
  msgc y = ev :: q → node_chans n' ⊆+ ev_chans ev ++ node_chans (loop y) →
  msgc y' = q → node_chans (loop y') = node_chans n' → used y' ⊆+ used y.
Proof.
  intros Hq Hn Hq' Hn'. unfold used. rewrite Hq, Hq', Hn'. cbn.
  etrans; [apply submseteq_app; [reflexivity|exact Hn]|]. apply Permutation_submseteq. solve_Permutation.
Qed.

Lemma sstep_sinv y y' : (∀ p, spawnable p → disciplined ∅ p) → sinv y → sstep y y' → sinv y'.
Proof.
  intros Hspawn (own & Ho) Hs.
  assert (∀ t p p', threads y !! t = Some p → disciplined (own t) p' →
    ∀ y', used y' = used y → next_chan y' = next_chan y → threads y' = <[t := p']> (threads y) → sinv y') as Hgo.
  { intros t p p' Ht Hp' y2 Hu Hc Ht'. apply (sinv_thread y y2 t p' own (own t) []); rewrite ?Hu; done || constructor. }
  destruct Hs as [t p Ht Hp|t k Ht|t ev k Ht Hq|t ev k Ht|t ev k e Ht|t B f b c k r v Ht|t B f c k Ht|t B f b c k e Ht
    |t k Ht|t k st Ht|ev Hev Hq| |ev q n' Hl Hq Hh|ev q e n' Hl Hq Hh|]; [|by eapply sinv_make|..];
    try (pose proof (o_threads _ _ Ho _ _ Ht) as Hd; cbn in Hd; eapply (Hgo _ _ _ Ht); [apply Hd|done..]);
    try (pose proof (o_threads _ _ Ho _ _ Ht) as (Hnd & Hin & Hd)).
  - apply (sinv_thread y _ t p own ∅ []); [done|done|done|done|set_solver|by apply Hspawn|by constructor|by constructor|by constructor].
  - apply (sinv_thread y _ t (k (Got ())) own (own t ∖ list_to_set (ev_chans ev)) (ev_chans ev)); try done.
    + unfold used. cbn. rewrite bind_app. cbn. solve_Permutation.
    + set_solver.
    + rewrite Forall_forall. set_solver.
  - apply (Hgo _ _ (k StopClosed) Ht); [|done..]. eapply disciplined_mono; [|apply Hd]. set_solver.
  - apply (Hgo _ _ (k (CtxDone e)) Ht); [|done..]. eapply disciplined_mono; [|apply Hd]. set_solver.
  - apply (sinv_used y _ own Ho); [|done..]. unfold used. cbn. rewrite bind_app. cbn. by rewrite Hev, !app_nil_r.
  - by apply (sinv_used y _ own Ho).
  - apply (sinv_used y _ own Ho); [|done..]. by eapply used_loop; [|eapply handle_chans|..].
  - apply (sinv_used y _ own Ho); [|done..]. by eapply used_loop; [|eapply handle_chans|..].
  - by apply (sinv_used y _ own Ho).
Qed.

(** A node that has just been made holds no channel. *)
Lemma NewNode_chans conf mem0 s compactAt peers d n d' :
  NewNode conf mem0 s compactAt peers d = (Ok n, d') → node_chans n = [].
Proof.
  unfold NewNode. destruct (newCore conf mem0 d) as [[c|e| |] d1]; [|done..].
  set (start := mbind _ _). set (n0 := node_of _ _ _ _).
  assert (wp start (from [] n0) n0) as Hw.
  { unfold start. apply wp_from_nil; [apply wp_from_zoom|]. intros data n1. apply wp_from_nil.
    - destruct (bool_decide _); [apply wp_from_ret|]. apply wp_bind, wp_get. cbn [wpk].
      by destruct (smRestore data (sm n1)); [apply wp_modify|apply wp_throw|apply wp_panic|apply wp_lift].
    - intros _ n2. apply wp_from_nil; [|intros; by apply wp_from_modify]. apply syncTransportConfig_chans. }
  unfold wp in Hw. destruct (start n0) as [[[]|e| |] n2]; [|done..]. intros [= <- <-].
  apply submseteq_nil_r. exact Hw.
Qed.

Inductive sreachable (n : Node D S) : Y → Prop :=
  | sr_start : sreachable n (mkSystem n true [] 0 [] ∅)
  | sr_step y y' : sreachable n y → sstep y y' → sreachable n y'.

Lemma sreachable_sinv n y :
  node_chans n = [] → (∀ p, spawnable p → disciplined ∅ p) → sreachable n y → sinv y.
Proof.
  intros Hn Hs. induction 1 as [|y y' _ IH Hst]; [|by eapply sstep_sinv].
  exists (λ _, ∅). assert (used (mkSystem (R:=R) n true [] 0 [] ∅) = []) as Hu by (unfold used; cbn; by rewrite Hn).
  constructor; rewrite ?Hu; [constructor|constructor|set_solver..].
Qed.
(** ** Callers: goroutines that use the node through its methods only *)
Inductive caller {A} : prog S A → Prop :=
  | call_return a : caller (mret a)
  | call_Propose command k : (∀ r, caller (k r)) → caller (Propose command ≫= k)
  | call_ReadBarrier k : (∀ r, caller (k r)) → caller (ReadBarrier ≫= k)
  | call_changeMembers cc k : (∀ r, caller (k r)) → caller (changeMembers cc ≫= k)
  | call_TransferLeadership to k : (∀ r, caller (k r)) → caller (TransferLeadership to ≫= k)
  | call_HandleRequestVote req k : (∀ r, caller (k r)) → caller (HandleRequestVote req ≫= k)
  | call_HandleAppendEntries req k : (∀ r, caller (k r)) → caller (HandleAppendEntries req ≫= k)
  | call_HandleInstallSnapshot req k : (∀ r, caller (k r)) → caller (HandleInstallSnapshot req ≫= k)
  | call_HandleTimeoutNow req k : (∀ r, caller (k r)) → caller (HandleTimeoutNow req ≫= k)
  | call_machine k : (∀ s, caller (k s)) → caller (ReadMachine k)
  | call_status k : (∀ s, caller (k s)) → caller (ReadStatus k).

Lemma caller_disciplined {A} (p : prog S A) : caller p → disciplined ∅ p.
Proof.
  induction 1; [done|apply disciplined_bind..|done|done]; try done;
    first [apply Propose_disciplined|apply ReadBarrier_disciplined|apply changeMembers_disciplined
          |apply TransferLeadership_disciplined|by apply handle_rpc_disciplined].
Qed.
End system.

(** C14: The loop never blocks on a reply.  However many goroutines call the
    node's methods, in whatever order they are scheduled, whichever of them give
    up waiting, and whatever the loop is made to do, no reply channel is sent on
    twice: the one place each has is free when the loop sends. *)
Theorem loop_never_blocks {D S R} `{RaftDisk D} `{GoRuntime} `{StateMachine S}
    conf mem0 s compactAt peers d n d' (y : system D S R) :
  NewNode conf mem0 s compactAt peers d = (Ok n, d') →
  sreachable caller n y → NoDup (replies (loop y)).*1.
Proof.
  intros Hn Hy. eapply sreachable_sinv in Hy as (own & Ho); [|by eapply NewNode_chans|by apply caller_disciplined].
  pose proof (o_nodup _ _ Ho) as Hnd. unfold used, node_chans in Hnd.
  apply NoDup_app in Hnd as (_ & _ & Hnd). by apply NoDup_app in Hnd as (? & _).
Qed.
