(* ===== verification/KvStateMachine.v ===== *)
(** * internal/kvraft/statemachine.go: the replicated state machine

    The map and the session table that makes retried writes idempotent.  The
    image of a snapshot goes through [encoding/gob], which enters through the
    class [Gob]: decoding what was encoded gives the image back. *)

From stdpp Require Import prelude gmap strings.
From coqutil Require Import Byte Word.LittleEndianList.
From S2P Require Import Prelude GoRuntime GoBytes MemStore Command RaftTypes Membership Core Node.
Open Scope Z_scope.

(** The envelope replicated through Raft. *)
Record command := mkEnvelope {
  clientID : Z;
  serial : Z;
  inner : bytes
}.

Definition kvEncodeCommand (c : command) : bytes :=
  AppendUint64 (AppendUint64 [] (clientID c)) (serial c) ++ inner c.

Definition kvDecodeCommand (b : bytes) : outcome command :=
  if zlength b <? 16 then Err (EMsg "kvraft: command envelope truncated: %d bytes") else
  id ← Uint64 b;
  b8 ← zslice_from b 8;
  s ← Uint64 b8;
  rest ← zslice_from b 16;
  mret (mkEnvelope id s rest).

Record stateMachine := mkSM {
  sm_data : MemStore;
  sm_sessions : gmap Z Z           (* clientID -> highest serial applied *)
}.
#[export] Instance stateMachine_eta : Settable stateMachine := λ s, mkSM (sm_data s) (sm_sessions s).
#[export] Instance set_sm_data : Setter sm_data := ltac:(solve_setter).
#[export] Instance set_sm_sessions : Setter sm_sessions := ltac:(solve_setter).

Definition newStateMachine : stateMachine := mkSM NewMemStore ∅.

(** The serial a client's last applied command had; 0 for a new client. *)
Definition session (s : stateMachine) (id : Z) : Z := default 0 (sm_sessions s !! id).

(** The [switch] of [Apply]. *)
Definition apply_command (cmd : Command) (m : MemStore) : MemStore :=
  if bool_decide (Op cmd = OpPut) then Put (Key cmd) (Value cmd) m
  else if bool_decide (Op cmd = OpDelete) then (Delete (Key cmd) m).2
  else m.

(** [Apply]; the index is not used.  A command that does not decode is skipped.
    No input makes the decoders panic ([kvDecode_cases],
    [Command.DecodeCommand]). *)
Definition Apply (index : Z) (data : bytes) (s : stateMachine) : stateMachine :=
  match kvDecodeCommand data with
  | Ok c =>
      if negb (clientID c =? 0) && (serial c <=? session s (clientID c)) then s else
      match DecodeCommand (inner c) with
      | Ok cmd =>
          let s := s <| sm_data ::= apply_command cmd |> in
          if negb (clientID c =? 0) then s <| sm_sessions ::= <[clientID c := serial c]> |> else s
      | _ => s
      end
  | _ => s
  end.

Definition stateMachine_get (key : gostring) (s : stateMachine) : bytes * bool := Get key (sm_data s).

(** ** Snapshots *)

(** [snapshotImage]; after decoding, a map that was not sent is nil. *)
Record snapshotImage := mkImage {
  img_Data : option (gmap gostring bytes);
  img_Sessions : option (gmap Z Z)
}.

Class Gob := {
  gobEncode : snapshotImage → outcome bytes;
  gobDecode : bytes → outcome snapshotImage;
  (** maps that are not nil come back as they were *)
  gob_roundtrip (d : gmap gostring bytes) (s : gmap Z Z) :
    ∃ b, gobEncode (mkImage (Some d) (Some s)) = Ok b ∧ b ≠ [] ∧
      gobDecode b = Ok (mkImage (Some d) (Some s))
}.

Section snapshots.
Context `{Gob}.

(** Copying the map entry by entry, in the order it is ranged over. *)
Definition copy_entries {K V} `{Countable K} (l : list (K * V)) : gmap K V :=
  foldl (λ m kv, <[kv.1 := kv.2]> m) ∅ l.

Definition Snapshot (s : stateMachine) : outcome bytes :=
  gobEncode (mkImage (Some (copy_entries (map_to_list (sm_data s))))
                       (Some (copy_entries (map_to_list (sm_sessions s))))).

Definition Restore (data : bytes) (s : stateMachine) : outcome stateMachine :=
  img ← (if 0 <? zlength data then gobDecode data else Ok (mkImage None None));
  mret (mkSM (foldl (λ m kv, Put kv.1 kv.2 m) NewMemStore (map_to_list (default ∅ (img_Data img))))
             (default ∅ (img_Sessions img))).

#[export] Instance kv_machine : StateMachine stateMachine := {|
  smApply := Apply;
  smSnapshot := Snapshot;
  smRestore := Restore
|}.
End snapshots.

(** ** The envelope *)

Definition envelope_wf (c : command) : Prop := is_u64 (clientID c) ∧ is_u64 (serial c).

Lemma kvDecode_encode c : envelope_wf c → kvDecodeCommand (kvEncodeCommand c) = Ok c.
Proof.
  intros [Hid Hs]. unfold kvDecodeCommand, kvEncodeCommand, AppendUint64.
  rewrite app_nil_l, <-app_assoc, !length_app, !length_le8.
  rewrite (proj2 (Z.ltb_ge _ _)) by lia. rewrite Uint64_app, u64_small by done. cbn [mbind outcome_bind].
  rewrite zslice_from_le8. cbn [mbind outcome_bind]. rewrite Uint64_app, u64_small by done. cbn [mbind outcome_bind].
  rewrite zslice_from_ok by (rewrite !length_app, !length_le8; lia). cbn [mbind outcome_bind].
  unfold zdrop. rewrite app_assoc, drop_app_length' by (rewrite length_app, !length_le8; lia). by destruct c.
Qed.

(** The decoders never panic. *)
Lemma kvDecode_cases b : (∃ c, kvDecodeCommand b = Ok c) ∨ ∃ e, kvDecodeCommand b = Err e.
Proof.
  unfold kvDecodeCommand. destruct (_ <? _) eqn:E; zify_bool; [eauto|left].
  unfold Uint64. rewrite (proj2 (Z.ltb_ge _ 8)) by lia. cbn [mbind outcome_bind].
  rewrite (zslice_from_ok b 8) by lia. cbn [mbind outcome_bind].
  rewrite (proj2 (Z.ltb_ge _ 8)) by (unfold zdrop; rewrite length_drop; lia). cbn [mbind outcome_bind].
  rewrite (zslice_from_ok b 16) by lia. cbn. eauto.
Qed.

(** ** Sessions *)

(** A log of commands, applied in order. *)
Definition apply_all (l : list bytes) (s : stateMachine) : stateMachine :=
  foldl (λ s d, Apply 0 d s) s l.

Lemma Apply_session_mono i d s id : session s id ≤ session (Apply i d s) id.
Proof.
  unfold Apply. destruct (kvDecodeCommand d) as [c|e| |]; [|done..].
  destruct (negb (clientID c =? 0) && _) eqn:E; [done|].
  destruct (DecodeCommand (inner c)); [|done..].
  destruct (clientID c =? 0) eqn:Ez; cbn [negb andb] in *; [done|]. unfold session at 2. cbn.
  rewrite lookup_insert. case_decide as Hid; cbn; [subst id; lia|done].
Qed.

Lemma apply_all_session_mono l s id : session s id ≤ session (apply_all l s) id.
Proof.
  revert s. induction l as [|d l IH]; intros s; [done|]. cbn. etrans; [apply (Apply_session_mono 0 d)|apply IH].
Qed.

(** Having been applied, a command is not applied again. *)
Lemma Apply_again c d i j s s' :
  kvDecodeCommand d = Ok c → clientID c ≠ 0 →
  session (Apply i d s) (clientID c) ≤ session s' (clientID c) →
  (∃ cmd, DecodeCommand (inner c) = Ok cmd) → Apply j d s' = s'.
Proof.
  intros Hd Hid Hs [cmd Hcmd]. unfold Apply in *. rewrite Hd, Hcmd in *.
  rewrite (proj2 (Z.eqb_neq _ _) Hid) in *. cbn [negb andb] in *.
  destruct (serial c <=? session s (clientID c)) eqn:E; zify_bool.
  - by rewrite (proj2 (Z.leb_le _ _)) by lia.
  - unfold session at 1 in Hs. cbn in Hs. rewrite lookup_insert_eq in Hs. cbn in Hs.
    by rewrite (proj2 (Z.leb_le _ _)) by lia.
Qed.

Lemma Apply_undecodable c d i s :
  kvDecodeCommand d = Ok c → (∀ cmd, DecodeCommand (inner c) ≠ Ok cmd) → Apply i d s = s.
Proof.
  intros Hd Hn. unfold Apply. rewrite Hd. destruct (_ && _); [done|].
  destruct (DecodeCommand (inner c)) as [cmd|e| |]; [by destruct (Hn cmd)|done..].
Qed.

(** Retrying a write is harmless.  A command of a client session that is
    already in the log, however far back, changes nothing when the log delivers
    it again: neither the map nor the session table. *)
Theorem retry_applies_once l1 l2 d c s :
  kvDecodeCommand d = Ok c → clientID c ≠ 0 →
  apply_all (l1 ++ d :: l2 ++ [d]) s = apply_all (l1 ++ d :: l2) s.
Proof.
  intros Hd Hid. unfold apply_all. rewrite app_comm_cons, app_assoc, foldl_app. cbn [foldl].
  destruct (DecodeCommand (inner c)) as [cmd|e| |] eqn:E; [|apply (Apply_undecodable c); [done|congruence]..].
  rewrite foldl_app. cbn [foldl]. set (s1 := foldl _ s l1).
  eapply (Apply_again c d 0 0 s1); [done|done| |by eexists]. apply apply_all_session_mono.
Qed.

Lemma retry_applies_once_witness :
  let d := kvEncodeCommand (mkEnvelope 7 1 (EncodeCommand (mkCommand OpPut (str "k") (str "v")))) in
  let d' := kvEncodeCommand (mkEnvelope 9 1 (EncodeCommand (mkCommand OpDelete (str "k") []))) in
  apply_all ([] ++ d :: [d'] ++ [d]) newStateMachine = apply_all ([] ++ d :: [d']) newStateMachine.
Proof.
  apply (retry_applies_once [] _ _ (mkEnvelope 7 1 (EncodeCommand (mkCommand OpPut (str "k") (str "v"))))).
  - by vm_compute.
  - done.
Defined.

(** ** Exactly once *)

(** Two deliveries of one write of a session. *)
Definition same_op (c c' : command) : bool :=
  negb (clientID c =? 0) && (clientID c =? clientID c') && (serial c =? serial c').

(** The log without repeated deliveries: the first one of each write. *)
Fixpoint firsts (seen l : list command) : list command :=
  match l with
  | [] => []
  | c :: l' => if existsb (same_op c) seen then firsts (c :: seen) l' else c :: firsts (c :: seen) l'
  end.

(** Sessions as the clients use them: serials are positive, and a delivery is
    the repetition of an earlier one or carries a serial above those the client
    has used. *)
Fixpoint ordered (seen l : list command) : Prop :=
  match l with
  | [] => True
  | c :: l' =>
      (clientID c ≠ 0 → 1 ≤ serial c ∧
        (c ∈ seen ∨ ∀ c', c' ∈ seen → clientID c' = clientID c → serial c' < serial c)) ∧
      ordered (c :: seen) l'
  end.

(** What a command means, sessions aside. *)
Definition run_command (m : MemStore) (c : command) : MemStore :=
  match DecodeCommand (inner c) with Ok cmd => apply_command cmd m | _ => m end.

Definition sendable (c : command) : Prop :=
  envelope_wf c ∧ ∃ cmd, DecodeCommand (inner c) = Ok cmd.

(** The session table knows the highest serial delivered. *)
Definition tracks (s : stateMachine) (seen : list command) : Prop :=
  ∀ id, id ≠ 0 →
    (∀ c, c ∈ seen → clientID c = id → serial c ≤ session s id) ∧
    (session s id = 0 ∨ ∃ c, c ∈ seen ∧ clientID c = id ∧ serial c = session s id).

Lemma existsb_same c seen :
  existsb (same_op c) seen = true ↔
  clientID c ≠ 0 ∧ ∃ c', c' ∈ seen ∧ clientID c' = clientID c ∧ serial c' = serial c.
Proof.
  rewrite existsb_exists. unfold same_op. split.
  - intros (c' & Hin%list_elem_of_In & Hc). zify_bool. split; [lia|]. exists c'. split_and!; [done|lia|lia].
  - intros (Hid & c' & Hin & Hc & Hs). exists c'. split; [by apply list_elem_of_In|]. zify_bool. lia.
Qed.

(** One more delivery that the session table already accounts for. *)
Lemma tracks_same c s s' seen :
  (∀ id, session s' id = session s id) → tracks s seen →
  (clientID c ≠ 0 → serial c ≤ session s (clientID c)) → tracks s' (c :: seen).
Proof.
  intros Hs Ht Hc id Hid. rewrite Hs. destruct (Ht id Hid) as [Hle Hat]. split.
  - intros c' [->|Hin]%elem_of_cons <-; [by apply Hc|by apply Hle].
  - destruct Hat as [?|(c' & ? & ?)]; [by left|right]. exists c'. split; [by right|done].
Qed.

Lemma Apply_encoded c s :
  sendable c → Apply 0 (kvEncodeCommand c) s =
  if negb (clientID c =? 0) && (serial c <=? session s (clientID c)) then s else
  mkSM (run_command (sm_data s) c)
    (if clientID c =? 0 then sm_sessions s else <[clientID c := serial c]> (sm_sessions s)).
Proof.
  intros [Hwf [cmd Hcmd]]. unfold Apply, run_command. rewrite kvDecode_encode, Hcmd by done.
  destruct (_ && _); [done|]. by destruct (clientID c =? 0).
Qed.

(** A repeated delivery is recognized, a new write is executed. *)
Lemma Apply_tracks c s seen :
  sendable c → tracks s seen → (clientID c ≠ 0 → 1 ≤ serial c ∧
    (c ∈ seen ∨ ∀ c', c' ∈ seen → clientID c' = clientID c → serial c' < serial c)) →
  let s' := Apply 0 (kvEncodeCommand c) s in
  tracks s' (c :: seen) ∧
  sm_data s' = if existsb (same_op c) seen then sm_data s else run_command (sm_data s) c.
Proof.
  intros Hc Ht Hseq. rewrite Apply_encoded by done. cbv zeta.
  destruct (decide (clientID c = 0)) as [Hz|Hnz].
  { rewrite Hz. cbn. split; [by apply (tracks_same c s)|].
    destruct (existsb _ _) eqn:E; [|done]. apply existsb_same in E as [? _]. done. }
  destruct (Hseq Hnz) as [Hs1 Hprev]. destruct (Ht _ Hnz) as [Hle Hat].
  rewrite (proj2 (Z.eqb_neq _ _) Hnz). cbn [negb andb].
  destruct Hprev as [Hin|Hnew].
  - rewrite (proj2 (Z.leb_le _ _)) by by apply Hle. split; [apply (tracks_same c s); [done|done|]; intros _; by apply Hle|].
    rewrite (proj2 (existsb_same c seen)); [done|]. split; [done|]. by exists c.
  - assert (session s (clientID c) < serial c) as Hlt.
    { destruct Hat as [->|(c' & Hin & Hid & <-)]; [lia|by apply Hnew]. }
    rewrite (proj2 (Z.leb_gt _ _)) by done. cbn. split.
    2:{ destruct (existsb (same_op c) seen) eqn:Ex; [|done]. apply existsb_same in Ex as (_ & c' & Hin & Hid & Hs).
        specialize (Hnew c' Hin Hid). lia. }
    assert (∀ id, session (mkSM (run_command (sm_data s) c) (<[clientID c := serial c]> (sm_sessions s))) id =
      if decide (clientID c = id) then serial c else session s id) as Hsess.
    { intros id. unfold session. cbn. rewrite lookup_insert. by case_decide. }
    intros id Hid. rewrite Hsess. case_decide as Hcid.
    + subst id. split; [|right; exists c; split; [by left|done]].
      intros c' [->|Hin]%elem_of_cons Hc'; [done|]. specialize (Hnew c' Hin Hc'). lia.
    + destruct (Ht id Hid) as [Hle' Hat']. split.
      * intros c' [->|Hin]%elem_of_cons Hc'; [done|by apply Hle'].
      * destruct Hat' as [?|(c' & ? & ?)]; [by left|right]. exists c'. split; [by right|done].
Qed.

Lemma apply_all_firsts l s seen :
  Forall sendable l → tracks s seen → ordered seen l →
  sm_data (apply_all (kvEncodeCommand <$> l) s) = foldl run_command (sm_data s) (firsts seen l).
Proof.
  intros Hl. revert s seen. induction Hl as [|c l Hc _ IH]; intros s seen Ht Hseq; [done|].
  destruct Hseq as [Hseq1 Hseq]. destruct (Apply_tracks c s seen Hc Ht Hseq1) as [Ht' Hd].
  change (apply_all (kvEncodeCommand <$> c :: l) s) with
    (apply_all (kvEncodeCommand <$> l) (Apply 0 (kvEncodeCommand c) s)).
  rewrite (IH _ _ Ht' Hseq), Hd. cbn [firsts]. by destruct (existsb (same_op c) seen).
Qed.

Lemma tracks_new : tracks newStateMachine [].
Proof. intros id Hid. split; [by intros c []%elem_of_nil|]. by left. Qed.

(** C13: Writes execute exactly once.  Let clients number their writes with
    increasing positive serials and start a write only after its predecessor is
    in the log, and let the log deliver each write any number of times, in any
    interleaving of the clients.  The map is what executing each write once, in the order of first
    deliveries, gives. *)
Theorem exactly_once l :
  Forall sendable l → ordered [] l →
  sm_data (apply_all (kvEncodeCommand <$> l) newStateMachine) =
  foldl run_command NewMemStore (firsts [] l).
Proof. intros Hl Hs. by apply (apply_all_firsts l newStateMachine [] Hl tracks_new). Qed.

Definition example_log : list command :=
  let put k v := EncodeCommand (mkCommand OpPut (str k) (str v)) in
  [mkEnvelope 7 1 (put "x" "1"); mkEnvelope 9 1 (put "x" "2"); mkEnvelope 7 1 (put "x" "1");
   mkEnvelope 7 2 (put "y" "3"); mkEnvelope 0 0 (put "z" "4"); mkEnvelope 9 1 (put "x" "2");
   mkEnvelope 7 1 (put "x" "1")]%string.

Lemma example_sendable : Forall sendable example_log.
Proof.
  unfold example_log. repeat apply Forall_cons_2; try apply Forall_nil_2;
    (split; [by split; vm_compute|eexists; vm_compute; reflexivity]).
Qed.

Lemma example_ordered : ordered [] example_log.
Proof.
  cbn. split_and!; try done; intros _; (split; [lia|]);
    first [left; apply list_elem_of_In; cbn; tauto
          |right; intros c Hin%list_elem_of_In; cbn in Hin; intuition (subst; cbn in *; lia)].
Qed.

Lemma exactly_once_witness :
  sm_data (apply_all (kvEncodeCommand <$> example_log) newStateMachine) =
  foldl run_command NewMemStore (firsts [] example_log).
Proof. exact (exactly_once example_log example_sendable example_ordered). Defined.

(** ** Snapshots *)

Lemma copy_entries_list {K V} `{Countable K} (m : gmap K V) : copy_entries (map_to_list m) = m.
Proof.
  unfold copy_entries. assert (∀ l (m0 : gmap K V), NoDup l.*1 →
    foldl (λ m kv, <[kv.1 := kv.2]> m) m0 l = list_to_map l ∪ m0) as Hl.
  { intros l. induction l as [|[k v] l IH]; intros m0 Hnd; [cbn; by rewrite (left_id_L ∅ (∪))|].
    apply NoDup_cons in Hnd as [Hk Hnd]. cbn [foldl fst snd]. rewrite IH by done. cbn.
    rewrite <-insert_union_l, insert_union_r; [done|]. by apply not_elem_of_list_to_map_1. }
  rewrite Hl by apply NoDup_fst_map_to_list. by rewrite list_to_map_to_list, (right_id_L ∅ (∪)).
Qed.

Lemma gob_snapshot `{Gob} s : ∃ b, Snapshot s = Ok b ∧ b ≠ [] ∧ ∀ s', Restore b s' = Ok s.
Proof.
  unfold Snapshot. rewrite !copy_entries_list.
  destruct (gob_roundtrip (sm_data s) (sm_sessions s)) as (b & Hb & Hne & Hd). exists b. split; [done|]. split; [done|].
  intros s'. unfold Restore. rewrite (proj2 (Z.ltb_lt _ _)) by (destruct b; [done|simpl; lia]).
  rewrite Hd. change (Ok (mkSM (foldl (λ m kv, Put kv.1 kv.2 m) NewMemStore (map_to_list (sm_data s)))
    (sm_sessions s)) = Ok s). rewrite (is_range_rebuild (sm_data s) _); [by destruct s|unfold is_range; reflexivity].
Qed.

#[export] Instance kv_machine_laws `{Gob} : StateMachineLaws stateMachine.
Proof.
  split. intros s b s' Hs. destruct (gob_snapshot s) as (b' & Hb' & Hne & Hr). cbn in Hs.
  assert (b' = b) as -> by congruence. split; [done|apply Hr].
Qed.

(** C17: A snapshot holds the whole state machine: restoring it, on any replica
    and over whatever that replica held, gives back the map and the session
    table, so that duplicates are recognized across it. *)
Theorem Restore_Snapshot `{Gob} s s' :
  ∃ b, Snapshot s = Ok b ∧ Restore b s' = Ok s.
Proof. destruct (gob_snapshot s) as (b & Hb & _ & Hr). by exists b. Qed.

(** A codec that satisfies the law: the countable encoding, bit by bit. *)
Fixpoint pos_bytes (p : positive) : bytes :=
  match p with
  | xH => [byte.of_Z 1]
  | xO p' => byte.of_Z 0 :: pos_bytes p'
  | xI p' => byte.of_Z 2 :: pos_bytes p'
  end.
Fixpoint bytes_pos (b : bytes) : option positive :=
  match b with
  | [] => None
  | x :: b' =>
      if byte.unsigned x =? 1 then Some xH
      else if byte.unsigned x =? 0 then xO <$> bytes_pos b'
      else xI <$> bytes_pos b'
  end.

Lemma bytes_pos_bytes p : bytes_pos (pos_bytes p) = Some p.
Proof. induction p as [p IH|p IH|]; cbn; rewrite ?IH; done. Qed.

Definition image_code (i : snapshotImage) : option (gmap gostring bytes) * option (gmap Z Z) :=
  (img_Data i, img_Sessions i).

Definition bit_decode (b : bytes) : outcome snapshotImage :=
  match bytes_pos b with
  | Some p =>
      match decode (A := option (gmap gostring bytes) * option (gmap Z Z)) p with
      | Some (d, s) => Ok (mkImage d s)
      | None => Err (EMsg "gob: bad data")
      end
  | None => Err (EMsg "gob: bad data")
  end.

Lemma bit_roundtrip i :
  ∃ b, Ok (pos_bytes (encode (image_code i))) = Ok b ∧ b ≠ [] ∧ bit_decode b = Ok i.
Proof.
  eexists. split; [reflexivity|]. split; [by destruct (encode _)|].
  unfold bit_decode. rewrite bytes_pos_bytes, decode_encode. by destruct i.
Qed.

#[export] Instance bit_gob : Gob | 100 := {|
  gobEncode i := Ok (pos_bytes (encode (image_code i)));
  gobDecode := bit_decode;
  gob_roundtrip d s := bit_roundtrip (mkImage (Some d) (Some s))
|}.

Lemma Restore_Snapshot_witness :
  let s := mkSM (<[str "k" := str "v"]> ∅) (<[7 := 3]> ∅) in
  ∃ b, Snapshot s = Ok b ∧ Restore b newStateMachine = Ok s.
Proof. exact (Restore_Snapshot (mkSM (<[str "k" := str "v"]> ∅) (<[7 := 3]> ∅)) newStateMachine). Defined.

(** ** Serial zero *)

Lemma session_nonneg l id : 0 ≤ session (apply_all l newStateMachine) id.
Proof.
  pose proof (apply_all_session_mono l newStateMachine id) as Hm. unfold session at 1 in Hm. cbn in Hm.
  by rewrite lookup_empty in Hm.
Qed.

(** A write of a session numbered 0 changes nothing: every client counts as having
    applied serial 0, whatever the log before it. *)
Lemma Apply_serial_zero l i d c :
  kvDecodeCommand d = Ok c → clientID c ≠ 0 → serial c = 0 →
  Apply i d (apply_all l newStateMachine) = apply_all l newStateMachine.
Proof.
  intros Hd Hid Hs. unfold Apply. rewrite Hd, Hs, (proj2 (Z.eqb_neq _ _) Hid). cbn [negb andb].
  by rewrite (proj2 (Z.leb_le _ _)) by apply session_nonneg.
Qed.
