(* ===== verification/KvService.v ===== *)
(** * internal/kvraft/service.go: the client-facing service of a Raft group

    [KVService.Put], [Delete] and [Get] as goroutines around a node, and
    [toStatus], whose messages carry the leader hint the CLI parses. *)

From stdpp Require Import prelude gmap strings.
From coqutil Require Import Byte.
From S2P Require Import Prelude GoRuntime GoBytes GoStrings GoText Grpc MemStore Command.
From S2P Require Import RaftTypes Membership Core Node NodeApi System KvStateMachine.
Open Scope Z_scope.

Record PutRequest := mkPutReq { pq_key : gostring; pq_value : bytes; pq_clientId : Z; pq_serial : Z }.
Record DeleteRequest := mkDelReq { dq_key : gostring; dq_clientId : Z; dq_serial : Z }.

(** [KVService]: the node and the machine are what its goroutines run
    against. *)
Record KVService := mkKV { kv_shard : Z; kv_unsafeNoReadBarrier : bool }.

Definition errEmptyKey : grpcStatus := mkGrpc InvalidArgument (str "key must not be empty").

Section service.
Context {txt : ErrText}.

Abbreviation P := (prog stateMachine).

(** The text of the hint. *)
Definition not_leader_message (shard leaderID : Z) (addr : gostring) : gostring :=
  str "not leader; shard=" ++ fmt_d shard ++ str " leader_id=" ++ fmt_d leaderID ++ str " leader_addr=" ++ addr.

Definition toStatus (shard : Z) (err : error) : P grpcStatus :=
  match as_not_leader err with
  | Some lid =>
      addr ← (if negb (lid =? 0)
              then st ← node_Status; mret (default [] (st_Members st !! lid))
              else mret []);
      mret (mkGrpc FailedPrecondition (not_leader_message shard lid addr))
  | None =>
      match as_context_error err with
      | Some c => mret (mkGrpc c (errText err))
      | None => mret (mkGrpc Unavailable (str "raft: " ++ errText err))
      end
  end.

(** The command a request proposes. *)
Definition put_command (req : PutRequest) : bytes :=
  kvEncodeCommand (mkEnvelope (pq_clientId req) (pq_serial req)
    (EncodeCommand (mkCommand OpPut (pq_key req) (pq_value req)))).
Definition delete_command (req : DeleteRequest) : bytes :=
  kvEncodeCommand (mkEnvelope (dq_clientId req) (dq_serial req)
    (EncodeCommand (mkCommand OpDelete (dq_key req) []))).

Definition servicePut (s : KVService) (req : PutRequest) : P (() + grpcStatus) :=
  if bool_decide (pq_key req = []) then mret (inr errEmptyKey) else
  r ← Propose (put_command req);
  match r with
  | Some err => st ← toStatus (kv_shard s) err; mret (inr st)
  | None => mret (inl ())
  end.

Definition serviceDelete (s : KVService) (req : DeleteRequest) : P (bool + grpcStatus) :=
  if bool_decide (dq_key req = []) then mret (inr errEmptyKey) else
  ReadMachine (λ m,
    let '(_, existed) := stateMachine_get (dq_key req) m in
    r ← Propose (delete_command req);
    match r with
    | Some err => st ← toStatus (kv_shard s) err; mret (inr st)
    | None => mret (inl existed)
    end).

Definition serviceGet (s : KVService) (key : gostring) : P (bytes * bool + grpcStatus) :=
  if bool_decide (key = []) then mret (inr errEmptyKey) else
  r ← (if negb (kv_unsafeNoReadBarrier s) then ReadBarrier else mret None);
  match r with
  | Some err => st ← toStatus (kv_shard s) err; mret (inr st)
  | None => ReadMachine (λ m, mret (inl (stateMachine_get key m)))
  end.

(** ** A write that is acknowledged and dropped *)

(** The goroutine [p] receives [r] from channel [ch]. *)
Definition receive {A} (ch : nat) (r : reply) (p : P A) : option (P A) :=
  match p with
  | SelectRecv carries _ c k => if (c =? ch)%nat then (λ v, k (Got v)) <$> carries r else None
  | _ => None
  end.

(** ... has made the channels [d] and [c], sent its proposal to the loop, and been
    told that it was appended. *)
Definition accepted {A} (d c : nat) (at_ : Z * Z) (p : P A) : option (event * P A) :=
  match p with
  | MakeChan k =>
      match k d with
      | MakeChan k' =>
          match k' c with
          | SelectSend ev k'' => pair ev <$> receive c (ReplyPropose (inl at_)) (k'' (Got ()))
          | _ => None
          end
      | _ => None
      end
  | _ => None
  end.
End service.

(** The loop tells those who wait for an entry that it was applied. *)
Lemma applyEntry_tells {D S : Type} `{RaftDisk D} `{StateMachine S} (e : Entry) (n : Node D S) w :
  Type_ e = ENTRY_TYPE_NORMAL → waiters n !! Index e = Some w → w_term w = Term e →
  wp (applyEntry e) (λ o n', o = Ok () ∧ sm n' = smApply (Index e) (EntryCommand e) (sm n) ∧
    (w_done w, ReplyDone (inl ())) ∈ replies n') n.
Proof.
  intros Ht Hw Hterm. unfold applyEntry. rewrite Ht, Z.eqb_refl. apply wp_bind, wp_modify. cbn [wpk]. apply wp_bind, wp_modify. cbn [wpk].
  set (m := smApply (Index e) (EntryCommand e) (sm n)).
  apply wp_bind. eapply (wp_mono _ (λ o n1, o = Ok () ∧ sm n1 = m ∧ waiters n1 = waiters n)).
  { unfold fireAppliedWaiters. apply wp_bind, wp_get. cbn [wpk]. cbv zeta. apply wp_bind.
    apply (wp_for_each (λ n1, sm n1 = m ∧ waiters n1 = waiters n)); [done| |].
    - intros x n1 _ ?. by apply wp_modify.
    - intros n1 ?. by apply wp_modify. }
  intros o n1 (-> & Hs & Hws). cbn [wpk]. apply wp_bind, wp_get. cbn [wpk]. rewrite Hws, Hw. apply wp_bind, wp_modify. cbn [wpk]. rewrite Hterm, Z.eqb_refl.
  apply wp_modify. split_and!; [done|done|]. cbn. apply elem_of_app. right. by left.
Qed.

(** C34: A write of a session numbered 0 is acknowledged without being executed.  The
    loop applies the entry of a [Put] with a client id and serial 0, which its
    goroutine waits for: the replica's machine, whatever log it has applied, stays as
    it was (every client counts as having applied serial 0), the goroutine is told
    that the entry was applied, and answers its client with success. *)
Theorem serial_zero_dropped {D} `{RaftDisk D} `{Gob} `{ErrText} (sv : KVService) (req : PutRequest) (n : Node D stateMachine) l e d c at_ :
  pq_key req ≠ [] → is_u64 (pq_clientId req) → pq_clientId req ≠ 0 → pq_serial req = 0 →
  sm n = apply_all l newStateMachine → Type_ e = ENTRY_TYPE_NORMAL → EntryCommand e = put_command req →
  waiters n !! Index e = Some (mkWaiter (Term e) d) →
  wp (applyEntry e) (λ o n', o = Ok () ∧ sm n' = sm n ∧ (d, ReplyDone (inl ())) ∈ replies n') n ∧
  ∃ p, accepted d c at_ (servicePut sv req) = Some (evPropose (put_command req) ENTRY_TYPE_NORMAL d c, p) ∧
    receive d (ReplyDone (inl ())) p = Some (Return (inl ())).
Proof.
  intros Hk Hu Hid Hser Hsm Ht He Hw. split.
  - eapply wp_mono; [by apply (applyEntry_tells e n (mkWaiter (Term e) d))|]. intros o n' (-> & Hs & Hr). split_and!; [done| |done].
    rewrite Hs, Hsm, He. unfold put_command, smApply, kv_machine.
    set (c0 := mkEnvelope _ _ _). apply (Apply_serial_zero l (Index e) _ c0); [|exact Hid|exact Hser].
    apply kvDecode_encode. split; [exact Hu|]. cbn. rewrite Hser. unfold is_u64. lia.
  - unfold servicePut. rewrite bool_decide_eq_false_2 by done. cbn. rewrite Nat.eqb_refl. eexists. split; [done|]. cbn. by rewrite Nat.eqb_refl.
Qed.
