(* ===== verification/Sharding.v ===== *)
(** * internal/kvraft/sharding.go: the keyspace over independent Raft groups

    The hash that places a key, the pin of the shard count, the start of the
    groups and the routing of requests.  The theorems: a key always has a shard
    and every shard's service announces its own number; the groups together are
    one map; the pin admits exactly the count it was made with, and is lost or
    torn by a power cut. *)

From stdpp Require Import prelude gmap strings.
From coqutil Require Import Byte.
From S2P Require Import Prelude GoRuntime GoBytes GoStrings GoText Grpc GoFS MemStore Command.
From S2P Require Import RaftTypes Membership Core Node NodeApi System KvStateMachine KvService.
Open Scope Z_scope.

(** [hash/fnv]: 64-bit FNV-1a. *)
Definition fnv_offset64 : Z := 14695981039346656037.
Definition fnv_prime64 : Z := 1099511628211.
Definition fnv1a64 (s : gostring) : Z :=
  foldl (λ h b, u64 (Z.lxor h (byte.unsigned b) * fnv_prime64)) fnv_offset64 s.

(** [% uint64(shardCount)]; the division panics at zero. *)
Definition ShardFor (key : gostring) (shardCount : Z) : outcome Z :=
  if u64 shardCount =? 0 then Panic else Ok (fnv1a64 key mod u64 shardCount).

(** [kvraft.Server]: a node and its service. *)
Record Server (D : Type) := mkServer { srv_node : Node D stateMachine; srv_KV : KVService }.
Arguments mkServer {D}.
Arguments srv_node {D} _.
Arguments srv_KV {D} _.

Record ShardedServer (D : Type) := mkSharded { shards : list (Server D) }.
Arguments mkSharded {D}.
Arguments shards {D} _.

(** [os.WriteFile] *)
Definition WriteFile (p : path) (data : bytes) : M fs () :=
  f ← OpenTrunc p;
  r ← attempt (Write f data);
  r1 ← attempt (Close f);
  match r, r1 with
  | inr err, _ => throw err
  | inl _, inr err => throw err
  | inl _, inl _ => mret ()
  end.

Definition pin_path (dataRoot : gostring) : path := (dataRoot, str "shards").

Definition pinShardCount (dataRoot : gostring) (shardCount : Z) : M fs () :=
  wrap "create data root: %w" (MkdirAll dataRoot);;
  r ← attempt (ReadFile (pin_path dataRoot));
  match r with
  | inr ENotExist => WriteFile (pin_path dataRoot) (Itoa shardCount)
  | inr err => throw err
  | inl b =>
      match Atoi (TrimSpace b) with
      | None => throw (EMsg "corrupt shard pin %s: %q")
      | Some prev =>
          if negb (prev =? shardCount)
          then throw (EMsg "data dir was created with %d shards, refusing to start with %d (resharding is not supported)")
          else mret ()
      end
  end.

Section sharded.
Context {D : Type} `{RaftDisk D} `{GoRuntime} `{Gob} {txt : ErrText}.

(** [kvraft.New] for group [g]: the group enters through its data directory (its
    disk) and its service. *)
Definition New (conf : Config) (mem0 : Members) (compactAt : Z) (peers : option Members) (g : Z) (d : D)
    : outcome (Server D) * D :=
  match NewNode conf mem0 newStateMachine compactAt peers d with
  | (Ok n, d') => (Ok (mkServer n (mkKV g false)), d')
  | (Err e, d') => (Err e, d')
  | (Panic, d') => (Panic, d')
  | (Crash, d') => (Crash, d')
  end.

Definition shard_dir (dataRoot : gostring) (g : Z) : gostring := dataRoot ++ str "/shard-" ++ Itoa g.

(** The loop of [NewSharded]; [ds g] is the disk of directory
    [dataRoot/shard-g].  When a group does not start, those before it are
    stopped and the error is returned. *)
Fixpoint start_groups (conf : Config) (mem0 : Members) (compactAt : Z) (peers : option Members)
    (dataRoot : gostring) (ds : Z → D) (gs : list Z) : M fs (list (Server D)) :=
  match gs with
  | [] => mret []
  | g :: gs' =>
      wrap "create shard dir: %w" (MkdirAll (shard_dir dataRoot g));;
      srv ← wrap "start shard %d: %w" (lift (New conf mem0 compactAt peers g (ds g)).1);
      l ← start_groups conf mem0 compactAt peers dataRoot ds gs';
      mret (srv :: l)
  end.

Definition NewSharded (conf : Config) (mem0 : Members) (compactAt : Z) (peers : option Members)
    (shardCount : Z) (dataRoot : gostring) (ds : Z → D) : M fs (ShardedServer D) :=
  if shardCount <? 1 then throw (EMsg "kvraft: shard count must be >= 1, got %d") else
  pinShardCount dataRoot shardCount;;
  l ← start_groups conf mem0 compactAt peers dataRoot ds (seqZ 0 shardCount);
  mret (mkSharded l).

(** [Nodes]: group id to node. *)
Definition Nodes (s : ShardedServer D) : gmap Z (Node D stateMachine) :=
  list_to_map (imap (λ g sh, (Z.of_nat g, srv_node sh)) (shards s)).

Definition SetUnsafeNoReadBarrier (v : bool) (s : ShardedServer D) : ShardedServer D :=
  mkSharded ((λ sh, mkServer (srv_node sh) (mkKV (kv_shard (srv_KV sh)) v)) <$> shards s).

(** ** Routing *)

Definition shardFor (shs : list (Server D)) (key : gostring) : outcome (Server D) :=
  i ← ShardFor key (zlength shs); zindex shs i.

(** A request is refused, or runs as a goroutine of one group. *)
Inductive routed (A : Type) :=
  | Refused (st : grpcStatus)
  | On (sh : Server D) (p : prog stateMachine (A + grpcStatus)).
Arguments Refused {A} st.
Arguments On {A} sh p.

Definition shardedPut (shs : list (Server D)) (req : PutRequest) : outcome (routed ()) :=
  if bool_decide (pq_key req = []) then Ok (Refused errEmptyKey) else
  sh ← shardFor shs (pq_key req); mret (On sh (servicePut (srv_KV sh) req)).
Definition shardedGet (shs : list (Server D)) (key : gostring) : outcome (routed (bytes * bool)) :=
  if bool_decide (key = []) then Ok (Refused errEmptyKey) else
  sh ← shardFor shs key; mret (On sh (serviceGet (srv_KV sh) key)).
Definition shardedDelete (shs : list (Server D)) (req : DeleteRequest) : outcome (routed bool) :=
  if bool_decide (dq_key req = []) then Ok (Refused errEmptyKey) else
  sh ← shardFor shs (dq_key req); mret (On sh (serviceDelete (srv_KV sh) req)).
(** ** A key has a shard, and the shard knows its number *)

Lemma start_groups_spec conf mem0 compactAt peers dataRoot ds gs s :
  wp (start_groups conf mem0 compactAt peers dataRoot ds gs)
    (λ o _, ∀ l, o = Ok l → (λ sh, kv_shard (srv_KV sh)) <$> l = gs) s.
Proof.
  revert s. induction gs as [|g gs IH]; intros s; [by apply wp_ret; intros l [= <-]|]. cbn [start_groups].
  apply wp_bind, wp_intro. intros [[]|e| |] s1 _; cbn [wpk]; try done.
  apply wp_bind, wp_wrap, wp_lift. unfold New.
  destruct (NewNode _ _ _ _ _ _) as [[n|e| |] d']; cbn [fst wpk]; try done.
  apply wp_bind. eapply wp_mono; [apply IH|]. intros [l|e| |] s2 Hl; cbn [wpk]; try done.
  apply wp_ret. intros l' [= <-]. cbn. by rewrite (Hl l eq_refl).
Qed.

Lemma ShardFor_range key n : 1 ≤ n < 2 ^ 63 → ∃ g, ShardFor key n = Ok g ∧ 0 ≤ g < n.
Proof.
  intros Hn. unfold ShardFor. rewrite u64_small by (unfold is_u64; lia).
  rewrite (proj2 (Z.eqb_neq _ _)) by lia. eexists. split; [done|]. apply Z.mod_pos_bound. lia.
Qed.
End sharded.

(** C21: Every key has a shard and the right one answers.  A sharded server that
    starts has as many groups as asked for; every key, of any bytes, is routed to
    a group without an out-of-range access, the group's number is the hash of the
    key, and the service of that group is the one that puts this number into its
    leader hints. *)
Theorem NewSharded_routes {D} `{RaftDisk D} `{GoRuntime} `{Gob} conf mem0 compactAt peers n dataRoot ds s srv s' :
  n < 2 ^ 63 → NewSharded (D:=D) conf mem0 compactAt peers n dataRoot ds s = (Ok srv, s') →
  zlength (shards srv) = n ∧
  ∀ key, ∃ g sh, ShardFor key n = Ok g ∧ 0 ≤ g < n ∧
    shardFor (shards srv) key = Ok sh ∧ kv_shard (srv_KV sh) = g.
Proof.
  intros Hn. unfold NewSharded. destruct (n <? 1) eqn:E; zify_bool; [done|]. intros Hrun.
  assert (wp (pinShardCount dataRoot n;; l ← start_groups conf mem0 compactAt peers dataRoot ds (seqZ 0 n); mret (mkSharded l))
    (λ o _, ∀ srv, o = Ok srv → (λ sh, kv_shard (srv_KV sh)) <$> shards srv = seqZ 0 n) s) as Hw.
  { apply wp_bind, wp_intro. intros [[]|e| |] s1 _; cbn [wpk]; try done. apply wp_bind.
    eapply wp_mono; [apply start_groups_spec|]. intros [l|e| |] s2 Hl; cbn [wpk]; try done.
    apply wp_ret. intros ? [= <-]. by apply Hl. }
  pose proof (wp_elim _ _ _ _ _ Hw Hrun srv eq_refl) as Hs. clear Hw Hrun.
  assert (zlength (shards srv) = n) as Hlen.
  { apply (f_equal length) in Hs. rewrite length_fmap, length_seqZ in Hs. lia. }
  split; [done|]. intros key. destruct (ShardFor_range key n) as (g & Hg & Hr); [lia|].
  destruct (zindex_in_range (shards srv) g) as (sh & Hsh & Hl); [lia|]. exists g, sh. split_and!; [done|lia|lia| |].
  - unfold shardFor. by rewrite Hlen, Hg.
  - apply (f_equal (.!! Z.to_nat g)) in Hs. rewrite list_lookup_fmap, Hl, lookup_seqZ_lt in Hs by lia.
    injection Hs as Hs. rewrite Hs. lia.
Qed.

(** ** The groups together are one map *)

Definition key_of (c : command) : gostring :=
  match DecodeCommand (inner c) with Ok cmd => Key cmd | _ => [] end.

(** What the router sends to group [g] of a sequence of commands. *)
Definition goes_to (n g : Z) (c : command) : Prop := ShardFor (key_of c) n = Ok g.
#[export] Instance goes_to_dec n g c : Decision (goes_to n g c).
Proof.
  unfold goes_to. destruct (ShardFor (key_of c) n) as [g'|e| |]; [|right; done..].
  destruct (decide (g' = g)) as [->|]; [by left|right; congruence].
Defined.
Definition shard_log (n g : Z) (l : list command) : list command := filter (goes_to n g) l.

Section filtered.
Context (P : command → Prop) `{!∀ c, Decision (P c)}.

Lemma ordered_filter seen l : ordered seen l → ordered (filter P seen) (filter P l).
Proof.
  revert seen. induction l as [|c l IH]; intros seen; [done|]. intros [Hc Hl]. specialize (IH _ Hl).
  rewrite filter_cons in IH |- *. destruct (decide (P c)) as [HP|]; [|done]. cbn. split; [|done].
  intros Hid. destruct (Hc Hid) as [Hs Hor]. split; [done|].
  destruct Hor as [Hin|Hnew]; [left; by apply list_elem_of_filter|right].
  intros c' [_ Hin]%list_elem_of_filter. by apply Hnew.
Qed.

Lemma firsts_filter seen l :
  ordered seen l → firsts (filter P seen) (filter P l) = filter P (firsts seen l).
Proof.
  revert seen. induction l as [|c l IH]; intros seen; [done|]. intros [Hc Hl]. specialize (IH _ Hl). cbn [firsts].
  destruct (decide (P c)) as [HP|HP].
  - rewrite filter_cons_True in IH |- * by done. cbn [firsts].
    assert (existsb (same_op c) (filter P seen) = existsb (same_op c) seen) as ->.
    { apply Bool.eq_iff_eq_true. rewrite !existsb_same. split.
      - intros (Hid & c' & [_ Hin]%list_elem_of_filter & Hc'). split; [done|]. by exists c'.
      - intros (Hid & c' & Hin & Hcid & Hs). split; [done|]. destruct (Hc Hid) as [_ [Hin'|Hnew]].
        + exists c. split; [by apply list_elem_of_filter|done].
        + specialize (Hnew c' Hin Hcid). lia. }
    destruct (existsb _ _); [done|]. by rewrite filter_cons_True, IH by done.
  - rewrite !(filter_cons_False P c) in * by done. destruct (existsb _ _); [done|]. by rewrite filter_cons_False by done.
Qed.

(** The commands on other keys play no part. *)
Lemma run_filter (k : gostring) (l : list command) (m m' : MemStore) :
  (∀ c, key_of c = k → P c) → m !! k = m' !! k →
  foldl run_command m l !! k = foldl run_command m' (filter P l) !! k.
Proof.
  intros HP. revert m m'. induction l as [|c l IH]; intros m m' Hm; [done|]. cbn [foldl].
  assert (∀ m : MemStore, key_of c ≠ k → run_command m c !! k = m !! k) as Hother.
  { intros m0 Hk. unfold run_command, key_of in *. destruct (DecodeCommand (inner c)) as [cmd|e| |]; [|done..].
    unfold apply_command, Put, Delete. destruct (bool_decide _); [by rewrite lookup_insert_ne|].
    destruct (bool_decide _); [|done]. cbn. by rewrite lookup_delete_ne. }
  assert (run_command m c !! k = run_command m' c !! k) as Hc.
  { destruct (decide (key_of c = k)) as [Hk|Hk]; [|by rewrite !Hother]. unfold run_command, key_of in *.
    destruct (DecodeCommand (inner c)) as [cmd|e| |]; [|done..]. subst k.
    unfold apply_command, Put, Delete. destruct (bool_decide _); [by rewrite !lookup_insert_eq|].
    destruct (bool_decide _); [|done]. cbn. by rewrite !lookup_delete_eq. }
  rewrite filter_cons. destruct (decide (P c)) as [HPc|HPc]; [by apply IH|].
  apply IH. rewrite Hother; [done|]. intros Hk. by apply HPc, HP.
Qed.
End filtered.

(** C15: Sharding is invisible.  Let the router send each command of a sequence to
    the group of its key, and each group apply what it gets, in order, with its own
    session table, repeated deliveries included.  A read of any key from its group
    is the read from one unsharded machine that applied the whole sequence. *)
Theorem sharded_is_one_map n l key :
  1 ≤ n < 2 ^ 63 → Forall sendable l → ordered [] l →
  ∃ g, ShardFor key n = Ok g ∧
    stateMachine_get key (apply_all (kvEncodeCommand <$> shard_log n g l) newStateMachine) =
    stateMachine_get key (apply_all (kvEncodeCommand <$> l) newStateMachine).
Proof.
  intros Hn Hl Ho. destruct (ShardFor_range key n Hn) as (g & Hg & _). exists g. split; [done|].
  unfold stateMachine_get, Get. rewrite (apply_all_firsts l newStateMachine [] Hl tracks_new Ho).
  rewrite (apply_all_firsts (shard_log n g l) newStateMachine []); [| |apply tracks_new|].
  2:{ rewrite Forall_forall in *. intros c [_ Hc]%list_elem_of_filter. by apply Hl. }
  2:{ by apply (ordered_filter (goes_to n g) [] l). }
  unfold shard_log. rewrite (firsts_filter (goes_to n g) [] l Ho).
  rewrite <-(run_filter (goes_to n g) key (firsts [] l) (sm_data newStateMachine)); [done| |done].
  intros c Hc. unfold goes_to. by rewrite Hc.
Qed.

Lemma sharded_is_one_map_witness :
  ∃ g, ShardFor (str "x") 3 = Ok g ∧
    stateMachine_get (str "x") (apply_all (kvEncodeCommand <$> shard_log 3 g example_log) newStateMachine) =
    stateMachine_get (str "x") (apply_all (kvEncodeCommand <$> example_log) newStateMachine).
Proof. exact (sharded_is_one_map 3 example_log (str "x") ltac:(lia) example_sendable example_ordered). Defined.

(** ** The pin *)

Section pin.
Context (root : gostring).

Lemma sys_quiet {A} (run : M fs A) partial s : faults s = [] → sys run partial s = run s.
Proof. intros Hf. unfold sys. by rewrite Hf. Qed.

(** The first boot. *)
Definition pinned (n : Z) (s : fs) : fs :=
  write_inode (new_inode s) (Itoa n) (create_inode (pin_path root) s).

Lemma names_create p s : names (create_inode p s) !! p = Some (new_inode s).
Proof. unfold names, create_inode, journal. cbn. rewrite foldl_app. cbn. apply lookup_insert_eq. Qed.

Lemma pinned_file n s :
  names (pinned n s) !! pin_path root = Some (new_inode s) ∧
  inodes (pinned n s) !! new_inode s = Some (mkInode (Itoa n) 0).
Proof.
  split; [apply names_create|]. unfold pinned, write_inode, create_inode. cbn.
  by rewrite lookup_alter_eq, lookup_insert_eq.
Qed.

Lemma pin_first n s :
  faults s = [] → names s !! pin_path root = None → pinShardCount root n s = (Ok (), pinned n s).
Proof.
  intros Hf Hn. unfold pinShardCount, wrap, MkdirAll. unfold mbind at 1, M_bind at 1. rewrite sys_quiet by done.
  cbn. unfold mbind at 1, M_bind at 1, attempt at 1, ReadFile, file. rewrite sys_quiet, Hn by done. cbn.
  unfold WriteFile, OpenTrunc. unfold mbind at 1, M_bind at 1. rewrite sys_quiet by done.
  unfold mbind at 1, M_bind at 1, attempt at 1, Write. rewrite sys_quiet by done.
  unfold mbind at 1, M_bind at 1, attempt at 1, Close. by rewrite sys_quiet by done.
Qed.

(** A later boot that finds the bytes [b]. *)
Lemma pin_later m b s :
  faults s = [] → file s (pin_path root) = Some b →
  pinShardCount root m s =
    (match Atoi (TrimSpace b) with
     | None => Err (EMsg "corrupt shard pin %s: %q")
     | Some prev =>
         if prev =? m then Ok ()
         else Err (EMsg "data dir was created with %d shards, refusing to start with %d (resharding is not supported)")
     end, s).
Proof.
  intros Hf Hb. unfold pinShardCount, wrap, MkdirAll. unfold mbind at 1, M_bind at 1. rewrite sys_quiet by done.
  cbn. unfold mbind at 1, M_bind at 1, attempt at 1, ReadFile. rewrite sys_quiet, Hb by done.
  destruct (Atoi (TrimSpace b)) as [prev|]; [|done]. by destruct (prev =? m).
Qed.

Lemma Itoa_word n : 0 ≤ n < 2 ^ 63 → forallb graphic (Itoa n) = true.
Proof.
  intros Hn. unfold Itoa. rewrite (proj2 (Z.ltb_ge _ _)) by lia. apply fmt_d_graphic. unfold is_u64. lia.
Qed.
End pin.

(** C29: The pin admits exactly the count it was made with: after a first boot
    with [n] shards, a boot with [m] is accepted when [m = n] and refused
    otherwise, and the file keeps its count. *)
Theorem pin_admits root n s :
  faults s = [] → names s !! pin_path root = None → 0 ≤ n < 2 ^ 63 →
  ∃ s', pinShardCount root n s = (Ok (), s') ∧
  ∀ m, (pinShardCount root m s').2 = s' ∧ ((pinShardCount root m s').1 = Ok () ↔ m = n).
Proof.
  intros Hf Hn Hr. exists (pinned root n s). split; [by apply pin_first|]. intros m.
  destruct (pinned_file root n s) as [Hname Hino].
  rewrite (pin_later root m (Itoa n)); [|done|unfold file; rewrite Hname; cbn [mbind option_bind]; by rewrite Hino].
  rewrite TrimSpace_word, Atoi_Itoa by (done || by apply Itoa_word). split; [done|].
  destruct (n =? m) eqn:E; zify_bool; cbn; [done|]. split; [done|congruence].
Qed.

Lemma pin_admits_witness :
  ∃ s', pinShardCount (str "data") 4 (empty_fs []) = (Ok (), s') ∧
  ∀ m, (pinShardCount (str "data") m s').2 = s' ∧ ((pinShardCount (str "data") m s').1 = Ok () ↔ m = 4).
Proof. exact (pin_admits (str "data") 4 (empty_fs []) eq_refl eq_refl ltac:(lia)). Defined.

(** C35: The pin is not crash-safe.  The first boot returns before the pin is
    durable, so there is a crash after it that leaves an empty pin, on which
    every later boot fails, with the right count too, however much data the
    groups have stored by then. *)
Theorem pin_torn root n s :
  faults s = [] → names s !! pin_path root = None →
  ∃ s' s'', pinShardCount root n s = (Ok (), s') ∧ crash s' s'' ∧
  ∀ m, (pinShardCount root m s'').1 = Err (EMsg "corrupt shard pin %s: %q").
Proof.
  intros Hf Hn. destruct (pinned_file root n s) as [Hname Hino].
  pose proof (pin_first root n s Hf Hn) as Hp. set (s' := pinned root n s) in *. clearbody s'.
  set (cut := λ f : inode, mkInode (take (synced f) (content f)) (length (take (synced f) (content f)))).
  exists s', (mkFS (names s') [] (cut <$> inodes s') []). split; [done|]. split.
  - split; [exists (length (pend s')); by rewrite take_ge by done|]. split; [done|]. cbn. intros i.
    rewrite lookup_fmap. destruct (inodes s' !! i) as [f|]; constructor. by exists (synced f).
  - intros m. rewrite (pin_later root m []); [done|done|].
    change (file _ _) with (i ← names s' !! pin_path root; content <$> (cut <$> inodes s') !! i).
    rewrite Hname. cbn [mbind option_bind]. by rewrite lookup_fmap, Hino.
Qed.

Lemma pin_torn_witness :
  ∃ s' s'', pinShardCount (str "data") 4 (empty_fs []) = (Ok (), s') ∧ crash s' s'' ∧
  ∀ m, (pinShardCount (str "data") m s'').1 = Err (EMsg "corrupt shard pin %s: %q").
Proof. exact (pin_torn (str "data") 4 (empty_fs []) eq_refl eq_refl). Defined.
