(* ===== verification/Cli.v ===== *)
(** * cmd/cli/main.go: the client that follows leader hints

    [leaderHint], which parses the rejections of [KvService.toStatus], and
    [leaderClient.retry], which routes a request to the leader.  What a call
    returns is given from outside, one function from addresses to answers for
    each attempt the ten seconds allow. *)

From stdpp Require Import prelude gmap strings.
From coqutil Require Import Byte.
From S2P Require Import Prelude GoRuntime GoBytes GoStrings GoText Grpc KvService.
Open Scope Z_scope.

(** The error of a call: the message of its status, if it is a status
    ([status.FromError]). *)
Record rpcError := mkRpcErr { re_message : option gostring }.

Record leaderClient := mkLC {
  conns : gset gostring;                    (* the addresses dialled *)
  order : list gostring;
  cur : gostring;
  shardLeader : gmap gostring gostring;     (* shard id -> leader addr *)
  opShard : gostring
}.
#[export] Instance leaderClient_eta : Settable leaderClient := λ c,
  mkLC (conns c) (order c) (cur c) (shardLeader c) (opShard c).
#[export] Instance set_cur : Setter cur := ltac:(solve_setter).
#[export] Instance set_shardLeader : Setter shardLeader := ltac:(solve_setter).
#[export] Instance set_opShard : Setter opShard := ltac:(solve_setter).

(** One token of the message. *)
Definition hint_token (acc : gostring * gostring * bool) (tok : gostring) : gostring * gostring * bool :=
  let '(shard, addr, ok) := acc in
  if HasPrefix tok (str "shard=") then (TrimPrefix tok (str "shard="), addr, true) else
  if HasPrefix tok (str "leader_addr=") then (shard, TrimPrefix tok (str "leader_addr="), ok) else acc.

Definition leaderHint (err : rpcError) : gostring * gostring * bool :=
  match re_message err with
  | None => ([], [], false)
  | Some m => foldl hint_token ([], [], false) (Fields m)
  end.

Fixpoint next_in (all l : list gostring) (i : Z) (c : gostring) : option gostring :=
  match l with
  | [] => None
  | a :: l' =>
      if bool_decide (TrimSpace a = c)
      then TrimSpace <$> all !! Z.to_nat ((i + 1) mod zlength all)
      else next_in all l' (i + 1) c
  end.

Definition next (lc : leaderClient) (c : gostring) : outcome gostring :=
  match next_in (order lc) (order lc) 0 c with
  | Some a => Ok a
  | None => a ← zindex (order lc) 0; mret (TrimSpace a)
  end.

(** The node an attempt goes to. *)
Definition target (c : leaderClient) : gostring :=
  match shardLeader c !! opShard c with
  | Some a => if negb (bool_decide (opShard c = [])) && bool_decide (a ∈ conns c) then a else cur c
  | None => cur c
  end.

(** What a rejection teaches; [true]: go straight to the named leader. *)
Definition learn (try : gostring) (err : rpcError) (c : leaderClient) : leaderClient * bool :=
  let '(shard, addr, ok) := leaderHint err in
  if negb ok then (c, false) else
  let c := c <| opShard := shard |> in
  let c := if bool_decide (try = default [] (shardLeader c !! shard))
           then c <| shardLeader ::= delete shard |> else c in
  if negb (bool_decide (addr = [])) && bool_decide (addr ∈ conns c)
  then (c <| shardLeader ::= <[shard := addr]> |>, true) else (c, false).

(** [retry]: the response captured, the error returned, the client.  A call
    through a connection there is not is a call of a nil interface. *)
Fixpoint retry {A} (calls : list (gostring → A + rpcError)) (lastErr : option rpcError)
    (c : leaderClient) : outcome (option A * option rpcError * leaderClient) :=
  match calls with
  | [] => Ok (None, lastErr, c)
  | call :: rest =>
      let try := target c in
      if negb (bool_decide (try ∈ conns c)) then Panic else
      match call try with
      | inl a => Ok (Some a, None, c <| cur := try |>)
      | inr err =>
          let '(c, straight) := learn try err c in
          if straight then retry rest (Some err) c else
          a ← next c try;
          retry rest (Some err) (c <| cur := a |>)
      end
  end.

(** The client [run] makes from [-addr]. *)
Definition newClient (addr : gostring) : leaderClient :=
  let addrs := Split addr (byte.of_Z 44) in
  mkLC (list_to_set (TrimSpace <$> addrs)) addrs (TrimSpace (default [] (head addrs))) ∅ [].

(** ** run *)

(** A server, as its client sees it during one attempt. *)
Record kvClient := mkClient {
  callPut : PutRequest → () + rpcError;
  callGet : gostring → bytes * bool + rpcError;
  callDelete : DeleteRequest → bool + rpcError
}.

Definition newline : gostring := [byte.of_Z 10].

(** What is printed to the standard error: [fmt.Fprintln(os.Stderr, "kvcli:", msg)]. *)
Definition complain (msg : gostring) : gostring := str "kvcli: " ++ msg ++ newline.

Section run.
Context {txt : ErrText}.
(** [err.Error()] of an RPC, and what [flag.PrintDefaults] prints. *)
Context (rpcText : rpcError → gostring) (defaults : gostring).

(** [usage] *)
Definition usage : gostring :=
  str "usage: kvcli [-addr host:port[,host:port...]] [-client N -serial M] <command>" ++ newline ++ newline ++
  str "commands:" ++ newline ++
  str "  put <key> <value>   store value under key" ++ newline ++
  str "  get <key>           print the value stored under key" ++ newline ++
  str "  delete <key>        remove key" ++ newline ++ newline ++
  str "flags:" ++ newline ++ defaults.

(** The exit code, the standard output and the standard error. *)
Definition usageError (msg : gostring) : Z * gostring * gostring := (2, [], complain msg ++ usage).
Definition rpcFailure (err : rpcError) : Z * gostring * gostring := (1, [], complain (rpcText err)).

(** The first address that cannot be dialled; [dial] is [grpc.NewClient], [None] when
    it succeeds. *)
Fixpoint dial_all (dial : gostring → option error) (addrs : list gostring) : option error :=
  match addrs with
  | [] => None
  | a :: addrs' => match dial (TrimSpace a) with Some err => Some err | None => dial_all dial addrs' end
  end.

(** [run], after the flags have been parsed. *)
Definition run (dial : gostring → option error) (addr : gostring) (clientID serial : Z)
    (args : list gostring) (servers : list (gostring → kvClient)) : outcome (Z * gostring * gostring) :=
  match args with
  | [] => Ok (2, [], usage)
  | cmd :: rest =>
      match dial_all dial (Split addr (byte.of_Z 44)) with Some err => Ok (1, [], complain (errText err)) | None =>
      let c := newClient addr in
      if bool_decide (cmd = str "put") then
        match rest with
        | [key; value] =>
            '(_, err, _) ← retry (map (λ s a, callPut (s a) (mkPutReq key value clientID serial)) servers) None c;
            mret (match err with Some err => rpcFailure err | None => (0, str "OK" ++ newline, []) end)
        | _ => Ok (usageError (str "put needs exactly <key> <value>"))
        end
      else if bool_decide (cmd = str "get") then
        match rest with
        | [key] =>
            '(resp, err, _) ← retry (map (λ s a, callGet (s a) key) servers) None c;
            mret (match err, resp with
                  | Some err, _ => rpcFailure err
                  | None, Some (value, true) => (0, value ++ newline, [])
                  | None, _ => (1, [], complain (str "key not found"))
                  end)
        | _ => Ok (usageError (str "get needs exactly <key>"))
        end
      else if bool_decide (cmd = str "delete") then
        match rest with
        | [key] =>
            '(resp, err, _) ← retry (map (λ s a, callDelete (s a) (mkDelReq key clientID serial)) servers) None c;
            mret (match err with
                  | Some err => rpcFailure err
                  | None => (0, (if default false resp then str "deleted" else str "key did not exist") ++ newline, [])
                  end)
        | _ => Ok (usageError (str "delete needs exactly <key>"))
        end
      else Ok (usageError (str "unknown command " ++ cmd))
      end
  end.
End run.

(** ** Hints *)

Lemma graphic_app a b : forallb graphic (a ++ b) = forallb graphic a && forallb graphic b.
Proof. apply forallb_app. Qed.

Lemma not_leader_fields shard lid addr :
  is_u64 shard → is_u64 lid → forallb graphic addr = true →
  Fields (not_leader_message shard lid addr) =
    [str "not"; str "leader;"; str "shard=" ++ fmt_d shard; str "leader_id=" ++ fmt_d lid; str "leader_addr=" ++ addr].
Proof.
  intros Hs Hl Ha. unfold not_leader_message.
  change (str "not leader; shard=") with (str "not" ++ str " " ++ str "leader;" ++ str " " ++ str "shard=").
  change (str " leader_id=") with (str " " ++ str "leader_id=").
  change (str " leader_addr=") with (str " " ++ str "leader_addr=").
  rewrite <-!app_assoc, (app_assoc (str "shard=")), (app_assoc (str "leader_id=")).
  rewrite !Fields_cons, Fields_word; rewrite ?graphic_app, ?fmt_d_graphic by done; done.
Qed.

(** The client reads the hint the service writes.  The message of a
    not-leader rejection, parsed by the CLI, gives back the shard and the
    leader's address, whatever the ids and for every address of printable
    characters, the empty one (leader unknown) included. *)
Theorem leaderHint_not_leader shard lid addr :
  is_u64 shard → is_u64 lid → forallb graphic addr = true →
  leaderHint (mkRpcErr (Some (not_leader_message shard lid addr))) = (fmt_d shard, addr, true).
Proof.
  intros Hs Hl Ha. unfold leaderHint. cbn [re_message]. rewrite not_leader_fields by done.
  assert (∀ p s, HasPrefix (p ++ s) p = true) as Hp.
  { intros p s. unfold HasPrefix. apply bool_decide_true. by exists s. }
  assert (∀ p s, TrimPrefix (p ++ s) p = s) as Ht.
  { intros p s. unfold TrimPrefix. rewrite Hp. by rewrite drop_app_length. }
  assert (∀ s, HasPrefix (str "leader_id=" ++ s) (str "shard=") = false) as Hn1.
  { intros s. apply bool_decide_false. by intros [r Hr]. }
  assert (∀ s, HasPrefix (str "leader_id=" ++ s) (str "leader_addr=") = false) as Hn2.
  { intros s. apply bool_decide_false. by intros [r Hr]. }
  assert (∀ s, HasPrefix (str "leader_addr=" ++ s) (str "shard=") = false) as Hn3.
  { intros s. apply bool_decide_false. by intros [r Hr]. }
  unfold foldl, hint_token. by rewrite !Hp, !Ht, Hn1, Hn2, Hn3.
Qed.

Lemma leaderHint_not_leader_witness :
  leaderHint (mkRpcErr (Some (not_leader_message 3 12 (str "10.0.0.2:5001")))) = (str "3", str "10.0.0.2:5001", true).
Proof.
  apply (leaderHint_not_leader 3 12 (str "10.0.0.2:5001")); [unfold is_u64; lia|unfold is_u64; lia|done].
Defined.

(** ** Routing *)

Definition addrs (c : leaderClient) : list gostring := TrimSpace <$> order c.

(** What [run] sets up: every address of the list is dialled, and [cur] is one
    of them. *)
Record client_ok (c : leaderClient) : Prop := {
  ok_conns a : a ∈ conns c ↔ a ∈ addrs c;
  ok_cur : cur c ∈ addrs c
}.

Lemma newClient_ok addr : client_ok (newClient addr).
Proof.
  constructor.
  - intros a. unfold newClient, addrs. cbn. by rewrite elem_of_list_to_set.
  - unfold newClient, addrs. cbn. destruct (Split addr _) as [|x l] eqn:E; [|cbn; left].
    unfold Split in E. exfalso. revert E. generalize (@nil Init.Byte.byte). induction addr as [|b s IH]; intros k; [done|].
    cbn. destruct (Byte.eqb _ _); [done|apply IH].
Qed.

Lemma next_in_spec all l i k c :
  l = drop i all → NoDup (TrimSpace <$> all) → (i ≤ k)%nat → (TrimSpace <$> all) !! k = Some c →
  next_in all l (Z.of_nat i) c = (TrimSpace <$> all) !! ((k + 1) mod length all)%nat.
Proof.
  intros -> Hnd Hik Hk. apply list_lookup_fmap_Some in Hk as (x & -> & Hx).
  pose proof (lookup_lt_Some _ _ _ Hx) as Hlt. remember (k - i)%nat as d eqn:Hd. revert i Hik Hd.
  induction d as [|d IH]; intros i Hik Hd.
  - assert (i = k) as -> by lia. rewrite (drop_S _ _ _ Hx). cbn [next_in]. rewrite bool_decide_true by done.
    rewrite list_lookup_fmap. do 2 f_equal. replace (Z.of_nat k + 1) with (Z.of_nat (k + 1)) by lia. rewrite <-Nat2Z.inj_mod. lia.
  - destruct (lookup_lt_is_Some_2 all i) as [y Hy]; [lia|]. rewrite (drop_S _ _ _ Hy). cbn [next_in].
    rewrite bool_decide_false.
    + replace (Z.of_nat i + 1) with (Z.of_nat (i + 1)) by lia. replace (S i) with (i + 1)%nat by lia. apply IH; lia.
    + intros He. assert (i = k); [|lia]. eapply NoDup_lookup; [exact Hnd|..]; rewrite list_lookup_fmap; [by rewrite Hy|].
      rewrite Hx. cbn. by f_equal.
Qed.

(** [next] walks the list as a ring. *)
Lemma next_ring c k a :
  NoDup (addrs c) → addrs c !! k = Some a →
  ∃ b, next c a = Ok b ∧ addrs c !! ((k + 1) mod length (addrs c))%nat = Some b.
Proof.
  intros Hnd Hk. unfold next, addrs in *. pose proof (lookup_lt_Some _ _ _ Hk) as Hlt. rewrite length_fmap in *.
  rewrite (next_in_spec _ _ 0 k) by (done || lia).
  destruct (lookup_lt_is_Some_2 (TrimSpace <$> order c) ((k + 1) mod length (order c))) as [b Hb].
  { rewrite length_fmap. apply Nat.mod_upper_bound. lia. }
  exists b. by rewrite Hb.
Qed.

Lemma next_in_addrs c a b : next c a = Ok b → b ∈ addrs c.
Proof.
  unfold next, addrs. destruct (next_in _ _ _ _) as [x|] eqn:E.
  - intros [= <-]. revert E. generalize 0. generalize (order c) at 2. intros l.
    induction l as [|y l IH]; intros i; [done|]. cbn. case_bool_decide; [|apply IH].
    intros Hx. apply list_elem_of_lookup_2 with (Z.to_nat ((i + 1) mod zlength (order c))).
    by rewrite list_lookup_fmap.
  - destruct (zindex (order c) 0) as [x| | |] eqn:Ex; cbn; [|done..]. intros [= <-].
    apply zindex_lookup in Ex as [_ Ex]. apply list_elem_of_fmap_2. by eapply list_elem_of_lookup_2.
Qed.

Lemma client_ok_set c f : client_ok c → conns (f c) = conns c → order (f c) = order c → cur (f c) ∈ addrs c → client_ok (f c).
Proof. intros Hc H1 H2 H3. constructor; unfold addrs in *; rewrite ?H1, H2; [apply Hc|done]. Qed.

Lemma learn_ok try err c : client_ok c → client_ok (learn try err c).1.
Proof.
  intros Hc. unfold learn. destruct (leaderHint err) as [[shard addr] ok]. destruct (negb ok); [done|].
  assert (∀ c', conns c' = conns c → order c' = order c → cur c' = cur c → client_ok c') as Hsame.
  { intros c' H1 H2 H3. apply (client_ok_set c (λ _, c')); [done..|]. cbn. rewrite H3. by apply ok_cur. }
  destruct (bool_decide (try = _)); destruct (_ && _); by apply Hsame.
Qed.

Lemma target_ok c : client_ok c → target c ∈ conns c.
Proof.
  intros Hc. pose proof (proj2 (ok_conns _ Hc _) (ok_cur _ Hc)) as Hcur. unfold target.
  destruct (shardLeader c !! opShard c) as [a|]; [|done]. destruct (_ && _) eqn:E; [|done]. by zify_bool.
Qed.

Lemma next_ok c a : client_ok c → ∃ b, next c a = Ok b ∧ b ∈ addrs c.
Proof.
  intros Hc. assert (∃ b, next c a = Ok b) as [b Hb]; [|exists b; split; [done|by eapply next_in_addrs]].
  unfold next. destruct (next_in _ _ _ _); [by eexists|]. pose proof (ok_cur _ Hc) as Hin. unfold addrs in Hin.
  destruct (order c) as [|x l]; [by apply not_elem_of_nil in Hin|]. by eexists.
Qed.

(** The CLI never calls through a connection it has not made, whatever the
    servers answer and whatever leader addresses they name: [retry] does not
    panic, and the client it leaves is as well-formed as the one it got. *)
Theorem retry_no_panic {A} (calls : list (gostring → A + rpcError)) lastErr c :
  client_ok c → ∃ r e c', retry calls lastErr c = Ok (r, e, c') ∧ client_ok c'.
Proof.
  revert lastErr c. induction calls as [|call calls IH]; intros lastErr c Hc; [by eexists _, _, _|].
  cbn [retry]. rewrite bool_decide_true by by apply target_ok. cbn [negb].
  destruct (call (target c)) as [a|err].
  { eexists _, _, _. split; [done|]. apply (client_ok_set c (set cur (λ _, target c))); [done..|].
    by apply (ok_conns _ Hc), target_ok. }
  pose proof (learn_ok (target c) err c Hc) as Hl. destruct (learn (target c) err c) as [c1 straight]. cbn [fst] in Hl.
  destruct straight; [by apply IH|]. destruct (next_ok c1 (target c) Hl) as (b & -> & Hb). cbn [mbind outcome_bind].
  by apply IH, (client_ok_set c1 (set cur (λ _, b))).
Qed.

Lemma retry_no_panic_witness :
  ∃ r e c', retry (A:=()) [λ _, inr (mkRpcErr (Some (not_leader_message 0 2 (str "nowhere:1"))))] None
              (newClient (str "a:1, b:2")) = Ok (r, e, c') ∧ client_ok c'.
Proof. exact (retry_no_panic _ None (newClient (str "a:1, b:2")) (newClient_ok _)). Defined.

(** ** Reaching the leader *)

(** An answer of a node that is not the leader, at [a]: a failure that is not a
    hint, or a rejection that names the leader or nobody. *)
Definition rejection (a : gostring) (err : rpcError) : Prop :=
  (leaderHint err).2 = false ∨
  ∃ shard, shard ≠ [] ∧ ((leaderHint err) = (shard, a, true) ∨ leaderHint err = (shard, [], true)).

(** The leader is at [a], and answers. *)
Definition leader_at {A} (a : gostring) (call : gostring → A + rpcError) : Prop :=
  (∃ r, call a = inl r) ∧ ∀ b, b ≠ a → ∃ err, call b = inr err ∧ rejection a err.

(** The steps from [cur] to [a] around the ring. *)
Definition ring_dist (l : list gostring) (b a : gostring) (d : nat) : Prop :=
  ∃ i, l !! i = Some b ∧ l !! ((i + d) mod length l)%nat = Some a.

Lemma ring_dist_step c b a d b' :
  NoDup (addrs c) → ring_dist (addrs c) b a (S d) → next c b = Ok b' → ring_dist (addrs c) b' a d.
Proof.
  intros Hnd (i & Hi & Ha) Hb. destruct (next_ring c i b Hnd Hi) as (x & Hx & Hl). rewrite Hb in Hx. injection Hx as <-.
  exists ((i + 1) mod length (addrs c))%nat. split; [done|]. rewrite Nat.Div0.add_mod_idemp_l.
  by replace (i + 1 + d)%nat with (i + S d)%nat by lia.
Qed.

Lemma ring_dist_exists l b a :
  b ∈ l → a ∈ l → ∃ d, (d < length l)%nat ∧ ring_dist l b a d.
Proof.
  intros [i Hi]%list_elem_of_lookup [j Hj]%list_elem_of_lookup.
  pose proof (lookup_lt_Some _ _ _ Hi). pose proof (lookup_lt_Some _ _ _ Hj).
  exists ((j + length l - i) mod length l)%nat. split; [apply Nat.mod_upper_bound; lia|]. exists i. split; [done|].
  rewrite Nat.Div0.add_mod_idemp_r. replace (i + (j + length l - i))%nat with (j + 1 * length l)%nat by lia.
  rewrite Nat.Div0.mod_add, Nat.mod_small by lia. done.
Qed.

(** Every leader the client remembers is at [a]. *)
Definition remembers (a : gostring) (c : leaderClient) : Prop := map_Forall (λ _ x, x = a) (shardLeader c).

Lemma target_cases a c : remembers a c → target c = a ∨ target c = cur c.
Proof.
  intros Hr. unfold target. destruct (shardLeader c !! opShard c) as [x|] eqn:E; [|by right].
  destruct (_ && _); [left; by eapply Hr|by right].
Qed.

Lemma retry_at_leader {A} a call (calls : list (gostring → A + rpcError)) lastErr c :
  client_ok c → leader_at a call → target c = a →
  ∃ r c', retry (call :: calls) lastErr c = Ok (Some r, None, c') ∧ cur c' = a.
Proof.
  intros Hc [[r Hr] _] Ht. exists r, (c <| cur := a |>). split; [|done].
  cbn [retry]. rewrite bool_decide_true by by apply target_ok. by rewrite Ht, Hr.
Qed.

(** A rejection: the client turns to the leader, or walks on. *)
Lemma learn_rejection a b err c :
  client_ok c → a ∈ conns c → remembers a c → rejection a err →
  let '(c1, straight) := learn b err c in
  remembers a c1 ∧ cur c1 = cur c ∧ order c1 = order c ∧ conns c1 = conns c ∧ (straight = true → target c1 = a).
Proof.
  intros Hc Ha Hr Hrej. unfold learn. destruct (leaderHint err) as [[shard addr] ok] eqn:E.
  assert (ok = true → shard ≠ [] ∧ (addr = a ∨ addr = [])) as Hh.
  { intros ->. destruct Hrej as [Hf|(sh & Hne & [He|He])]; rewrite E in *; naive_solver. }
  destruct ok; cbn [negb]; [|done]. destruct (Hh eq_refl) as [Hne Haddr].
  set (c0 := if bool_decide _ then _ else _).
  assert (remembers a c0 ∧ cur c0 = cur c ∧ order c0 = order c ∧ conns c0 = conns c ∧ opShard c0 = shard) as
    (Hr0 & Hcur & Hord & Hcon & Hop).
  { unfold c0. destruct (bool_decide _); [|done]. split; [|done]. unfold remembers. cbn. by apply map_Forall_delete. }
  destruct (negb _ && _) eqn:Eb; [|done]. zify_bool. assert (addr = a) as -> by naive_solver.
  split_and!; [|done..|].
  - unfold remembers. cbn. by apply map_Forall_insert_2.
  - intros _. unfold target. cbn. rewrite Hop, lookup_insert_eq, Hcon. rewrite bool_decide_false by done.
    by rewrite bool_decide_true.
Qed.

Lemma retry_walk {A} a d (calls : list (gostring → A + rpcError)) lastErr c :
  client_ok c → NoDup (addrs c) → a ∈ conns c → remembers a c → Forall (leader_at a) calls →
  ring_dist (addrs c) (cur c) a d → (d < length calls)%nat →
  ∃ r c', retry calls lastErr c = Ok (Some r, None, c') ∧ cur c' = a.
Proof.
  intros Hc Hnd Ha Hr Hl. revert d lastErr c Hc Hnd Ha Hr.
  induction Hl as [|call calls Hcall Hl IH]; intros d lastErr c Hc Hnd Ha Hr Hd Hlen; [cbn in Hlen; lia|].
  destruct (decide (target c = a)) as [Ht|Ht]; [by apply retry_at_leader|].
  assert (target c = cur c) as Htc by (by destruct (target_cases a c Hr)).
  destruct d as [|d].
  { destruct Hd as (i & Hi & Hai). rewrite Nat.add_0_r, Nat.mod_small in Hai by by eapply lookup_lt_Some. congruence. }
  destruct (proj2 Hcall _ Ht) as (err & Herr & Hrej). cbn [retry].
  rewrite bool_decide_true by by apply target_ok. cbn [negb]. rewrite Herr.
  pose proof (learn_ok (target c) err c Hc) as Hok. pose proof (learn_rejection a (target c) err c Hc Ha Hr Hrej) as Hlearn.
  destruct (learn (target c) err c) as [c1 straight]. destruct Hlearn as (Hr1 & Hcur & Hord & Hcon & Hst). cbn [fst] in Hok.
  assert (addrs c1 = addrs c) as Had by (unfold addrs; by rewrite Hord).
  destruct straight.
  { destruct Hl as [|call2 calls]; [cbn in Hlen; lia|]. apply retry_at_leader; auto. }
  destruct (next_ok c1 (target c) Hok) as (b & Hb & Hbin). rewrite Hb. cbn [mbind outcome_bind].
  apply (IH d); [| | |done| |cbn in Hlen; lia].
  - by apply (client_ok_set c1 (set cur (λ _, b))).
  - change (addrs (c1 <| cur := b |>)) with (addrs c1). by rewrite Had.
  - cbn. by rewrite Hcon.
  - change (addrs (c1 <| cur := b |>)) with (addrs c1). cbn. eapply ring_dist_step; [by rewrite Had| |exact Hb].
    by rewrite Had, Htc.
Qed.

(** C18: The CLI reaches the leader.  Started from a list of distinct addresses
    among which the leader is, and with as many attempts as there are addresses,
    [retry] ends with the leader's answer, provided that every other node fails or
    points to the leader (or to nobody); the client then stays with the leader. *)
Theorem retry_reaches_leader {A} addr a (calls : list (gostring → A + rpcError)) :
  let c := newClient addr in
  NoDup (addrs c) → a ∈ addrs c → Forall (leader_at a) calls → (length (addrs c) ≤ length calls)%nat →
  ∃ r c', retry calls None c = Ok (Some r, None, c') ∧ cur c' = a.
Proof.
  intros c Hnd Ha Hl Hlen. pose proof (newClient_ok addr) as Hc.
  destruct (ring_dist_exists (addrs c) (cur c) a) as (d & Hd & Hr); [by apply ok_cur|done|].
  apply (retry_walk a d); [done|done|by apply (ok_conns _ Hc)|apply map_Forall_empty|done|done|lia].
Qed.

Definition demo_call (b : gostring) : () + rpcError :=
  if bool_decide (b = str "c:3") then inl () else
  if bool_decide (b = str "b:2") then inr (mkRpcErr (Some (not_leader_message 0 3 (str "c:3")))) else
  inr (mkRpcErr None).

Lemma retry_reaches_leader_witness :
  ∃ r c', retry [demo_call; demo_call; demo_call] None (newClient (str "a:1,b:2, c:3")) = Ok (Some r, None, c') ∧ cur c' = str "c:3".
Proof.
  apply (retry_reaches_leader (str "a:1,b:2, c:3") (str "c:3")).
  - apply (bool_decide_unpack _). by vm_compute.
  - apply (bool_decide_unpack _). by vm_compute.
  - assert (leader_at (str "c:3") demo_call) as Hl; [|repeat (constructor; [exact Hl|]); constructor].
    split; [by exists (); vm_compute|]. intros b Hb. unfold demo_call. rewrite bool_decide_false by done.
    case_bool_decide; eexists; (split; [done|]); [right; exists (str "0"); split; [done|left; by vm_compute]|by left].
  - vm_compute. lia.
Defined.

(** ** The exit code *)

(** A success was somebody's answer. *)
Lemma retry_answered {A} (calls : list (gostring → A + rpcError)) lastErr c r c' :
  retry calls lastErr c = Ok (r, None, c') →
  (∃ call a x, call ∈ calls ∧ call a = inl x ∧ r = Some x) ∨ (calls = [] ∧ lastErr = None).
Proof.
  revert lastErr c. induction calls as [|call calls IH]; intros le c Hr.
  { right. by injection Hr. }
  assert (∀ err c1, retry calls (Some err) c1 = Ok (r, None, c') →
    ∃ call' a x, call' ∈ call :: calls ∧ call' a = inl x ∧ r = Some x) as Hrec.
  { intros err c1 [(f & b & x & Hin & Hf)|[_ ?]]%IH; [|done]. exists f, b, x. split; [by right|done]. }
  left. cbn [retry] in Hr. destruct (negb _); [done|].
  destruct (call (target c)) as [x|err] eqn:E.
  { injection Hr as <- <-. exists call, (target c), x. split; [left|done]. }
  destruct (learn _ _ _) as [c1 []]; [by apply Hrec in Hr|].
  destruct (next c1 _); cbn in Hr; [by apply Hrec in Hr|done..].
Qed.

(** C28: The CLI reports success only for what a server has answered.  Exit code
    0 of a put means that some server acknowledged this very request; of a get,
    that some server answered with the value that is printed; of a delete, that some
    server reported what is printed.  Nothing is then on the standard error. *)
Theorem run_success {txt : ErrText} rpcText defaults dial addr cid ser args servers out err :
  servers ≠ [] → run rpcText defaults dial addr cid ser args servers = Ok (0, out, err) → err = [] ∧
  ((∃ key value s a, args = [str "put"; key; value] ∧ s ∈ servers ∧ out = str "OK" ++ newline ∧
     callPut (s a) (mkPutReq key value cid ser) = inl ()) ∨
  (∃ key value s a, args = [str "get"; key] ∧ s ∈ servers ∧ out = value ++ newline ∧
     callGet (s a) key = inl (value, true)) ∨
  (∃ key existed s a, args = [str "delete"; key] ∧ s ∈ servers ∧
     out = (if (existed : bool) then str "deleted" else str "key did not exist") ++ newline ∧
     callDelete (s a) (mkDelReq key cid ser) = inl existed)).
Proof.
  intros Hne. unfold run. destruct args as [|cmd rest]; [done|]. destruct (dial_all _ _); [done|].
  assert (∀ {A} (f : (gostring → kvClient) → gostring → A + rpcError) r c',
    retry (map f servers) None (newClient addr) = Ok (r, None, c') →
    ∃ s a x, s ∈ servers ∧ f s a = inl x ∧ r = Some x) as Hans.
  { intros A f r c' [(g & a & x & Hin & Hg & Hx)|[? _]]%retry_answered; [|by destruct servers].
    apply list_elem_of_fmap in Hin as (s & -> & Hs). by exists s, a, x. }
  case_bool_decide as Hput; [subst cmd|case_bool_decide as Hget; [subst cmd|case_bool_decide as Hdel; [subst cmd|done]]].
  - destruct rest as [|key [|value [|? ?]]]; try done. destruct (retry _ _ _) as [[[r e] c']| | |] eqn:E; [|done..].
    cbn. destruct e; [done|]. intros [= <- <-]. apply Hans in E as (s & a & [] & Hs & Hf & _). split; [done|]. left. by exists key, value, s, a.
  - destruct rest as [|key [|? ?]]; try done. destruct (retry _ _ _) as [[[r e] c']| | |] eqn:E; [|done..].
    cbn. destruct e; [done|]. apply Hans in E as (s & a & [value []] & Hs & Hf & ->); [|done]. intros [= <- <-].
    split; [done|]. right. left. by exists key, value, s, a.
  - destruct rest as [|key [|? ?]]; try done. destruct (retry _ _ _) as [[[r e] c']| | |] eqn:E; [|done..].
    cbn. destruct e; [done|]. apply Hans in E as (s & a & existed & Hs & Hf & ->). intros [= <- <-].
    split; [done|]. right. right. by exists key, existed, s, a.
Qed.

(** A command line the CLI does not understand is answered with the usage text, exit
    code 2, and no request. *)
Theorem run_usage {txt : ErrText} rpcText defaults dial addr cid ser args servers code out err :
  run rpcText defaults dial addr cid ser args servers = Ok (code, out, err) → code ≠ 0 →
  out = [] ∧ (code = 2 → usage defaults `suffix_of` err).
Proof.
  assert (∀ msg, usage defaults `suffix_of` complain msg ++ usage defaults) as Hu by (intros msg; by apply suffix_app_r).
  assert (∀ o : outcome (Z * gostring * gostring),
    match o with Ok (c, ou, e) => c ≠ 0 → ou = [] ∧ (c = 2 → usage defaults `suffix_of` e) | _ => True end →
    o = Ok (code, out, err) → code ≠ 0 → out = [] ∧ (code = 2 → usage defaults `suffix_of` err)) as Hend by (by intros o Ho ->).
  apply Hend. unfold run. destruct args as [|cmd rest]; [done|]. destruct (dial_all _ _); [done|].
  repeat case_bool_decide; [| | |by unfold usageError].
  - destruct rest as [|key [|value [|? ?]]]; try (by unfold usageError). destruct (retry _ _ _) as [[[r e] c']| | |]; cbn; try done. by destruct e.
  - destruct rest as [|key [|? ?]]; try (by unfold usageError). destruct (retry _ _ _) as [[[r e] c']| | |]; cbn; try done.
    destruct e; [done|]. by destruct r as [[value []]|].
  - destruct rest as [|key [|? ?]]; try (by unfold usageError). destruct (retry _ _ _) as [[[r e] c']| | |]; cbn; try done. by destruct e.
Qed.

Definition demo_server (a : gostring) : kvClient :=
  mkClient (λ _, demo_call a) (λ _, inl (str "v", true)) (λ _, inr (mkRpcErr None)).

#[local] Instance demo_text : ErrText := λ _, str "i/o error".

Lemma run_success_witness :
  run (λ _, []) [] (λ _, None) (str "a:1,b:2,c:3") 0 0 [str "put"; str "k"; str "v"] [demo_server; demo_server; demo_server]
    = Ok (0, str "OK" ++ newline, []) ∧
  ∃ s a, s ∈ [demo_server; demo_server; demo_server] ∧ callPut (s a) (mkPutReq (str "k") (str "v") 0 0) = inl ().
Proof.
  assert (run (λ _, []) [] (λ _, None) (str "a:1,b:2,c:3") 0 0 [str "put"; str "k"; str "v"] [demo_server; demo_server; demo_server]
    = Ok (0, str "OK" ++ newline, [])) as Hrun by (by vm_compute).
  split; [exact Hrun|]. assert ([demo_server; demo_server; demo_server] ≠ []) as Hne by discriminate.
  destruct (run_success (λ _, []) [] (λ _, None) (str "a:1,b:2,c:3") 0 0 _ _ _ _ Hne Hrun)
    as [_ [(key & value & s & a & Ha & Hs & _ & Hc)|[(key & value & s & a & Ha & _)|(key & existed & s & a & Ha & _)]]]; [|done..].
  injection Ha as <- <-. exists s, a. exact (conj Hs Hc).
Defined.
