(* ===== verification/ServerMain.v ===== *)
(** * cmd/server/main.go: what a node is started with

    The member list of [--peers], and how the flags choose between the
    standalone server and a replica of every shard.  The life of the
    standalone server is in Standalone; listening, serving and signals of a replica
    are left out. *)

From stdpp Require Import prelude gmap strings.
From coqutil Require Import Byte.
From S2P Require Import Prelude GoRuntime GoBytes GoStrings GoText Grpc GoFS Record.
From S2P Require Import RaftTypes Membership Core Node NodeApi Transport KvStateMachine KvService Sharding.
Open Scope Z_scope.

Definition comma : Init.Byte.byte := byte.of_Z 44.
Definition at_sign : Init.Byte.byte := byte.of_Z 64.

(** One part of the list, trimmed. *)
Definition parse_member (members : Members) (part : gostring) : outcome Members :=
  if bool_decide (part = []) then mret members else
  match IndexByte part at_sign with
  | None => Err (EMsg "member %q is not id@addr")
  | Some at_ =>
      match ParseUint (take at_ part) with
      | None => Err (EWrap "member %q: %w" (EMsg "strconv.ParseUint"))
      | Some pid => mret (<[pid := drop (at_ + 1) part]> members)
      end
  end.

Fixpoint parse_parts (members : Members) (parts : list gostring) : outcome Members :=
  match parts with
  | [] => mret members
  | part :: rest => m ← parse_member members (TrimSpace part); parse_parts m rest
  end.

Definition parseMembers (spec : gostring) (selfID : Z) (selfAddr : gostring) : outcome Members :=
  if bool_decide (TrimSpace spec = []) then mret {[selfID := selfAddr]} else
  members ← parse_parts ∅ (Split spec comma);
  match members !! selfID with
  | None => Err (EMsg "--peers must include this node's own id %d")
  | Some _ => mret members
  end.

(** The choice [main] makes. *)
Inductive plan := Standalone | Cluster (members : Members).

Definition serverMain (id : Z) (listenAddr peers : gostring) : outcome plan :=
  if bool_decide (TrimSpace peers = []) then mret Standalone else
  members ← parseMembers peers id listenAddr; mret (Cluster members).

(** [runCluster] up to serving: the groups, and the service in front of their
    nodes.  [unsafe] is the environment variable of the mutation check. *)
Definition runCluster {D} `{RaftDisk D} `{GoRuntime} `{Gob} (id : Z) (dataDir : gostring) (members : Members)
    (shardCount compactAt : Z) (unsafe : bool) (ds : Z → D) : M fs (ShardedServer D * Service) :=
  let transport := NewGRPCTransport members in
  srv ← wrap "start raft groups: %w"
    (NewSharded (mkConfig id 10 20 3 false) members compactAt (Some (addrs transport)) shardCount dataDir ds);
  let srv := if unsafe then SetUnsafeNoReadBarrier true srv else srv in
  mret (srv, NewService (Nodes srv)).

(** ** The list that is printed is the list that is read *)

Definition print_member (m : Z * gostring) : gostring := fmt_d m.1 ++ at_sign :: m.2.

Fixpoint print_members (l : list (Z * gostring)) : gostring :=
  match l with
  | [] => []
  | [m] => print_member m
  | m :: l' => print_member m ++ comma :: print_members l'
  end.

(** An address: printable, without a comma. *)
Definition address (a : gostring) : bool := forallb (λ b, graphic b && negb (Byte.eqb b comma)) a.

Lemma address_graphic a : address a = true → forallb graphic a = true.
Proof. unfold address. rewrite !forallb_forall. intros Ha b Hb. apply Ha in Hb. by zify_bool. Qed.

Lemma fmt_d_plain n c : is_u64 n → ¬ 48 ≤ byte.unsigned c ≤ 57 → forallb (λ b, negb (Byte.eqb b c)) (fmt_d n) = true.
Proof.
  intros Hn Hc. destruct (fmt_d_digits n Hn) as (ds & -> & Hd & _).
  induction Hd as [|d ds Hd _ IH]; [done|]. cbn [fmap list_fmap forallb]. rewrite IH, andb_true_r.
  apply negb_true_iff, not_true_iff_false. intros He%Byte.byte_dec_bl. apply Hc. rewrite <-He. unfold digit.
  rewrite byte.unsigned_of_Z. unfold byte.wrap. rewrite Z.mod_small by lia. lia.
Qed.

Lemma print_member_word id a : is_u64 id → address a = true → address (print_member (id, a)) = true.
Proof.
  intros Hid Ha. unfold print_member, address. cbn [fst snd]. rewrite forallb_app. cbn [forallb].
  fold (address a). rewrite Ha. apply andb_true_iff. split; [|done]. apply forallb_forall. intros b Hb.
  pose proof (fmt_d_graphic id Hid) as Hg. pose proof (fmt_d_plain id comma Hid ltac:(change (byte.unsigned comma) with 44; lia)) as Hp.
  rewrite forallb_forall in Hg, Hp. by rewrite Hg, Hp.
Qed.

Lemma parse_member_print m id a :
  is_u64 id → parse_member m (print_member (id, a)) = Ok (<[id := a]> m).
Proof.
  intros Hid. unfold parse_member, print_member. cbn [fst snd]. rewrite bool_decide_false.
  2:{ pose proof (fmt_d_nonempty id Hid). by destruct (fmt_d id). }
  rewrite IndexByte_app by (apply fmt_d_plain; [done|change (byte.unsigned at_sign) with 64; lia]).
  rewrite take_app_length, ParseUint_fmt_d by done. by rewrite drop_app_add'.
Qed.

(** What a list means: a later entry for an id overrides an earlier one. *)
Definition members_of (m : Members) (l : list (Z * gostring)) : Members :=
  foldl (λ m e, <[e.1 := e.2]> m) m l.

Lemma parse_parts_print l m :
  l ≠ [] → Forall (λ e, is_u64 e.1 ∧ address e.2 = true) l →
  parse_parts m (Split (print_members l) comma) = Ok (members_of m l).
Proof.
  intros Hne Hl. revert m Hne. induction Hl as [|[id a] l [Hid Ha] Hl IH]; intros m Hne; [done|]. cbn in Hid, Ha.
  pose proof (print_member_word id a Hid Ha) as Hw.
  assert (forallb (λ b, negb (Byte.eqb b comma)) (print_member (id, a)) = true) as Hnc.
  { unfold address in Hw. rewrite forallb_forall in Hw |- *. intros b Hb. apply Hw in Hb. by apply andb_true_iff in Hb as [_ ?]. }
  assert (∀ m, parse_member m (TrimSpace (print_member (id, a))) = Ok (<[id := a]> m)) as Hp.
  { intros m0. rewrite TrimSpace_word by by apply address_graphic. by apply parse_member_print. }
  destruct l as [|e l].
  - cbn [print_members]. rewrite Split_word by done. cbn [parse_parts]. by rewrite Hp.
  - change (print_members ((id, a) :: e :: l)) with (print_member (id, a) ++ comma :: print_members (e :: l)).
    rewrite Split_cons by done. cbn [parse_parts]. rewrite Hp. cbn [mbind outcome_bind]. by apply IH.
Qed.

Lemma members_of_dom l m id : is_Some (members_of m l !! id) ↔ is_Some (m !! id) ∨ id ∈ l.*1.
Proof.
  revert m. induction l as [|[i a] l IH]; intros m; cbn; [set_solver|]. rewrite IH, elem_of_cons.
  destruct (decide (i = id)) as [->|Hne]; [rewrite lookup_insert_eq; naive_solver|]. rewrite lookup_insert_ne by done.
  naive_solver.
Qed.

(** C23: [--peers] means what it says.  A list of [id@addr] entries, in any order,
    is accepted exactly when this node is one of them, and gives the table the
    entries spell out; of two entries for one id the later counts. *)
Theorem parseMembers_print l selfID selfAddr :
  l ≠ [] → Forall (λ e, is_u64 e.1 ∧ address e.2 = true) l →
  parseMembers (print_members l) selfID selfAddr =
    if bool_decide (selfID ∈ l.*1) then Ok (members_of ∅ l)
    else Err (EMsg "--peers must include this node's own id %d").
Proof.
  intros Hne Hl. unfold parseMembers. rewrite bool_decide_false.
  - rewrite parse_parts_print by done. cbn [mbind outcome_bind]. pose proof (members_of_dom l ∅ selfID) as Hd.
    rewrite lookup_empty in Hd. destruct (members_of ∅ l !! selfID) as [a|].
    + rewrite bool_decide_true; [done|]. apply proj1 in Hd. destruct Hd as [[? ?]|?]; done.
    + rewrite bool_decide_false; [done|]. intros Hin. destruct (proj2 Hd (or_intror Hin)). done.
  - destruct Hl as [|[id a] l [Hid Ha] Hl]; [done|]. intros Ht.
    assert (∃ b s, print_members ((id, a) :: l) = b :: s ∧ graphic b = true) as (b & s & Hs & Hb).
    { pose proof (fmt_d_graphic id Hid) as Hg. pose proof (fmt_d_nonempty id Hid) as Hn. unfold print_members, print_member.
      cbn [fst snd]. destruct (fmt_d id) as [|b s]; [done|]. cbn in Hg. apply andb_true_iff in Hg as [Hg _].
      destruct l; eexists b, _; (split; [reflexivity|done]). }
    rewrite Hs in Ht. unfold TrimSpace in Ht. cbn [length trim_left] in Ht. rewrite space_len_graphic in Ht by done.
    by apply (trim_right_nonempty (length (b :: s)) b s Hb).
Qed.

Lemma parseMembers_print_witness :
  parseMembers (str "2@b:5002,1@a:5001,2@c:5003") 1 [] = Ok {[1 := str "a:5001"; 2 := str "c:5003"]}.
Proof.
  etrans; [apply (parseMembers_print [(2, str "b:5002"); (1, str "a:5001"); (2, str "c:5003")] 1 [])|by vm_compute].
  - done.
  - repeat (apply Forall_cons_2; [by split; [split; vm_compute|vm_compute]|]). by apply Forall_nil_2.
Defined.
