(* ===== verification/Checker.v ===== *)
(** * internal/nemesis/checker.go: the linearizability check

    The conversion of a recorded history, the register model and the verdict.
    The search itself is the Porcupine package: a class with its documented
    meaning.  The theorems: a history that an atomic store produced is never
    called a violation as long as no delete timed out; with a timed-out delete
    it can be. *)

From stdpp Require Import prelude gmap strings sorting.
From S2P Require Import Prelude GoBytes.
Open Scope Z_scope.

(** [Op] of history.go. *)
Record Op := mkOp {
  Client : Z;
  Kind : string;
  OpKey : gostring;
  OpValue : gostring;
  Found : bool;
  Output : gostring;
  OpOk : bool;
  Unknown : bool;
  Invoke : Z;
  Return_ : Z
}.

Record kvInput := mkIn { in_Kind : string; in_Key : gostring; in_Value : gostring }.
Record kvOutput := mkOut { out_Found : bool; out_Value : gostring }.
#[export] Instance kvOutput_eq_dec : EqDecision kvOutput.
Proof. solve_decision. Defined.

(** [porcupine.Operation] *)
Record Operation := mkOperation { ClientId : Z; Input : kvInput; Call : Z; POutput : kvOutput; Return : Z }.

Definition MaxInt64 : Z := 2 ^ 63 - 1.

(** [kvModel] *)
Definition kvInit : kvOutput := mkOut false [].

Definition kvStep (st : kvOutput) (i : kvInput) (o : kvOutput) : bool * kvOutput :=
  if bool_decide (in_Kind i = "put"%string) then (true, mkOut true (in_Value i)) else
  if bool_decide (in_Kind i = "delete"%string) then (true, mkOut false []) else
  if bool_decide (in_Kind i = "get"%string) then
    (Bool.eqb (out_Found o) (out_Found st) && (negb (out_Found st) || bool_decide (out_Value o = out_Value st)), st)
  else (false, st).

(** [DescribeOperation]: how a violation is shown. *)
Definition describe (i : kvInput) (o : kvOutput) : gostring :=
  if bool_decide (in_Kind i = "get"%string) then
    if negb (out_Found o) then str "get(" ++ in_Key i ++ str ") -> absent"
    else str "get(" ++ in_Key i ++ str ") -> " ++ out_Value o
  else if bool_decide (in_Kind i = "put"%string) then str "put(" ++ in_Key i ++ str ", " ++ in_Value i ++ str ")"
  else str "delete(" ++ in_Key i ++ str ")".

(** [byKey[k] = append(byKey[k], x)] for every [x] of a list. *)
Definition group_by {A} (key : A → gostring) (l : list A) : gmap gostring (list A) :=
  foldl (λ m x, <[key x := default [] (m !! key x) ++ [x]]> m) ∅ l.

Definition kvPartition (h : list Operation) : list (list Operation) :=
  (map_to_list (group_by (λ op, in_Key (Input op)) h)).*2.

(** A sequence of operations the model accepts from a state. *)
Fixpoint legal (st : kvOutput) (l : list Operation) : bool :=
  match l with
  | [] => true
  | op :: l' => let '(ok, st') := kvStep st (Input op) (POutput op) in ok && legal st' l'
  end.

(** [a] may come before [b]: [b] had not returned when [a] was called. *)
Definition may_precede (a b : Operation) : Prop := Call a ≤ Return b.

(** Some order of the operations is accepted by the model and respects real
    time. *)
Definition linearizable (h : list Operation) : Prop :=
  ∃ l, l ≡ₚ h ∧ legal kvInit l = true ∧ StronglySorted may_precede l.

Inductive CheckResult := POk | PIllegal | PTimeout.

(** [porcupine.CheckOperationsVerbose(kvModel, history, timeout)]: [Ok] and
    [Illegal] are right about the parts of the history. *)
Class Porcupine := {
  CheckOperations : list Operation → Z → CheckResult;
  check_ok h timeout : CheckOperations h timeout = POk → Forall linearizable (kvPartition h);
  check_illegal h timeout : CheckOperations h timeout = PIllegal → ¬ Forall linearizable (kvPartition h)
}.

(** One operation of the history; [None] when it is skipped. *)
Definition convert (op : Op) : outcome (option Operation) :=
  if Unknown op && negb (bool_decide (Kind op = "put"%string)) then mret None else
  let pop i o r := mret (Some (mkOperation (Client op) i (Invoke op) o r)) in
  if bool_decide (Kind op = "put"%string)
  then pop (mkIn "put" (OpKey op) (OpValue op)) (mkOut false []) (if Unknown op then MaxInt64 else Return_ op)
  else if bool_decide (Kind op = "get"%string)
  then pop (mkIn "get" (OpKey op) []) (mkOut (Found op) (Output op)) (Return_ op)
  else if bool_decide (Kind op = "delete"%string)
  then pop (mkIn "delete" (OpKey op) []) (mkOut false []) (Return_ op)
  else Err (EMsg "history contains unknown op kind %q").

Fixpoint convert_all (ops : list Op) : outcome (list Operation) :=
  match ops with
  | [] => mret []
  | op :: ops' => p ← convert op; l ← convert_all ops'; mret (option_list p ++ l)
  end.

Definition CheckLinearizability `{Porcupine} (ops : list Op) (timeout : Z) : outcome bool :=
  history ← convert_all ops;
  match CheckOperations history timeout with
  | POk => mret true
  | PIllegal => mret false
  | PTimeout => Err (EMsg "linearizability check timed out after %s (%d ops)")
  end.

(** [FindViolatingKey]: a key whose own history is found illegal.  The keys are
    visited in an order Go leaves open, here the one of [l]. *)
Definition violates `{Porcupine} (timeout : Z) (kops : gostring * list Op) : bool :=
  match CheckLinearizability kops.2 timeout with Ok false => true | _ => false end.
Definition FindViolatingKey `{Porcupine} (timeout : Z) (l : list (gostring * list Op)) : option (gostring * list Op) :=
  snd <$> list_find (λ kops, violates timeout kops = true) l.
Definition ops_by_key (ops : list Op) : gmap gostring (list Op) := group_by OpKey ops.

(** ** Grouping *)

Lemma group_by_lookup {A} (key : A → gostring) l k :
  group_by key l !! k = let f := filter (λ x, key x = k) l in if decide (f = []) then None else Some f.
Proof.
  unfold group_by. cbv zeta. induction l as [|x l IH] using rev_ind; [done|]. rewrite foldl_snoc, filter_app.
  set (m := foldl _ ∅ l) in *. destruct (decide (key x = k)) as [Hk|Hk].
  - subst k. rewrite lookup_insert_eq. rewrite filter_cons_True, filter_nil by done. rewrite decide_False by (by intros [_ ?]%app_eq_nil).
    rewrite IH. case_decide as Hf; [by rewrite Hf|done].
  - by rewrite lookup_insert_ne, filter_cons_False, filter_nil, app_nil_r.
Qed.

Lemma group_by_Some {A} (key : A → gostring) l k f :
  group_by key l !! k = Some f ↔ f = filter (λ x, key x = k) l ∧ f ≠ [].
Proof. rewrite group_by_lookup. cbv zeta. case_decide; naive_solver. Qed.

(** The part of a history on one key. *)
Definition on_key (k : gostring) (h : list Operation) : list Operation := filter (λ op, in_Key (Input op) = k) h.

Lemma kvPartition_parts h (P : list Operation → Prop) :
  Forall P (kvPartition h) ↔ ∀ k, on_key k h ≠ [] → P (on_key k h).
Proof.
  unfold kvPartition. rewrite Forall_fmap, Forall_forall. split.
  - intros HP k Hk. apply (HP (k, on_key k h)), elem_of_map_to_list, group_by_Some. done.
  - intros HP [k f] [-> Hf]%elem_of_map_to_list%group_by_Some. by apply HP.
Qed.

Lemma linearizable_nil : linearizable [].
Proof. exists []. split_and!; [done|done|constructor]. Qed.

(** ** What the conversion keeps *)

Definition kept (op : Op) : bool := negb (Unknown op) || bool_decide (Kind op = "put"%string).
Definition kept_on (k : gostring) (op : Op) : Prop := kept op = true ∧ OpKey op = k.
#[export] Instance kept_on_dec k op : Decision (kept_on k op).
Proof. unfold kept_on. apply _. Defined.
Definition known_kind (op : Op) : Prop := Kind op = "put"%string ∨ Kind op = "get"%string ∨ Kind op = "delete"%string.

(** The operation an op becomes. *)
Definition operation (op : Op) : Operation :=
  mkOperation (Client op)
    (mkIn (Kind op) (OpKey op) (if bool_decide (Kind op = "put"%string) then OpValue op else []))
    (Invoke op)
    (if bool_decide (Kind op = "get"%string) then mkOut (Found op) (Output op) else mkOut false [])
    (if Unknown op then MaxInt64 else Return_ op).

(** Decides the comparisons of known kinds. *)
Ltac kinds :=
  repeat match goal with
  | |- context [@bool_decide (@eq string ?a ?b) ?d] =>
      let v := eval vm_compute in (@bool_decide (@eq string a b) d) in change (@bool_decide (@eq string a b) d) with v
  | H : context [@bool_decide (@eq string ?a ?b) ?d] |- _ =>
      let v := eval vm_compute in (@bool_decide (@eq string a b) d) in change (@bool_decide (@eq string a b) d) with v in H
  end.

Lemma convert_spec op :
  known_kind op → convert op = Ok (if kept op then Some (operation op) else None).
Proof.
  intros Hk. unfold convert, kept, operation. destruct (Unknown op), Hk as [Hk|[Hk|Hk]]; by rewrite Hk.
Qed.

Lemma convert_all_spec ops :
  Forall known_kind ops → convert_all ops = Ok (operation <$> filter (λ op, kept op = true) ops).
Proof.
  induction 1 as [|op ops Hk _ IH]; [done|]. cbn [convert_all]. rewrite (convert_spec op Hk), IH. cbn [mbind outcome_bind].
  destruct (kept op) eqn:E; [by rewrite filter_cons_True|by rewrite filter_cons_False by congruence].
Qed.

Lemma convert_all_known ops h : convert_all ops = Ok h → Forall (λ op, kept op = true → known_kind op) ops.
Proof.
  revert h. induction ops as [|op ops IH]; intros h; [constructor|]. cbn [convert_all].
  destruct (convert op) as [p|e| |] eqn:E; [|done..]. destruct (convert_all ops) as [l|e| |]; [|done..]. intros _.
  constructor; [|by eapply IH]. intros Hk. unfold convert, kept, known_kind in *.
  destruct (Unknown op); cbn in E, Hk; repeat case_bool_decide; naive_solver.
Qed.

(** ** No false alarms *)

(** The store, as one map: what an op does, and what a get must have seen. *)
Definition effect (m : gmap gostring gostring) (op : Op) : gmap gostring gostring :=
  if bool_decide (Kind op = "put"%string) then <[OpKey op := OpValue op]> m else
  if bool_decide (Kind op = "delete"%string) then delete (OpKey op) m else m.

Definition observed (m : gmap gostring gostring) (op : Op) : Prop :=
  Kind op = "get"%string → Unknown op = false →
  match m !! OpKey op with
  | Some v => Found op = true ∧ Output op = v
  | None => Found op = false
  end.

Fixpoint replay (m : gmap gostring gostring) (l : list Op) : Prop :=
  match l with
  | [] => True
  | op :: l' => observed m op ∧ replay (effect m op) l'
  end.

(** [ops] is what clients may record of an atomic store: the ops of [sched] took
    effect, each at the moment it is listed with, inside its window (an op that
    timed out, at any moment after its start); the ops of [never], all timed out,
    did not. *)
Record recorded (ops : list Op) (sched : list (Op * Z)) (never : list Op) : Prop := {
  rec_all : ops ≡ₚ sched.*1 ++ never;
  rec_order : StronglySorted (λ a b, a.2 ≤ b.2) sched;
  rec_window op t : (op, t) ∈ sched → Invoke op ≤ t ∧ (Unknown op = false → t ≤ Return_ op);
  rec_never op : op ∈ never → Unknown op = true;
  rec_replay : replay ∅ sched.*1;
  rec_int64 op : op ∈ ops → Invoke op ≤ MaxInt64
}.

(** The register of key [k] follows the map. *)
Definition register (m : gmap gostring gostring) (k : gostring) : kvOutput :=
  match m !! k with Some v => mkOut true v | None => mkOut false [] end.

Lemma legal_app st l1 l2 : legal st (l1 ++ l2) = true → legal st l1 = true.
Proof.
  revert st. induction l1 as [|op l1 IH]; intros st; [done|]. cbn. destruct (kvStep _ _ _) as [ok st'].
  intros [-> ?]%andb_true_iff. cbn. by eapply IH.
Qed.

(** Writes are always accepted. *)
Lemma legal_puts l : Forall (λ op, in_Kind (Input op) = "put"%string) l → ∀ st, legal st l = true.
Proof. induction 1 as [|op l Hk _ IH]; intros st; [done|]. cbn. unfold kvStep. rewrite Hk. cbn. apply IH. Qed.

Lemma legal_replay k m l tail :
  Forall known_kind l → Forall (λ op, Unknown op = true → Kind op ≠ "delete"%string) l → replay m l →
  Forall (λ op, in_Kind (Input op) = "put"%string) tail →
  legal (register m k) ((operation <$> filter (kept_on k) l) ++ tail) = true.
Proof.
  intros Hk Hd Hr Ht. revert m Hr. induction Hk as [|op l Hop _ IH]; intros m Hr; [by apply legal_puts|].
  destruct Hr as [Hobs Hr]. apply Forall_cons in Hd as [Hdel Hd]. specialize (IH Hd _ Hr).
  assert (OpKey op ≠ k ∨ kept op = false → register (effect m op) k = register m k) as Hsame.
  { unfold register, effect. intros [Hne|Hkept].
    - destruct (bool_decide _); [by rewrite lookup_insert_ne|]. destruct (bool_decide _); [by rewrite lookup_delete_ne|done].
    - unfold kept in Hkept. apply orb_false_iff in Hkept as [Hu Hp]. rewrite Hp. apply negb_false_iff in Hu.
      by rewrite bool_decide_false by auto. }
  destruct (decide (kept_on k op)) as [[Hkept <-]|Hno].
  - rewrite filter_cons_True by done. cbn [fmap list_fmap app legal].
    assert (kvStep (register m (OpKey op)) (Input (operation op)) (POutput (operation op)) =
      (true, register (effect m op) (OpKey op))) as ->; [|done].
    unfold kvStep, operation, effect, register, observed in *. cbn. destruct Hop as [Hop|[Hop|Hop]]; rewrite Hop in *; kinds; cbn.
    + by rewrite lookup_insert_eq.
    + unfold kept in Hkept. rewrite Hop in Hkept. kinds. rewrite orb_false_r in Hkept. apply negb_true_iff in Hkept.
      specialize (Hobs eq_refl Hkept). destruct (m !! OpKey op) as [v|]; cbn.
      * destruct Hobs as [-> ->]. cbn. by rewrite bool_decide_true.
      * by rewrite Hobs.
    + by rewrite lookup_delete_eq.
  - rewrite filter_cons_False by done. rewrite <-Hsame; [done|]. destruct (kept op) eqn:E; [left|by right]. intros Hk. by apply Hno.
Qed.

Lemma on_key_operations k ops :
  on_key k (operation <$> filter (λ op, kept op = true) ops) =
  operation <$> filter (kept_on k) ops.
Proof.
  unfold on_key. induction ops as [|op ops IH]; [done|]. destruct (kept op) eqn:E.
  - rewrite (filter_cons_True _ op) by done. cbn [fmap list_fmap]. destruct (decide (OpKey op = k)) as [Hk|Hk].
    + rewrite !filter_cons_True by done. cbn [fmap list_fmap]. f_equal. exact IH.
    + rewrite filter_cons_False, (filter_cons_False (kept_on k)) by (done || by intros []). exact IH.
  - rewrite (filter_cons_False _ op), (filter_cons_False (kept_on k) op) by (congruence || (intros [? _]; congruence)). exact IH.
Qed.

Lemma sched_sorted P `{!∀ op, Decision (P op)} sched :
  StronglySorted (λ a b : Op * Z, a.2 ≤ b.2) sched →
  (∀ op t, (op, t) ∈ sched → Invoke op ≤ t ∧ (Unknown op = false → t ≤ Return_ op)) →
  (∀ op t, (op, t) ∈ sched → Invoke op ≤ MaxInt64) →
  StronglySorted may_precede (operation <$> filter P sched.*1).
Proof.
  induction 1 as [|[a t] sched Hs IH Ha]; intros Hw Hm; [constructor|]. cbn [fmap list_fmap fst].
  assert (StronglySorted may_precede (operation <$> filter P sched.*1)) as Hrest.
  { apply IH; intros op u Hin; [apply Hw|eapply Hm]; by right. }
  destruct (decide (P a)) as [HP|HP]; [|by rewrite filter_cons_False]. rewrite filter_cons_True by done.
  constructor; [done|]. apply Forall_fmap, Forall_forall.
  intros b [_ Hb]%list_elem_of_filter. apply list_elem_of_fmap in Hb as ([b' u] & -> & Hb).
  rewrite Forall_forall in Ha. pose proof (Ha _ Hb) as Hle. cbn in Hle. unfold may_precede. cbn.
  destruct (Hw a t) as [Hat _]; [by left|]. destruct (Hw b' u) as [_ Hbu]; [by right|].
  pose proof (Hm a t ltac:(by left)) as Hmax. destruct (Unknown b'); [done|]. specialize (Hbu eq_refl). lia.
Qed.

Lemma recorded_linearizable ops sched never k :
  recorded ops sched never → Forall known_kind ops →
  Forall (λ op, Unknown op = true → Kind op ≠ "delete"%string) ops →
  linearizable (on_key k (operation <$> filter (λ op, kept op = true) ops)).
Proof.
  intros [Hall Hord Hwin Hnev Hrep Hmax] Hk Hd. rewrite on_key_operations.
  rewrite Hall in Hk, Hd. apply Forall_app in Hk as [Hk Hkn]. apply Forall_app in Hd as [Hd _].
  assert (∀ op t, (op, t) ∈ sched → Invoke op ≤ MaxInt64) as Hm.
  { intros op t Hin. apply Hmax. rewrite Hall. apply elem_of_app. left. apply list_elem_of_fmap. by exists (op, t). }
  assert (∀ op, op ∈ filter (kept_on k) never → in_Kind (Input (operation op)) = "put"%string ∧ Unknown op = true) as Htail.
  { intros op [[Hkept _] Hin]%list_elem_of_filter. pose proof (Hnev op Hin) as Hu. split; [|done].
    unfold kept in Hkept. rewrite Hu in Hkept. cbn in Hkept. by apply bool_decide_eq_true in Hkept. }
  exists ((operation <$> filter (kept_on k) sched.*1) ++ (operation <$> filter (kept_on k) never)). split_and!.
  - rewrite <-fmap_app, <-filter_app. apply fmap_Permutation. by rewrite Hall.
  - replace kvInit with (register ∅ k) by (unfold register; by rewrite lookup_empty).
    apply (legal_replay k ∅); [done..|]. apply Forall_fmap, Forall_forall. intros op Hop. by apply Htail.
  - apply StronglySorted_app_2; [|by apply sched_sorted|].
    + intros a b [op [-> Hop]]%list_elem_of_fmap [op' [-> Hop']]%list_elem_of_fmap.
      destruct (Htail op' Hop') as [_ Hu]. unfold may_precede. cbn. rewrite Hu.
      apply list_elem_of_filter in Hop as [_ [[x t] [-> Hin]]%list_elem_of_fmap]. by eapply Hm.
    + assert (∀ op, op ∈ never → Invoke op ≤ MaxInt64) as Hmn.
      { intros op Hin. apply Hmax. rewrite Hall. apply elem_of_app. by right. }
      clear -Htail Hmn. induction never as [|op l IH]; [constructor|].
      assert (StronglySorted may_precede (operation <$> filter (kept_on k) l)) as Hl.
      { apply IH; [|intros op' Hop'; apply Hmn; by right]. intros op' [HP Hop']%list_elem_of_filter. apply Htail.
        apply list_elem_of_filter. split; [done|by right]. }
      destruct (decide (kept_on k op)) as [HP|HP]; [|by rewrite filter_cons_False]. rewrite filter_cons_True by done.
      constructor; [done|]. apply Forall_fmap, Forall_forall. intros b Hb. unfold may_precede. cbn.
      destruct (Htail b) as [_ ->]; [|apply Hmn; by left]. rewrite filter_cons_True by done. by right.
Qed.

(** C25: No false alarms without timed-out deletes.  Whatever history clients
    record of a store that executes each operation atomically inside its window
    (each timed-out put at some later moment or never), the verdict is never
    "violation", for every key and every number of clients. *)
Theorem checker_no_false_alarm `{Porcupine} ops sched never timeout :
  recorded ops sched never → Forall known_kind ops →
  Forall (λ op, Unknown op = true → Kind op ≠ "delete"%string) ops →
  CheckLinearizability ops timeout ≠ Ok false.
Proof.
  intros Hr Hk Hd. unfold CheckLinearizability. rewrite convert_all_spec by done. cbn [mbind outcome_bind].
  destruct (CheckOperations _ _) eqn:E; [done| |done]. exfalso. apply check_illegal in E. apply E.
  apply kvPartition_parts. intros k _. by apply (recorded_linearizable ops sched never).
Qed.

(** The history of a register: a put is acknowledged, a delete times out but
    takes effect, and a get then finds nothing. *)
Definition lost_delete : list Op :=
  [mkOp 1 "put" (str "k") (str "v") false [] true false 0 1;
   mkOp 1 "delete" (str "k") [] false [] false true 2 3;
   mkOp 1 "get" (str "k") [] false [] true false 4 5].

Lemma lost_delete_recorded :
  recorded lost_delete (zip lost_delete [0; 2; 4]) [].
Proof.
  constructor.
  - done.
  - repeat constructor; cbn; lia.
  - intros op t Hin. cbn in Hin. rewrite !elem_of_cons, elem_of_nil in Hin.
    destruct Hin as [[= -> ->]|[[= -> ->]|[[= -> ->]|[]]]]; cbn; lia.
  - by intros op []%elem_of_nil.
  - by vm_compute.
  - intros op Hin. unfold lost_delete in Hin. rewrite !elem_of_cons, elem_of_nil in Hin. unfold MaxInt64.
    destruct Hin as [-> | [-> | [-> | []]]]; cbn; lia.
Qed.

(** The put and the get alone are not linearizable. *)
Lemma lost_delete_illegal :
  ¬ linearizable (operation <$> filter (λ op, kept op = true) lost_delete).
Proof.
  set (p := operation (mkOp 1 "put" (str "k") (str "v") false [] true false 0 1)).
  set (g := operation (mkOp 1 "get" (str "k") [] false [] true false 4 5)).
  change (operation <$> filter (λ op, kept op = true) lost_delete) with [p; g].
  intros (l & Hp & Hl & Hs). symmetry in Hp. apply Permutation_length_2_inv in Hp as [-> | ->]; [done|].
  apply StronglySorted_inv in Hs as [_ Hs]. apply Forall_cons in Hs as [Hs _]. unfold may_precede in Hs. cbn in Hs. lia.
Qed.

(** C36: With a timed-out delete there are false alarms.  The checker drops a
    delete that timed out as constraining nothing; when it did take effect, the
    history above, which an atomic store produced, is reported as a violation by
    every search that answers. *)
Theorem unknown_delete_false_alarm :
  recorded lost_delete (zip lost_delete [0; 2; 4]) [] ∧
  ∀ (P : Porcupine) timeout,
    CheckOperations (operation <$> filter (λ op, kept op = true) lost_delete) timeout ≠ PTimeout →
    CheckLinearizability lost_delete timeout = Ok false.
Proof.
  split; [apply lost_delete_recorded|]. intros P timeout Ht. unfold CheckLinearizability.
  rewrite convert_all_spec by (repeat constructor; unfold known_kind; cbn; auto). cbn [mbind outcome_bind].
  destruct (CheckOperations _ timeout) eqn:E; [|done|done]. exfalso. apply check_ok in E.
  rewrite kvPartition_parts in E. specialize (E (str "k")). by apply lost_delete_illegal, E.
Qed.

(** ** The evidence *)

Lemma convert_all_filter k ops h :
  convert_all ops = Ok h → convert_all (filter (λ op, OpKey op = k) ops) = Ok (on_key k h).
Proof.
  revert h. induction ops as [|op ops IH]; intros h Hh; [by injection Hh as <-|]. cbn [convert_all] in Hh.
  destruct (convert op) as [p|e| |] eqn:E; [|done..]. destruct (convert_all ops) as [l|e| |]; [|done..].
  injection Hh as <-. specialize (IH l eq_refl). unfold on_key in *. rewrite filter_app.
  assert (∀ x, p = Some x → in_Key (Input x) = OpKey op) as Hx.
  { intros x ->. unfold convert in E. destruct (_ && _); [done|]. repeat (destruct (bool_decide _); [by injection E as <-|]). done. }
  destruct (decide (OpKey op = k)) as [Hk|Hk].
  - rewrite filter_cons_True by done. cbn [convert_all]. rewrite E, IH. cbn [mbind outcome_bind]. f_equal. f_equal.
    destruct p as [x|]; [|done]. change (option_list (Some x)) with [x]. by rewrite filter_cons_True by (rewrite (Hx x eq_refl); done).
  - rewrite filter_cons_False by done. rewrite IH. f_equal. destruct p as [x|]; [|done]. change (option_list (Some x)) with [x].
    by rewrite filter_cons_False by (rewrite (Hx x eq_refl); done).
Qed.

Lemma on_key_twice k h : on_key k (on_key k h) = on_key k h.
Proof. unfold on_key. induction h as [|x h IH]; [done|]. rewrite !filter_cons. destruct (decide _) eqn:E; [|done]. by rewrite filter_cons, E, IH. Qed.

Lemma on_key_other k k' h : k' ≠ k → on_key k' (on_key k h) = [].
Proof.
  intros Hd. unfold on_key. induction h as [|x h IH]; [done|]. rewrite (filter_cons _ x h).
  destruct (decide _) as [Hx|]; [|done]. by rewrite filter_cons_False by congruence.
Qed.

(** A search that answers decides a part. *)
Lemma part_dec `{Porcupine} timeout k h :
  CheckOperations (on_key k h) timeout ≠ PTimeout →
  {CheckOperations (on_key k h) timeout = POk ∧ linearizable (on_key k h)} +
  {CheckOperations (on_key k h) timeout = PIllegal ∧ ¬ linearizable (on_key k h)}.
Proof.
  intros Ht. destruct (CheckOperations (on_key k h) timeout) eqn:E; [left|right|done]; (split; [done|]).
  - apply check_ok in E. rewrite kvPartition_parts in E. specialize (E k). rewrite on_key_twice in E.
    destruct (on_key k h); [apply linearizable_nil|by apply E].
  - intros Hlin. apply check_illegal in E. apply E, kvPartition_parts. intros k' Hk'.
    destruct (decide (k' = k)) as [->|Hd]; [by rewrite on_key_twice|]. by destruct Hk', (on_key_other k k' h).
Qed.

Lemma violating_part `{Porcupine} timeout h :
  (∀ h, CheckOperations h timeout ≠ PTimeout) → CheckOperations h timeout = PIllegal →
  ∃ k, on_key k h ≠ [] ∧ CheckOperations (on_key k h) timeout = PIllegal.
Proof.
  intros Ht E. apply check_illegal in E.
  destruct (Forall_Exists_dec _ _ (λ k, part_dec timeout k h (Ht _)) ((λ op, in_Key (Input op)) <$> h)) as [Hf|Hx].
  - destruct E. apply kvPartition_parts. intros k Hk. destruct (on_key k h) as [|x t] eqn:Ek; [done|]. rewrite <-Ek.
    rewrite Forall_forall in Hf. apply Hf. assert (x ∈ on_key k h) as Hx by (rewrite Ek; by left). unfold on_key in Hx.
    apply list_elem_of_filter in Hx as [<- Hx]. by apply (list_elem_of_fmap_2 (λ op, in_Key (Input op))).
  - apply Exists_exists in Hx as (k & _ & Hk & Hl). exists k. split; [|done]. intros Hn. rewrite Hn in Hl.
    by apply Hl, linearizable_nil.
Qed.

(** C26: A violation has evidence.  When the check of a whole history says
    "violation" and no search times out, [FindViolatingKey] returns a key, in
    whatever order it visits them, together with exactly the operations on that
    key, and these alone are a violation. *)
Theorem FindViolatingKey_finds `{Porcupine} ops timeout l :
  (∀ h, CheckOperations h timeout ≠ PTimeout) →
  CheckLinearizability ops timeout = Ok false → l ≡ₚ map_to_list (ops_by_key ops) →
  ∃ key kops, FindViolatingKey timeout l = Some (key, kops) ∧
    kops = filter (λ op, OpKey op = key) ops ∧ CheckLinearizability kops timeout = Ok false.
Proof.
  intros Hnt Hv Hl. unfold CheckLinearizability in Hv. destruct (convert_all ops) as [h|e| |] eqn:Eh; [|done..].
  cbn [mbind outcome_bind] in Hv. destruct (CheckOperations h timeout) eqn:E; [done| |done].
  destruct (violating_part timeout h Hnt E) as (k & Hne & Hk).
  assert (∀ x, x ∈ l ↔ x.2 = filter (λ op, OpKey op = x.1) ops ∧ x.2 ≠ []) as Hin.
  { intros [k' f]. rewrite Hl, elem_of_map_to_list. apply group_by_Some. }
  assert (violates timeout (k, filter (λ op, OpKey op = k) ops) = true) as Hvk.
  { unfold violates, CheckLinearizability. cbn. rewrite (convert_all_filter k ops h Eh). cbn. by rewrite Hk. }
  assert (filter (λ op, OpKey op = k) ops ≠ []) as Hne'.
  { intros Hf. pose proof (convert_all_filter k ops h Eh) as Hc. rewrite Hf in Hc. injection Hc as Hc. by apply Hne. }
  unfold FindViolatingKey. destruct (list_find _ l) as [[i [key kops]]|] eqn:Ef.
  - apply list_find_Some in Ef as (Hi & Hviol & _). apply list_elem_of_lookup_2, Hin in Hi as [Hkops _]. cbn in Hkops.
    exists key, kops. split_and!; [done|done|]. unfold violates in Hviol. cbn [snd] in Hviol.
    destruct (CheckLinearizability kops timeout) as [[]|e| |]; done.
  - apply list_find_None in Ef. rewrite Forall_forall in Ef. exfalso. apply (Ef (k, filter (λ op, OpKey op = k) ops)); [by apply Hin|done].
Qed.

(** ** A search *)

#[export] Instance may_precede_dec a b : Decision (may_precede a b).
Proof. unfold may_precede. apply _. Defined.
#[export] Instance linearizable_dec h : Decision (linearizable h).
Proof.
  refine (cast_if (decide (Exists (λ l, legal kvInit l = true ∧ StronglySorted may_precede l) (permutations h)))).
  - abstract (apply Exists_exists in e as (l & Hl & ?); exists l; split; [by symmetry; apply permutations_Permutation|done]).
  - abstract (intros (l & Hp & ?); apply n, Exists_exists; exists l; split; [by apply permutations_Permutation|done]).
Defined.

(** One that tries every order. *)
Definition try_all (h : list Operation) (timeout : Z) : CheckResult :=
  if decide (Forall linearizable (kvPartition h)) then POk else PIllegal.
Lemma try_all_ok h timeout : try_all h timeout = POk → Forall linearizable (kvPartition h).
Proof. unfold try_all. by destruct (decide _). Qed.
Lemma try_all_illegal h timeout : try_all h timeout = PIllegal → ¬ Forall linearizable (kvPartition h).
Proof. unfold try_all. by destruct (decide _). Qed.
#[export] Instance exhaustive : Porcupine | 100 :=
  {| CheckOperations := try_all; check_ok := try_all_ok; check_illegal := try_all_illegal |}.

Definition fair_history : list Op :=
  [mkOp 1 "put" (str "k") (str "v") false [] true false 0 3; mkOp 2 "get" (str "k") [] false [] true false 1 2;
   mkOp 2 "put" (str "k") (str "w") false [] false true 4 5; mkOp 3 "get" (str "k") [] true (str "w") true false 6 7].

Lemma checker_no_false_alarm_witness : CheckLinearizability fair_history 0 ≠ Ok false.
Proof.
  apply (checker_no_false_alarm fair_history
    [(mkOp 2 "get" (str "k") [] false [] true false 1 2, 1); (mkOp 1 "put" (str "k") (str "v") false [] true false 0 3, 2);
     (mkOp 2 "put" (str "k") (str "w") false [] false true 4 5, 6);
     (mkOp 3 "get" (str "k") [] true (str "w") true false 6 7, 7)] []).
  - constructor.
    + cbn. apply Permutation_swap.
    + repeat constructor; cbn; lia.
    + intros op t Hin. rewrite !elem_of_cons, elem_of_nil in Hin.
      destruct Hin as [[= -> ->]|[[= -> ->]|[[= -> ->]|[[= -> ->]|[]]]]]; cbn; split; (done || lia).
    + by intros op []%elem_of_nil.
    + by vm_compute.
    + intros op Hin. unfold fair_history in Hin. rewrite !elem_of_cons, elem_of_nil in Hin. unfold MaxInt64.
      destruct Hin as [->|[-> | [-> | [-> | []]]]]; cbn; lia.
  - repeat (apply Forall_cons_2; [unfold known_kind; cbn; tauto|]). apply Forall_nil_2.
  - repeat (apply Forall_cons_2; [done|]). apply Forall_nil_2.
Defined.

Lemma FindViolatingKey_finds_witness :
  ∃ key kops, FindViolatingKey 0 (map_to_list (ops_by_key lost_delete)) = Some (key, kops) ∧
    kops = filter (λ op, OpKey op = key) lost_delete ∧ CheckLinearizability kops 0 = Ok false.
Proof.
  apply (FindViolatingKey_finds lost_delete 0 (map_to_list (ops_by_key lost_delete))).
  - intros h. change (try_all h 0 ≠ PTimeout). unfold try_all. by destruct (decide _).
  - by vm_compute.
  - done.
Defined.

Lemma unknown_delete_false_alarm_witness : CheckLinearizability lost_delete 0 = Ok false.
Proof. apply (proj2 unknown_delete_false_alarm exhaustive 0). change (try_all (operation <$> filter (λ op, kept op = true) lost_delete) 0 ≠ PTimeout). by vm_compute. Defined.
