(* ===== verification/Nemesis.v ===== *)
(** * internal/nemesis: the recorder, the fault-injecting network and the workload

    history.go's strictly monotonic clock, proxy.go's directed edges, and
    workload.go's operations and bookkeeping of what each key may legally hold.  The
    goroutines behind an edge are in Proxy, the clients in Storm, the file of a
    history in HistoryFile. *)

From stdpp Require Import prelude gmap strings sorting.
From coqutil Require Import Byte.
From S2P Require Import Prelude GoRuntime GoBytes GoStrings GoText MemStore Command.
From S2P Require Import RaftTypes Membership Core Node KvStateMachine Checker.
Open Scope Z_scope.

(** ** history.go *)
Module History.

(** One pass of [Now]'s loop: what it would stamp, in the [int64] of the source. *)
Definition stamp (clock last : Z) : Z := if clock <=? last then i64 (last + 1) else clock.

(** Callers between their load and their compare-and-swap, and the stamps given
    out, newest first. *)
Record recorder := mkRec { last_stamp : Z; pending : gmap nat (Z * Z); stamps : list Z }.

Definition NewRecorder : recorder := mkRec 0 ∅ [].

Section clock.
(** The latest time the system clock ever shows, in nanoseconds since the start. *)
Context (latest : Z).

Inductive rstep (r : recorder) : recorder → Prop :=
  | r_load t clock :
      pending r !! t = None → - 2 ^ 63 ≤ clock ≤ latest →
      rstep r (mkRec (last_stamp r) (<[t := (last_stamp r, stamp clock (last_stamp r))]> (pending r)) (stamps r))
  | r_cas t l now :
      pending r !! t = Some (l, now) → last_stamp r = l →
      rstep r (mkRec now (delete t (pending r)) (now :: stamps r))
  | r_cas_fails t l now :
      pending r !! t = Some (l, now) → last_stamp r ≠ l →
      rstep r (mkRec (last_stamp r) (delete t (pending r)) (stamps r)).

(** Every stamp is at most as many past the clock as there are stamps. *)
Definition in_order (r : recorder) : Prop :=
  latest + zlength (stamps r) < 2 ^ 63 →
  StronglySorted Z.gt (stamps r) ∧ Forall (λ s, s ≤ last_stamp r) (stamps r) ∧ 0 ≤ last_stamp r ≤ latest + zlength (stamps r).

Definition loaded (r : recorder) : Prop := map_Forall (λ _ p, ∃ clock, clock ≤ latest ∧ p.2 = stamp clock p.1) (pending r).

Lemma rstep_in_order r r' : 0 ≤ latest → rstep r r' → in_order r ∧ loaded r → in_order r' ∧ loaded r'.
Proof.
  intros Hpos Hs [Ho Hl]. destruct Hs as [t clock Ht Hc|t l now Ht E|t l now Ht E].
  - split; [exact Ho|]. apply map_Forall_insert_2; [|done]. exists clock. by split; [lia|].
  - split; [|by apply map_Forall_delete]. destruct (Hl _ _ Ht) as (clock & Hc & Hn). cbn in Hn. unfold in_order in *. cbn [stamps last_stamp].
    rewrite length_cons. intros Hb. destruct Ho as (Hst & Hle & Hr); [lia|].
    assert (last_stamp r < now ≤ latest + (zlength (stamps r) + 1)) as Hnow.
    { rewrite Hn, <-E. unfold stamp. case_match; zify_bool; [rewrite i64_small by lia|]; lia. }
    split_and!; [|constructor; [done|]| |]; [|eapply Forall_impl; [exact Hle|]; cbn; lia|lia|lia].
    constructor; [done|]. eapply Forall_impl; [exact Hle|]. cbn. lia.
  - split; [exact Ho|]. by apply map_Forall_delete.
Qed.

(** C27: The recorder's clock is strictly monotonic across goroutines: whatever the
    system clock shows, ties and steps backwards included, of any two stamps the one
    handed out later is greater.  The stamps are [int64]: the clock has to stay short
    of the end of that range (292 years from the start) by as many nanoseconds as
    stamps were given out. *)
Theorem Now_strictly_monotonic r :
  0 ≤ latest → rtc rstep NewRecorder r → latest + zlength (stamps r) < 2 ^ 63 → StronglySorted Z.gt (stamps r).
Proof.
  intros Hpos Hr Hb. cut (in_order r ∧ loaded r); [intros [Ho _]; by apply Ho|]. clear Hb.
  assert (in_order NewRecorder ∧ loaded NewRecorder) as Hi.
  { split; [|apply map_Forall_empty]. intros _. cbn. split_and!; [constructor|constructor|done|lia]. }
  induction Hr as [|r0 r1 r2 Hs _ IH]; [done|]. apply IH. by eapply rstep_in_order.
Qed.
End clock.

(** Two callers that read the clock at the same time; the second tries again. *)
Lemma Now_strictly_monotonic_witness : StronglySorted Z.gt [6; 5].
Proof.
  refine (Now_strictly_monotonic 5 (mkRec 6 ∅ [6; 5]) _ _ _); [lia| |cbn; lia].
  eapply rtc_l; [apply (r_load _ _ 0%nat 5); [done|lia]|]. eapply rtc_l; [apply (r_load _ _ 1%nat 3); [done|cbn; lia]|].
  eapply rtc_l; [apply (r_cas _ _ 0%nat 0 5); done|]. eapply rtc_l; [apply (r_cas_fails _ _ 1%nat 0 3); done|].
  eapply rtc_l; [apply (r_load _ _ 1%nat 4); [done|cbn; lia]|]. eapply rtc_l; [apply (r_cas _ _ 1%nat 5 6); done|]. apply rtc_refl.
Defined.
End History.

(** ** proxy.go *)
Module Net.

(** [Proxy]: one directed edge; a connection is its number. *)
Record Proxy := mkProxy { dropped : bool; delay : Z; live : gset nat; closed : bool }.

Definition newProxy : Proxy := mkProxy false 0 ∅ false.

(** Registering a connection, in [acceptLoop] and [forward]: refused on a cut
    edge. *)
Definition track (c : nat) (p : Proxy) : Proxy :=
  if dropped p || closed p then p else mkProxy (dropped p) (delay p) ({[c]} ∪ live p) (closed p).
Definition untrack (c : nat) (p : Proxy) : Proxy := mkProxy (dropped p) (delay p) (live p ∖ {[c]}) (closed p).
Definition setDropped (v : bool) (p : Proxy) : Proxy :=
  mkProxy v (delay p) (if v then ∅ else live p) (closed p).
Definition setDelay (d : Z) (p : Proxy) : Proxy := mkProxy (dropped p) d (live p) (closed p).
(** [close]: the two critical sections. *)
Definition close_mark (p : Proxy) : Proxy := mkProxy (dropped p) (delay p) (live p) true.
Definition close (p : Proxy) : Proxy := setDropped true (close_mark p).

Abbreviation Net := (gmap (Z * Z) Proxy).

(** The edges of a full mesh. *)
Definition mesh_edges (ids : gset Z) : list (Z * Z) := filter (λ e, e.1 ≠ e.2) (list_prod (elements ids) (elements ids)).
Definition mesh (ids : gset Z) : Net := list_to_map ((λ e, (e, newProxy)) <$> mesh_edges ids).

(** [NewNet]: [listen] is the error of [net.Listen] for an edge.  At the first one
    that does not open, the edges made before it are closed. *)
Fixpoint listen_all (listen : Z * Z → option error) (es : list (Z * Z)) : option error :=
  match es with
  | [] => None
  | e :: es' => match listen e with Some err => Some err | None => listen_all listen es' end
  end.
Definition NewNet (listen : Z * Z → option error) (ids : gset Z) : outcome Net :=
  match listen_all listen (mesh_edges ids) with Some err => Err err | None => Ok (mesh ids) end.

(** [Addr] of an edge is the address its listener got. *)
Definition PeerAddr (Addr : Z * Z → gostring) (from to : Z) (n : Net) : outcome gostring :=
  match n !! (from, to) with Some _ => Ok (Addr (from, to)) | None => Panic end.
(** [ProxyOwner]: the first edge, in the order the map is visited, with that address. *)
Definition ProxyOwner `{GoRuntime} (Addr : Z * Z → gostring) (k : nat) (addr : gostring) (n : Net) : option Z :=
  match list_find (λ e, Addr e = addr) (map_order k (map_to_list n).*1) with
  | Some (_, e) => Some e.2
  | None => None
  end.

Definition edge (from to : Z) (n : Net) : outcome Proxy :=
  match n !! (from, to) with Some p => Ok p | None => Panic end.
Definition on_edge (from to : Z) (f : Proxy → Proxy) (n : Net) : outcome Net :=
  p ← edge from to n; mret (<[(from, to) := f p]> n).
Definition Blackhole (from to : Z) (n : Net) : outcome Net := on_edge from to (setDropped true) n.
Definition HealEdge (from to : Z) (n : Net) : outcome Net := on_edge from to (setDropped false) n.

(** [side[id] = i] for the ids of group [i]; an id of no group reads 0. *)
Fixpoint sides (i : Z) (groups : list (list Z)) (m : gmap Z Z) : gmap Z Z :=
  match groups with
  | [] => m
  | g :: gs => sides (i + 1) gs (foldl (λ m id, <[id := i]> m) m g)
  end.
Definition side (groups : list (list Z)) (id : Z) : Z := default 0 (sides 0 groups ∅ !! id).

Definition Partition (groups : list (list Z)) (n : Net) : Net :=
  map_imap (λ e p, Some (setDropped (negb (side groups e.1 =? side groups e.2)) p)) n.
Definition Heal (n : Net) : Net := (λ p, setDelay 0 (setDropped false p)) <$> n.
Definition DelayAll (d : Z) (n : Net) : Net := setDelay d <$> n.
Definition CloseNet (n : Net) : Net := close <$> n.

(** Operations of the harness and of the goroutines behind the edges. *)
Inductive pstep (p : Proxy) : Proxy → Prop :=
  | p_track c : pstep p (track c p)
  | p_untrack c : pstep p (untrack c p)
  | p_drop v : pstep p (setDropped v p)
  | p_delay d : pstep p (setDelay d p)
  | p_close : pstep p (close_mark p).

(** No connection is registered on a cut edge: cutting drops the live ones and new
    ones are refused. *)
Lemma cut_edge_empty p p' : pstep p p' → (dropped p = true → live p = ∅) → dropped p' = true → live p' = ∅.
Proof.
  intros Hs H0. destruct Hs as [c|c|v|d|]; cbn; try done.
  - unfold track. destruct (dropped p || closed p) eqn:E; [done|]. apply orb_false_iff in E as [E _]. cbn. by rewrite E.
  - intros Hd. rewrite H0 by done. set_solver.
  - by intros ->.
Qed.

Lemma sides_spec groups i m id :
  (∀ j g, groups !! j = Some g → id ∈ g → ∀ j' g', groups !! j' = Some g' → id ∈ g' → j = j') →
  sides i groups m !! id =
    match list_find (λ g, id ∈ g) groups with Some (j, _) => Some (i + Z.of_nat j) | None => m !! id end.
Proof.
  revert i m. induction groups as [|g gs IH]; intros i m Hu; [done|]. cbn [sides].
  assert (∀ (l : list Z) (m : gmap Z Z), foldl (λ m x, <[x := i]> m) m l !! id = if decide (id ∈ l) then Some i else m !! id) as Hf.
  { intros l. induction l as [|x l IHl]; intros m'; [done|]. cbn. rewrite IHl. destruct (decide (id ∈ l)) as [Hin|Hin].
    - rewrite decide_True; [done|by right].
    - destruct (decide (x = id)) as [->|Hne]; [rewrite lookup_insert_eq, decide_True; [done|by left]|].
      rewrite lookup_insert_ne, decide_False by (done || set_solver). done. }
  rewrite IH by (intros j g1 Hj Hg1 j' g2 Hj' Hg2; pose proof (Hu (S j) g1 Hj Hg1 (S j') g2 Hj' Hg2); lia).
  cbn [list_find]. rewrite Hf. destruct (decide (id ∈ g)) as [Hin|Hin].
  - destruct (list_find _ gs) as [[j g']|] eqn:E; [|by rewrite Z.add_0_r].
    apply list_find_Some in E as (Hj & Hg & _). assert (0%nat = S j); [|done]. by eapply (Hu 0%nat g eq_refl Hin (S j) g').
  - destruct (list_find _ gs) as [[j g']|] eqn:E; cbn; [f_equal; lia|done].
Qed.

(** [Partition] cuts exactly the edges between groups.  With every node in one
    group, the edge between two nodes is cut when their groups differ and restored
    when they are the same, in both directions. *)
Theorem Partition_cuts groups n from to p i j gi gj :
  (∀ id k g k' g', groups !! k = Some g → id ∈ g → groups !! k' = Some g' → id ∈ g' → k = k') →
  n !! (from, to) = Some p → groups !! i = Some gi → from ∈ gi → groups !! j = Some gj → to ∈ gj →
  dropped <$> Partition groups n !! (from, to) = Some (bool_decide (i ≠ j)).
Proof.
  intros Hu Hp Hi Hgi Hj Hgj.
  assert (∀ id k g, groups !! k = Some g → id ∈ g → side groups id = Z.of_nat k) as Hs.
  { intros id k g Hk Hin. unfold side. rewrite sides_spec by (intros; by eapply (Hu id)).
    destruct (list_find (λ g, id ∈ g) groups) as [[k' g']|] eqn:E.
    - apply list_find_Some in E as (Hk' & Hin' & _). cbn. by rewrite (Hu id k' g' k g Hk' Hin' Hk Hin).
    - apply list_find_None in E. rewrite Forall_lookup in E. by destruct (E _ _ Hk). }
  unfold Partition. rewrite map_lookup_imap, Hp. cbn. rewrite (Hs from i gi), (Hs to j gj) by done. f_equal.
  destruct (_ =? _) eqn:E; zify_bool; cbn; symmetry; [apply bool_decide_false|apply bool_decide_true]; lia.
Qed.

Lemma Partition_cuts_witness :
  dropped <$> Partition [[1; 2]; [3]] (mesh {[1; 2; 3]}) !! (3, 1) = Some (bool_decide (1%nat ≠ 0%nat)).
Proof.
  apply (Partition_cuts [[1; 2]; [3]] (mesh {[1; 2; 3]}) 3 1 newProxy 1 0 [3] [1; 2]); [|by vm_compute|done|set_solver|done|set_solver].
  intros id k g k' g' Hk Hg Hk' Hg'. destruct k as [|[|k]], k' as [|[|k']]; cbn in *; try done; simplify_eq; set_solver.
Defined.

(** Every two nodes of the mesh are joined, in both directions. *)
Lemma mesh_lookup ids i j : mesh ids !! (i, j) = if bool_decide (i ∈ ids ∧ j ∈ ids ∧ i ≠ j) then Some newProxy else None.
Proof.
  assert ((i, j) ∈ mesh_edges ids ↔ i ∈ ids ∧ j ∈ ids ∧ i ≠ j) as He.
  { unfold mesh_edges. rewrite list_elem_of_filter, list_elem_of_In, in_prod_iff, <- !list_elem_of_In, !elem_of_elements. cbn. tauto. }
  unfold mesh. case_bool_decide as Hd.
  - destruct (list_to_map _ !! (i, j)) as [p|] eqn:E; [apply elem_of_list_to_map_2, list_elem_of_fmap in E as (e & [= _ ->] & _); done|].
    apply not_elem_of_list_to_map_2 in E. destruct E. rewrite <- list_fmap_compose. cbn. rewrite list_fmap_id. by apply He.
  - apply not_elem_of_list_to_map_1. rewrite <- list_fmap_compose. cbn. rewrite list_fmap_id. by rewrite He.
Qed.

(** A leader hint given as an edge's address leads back to the node behind the edge,
    whatever order the map is visited in: listeners have different addresses. *)
Theorem ProxyOwner_PeerAddr `{GoRuntime} Addr k ids i j a :
  (∀ e e', Addr e = Addr e' → e = e') → PeerAddr Addr i j (mesh ids) = Ok a →
  ProxyOwner Addr k a (mesh ids) = Some j.
Proof.
  intros Hinj. unfold PeerAddr, ProxyOwner. destruct (mesh ids !! (i, j)) as [p|] eqn:Ep; [|done]. intros [= <-].
  destruct (list_find _ _) as [[n e]|] eqn:E.
  - apply list_find_Some in E as (_ & He & _). apply Hinj in He as ->. done.
  - apply list_find_None in E. rewrite Forall_forall in E. exfalso. apply (E (i, j)); [|done]. rewrite map_order_perm.
    apply list_elem_of_fmap. exists (i, j, p). split; [done|]. by apply elem_of_map_to_list.
Qed.
End Net.

(** ** workload.go *)
Module Workload.

Record keyState := mkKS { ackedSerial : Z; acked : gostring; unknownLater : gmap Z gostring }.

(** The part of [Workload] the bookkeeping uses. *)
Record Workload := mkW { SharedKeys : bool; Addrs : list gostring; ops : list Op; state : gmap gostring keyState }.
#[export] Instance Workload_eta : Settable Workload := λ w, mkW (SharedKeys w) (Addrs w) (ops w) (state w).
#[export] Instance set_ops : Setter ops := ltac:(solve_setter).
#[export] Instance set_state : Setter state := ltac:(solve_setter).

Definition stateFor (key : gostring) (w : Workload) : keyState := default (mkKS 0 [] ∅) (state w !! key).

Definition noteAck (key : gostring) (serial : Z) (val : gostring) (w : Workload) : Workload :=
  if SharedKeys w then w else
  let st := stateFor key w in
  w <| state ::= <[key := if ackedSerial st <? serial
                          then mkKS serial val (filter (λ '(s, _), ¬ s ≤ serial) (unknownLater st)) else st]> |>.

Definition noteUnknown (key : gostring) (serial : Z) (val : gostring) (w : Workload) : Workload :=
  if SharedKeys w then w else
  let st := stateFor key w in
  w <| state ::= <[key := if ackedSerial st <? serial
                          then mkKS (ackedSerial st) (acked st) (<[serial := val]> (unknownLater st)) else st]> |>.

(** [Recorder.Record] *)
Definition record_op (op : Op) (w : Workload) : Workload := w <| ops ::= λ l, l ++ [op] |>.

(** [nextAddr]: the first usable leader hint in the text of the error, or the
    next node.  [resolve] is [w.Resolve], [pool] the addresses dialled. *)
Fixpoint hinted (resolve : gostring → option gostring) (pool : gset gostring) (toks : list gostring) : option gostring :=
  match toks with
  | [] => None
  | tok :: toks' =>
      if HasPrefix tok (str "leader_addr=") then
        let hint := TrimPrefix tok (str "leader_addr=") in
        match resolve hint with
        | Some real =>
            if bool_decide (real ∈ pool) then Some real
            else if bool_decide (hint ∈ pool) then Some hint else hinted resolve pool toks'
        | None => if bool_decide (hint ∈ pool) then Some hint else hinted resolve pool toks'
        end
      else hinted resolve pool toks'
  end.

Definition nextAddr (resolve : gostring → option gostring) (pool : gset gostring) (addrs : list gostring)
    (cur : gostring) (err : gostring) : outcome gostring :=
  match hinted resolve pool (Fields err) with
  | Some a => Ok a
  | None =>
      match list_find (λ a, a = cur) addrs with
      | Some (i, _) => zindex addrs ((Z.of_nat i + 1) mod zlength addrs)
      | None => zindex addrs 0
      end
  end.

Section client.
Context (resolve : gostring → option gostring) (pool : gset gostring).

(** The attempts of one operation: the answers the deadline leaves time for.
    Returns the answer, if one came, and the node it stayed with. *)
Fixpoint attempts {A} (calls : list (gostring → A + gostring)) (addrs : list gostring) (cur : gostring)
    : outcome (option A * gostring) :=
  match calls with
  | [] => Ok (None, cur)
  | call :: rest =>
      if negb (bool_decide (cur ∈ pool)) then Panic else
      match call cur with
      | inl a => Ok (Some a, cur)
      | inr err => cur' ← nextAddr resolve pool addrs cur err; attempts rest addrs cur'
      end
  end.

(** [doPut]; [inv] and [ret] are the recorder's stamps. *)
Definition doPut (calls : list (gostring → () + gostring)) (cur : gostring) (clientID serial : Z)
    (key val : gostring) (inv ret : Z) : M Workload gostring :=
  w ← get;
  '(r, cur') ← lift (attempts calls (Addrs w) cur);
  match r with
  | Some _ =>
      modify (record_op (mkOp clientID "put" key val false [] true false inv ret));;
      modify (noteAck key serial val)
  | None =>
      modify (record_op (mkOp clientID "put" key val false [] false true inv ret));;
      modify (noteUnknown key serial val)
  end;;
  mret cur'.

Definition doDelete (calls : list (gostring → () + gostring)) (cur : gostring) (clientID : Z)
    (key : gostring) (inv ret : Z) : M Workload gostring :=
  w ← get;
  '(r, cur') ← lift (attempts calls (Addrs w) cur);
  modify (record_op (mkOp clientID "delete" key [] false [] (bool_decide (is_Some r)) (negb (bool_decide (is_Some r))) inv ret));;
  mret cur'.

Definition doGet (calls : list (gostring → gostring * bool + gostring)) (cur : gostring) (c : Z)
    (key : gostring) (inv ret : Z) : M Workload gostring :=
  w ← get;
  '(r, cur') ← lift (attempts calls (Addrs w) cur);
  modify (record_op (match r with
                     | Some (v, found) => mkOp (c + 1) "get" key [] found v true false inv ret
                     | None => mkOp (c + 1) "get" key [] false [] false true inv ret
                     end));;
  mret cur'.
End client.

(** The values a key may hold. *)
Definition legal_values (st : keyState) : gset gostring :=
  (if 0 <? ackedSerial st then {[acked st]} else ∅) ∪ list_to_set (map_to_list (unknownLater st)).*2.

(** The check of one key in [Verify], of the value that was read back. *)
Definition verify_key (st : keyState) (got : gostring) (found : bool) : option error :=
  if negb found && (0 <? ackedSerial st) then Some (EMsg "verify: acked key %s vanished (last ack %q)") else
  if found && negb (bool_decide (legal_values st = ∅)) && negb (bool_decide (got ∈ legal_values st))
  then Some (EMsg "verify: key %s = %q, not a legal final state %v") else None.

(** [Verify], with the values read back by [read]; [None] when the cluster does
    not answer.  The keys are visited in some order. *)
Fixpoint verify_keys (read : gostring → option (gostring * bool)) (l : list (gostring * keyState)) : option error :=
  match l with
  | [] => None
  | (key, st) :: l' =>
      match read key with
      | None => Some (EMsg "verify: cluster unavailable reading %s")
      | Some (got, found) =>
          match verify_key st got found with
          | Some err => Some err
          | None => verify_keys read l'
          end
      end
  end.
Definition Verify (read : gostring → option (gostring * bool)) (w : Workload) : option error :=
  if SharedKeys w
  then Some (EMsg "Verify is per-client-key only; shared-key runs are verified by the linearizability checker")
  else verify_keys read (map_to_list (state w)).
(** *** Zero acknowledged loss is never reported by mistake

    A client of the harness against the state machine of kvraft: it numbers its
    writes 1, 2, ..., starts one when the one before has been acknowledged or given
    up, and owns its keys.  The log delivers its writes in any order, any number of
    times and as late as it likes, mixed with the commands of others. *)
Section verify.
Variable cid : Z.
Variable owned : gostring → Prop.

Record client := mkCl {
  n : Z;                                        (* serials issued so far *)
  flying : option (Z * gostring * gostring);    (* the write under way *)
  issued : gmap Z (gostring * gostring);
  delivered : gset Z;
  machine : stateMachine;
  notes : Workload
}.

Definition write (s : Z) (key val : gostring) : command :=
  mkEnvelope cid s (EncodeCommand (mkCommand OpPut key val)).

Inductive cstep (c : client) : client → Prop :=
  | c_issue key val :
      flying c = None → owned key → n c + 1 < 2 ^ 64 → zlength key < 2 ^ 32 → zlength val < 2 ^ 32 →
      cstep c (mkCl (n c + 1) (Some (n c + 1, key, val)) (<[n c + 1 := (key, val)]> (issued c)) (delivered c)
                 (machine c) (notes c))
  | c_deliver s key val :
      issued c !! s = Some (key, val) →
      cstep c (mkCl (n c) (flying c) (issued c) ({[s]} ∪ delivered c)
                 (Apply 0 (kvEncodeCommand (write s key val)) (machine c)) (notes c))
  | c_other e cmd :
      sendable e → clientID e ≠ cid → DecodeCommand (inner e) = Ok cmd → ¬ owned (Key cmd) →
      cstep c (mkCl (n c) (flying c) (issued c) (delivered c)
                 (Apply 0 (kvEncodeCommand e) (machine c)) (notes c))
  | c_ack s key val :
      flying c = Some (s, key, val) → s ∈ delivered c →
      cstep c (mkCl (n c) None (issued c) (delivered c) (machine c) (noteAck key s val (notes c)))
  | c_unknown s key val :
      flying c = Some (s, key, val) →
      cstep c (mkCl (n c) None (issued c) (delivered c) (machine c) (noteUnknown key s val (notes c))).

Definition start (addrs : list gostring) : client :=
  mkCl 0 None ∅ ∅ newStateMachine (mkW false addrs [] ∅).

(** [top key]: the serial of the write the key holds, 0 for none. *)
Record cinv (top : gostring → Z) (c : client) : Prop := {
  v_shared : SharedKeys (notes c) = false;
  v_n : 0 ≤ n c < 2 ^ 64;
  v_session : 0 ≤ session (machine c) cid ≤ n c;
  v_issued s key val : issued c !! s = Some (key, val) →
    1 ≤ s ≤ n c ∧ owned key ∧ zlength key < 2 ^ 32 ∧ zlength val < 2 ^ 32;
  v_top key : owned key → 0 ≤ top key ≤ session (machine c) cid ∧
    match sm_data (machine c) !! key with
    | None => top key = 0
    | Some v => issued c !! top key = Some (key, v)
    end;
  v_last : session (machine c) cid = 0 ∨
    ∃ key v, issued c !! session (machine c) cid = Some (key, v) ∧ top key = session (machine c) cid;
  v_resolved s key v : issued c !! s = Some (key, v) →
    flying c = Some (s, key, v) ∨ s ≤ ackedSerial (stateFor key (notes c)) ∨
    unknownLater (stateFor key (notes c)) !! s = Some v;
  v_acked key : 0 < ackedSerial (stateFor key (notes c)) →
    issued c !! ackedSerial (stateFor key (notes c)) = Some (key, acked (stateFor key (notes c))) ∧
    ackedSerial (stateFor key (notes c)) ≤ top key;
  v_flying s key v : flying c = Some (s, key, v) →
    s = n c ∧ issued c !! s = Some (key, v) ∧ (s ∈ delivered c → top key = s) ∧
    ∀ key', ackedSerial (stateFor key' (notes c)) < s;
  v_keys key : is_Some (state (notes c) !! key) → owned key;
  v_delivered s : s ∈ delivered c → is_Some (issued c !! s)
}.
Lemma write_apply s key val m :
  is_u64 cid → cid ≠ 0 → is_u64 s → zlength key < 2 ^ 32 → zlength val < 2 ^ 32 →
  Apply 0 (kvEncodeCommand (write s key val)) m =
  if s <=? session m cid then m
  else mkSM (<[key := val]> (sm_data m)) (<[cid := s]> (sm_sessions m)).
Proof.
  intros Hc Hz Hs Hk Hv. assert (DecodeCommand (EncodeCommand (mkCommand OpPut key val)) = Ok (mkCommand OpPut key val)) as Hd.
  { apply decode_enc. split; [by left|done]. }
  rewrite Apply_encoded by (split; [done|by eexists]). cbn [clientID serial write].
  rewrite (proj2 (Z.eqb_neq _ _) Hz). cbn [negb andb]. destruct (_ <=? _); [done|].
  f_equal. unfold run_command. cbn [inner write]. by rewrite Hd.
Qed.

Lemma other_apply e cmd m :
  sendable e → clientID e ≠ cid → DecodeCommand (inner e) = Ok cmd → ¬ owned (Key cmd) →
  session (Apply 0 (kvEncodeCommand e) m) cid = session m cid ∧
  ∀ key, owned key → sm_data (Apply 0 (kvEncodeCommand e) m) !! key = sm_data m !! key.
Proof.
  intros He Hid Hd Ho. rewrite Apply_encoded by done. destruct (_ && _); [done|]. split.
  - unfold session. cbn. destruct (_ =? _); [done|]. by rewrite lookup_insert_ne.
  - intros key Hk. assert (Key cmd ≠ key) as Hne by congruence. cbn. unfold run_command. rewrite Hd.
    unfold apply_command, Put, Delete. destruct (bool_decide _); [by rewrite lookup_insert_ne|].
    destruct (bool_decide _); [|done]. cbn. by rewrite lookup_delete_ne.
Qed.

Lemma session_write (m : stateMachine) key val s : session (mkSM (<[key := val]> (sm_data m)) (<[cid := s]> (sm_sessions m))) cid = s.
Proof. unfold session. cbn. by rewrite lookup_insert_eq. Qed.

(** A write that takes effect. *)
Lemma cinv_applied top c s key val :
  cinv top c → issued c !! s = Some (key, val) → session (machine c) cid < s →
  cinv (λ k, if decide (k = key) then s else top k)
    (mkCl (n c) (flying c) (issued c) ({[s]} ∪ delivered c)
       (mkSM (<[key := val]> (sm_data (machine c))) (<[cid := s]> (sm_sessions (machine c)))) (notes c)).
Proof.
  intros Hi Hs Hlt. destruct (v_issued _ _ Hi _ _ _ Hs) as (Hr & Hown & _).
  constructor; cbn; rewrite ?session_write; try apply Hi; [lia|..].
  - intros k Hk. case_decide as Hd; [subst k; split; [lia|by rewrite lookup_insert_eq]|].
    rewrite lookup_insert_ne by done. destruct (v_top _ _ Hi k Hk) as [Ht Hm]. split; [lia|done].
  - right. exists key, val. by rewrite decide_True.
  - intros k Hk. destruct (v_acked _ _ Hi k Hk) as [Ha Hle]. split; [done|].
    case_decide as Hd; [|done]. subst k. pose proof (v_top _ _ Hi key Hown) as [? _]. lia.
  - intros s' k v Hf. destruct (v_flying _ _ Hi _ _ _ Hf) as (Hn & Hiss & Hdel & Hack). split_and!; [done|done| |done].
    intros [->%elem_of_singleton|Hin]%elem_of_union; [rewrite Hs in Hiss; injection Hiss as <- <-; by rewrite decide_True|].
    specialize (Hdel Hin). pose proof (v_issued _ _ Hi _ _ _ Hiss) as (_ & Hk & _).
    pose proof (v_top _ _ Hi k Hk) as [Htop _]. lia.
  - intros s' [->%elem_of_singleton|Hin]%elem_of_union; [by rewrite Hs|by apply (v_delivered _ _ Hi)].
Qed.

(** A delivery that changes nothing on the client's keys. *)
Lemma cinv_quiet top c ds m :
  cinv top c → (∀ s, s ∈ ds → is_Some (issued c !! s)) →
  (∀ s key v, flying c = Some (s, key, v) → s ∈ ds → top key = s) →
  session m cid = session (machine c) cid →
  (∀ key, owned key → sm_data m !! key = sm_data (machine c) !! key) →
  cinv top (mkCl (n c) (flying c) (issued c) (ds ∪ delivered c) m (notes c)).
Proof.
  intros Hi Hds Hfl Hsess Hdata. constructor; cbn; rewrite ?Hsess; try apply Hi.
  - intros key Hk. rewrite Hdata by done. by apply (v_top _ _ Hi).
  - intros s key v Hf. destruct (v_flying _ _ Hi _ _ _ Hf) as (Hn & Hiss & Hdel & Hack). split_and!; [done|done| |done].
    intros [Hin|Hin]%elem_of_union; [by apply (Hfl s key v)|auto].
  - intros s [Hin|Hin]%elem_of_union; [auto|by apply (v_delivered _ _ Hi)].
Qed.

Lemma cinv_issue top c key val :
  cinv top c → flying c = None → owned key → n c + 1 < 2 ^ 64 → zlength key < 2 ^ 32 → zlength val < 2 ^ 32 →
  cinv top (mkCl (n c + 1) (Some (n c + 1, key, val)) (<[n c + 1 := (key, val)]> (issued c)) (delivered c)
              (machine c) (notes c)).
Proof.
  intros Hi Hf Ho Hn Hk Hv. pose proof (v_n _ _ Hi) as Hn0. pose proof (v_session _ _ Hi) as Hs0.
  assert (∀ s k v, issued c !! s = Some (k, v) → <[n c + 1 := (key, val)]> (issued c) !! s = Some (k, v)) as Hmono.
  { intros s k v Hs. rewrite lookup_insert_ne; [done|]. apply (v_issued _ _ Hi) in Hs. lia. }
  constructor; cbn; try apply Hi; [lia|lia|..].
  - intros s k v [[<- [= <- <-]]|[_ Hs]]%lookup_insert_Some; [split_and!; [lia|lia|done..]|].
    destruct (v_issued _ _ Hi _ _ _ Hs) as (? & ?). split; [lia|done].
  - intros k Hk'. destruct (v_top _ _ Hi k Hk') as [Ht Hm]. split; [done|]. destruct (sm_data _ !! k); auto.
  - destruct (v_last _ _ Hi) as [?|(k & v & Hl & Ht)]; [by left|right]. exists k, v. auto.
  - intros s k v [[<- [= <- <-]]|[_ Hs]]%lookup_insert_Some; [by left|right].
    destruct (v_resolved _ _ Hi _ _ _ Hs) as [?|?]; [congruence|done].
  - intros k Ha. destruct (v_acked _ _ Hi k Ha) as [? ?]. auto.
  - intros s k v [= <- <- <-]. split_and!; [done|by rewrite lookup_insert_eq| |].
    + intros [[k v] Hd]%(v_delivered _ _ Hi). apply (v_issued _ _ Hi) in Hd. lia.
    + intros k. destruct (decide (0 < ackedSerial (stateFor k (notes c)))) as [Ha|Ha]; [|lia].
      destruct (v_acked _ _ Hi k Ha) as [Hiss _]. apply (v_issued _ _ Hi) in Hiss. lia.
  - intros s Hd. destruct (v_delivered _ _ Hi s Hd) as [[k v] ?]. eauto.
Qed.
(** What a note changes. *)
Lemma stateFor_note key st key' w :
  stateFor key' (w <| state ::= <[key := st]> |>) = if decide (key' = key) then st else stateFor key' w.
Proof.
  unfold stateFor. cbn. case_decide as Hd; [subst; by rewrite lookup_insert_eq|]. by rewrite lookup_insert_ne.
Qed.

Lemma noted top c key st s val :
  cinv top c → flying c = Some (s, key, val) →
  (ackedSerial st = ackedSerial (stateFor key (notes c)) ∧ acked st = acked (stateFor key (notes c)) ∧
     unknownLater st = <[s := val]> (unknownLater (stateFor key (notes c))) ∨
   ackedSerial st = s ∧ acked st = val ∧ s ∈ delivered c) →
  cinv top (mkCl (n c) None (issued c) (delivered c) (machine c) ((notes c) <| state ::= <[key := st]> |>)).
Proof.
  intros Hi Hf Hst. destruct (v_flying _ _ Hi _ _ _ Hf) as (-> & Hiss & Hdel & Hack).
  pose proof (v_issued _ _ Hi _ _ _ Hiss) as (Hn & Hown & _).
  constructor; cbn [notes flying n issued delivered machine]; try apply Hi; try done.
  - intros s' k v Hs. right. rewrite stateFor_note. destruct (v_resolved _ _ Hi _ _ _ Hs) as [Hfl|Hres].
    + rewrite Hf in Hfl. injection Hfl as <- <- <-. rewrite decide_True by done.
      destruct Hst as [(_ & _ & ->)|(-> & _)]; [right; by rewrite lookup_insert_eq|by left].
    + case_decide as Hd; [|done]. subst k. destruct Hst as [(-> & _ & ->)|(-> & _)].
      * destruct Hres as [?|Hu]; [by left|]. destruct (decide (s' = n c)) as [->|Hne]; [|right; by rewrite lookup_insert_ne].
        right. rewrite lookup_insert_eq. congruence.
      * left. apply (v_issued _ _ Hi) in Hs. lia.
  - intros k. rewrite stateFor_note. case_decide as Hd; [|apply Hi]. subst k.
    destruct Hst as [(-> & -> & _)|(-> & -> & Hin)]; [apply Hi|]. intros _. split; [done|]. rewrite Hdel by done. lia.
  - intros k. cbn. intros [? Hk]. apply lookup_insert_Some in Hk as [[<- _]|[_ Hk]]; [done|]. apply (v_keys _ _ Hi). by eexists.
Qed.

Lemma cstep_cinv top c c' :
  is_u64 cid → cid ≠ 0 → cinv top c → cstep c c' → ∃ top', cinv top' c'.
Proof.
  intros Hc Hz Hi Hs. destruct Hs as [key val Hf Ho Hn Hk Hv|s key val Hs|e cmd He Hid Hd Ho|s key val Hf Hd|s key val Hf].
  - exists top. by apply cinv_issue.
  - destruct (v_issued _ _ Hi _ _ _ Hs) as (Hr & _ & Hk & Hv). pose proof (v_n _ _ Hi) as Hn0.
    rewrite write_apply by (done || (unfold is_u64 in *; lia)). destruct (_ <=? _) eqn:E; zify_bool.
    + exists top. apply cinv_quiet; [done| | |done|done].
      * intros s' ->%elem_of_singleton. by rewrite Hs.
      * intros s' k v Hf ->%elem_of_singleton. destruct (v_flying _ _ Hi _ _ _ Hf) as (-> & Hiss & _).
        pose proof (v_session _ _ Hi) as Hse. destruct (v_last _ _ Hi) as [?|(k' & v' & Hl & Ht)]; [lia|].
        assert (session (machine c) cid = n c) as Heq by lia. rewrite Heq in *. congruence.
    + eexists. by apply cinv_applied.
  - exists top. destruct (other_apply e cmd (machine c) He Hid Hd Ho) as [Hses Hdata].
    replace (delivered c) with (∅ ∪ delivered c) by set_solver. apply cinv_quiet; [done|set_solver|set_solver|done|done].
  - exists top. unfold noteAck. rewrite (v_shared _ _ Hi). apply (noted top c key _ s val); [done|done|].
    destruct (v_flying _ _ Hi _ _ _ Hf) as (_ & _ & _ & Hack). rewrite (proj2 (Z.ltb_lt _ _)) by apply Hack. by right.
  - exists top. unfold noteUnknown. rewrite (v_shared _ _ Hi). apply (noted top c key _ s val); [done|done|].
    destruct (v_flying _ _ Hi _ _ _ Hf) as (_ & _ & _ & Hack). rewrite (proj2 (Z.ltb_lt _ _)) by apply Hack. by left.
Qed.

Lemma start_cinv addrs : cinv (λ _, 0) (start addrs).
Proof.
  assert (session newStateMachine cid = 0) as Hs by (unfold session; cbn; by rewrite lookup_empty).
  assert (∀ key, stateFor key (mkW false addrs [] ∅) = mkKS 0 [] ∅) as Hst
    by (intros key; unfold stateFor; cbn; by rewrite lookup_empty).
  constructor; cbn [start n flying issued delivered machine notes]; rewrite ?Hs; try done; try lia.
  intros key. cbn. rewrite lookup_empty. by intros [? ?].
Qed.

(** The value a key holds passes its check. *)
Lemma verify_key_ok top c key st :
  cinv top c → flying c = None → state (notes c) !! key = Some st →
  verify_key st (stateMachine_get key (machine c)).1 (stateMachine_get key (machine c)).2 = None.
Proof.
  intros Hi Hf Hst. assert (stateFor key (notes c) = st) as Heq by (unfold stateFor; by rewrite Hst).
  assert (owned key) as Ho by (apply (v_keys _ _ Hi); by rewrite Hst).
  destruct (v_top _ _ Hi key Ho) as [Htop Hval]. pose proof (v_acked _ _ Hi key) as Hack. rewrite Heq in Hack.
  unfold stateMachine_get, Get, verify_key. destruct (sm_data (machine c) !! key) as [v|]; cbn.
  - assert (v ∈ legal_values st) as Hl; [|by rewrite (bool_decide_true _ Hl), andb_false_r]. unfold legal_values.
    destruct (v_resolved _ _ Hi _ _ _ Hval) as [?|[Hle|Hu]]; [congruence|..]; rewrite Heq in *.
    + apply (v_issued _ _ Hi) in Hval as Hr. destruct Hack as [Ha Ht]; [lia|].
      assert (ackedSerial st = top key) as He by lia. rewrite He, Hval in Ha. injection Ha as ->.
      rewrite (proj2 (Z.ltb_lt _ _)) by lia. set_solver.
    + apply elem_of_union. right. apply elem_of_list_to_set, list_elem_of_fmap. exists (top key, v).
      split; [done|]. by apply elem_of_map_to_list.
  - destruct (0 <? ackedSerial st) eqn:E; [|done]. zify_bool. destruct Hack as [_ Ht]; lia.
Qed.
End verify.

(** [Verify] is content when every key it noted passes its check. *)
Lemma Verify_content (read : gostring → gostring * bool) w :
  SharedKeys w = false → (∀ key st, state w !! key = Some st → verify_key st (read key).1 (read key).2 = None) →
  Verify (λ key, Some (read key)) w = None.
Proof.
  intros Hsh Hk. unfold Verify. rewrite Hsh.
  assert (∀ key st, (key, st) ∈ map_to_list (state w) → state w !! key = Some st) as Hl.
  { intros key st. apply elem_of_map_to_list. }
  induction (map_to_list (state w)) as [|[key st] l IH]; [done|]. cbn [verify_keys].
  pose proof (Hk key st (Hl key st ltac:(by left))) as Hv.
  destruct (read key) as [got found]. cbn in Hv. rewrite Hv. apply IH. intros key' st' Hin. apply Hl. by right.
Qed.
End Workload.
