(* ===== verification/Proxy.v ===== *)
(** * internal/nemesis/proxy.go: the goroutines behind one edge

    The accept loop, the two copies of every forwarded connection and the calls of
    the harness run concurrently; what they do to the sockets and to the fields
    under the lock (the record [Proxy] of Nemesis) are the steps of [estep].  A
    connection delivers what was sent, in order, and a cut edge delivers nothing. *)

From stdpp Require Import prelude gmap.
From S2P Require Import Prelude GoBytes Nemesis.
Import Net.
Open Scope Z_scope.

(** ** State *)

(** A TCP connection: all that its far end has sent, how much of it was read
    here, and all that was written to it. *)
Record sock := mkSock { far : bytes; nread : nat; near : bytes; is_open : bool }.

(** One [pipe(dst, src)]: reading, about to wait and write a chunk (the read may
    have reported the end as well), closing its two connections, finished. *)
Inductive pipe :=
  | PRead
  | PWrite (chunk : bytes) (last : bool)
  | PCloseDst
  | PCloseSrc
  | PEnd.

(** The goroutines and calls in progress.  [TUndo] is the rest of [forward] once
    only connections to close and the deferred [untrack] are left. *)
Inductive thread :=
  | TRefuse (c : nat)                              (* acceptLoop: [c.Close()] on a cut edge *)
  | TDial (client : nat)                           (* forward: before the dial *)
  | TCheck (client server : nat)                   (* forward: before the lock *)
  | TPipes (client server : nat) (up down : pipe)  (* forward: the two copies *)
  | TUntrackServer (client server : nat)
  | TUndo (client : nat) (l : list nat)
  | TClose (l : list nat)                          (* setDropped: after the lock *)
  | TShut                                          (* close: before [listener.Close()] *)
  | TShutCut.                                      (* close: before [setDropped(true)] *)

Record edge_state := mkEdge {
  px : Proxy; listening : bool; socks : gmap nat sock; threads : gmap nat thread }.

Definition new_edge : edge_state := mkEdge newProxy true ∅ ∅.

Definition bufsize : Z := 32 * 1024.

(** ** Sockets *)

Definition close_sock (c : nat) (m : gmap nat sock) : gmap nat sock :=
  alter (λ s, mkSock (far s) (nread s) (near s) false) c m.
Definition take_in (c k : nat) (m : gmap nat sock) : gmap nat sock :=
  alter (λ s, mkSock (far s) (nread s + k) (near s) (is_open s)) c m.
Definition put_out (c : nat) (b : bytes) (m : gmap nat sock) : gmap nat sock :=
  alter (λ s, mkSock (far s) (nread s) (near s ++ b) (is_open s)) c m.
Definition fresh_sock : sock := mkSock [] 0 [] true.

Definition opened (m : gmap nat sock) (c : nat) : bool := match m !! c with Some s => is_open s | None => false end.
(** What can be read from a connection. *)
Definition unread (m : gmap nat sock) (c : nat) : bytes := match m !! c with Some s => drop (nread s) (far s) | None => [] end.

(** ** Steps *)

(** One step of [pipe(dst, src)], on the sockets. *)
Inductive pipe_step (dst src : nat) (m : gmap nat sock) : pipe → pipe → gmap nat sock → Prop :=
  | ps_read k last :
      opened m src = true → (0 < k ≤ length (unread m src))%nat → Z.of_nat k ≤ bufsize →
      pipe_step dst src m PRead (PWrite (take k (unread m src)) last) (take_in src k m)
  | ps_read_end : pipe_step dst src m PRead PCloseDst m       (* end of stream, error, or closed *)
  | ps_write b last :
      opened m dst = true →
      pipe_step dst src m (PWrite b last) (if last : bool then PCloseDst else PRead) (put_out dst b m)
  | ps_write_fails b last k :
      opened m dst = true → pipe_step dst src m (PWrite b last) PCloseDst (put_out dst (take k b) m)
  | ps_write_closed b last :
      opened m dst = false → pipe_step dst src m (PWrite b last) PCloseDst m
  | ps_close_dst : pipe_step dst src m PCloseDst PCloseSrc (close_sock dst m)
  | ps_close_src : pipe_step dst src m PCloseSrc PEnd (close_sock src m).

(** A goroutine or a call does one step: from [th] to [Some th'], or to its end;
    the lock-protected fields, the listener and the sockets change with it.  The
    wait before a write ([currentDelay]) is the steps of others. *)
Inductive tstep (p : Proxy) (m : gmap nat sock) :
    thread → Proxy → bool → gmap nat sock → option thread → Prop :=
  | t_refuse c : tstep p m (TRefuse c) p false (close_sock c m) None
  | t_dial client server :
      m !! server = None → tstep p m (TDial client) p false (<[server := fresh_sock]> m) (Some (TCheck client server))
  | t_dial_fails client : tstep p m (TDial client) p false m (Some (TUndo client [client]))
  | t_register client server :
      dropped p || closed p = false →
      tstep p m (TCheck client server) (track server p) false m (Some (TPipes client server PRead PRead))
  | t_turn_away client server :
      dropped p || closed p = true →
      tstep p m (TCheck client server) p false m (Some (TUndo client [client; server]))
  | t_up client server up down up' m' :
      pipe_step server client m up up' m' →
      tstep p m (TPipes client server up down) p false m' (Some (TPipes client server up' down))
  | t_down client server up down down' m' :
      pipe_step client server m down down' m' →
      tstep p m (TPipes client server up down) p false m' (Some (TPipes client server up down'))
  | t_joined client server :
      tstep p m (TPipes client server PEnd PEnd) p false m (Some (TUntrackServer client server))
  | t_untrack_server client server :
      tstep p m (TUntrackServer client server) (untrack server p) false m (Some (TUndo client []))
  | t_undo client c l : tstep p m (TUndo client (c :: l)) p false (close_sock c m) (Some (TUndo client l))
  | t_undone client : tstep p m (TUndo client []) (untrack client p) false m None
  | t_close c l : tstep p m (TClose (c :: l)) p false (close_sock c m) (Some (TClose l))
  | t_closed : tstep p m (TClose []) p false m None
  | t_shut : tstep p m TShut p true m (Some TShutCut)
  | t_shut_cut : tstep p m TShutCut (setDropped true p) false m (Some (TClose (elements (live p)))).

(** The connection a far end sends more bytes on. *)
Definition send_far (c : nat) (b : bytes) (m : gmap nat sock) : gmap nat sock :=
  alter (λ s, mkSock (far s ++ b) (nread s) (near s) (is_open s)) c m.

Inductive estep (e : edge_state) : edge_state → Prop :=
  | e_thread t th p stop m o :
      threads e !! t = Some th → tstep (px e) (socks e) th p stop m o →
      estep e (mkEdge p (listening e && negb stop) m (partial_alter (λ _, o) t (threads e)))
  (* acceptLoop: a connection is accepted, then registered or refused *)
  | e_accept c t :
      listening e = true → socks e !! c = None → threads e !! t = None →
      estep e (mkEdge (track c (px e)) (listening e) (<[c := fresh_sock]> (socks e))
        (<[t := if dropped (px e) || closed (px e) then TRefuse c else TDial c]> (threads e)))
  (* the harness *)
  | e_cut t :
      threads e !! t = None →
      estep e (mkEdge (setDropped true (px e)) (listening e) (socks e) (<[t := TClose (elements (live (px e)))]> (threads e)))
  | e_restore : estep e (mkEdge (setDropped false (px e)) (listening e) (socks e) (threads e))
  | e_delay d : estep e (mkEdge (setDelay d (px e)) (listening e) (socks e) (threads e))
  | e_shut t :
      threads e !! t = None → estep e (mkEdge (close_mark (px e)) (listening e) (socks e) (<[t := TShut]> (threads e)))
  (* the far end of a connection *)
  | e_far c b : estep e (mkEdge (px e) (listening e) (send_far c b (socks e)) (threads e)).

(** ** What holds of every edge *)

(** The connections a goroutine answers for, and those it has yet to close. *)
Definition owns (th : thread) : list nat :=
  match th with
  | TRefuse c | TDial c => [c]
  | TCheck c s | TPipes c s _ _ | TUntrackServer c s => [c; s]
  | TUndo c l => c :: l
  | TClose _ | TShut | TShutCut => []
  end.
Definition holding (th : thread) : list nat :=
  match th with
  | TRefuse c | TDial c => [c]
  | TCheck c s | TPipes c s _ _ => [c; s]
  | TUndo c l => l
  | _ => []
  end.

(** What a copy has carried: what it read, less the chunk in its hands, and less
    what a failed write lost. *)
Definition carried (m : gmap nat sock) (dst src : nat) (q : pipe) : Prop :=
  ∃ d s, m !! dst = Some d ∧ m !! src = Some s ∧ (nread s ≤ length (far s))%nat ∧
    match q with
    | PRead => near d = take (nread s) (far s)
    | PWrite b _ => near d ++ b = take (nread s) (far s)
    | _ => near d `prefix_of` take (nread s) (far s)
    end.
Definition closed_by (m : gmap nat sock) (dst src : nat) (q : pipe) : Prop :=
  match q with
  | PCloseSrc => opened m dst = false
  | PEnd => opened m dst = false ∧ opened m src = false
  | _ => True
  end.
Definition unused (m : gmap nat sock) (c : nat) : Prop := ∃ s, m !! c = Some s ∧ nread s = 0%nat ∧ near s = [].

(** An open connection is registered, or a cut under way closes it. *)
Definition covered (e : edge_state) (c : nat) : Prop :=
  c ∈ live (px e) ∨ ∃ t l, threads e !! t = Some (TClose l) ∧ c ∈ l.
Definition guarded (e : edge_state) (c : nat) : Prop := opened (socks e) c = true → covered e c.

Definition thread_ok (e : edge_state) (th : thread) : Prop :=
  Forall (λ c, is_Some (socks e !! c)) (owns th) ∧
  match th with
  | TDial c => unused (socks e) c ∧ guarded e c
  | TCheck c s => c ≠ s ∧ unused (socks e) c ∧ unused (socks e) s ∧ guarded e c
  | TPipes c s up down =>
      c ≠ s ∧ guarded e c ∧ guarded e s ∧ carried (socks e) s c up ∧ carried (socks e) c s down ∧
      closed_by (socks e) s c up ∧ closed_by (socks e) c s down
  | TUntrackServer c s => opened (socks e) c = false ∧ opened (socks e) s = false
  | _ => True
  end.

Record edge_ok (e : edge_state) : Prop := {
  ok_cut : dropped (px e) = true → live (px e) = ∅;
  ok_apart : ∀ t t' th th' c, threads e !! t = Some th → threads e !! t' = Some th' → c ∈ owns th → c ∈ owns th' → t = t';
  ok_threads : ∀ t th, threads e !! t = Some th → thread_ok e th;
  ok_held : ∀ c, opened (socks e) c = true → ∃ t th, threads e !! t = Some th ∧ c ∈ holding th }.

(** ** Frames: what a step of one goroutine leaves to the others *)

(** Connections stay, closed ones stay closed, what was sent stays sent; only
    those of [X] are read or written. *)
Definition tame (X : list nat) (m m' : gmap nat sock) : Prop :=
  ∀ c s, m !! c = Some s → ∃ s', m' !! c = Some s' ∧ (is_open s' = true → is_open s = true) ∧
    far s `prefix_of` far s' ∧ (c ∉ X → nread s' = nread s ∧ near s' = near s).

Lemma tame_refl X m : tame X m m.
Proof. intros c s Hs. by exists s. Qed.
Lemma tame_alter X m c (f : sock → sock) :
  (∀ s, (is_open (f s) = true → is_open s = true) ∧ far s `prefix_of` far (f s) ∧ (c ∉ X → nread (f s) = nread s ∧ near (f s) = near s)) →
  tame X m (alter f c m).
Proof.
  intros Hf c' s Hs. destruct (decide (c' = c)) as [->|Hne].
  - exists (f s). rewrite lookup_alter_eq, Hs. by destruct (Hf s) as (? & ? & ?).
  - exists s. by rewrite lookup_alter_ne by done.
Qed.
Lemma tame_fresh X m c : m !! c = None → tame X m (<[c := fresh_sock]> m).
Proof. intros Hc c' s Hs. exists s. rewrite lookup_insert_ne; [done|]. intros ->. congruence. Qed.

Lemma tame_opened X m m' c : tame X m m' → is_Some (m !! c) → opened m' c = true → opened m c = true.
Proof. intros Ht [s Hs]. unfold opened. destruct (Ht c s Hs) as (s' & -> & Ho & _). rewrite Hs. exact Ho. Qed.
Lemma tame_closed X m m' c : tame X m m' → is_Some (m !! c) → opened m c = false → opened m' c = false.
Proof. intros Ht Hc Ho. destruct (opened m' c) eqn:E; [|done]. rewrite (tame_opened X m m') in Ho; done. Qed.
Lemma tame_is_Some X m m' c : tame X m m' → is_Some (m !! c) → is_Some (m' !! c).
Proof. intros Ht [s Hs]. destruct (Ht c s Hs) as (s' & -> & _). done. Qed.
Lemma tame_unused X m m' c : tame X m m' → c ∉ X → unused m c → unused m' c.
Proof. intros Ht Hc (s & Hs & Hn & He). destruct (Ht c s Hs) as (s' & Hs' & _ & _ & Hk). destruct (Hk Hc) as [Hk1 Hk2]. exists s'. split; [done|]. split; congruence. Qed.
Lemma tame_carried X m m' dst src q : tame X m m' → dst ∉ X → src ∉ X → carried m dst src q → carried m' dst src q.
Proof.
  intros Ht Hd Hs (d & s & Ed & Es & Hl & Hq). destruct (Ht _ _ Ed) as (d' & Ed' & _ & _ & Kd), (Ht _ _ Es) as (s' & Es' & _ & [k Hk] & Ks).
  destruct (Kd Hd) as [_ Hnd], (Ks Hs) as [Hns _]. exists d', s'. split; [done|]. split; [done|].
  rewrite Hns, Hk, length_app, take_app_le, Hnd by lia. split; [lia|done].
Qed.
Lemma tame_closed_by X m m' dst src q :
  tame X m m' → is_Some (m !! dst) → is_Some (m !! src) → closed_by m dst src q → closed_by m' dst src q.
Proof. intros Ht Hd Hs. destruct q; cbn; try done; [by apply (tame_closed X)|]. intros [H1 H2]. split; eapply (tame_closed X); done. Qed.

Lemma pipe_step_tame dst src m q q' m' : pipe_step dst src m q q' m' → tame [dst; src] m m'.
Proof. destruct 1; try apply tame_refl; apply tame_alter; intros s; cbn; (split; [done|]; split; [done|]; set_solver). Qed.

Lemma tstep_tame p m th p' stop m' o : tstep p m th p' stop m' o → tame (owns th) m m'.
Proof.
  destruct 1; try apply tame_refl; try (by apply tame_fresh).
  - apply tame_alter. intros s. by cbn.
  - intros c s Hs. destruct (pipe_step_tame _ _ _ _ _ _ H c s Hs) as (s' & ? & ? & ? & Hk). exists s'. cbn [owns]. set_solver.
  - by apply (pipe_step_tame client server _ down down').
  - apply tame_alter. intros s. by cbn.
  - apply tame_alter. intros s. by cbn.
Qed.

Definition untracks (th : thread) : bool := match th with TUntrackServer _ _ | TUndo _ [] => true | _ => false end.

Lemma closed_sock_opened m c : opened (close_sock c m) c = false.
Proof. unfold opened, close_sock. rewrite lookup_alter_eq. by destruct (m !! c). Qed.

(** The state after a goroutine's step. *)
Definition after (e : edge_state) (t : nat) (p : Proxy) (stop : bool) (m : gmap nat sock) (o : option thread) : edge_state :=
  mkEdge p (listening e && negb stop) m (partial_alter (λ _, o) t (threads e)).

Lemma covered_thread e t th p stop m o c :
  threads e !! t = Some th → tstep (px e) (socks e) th p stop m o → (c ∈ owns th → untracks th = false) →
  opened m c = true → covered e c → covered (after e t p stop m o) c.
Proof.
  intros Hth Hs Hown Ho Hc. unfold covered, after; cbn. destruct Hc as [Hl|(t0 & l0 & Ht0 & Hl)].
  - inversion Hs; subst; cbn in *; try (by left).
    + left. unfold track. destruct (_ || _); cbn; set_solver.
    + left. apply elem_of_difference. split; [done|]. rewrite elem_of_singleton. intros ->. assert (true = false) by (apply Hown; set_solver). done.
    + left. apply elem_of_difference. split; [done|]. rewrite elem_of_singleton. intros ->. assert (true = false) by (apply Hown; set_solver). done.
    + right. exists t, (elements (live (px e))). rewrite lookup_partial_alter_eq. set_solver.
  - right. destruct (decide (t0 = t)) as [->|Hne]; [|exists t0, l0; by rewrite lookup_partial_alter_ne].
    rewrite Hth in Ht0. simplify_eq. inversion Hs; subst; [|set_solver].
    destruct (decide (c = c0)) as [->|Hc]; [by rewrite closed_sock_opened in Ho|].
    exists t, l. rewrite lookup_partial_alter_eq. set_solver.
Qed.

(** The other goroutines keep what they rely on. *)
Lemma frame_ok e e' X th :
  tame X (socks e) (socks e') → (∀ c, c ∈ owns th → c ∉ X) →
  (∀ c, c ∈ owns th → opened (socks e') c = true → covered e c → covered e' c) →
  thread_ok e th → thread_ok e' th.
Proof.
  intros Ht HX Hcov [Hin Hok]. assert (∀ c, c ∈ owns th → guarded e c → guarded e' c) as Hg.
  { intros c Hc Hg Ho. apply Hcov; [done..|]. apply Hg. rewrite Forall_forall in Hin.
    exact (tame_opened X _ _ c Ht (Hin c Hc) Ho). }
  split; [eapply Forall_impl; [exact Hin|]; intros c; by apply (tame_is_Some X)|].
  rewrite Forall_forall in Hin.
  destruct th as [c|c|c s|c s up down|c s|c l|l| |]; cbn in Hg, HX, Hin; [done| | | | |done..].
  - destruct Hok as [Hu Hg']. split; [eapply (tame_unused X); [done| |done]|apply Hg; [|done]]; set_solver.
  - destruct Hok as (Hne & Hu & Hu' & Hg'). split; [done|]. split; [eapply (tame_unused X); [done| |done]; set_solver|].
    split; [eapply (tame_unused X); [done| |done]; set_solver|]. apply Hg; [set_solver|done].
  - destruct Hok as (Hne & Hg1 & Hg2 & H1 & H2 & H3 & H4). split; [done|]. split; [apply Hg; [set_solver|done]|].
    split; [apply Hg; [set_solver|done]|].
    split; [eapply (tame_carried X); [done| | |done]; set_solver|]. split; [eapply (tame_carried X); [done| | |done]; set_solver|].
    split; eapply (tame_closed_by X); try done; apply Hin; set_solver.
  - destruct Hok as [H1 H2]. split; eapply (tame_closed X); try done; apply Hin; set_solver.
Qed.

(** ** One copy *)

Lemma pipe_step_carried dst src m q q' m' :
  dst ≠ src → pipe_step dst src m q q' m' → carried m dst src q → carried m' dst src q'.
Proof.
  intros Hne Hs (d & s & Ed & Es & Hl & Hq). destruct Hs as [k last Ho Hk _| |b last Ho|b last k Ho|b last Ho| |].
  - exists d, (mkSock (far s) (nread s + k) (near s) (is_open s)). unfold take_in, unread in *.
    rewrite lookup_alter_ne, lookup_alter_eq, Es by done. rewrite Es, length_drop in Hk. split; [done|]. split; [done|].
    split; [cbn; lia|]. cbn. by rewrite Hq, take_take_drop.
  - exists d, s. by rewrite Hq.
  - exists (mkSock (far d) (nread d) (near d ++ b) (is_open d)), s. unfold put_out.
    rewrite lookup_alter_eq, lookup_alter_ne, Ed by done. split; [done|]. split; [done|]. split; [done|]. cbn. destruct last; by rewrite Hq.
  - exists (mkSock (far d) (nread d) (near d ++ take k b) (is_open d)), s. unfold put_out.
    rewrite lookup_alter_eq, lookup_alter_ne, Ed by done. split; [done|]. split; [done|]. split; [done|]. cbn.
    rewrite <- Hq. apply prefix_app. exists (drop k b). by rewrite take_drop.
  - exists d, s. split; [done|]. split; [done|]. split; [done|]. rewrite <- Hq. by apply prefix_app_r.
  - exists (mkSock (far d) (nread d) (near d) false), s. unfold close_sock. by rewrite lookup_alter_eq, lookup_alter_ne, Ed.
  - exists d, (mkSock (far s) (nread s) (near s) false). unfold close_sock. by rewrite lookup_alter_ne, lookup_alter_eq, Es.
Qed.

(** The copy the other way is not disturbed: it reads what this one never reads
    and writes what this one never writes. *)
Lemma pipe_step_other dst src m q q' m' r :
  dst ≠ src → pipe_step dst src m q q' m' → carried m src dst r → carried m' src dst r.
Proof.
  intros Hne Hs (d & s & Ed & Es & Hl & Hq). destruct Hs; unfold take_in, put_out, close_sock; try (by exists d, s).
  all: first
    [ eexists d, _; rewrite lookup_alter_ne by done; rewrite lookup_alter_eq, Es; by repeat split
    | eexists _, s; rewrite lookup_alter_eq, Ed; rewrite lookup_alter_ne by done; by repeat split ].
Qed.

Lemma pipe_step_closed_by dst src m q q' m' :
  is_Some (m !! dst) → is_Some (m !! src) → pipe_step dst src m q q' m' → closed_by m dst src q → closed_by m' dst src q'.
Proof.
  intros Hd Hs Hp Hc. destruct Hp as [| |b fin Ho| | | |]; cbn in *; try done; [by destruct fin| |].
  - apply closed_sock_opened.
  - split; [|apply closed_sock_opened]. eapply (tame_closed []); [|done..]. apply tame_alter. by cbn.
Qed.

Lemma unused_carried m dst src : unused m dst → unused m src → carried m dst src PRead.
Proof. intros (d & Ed & _ & Hn) (s & Es & Hr & _). exists d, s. rewrite Hr, Hn. split; [done|]. split; [done|]. split; [lia|done]. Qed.

(** ** Every step keeps the edge in order *)

Lemma own_thread_ok e t th p stop m o th' :
  edge_ok e → threads e !! t = Some th → tstep (px e) (socks e) th p stop m o → o = Some th' →
  thread_ok (after e t p stop m o) th'.
Proof.
  intros Hok Hth Hs ->. destruct (ok_threads e Hok t th Hth) as [Hin Hto].
  pose proof (tstep_tame _ _ _ _ _ _ _ Hs) as Ht. rewrite Forall_forall in Hin.
  assert (∀ c, c ∈ owns th → untracks th = false → guarded e c → guarded (after e t p stop m (Some th')) c) as Hg.
  { intros c Hc Hu Hg Ho. eapply covered_thread; [done..|]. apply Hg. exact (tame_opened _ _ _ c Ht (Hin c Hc) Ho). }
  assert (Forall (λ c, is_Some (m !! c)) (owns th)) as Hin'.
  { apply Forall_forall. intros c Hc. exact (tame_is_Some _ _ _ c Ht (Hin c Hc)). }
  inversion Hs; subst; unfold thread_ok; cbn in *.
  - destruct Hto as [Hu Hgc]. assert (client ≠ server) as Hne by (intros ->; destruct Hu as (s & Hs' & _); congruence).
    split; [repeat constructor; [by inversion Hin'|by rewrite lookup_insert_eq]|]. split; [done|].
    split; [eapply (tame_unused []); [by apply tame_fresh|set_solver|done]|].
    split; [exists fresh_sock; by rewrite lookup_insert_eq|]. apply Hg; [set_solver|done..].
  - split; [by repeat constructor; inversion Hin'|done].
  - destruct Hto as (Hne & Hu & Hu' & Hgc). split; [done|]. split; [done|]. split; [apply Hg; [set_solver|done..]|].
    split; [intros _; left; cbn; unfold track; rewrite H4; cbn; set_solver|].
    split; [by apply unused_carried|]. split; [by apply unused_carried|done].
  - split; [by constructor; [inversion Hin'|]|done].
  - destruct Hto as (Hne & Hg1 & Hg2 & H1 & H2 & H3 & H5). split; [done|]. split; [done|].
    split; [apply Hg; [set_solver|done..]|]. split; [apply Hg; [set_solver|done..]|].
    split; [by eapply pipe_step_carried|]. split; [by eapply pipe_step_other|].
    split; [eapply pipe_step_closed_by; [..|done|done]; apply Hin; set_solver|].
    eapply (tame_closed_by _ _ _ _ _ _ Ht); [apply Hin; set_solver..|done].
  - destruct Hto as (Hne & Hg1 & Hg2 & H1 & H2 & H3 & H5). split; [done|]. split; [done|].
    split; [apply Hg; [set_solver|done..]|]. split; [apply Hg; [set_solver|done..]|].
    split; [by eapply pipe_step_other|]. split; [by eapply pipe_step_carried|].
    split; [eapply (tame_closed_by _ _ _ _ _ _ Ht); [apply Hin; set_solver..|done]|].
    eapply pipe_step_closed_by; [..|done|done]; apply Hin; set_solver.
  - split; [done|]. destruct Hto as (_ & _ & _ & _ & _ & [H1 H2] & _). done.
  - split; [by constructor; inversion Hin'|done].
  - split; [|done]. inversion Hin' as [|? ? Hc Hl]. inversion Hl. by constructor.
  - done.
  - done.
  - done.
Qed.

Lemma tstep_px p m th p' stop m' o : tstep p m th p' stop m' o → p' = p ∨ pstep p p'.
Proof. destruct 1; try (by left); right; constructor. Qed.

(** A goroutine answers for what it answered for, and for the connection it dialled. *)
Lemma tstep_owns p m th p' stop m' th' c :
  tstep p m th p' stop m' (Some th') → c ∈ owns th' → c ∈ owns th ∨ m !! c = None.
Proof. inversion 1; subst; cbn; set_solver. Qed.

Lemma alter_absent (f : sock → sock) x (m : gmap nat sock) c : m !! c = None → alter f x m !! c = None.
Proof. intros Hc. destruct (decide (c = x)) as [<-|Hne]; [by rewrite lookup_alter_eq, Hc|by rewrite lookup_alter_ne]. Qed.

(** A connection appears by a dial. *)
Lemma tstep_appears p m th p' stop m' o c :
  tstep p m th p' stop m' o → m !! c = None → is_Some (m' !! c) → ∃ client, o = Some (TCheck client c).
Proof.
  assert (∀ dst src q q' m', pipe_step dst src m q q' m' → m !! c = None → m' !! c = None) as Hp.
  { intros dst src q q' m0 Hs Hc. destruct Hs; try done; by apply alter_absent. }
  intros Hs Hc [s' Hs']. destruct Hs as [| | | | |? ? ? ? ? ? Hps|? ? ? ? ? ? Hps| | | | | | | |];
    try congruence; try (by unfold close_sock in Hs'; rewrite alter_absent in Hs').
  - destruct (decide (c = server)) as [->|Hne]; [by eexists|]. rewrite lookup_insert_ne in Hs' by done. congruence.
  - rewrite (Hp _ _ _ _ _ Hps Hc) in Hs'. done.
  - rewrite (Hp _ _ _ _ _ Hps Hc) in Hs'. done.
Qed.

(** What a goroutine lets go of is closed. *)
Lemma tstep_lets_go e th p stop m o c :
  thread_ok e th → tstep (px e) (socks e) th p stop m o → c ∈ holding th → opened m c = true →
  ∃ th', o = Some th' ∧ c ∈ holding th'.
Proof.
  intros [_ Hok] Hs Hc Ho. inversion Hs; subst; cbn in *; try (by apply not_elem_of_nil in Hc); try (eexists; split; [done|set_solver]).
  - apply list_elem_of_singleton in Hc as ->. by rewrite closed_sock_opened in Ho.
  - destruct Hok as (_ & _ & _ & _ & _ & [H1 H2] & _). set_unfold. destruct Hc as [->|[->|[]]]; congruence.
  - apply elem_of_cons in Hc as [->|Hc]; [by rewrite closed_sock_opened in Ho|]. by eexists.
Qed.

Lemma thread_step_ok e t th p stop m o :
  edge_ok e → threads e !! t = Some th → tstep (px e) (socks e) th p stop m o → edge_ok (after e t p stop m o).
Proof.
  intros Hok Hth Hs. pose proof (tstep_tame _ _ _ _ _ _ _ Hs) as Ht. split.
  - destruct (tstep_px _ _ _ _ _ _ _ Hs) as [->|Hp]; [exact (ok_cut e Hok)|]. exact (cut_edge_empty _ _ Hp (ok_cut e Hok)).
  - assert (∀ t1 th1 th' c, threads e !! t1 = Some th1 → t1 ≠ t → o = Some th' → c ∈ owns th1 → c ∈ owns th' → False) as Hne.
    { intros t1 th1 th' c H1 Hd -> Hc Hc'. destruct (tstep_owns _ _ _ _ _ _ _ c Hs Hc') as [Hc2|Hc2].
      - apply Hd. by eapply (ok_apart e Hok).
      - destruct (ok_threads e Hok _ _ H1) as [Hin _]. rewrite Forall_forall in Hin. destruct (Hin c Hc). congruence. }
    intros t1 t2 th1 th2 c. cbn. destruct (decide (t1 = t)) as [->|H1], (decide (t2 = t)) as [->|H2]; [done| | |];
      rewrite ?lookup_partial_alter_eq; rewrite ?lookup_partial_alter_ne by done.
    + intros -> Ht2 Hc Hc2. by destruct (Hne _ _ _ c Ht2 H2 eq_refl Hc2 Hc).
    + intros Ht1 -> Hc Hc2. by destruct (Hne _ _ _ c Ht1 H1 eq_refl Hc Hc2).
    + apply (ok_apart e Hok).
  - intros t1 th1. cbn. destruct (decide (t1 = t)) as [->|H1].
    { rewrite lookup_partial_alter_eq. by apply own_thread_ok with th. }
    rewrite lookup_partial_alter_ne by done. intros Ht1.
    assert (∀ c, c ∈ owns th1 → c ∉ owns th) as Hap by (intros c Hc Hc'; apply H1; by eapply (ok_apart e Hok)).
    apply (frame_ok e _ (owns th)); [done..| |by apply (ok_threads e Hok t1)].
    intros c Hc Ho. apply covered_thread with th; [done..| |done]. intros Hc'. by destruct (Hap c Hc).
  - intros c Ho. cbn in *. destruct (socks e !! c) as [s|] eqn:Es.
    + destruct (ok_held e Hok c) as (t0 & th0 & Ht0 & Hc); [by eapply (tame_opened _ _ _ c Ht)|].
      destruct (decide (t0 = t)) as [->|Hne]; [|exists t0, th0; by rewrite lookup_partial_alter_ne].
      rewrite Hth in Ht0. simplify_eq. exists t. rewrite lookup_partial_alter_eq.
      by apply (tstep_lets_go e th0 p stop m o c (ok_threads e Hok t th0 Hth)).
    + assert (is_Some (m !! c)) as Hm by (unfold opened in Ho; by destruct (m !! c)).
      destruct (tstep_appears _ _ _ _ _ _ _ c Hs Es Hm) as [client ->]. exists t. rewrite lookup_partial_alter_eq. eexists. split; [done|]. cbn. set_solver.
Qed.

(** A step that adds at most one goroutine, which answers for a new connection or
    for none, and takes nothing from the others. *)
Lemma grown_ok e e' (t : nat) (th : option thread) :
  edge_ok e → threads e !! t = None → threads e' = partial_alter (λ _, th) t (threads e) →
  tame [] (socks e) (socks e') → (px e' = px e ∨ pstep (px e) (px e')) →
  (∀ c, covered e c → covered e' c) →
  (∀ th0, th = Some th0 → thread_ok e' th0 ∧ ∀ c, c ∈ owns th0 → socks e !! c = None) →
  (∀ c, socks e !! c = None → opened (socks e') c = true → ∃ th0, th = Some th0 ∧ c ∈ holding th0) →
  edge_ok e'.
Proof.
  intros Hok Hfree Hth Ht Hp Hcov Hnew Hopen.
  assert (∀ t1 th1, threads e' !! t1 = Some th1 → t1 = t ∧ th = Some th1 ∨ t1 ≠ t ∧ threads e !! t1 = Some th1) as Hcase.
  { intros t1 th1. rewrite Hth. destruct (decide (t1 = t)) as [->|Hne]; [rewrite lookup_partial_alter_eq; by left|].
    rewrite lookup_partial_alter_ne by done. by right. }
  assert (∀ t1 th1 c, threads e !! t1 = Some th1 → c ∈ owns th1 → is_Some (socks e !! c)) as Hin.
  { intros t1 th1 c H1 Hc. destruct (ok_threads e Hok _ _ H1) as [Hin _]. rewrite Forall_forall in Hin. by apply Hin. }
  split.
  - destruct Hp as [->|Hp]; [exact (ok_cut e Hok)|exact (cut_edge_empty _ _ Hp (ok_cut e Hok))].
  - intros t1 t2 th1 th2 c H1 H2 Hc1 Hc2. destruct (Hcase _ _ H1) as [[-> E1]|[N1 E1]], (Hcase _ _ H2) as [[-> E2]|[N2 E2]]; [done|..].
    + destruct (Hin _ _ c E2 Hc2). rewrite (proj2 (Hnew _ E1) c Hc1) in *. done.
    + destruct (Hin _ _ c E1 Hc1). rewrite (proj2 (Hnew _ E2) c Hc2) in *. done.
    + by eapply (ok_apart e Hok).
  - intros t1 th1 H1. destruct (Hcase _ _ H1) as [[-> E1]|[N1 E1]]; [by apply Hnew|].
    apply (frame_ok e _ []); [done|set_solver|by auto|]. by apply (ok_threads e Hok t1).
  - intros c Ho. destruct (socks e !! c) as [s|] eqn:Es.
    + destruct (ok_held e Hok c) as (t0 & th0 & Ht0 & Hc); [by eapply (tame_opened _ _ _ c Ht)|].
      exists t0, th0. rewrite Hth. destruct (decide (t0 = t)) as [->|Hne]; [congruence|]. by rewrite lookup_partial_alter_ne.
    + destruct (Hopen c Es Ho) as (th0 & -> & Hc). exists t, th0. by rewrite Hth, lookup_partial_alter_eq.
Qed.

Lemma new_edge_ok : edge_ok new_edge.
Proof. split; [done|..]; cbn; intros *; rewrite ?lookup_empty; done. Qed.

(** The same, with no goroutine added. *)
Lemma kept_ok e e' :
  edge_ok e → threads e' = threads e → tame [] (socks e) (socks e') → (px e' = px e ∨ pstep (px e) (px e')) →
  live (px e') = live (px e) → (∀ c, socks e !! c = None → socks e' !! c = None) → edge_ok e'.
Proof.
  intros Hok Hth Ht Hp Hl Hn. set (t := fresh (dom (threads e))).
  assert (threads e !! t = None) as Hfree by (apply not_elem_of_dom, is_fresh).
  apply (grown_ok e e' t None); try done.
  - rewrite Hth. symmetry. change (delete t (threads e) = threads e). by apply delete_id.
  - intros c. unfold covered. by rewrite Hl, Hth.
  - intros c Hc. unfold opened. by rewrite Hn.
Qed.

Lemma covered_insert e t th p b m c :
  threads e !! t = None → live (px e) ⊆ live p → covered e c → covered (mkEdge p b m (<[t := th]> (threads e))) c.
Proof.
  intros Hfree Hl [Hc|(t0 & l & Ht0 & Hc)]; [left; cbn; set_solver|]. right. exists t0, l. cbn.
  rewrite lookup_insert_ne by congruence. done.
Qed.

Lemma estep_ok e e' : edge_ok e → estep e e' → edge_ok e'.
Proof.
  intros Hok Hs. destruct Hs as [t th p stop m o Hth Hs|c t _ Hc Hfree|t Hfree| |d|t Hfree|c b].
  - by apply (thread_step_ok e t th).
  - eapply (grown_ok e _ t (Some _)); [done|done|reflexivity|by apply tame_fresh|right; constructor|..]; cbn.
    + intros c'. apply covered_insert; [done|]. unfold track. destruct (_ || _); cbn; set_solver.
    + intros th0 [= <-]. destruct (dropped (px e) || closed (px e)) eqn:E; (split; [|set_solver]); unfold thread_ok; cbn.
      * split; [|done]. repeat constructor. by rewrite lookup_insert_eq.
      * split; [repeat constructor; by rewrite lookup_insert_eq|]. split; [exists fresh_sock; by rewrite lookup_insert_eq|].
        intros _. left. cbn. unfold track. rewrite E. cbn. set_solver.
    + intros c' Hc' Ho. eexists. split; [done|]. destruct (decide (c' = c)) as [->|Hne]; [destruct (_ || _); cbn; set_solver|].
      unfold opened in Ho. by rewrite lookup_insert_ne, Hc' in Ho by done.
  - eapply (grown_ok e _ t (Some _)); [done|done|reflexivity|apply tame_refl|right; constructor|..]; cbn.
    + intros c [Hc|(t0 & l & Ht0 & Hc)]; right; [exists t, (elements (live (px e))); cbn; rewrite lookup_insert_eq; set_solver|].
      exists t0, l. cbn. rewrite lookup_insert_ne by congruence. done.
    + intros th0 [= <-]. split; [by split; [constructor|]|]. cbn. set_solver.
    + intros c Hc. unfold opened. by rewrite Hc.
  - apply (kept_ok e); try done; [apply tame_refl|right; constructor].
  - apply (kept_ok e); try done; [apply tame_refl|right; constructor].
  - eapply (grown_ok e _ t (Some _)); [done|done|reflexivity|apply tame_refl|right; constructor|..]; cbn.
    + intros c. by apply covered_insert.
    + intros th0 [= <-]. split; [by split; [constructor|]|]. cbn. set_solver.
    + intros c Hc. unfold opened. by rewrite Hc.
  - apply (kept_ok e); try done; [|by left|intros c'; apply alter_absent].
    apply tame_alter. intros s. cbn. split; [done|]. split; [by exists b|done].
Qed.

Lemma reachable_ok e : rtc estep new_edge e → edge_ok e.
Proof. generalize new_edge_ok. intros H0 Hr. induction Hr as [|e0 e1 e2 Hs _ IH]; [done|]. apply IH. by eapply estep_ok. Qed.

(** ** What an edge does *)

(** All that was written to a connection. *)
Definition delivered (e : edge_state) (c : nat) : bytes := match socks e !! c with Some s => near s | None => [] end.
(** All that its far end has sent. *)
Definition offered (e : edge_state) (c : nat) : bytes := match socks e !! c with Some s => far s | None => [] end.

(** The edge is cut, and every call that cut it has returned. *)
Definition cut (e : edge_state) : Prop :=
  dropped (px e) = true ∧ ∀ t l, threads e !! t = Some (TClose l) → l = [].

(** No step of a cut edge writes: the connections of its copies are closed. *)
Lemma cut_writes_nothing e e' c : edge_ok e → cut e → estep e e' → delivered e' c = delivered e c.
Proof.
  intros Hok [Hd Hcl] Hs. pose proof (ok_cut e Hok Hd) as Hl.
  assert (∀ c', guarded e c' → opened (socks e) c' = false) as Hg.
  { intros c' Hg. destruct (opened (socks e) c') eqn:E; [|done]. destruct (Hg E) as [Hc|(t0 & l & Ht0 & Hc)]; [set_solver|].
    rewrite (Hcl _ _ Ht0) in Hc. set_solver. }
  assert (∀ f x, (∀ s, near (f s) = near s) → match alter f x (socks e) !! c with Some s => near s | None => [] end = delivered e c) as Ha.
  { intros f x Hf. unfold delivered. destruct (decide (c = x)) as [<-|Hne]; [|by rewrite lookup_alter_ne].
    rewrite lookup_alter_eq. destruct (socks e !! c); [apply Hf|done]. }
  assert (∀ x, socks e !! x = None → match <[x := fresh_sock]> (socks e) !! c with Some s => near s | None => [] end = delivered e c) as Hf.
  { intros x Hx. unfold delivered. destruct (decide (c = x)) as [<-|Hne]; [by rewrite lookup_insert_eq, Hx|by rewrite lookup_insert_ne]. }
  assert (∀ dst src q q' m, pipe_step dst src (socks e) q q' m → opened (socks e) dst = false →
    match m !! c with Some s => near s | None => [] end = delivered e c) as Hp.
  { intros dst src q q' m Hps Ho. destruct Hps; try congruence; try done; by apply Ha. }
  destruct Hs as [t th p stop m o Hth Hs|x t _ Hc Hfree|t Hfree| |d|t Hfree|x b]; unfold delivered at 1; cbn; try done; [|by apply Hf|by apply Ha].
  destruct (ok_threads e Hok t th Hth) as [_ Hto].
  destruct Hs; try done; try (by apply Ha); try (by apply Hf); destruct Hto as (_ & Hg1 & Hg2 & _); by eapply Hp, Hg.
Qed.

Lemma cut_stays e e' : edge_ok e → cut e → estep e e' → dropped (px e') = true → cut e'.
Proof.
  intros Hok [Hd Hcl] Hs Hd'. split; [done|]. pose proof (ok_cut e Hok Hd) as Hl.
  destruct Hs as [t th p stop m o Hth Hs|x t _ Hc Hfree|t Hfree| |d|t Hfree|x b]; cbn; try done; intros t0 l.
  - destruct (decide (t0 = t)) as [->|Hne]; [|rewrite lookup_partial_alter_ne by done; apply Hcl].
    rewrite lookup_partial_alter_eq. intros ->. inversion Hs; subst; [|by rewrite Hl].
    specialize (Hcl _ _ Hth). done.
  - rewrite lookup_insert_Some. intros [[_ H]|[_ H]]; [by destruct (_ || _)|by eapply Hcl].
  - rewrite lookup_insert_Some. intros [[_ H]|[_ H]]; [|by eapply Hcl]. rewrite Hl, elements_empty in H. congruence.
  - rewrite lookup_insert_Some. intros [[_ H]|[_ H]]; [done|by eapply Hcl].
Qed.

(** C30: A cut edge carries nothing.  Once the call that cuts an edge has returned,
    and for as long as the edge stays cut, not a byte is written to any connection
    through it in either direction, whatever its goroutines were doing when it was
    cut, whoever connects meanwhile and however often it is cut again. *)
Theorem cut_edge_silent e e' c :
  rtc estep new_edge e → cut e → rtc (λ a b, estep a b ∧ dropped (px b) = true) e e' →
  delivered e' c = delivered e c.
Proof.
  intros Hr Hc Hs. pose proof (reachable_ok e Hr) as Hok. clear Hr.
  induction Hs as [|e0 e1 e2 [Hs Hd] _ IH]; [done|].
  rewrite IH; [by apply cut_writes_nothing|by eapply cut_stays|by eapply estep_ok].
Qed.

(** C31: An edge forwards faithfully.  While a connection is forwarded, what the
    node behind the edge has received is a prefix of what the caller sent, and what
    the caller received a prefix of what the node sent: the copies lose, reorder
    and invent nothing before they stop, with the edge being cut, restored and
    delayed at any time. *)
Theorem forwards_in_order e t client server up down :
  rtc estep new_edge e → threads e !! t = Some (TPipes client server up down) →
  delivered e server `prefix_of` offered e client ∧ delivered e client `prefix_of` offered e server.
Proof.
  intros Hr Ht. destruct (ok_threads e (reachable_ok e Hr) _ _ Ht) as (_ & _ & _ & _ & H1 & H2 & _).
  assert (∀ dst src q, carried (socks e) dst src q → delivered e dst `prefix_of` offered e src) as H.
  { intros dst src q (d & s & Ed & Es & Hl & Hq). unfold delivered, offered. rewrite Ed, Es.
    trans (take (nread s) (far s)); [|exists (drop (nread s) (far s)); by rewrite take_drop].
    destruct q; [by rewrite Hq|rewrite <- Hq; by apply prefix_app_r|done..]. }
  split; by eapply H.
Qed.

(** No connection is leaked: when the goroutines of an edge have finished, every
    connection it accepted or dialled is closed. *)
Theorem no_leak e c : rtc estep new_edge e → threads e = ∅ → opened (socks e) c = false.
Proof.
  intros Hr Ht. destruct (opened (socks e) c) eqn:E; [|done].
  destruct (ok_held e (reachable_ok e Hr) c E) as (t & th & H & _). by rewrite Ht in H.
Qed.

(** ** A run: a connection is forwarded, and the edge is cut under it *)

Definition hello : bytes := [Byte.x68; Byte.x69].

Definition forwarding : edge_state :=
  mkEdge (mkProxy false 0 {[0%nat; 1%nat]} false) true
    {[0%nat := mkSock hello 2 [] true; 1%nat := mkSock [] 0 hello true]} {[0%nat := TPipes 0 1 PRead PRead]}.
Definition severed : edge_state :=
  mkEdge (mkProxy true 0 ∅ false) true
    {[0%nat := mkSock hello 2 [] false; 1%nat := mkSock [] 0 hello false]}
    {[0%nat := TPipes 0 1 PRead PRead; 1%nat := TClose []]}.

Ltac thread_step t c := eapply rtc_l; [eapply (e_thread _ t); [reflexivity|c]|].
Ltac run_ends := match goal with |- rtc _ ?a ?b => replace a with b by (vm_compute; reflexivity) end; apply rtc_refl.

Lemma forwarding_reached : rtc estep new_edge forwarding.
Proof.
  eapply rtc_l; [by apply (e_accept _ 0 0)|]. thread_step 0%nat ltac:(by apply (t_dial _ _ _ 1%nat)).
  thread_step 0%nat ltac:(by apply t_register). eapply rtc_l; [apply (e_far _ 0%nat hello)|].
  thread_step 0%nat ltac:(apply t_up, (ps_read _ _ _ 2 false); [done|vm_compute; lia|done]).
  thread_step 0%nat ltac:(apply t_up, ps_write; done). run_ends.
Qed.

Lemma severed_reached : rtc estep forwarding severed.
Proof.
  eapply rtc_l; [by apply (e_cut _ 1%nat)|]. thread_step 1%nat ltac:(apply t_close). thread_step 1%nat ltac:(apply t_close). run_ends.
Qed.

Lemma forwards_in_order_witness :
  delivered forwarding 1 = hello ∧ delivered forwarding 1 `prefix_of` offered forwarding 0.
Proof. split; [reflexivity|]. apply (forwards_in_order forwarding 0 0 1 PRead PRead); [apply forwarding_reached|reflexivity]. Defined.

Lemma cut_edge_silent_witness :
  let e' := mkEdge (px severed) true (send_far 0 hello (socks severed)) (threads severed) in
  cut severed ∧ offered e' 0 = hello ++ hello ∧ delivered e' 1 = delivered severed 1.
Proof.
  intros e'. assert (cut severed) as Hc.
  { split; [done|]. intros t l. unfold severed. cbn. rewrite lookup_insert_Some, lookup_singleton_Some. naive_solver. }
  split; [done|]. split; [reflexivity|]. apply (cut_edge_silent severed e' 1); [|done|].
  - trans forwarding; [apply forwarding_reached|apply severed_reached].
  - eapply rtc_l; [split; [apply (e_far _ 0%nat hello)|done]|apply rtc_refl].
Defined.
