(* ===== verification/Storm.v ===== *)
(** * internal/nemesis/workload.go: the storm of clients

    [Run] and its client goroutines: which operation a client draws next, how it
    drives it, and the whole workload running against the replicated state machine.
    The bookkeeping of one operation is Module Workload of Nemesis; here the clients
    share one [Workload] and one machine, and what the final [Verify] reports is
    proved of all of them together. *)

From stdpp Require Import prelude gmap strings.
From coqutil Require Import Byte.
From S2P Require Import Prelude GoBytes GoStrings GoText MemStore Command.
From S2P Require Import RaftTypes Membership Core Node KvStateMachine Checker Nemesis.
Import Workload.
Open Scope Z_scope.

(** ** The client *)

Inductive workOp :=
  | DoPut (serial : Z) (key val : gostring)
  | DoDelete (serial : Z) (key : gostring)
  | DoGet (key : gostring).

(** [fmt.Sprintf("c%d-k%d", c, j)], [("shared-k%d", j)] and [("c%d-s%d", c, serial)] *)
Definition own_key (c j : Z) : gostring := str "c" ++ Itoa c ++ str "-" ++ str "k" ++ Itoa j.
Definition shared_key (j : Z) : gostring := str "shared-k" ++ Itoa j.
Definition val_of (c serial : Z) : gostring := str "c" ++ Itoa c ++ str "-" ++ str "s" ++ fmt_d serial.

Section client.
Context (KeysPerClient : Z) (resolve : gostring → option gostring).
(** [rand.New(rand.NewSource(w.Seed + int64(c)*7919))]: the draws of client [c]. *)
Context (draw : Z → nat → Z → Z).

(** [rng.Intn(n)]; the state is the number of draws made. *)
Definition Intn (c n : Z) : M nat Z := λ k, if n <=? 0 then (Panic, k) else (Ok (draw c k n), S k).

(** [conns]: the addresses dialled; [dial] is [grpc.NewClient]. *)
Fixpoint conns_loop (dial : gostring → option error) (addrs : list gostring) (pool : gset gostring) : outcome (gset gostring) :=
  match addrs with
  | [] => Ok pool
  | a :: addrs' => match dial a with Some err => Err err | None => conns_loop dial addrs' ({[a]} ∪ pool) end
  end.
Definition conns (dial : gostring → option error) (w : Workload) : outcome (gset gostring) := conns_loop dial (Addrs w) ∅.

(** The head of [client]'s loop: the operation it does next, and its serial. *)
Definition next_op (shared : bool) (c serial : Z) : M nat (workOp * Z) :=
  j ← Intn c KeysPerClient;
  key ← (if shared then j' ← Intn c KeysPerClient; mret (shared_key j') else mret (own_key c j));
  pick ← Intn c 100;
  let serial' := (serial + 1) mod 2 ^ 64 in
  mret (if pick <? 55 then (DoPut serial' key (val_of c serial'), serial')
        else if shared && (pick <? 65) then (DoDelete serial' key, serial')
        else (DoGet key, serial)).

(** The servers' answers to the attempts of one operation. *)
Record answers := mkAns {
  to_put : list (gostring → () + gostring);
  to_delete : list (gostring → () + gostring);
  to_get : list (gostring → gostring * bool + gostring);
  invoke : Z;
  return_ : Z }.

(** The switch of [client]: driving the operation; the result is the node to ask
    next. *)
Definition run_op (pool : gset gostring) (c : Z) (op : workOp) (a : answers) (cur : gostring) : M Workload gostring :=
  match op with
  | DoPut serial key val => doPut resolve pool (to_put a) cur (c + 1) serial key val (invoke a) (return_ a)
  | DoDelete serial key => doDelete resolve pool (to_delete a) cur (c + 1) key (invoke a) (return_ a)
  | DoGet key => doGet resolve pool (to_get a) cur c key (invoke a) (return_ a)
  end.

(** A client goroutine: draws made, node it talks to, last serial, operation under
    way; and, of its session, the writes it has sent and those that were applied. *)
Record worker := mkWk {
  drawn : nat; cur : gostring; wserial : Z; busy : option workOp;
  sent : gmap Z (gostring * gostring); applied : gset Z }.

(** The first lines of [client]. *)
Definition client_start (c : Z) (addrs : list gostring) : outcome worker :=
  match Intn c (zlength addrs) 0%nat with
  | (Ok i, k) => a ← zindex addrs i; Ok (mkWk k a 0 None ∅ ∅)
  | _ => Panic
  end.

(** ** The workload and the cluster *)

Record storm := mkStorm { board : Workload; sm : stateMachine; workers : gmap Z worker }.

(** [Run] spawns [Clients] clients; a goroutine that panics ends the process. *)
Fixpoint spawn (n : nat) (addrs : list gostring) (m : gmap Z worker) : outcome (gmap Z worker) :=
  match n with
  | O => Ok m
  | S n' => w ← client_start (Z.of_nat n') addrs; spawn n' addrs (<[Z.of_nat n' := w]> m)
  end.
Definition Run (Clients : nat) (w : Workload) : outcome storm :=
  ws ← spawn Clients (Addrs w) ∅; mret (mkStorm w newStateMachine ws).

(** Some attempt of the put was acknowledged. *)
Definition acknowledges (a : answers) : Prop := ∃ call addr, call ∈ to_put a ∧ call addr = inl ().

Inductive wstep (pool : gset gostring) (s : storm) : storm → Prop :=
  (* a client draws its next operation and starts sending it *)
  | w_begin c w op serial k :
      workers s !! c = Some w → busy w = None → wserial w + 1 < 2 ^ 64 →
      next_op (SharedKeys (board s)) c (wserial w) (drawn w) = (Ok (op, serial), k) →
      wstep pool s (mkStorm (board s) (sm s)
        (<[c := mkWk k (cur w) serial (Some op)
                  (match op with DoPut n key val => <[n := (key, val)]> (sent w) | _ => sent w end) (applied w)]> (workers s)))
  (* the log delivers a write, the first time or again *)
  | w_deliver c w n key val :
      workers s !! c = Some w → sent w !! n = Some (key, val) →
      wstep pool s (mkStorm (board s) (Apply 0 (kvEncodeCommand (write (c + 1) n key val)) (sm s))
        (<[c := mkWk (drawn w) (cur w) (wserial w) (busy w) (sent w) ({[n]} ∪ applied w)]> (workers s)))
  (* the operation ends, acknowledged only if its write was applied, or given up *)
  | w_end c w op a cur' b :
      workers s !! c = Some w → busy w = Some op →
      (∀ n key val, op = DoPut n key val → acknowledges a → n ∈ applied w) →
      run_op pool c op a (cur w) (board s) = (Ok cur', b) →
      wstep pool s (mkStorm b (sm s)
        (<[c := mkWk (drawn w) cur' (wserial w) None (sent w) (applied w)]> (workers s))).
End client.

(** ** Keys belong to clients *)

Definition prefix_key (c : Z) : gostring := str "c" ++ Itoa c ++ str "-".
Definition owned (c : Z) (key : gostring) : Prop := HasPrefix key (prefix_key c) = true.
#[export] Instance owned_dec c key : Decision (owned c key) := bool_eq_dec _ _.

Lemma Itoa_no_dash c : 0 ≤ c < 2 ^ 63 → forallb (λ b, negb (Byte.eqb b (byte.of_Z 45))) (Itoa c) = true.
Proof.
  intros Hc. unfold Itoa. rewrite (proj2 (Z.ltb_ge _ _)) by lia.
  destruct (fmt_d_digits c) as (ds & -> & Hd & _); [unfold is_u64; lia|].
  induction Hd as [|d ds Hd _ IH]; [done|]. rewrite fmap_cons. cbn [forallb]. rewrite IH, andb_true_r. apply negb_true_iff, not_true_iff_false.
  intros He%Byte.byte_dec_bl%(f_equal byte.unsigned). unfold digit in He.
  rewrite !byte.unsigned_of_Z in He. unfold byte.wrap in He. rewrite !Z.mod_small in He by lia. lia.
Qed.

(** A key has one owner. *)
Lemma owned_unique c c' key : 0 ≤ c < 2 ^ 63 → 0 ≤ c' < 2 ^ 63 → owned c key → owned c' key → c = c'.
Proof.
  unfold owned, HasPrefix. intros Hc Hc' [r Hr]%bool_decide_eq_true [r' Hr']%bool_decide_eq_true.
  assert (Itoa c ++ byte.of_Z 45 :: r = Itoa c' ++ byte.of_Z 45 :: r') as He.
  { subst key. unfold prefix_key in Hr'. rewrite <-!app_assoc in Hr'. by injection Hr'. }
  pose proof (f_equal (λ s, IndexByte s (byte.of_Z 45)) He) as Hi. cbn beta in Hi.
  rewrite !IndexByte_app in Hi by (by apply Itoa_no_dash). injection Hi as Hi.
  apply app_inj_1 in He as [He _]; [|done]. apply (f_equal Atoi) in He. rewrite !Atoi_Itoa in He by done. congruence.
Qed.

Lemma own_key_owned c j : owned c (own_key c j).
Proof. apply bool_decide_eq_true. exists (str "k" ++ Itoa j). unfold own_key, prefix_key. by rewrite <-!app_assoc. Qed.

Lemma fmt_d_short n : is_u64 n → zlength (fmt_d n) ≤ 20.
Proof. intros Hn. destruct (digits20 n Hn) as (_ & _ & Hl & _). unfold fmt_d. rewrite length_fmap. lia. Qed.

Lemma own_key_short c j : 0 ≤ c < 2 ^ 63 → 0 ≤ j < 2 ^ 63 → zlength (own_key c j) < 2 ^ 32.
Proof.
  intros Hc Hj. unfold own_key, Itoa. rewrite !(proj2 (Z.ltb_ge _ _)) by lia. rewrite !length_app.
  assert (zlength (fmt_d c) ≤ 20 ∧ zlength (fmt_d j) ≤ 20) as [] by (split; apply fmt_d_short; unfold is_u64; lia).
  change (length (str "c")) with 1%nat. change (length (str "-")) with 1%nat. change (length (str "k")) with 1%nat. lia.
Qed.
Lemma val_of_short c n : 0 ≤ c < 2 ^ 63 → is_u64 n → zlength (val_of c n) < 2 ^ 32.
Proof.
  intros Hc Hn. unfold val_of, Itoa. rewrite !(proj2 (Z.ltb_ge _ _)) by lia. rewrite !length_app.
  assert (zlength (fmt_d c) ≤ 20 ∧ zlength (fmt_d n) ≤ 20) as [] by (split; apply fmt_d_short; unfold is_u64 in *; lia).
  change (length (str "c")) with 1%nat. change (length (str "-")) with 1%nat. change (length (str "s")) with 1%nat. lia.
Qed.

(** ** What one operation does *)

Section storm.
Context (KeysPerClient : Z) (resolve : gostring → option gostring) (draw : Z → nat → Z → Z).
Hypothesis draw_range : ∀ c k n, 0 < n → 0 ≤ draw c k n < n.
Hypothesis keys_range : KeysPerClient < 2 ^ 63.

(** A client that shares no key draws a put of its next serial to a key of its own,
    or a read. *)
Lemma next_op_spec c serial k op serial' k' :
  next_op KeysPerClient draw false c serial k = (Ok (op, serial'), k') →
  (∃ j, 0 ≤ j < KeysPerClient ∧ op = DoPut ((serial + 1) mod 2 ^ 64) (own_key c j) (val_of c ((serial + 1) mod 2 ^ 64)) ∧
     serial' = (serial + 1) mod 2 ^ 64) ∨
  (∃ key, op = DoGet key ∧ serial' = serial).
Proof.
  unfold next_op. generalize ((serial + 1) mod 2 ^ 64). intros x. unfold mbind, M_bind, Intn, mret, M_ret. cbn -[own_key val_of]. destruct (KeysPerClient <=? 0) eqn:E; [done|]. zify_bool.
  cbn -[own_key val_of]. destruct (_ <? 55); intros [= <- <- _]; [left|right; by eexists].
  eexists. split; [|done]. apply draw_range. lia.
Qed.

Lemma attempts_ack {A} pool (calls : list (gostring → A + gostring)) addrs a r cur' :
  attempts resolve pool calls addrs a = Ok (Some r, cur') → ∃ call addr, call ∈ calls ∧ call addr = inl r.
Proof.
  revert a. induction calls as [|call calls IH]; intros a; [done|]. cbn. destruct (negb _); [done|].
  destruct (call a) as [r'|err] eqn:E.
  - intros [= -> _]. exists call, a. split; [by left|done].
  - destruct (nextAddr _ _ _ _ _) as [a'| | |]; cbn; try done. intros (call' & addr & Hc & Hr)%IH. exists call', addr. split; [by right|done].
Qed.

(** A put notes an acknowledgement, only if one came, or an unknown outcome; a read
    notes nothing. *)
Lemma put_notes pool c n key val a cur0 b cur' b' :
  run_op resolve pool c (DoPut n key val) a cur0 b = (Ok cur', b') →
  ∃ op, acknowledges a ∧ b' = noteAck key n val (record_op op b) ∨ b' = noteUnknown key n val (record_op op b).
Proof.
  unfold run_op, doPut, mbind, M_bind, get, lift, modify, mret, M_ret.
  destruct (attempts _ _ _ _ _) as [[r a']| | |] eqn:E; try done. destruct r as [[]|]; intros [= _ <-].
  - eexists. left. split; [|done]. apply attempts_ack in E as (call & addr & ? & ?). by exists call, addr.
  - eexists. by right.
Qed.
Lemma get_notes pool c key a cur0 b cur' b' :
  run_op resolve pool c (DoGet key) a cur0 b = (Ok cur', b') → ∃ op, b' = record_op op b.
Proof.
  unfold run_op, doGet, mbind, M_bind, get, lift, modify, mret, M_ret.
  destruct (attempts _ _ _ _ _) as [[r a']| | |] eqn:E; try done. intros [= _ <-]. by eexists.
Qed.

(** ** Each client's share of the storm is a client of Nemesis *)

Definition flying_of (op : option workOp) : option (Z * gostring * gostring) :=
  match op with Some (DoPut n key val) => Some (n, key, val) | _ => None end.

(** What client [c] sees: its session, the machine, and the notes on its keys. *)
Definition share (c : Z) (w : worker) (s : storm) : client :=
  mkCl (wserial w) (flying_of (busy w)) (sent w) (applied w) (sm s)
    (mkW false [] [] (filter (λ '(key, _), owned c key) (state (board s)))).

Definition storm_ok (s : storm) : Prop :=
  SharedKeys (board s) = false ∧
  (∀ key, is_Some (state (board s) !! key) → ∃ c, is_Some (workers s !! c) ∧ owned c key) ∧
  ∀ c w, workers s !! c = Some w →
    0 ≤ c < 2 ^ 63 ∧ (∀ op, busy w = Some op → ∀ n key, op ≠ DoDelete n key) ∧
    ∃ top, cinv (c + 1) (owned c) top (share c w s).

(** Notes on a key of its own are noted in a client's share, and those on others'
    keys leave it alone. *)
Lemma share_stateFor c b key :
  owned c key → stateFor key (mkW false [] [] (filter (λ '(key, _), owned c key) (state b))) = stateFor key b.
Proof.
  intros Ho. unfold stateFor. cbn. f_equal. destruct (state b !! key) as [st|] eqn:E.
  - by apply map_lookup_filter_Some.
  - apply map_lookup_filter_None. by left.
Qed.
Lemma state_set m (key : gostring) (st : keyState) : (mkW false [] [] m) <| state ::= <[key := st]> |> = mkW false [] [] (<[key := st]> m).
Proof. reflexivity. Qed.
Lemma share_ack c b key n val :
  SharedKeys b = false → owned c key →
  mkW false [] [] (filter (λ '(key, _), owned c key) (state (noteAck key n val b))) =
  noteAck key n val (mkW false [] [] (filter (λ '(key, _), owned c key) (state b))).
Proof.
  intros Hb Ho. unfold noteAck. cbn [SharedKeys]. rewrite Hb, share_stateFor, state_set by done. f_equal. by apply (map_filter_insert_True _ _ key).
Qed.
Lemma share_unknown c b key n val :
  SharedKeys b = false → owned c key →
  mkW false [] [] (filter (λ '(key, _), owned c key) (state (noteUnknown key n val b))) =
  noteUnknown key n val (mkW false [] [] (filter (λ '(key, _), owned c key) (state b))).
Proof.
  intros Hb Ho. unfold noteUnknown. cbn [SharedKeys]. rewrite Hb, share_stateFor, state_set by done. f_equal. by apply (map_filter_insert_True _ _ key).
Qed.
Lemma share_other (c : Z) (m : gmap gostring keyState) (key : gostring) (st : keyState) :
  ¬ owned c key → filter (λ '(key, _), owned c key) (<[key := st]> m) = filter (λ '(key, _), owned c key) m.
Proof.
  intros Ho. apply map_eq. intros k. destruct (decide (k = key)) as [->|Hne].
  - rewrite !(proj2 (map_lookup_filter_None _ _ _)); [done|right; by intros ? ? ?..].
  - apply option_eq. intros x. rewrite !map_lookup_filter_Some. by rewrite lookup_insert_ne.
Qed.

(** The share of another client after a note of client [c]. *)
Lemma share_noted c key n val b op :
  ¬ owned c key →
  filter (λ '(key, _), owned c key) (state (noteAck key n val (record_op op b))) = filter (λ '(key, _), owned c key) (state b) ∧
  filter (λ '(key, _), owned c key) (state (noteUnknown key n val (record_op op b))) = filter (λ '(key, _), owned c key) (state b).
Proof.
  intros Ho. unfold noteAck, noteUnknown. cbn. destruct (SharedKeys b); [done|]. cbn. by rewrite !share_other.
Qed.

Lemma storm_begin s c w op serial k :
  storm_ok s → workers s !! c = Some w → busy w = None → wserial w + 1 < 2 ^ 64 →
  next_op KeysPerClient draw false c (wserial w) (drawn w) = (Ok (op, serial), k) →
  let w' := mkWk k (cur w) serial (Some op)
    (match op with DoPut n key val => <[n := (key, val)]> (sent w) | _ => sent w end) (applied w) in
  (∀ n key, op ≠ DoDelete n key) ∧ ∃ top, cinv (c + 1) (owned c) top (share c w' s).
Proof.
  intros (Hb & Hk & Hw) Hc Hbusy Hn Hop w'. destruct (Hw c w Hc) as (Hr & _ & top & Hi).
  destruct (next_op_spec _ _ _ _ _ _ Hop) as [(j & Hj & -> & ->)|(key & -> & ->)]; (split; [done|]).
  - pose proof (v_n _ _ _ _ Hi) as Hn0. cbn in Hn0. subst w'. rewrite (Z.mod_small (_ + 1)) in * by lia.
    eapply cstep_cinv; [..|exact Hi|].
    + unfold is_u64. lia.
    + lia.
    + unfold share. rewrite Hbusy. cbn [wserial busy sent applied flying_of].
      apply (c_issue _ _ (mkCl (wserial w) None (sent w) (applied w) (sm s) _)); cbn; [done|apply own_key_owned|done|..].
      * apply own_key_short; lia.
      * apply val_of_short; unfold is_u64; lia.
  - exists top. unfold share. cbn. unfold share in Hi. rewrite Hbusy in Hi. exact Hi.
Qed.

(** A write of another client is none of this one's business. *)
Lemma storm_deliver_other s c c' w w' n key val :
  storm_ok s → workers s !! c = Some w → workers s !! c' = Some w' → c ≠ c' → sent w !! n = Some (key, val) →
  ∃ top, cinv (c' + 1) (owned c') top
    (share c' w' (mkStorm (board s) (Apply 0 (kvEncodeCommand (write (c + 1) n key val)) (sm s)) (workers s))).
Proof.
  intros (_ & _ & Hw) Hc Hc' Hne Hs. destruct (Hw c w Hc) as (Hr & _ & top & Hi), (Hw c' w' Hc') as (Hr' & _ & top' & Hi').
  destruct (v_issued _ _ _ _ Hi n key val Hs) as (Hn & Ho & Hk & Hv). pose proof (v_n _ _ _ _ Hi) as Hn0. cbn in Hn, Hn0.
  assert (DecodeCommand (EncodeCommand (mkCommand OpPut key val)) = Ok (mkCommand OpPut key val)) as Hd.
  { apply decode_enc. split; [by left|done]. }
  eapply cstep_cinv; [..|exact Hi'|]; [unfold is_u64; lia|lia|].
  apply (c_other _ _ (share c' w' s) _ (mkCommand OpPut key val)); cbn.
  - split; [|by eexists]. split; cbn; unfold is_u64; lia.
  - lia.
  - done.
  - intros Ho'. apply Hne. by eapply owned_unique.
Qed.

Lemma storm_deliver s c w n key val :
  storm_ok s → workers s !! c = Some w → sent w !! n = Some (key, val) →
  ∃ top, cinv (c + 1) (owned c) top
    (share c (mkWk (drawn w) (cur w) (wserial w) (busy w) (sent w) ({[n]} ∪ applied w))
       (mkStorm (board s) (Apply 0 (kvEncodeCommand (write (c + 1) n key val)) (sm s)) (workers s))).
Proof.
  intros (_ & _ & Hw) Hc Hs. destruct (Hw c w Hc) as (Hr & _ & top & Hi).
  eapply cstep_cinv; [..|exact Hi|]; [unfold is_u64; lia|lia|]. by apply (c_deliver _ _ (share c w s)).
Qed.

(** The end of an operation, for its client and for the others. *)
Lemma storm_end pool s c w op a cur' b :
  storm_ok s → workers s !! c = Some w → busy w = Some op →
  (∀ n key val, op = DoPut n key val → acknowledges a → n ∈ applied w) →
  run_op resolve pool c op a (cur w) (board s) = (Ok cur', b) →
  SharedKeys b = false ∧
  (∀ key, is_Some (state b !! key) → is_Some (state (board s) !! key) ∨ owned c key) ∧
  (∃ top, cinv (c + 1) (owned c) top
     (share c (mkWk (drawn w) cur' (wserial w) None (sent w) (applied w)) (mkStorm b (sm s) (workers s)))) ∧
  ∀ c', is_Some (workers s !! c') → c' ≠ c →
    filter (λ '(key, _), owned c' key) (state b) = filter (λ '(key, _), owned c' key) (state (board s)).
Proof.
  intros (Hb & Hk & Hw) Hc Hbusy Hack Hop. destruct (Hw c w Hc) as (Hr & Hdel & top & Hi).
  unfold share in Hi. rewrite Hbusy in Hi. destruct op as [n key val|n key|key]; [| |].
  - destruct (v_flying _ _ _ _ Hi n key val eq_refl) as (_ & Hiss & _).
    destruct (v_issued _ _ _ _ Hi n key val Hiss) as (_ & Ho & _).
    assert (∀ c', is_Some (workers s !! c') → c' ≠ c → ¬ owned c' key) as Hother.
    { intros c' [w' Hw'] Hne Ho'. apply Hne. eapply owned_unique; [by apply (Hw c' w')|done..]. }
    destruct (put_notes _ _ _ _ _ _ _ _ _ _ Hop) as [rec [[Ha ->]| ->]];
      (split; [unfold noteAck, noteUnknown; cbn; rewrite Hb; exact Hb|]); (split;
      [intros k; unfold noteAck, noteUnknown; cbn; rewrite Hb; cbn; destruct (decide (k = key)) as [->|Hne];
        [by right|rewrite lookup_insert_ne by done; by left]|]);
      (split; [|intros c' Hw' Hne; by apply share_noted, Hother]);
      unfold share; cbn [wserial busy sent applied sm board flying_of];
      (eapply cstep_cinv; [..|exact Hi|]; [unfold is_u64; lia|lia|]).
    + rewrite share_ack by done. apply (c_ack _ _ (mkCl _ (Some (n, key, val)) _ _ _ _) n key val); [done|]. by apply (Hack n key val).
    + rewrite share_unknown by done. by apply (c_unknown _ _ (mkCl _ (Some (n, key, val)) _ _ _ _) n key val).
  - by destruct (Hdel _ Hbusy n key).
  - destruct (get_notes _ _ _ _ _ _ _ _ Hop) as [rec ->]. split; [done|]. split; [by left|]. split; [by exists top|done].
Qed.

Lemma wstep_ok pool s s' : storm_ok s → wstep KeysPerClient resolve draw pool s s' → storm_ok s'.
Proof.
  intros Hok Hs. pose proof Hok as (Hb & Hk & Hw).
  destruct Hs as [c w op serial k Hc Hbusy Hn Hop|c w n key val Hc Hsent|c w op a cur' b Hc Hbusy Hack Hop].
  - rewrite Hb in Hop. destruct (storm_begin s c w op serial k Hok Hc Hbusy Hn Hop) as [Hdel Hi].
    split; [done|]. split; [intros key Hkey; destruct (Hk key Hkey) as (c' & Hc' & Ho); exists c'; split; [|done]; cbn; apply lookup_insert_is_Some'; by right|].
    intros c' w'. cbn. rewrite lookup_insert_Some. intros [[<- <-]|[Hne Hc']]; [|by apply Hw].
    split; [by apply (Hw c w)|]. split; [cbn; congruence|exact Hi].
  - split; [done|]. split; [intros k' Hk'; destruct (Hk k' Hk') as (c' & Hc' & Ho); exists c'; split; [|done]; cbn; apply lookup_insert_is_Some'; by right|].
    intros c' w'. cbn. rewrite lookup_insert_Some. intros [[<- <-]|[Hne Hc']].
    + destruct (Hw c w Hc) as (Hr & Hdel & _). split; [done|]. split; [done|]. by apply (storm_deliver s).
    + destruct (Hw c' w' Hc') as (Hr & Hdel & _). split; [done|]. split; [done|]. by apply (storm_deliver_other s c c' w w').
  - destruct (storm_end pool s c w op a cur' b Hok Hc Hbusy Hack Hop) as (Hb' & Hk' & Hi & Hother).
    split; [done|]. split.
    { intros key Hkey. cbn in *. destruct (Hk' key Hkey) as [Hold|Ho].
      - destruct (Hk key Hold) as (c' & Hc' & Ho). exists c'. split; [|done]. apply lookup_insert_is_Some'; by right.
      - exists c. split; [|done]. by rewrite lookup_insert_eq. }
    intros c' w'. cbn. rewrite lookup_insert_Some. intros [[<- <-]|[Hne Hc']].
    + split; [by apply (Hw c w)|]. split; [done|exact Hi].
    + destruct (Hw c' w' Hc') as (Hr & Hdel & top & Hi'). split; [done|]. split; [done|]. exists top.
      unfold share in *. cbn. rewrite Hother; [exact Hi'|by eexists|done].
Qed.

Lemma spawn_workers n addrs m ws c w :
  spawn draw n addrs m = Ok ws → ws !! c = Some w →
  m !! c = Some w ∨ (0 ≤ c < Z.of_nat n ∧ client_start draw c addrs = Ok w).
Proof.
  revert m. induction n as [|n IH]; intros m; cbn; [intros [= <-]; by left|].
  destruct (client_start draw (Z.of_nat n) addrs) as [w0| | |] eqn:E; cbn; try done.
  intros Hs Hc. destruct (IH _ Hs Hc) as [Hm|[Hr Hst]]; [|right; split; [lia|done]].
  apply lookup_insert_Some in Hm as [[<- <-]|[_ Hm]]; [right; split; [lia|done]|by left].
Qed.

Lemma Run_ok Clients addrs s :
  Z.of_nat Clients ≤ 2 ^ 63 → Run draw Clients (mkW false addrs [] ∅) = Ok s → storm_ok s.
Proof.
  intros Hcl. unfold Run. cbn. destruct (spawn _ _ _ _) as [ws| | |] eqn:E; cbn; intros [= <-].
  split; [done|]. split; [cbn; intros key; rewrite lookup_empty; by intros [? ?]|]. cbn. intros c w Hc.
  destruct (spawn_workers _ _ _ _ _ _ E Hc) as [Hm|[Hr Hst]]; [done|]. split; [lia|].
  assert (wserial w = 0 ∧ busy w = None ∧ sent w = ∅ ∧ applied w = ∅) as (H1 & H2 & H3 & H4).
  { unfold client_start in Hst. destruct (Intn _ _ _ _) as [[i| | |] k]; try done. by destruct (zindex addrs i) as [x| | |]; cbn in Hst; simplify_eq. }
  split; [by rewrite H2|]. exists (λ _, 0). unfold share. cbn. rewrite H1, H2, H3, H4, map_filter_empty. apply start_cinv.
Qed.

(** ** Clients do not panic *)

Lemma conns_loop_pool dial addrs pool0 pool :
  conns_loop dial addrs pool0 = Ok pool → pool = list_to_set addrs ∪ pool0.
Proof.
  revert pool0. induction addrs as [|a addrs IH]; intros pool0; cbn; [intros [= <-]; set_solver|].
  destruct (dial a); [done|]. intros ->%IH. set_solver.
Qed.

Lemma nextAddr_pool (pool : gset gostring) addrs a err :
  addrs ≠ [] → (∀ x, x ∈ addrs → x ∈ pool) → ∃ a', nextAddr resolve pool addrs a err = Ok a' ∧ a' ∈ pool.
Proof.
  intros Hne Hin. assert (∀ toks a', hinted resolve pool toks = Some a' → a' ∈ pool) as Hh.
  { intros toks a'. induction toks as [|tok toks IH]; cbn; [done|]. destruct (HasPrefix _ _); [|done].
    destruct (resolve _) as [real|]; repeat case_bool_decide; intros; simplify_eq; auto. }
  unfold nextAddr. destruct (hinted _ _ _) as [a'|] eqn:E; [exists a'; split; [done|by eapply Hh]|].
  assert (∀ i, 0 ≤ i < zlength addrs → ∃ a', zindex addrs i = Ok a' ∧ a' ∈ pool) as Hz.
  { intros i Hi. unfold zindex. rewrite (proj2 (Z.ltb_ge _ _)) by lia.
    destruct (lookup_lt_is_Some_2 addrs (Z.to_nat i)) as [x Hx]; [lia|]. rewrite Hx. exists x. split; [done|]. apply Hin. by eapply list_elem_of_lookup_2. }
  assert (0 < zlength addrs) by (destruct addrs; cbn; [done|lia]).
  destruct (list_find _ _) as [[i ?]|]; apply Hz; [apply Z.mod_pos_bound|]; lia.
Qed.

Lemma attempts_pool {A : Type} (pool : gset gostring) (calls : list (gostring → A + gostring)) addrs a :
  addrs ≠ [] → (∀ x, x ∈ addrs → x ∈ pool) → a ∈ pool →
  ∃ r a', attempts resolve pool calls addrs a = Ok (r, a') ∧ a' ∈ pool.
Proof.
  intros Hne Hin. revert a. induction calls as [|call calls IH]; intros a Ha; cbn; [by exists None, a|].
  rewrite bool_decide_true by done. cbn. destruct (call a) as [r|err]; [by exists (Some r), a|].
  destruct (nextAddr_pool pool addrs a err Hne Hin) as (a' & -> & Ha'). cbn. by apply IH.
Qed.

(** Driving an operation ends, whatever the servers answer, at a node of the pool. *)
Lemma run_op_total pool c op a cur0 b :
  Addrs b ≠ [] → (∀ x, x ∈ Addrs b → x ∈ pool) → cur0 ∈ pool →
  ∃ cur' b', run_op resolve pool c op a cur0 b = (Ok cur', b') ∧ cur' ∈ pool ∧ Addrs b' = Addrs b.
Proof.
  intros Hne Hin Hcur. destruct op as [n key val|n key|key]; cbn; unfold doPut, doDelete, doGet, mbind, M_bind, get, lift, modify, mret, M_ret.
  - destruct (attempts_pool pool (to_put a) (Addrs b) cur0 Hne Hin Hcur) as ([[]|] & a' & -> & Ha'); eexists _, _;
      (split; [reflexivity|]); (split; [done|]); unfold noteAck, noteUnknown; cbn; by destruct (SharedKeys b).
  - destruct (attempts_pool pool (to_delete a) (Addrs b) cur0 Hne Hin Hcur) as (r & a' & -> & Ha'). by eexists _, _.
  - destruct (attempts_pool pool (to_get a) (Addrs b) cur0 Hne Hin Hcur) as (r & a' & -> & Ha'). by eexists _, _.
Qed.

Lemma next_op_total shared c serial k : 0 < KeysPerClient → ∃ r k', next_op KeysPerClient draw shared c serial k = (Ok r, k').
Proof.
  intros Hk. unfold next_op. generalize ((serial + 1) mod 2 ^ 64). intros x. unfold mbind, M_bind, Intn, mret, M_ret.
  rewrite (proj2 (Z.leb_gt _ _)) by lia. destruct shared; by eexists _, _.
Qed.
End storm.

(** C24: Zero acknowledged loss is never reported by mistake.  [Clients] clients storm
    the replicated state machine: each draws its keys, operations and values as the
    code does, follows hints from node to node, and gives up or is acknowledged; the
    log delivers their writes late, repeated and in any order.  Once all have come to
    rest, the final check of every key any of them noted finds a legal value: the
    last acknowledged write, or a later one whose acknowledgement was lost. *)
Theorem Verify_no_false_alarm KeysPerClient resolve draw pool Clients addrs s0 s :
  (∀ c k n, 0 < n → 0 ≤ draw c k n < n) → KeysPerClient < 2 ^ 63 → Z.of_nat Clients ≤ 2 ^ 63 →
  Run draw Clients (mkW false addrs [] ∅) = Ok s0 → rtc (wstep KeysPerClient resolve draw pool) s0 s →
  (∀ c w, workers s !! c = Some w → busy w = None) →
  Verify (λ key, Some (stateMachine_get key (sm s))) (board s) = None.
Proof.
  intros Hd Hk Hcl H0 Hr Hidle. assert (storm_ok s) as (Hb & Hkeys & Hw).
  { pose proof (Run_ok draw Clients addrs s0 Hcl H0) as Hok. clear H0 Hidle. induction Hr as [|s1 s2 s3 Hs _ IH]; [done|].
    apply IH. by eapply wstep_ok. }
  apply Verify_content; [done|]. intros key st Hst. destruct (Hkeys key) as (c & [w Hc] & Ho); [by eexists|].
  destruct (Hw c w Hc) as (_ & _ & top & Hi). eapply (verify_key_ok _ _ _ (share c w s)); [exact Hi| |].
  - unfold share. cbn. by rewrite (Hidle c w Hc).
  - cbn. by apply map_lookup_filter_Some.
Qed.

(** A client whose first write is given up and applied after the second one was
    acknowledged. *)
Definition lucky (c : Z) (k : nat) (n : Z) : Z := 0.
Definition silence : answers := mkAns [] [] [] 1 2.
Definition acknowledgement : answers := mkAns [λ _, inl ()] [] [] 3 4.

Definition idle (w : worker) : bool := match busy w with None => true | Some _ => false end.
Lemma idle_all (ws : gmap Z worker) :
  forallb (λ p, idle p.2) (map_to_list ws) = true → ∀ c w, ws !! c = Some w → busy w = None.
Proof.
  rewrite forallb_forall. intros H c w Hc%elem_of_map_to_list%list_elem_of_In. specialize (H _ Hc). unfold idle in H. cbn in H. by destruct (busy w).
Qed.

(** Runs as lists of actions. *)
Inductive action := ABegin (c : Z) | ADeliver (c n : Z) | AEnd (c : Z) (a : answers).

Definition act (resolve : gostring → option gostring) (pool : gset gostring) (x : action) (s : storm) : option storm :=
  match x with
  | ABegin c =>
      w ← workers s !! c;
      if negb (idle w) || negb (wserial w + 1 <? 2 ^ 64) then None else
      match next_op 1 lucky (SharedKeys (board s)) c (wserial w) (drawn w) with
      | (Ok (op, serial), k) =>
          Some (mkStorm (board s) (sm s)
            (<[c := mkWk k (cur w) serial (Some op)
                      (match op with DoPut n key val => <[n := (key, val)]> (sent w) | _ => sent w end) (applied w)]> (workers s)))
      | _ => None
      end
  | ADeliver c n =>
      w ← workers s !! c; '(key, val) ← sent w !! n;
      Some (mkStorm (board s) (Apply 0 (kvEncodeCommand (write (c + 1) n key val)) (sm s))
        (<[c := mkWk (drawn w) (cur w) (wserial w) (busy w) (sent w) ({[n]} ∪ applied w)]> (workers s)))
  | AEnd c a =>
      w ← workers s !! c; op ← busy w;
      if negb (bool_decide (to_put a = []) || match op with DoPut n _ _ => bool_decide (n ∈ applied w) | _ => true end) then None else
      match run_op resolve pool c op a (cur w) (board s) with
      | (Ok cur', b) => Some (mkStorm b (sm s) (<[c := mkWk (drawn w) cur' (wserial w) None (sent w) (applied w)]> (workers s)))
      | _ => None
      end
  end.

Lemma act_wstep resolve pool x s s' : act resolve pool x s = Some s' → wstep 1 resolve lucky pool s s'.
Proof.
  destruct x as [c|c n|c a]; cbn [act]; intros H.
  - destruct (workers s !! c) as [w|] eqn:Ew; cbn in H; [|done]. destruct (negb (idle w) || _) eqn:E; [done|]. zify_bool.
    destruct (next_op _ _ _ _ _ _) as [[[op serial]| | |] k] eqn:En; try done. injection H as <-. eapply w_begin; [done| |done|done].
    unfold idle in *. by destruct (busy w).
  - destruct (workers s !! c) as [w|] eqn:Ew; cbn in H; [|done]. destruct (sent w !! n) as [[key val]|] eqn:Es; cbn in H; [|done].
    injection H as <-. by apply w_deliver.
  - destruct (workers s !! c) as [w|] eqn:Ew; cbn in H; [|done]. destruct (busy w) as [op|] eqn:Eb; cbn in H; [|done].
    destruct (negb _) eqn:E; [done|]. apply negb_false_iff, orb_true_iff in E.
    destruct (run_op _ _ _ _ _ _ _) as [[cur'| | |] b] eqn:En; try done. injection H as <-. eapply w_end; [done|done| |done].
    intros n key val -> (call & addr & Hin & _). destruct E as [E|E]; zify_bool; [rewrite E in Hin; by apply not_elem_of_nil in Hin|done].
Qed.

Definition play (resolve : gostring → option gostring) (pool : gset gostring) (l : list action) (s : storm) : option storm :=
  foldl (λ o x, o ≫= act resolve pool x) (Some s) l.

Lemma play_reaches resolve pool l s s' : play resolve pool l s = Some s' → rtc (wstep 1 resolve lucky pool) s s'.
Proof.
  unfold play. revert s. induction l as [|x l IH]; intros s; cbn; [intros [= <-]; apply rtc_refl|].
  destruct (act resolve pool x s) as [s1|] eqn:E.
  - intros H. eapply rtc_l; [by eapply act_wstep|by apply IH].
  - intros H. exfalso. clear -H. induction l; [done|auto].
Qed.

Lemma Verify_no_false_alarm_witness :
  ∃ s0 s, Run lucky 1 (mkW false [str "a"] [] ∅) = Ok s0 ∧
    (ackedSerial <$> state (board s) !! own_key 0 0) = Some 2 ∧
    Verify (λ key, Some (stateMachine_get key (sm s))) (board s) = None.
Proof.
  destruct (Run lucky 1 (mkW false [str "a"] [] ∅)) as [s0| | |] eqn:H0; [|by vm_compute in H0..].
  pose (l := [ABegin 0; AEnd 0 silence; ABegin 0; ADeliver 0 2; AEnd 0 acknowledgement; ADeliver 0 1]).
  assert (match Run lucky 1 (mkW false [str "a"] [] ∅) with
          | Ok s0 => match play (λ _, None) {[str "a"]} l s0 with
                     | Some s => bool_decide ((ackedSerial <$> state (board s) !! own_key 0 0) = Some 2) &&
                                 forallb (λ p, idle p.2) (map_to_list (workers s))
                     | None => false end
          | _ => false end = true) as H by (vm_compute; reflexivity).
  rewrite H0 in H. destruct (play _ _ _ _) as [s|] eqn:Hp; [|done]. apply andb_true_iff in H as [Hk Hi].
  apply bool_decide_eq_true in Hk. exists s0, s. split; [done|]. split; [exact Hk|].
  refine (Verify_no_false_alarm 1 (λ _, None) lucky {[str "a"]} 1 [str "a"] s0 s _ _ _ H0 (play_reaches _ _ _ _ _ Hp) (idle_all _ Hi));
    [unfold lucky; intros; lia|lia|lia].
Defined.
