(* ===== verification/HistoryFile.v ===== *)
(** * internal/nemesis/history.go: the history on disk

    [WriteFile] writes the recorded operations as JSON, one object a line, through a
    buffered writer; [ReadHistory] scans the lines back.  The JSON coding is an
    interface with the documented behaviour of encoding/json; the buffer of
    [bufio.Writer] and the line limit of [bufio.Scanner] are modelled.  A history
    that was written is read back unchanged, and is not read as something else when
    the disk failed. *)

From stdpp Require Import prelude gmap strings.
From coqutil Require Import Byte.
From S2P Require Import Prelude GoBytes GoFS GoStrings GoText Checker Nemesis.
Import Workload.
Open Scope Z_scope.

(** ** encoding/json *)

Definition ascii_text (s : gostring) : bool := forallb (λ b, byte.unsigned b <? 128) s.

(** Operations whose text survives JSON: encoding/json replaces bytes that are not
    UTF-8. *)
Definition plain_op (op : Op) : bool :=
  forallb ascii_text [str (Kind op); OpKey op; OpValue op; Output op] &&
  forallb (λ n, (0 <=? n) && (n <? 2 ^ 63)) [Client op; Invoke op; Return_ op].

(** [json.Marshal] and [json.Unmarshal] on an [Op]. *)
Class Json := {
  json_marshal : Op → bytes;
  json_unmarshal : bytes → Op + error;
  (** control characters are escaped *)
  json_marshal_line : ∀ op, Forall (λ b, 32 ≤ byte.unsigned b) (json_marshal op);
  json_marshal_object : ∀ op, json_marshal op ≠ [];
  json_unmarshal_marshal : ∀ op, plain_op op = true → json_unmarshal (json_marshal op) = inl op
}.

Section history.
Context `{!Json}.

Definition newline : Init.Byte.byte := byte.of_Z 10.
Definition carriage : Init.Byte.byte := byte.of_Z 13.

(** ** Writing *)

(** [bufio.NewWriter]'s buffer. *)
Definition bufio_size : nat := Z.to_nat 4096.

(** [w.Write(data)] of a [bufio.Writer] on the file [i] with [buf] in its buffer;
    the result is what is buffered then. *)
Definition bufio_Write (i : nat) (buf data : bytes) : M fs bytes :=
  if (length buf + length data <=? bufio_size)%nat then mret (buf ++ data)
  else if bool_decide (buf = []) then Write i data;; mret []
  else
    let n := (bufio_size - length buf)%nat in
    Write i (buf ++ take n data);;
    let rest := drop n data in
    if (length rest <=? bufio_size)%nat then mret rest else Write i rest;; mret [].

(** [w.Flush()] *)
Definition bufio_Flush (i : nat) (buf : bytes) : M fs () :=
  if bool_decide (buf = []) then mret () else Write i buf.

(** [enc.Encode(op)] for every operation: an error closes the file. *)
Fixpoint encode_ops (i : nat) (l : list Op) (buf : bytes) : M fs bytes :=
  match l with
  | [] => mret buf
  | op :: l' =>
      r ← attempt (bufio_Write i buf (json_marshal op ++ [newline]));
      match r with
      | inl buf' => encode_ops i l' buf'
      | inr err => attempt (Close i);; throw err
      end
  end.

(** [Recorder.Ops] *)
Definition Ops (w : Workload) : list Op := ops w.

Definition WriteFile (p : path) (w : Workload) : M fs () :=
  i ← OpenTrunc p;
  buf ← encode_ops i (Ops w) [];
  r ← attempt (bufio_Flush i buf);
  match r with
  | inl _ => Close i
  | inr err => attempt (Close i);; throw err
  end.

(** ** Reading *)

Definition line_limit : nat := Z.to_nat (1024 * 1024).

(** [os.Open] *)
Definition os_Open (p : path) : M fs nat :=
  sys (λ s, match names s !! p with Some i => (Ok i, s) | None => (Err ENotExist, s) end) (λ _ s, s).

(** The reads of the scanner: all that could be read, and the error that ended the
    reading, if one did. *)
Definition read_all (i : nat) : M fs (bytes * option error) := λ s,
  let b := match inodes s !! i with Some n => content n | None => [] end in
  match faults s with
  | [] => (Ok (b, None), s)
  | FOk :: r => (Ok (b, None), s <| faults := r |>)
  | FErr k :: r => (Ok (take k b, Some EIO), s <| faults := r |>)
  | FCrash _ :: r => (Crash, s <| faults := r |>)
  end.

Definition drop_cr (l : bytes) : bytes :=
  match last l with Some b => if Byte.eqb b carriage then take (length l - 1) l else l | None => l end.

(** [bufio.ScanLines] within the limit: the tokens, and the scanner's own error. *)
Fixpoint scan (fuel : nat) (data : bytes) : list bytes * option error :=
  match fuel with
  | O => ([], None)
  | S fuel' =>
      if bool_decide (data = []) then ([], None) else
      match IndexByte (take line_limit data) newline with
      | Some k => let '(l, e) := scan fuel' (drop (S k) data) in (drop_cr (take k data) :: l, e)
      | None =>
          if (line_limit <=? length data)%nat then ([], Some (EMsg "bufio.Scanner: token too long"))
          else ([drop_cr data], None)
      end
  end.

(** The loop of [ReadHistory]. *)
Fixpoint decode_lines (l : list bytes) (acc : list Op) : list Op + error :=
  match l with
  | [] => inl acc
  | b :: l' =>
      match json_unmarshal b with
      | inl op => decode_lines l' (acc ++ [op])
      | inr err => inr (EWrap "history line %d: %w" err)
      end
  end.

(** The operations and the error [ReadHistory] returns; a file that cannot be opened
    ends it at once. *)
Definition ReadHistory (p : path) : M fs (list Op * option error) :=
  i ← os_Open p;
  '(data, rerr) ← read_all i;
  let '(lines, serr) := scan (S (length data)) data in
  attempt (Close i);;
  mret (match decode_lines lines [] with
        | inr err => ([], Some err)
        | inl l => (l, match serr with Some e => Some e | None => rerr end)
        end).

(** ** Writing it all *)

(** The lines of a history. *)
Definition history_bytes (l : list Op) : bytes := mjoin ((λ op, json_marshal op ++ [newline]) <$> l).

(** The file [p] is the inode [i] and holds [c]. *)
Definition holds_file (s : fs) (p : path) (i : nat) (c : bytes) : Prop :=
  names s !! p = Some i ∧ content <$> inodes s !! i = Some c.

(** Ends well when nothing fails, and [Q] holds when it ends well. *)
Definition does {A} (s : fs) (Q : A → fs → Prop) (o : outcome A) (s' : fs) : Prop :=
  (faults s = [] → faults s' = [] ∧ ∃ a, o = Ok a) ∧ ∀ a, o = Ok a → Q a s'.

Lemma does_bind {A B} (m : M fs A) (k : A → M fs B) (P : A → fs → Prop) (Q : B → fs → Prop) s :
  wp m (does s P) s → (∀ a s', P a s' → wp (k a) (does s' Q) s') → wp (m ≫= k) (does s Q) s.
Proof.
  intros Hm Hk. apply wp_bind. eapply wp_mono; [exact Hm|]. intros o s' [Hq HP]. destruct o as [a|e| |]; cbn; [|split; [intros H0; by destruct (Hq H0) as [_ [? ?]]|done]..].
  eapply wp_mono; [apply Hk, (HP a), eq_refl|]. intros o2 s2 [Hq2 HP2]. split; [|done]. intros H0. apply Hq2. by destruct (Hq H0).
Qed.
Lemma does_ret {A} (a : A) (Q : A → fs → Prop) s : Q a s → wp (mret a) (does s Q) s.
Proof. intros HQ. apply wp_ret. split; [by eauto|]. by intros ? [= <-]. Qed.

Lemma does_attempt {A B} (m : M fs A) (k : A → M fs B) (h : error → M fs B) (P : A → fs → Prop) (Q : B → fs → Prop) s :
  wp m (does s P) s → (∀ a s', P a s' → wp (k a) (does s' Q) s') → (∀ e s', wp (h e) (λ o _, ∀ b, o ≠ Ok b) s') →
  wp (r ← attempt m; match r with inl a => k a | inr e => h e end) (does s Q) s.
Proof.
  intros Hm Hk Hh. apply wp_bind, wp_attempt. eapply wp_mono; [exact Hm|]. intros o s' [Hq HP].
  assert (faults s = [] → ∃ a, o = Ok a) as Hq' by (intros H0; by destruct (Hq H0)).
  destruct o as [a|e| |]; cbn; [|eapply wp_mono; [apply Hh|]; intros o2 s2 Hno|..];
    [|split; [intros H0; by destruct (Hq' H0)|]..]; [|intros b Hb; by destruct (Hno b)|done..].
  eapply wp_mono; [apply Hk, (HP a), eq_refl|]. intros o2 s2 [Hq2 HP2]. split; [|done]. intros H0. apply Hq2. by destruct (Hq H0).
Qed.

Lemma Write_does p i data c s :
  holds_file s p i c → wp (Write i data) (does s (λ _ s', holds_file s' p i (c ++ data))) s.
Proof.
  intros [Hn Hc]. unfold Write. unfold wp, sys, does.
  assert (∀ r, holds_file (write_inode i data (s <| faults := r |>)) p i (c ++ data)) as Hw.
  { intros r. split; [exact Hn|]. cbn. rewrite lookup_alter_eq. destruct (inodes s !! i) as [n|]; [|done]. cbn in *. by simplify_eq. }
  destruct (faults s) as [|[|k|k] r] eqn:E; cbn; (split; [try done; by eauto|]); try done; intros [] _.
  specialize (Hw []). by replace (s <| faults := [] |>) with s in Hw by (destruct s; cbn in *; by subst).
Qed.

Lemma bufio_Write_does p i c buf data s :
  holds_file s p i c →
  wp (bufio_Write i buf data) (does s (λ b s', ∃ c', holds_file s' p i c' ∧ c' ++ b = c ++ buf ++ data)) s.
Proof.
  intros Hf. unfold bufio_Write. destruct (_ <=? _)%nat; [apply does_ret; by exists c|]. case_bool_decide as Hb.
  - subst buf. eapply does_bind; [by eapply Write_does|]. intros [] s' Hs'. apply does_ret. eexists. split; [exact Hs'|]. by rewrite app_nil_r.
  - cbn zeta. eapply does_bind; [by eapply Write_does|]. intros [] s' Hs'.
    destruct (length (drop _ data) <=? _)%nat.
    + apply does_ret. eexists. split; [exact Hs'|]. by rewrite <- !app_assoc, take_drop.
    + eapply does_bind; [by eapply Write_does|]. intros [] s2 Hs2. apply does_ret. eexists. split; [exact Hs2|].
      by rewrite app_nil_r, <- !app_assoc, take_drop.
Qed.

Lemma close_throw {A} i err s : wp (attempt (Close i);; throw (A:=A) err) (λ o _, ∀ b, o ≠ Ok b) s.
Proof. unfold Close, wp, attempt, mbind, M_bind, throw, sys. by destruct (faults s) as [|[|k|k] r]. Qed.

Lemma encode_ops_does p i l buf c s :
  holds_file s p i c →
  wp (encode_ops i l buf) (does s (λ b s', ∃ c', holds_file s' p i c' ∧ c' ++ b = c ++ buf ++ history_bytes l)) s.
Proof.
  revert buf c s. induction l as [|op l IH]; intros buf c s Hf; cbn [encode_ops].
  - apply does_ret. exists c. split; [done|]. unfold history_bytes. cbn. by rewrite app_nil_r.
  - eapply does_attempt; [by apply bufio_Write_does| |intros; apply close_throw].
    intros b s' (c' & Hf' & Hc'). eapply wp_mono; [by eapply IH|]. intros o s2 [Hq HP]. split; [done|].
    intros b2 Hb2. destruct (HP b2 Hb2) as (c2 & Hf2 & Hc2). exists c2. split; [done|].
    rewrite Hc2, app_assoc, Hc'. unfold history_bytes. cbn. by rewrite <- !app_assoc.
Qed.

Lemma OpenTrunc_does p s : wp (OpenTrunc p) (does s (λ i s', holds_file s' p i [])) s.
Proof.
  assert (∀ s, holds_file (create_inode p s) p (new_inode s) []) as Hc.
  { intros s0. split; [unfold create_inode; rewrite names_journal; cbn; by rewrite lookup_insert_eq|]. cbn. by rewrite lookup_insert_eq. }
  unfold OpenTrunc, wp, sys, does. destruct (faults s) as [|[|k|k] r] eqn:E; cbn; (split; [try done; by eauto|]); try done; intros ? [= <-]; apply Hc.
Qed.

Lemma Close_does i s : wp (Close i) (does s (λ _ s', ∃ r, s' = s <| faults := r |>)) s.
Proof.
  unfold Close, wp, sys, does. destruct (faults s) as [|[|k|k] r] eqn:E; cbn; (split; [try done; by eauto|]); try done; intros ? _; [exists []|by exists r].
  destruct s as [d p n r]. cbn in E. by subst r.
Qed.

Lemma WriteFile_does p w s :
  wp (WriteFile p w) (does s (λ _ s', file s' p = Some (history_bytes (Ops w)))) s.
Proof.
  unfold WriteFile. eapply does_bind; [apply OpenTrunc_does|]. intros i s1 H1.
  eapply does_bind; [eapply encode_ops_does; exact H1|]. intros buf s2 (c2 & H2 & Hc2).
  assert (wp (bufio_Flush i buf) (does s2 (λ _ s', holds_file s' p i (history_bytes (Ops w)))) s2) as Hfl.
  { cbn in Hc2. unfold bufio_Flush. case_bool_decide as Hb; [apply does_ret; subst; by rewrite <- Hc2, app_nil_r|].
    rewrite <- Hc2. by eapply Write_does. }
  eapply does_attempt; [exact Hfl| |intros; apply close_throw]. intros [] s3 [Hn Hi].
  eapply wp_mono; [apply Close_does|]. intros o s4 [Hq HP]. split; [done|]. intros [] Ho. destruct (HP () Ho) as [r ->].
  unfold file. change (names (s3 <| faults := r |>)) with (names s3). rewrite Hn. exact Hi.
Qed.

(** ** Reading it back *)

Lemma marshal_no_newline op : forallb (λ b, negb (Byte.eqb b newline)) (json_marshal op) = true.
Proof.
  apply forallb_forall. intros b Hb%list_elem_of_In. pose proof (json_marshal_line op) as Hl. rewrite Forall_forall in Hl.
  specialize (Hl b Hb). apply negb_true_iff, not_true_iff_false. intros ->%Byte.byte_dec_bl. vm_compute in Hl. by destruct Hl.
Qed.

Lemma marshal_no_cr op : drop_cr (json_marshal op) = json_marshal op.
Proof.
  unfold drop_cr. destruct (last (json_marshal op)) as [b|] eqn:E; [|done]. destruct (Byte.eqb b carriage) eqn:Eb; [|done].
  apply Byte.byte_dec_bl in Eb as ->. apply last_Some_elem_of in E. pose proof (json_marshal_line op) as Hl.
  rewrite Forall_forall in Hl. specialize (Hl _ E). vm_compute in Hl. by destruct Hl.
Qed.

Lemma scan_history fuel l :
  Forall (λ op, (length (json_marshal op) < line_limit)%nat) l → (length (history_bytes l) < fuel)%nat →
  scan fuel (history_bytes l) = (json_marshal <$> l, None).
Proof.
  intros Hl. revert fuel. induction Hl as [|op l Hop Hl IH]; intros fuel Hf; [by destruct fuel; [cbn in Hf; lia|]|].
  assert (history_bytes (op :: l) = json_marshal op ++ newline :: history_bytes l) as Hb
    by (unfold history_bytes; cbn; by rewrite <- app_assoc).
  rewrite Hb in Hf |- *. rewrite length_app in Hf. cbn [length] in Hf. destruct fuel as [|fuel]; [lia|]. cbn [scan].
  rewrite bool_decide_false by (by destruct (json_marshal op)).
  rewrite take_app_ge by lia. destruct (line_limit - length (json_marshal op))%nat as [|k] eqn:Ek; [lia|]. cbn [take].
  rewrite IndexByte_app by apply marshal_no_newline.
  replace (drop (S (length (json_marshal op))) (json_marshal op ++ newline :: history_bytes l)) with (history_bytes l).
  2:{ rewrite drop_app_ge by lia. by replace (S (length (json_marshal op)) - length (json_marshal op))%nat with 1%nat by lia. }
  rewrite IH by lia. rewrite take_app_length. by rewrite marshal_no_cr.
Qed.

Lemma decode_lines_history l acc :
  Forall (λ op, plain_op op = true) l → decode_lines (json_marshal <$> l) acc = inl (acc ++ l).
Proof.
  intros Hl. revert acc. induction Hl as [|op l Hop _ IH]; intros acc; cbn; [by rewrite app_nil_r|].
  rewrite json_unmarshal_marshal by done. rewrite IH. by rewrite <- app_assoc.
Qed.

Lemma ReadHistory_reads p l s :
  faults s = [] → file s p = Some (history_bytes l) → Forall (λ op, plain_op op = true) l →
  Forall (λ op, (length (json_marshal op) < line_limit)%nat) l →
  ReadHistory p s = (Ok (l, None), s).
Proof.
  intros Hq Hf Hp Hl. unfold file in Hf. destruct (names s !! p) as [i|] eqn:En; [|done]. cbn in Hf.
  unfold ReadHistory, os_Open, read_all, Close, attempt, sys, mbind, M_bind, mret, M_ret. rewrite Hq, En, Hq.
  destruct (inodes s !! i) as [n|]; [|done]. cbn in Hf. injection Hf as ->.
  rewrite scan_history by (done || lia). rewrite Hq, decode_lines_history by done. done.
Qed.
End history.

(** C32: A history survives the disk.  Writing the recorded operations succeeds when
    no call fails, through a buffer that splits and joins lines as it fills; and
    whenever it reports success, whatever else went on, reading the file gives back
    exactly the recorded operations, in order, with no error. *)
Theorem ReadHistory_WriteFile `{!Json} p w s o s' :
  Forall (λ op, plain_op op = true) (Ops w) → Forall (λ op, (length (json_marshal op) < line_limit)%nat) (Ops w) →
  WriteFile p w s = (o, s') →
  (faults s = [] → o = Ok ()) ∧
  (o = Ok () → ReadHistory p (s' <| faults := [] |>) = (Ok (Ops w, None), s' <| faults := [] |>)).
Proof.
  intros Hp Hl Hw. destruct (wp_elim _ _ _ _ _ (WriteFile_does p w s) Hw) as [Hq HP].
  split; [intros H0; by destruct (Hq H0) as [_ [[] ?]]|]. intros Ho. apply ReadHistory_reads; [done| |done|done]. exact (HP () Ho).
Qed.

(** ** The interface can be met: a coding of operations by letters *)
Module Letters.
Notation a := Init.Byte.x61.
Notation b := Init.Byte.x62.
Notation c := Init.Byte.x63.
Notation d := Init.Byte.x64.
Notation e := Init.Byte.x65.

Definition put_bit (x : bool) : Init.Byte.byte := if x then b else a.
Definition get_bit (x : Init.Byte.byte) : bool := bool_decide (x = b).
Lemma get_put_bit x : get_bit (put_bit x) = x.
Proof. by destruct x. Qed.

Fixpoint put_pos (p : positive) : bytes :=
  match p with xO p' => a :: put_pos p' | xI p' => b :: put_pos p' | xH => [c] end.
Fixpoint get_pos (s : bytes) : option (positive * bytes) :=
  match s with
  | a :: s' => '(p, r) ← get_pos s'; Some (xO p, r)
  | b :: s' => '(p, r) ← get_pos s'; Some (xI p, r)
  | c :: s' => Some (xH, s')
  | _ => None
  end.
Lemma get_put_pos p r : get_pos (put_pos p ++ r) = Some (p, r).
Proof. induction p as [p IH|p IH|]; cbn; [by rewrite IH..|done]. Qed.

Definition put_int (n : Z) : bytes := match n with Z0 => [d] | Zpos p => put_pos p | Zneg p => e :: put_pos p end.
Definition get_int (s : bytes) : option (Z * bytes) :=
  match s with
  | d :: s' => Some (0, s')
  | e :: s' => '(p, r) ← get_pos s'; Some (Zneg p, r)
  | _ => '(p, r) ← get_pos s; Some (Zpos p, r)
  end.
Lemma get_put_int n r : get_int (put_int n ++ r) = Some (n, r).
Proof. destruct n as [|p|p]; cbn; [done| |by rewrite get_put_pos]. destruct p as [p|p|]; cbn; [by rewrite get_put_pos..|done]. Qed.

Fixpoint put_text (s : gostring) : bytes :=
  match s with
  | [] => [c]
  | x :: s' =>
      let '(b0, (b1, (b2, (b3, (b4, (b5, (b6, b7))))))) := Byte.to_bits x in
      put_bit b0 :: put_bit b1 :: put_bit b2 :: put_bit b3 :: put_bit b4 :: put_bit b5 :: put_bit b6 :: put_bit b7 :: put_text s'
  end.
Fixpoint get_text (s : bytes) : option (gostring * bytes) :=
  match s with
  | c :: s' => Some ([], s')
  | x0 :: x1 :: x2 :: x3 :: x4 :: x5 :: x6 :: x7 :: s' =>
      '(t, r) ← get_text s';
      Some (Byte.of_bits (get_bit x0, (get_bit x1, (get_bit x2, (get_bit x3, (get_bit x4, (get_bit x5, (get_bit x6, get_bit x7))))))) :: t, r)
  | _ => None
  end.
Lemma get_put_text s r : get_text (put_text s ++ r) = Some (s, r).
Proof.
  induction s as [|x s IH]; [done|]. cbn [put_text].
  destruct (Byte.to_bits x) as [b0 [b1 [b2 [b3 [b4 [b5 [b6 b7]]]]]]] eqn:E.
  assert (get_text ((put_bit b0 :: put_bit b1 :: put_bit b2 :: put_bit b3 :: put_bit b4 :: put_bit b5 :: put_bit b6 :: put_bit b7 :: put_text s) ++ r) =
    Some (Byte.of_bits (b0, (b1, (b2, (b3, (b4, (b5, (b6, b7))))))) :: s, r)) as ->.
  { destruct b0; cbn; rewrite IH; cbn; fold (get_bit (put_bit b1)); by rewrite !get_put_bit. }
  by rewrite <- E, Byte.of_bits_to_bits.
Qed.

Definition put_op (op : Op) : bytes :=
  put_int (Client op) ++ put_text (str (Kind op)) ++ put_text (OpKey op) ++ put_text (OpValue op) ++
  put_bit (Found op) :: put_text (Output op) ++ put_bit (OpOk op) :: put_bit (Unknown op) ::
  put_int (Invoke op) ++ put_int (Return_ op).
Definition get_op (s : bytes) : option Op :=
  '(cl, s) ← get_int s; '(k, s) ← get_text s; '(key, s) ← get_text s; '(v, s) ← get_text s;
  match s with
  | f :: s =>
      '(o, s) ← get_text s;
      match s with
      | x :: y :: s =>
          '(i, s) ← get_int s; '(r, _) ← get_int s;
          Some (mkOp cl (String.string_of_list_byte k) key v (get_bit f) o (get_bit x) (get_bit y) i r)
      | _ => None
      end
  | [] => None
  end.
Lemma get_put_op op : get_op (put_op op) = Some op.
Proof.
  unfold get_op, put_op. rewrite get_put_int. cbn [mbind option_bind]. rewrite !get_put_text. cbn [mbind option_bind].
  rewrite get_put_text. cbn [mbind option_bind]. rewrite get_put_text. cbn [mbind option_bind]. rewrite get_put_text. cbn [mbind option_bind].
  rewrite get_put_int. cbn [mbind option_bind]. rewrite <- (app_nil_r (put_int (Return_ op))), get_put_int. cbn [mbind option_bind].
  rewrite !get_put_bit. unfold str. rewrite String.string_of_list_byte_of_string. by destruct op.
Qed.

Definition letter (x : Init.Byte.byte) : bool := 32 <=? byte.unsigned x.
Lemma put_bit_letter x : letter (put_bit x) = true.
Proof. by destruct x. Qed.
Lemma put_int_letters n : forallb letter (put_int n) = true.
Proof. assert (∀ p, forallb letter (put_pos p) = true) as Hp by (by induction p). by destruct n as [|p|p]; cbn. Qed.
Lemma put_text_letters s : forallb letter (put_text s) = true.
Proof.
  induction s as [|x s IH]; [done|]. cbn [put_text]. destruct (Byte.to_bits x) as [b0 [b1 [b2 [b3 [b4 [b5 [b6 b7]]]]]]].
  cbn [forallb]. by rewrite !put_bit_letter, IH.
Qed.
Lemma put_op_letters op : Forall (λ x, 32 ≤ byte.unsigned x) (put_op op).
Proof.
  assert (forallb letter (put_op op) = true) as Hl.
  { unfold put_op. rewrite !forallb_app. cbn [forallb]. rewrite !forallb_app. cbn [forallb]. rewrite forallb_app.
    by rewrite !put_int_letters, !put_text_letters, !put_bit_letter. }
  apply Forall_forall. intros x Hx. rewrite forallb_forall in Hl. apply Z.leb_le. apply Hl. by apply list_elem_of_In.
Qed.

Program Definition json : Json := {|
  json_marshal := put_op;
  json_unmarshal s := match get_op s with Some op => inl op | None => inr (EMsg "unexpected end of JSON input") end;
|}.
Next Obligation. apply put_op_letters. Qed.
Next Obligation. intros op. unfold put_op. destruct (Client op) as [|p|p]; [done| |done]. by destruct p. Qed.
Next Obligation. intros op _. cbn. by rewrite get_put_op. Qed.
End Letters.

Lemma ReadHistory_WriteFile_witness :
  let w := mkW false [] [mkOp 1 "put" (str "k") (str "v") false [] true false 1 2; mkOp 2 "get" (str "k") [] true (str "v") true false 3 4] ∅ in
  let p := (str "d", str "history.jsonl") in
  ∃ s', WriteFile (H:=Letters.json) p w (empty_fs []) = (Ok (), s') ∧
    ReadHistory (H:=Letters.json) p (s' <| faults := [] |>) = (Ok (Ops w, None), s' <| faults := [] |>).
Proof.
  intros w p. destruct (WriteFile (H:=Letters.json) p w (empty_fs [])) as [o s'] eqn:E.
  assert (Forall (λ op, plain_op op = true) (Ops w)) as Hp by (repeat constructor).
  assert (Forall (λ op, (length (json_marshal (Json:=Letters.json) op) < line_limit)%nat) (Ops w)) as Hl.
  { apply Forall_cons_2; [|apply Forall_cons_2; [|apply Forall_nil_2]]; apply Nat2Z.inj_lt; unfold line_limit; rewrite Z2Nat.id by lia; vm_compute; done. }
  destruct (ReadHistory_WriteFile (H:=Letters.json) p w (empty_fs []) o s' Hp Hl E) as [Ho Hr].
  rewrite (Ho eq_refl) in *. exists s'. split; [done|]. by apply Hr.
Defined.
