(* ===== verification/Proc.v ===== *)
(** * internal/nemesis/proc.go: node processes under control of the harness

    [StartProc], [Kill], [Suspend] and [Resume] over the process table of a Unix
    system, whose process numbers are used again.  A killed node is gone whatever
    state it was in, killing is idempotent, and a suspended node that is resumed runs
    as before; a [Proc] that was killed still signals its old number. *)

From stdpp Require Import prelude gmap strings.
From S2P Require Import Prelude GoBytes.
Open Scope Z_scope.

(** ** The operating system *)

(** A process: what it runs, its environment, and whether it is stopped. *)
Record process := mkProcess { p_bin : gostring; p_args : list gostring; p_env : list gostring; p_stopped : bool }.
Abbreviation table := (gmap Z process).

(** [kill(pid, sig)]: [ESRCH] when there is no such process. *)
Definition ESRCH : error := EMsg "no such process".
Definition signal_stop (v : bool) (pid : Z) (t : table) : option error * table :=
  match t !! pid with
  | None => (Some ESRCH, t)
  | Some p => (None, <[pid := mkProcess (p_bin p) (p_args p) (p_env p) v]> t)
  end.

(** proc_unix.go *)
Definition suspendProcess : Z → table → option error * table := signal_stop true.
Definition resumeProcess : Z → table → option error * table := signal_stop false.

(** ** proc.go *)

(** [cmd.Process]: its number, and whether it has been waited for. *)
Record osProcess := mkOS { pid : Z; waited : bool }.
Record Proc := mkProc { Name : gostring; cmd : option osProcess }.

(** The environment of the command: [cmd.Env] is left nil when there is nothing to
    add, and then the environment is inherited. *)
Definition cmd_env (environ extraEnv : list gostring) : list gostring :=
  if bool_decide (extraEnv = []) then environ else environ ++ extraEnv.

(** [cmd.Start()] is given by its result: the number of the new process, or an error. *)
Definition StartProc (name : gostring) (environ extraEnv : list gostring) (bin : gostring) (args : list gostring)
    (started : Z + error) (t : table) : outcome Proc * table :=
  match started with
  | inr err => (Err err, t)
  | inl n => (Ok (mkProc name (Some (mkOS n false))), <[n := mkProcess bin args (cmd_env environ extraEnv) false]> t)
  end.

(** [Process.Kill] and [Process.Wait], whose errors are dropped: a process that has
    been waited for is not signalled. *)
Definition Kill (p : Proc) (t : table) : Proc * table :=
  match cmd p with
  | None => (p, t)
  | Some o => if waited o then (p, t) else (mkProc (Name p) (Some (mkOS (pid o) true)), delete (pid o) t)
  end.

Definition Suspend (p : Proc) (t : table) : option error * table :=
  match cmd p with
  | None => (Some (EMsg "nemesis: %s not running"), t)
  | Some o => suspendProcess (pid o) t
  end.
Definition Resume (p : Proc) (t : table) : option error * table :=
  match cmd p with
  | None => (Some (EMsg "nemesis: %s not running"), t)
  | Some o => resumeProcess (pid o) t
  end.

(** ** Facts *)

(** The process of [p] is in the table, under its number, until it is waited for. *)
Definition alive (p : Proc) (t : table) : Prop := ∃ o, cmd p = Some o ∧ waited o = false ∧ is_Some (t !! pid o).

Lemma StartProc_alive name environ extraEnv bin args n t :
  let r := StartProc name environ extraEnv bin args (inl n) t in
  ∃ p, r.1 = Ok p ∧ alive p r.2 ∧ r.2 !! n = Some (mkProcess bin args (environ ++ extraEnv) false).
Proof.
  eexists. split; [done|]. cbn. rewrite lookup_insert_eq. split.
  - eexists. split; [done|]. cbn. by rewrite lookup_insert_eq.
  - unfold cmd_env. case_bool_decide as He; [by rewrite He, app_nil_r|done].
Qed.

(** Killing is final, also for a suspended process, and killing again does nothing,
    even when the number has been given to another process. *)
Theorem Kill_final p t : alive p t →
  (∀ o, cmd p = Some o → (Kill p t).2 !! pid o = None) ∧ (∀ t', Kill (Kill p t).1 t' = ((Kill p t).1, t')).
Proof.
  intros (o & Ho & Hw & _). unfold Kill. rewrite Ho, Hw. cbn. split; [|done].
  intros o' [= <-]. by rewrite lookup_delete_eq.
Qed.

(** A process that is suspended and resumed is as it was. *)
Theorem Resume_Suspend p t q :
  (∃ o, cmd p = Some o ∧ t !! pid o = Some q) → p_stopped q = false →
  ∃ t', Suspend p t = (None, t') ∧ Resume p t' = (None, t).
Proof.
  intros (o & Ho & Hq) Hs. unfold Suspend, Resume, suspendProcess, resumeProcess, signal_stop. rewrite Ho, Hq.
  eexists. split; [done|]. rewrite lookup_insert_eq, insert_insert_eq. f_equal. apply insert_id. rewrite Hq. destruct q. cbn in *. by subst.
Qed.

(** Suspending a node that was killed stops whatever process has its number now. *)
Theorem Suspend_after_Kill p t q :
  ∀ o, cmd p = Some o → waited o = false →
  Suspend (Kill p t).1 (<[pid o := q]> (Kill p t).2) =
    (None, <[pid o := mkProcess (p_bin q) (p_args q) (p_env q) true]> (Kill p t).2).
Proof.
  intros o Ho Hw. unfold Kill. rewrite Ho, Hw. unfold Suspend. cbn. unfold suspendProcess, signal_stop.
  by rewrite lookup_insert_eq, insert_insert_eq.
Qed.
