(* ===== verification/Cluster.v ===== *)
(** * A cluster of nodes, and Election Safety

    The nodes of internal/raft run against an adversarial network and
    scheduler: messages may be lost, delayed, duplicated and reordered (a
    message once sent may be delivered any number of times, or never), a node
    may stop at any system call and boot again from whatever its disk kept,
    and events interleave arbitrarily.  The theorem of this file is the Raft
    paper's Election Safety, for a cluster whose membership does not change. *)

From stdpp Require Import prelude gmap strings sorting.
From S2P Require Import Prelude GoRuntime GoBytes RaftTypes Membership RaftLaws Core CoreVotes Node.
Open Scope Z_scope.

(** What a response to an RPC is routed back with. *)
Inductive packet :=
  | PReq (from : Z) (o : outbound)
  | PVoteResp (from to : Z) (req : RequestVoteRequest) (resp : RequestVoteResponse)
  | PAppendResp (from to : Z) (req : AppendEntriesRequest) (resp : AppendEntriesResponse)
  | PSnapResp (from to : Z) (req : InstallSnapshotRequest) (resp : InstallSnapshotResponse).

Inductive nstate (D S : Type) := Up (n : Node D S) | Down (d : D).
Arguments Up {D S} n.
Arguments Down {D S} d.

(** [ballots] and [elected] are history: the votes announced, as (voter, term,
    candidate), and the leaders there have been, as (term, leader). *)
Record world (D S : Type) := mkWorld {
  nodes : gmap Z (nstate D S);
  sent : list packet;
  ballots : list (Z * Z * Z);
  elected : list (Z * Z)
}.
Arguments mkWorld {D S}.
Arguments nodes {D S} _.
Arguments sent {D S} _.
Arguments ballots {D S} _.
Arguments elected {D S} _.

(** The RPC response a reply on the channel of an event becomes. *)
Definition no_response (r : reply) : option packet := None.

(** [delivers net i ev resp]: event [ev] may reach node [i], and [resp] routes
    its reply.  [evConfChange] is left out: the membership is fixed. *)
Inductive delivers (net : list packet) (i : Z) : event → (reply → option packet) → Prop :=
  | deliver_tick : delivers net i evTick no_response
  | deliver_vote from req ch :
      PReq from (OutRequestVote i req) ∈ net →
      delivers net i (evRequestVote req ch)
        (λ r, match r with ReplyVote (inl resp) => Some (PVoteResp i from req resp) | _ => None end)
  | deliver_append from req ch :
      PReq from (OutAppendEntries i req) ∈ net →
      delivers net i (evAppendEntries req ch)
        (λ r, match r with ReplyAppend (inl resp) => Some (PAppendResp i from req resp) | _ => None end)
  | deliver_snapshot from req ch :
      PReq from (OutInstallSnapshot i req) ∈ net →
      delivers net i (evInstallSnapshot req ch)
        (λ r, match r with ReplySnapshot (inl resp) => Some (PSnapResp i from req resp) | _ => None end)
  | deliver_timeout from req ch :
      PReq from (OutTimeoutNow i req) ∈ net →
      delivers net i (evTimeoutNow req ch) no_response
  | deliver_vote_resp from req resp :
      PVoteResp from i req resp ∈ net →
      delivers net i (evVoteResp from (rv_term req) (rv_preVote req) resp) no_response
  | deliver_append_resp from req resp :
      PAppendResp from i req resp ∈ net →
      delivers net i (evAppendResp from req resp) no_response
  | deliver_snap_resp from req resp :
      PSnapResp from i req resp ∈ net →
      delivers net i (evSnapshotResp from req resp) no_response
  | deliver_propose command done ch :
      zlength command ≤ maxEntryCommand →
      delivers net i (evPropose command ENTRY_TYPE_NORMAL done ch) no_response
  | deliver_transfer to ch : delivers net i (evTransfer to ch) no_response
  | deliver_read ch : delivers net i (evRead ch) no_response.

(** The ballot a vote response announces. *)
Definition announced (p : packet) : option (Z * Z * Z) :=
  match p with
  | PVoteResp v c req resp =>
      if rvr_voteGranted resp && negb (rv_preVote req)
      then Some (v, rv_term req, rv_candidateId req) else None
  | _ => None
  end.

Section cluster.
Context {D S : Type} `{RaftDiskLaws D} `{GoRuntime} `{StateMachine S}.
Context (Cfg : Members) (conf : Z → Config) (s0 : S) (compactAt : Z) (peers : option Members).

Abbreviation N := (Node D S).

(** A candidate votes for itself. *)
Definition own_ballot (i : Z) (c : core D) : list (Z * Z * Z) :=
  if bool_decide (role c = follower) then [] else [(i, term c, i)].
Definition own_election (i : Z) (c : core D) : list (Z * Z) :=
  if bool_decide (role c = leader) then [(term c, i)] else [].

(** The world after node [i] ran to outcome [o] and state [n'], sending
    [out]. *)
Definition ran (w : world D S) (i : Z) (o : outcome ()) (n' : N) (out : list packet) : world D S :=
  match o with
  | Ok _ =>
      mkWorld (<[i := Up n']> (nodes w)) (sent w ++ out)
        (ballots w ++ omap announced out ++ own_ballot i (nc n'))
        (elected w ++ own_election i (nc n'))
  | _ =>
      mkWorld (<[i := Down (disk (nc n'))]> (nodes w)) (sent w ++ out)
        (ballots w ++ omap announced out) (elected w)
  end.

(** [up d d']: a node that stopped with disk [d] may boot from disk [d']. *)
Inductive step_on (up : D → D → Prop) (w : world D S) : world D S → Prop :=
  | step_event i n ev resp o n' :
      nodes w !! i = Some (Up n) → delivers (sent w) i ev resp →
      handle ev (n <| replies := [] |> <| net := [] |>) = (o, n') →
      step_on up w (ran w i o n' ((PReq i <$> net n') ++ omap (resp ∘ snd) (replies n')))
  | step_stop i n :
      nodes w !! i = Some (Up n) →
      step_on up w (mkWorld (<[i := Down (disk (nc n))]> (nodes w)) (sent w) (ballots w) (elected w))
  | step_boot i d d' o d'' :
      nodes w !! i = Some (Down d) → up d d' →
      NewNode (conf i) Cfg s0 compactAt peers d' = (o, d'') →
      step_on up w (mkWorld (<[i := match o with Ok n => Up n | _ => Down d'' end]> (nodes w))
                (sent w) (ballots w) (elected w)).
Definition step : world D S → world D S → Prop := step_on reboot.

(** No term has come to the end of the 64-bit range. *)
Definition terms_bounded (w : world D S) : Prop :=
  ∀ i n, nodes w !! i = Some (Up n) → term (nc n) < 2 ^ 64 - 1.

(** Every member starts as a stopped process on a fresh disk. *)
Definition initial (w : world D S) : Prop :=
  dom (nodes w) = dom Cfg ∧ sent w = [] ∧ ballots w = [] ∧ elected w = [] ∧
  ∀ i st, nodes w !! i = Some st → ∃ d, st = Down d ∧ d_wf d ∧
    (∀ t v, may_state d t v → t = 0 ∧ v = noVote) ∧
    (∀ l, may_log d l → l = []) ∧ (∀ s, may_snap d s → s = zero_snapshot).

Inductive reachable : world D S → Prop :=
  | reachable_initial w : initial w → reachable w
  | reachable_step w w' : reachable w → step w w' → terms_bounded w' → reachable w'.
End cluster.

Lemma step_on_mono {D S} `{RaftDiskLaws D} `{GoRuntime} `{StateMachine S} Cfg conf (s0 : S) compactAt peers
    (up up' : D → D → Prop) w w' :
  (∀ d d', up d d' → up' d d') →
  step_on Cfg conf s0 compactAt peers up w w' → step_on Cfg conf s0 compactAt peers up' w w'.
Proof.
  intros Hup Hs. destruct Hs as [| |i d d' o d'' Hi Hre Hnew]; [by eapply step_event|by eapply step_stop|].
  eapply step_boot; [done|by apply Hup|done].
Qed.

(** ** The node keeps the core's discipline *)

Section node_keeps.
Context {D S : Type} `{RaftDiskLaws D} `{GoRuntime} `{StateMachine S}.
Context (Cfg : Members) (Cfg_wf : members_wf Cfg)
  (Cfg_rt : decodeMembers (encodeMembers Cfg) = Ok Cfg) (E : Z → Z → Z → Prop).

Abbreviation N := (Node D S).
Abbreviation ninv := (ninv Cfg E).
Abbreviation keeps := (keeps Cfg E).
Abbreviation keeps_err := (keeps_err Cfg E).

(** Replies to clients, not RPC responses. *)
Definition local (r : nat * reply) : Prop :=
  match r.2 with ReplyRead _ | ReplyDone _ => True | _ => False end.

Definition nninv (n : N) : Prop := ninv (nc n) ∧ is_u64 (applied n).

(** A part of [afterStep]: nothing is sent yet. *)
Definition nkeeps {A} (n : N) (o : outcome A) (n' : N) : Prop :=
  keeps (nc n) o (nc n') ∧ (match o with Ok _ => is_u64 (applied n') | _ => True end) ∧
  net n' = net n ∧ ∃ rs, replies n' = replies n ++ rs ∧ Forall local rs.

Lemma nkeeps_frame (n n' : N) {A} (a : A) :
  nninv n → nc n' = nc n → is_u64 (applied n') → net n' = net n →
  (∃ rs, replies n' = replies n ++ rs ∧ Forall local rs) → nkeeps n (Ok a) n'.
Proof.
  intros [Hn Ha] Hc Ha' Hnet Hr. split; [|done]. rewrite Hc.
  by apply keeps_ok; [|apply after_refl].
Qed.

Lemma wp_nkeeps_bind {A B} (m : M N A) (k : A → M N B) n :
  wp m (nkeeps n) n →
  (∀ a n1, nninv n1 → wp (k a) (nkeeps n1) n1) →
  wp (m ≫= k) (nkeeps n) n.
Proof.
  intros Hm Hk. apply wp_bind. eapply wp_mono; [exact Hm|].
  intros o n1 ([Hd Ho] & Hap & Hnet & rs & Hrs & Hl). destruct o as [a|e| |]; cbn [wpk].
  2-4: split; [by split|]; split; [done|]; split; [done|]; eauto.
  destruct Ho as [Hn Ha]. eapply wp_mono; [by apply Hk|].
  intros o n2 (Hk2 & Hap2 & Hnet2 & rs2 & Hrs2 & Hl2). split; [by eapply keeps_after|].
  split; [done|]. split; [congruence|]. exists (rs ++ rs2). rewrite Hrs2, Hrs, app_assoc.
  split; [done|by apply Forall_app_2].
Qed.

Ltac local_replies := cbn; solve [exists []; rewrite app_nil_r; by split
                                 |eexists; split; [reflexivity|by apply Forall_singleton]].
Ltac nkeeps_modify :=
  match goal with Hn : nninv _ |- _ =>
    apply wp_modify, nkeeps_frame; [done|done|first [apply Hn|done]|done|local_replies] end.

Lemma wp_nkeeps_zoom {A} (m : M (core D) A) n :
  nninv n → wp m (keeps (nc n)) (nc n) → wp (zoom nc m) (nkeeps n) n.
Proof.
  intros [Hn Ha] Hm. apply wp_zoom. eapply wp_mono; [exact Hm|]. intros o c' Hk.
  split; [done|]. split; [by destruct o|]. split; [done|local_replies].
Qed.

Lemma wp_nkeeps_ret {A} (a : A) n : nninv n → wp (mret a) (nkeeps n) n.
Proof. intros Hn. apply wp_ret, nkeeps_frame; [done|done|apply Hn|done|local_replies]. Qed.

Lemma wp_nkeeps_for_each {A} (P : A → Prop) (l : list A) (f : A → M N ()) n :
  nninv n → Forall P l → (∀ x n, P x → nninv n → wp (f x) (nkeeps n) n) →
  wp (for_each l f) (nkeeps n) n.
Proof.
  intros Hn Hl Hf. revert n Hn. induction Hl as [|x l Hx Hl IH]; intros n Hn; simpl;
    [by apply wp_nkeeps_ret|].
  apply wp_nkeeps_bind; [by apply Hf|]. intros. by apply IH.
Qed.

Lemma reply_on_nkeeps ch r n : nninv n → local (ch, r) → wp (reply_on ch r) (nkeeps n) n.
Proof. intros Hn Hr. unfold reply_on. nkeeps_modify. Qed.

Lemma fireAppliedWaiters_nkeeps n : nninv n → wp fireAppliedWaiters (nkeeps n) n.
Proof.
  intros Hn. unfold fireAppliedWaiters. apply wp_bind, wp_get. cbn [wpk]. cbv zeta.
  apply wp_nkeeps_bind; [|intros; nkeeps_modify].
  apply (wp_nkeeps_for_each (λ _, True)); [done|by apply Forall_true|]. intros. by apply reply_on_nkeeps.
Qed.

Lemma applyEntry_nkeeps e n : plain e → nninv n → wp (applyEntry e) (nkeeps n) n.
Proof.
  intros [(_ & Hi & _) _] Hn. unfold applyEntry. apply wp_nkeeps_bind.
  { case_match; [nkeeps_modify|by apply wp_nkeeps_ret]. }
  intros _ n1 Hn1. apply wp_nkeeps_bind; [nkeeps_modify|]. intros _ n2 Hn2.
  apply wp_nkeeps_bind; [by apply fireAppliedWaiters_nkeeps|]. intros _ n3 Hn3.
  apply wp_bind, wp_get. cbn [wpk]. destruct (waiters n3 !! _); [|by apply wp_nkeeps_ret].
  apply wp_nkeeps_bind; [nkeeps_modify|]. intros. by apply reply_on_nkeeps.
Qed.

Lemma resolveRead_nkeeps r n : nninv n → wp (resolveRead r) (nkeeps n) n.
Proof.
  intros Hn. unfold resolveRead. apply wp_bind, wp_get. cbn [wpk].
  destruct (readWaiters n !! _); [|by apply wp_nkeeps_ret].
  apply wp_nkeeps_bind; [nkeeps_modify|]. intros _ n1 Hn1.
  case_match; [by apply reply_on_nkeeps|]. case_match; [by apply reply_on_nkeeps|nkeeps_modify].
Qed.

(** Handlers whose errors leave the node running. *)
Lemma wp_nkeeps_attempt {A} (m : M (core D) A) n :
  nninv n → wp m (keeps_err (nc n)) (nc n) → wp (attempt (zoom nc m)) (nkeeps n) n.
Proof.
  intros [Hn Ha] Hm. apply wp_attempt, wp_zoom. eapply wp_mono; [exact Hm|]. intros o c' [Hd Ho].
  destruct o; (split; [by split|]; split; [done|]; split; [done|local_replies]).
Qed.

Lemma maybeCompact_nkeeps n : nninv n → wp maybeCompact (nkeeps n) n.
Proof.
  intros Hn. unfold maybeCompact. apply wp_bind, wp_get. cbn [wpk].
  case_match; [by apply wp_nkeeps_ret|]. apply wp_nkeeps_bind.
  { apply wp_attempt, wp_lift. destruct (smSnapshot (sm n)).
    1-2: apply nkeeps_frame; [done|done|apply Hn|done|local_replies].
    1-2: split; [apply keeps_fail; [done|apply Hn|apply after_refl]|]; split; [done|];
      split; [done|local_replies]. }
  intros r n1 Hn1. destruct r as [data|]; [|by apply wp_nkeeps_ret].
  apply wp_nkeeps_bind; [|intros; by apply wp_nkeeps_ret].
  apply wp_nkeeps_attempt; [done|]. apply compact_keeps; first [done|apply Hn1|apply Hn].
Qed.

Lemma syncTransportConfig_nkeeps n : nninv n → wp syncTransportConfig (nkeeps n) n.
Proof.
  intros Hn. unfold syncTransportConfig. apply wp_bind, wp_get. cbn [wpk].
  destruct (transportPeers n); [|by apply wp_nkeeps_ret].
  case_match; [by apply wp_nkeeps_ret|nkeeps_modify].
Qed.

Lemma publishStatus_nkeeps n : nninv n → wp publishStatus (nkeeps n) n.
Proof. intros Hn. unfold publishStatus. nkeeps_modify. Qed.

Lemma nkeeps_fail (n : N) {A} (o : outcome A) : (∀ a, o ≠ Ok a) → nninv n → nkeeps n o n.
Proof.
  intros Ho Hn. split; [apply keeps_fail; [done|apply Hn|apply after_refl]|].
  split; [by destruct o; [destruct (Ho a)|..]|]. split; [done|local_replies].
Qed.

(** [NewNode] restores the state machine from the snapshot it found. *)
Lemma restore_nkeeps data fmt n :
  nninv n →
  wp (if bool_decide (data = []) then mret () else
      n ← get;
      match smRestore data (sm n) with
      | Ok s => modify (set sm (λ _, s))
      | Err e => throw (EWrap fmt e)
      | Panic => panic
      | Crash => lift Crash
      end) (nkeeps n) n.
Proof.
  intros Hn. case_match; [by apply wp_nkeeps_ret|]. apply wp_bind, wp_get. cbn [wpk].
  destruct (smRestore data (sm n)); [nkeeps_modify|..].
  - by apply wp_throw, nkeeps_fail.
  - by apply wp_panic, nkeeps_fail.
  - by apply wp_lift, nkeeps_fail.
Qed.

Lemma take_keeps {A} (f : core D → A) g (c : core D) :
  ninv c → ninv (g c) → after c (g c) →
  wp (c ← get; modify g;; mret (f c)) (keeps c) c.
Proof. intros Hn Hg Ha. apply wp_bind, wp_get. cbn [wpk]. by apply wp_bind, wp_modify, wp_ret, keeps_ok. Qed.

(** All of [afterStep]: what it sends is what the core put in its outbox. *)
Definition after_post (n : N) (o : outcome ()) (n' : N) : Prop :=
  keeps (nc n) o (nc n') ∧ (match o with Ok _ => is_u64 (applied n') | _ => True end) ∧
  (net n' = net n ∨ o = Ok () ∧
     ∃ os, net n' = net n ++ os ∧ Forall (out_ok Cfg (ID (cfg (nc n))) (term (nc n'))) os) ∧
  ∃ rs, replies n' = replies n ++ rs ∧ Forall local rs.

Lemma after_post_step {A} (a : A) n n1 o n2 :
  nkeeps n (Ok a) n1 → after_post n1 o n2 → after_post n o n2.
Proof.
  intros ([_ [Hn Ha]] & Hap & Hnet & rs & Hrs & Hl) (Hk2 & Hap2 & Hnet2 & rs2 & Hrs2 & Hl2).
  split; [by eapply keeps_after|]. split; [done|]. split.
  - destruct Hnet2 as [->|(-> & os & -> & Hos)]; [by left|right]. rewrite Hnet.
    split; [done|]. exists os. split; [done|]. by rewrite <-(proj1 Ha).
  - exists (rs ++ rs2). rewrite Hrs2, Hrs, app_assoc. split; [done|by apply Forall_app_2].
Qed.

Lemma after_post_bind {A} (m : M N A) (k : A → M N ()) n :
  wp m (nkeeps n) n →
  (∀ a n1, nninv n1 → wp (k a) (after_post n1) n1) →
  wp (m ≫= k) (after_post n) n.
Proof.
  intros Hm Hk. apply wp_bind. eapply wp_mono; [exact Hm|].
  intros o n1 Hk1. destruct o as [a|e| |]; cbn [wpk].
  2-4: destruct Hk1 as (Hd & Hap & Hnet & Hrs); split; [done|]; split; [done|]; split; [by left|done].
  eapply wp_mono; [apply Hk|intros o n2; by eapply after_post_step]. destruct Hk1 as ([_ []] & ? & _). by split.
Qed.

Lemma wp_sendAsync_all os Q (n : N) :
  Q (Ok ()) (set net (λ l, l ++ os) n) → wp (for_each os sendAsync) Q n.
Proof.
  revert n. induction os as [|o os IH]; intros n HQ; simpl.
  - apply wp_ret. replace n with (set net (λ l, l ++ []) n); [done|].
    destruct n; unfold set, set_net; cbn. by rewrite app_nil_r.
  - apply wp_bind, wp_modify, IH. revert HQ. unfold set, set_net; cbn. by rewrite <-app_assoc.
Qed.

Lemma ninv_takes (c : core D) :
  ninv c → ninv (set pendingRestore (λ _, []) c) ∧ ninv (set committed (λ _, []) c) ∧
  ninv (set readOutcomes (λ _, []) c) ∧ ninv (set outbox (λ _, []) c).
Proof. intros Hn. split_and!; destruct Hn; split; cbn; done. Qed.

Lemma afterStep_post n : nninv n → wp afterStep (after_post n) n.
Proof.
  intros Hn. unfold afterStep.
  apply after_post_bind.
  { apply wp_nkeeps_zoom; [done|]. apply take_keeps; [apply Hn|by apply ninv_takes, Hn|by split; [|apply vle_refl]]. }
  intros data n1 Hn1. apply after_post_bind.
  { case_match; [by apply wp_nkeeps_ret|]. apply wp_bind, wp_get. cbn [wpk].
    destruct (smRestore data (sm n1)).
    - apply wp_nkeeps_bind.
      { apply wp_modify, nkeeps_frame; [done|done| |done|local_replies]. apply Hn1. }
      intros _ n2 Hn2. apply wp_nkeeps_bind; [by apply fireAppliedWaiters_nkeeps|].
      intros. by apply wp_nkeeps_ret.
    - apply wp_nkeeps_bind; [nkeeps_modify|]. intros. by apply wp_nkeeps_ret.
    - apply wp_panic. split; [apply keeps_fail; [done|apply Hn1|apply after_refl]|].
      split; [done|]. split; [done|local_replies].
    - apply wp_lift. split; [apply keeps_fail; [done|apply Hn1|apply after_refl]|].
      split; [done|]. split; [done|local_replies]. }
  intros ok n2 Hn2. destruct ok; cbn [negb].
  2:{ eapply wp_mono; [by apply wp_nkeeps_ret|]. intros o n3 (? & ? & ? & ?). split; [done|]. auto. }
  (* the committed entries *)
  apply wp_bind. unfold takeCommitted. apply wp_zoom, wp_bind, wp_get, wp_bind, wp_modify, wp_ret. cbn [wpk].
  match goal with |- wp _ _ ?s => assert (nkeeps n2 (Ok ()) s) as Hk3 end.
  { split; [apply keeps_ok; [by apply ninv_takes, Hn2|by split; [|apply vle_refl]]|].
    split; [apply Hn2|]. split; [done|local_replies]. }
  eapply wp_mono; [|intros o n4; exact (after_post_step _ _ _ _ _ Hk3)].
  match goal with |- wp _ _ ?s => assert (nninv s) as Hn3 by (split; [by apply ninv_takes, Hn2|apply Hn2]);
    revert Hn3; generalize s end.
  pose proof (ni_committed _ _ _ (proj1 Hn2)) as Hplain. clear Hk3. intros n3 Hn3.
  apply after_post_bind.
  { apply (wp_nkeeps_for_each plain); [done|done|]. intros. by apply applyEntry_nkeeps. }
  intros _ n4 Hn4. apply after_post_bind.
  { apply wp_nkeeps_zoom; [done|]. apply take_keeps; [apply Hn4|by apply ninv_takes, Hn4|by split; [|apply vle_refl]]. }
  intros outs n5 Hn5. apply after_post_bind.
  { apply (wp_nkeeps_for_each (λ _, True)); [done|by apply Forall_true|]. intros. by apply resolveRead_nkeeps. }
  intros _ n6 Hn6. apply after_post_bind; [by apply maybeCompact_nkeeps|].
  intros _ n7 Hn7. apply after_post_bind; [by apply syncTransportConfig_nkeeps|].
  intros _ n8 Hn8. apply wp_bind. unfold takeOutbox. apply wp_zoom. wp_steps.
  apply wp_sendAsync_all. cbn [wpk]. apply wp_modify. split.
  { apply keeps_ok; [by apply ninv_takes, Hn8|by split; [|apply vle_refl]]. }
  split; [apply Hn8|]. split; [|local_replies].
  right. split; [done|]. eexists. split; [reflexivity|]. exact (ni_out _ _ _ (proj1 Hn8)).
Qed.
(** ** One event *)

Definition ev_ok (c : core D) (ev : event) : Prop :=
  match ev with
  | evTick | evTransfer _ _ | evRead _ => True
  | evRequestVote req _ => is_u64 (rv_term req) ∧ is_u64 (rv_candidateId req)
  | evAppendEntries req _ => is_u64 (ae_term req) ∧ Forall plain (ae_entries req)
  | evInstallSnapshot req _ =>
      is_u64 (is_term req) ∧ is_u64 (is_lastIncludedIndex req) ∧ is_u64 (is_lastIncludedTerm req) ∧
      (is_lastIncludedIndex req = 0 ∨ is_config req = encodeMembers Cfg)
  | evTimeoutNow req _ => 0 ≤ tn_term req < 2 ^ 64 - 1
  | evVoteResp from campaign pre resp =>
      is_u64 (rvr_term resp) ∧ from ∈ dom Cfg ∧
      (rvr_voteGranted resp = true → pre = false → E from campaign (ID (cfg c)))
  | evAppendResp _ _ resp => is_u64 (aer_term resp)
  | evSnapshotResp _ _ resp => is_u64 (isr_term resp)
  | evPropose command typ _ _ => typ = ENTRY_TYPE_NORMAL ∧ zlength command ≤ maxEntryCommand
  | evConfChange _ _ _ => False
  end.

(** What an RPC response says of the state the core was in when it answered. *)
Definition resp_ok (ev : event) (c : core D) (r : reply) : Prop :=
  match ev, r with
  | evRequestVote req _, ReplyVote (inl resp) =>
      is_u64 (rvr_term resp) ∧
      (rvr_voteGranted resp = true → rv_preVote req = false →
       votedFor c = rv_candidateId req ∧ term c = rv_term req)
  | evAppendEntries _ _, ReplyAppend (inl resp) => is_u64 (aer_term resp)
  | evInstallSnapshot _ _, ReplySnapshot (inl resp) => is_u64 (isr_term resp)
  | _, _ => True
  end.
Definition is_rpc (r : reply) : bool :=
  match r with
  | ReplyVote (inl _) | ReplyAppend (inl _) | ReplySnapshot (inl _) => true
  | _ => false
  end.

Definition dispatch_post (ev : event) (n : N) (o : outcome ()) (n' : N) : Prop :=
  keeps (nc n) o (nc n') ∧ applied n' = applied n ∧ net n' = net n ∧
  ∃ rs, replies n' = replies n ++ rs ∧
    Forall (λ r, is_rpc r.2 = true → o = Ok ()) rs ∧
    (o = Ok () → Forall (λ r, resp_ok ev (nc n') r.2) rs).

Lemma dispatch_zoom ev (m : M (core D) ()) n :
  wp m (keeps (nc n)) (nc n) → wp (zoom nc m) (dispatch_post ev n) n.
Proof.
  intros Hm. apply wp_zoom. eapply wp_mono; [exact Hm|]. intros o c' Hk.
  split; [done|]. split; [done|]. split; [done|]. exists []. by rewrite app_nil_r.
Qed.

Lemma dispatch_serve {A} ev ch (mk : A + error → reply) (m : M (core D) A) n :
  wp m (λ o c', keeps (nc n) o c' ∧ ∀ a, o = Ok a → resp_ok ev c' (mk (inl a))) (nc n) →
  (∀ e, is_rpc (mk (inr e)) = false) →
  wp (serve ch mk m) (dispatch_post ev n) n.
Proof.
  intros Hm Hmk. unfold serve. apply wp_bind, wp_attempt, wp_zoom. eapply wp_mono; [exact Hm|].
  intros o c' [[Hd Ho] Hr]. destruct o as [a|e| |]; cbn [wpk].
  - apply wp_bind, wp_modify, wp_ret. split; [by split|]. split; [done|]. split; [done|].
    eexists. split; [reflexivity|]. split; [by apply Forall_singleton|].
    intros _. apply Forall_singleton. by apply Hr.
  - apply wp_bind, wp_modify, wp_throw. split; [by split|]. split; [done|]. split; [done|].
    eexists. split; [reflexivity|]. split; [|done]. apply Forall_singleton. cbn. by rewrite Hmk.
  - split; [by split|]. split; [done|]. split; [done|]. exists []. by rewrite app_nil_r.
  - split; [by split|]. split; [done|]. split; [done|]. exists []. by rewrite app_nil_r.
Qed.

Lemma dispatch_serve_proposal ev done respc (m : M (core D) (Z * Z)) n :
  match ev with evPropose _ _ _ _ => True | _ => False end →
  wp m (keeps_err (nc n)) (nc n) → wp (serve_proposal done respc m) (dispatch_post ev n) n.
Proof.
  intros Hev Hm. unfold serve_proposal. apply wp_bind, wp_attempt, wp_zoom. eapply wp_mono; [exact Hm|].
  intros o c' [Hd Ho]. destruct o as [[i t]|e| |]; cbn [wpk].
  - unfold reply_on. wp_steps.
    split; [by split|]. split; [done|]. split; [done|]. eexists. split; [reflexivity|].
    split; [by apply Forall_singleton|]. intros _. apply Forall_singleton. by destruct ev.
  - unfold reply_on. assert (resp_ok ev c' (ReplyPropose (inr e))) by (by destruct ev).
    wp_steps; (split; [by split|]); (split; [done|]);
      (split; [done|]); (eexists; split; [reflexivity|]);
      (split; [by apply Forall_singleton|]); [done|]; intros _; by apply Forall_singleton.
  - split; [by split|]. split; [done|]. split; [done|]. exists []. by rewrite app_nil_r.
  - split; [by split|]. split; [done|]. split; [done|]. exists []. by rewrite app_nil_r.
Qed.
Lemma dispatch_spec ev n :
  nninv n → ev_ok (nc n) ev → term (nc n) < 2 ^ 64 - 1 →
  wp (dispatch ev) (dispatch_post ev n) n.
Proof.
  intros [Hn Ha] Hev Hb.
  assert (∀ A (m : M (core D) A) P, wp m (keeps_res Cfg E P (nc n)) (nc n) →
    wp m (λ o c', keeps (nc n) o c' ∧ ∀ a, o = Ok a → P a) (nc n)) as Hres by done.
  destruct ev; cbn [dispatch ev_ok] in *.
  - by apply dispatch_zoom, tick_keeps.
  - destruct Hev. apply dispatch_serve; [|done]. by apply handleRequestVote_keeps.
  - destruct Hev. apply dispatch_serve; [|done]. by apply handleAppendEntries_keeps.
  - destruct Hev as (? & ? & HE). destruct preVote.
    + by apply dispatch_zoom, handlePreVoteResponse_keeps.
    + apply dispatch_zoom, handleVoteResponse_keeps; auto.
  - by apply dispatch_zoom, handleAppendResponse_keeps.
  - destruct Hev as (? & ? & ? & ?). apply dispatch_serve; [|done].
    by apply handleInstallSnapshot_keeps.
  - by apply dispatch_zoom, handleInstallSnapshotResponse_keeps.
  - apply dispatch_serve; [|done]. eapply wp_mono; [apply handleTimeoutNow_keeps; try done|].
    + unfold is_u64. lia.
    + lia.
    + by split.
  - destruct Hev as [-> ?]. apply dispatch_serve_proposal; [done|]. apply propose_keeps; auto.
  - done.
  - apply wp_bind, wp_attempt, wp_zoom. eapply wp_mono; [by apply transferLeadership_keeps|].
    intros o c' [Hd Ho]. destruct o; cbn [wpk]; unfold reply_on; wp_steps;
      (split; [by split|]); (split; [done|]); (split; [done|]);
      solve [eexists; split; [reflexivity|]; split; [by apply Forall_singleton|];
             intros _; by apply Forall_singleton
            |exists []; by rewrite app_nil_r].
  - apply wp_bind, wp_attempt, wp_zoom. eapply wp_mono; [by apply requestRead_keeps|].
    intros o c' [Hd Ho]. destruct o; cbn [wpk]; unfold reply_on; wp_steps;
      (split; [by split|]); (split; [done|]); (split; [done|]);
      solve [exists []; by rewrite app_nil_r
            |eexists; split; [reflexivity|]; split; [by apply Forall_singleton|];
             intros _; by apply Forall_singleton].
Qed.

(** An event, from an empty outbox: what was durable stays, and a granted vote
    is durable whatever happens after the answer. *)
Definition handle_post (ev : event) (n : N) (o : outcome ()) (n' : N) : Prop :=
  keeps (nc n) o (nc n') ∧ (match o with Ok _ => is_u64 (applied n') | _ => True end) ∧
  Forall (out_ok Cfg (ID (cfg (nc n))) (term (nc n'))) (net n') ∧ (o = Ok () ∨ net n' = []) ∧
  ∀ ch r, (ch, r) ∈ replies n' → is_rpc r = true →
    ∃ c1, resp_ok ev c1 r ∧ ninv c1 ∧ after (nc n) c1 ∧ keeps c1 o (nc n').

Lemma handle_spec ev n :
  nninv n → ev_ok (nc n) ev → term (nc n) < 2 ^ 64 - 1 → replies n = [] → net n = [] →
  wp (handle ev) (handle_post ev n) n.
Proof.
  intros Hn Hev Hb Hr0 Hn0. unfold handle. apply wp_bind.
  eapply wp_mono; [by apply dispatch_spec|].
  intros o n1 (Hk & Hap & Hnet & rs & Hrs & Hrpc & Hok). rewrite Hr0, Hn0 in *. simpl in Hrs.
  rewrite Forall_forall in Hrpc.
  destruct o as [[]|e| |]; cbn [wpk].
  2-4: split; [done|]; split; [done|]; rewrite Hnet, Hrs; split; [done|]; split; [by right|];
    intros ch r Hin Hr; by specialize (Hrpc _ Hin Hr).
  specialize (Hok eq_refl). destruct Hk as [_ [Hn1 Ha1]].
  eapply wp_mono; [apply afterStep_post; split; [done|]; rewrite Hap; apply Hn|].
  intros o n2 (Hk2 & Hap2 & Hnet2 & rs2 & Hrs2 & Hl2). split; [by eapply keeps_after|].
  split; [done|]. split; [|split].
  - destruct Hnet2 as [->|(_ & os & -> & Hos)]; rewrite Hnet; [done|]. by rewrite <-(proj1 Ha1).
  - destruct Hnet2 as [->|(-> & _)]; rewrite ?Hnet; auto.
  - intros ch r Hin Hr. rewrite Hrs2, Hrs in Hin. exists (nc n1).
    apply elem_of_app in Hin as [Hin|Hin].
    + rewrite Forall_forall in Hok. split; [exact (Hok _ Hin)|done].
    + rewrite Forall_forall in Hl2. specialize (Hl2 _ Hin). by destruct r as [[]|[]|[]|[]|[]|[]|[]|[]].
Qed.
End node_keeps.

Lemma dview_weaken {D} `{RaftDiskLaws D} Cfg t v t0 v0 (d : D) :
  vle t v t0 v0 → dview Cfg t0 v0 d → dview Cfg t v d.
Proof. intros Hv [? Hs ? ?]. split; try done. intros t' v' ?%Hs. by eapply vle_trans. Qed.

Lemma ninv_mono {D} `{RaftDiskLaws D} Cfg (E E' : Z → Z → Z → Prop) (c : core D) :
  (∀ v t i, E v t i → E' v t i) → ninv Cfg E c → ninv Cfg E' c.
Proof.
  intros HE Hn. destruct Hn; split; try done. intros Hr.
  destruct (ni_votes Hr) as (Hv & vs & Hvs & Hev). split; [done|]. exists vs. split; [done|].
  intros v Hin. destruct (Hev v Hin) as [? [?|?]]; auto.
Qed.

Section safety.
Context {D S : Type} `{RaftDiskLaws D} `{GoRuntime} `{StateMachine S}.
Context (Cfg : Members) (conf : Z → Config) (s0 : S) (compactAt : Z) (peers : option Members).
Context (Cfg_wf : members_wf Cfg) (Cfg_rt : decodeMembers (encodeMembers Cfg) = Ok Cfg)
  (conf_ids : ∀ i, i ∈ dom Cfg → ID (conf i) = i).

Abbreviation W := (world D S).
Abbreviation evidence w := (λ v t i, (v, t, i) ∈ ballots w).

(** A node that cast the ballot [(t, i)] has not moved behind it. *)
Definition floor (t i : Z) (st : nstate D S) : Prop :=
  match st with
  | Up n => vle t i (term (nc n)) (votedFor (nc n))
  | Down d => dview Cfg t i d
  end.

Definition packet_ok (w : W) (p : packet) : Prop :=
  match p with
  | PReq from o => from ∈ dom Cfg ∧ from ≠ 0 ∧ out_ok Cfg from (2 ^ 64 - 2) o
  | PVoteResp v c req resp =>
      is_u64 (rvr_term resp) ∧ v ∈ dom Cfg ∧ rv_candidateId req = c ∧
      (rvr_voteGranted resp = true → rv_preVote req = false → (v, rv_term req, c) ∈ ballots w)
  | PAppendResp _ _ _ resp => is_u64 (aer_term resp)
  | PSnapResp _ _ _ resp => is_u64 (isr_term resp)
  end.

Record winv (w : W) : Prop := {
  w_dom : ∀ i st, nodes w !! i = Some st → i ∈ dom Cfg;
  w_up : ∀ i n, nodes w !! i = Some (Up n) →
    nninv Cfg (evidence w) n ∧ ID (cfg (nc n)) = i ∧ term (nc n) < 2 ^ 64 - 1;
  w_down : ∀ i d, nodes w !! i = Some (Down d) → ∃ t v, dview Cfg t v d;
  w_floor : ∀ v t i st, (v, t, i) ∈ ballots w → nodes w !! v = Some st → floor t i st;
  w_voters : ∀ v t i, (v, t, i) ∈ ballots w → i ≠ 0 ∧ is_Some (nodes w !! v);
  w_packets : ∀ p, p ∈ sent w → packet_ok w p;
  w_once : ∀ v t i j, (v, t, i) ∈ ballots w → (v, t, j) ∈ ballots w → i = j;
  w_elected : ∀ t i, (t, i) ∈ elected w → ∃ vs : gset Z, vs ⊆ dom Cfg ∧
    quorum Cfg ≤ Z.of_nat (size vs) ∧ ∀ v, v ∈ vs → (v, t, i) ∈ ballots w
}.

Lemma nodes_insert_inv (m : gmap Z (nstate D S)) i st j st' :
  <[i := st]> m !! j = Some st' → (j = i ∧ st' = st) ∨ (j ≠ i ∧ m !! j = Some st').
Proof. rewrite lookup_insert. case_decide; naive_solver. Qed.

(** Events that the network may deliver are ones the handlers are specified
    for. *)
Lemma delivers_ok w i n ev resp :
  winv w → nodes w !! i = Some (Up n) → delivers (sent w) i ev resp →
  ev_ok Cfg (evidence w) (nc n) ev.
Proof.
  intros Hw Hi Hdel. destruct (w_up w Hw i n Hi) as ([Hn _] & Hid & _).
  assert (∀ from, from ∈ dom Cfg → is_u64 from) as Hu.
  { intros from [a Ha]%elem_of_dom. by apply (proj1 (proj2 Cfg_wf)) in Ha as [? _]. }
  destruct Hdel as [|from req ch Hp|from req ch Hp|from req ch Hp|from req ch Hp|from req resp Hp
    |from req resp Hp|from req resp Hp|cmd dn ch Hc| |]; cbn; try exact I;
    try (apply (w_packets w Hw) in Hp; cbn in Hp).
  - destruct Hp as (Hf & _ & -> & ?). split; [done|by apply Hu].
  - naive_solver.
  - naive_solver.
  - destruct Hp as (_ & _ & ?). lia.
  - destruct Hp as (? & ? & Hc & Hb). split; [done|]. split; [done|]. intros Hg Hpre.
    rewrite Hid. auto.
  - done.
  - done.
  - done.
Qed.

(** The ballots a run of node [i] adds: cast at states of the run. *)
Record cast (c : core D) (st : nstate D S) (t i : Z) : Prop := {
  cast_nonzero : i ≠ 0;
  cast_after : vle (term c) (votedFor c) t i;
  cast_floor : floor t i st
}.

Lemma keeps_floor {A} E (c : core D) (o : outcome A) (n' : Node D S) :
  keeps Cfg E c o (nc n') →
  floor (term c) (votedFor c) (match o with Ok _ => Up n' | _ => Down (disk (nc n')) end).
Proof. intros [Hd Ho]. destruct o; [by destruct Ho as [_ [_ ?]]|done..]. Qed.

Lemma floor_weaken t i t' i' st : vle t i t' i' → floor t' i' st → floor t i st.
Proof.
  intros Hv. destruct st; simpl; [by intros; eapply vle_trans|by apply dview_weaken].
Qed.

(** Adding consistent ballots of one voter keeps the invariant's ballot
    clauses. *)
Lemma ballots_extend w i n st (nb : list (Z * Z * Z)) :
  winv w → nodes w !! i = Some (Up n) →
  floor (term (nc n)) (votedFor (nc n)) st →
  (∀ v t j, (v, t, j) ∈ nb → v = i ∧ cast (nc n) st t j) →
  (∀ t j k, (i, t, j) ∈ nb → (i, t, k) ∈ nb → j = k) →
  let nodes' := <[i := st]> (nodes w) in
  let bs := ballots w ++ nb in
  (∀ v t j st', (v, t, j) ∈ bs → nodes' !! v = Some st' → floor t j st') ∧
  (∀ v t j, (v, t, j) ∈ bs → j ≠ 0 ∧ is_Some (nodes' !! v)) ∧
  (∀ v t j k, (v, t, j) ∈ bs → (v, t, k) ∈ bs → j = k).
Proof.
  intros Hw Hi Hst Hnb Hfun. cbv zeta.
  assert (∀ t j, (i, t, j) ∈ ballots w → vle t j (term (nc n)) (votedFor (nc n))) as Hold.
  { intros t j Hb. exact (w_floor w Hw i t j _ Hb Hi). }
  split_and!.
  - intros v t j st' [Hb|Hb]%elem_of_app Hv; apply nodes_insert_inv in Hv as [[-> ->]|[Hne Hv]].
    + eapply floor_weaken; [by apply Hold|done].
    + by eapply w_floor.
    + by destruct (Hnb _ _ _ Hb) as [_ []].
    + by destruct (Hnb _ _ _ Hb) as [-> _].
  - intros v t j [Hb|Hb]%elem_of_app; rewrite lookup_insert_is_Some'.
    + destruct (w_voters w Hw _ _ _ Hb). auto.
    + destruct (Hnb _ _ _ Hb) as [-> []]. auto.
  - assert (∀ v t j k, (v, t, j) ∈ ballots w → (v, t, k) ∈ nb → j = k) as Hmix.
    { intros v t j k Hb Hk. destruct (Hnb _ _ _ Hk) as [-> [_ Ha _]].
      destruct (w_voters w Hw _ _ _ Hb) as [Hj _].
      destruct (vle_trans _ _ _ _ _ _ (Hold _ _ Hb) Ha) as [?|[_ [?|?]]]; [lia|done|done]. }
    intros v t j k [Hb|Hb]%elem_of_app [Hk|Hk]%elem_of_app; [by eapply w_once|by eapply Hmix
      |symmetry; by eapply Hmix|].
    destruct (Hnb _ _ _ Hb) as [-> _]. by eapply Hfun.
Qed.

(** A response of node [i] to event [ev]. *)
Definition response_ok (i : Z) (ev : event) (c : core D) (st : nstate D S) (p : packet) : Prop :=
  match p with
  | PReq _ _ => False
  | PVoteResp v to req r =>
      v = i ∧ (∃ ch, ev = evRequestVote req ch) ∧ is_u64 (rvr_term r) ∧ rv_candidateId req = to ∧
      (rvr_voteGranted r = true → rv_preVote req = false → cast c st (rv_term req) to ∧
       ∀ n', st = Up n' → vle (rv_term req) to (term (nc n')) (votedFor (nc n')))
  | PAppendResp _ _ _ r => is_u64 (aer_term r)
  | PSnapResp _ _ _ r => is_u64 (isr_term r)
  end.

Lemma responses_ok w i n ev resp o n' p :
  winv w → nodes w !! i = Some (Up n) → delivers (sent w) i ev resp →
  handle_post Cfg (evidence w) ev (n <| replies := [] |> <| net := [] |>) o n' →
  p ∈ omap (resp ∘ snd) (replies n') →
  response_ok i ev (nc n) (match o with Ok _ => Up n' | _ => Down (disk (nc n')) end) p.
Proof.
  intros Hw Hi Hdel (_ & _ & _ & _ & Hrep) Hp.
  apply list_elem_of_omap in Hp as ([ch r] & Hin & Hr). cbn in Hr. specialize (Hrep _ _ Hin).
  destruct Hdel as [|from req ch' Hp|from req ch' Hp|from req ch' Hp| | | | | | |]; try done.
  - destruct r as [[resp|]| | | | | | |]; try done. injection Hr as <-.
    destruct (Hrep eq_refl) as (c1 & [Hu Hg] & Hn1 & Ha1 & Hk1).
    apply (w_packets w Hw) in Hp as (_ & Hf0 & Hcand & _). cbn. split_and!; eauto.
    intros Hgr Hpre. destruct (Hg Hgr Hpre) as [Hv Ht]. rewrite Hcand in Hv.
    pose proof (keeps_floor _ _ _ _ Hk1) as Hfl. rewrite Hv, Ht in Hfl.
    split; [|intros n1 Hst; by rewrite Hst in Hfl]. destruct Ha1 as [_ Ha1]. rewrite Hv, Ht in Ha1. by split.
  - destruct r as [|[resp|]| | | | | |]; try done. injection Hr as <-.
    by destruct (Hrep eq_refl) as (c1 & Hu & _).
  - destruct r as [| |[resp|]| | | | |]; try done. injection Hr as <-.
    by destruct (Hrep eq_refl) as (c1 & Hu & _).
Qed.

Lemma packet_ok_mono w w' p :
  (∀ b, b ∈ ballots w → b ∈ ballots w') → packet_ok w p → packet_ok w' p.
Proof. intros Hb. destruct p; simpl; naive_solver. Qed.

(** The ballots announced in one run of node [i]. *)
Lemma announced_cast i ev (c : core D) st os rs v t j :
  (∀ p, p ∈ rs → response_ok i ev c st p) →
  (v, t, j) ∈ omap announced ((PReq i <$> os) ++ rs) →
  v = i ∧ cast c st t j ∧
  (∃ req ch, ev = evRequestVote req ch ∧ t = rv_term req ∧ j = rv_candidateId req) ∧
  ∀ m, st = Up m → vle t j (term (nc m)) (votedFor (nc m)).
Proof.
  intros Hresp (p & Hp & Hpa)%list_elem_of_omap. apply elem_of_app in Hp as [Hp|Hp].
  - apply list_elem_of_fmap in Hp as (? & -> & _). done.
  - specialize (Hresp p Hp). destruct p as [|v' to req r| |]; try done. cbn in Hpa.
    destruct (rvr_voteGranted r && negb (rv_preVote req)) eqn:Hg; [|done]. zify_bool.
    injection Hpa as <- <- <-. destruct Hresp as (-> & [ch ->] & _ & <- & Hc).
    destruct Hc as [Hc Hv]; [done..|]. split_and!; [done|done|by exists req, ch|done].
Qed.

Definition own_of (i : Z) (st : nstate D S) : list (Z * Z * Z) :=
  match st with Up n => own_ballot i (nc n) | Down _ => [] end.
Definition elected_of (i : Z) (st : nstate D S) : list (Z * Z) :=
  match st with Up n => own_election i (nc n) | Down _ => [] end.

(** ... and the one it casts for itself as a candidate. *)
Lemma own_cast i E (c : core D) st v t j :
  (∀ m, st = Up m → ninv Cfg E (nc m) ∧ after c (nc m) ∧ ID (cfg (nc m)) = i) →
  (v, t, j) ∈ own_of i st →
  v = i ∧ cast c st t j ∧ j = i ∧ ∃ m, st = Up m ∧ t = term (nc m) ∧ votedFor (nc m) = i.
Proof.
  intros Hst Hin. destruct st as [m|]; [|by apply elem_of_nil in Hin].
  destruct (Hst m eq_refl) as (Hn & Ha & Hid). cbn in Hin. unfold own_ballot in Hin.
  case_bool_decide; [by apply elem_of_nil in Hin|].
  apply list_elem_of_singleton in Hin as [= -> -> ->].
  destruct (ni_votes _ _ _ Hn) as [Hv _]; [done|]. rewrite Hid in Hv.
  split; [done|]. split; [|by eauto]. destruct Ha as [_ Ha]. rewrite Hv in Ha. split.
  - rewrite <-Hid. apply Hn.
  - done.
  - cbn. rewrite Hv. apply vle_refl.
Qed.

(** The run of node [i] from state [n]: what it answers, sends and becomes. *)
Record run_ok (w : W) (i : Z) (n : Node D S) (ev : event) (st : nstate D S)
    (os : list outbound) (rs : list packet) : Prop := {
  run_resp : ∀ p, p ∈ rs → response_ok i ev (nc n) st p;
  run_floor : floor (term (nc n)) (votedFor (nc n)) st;
  run_up : ∀ m, st = Up m → nninv Cfg (evidence w) m ∧ after (nc n) (nc m) ∧
    ID (cfg (nc m)) = i ∧ term (nc m) < 2 ^ 64 - 1;
  run_out : Forall (out_ok Cfg i (2 ^ 64 - 2)) os
}.

Lemma run_ballots w i n ev st os rs :
  winv w → nodes w !! i = Some (Up n) → run_ok w i n ev st os rs →
  let nb := omap announced ((PReq i <$> os) ++ rs) ++ own_of i st in
  (∀ v t j, (v, t, j) ∈ nb → v = i ∧ cast (nc n) st t j) ∧
  (∀ t j k, (i, t, j) ∈ nb → (i, t, k) ∈ nb → j = k).
Proof.
  intros Hw Hi [Hresp Hfl Hup Hos]. cbv zeta.
  assert (∀ v t j, (v, t, j) ∈ own_of i st →
    v = i ∧ cast (nc n) st t j ∧ j = i ∧ ∃ m, st = Up m ∧ t = term (nc m) ∧ votedFor (nc m) = i) as Hown.
  { intros v t j. apply (own_cast i (evidence w)). intros m Hm.
    by destruct (Hup m Hm) as ([? _] & ? & ? & _). }
  split.
  { intros v t j [Hb|Hb]%elem_of_app; [by eapply announced_cast in Hb as (? & ? & _)|].
    by apply Hown in Hb as (? & ? & _). }
  assert (∀ t j k, (i, t, j) ∈ omap announced ((PReq i <$> os) ++ rs) →
    (i, t, k) ∈ own_of i st → j = k) as Hmix.
  { intros t j k Hj Hk. eapply announced_cast in Hj as (_ & [Hj0 _ _] & _ & Hv); [|done].
    apply Hown in Hk as (_ & _ & -> & m & Hm & -> & Hvm). specialize (Hv m Hm).
    rewrite Hvm in Hv. destruct Hv as [?|[_ [?|?]]]; [lia|done|done]. }
  intros t j k [Hj|Hj]%elem_of_app [Hk|Hk]%elem_of_app; [|by eauto|symmetry; by eauto|].
  - eapply announced_cast in Hj as (_ & _ & (req & ch & Hev & _ & ->) & _); [|done].
    eapply announced_cast in Hk as (_ & _ & (req' & ch' & Hev' & _ & ->) & _); [|done].
    rewrite Hev in Hev'. by injection Hev' as <- <-.
  - apply Hown in Hj as (_ & _ & -> & _). by apply Hown in Hk as (_ & _ & -> & _).
Qed.

(** The votes behind an election. *)
Lemma run_elected (w : W) i st t j (bs : list (Z * Z * Z)) :
  (∀ m, st = Up m → nninv Cfg (evidence w) m ∧ ID (cfg (nc m)) = i) →
  (∀ b, b ∈ ballots w → b ∈ bs) → (∀ b, b ∈ own_of i st → b ∈ bs) →
  (t, j) ∈ elected_of i st →
  ∃ vs : gset Z, vs ⊆ dom Cfg ∧ quorum Cfg ≤ Z.of_nat (size vs) ∧ ∀ v, v ∈ vs → (v, t, j) ∈ bs.
Proof.
  intros Hup Hold Hown Hin. destruct st as [m|]; [|by apply elem_of_nil in Hin].
  destruct (Hup m eq_refl) as ([Hn _] & Hid). cbn in Hin. unfold own_election in Hin.
  case_bool_decide as Hl; [|by apply elem_of_nil in Hin].
  apply list_elem_of_singleton in Hin as [= -> ->].
  assert (role (nc m) ≠ follower) as Hr by congruence.
  destruct (ni_votes _ _ _ Hn Hr) as (_ & vs & Hvs & Hev).
  pose proof (ni_leader _ _ _ Hn Hl) as Hq. rewrite Hvs in Hq. rewrite Hid in Hev.
  exists vs. split; [intros v Hv; by apply Hev|]. split; [done|].
  intros v Hv. destruct (Hev v Hv) as [_ [->|Hb]]; [|by apply Hold].
  apply Hown. cbn. unfold own_ballot. rewrite bool_decide_eq_false_2 by done. left.
Qed.

Lemma winv_ran w i n ev st os rs :
  winv w → nodes w !! i = Some (Up n) → run_ok w i n ev st os rs →
  winv (mkWorld (<[i := st]> (nodes w)) (sent w ++ (PReq i <$> os) ++ rs)
    (ballots w ++ omap announced ((PReq i <$> os) ++ rs) ++ own_of i st)
    (elected w ++ elected_of i st)).
Proof.
  intros Hw Hi Hrun. destruct (run_ballots w i n ev st os rs Hw Hi Hrun) as [Hnb Hfun].
  destruct Hrun as [Hresp Hfl Hup Hos].
  destruct (ballots_extend w i n st _ Hw Hi Hfl Hnb Hfun) as (Hfloor & Hvot & Honce).
  set (nb := omap announced _ ++ own_of i st) in *.
  assert (∀ b, b ∈ ballots w → b ∈ ballots w ++ nb) as Hsub by (intros; set_solver).
  assert (i ∈ dom Cfg) as Hidom by by eapply w_dom.
  split; cbn; try done.
  - intros j st' [[-> _]|[_ ?]]%nodes_insert_inv; [done|by eapply w_dom].
  - intros j m [[-> Hm]|[_ Hj]]%nodes_insert_inv.
    + symmetry in Hm. destruct (Hup m Hm) as ([Hn ?] & _ & ? & ?). split_and!; try done.
      split; [|done]. eapply ninv_mono; [|done]. intros; by apply Hsub.
    + destruct (w_up w Hw j m Hj) as ([Hn ?] & ? & ?). split_and!; try done.
      split; [|done]. eapply ninv_mono; [|done]. intros; by apply Hsub.
  - intros j d [[-> Hm]|[_ Hj]]%nodes_insert_inv; [|by eapply w_down].
    rewrite <-Hm in Hfl. eauto.
  - intros p [Hp|[Hp|Hp]%elem_of_app]%elem_of_app.
    + eapply packet_ok_mono; [exact Hsub|]. by apply w_packets.
    + apply list_elem_of_fmap in Hp as (o & -> & Ho). split; [done|].
      rewrite Forall_forall in Hos. split; [|by apply Hos].
      destruct (w_up w Hw i n Hi) as ([Hn _] & <- & _). apply Hn.
    + pose proof (Hresp p Hp) as Hr. destruct p as [|v to req r| |]; try done. cbn.
      destruct Hr as (-> & _ & ? & Hto & _). split_and!; try done. intros Hg Hpre.
      apply elem_of_app. right. apply elem_of_app. left. apply list_elem_of_omap.
      eexists. split; [apply elem_of_app; right; exact Hp|]. cbn. by rewrite Hg, Hpre, Hto.
  - intros t j [Ht|Ht]%elem_of_app.
    + destruct (w_elected w Hw t j Ht) as (vs & ? & ? & ?). exists vs. split_and!; auto.
    + eapply (run_elected w i st); [|exact Hsub| |exact Ht].
      * intros m Hm. by destruct (Hup m Hm) as (? & _ & ? & _).
      * intros b Hb. set_solver.
Qed.

Lemma out_ok_mono i t t' o : t ≤ t' → out_ok Cfg i t o → out_ok Cfg i t' o.
Proof. destruct o; simpl; try done. lia. Qed.

Lemma ran_eq w i o n' out :
  ran w i o n' out =
    let st := match o with Ok _ => Up n' | _ => Down (disk (nc n')) end in
    mkWorld (<[i := st]> (nodes w)) (sent w ++ out) (ballots w ++ omap announced out ++ own_of i st)
      (elected w ++ elected_of i st).
Proof. unfold ran. destruct o; cbn; rewrite ?app_nil_r; done. Qed.

Lemma step_event_inv w i n ev resp o n' :
  winv w → nodes w !! i = Some (Up n) → delivers (sent w) i ev resp →
  handle ev (n <| replies := [] |> <| net := [] |>) = (o, n') →
  (o = Ok () → term (nc n') < 2 ^ 64 - 1) →
  winv (ran w i o n' ((PReq i <$> net n') ++ omap (resp ∘ snd) (replies n'))).
Proof.
  intros Hw Hi Hdel Hrun Hbound. destruct (w_up w Hw i n Hi) as (Hn & Hid & Hb).
  assert (handle_post Cfg (evidence w) ev (n <| replies := [] |> <| net := [] |>) o n') as Hpost.
  { eapply wp_elim; [|exact Hrun]. apply handle_spec; try done. exact (delivers_ok w i n ev resp Hw Hi Hdel). }
  rewrite ran_eq. cbv zeta. apply (winv_ran w i n ev); [done|done|].
  pose proof (λ p, responses_ok w i n ev resp o n' p Hw Hi Hdel Hpost) as Hresp.
  destruct Hpost as (Hk & Hap & Hout & Hnet & _). cbn in Hk, Hout. rewrite Hid in Hout. split.
  - exact Hresp.
  - by eapply keeps_floor.
  - intros m Hm. destruct o as [[]| | |]; try done. injection Hm as <-.
    destruct Hk as [_ [Hn' Ha']]. split_and!; [by split|done| |by apply Hbound].
    rewrite (proj1 Ha'). done.
  - destruct Hnet as [->| ->]; [|done]. specialize (Hbound eq_refl).
    eapply Forall_impl; [exact Hout|]. intros x. apply out_ok_mono. lia.
Qed.

(** A world in which only node [i] changed, and neither the network nor the
    history did. *)
Lemma winv_quiet w i st :
  winv w → is_Some (nodes w !! i) →
  (∀ n, st = Up n → nninv Cfg (evidence w) n ∧ ID (cfg (nc n)) = i ∧ term (nc n) < 2 ^ 64 - 1) →
  (∀ d, st = Down d → ∃ t v, dview Cfg t v d) →
  (∀ t j, (i, t, j) ∈ ballots w → floor t j st) →
  winv (mkWorld (<[i := st]> (nodes w)) (sent w) (ballots w) (elected w)).
Proof.
  intros Hw [st0 Hi] Hup Hdown Hfl. pose proof Hw as [? ? ? ? Hv Hp ? ?]. split; cbn; try done.
  - intros j st' [[-> _]|[_ ?]]%nodes_insert_inv; eauto.
  - intros j n [[-> <-]|[_ ?]]%nodes_insert_inv; eauto.
  - intros j d [[-> <-]|[_ ?]]%nodes_insert_inv; eauto.
  - intros v t j st' Hb [[-> ->]|[_ ?]]%nodes_insert_inv; eauto.
  - intros v t j Hb. rewrite lookup_insert_is_Some'. destruct (Hv v t j Hb). auto.
Qed.

Lemma step_stop_inv w i n :
  winv w → nodes w !! i = Some (Up n) →
  winv (mkWorld (<[i := Down (disk (nc n))]> (nodes w)) (sent w) (ballots w) (elected w)).
Proof.
  intros Hw Hi. destruct (w_up w Hw i n Hi) as ([Hn _] & Hid & Hb).
  pose proof (ninv_dview_self _ _ _ Hn) as Hd. apply winv_quiet; try done.
  - intros d [= <-]. eauto.
  - intros t j Hbal. eapply dview_weaken; [|exact Hd]. exact (w_floor w Hw i t j _ Hbal Hi).
Qed.

(** Booting a node from a disk that satisfies [dview]. *)
Lemma NewNode_spec E i t0 v0 (d : D) o d'' :
  i ∈ dom Cfg → dview Cfg t0 v0 d →
  NewNode (conf i) Cfg s0 compactAt peers d = (o, d'') →
  match o with
  | Ok n => nninv Cfg E n ∧ ID (cfg (nc n)) = i ∧ vle t0 v0 (term (nc n)) (votedFor (nc n))
  | _ => dview Cfg t0 v0 d''
  end.
Proof.
  intros Hi Hd. unfold NewNode.
  assert (is_u64 (ID (conf i))) as Hu.
  { rewrite conf_ids by done. apply elem_of_dom in Hi as [a Ha].
    by apply (proj1 (proj2 Cfg_wf)) in Ha as [? _]. }
  assert (ID (conf i) ∈ dom Cfg) as Hid by (by rewrite conf_ids).
  pose proof (newCore_ninv Cfg E (conf i) t0 v0 d Hid Hu Hd) as Hboot.
  destruct (newCore (conf i) Cfg d) as [[c|e| |] d1]; [|by intros [= <- <-]..].
  destruct Hboot as (Hn & Hcfg & _ & _ & Hst). apply (dv_state _ _ _ _ Hd) in Hst.
  set (n0 := node_of c s0 compactAt peers).
  assert (nninv Cfg E n0) as Hn0 by (split; [done|apply Hn]).
  match goal with |- context [match ?m n0 with _ => _ end] => set (start := m) end.
  assert (wp start (nkeeps Cfg E n0) n0) as Hwp.
  { unfold start. apply wp_nkeeps_bind.
    { apply wp_nkeeps_zoom; [done|]. apply take_keeps; [apply Hn0|by apply ninv_takes, Hn0|].
      by split; [|apply vle_refl]. }
    intros data n1 Hn1. apply wp_nkeeps_bind.
    { apply restore_nkeeps. done. }
    intros _ n2 Hn2. apply wp_nkeeps_bind; [by apply syncTransportConfig_nkeeps|].
    intros _ n3 Hn3. apply publishStatus_nkeeps. done. }
  unfold wp in Hwp. destruct (start n0) as [[[]|e| |] n1]; cbn [fst snd] in Hwp; intros [= <- <-];
    destruct Hwp as ([Hd1 Ho] & Hap & _).
  2-4: by eapply dview_weaken.
  destruct Ho as [Hn1 Ha]. split; [by split|]. split.
  - rewrite (proj1 Ha). cbn. rewrite Hcfg. cbn. by apply conf_ids.
  - eapply vle_trans; [exact Hst|]. apply Ha.
Qed.

Lemma step_boot_inv w i d d' o d'' :
  winv w → nodes w !! i = Some (Down d) → reboot d d' →
  NewNode (conf i) Cfg s0 compactAt peers d' = (o, d'') →
  (∀ n, o = Ok n → term (nc n) < 2 ^ 64 - 1) →
  winv (mkWorld (<[i := match o with Ok n => Up n | _ => Down d'' end]> (nodes w))
          (sent w) (ballots w) (elected w)).
Proof.
  intros Hw Hi Hre Hnew Hb. destruct (w_down w Hw i d Hi) as (t0 & v0 & Hd).
  pose proof (w_dom w Hw i _ Hi) as Hid.
  destruct (reboot_law d d' (dv_wf _ _ _ _ Hd) Hre) as (Hwf' & Hs' & Hl' & Hsn').
  assert (∀ t v, dview Cfg t v d → dview Cfg t v d') as Hd'.
  { intros t v [_ ? ? ?]. split; naive_solver. }
  pose proof (λ t v Hv, NewNode_spec (evidence w) i t v d' o d'' Hid (Hd' t v Hv) Hnew) as Hspec.
  apply winv_quiet; [done|by eauto|..].
  - intros n Hst. destruct o; try done. injection Hst as ->.
    destruct (Hspec _ _ Hd) as (? & ? & _). split_and!; auto.
  - intros d1 Hst. destruct o; try done; injection Hst as <-; eauto.
  - intros t j Hbal. pose proof (w_floor w Hw i t j _ Hbal Hi) as Hf.
    specialize (Hspec _ _ Hf). destruct o; [by destruct Hspec as (_ & _ & ?)|done..].
Qed.

Lemma initial_winv w : initial Cfg w → winv w.
Proof.
  intros (Hdom & Hs & Hb & He & Hdisk). split; rewrite ?Hs, ?Hb, ?He;
    try (intros * []%elem_of_nil); try (intros * Hin; by apply elem_of_nil in Hin).
  - intros i st Hi. rewrite <-Hdom. by apply elem_of_dom_2 in Hi.
  - intros i n Hi. by destruct (Hdisk _ _ Hi) as (d & ? & _).
  - intros i d Hi. destruct (Hdisk _ _ Hi) as (d' & [= <-] & Hwf & Hst & Hlog & Hsnap).
    exists 0, noVote. split; [done|..].
    + intros t v [-> ->]%Hst. apply vle_refl.
    + intros l ->%Hlog. done.
    + intros s ->%Hsnap. split_and!; [done|done|by right].
Qed.

Lemma reachable_winv w : reachable Cfg conf s0 compactAt peers w → winv w.
Proof.
  induction 1 as [w Hi|w w' _ IH Hstep Hbound]; [by apply initial_winv|].
  destruct Hstep as [i n ev resp o n' Hi Hdel Hrun|i n Hi|i d d' o d'' Hi Hre Hnew].
  - apply (step_event_inv w i n ev); try done. intros ->. apply (Hbound i). cbn.
    by rewrite lookup_insert_eq.
  - by apply step_stop_inv.
  - apply (step_boot_inv w i d d'); try done. intros n ->. apply (Hbound i). cbn.
    by rewrite lookup_insert_eq.
Qed.

(** A booted node is a follower. *)
Lemma NewNode_follower (conf0 : Config) mem0 (d : D) (n : Node D S) d'' :
  NewNode conf0 mem0 s0 compactAt peers d = (Ok n, d'') → role (nc n) = follower.
Proof.
  unfold NewNode, newCore. destruct (ID conf0 =? 0); [done|].
  match goal with |- context [match ?m d with _ => _ end] => destruct (m d) as [[[[[t v] snap] l]|e| |] d1] end;
    [|done..].
  assert (wp (recalcConfig;; resetElectionTimer) (λ _ c', role c' = follower)
    (initial_core (applyDefaults conf0) d1 t v snap l mem0)) as Hrole.
  { unfold recalcConfig, resetElectionTimer. wp_steps; done. }
  unfold wp in Hrole. destruct ((recalcConfig;; resetElectionTimer) _) as [[[]|e| |] c];
    cbn in Hrole; [|done..].
  match goal with |- context [match ?m (node_of c _ _ _) with _ => _ end] => set (start := m) end.
  assert (wp start (λ _ n', role (nc n') = follower) (node_of c s0 compactAt peers)) as Hstart.
  { unfold start, takeRestore, syncTransportConfig, publishStatus. wp_steps; done. }
  unfold wp in Hstart. destruct (start _) as [[[]|e| |] n']; [|done..]. by intros [= <- <-].
Qed.

(** A leader of the present is recorded. *)
Lemma reachable_recorded w i n :
  reachable Cfg conf s0 compactAt peers w → nodes w !! i = Some (Up n) → role (nc n) = leader →
  (term (nc n), i) ∈ elected w.
Proof.
  intros Hr. revert i n. induction Hr as [w Hi|w w' _ IH Hstep _].
  { intros i n Hn. destruct Hi as (_ & _ & _ & _ & Hd). by destruct (Hd _ _ Hn) as (? & ? & _). }
  destruct Hstep as [i n ev resp o n' Hi Hdel Hrun|i n Hi|i d d' o d'' Hi Hre Hnew]; intros j m Hj Hl.
  - rewrite ran_eq in Hj |- *. cbn in Hj |- *. apply elem_of_app.
    apply nodes_insert_inv in Hj as [[-> Hm]|[_ Hj]]; [right|left; by apply IH].
    destruct o; try done. injection Hm as <-. cbn. unfold own_election.
    rewrite bool_decide_eq_true_2 by done. by left.
  - apply nodes_insert_inv in Hj as [[-> ?]|[_ Hj]]; [done|by apply IH].
  - apply nodes_insert_inv in Hj as [[-> Hm]|[_ Hj]]; [|by apply IH].
    destruct o as [n|e| |]; try done. injection Hm as <-. exfalso.
    apply NewNode_follower in Hnew. congruence.
Qed.
End safety.

(** ** Election Safety *)

(** C2: Election Safety.  In every reachable state of a cluster with a fixed
    membership, whatever the network lost, delayed, duplicated or reordered and
    wherever nodes crashed (in the middle of a write included) and booted again,
    there has been at most one leader in each term; and the history that says so
    misses no running leader.  (Requests to add or remove a member are not among the
    events, and no term reaches the end of the 64-bit range.) *)
Theorem election_safety {D S} `{RaftDiskLaws D} `{GoRuntime} `{StateMachine S}
    (Cfg : Members) (conf : Z → Config) (s0 : S) compactAt peers (w : world D S) :
  members_wf Cfg → (∀ k, k ∈ dom Cfg → ID (conf k) = k) →
  reachable Cfg conf s0 compactAt peers w →
  (∀ t i j, (t, i) ∈ elected w → (t, j) ∈ elected w → i = j) ∧
  (∀ i n, nodes w !! i = Some (Up n) → role (nc n) = leader → (term (nc n), i) ∈ elected w).
Proof.
  intros Hwf Hids Hr. split; [|intros; by eapply reachable_recorded]. intros t i j Hi Hj.
  pose proof (reachable_winv Cfg conf s0 compactAt peers Hwf (decodeMembers_encode Cfg Hwf) Hids w Hr) as Hw.
  destruct (w_elected _ w Hw t i Hi) as (A & HA & Hqa & Ha).
  destruct (w_elected _ w Hw t j Hj) as (B & HB & Hqb & Hb).
  unfold quorum in *. rewrite <-size_dom in Hqa, Hqb.
  destruct (quorums_meet (dom Cfg) A B HA HB Hqa Hqb) as (v & HvA & HvB).
  exact (w_once _ w Hw v t i j (Ha v HvA) (Hb v HvB)).
Qed.
