(* ===== verification/NodeRefine.v ===== *)
(** * The node refines the specification

    [nrel A F n]: the core of [n] is related to the specification, everything it
    delivered has been applied, and the state machine is that of the log [F]
    applied so far.  One event is a sequence of steps of RaftSpec; what it sends
    and answers is what the history supports. *)

From stdpp Require Import prelude gmap strings sorting.
From S2P Require Import Prelude GoRuntime GoBytes RaftTypes Membership RaftLaws Core CoreVotes RaftSpec CoreLog.
From S2P Require Import CoreRefine CoreSteps CoreElections CoreReplicate CoreSnapshot Node Cluster.
Open Scope Z_scope.

(** ** Replaying a log *)

Section replay.
Context {S : Type} `{StateMachine S}.

Definition replay_entry (s : S) (e : Entry) : S :=
  if Type_ e =? ENTRY_TYPE_NORMAL then smApply (Index e) (EntryCommand e) s else s.
Definition replay (s0 : S) (l : list Entry) : S := foldl replay_entry s0 l.
End replay.

Section node.
Context {D S : Type} `{RaftDiskLaws D} `{GoRuntime} `{StateMachineLaws S}.
Context (Cfg : Members) (Cfg_wf : members_wf Cfg) (Cfg_rt : decodeMembers (encodeMembers Cfg) = Ok Cfg).
Context (s0 : S) (i : Z) (i_nonzero : i ≠ noVote) (i_u64 : is_u64 i) (i_member : i ∈ dom Cfg).

Abbreviation N := (Node D S).

(** The bytes [b] are a snapshot of the state machine after [p]. *)
Definition snap_of (p : list Entry) (b : bytes) : Prop := smSnapshot (replay s0 p) = Ok b.

Abbreviation rel := (rel Cfg snap_of i).
Abbreviation rrel := (rrel Cfg snap_of i).
Abbreviation restoring := (restoring snap_of).
Abbreviation post := (post Cfg snap_of i).
Abbreviation dead := (dead Cfg snap_of i).
Abbreviation out_rel := (out_rel Cfg snap_of).
Abbreviation asteps := (asteps Cfg i).
Abbreviation ainv := (ainv Cfg).
Abbreviation committed_in := (committed_in Cfg).

Lemma snap_of_nonempty p b : snap_of p b → b ≠ [].
Proof. intros Hs. by destruct (snapshot_restore _ _ s0 Hs). Qed.

Record nrel (A : abs) (F : list Entry) (n : N) : Prop := {
  n_rel : rel A F (nc n);
  n_queue : committed (nc n) = [];
  n_applied : applied n = lastDelivered (nc n);
  n_machine : sm n = replay s0 (ztake (applied n) F)
}.

(** Between the handler and the end of [afterStep]. *)
Record drel (A : abs) (F : list Entry) (n : N) : Prop := {
  d_rel : rrel A F (nc n);
  d_machine : pendingRestore (nc n) = [] →
    applied n = qbase (nc n) ∧ sm n = replay s0 (ztake (applied n) F)
}.

(** ** Parts of [afterStep] *)

(** Only channels and tables of the node changed. *)
Definition still {X} (n : N) (o : outcome X) (n' : N) : Prop :=
  (∃ a, o = Ok a) ∧ nc n' = nc n ∧ sm n' = sm n ∧ applied n' = applied n ∧ net n' = net n ∧
  ∃ rs, replies n' = replies n ++ rs ∧ Forall local rs.

Lemma still_refl {X} (a : X) (n n' : N) :
  nc n' = nc n → sm n' = sm n → applied n' = applied n → net n' = net n →
  replies n' = replies n → still n (Ok a) n'.
Proof. intros. split_and!; try done; [by exists a|]. exists []. by rewrite app_nil_r. Qed.

Lemma still_trans {X Y} (a : X) (n n1 n2 : N) (o : outcome Y) :
  still n (Ok a) n1 → still n1 o n2 → still n o n2.
Proof.
  intros (_ & Hc & Hs & Ha & Hn & rs & Hr & Hl) (Ho & Hc' & Hs' & Ha' & Hn' & rs' & Hr' & Hl').
  split_and!; try congruence. exists (rs ++ rs'). rewrite Hr', Hr, app_assoc. split; [done|by apply Forall_app_2].
Qed.

Lemma wp_still_bind {X Y} (m : M N X) (k : X → M N Y) n :
  wp m (still n) n → (∀ a n1, wp (k a) (still n1) n1) → wp (m ≫= k) (still n) n.
Proof.
  intros Hm Hk. apply wp_bind. eapply wp_mono; [exact Hm|]. intros o n1 Hst. pose proof Hst as [[a ->] _].
  cbn [wpk]. eapply wp_mono; [apply Hk|]. intros o n2. by apply still_trans with a.
Qed.

Lemma reply_on_still ch r (n : N) : local (ch, r) → wp (reply_on ch r) (still n) n.
Proof.
  intros Hl. apply wp_modify. split_and!; try done; [by exists ()|]. eexists. split; [done|by apply Forall_singleton].
Qed.

Lemma wp_still_for_each {X} (l : list X) (f : X → M N ()) n :
  (∀ x n, wp (f x) (still n) n) → wp (for_each l f) (still n) n.
Proof.
  intros Hf. revert n. induction l as [|x l IH]; intros n; simpl; [by apply wp_ret, still_refl|].
  apply wp_still_bind; [apply Hf|]. intros _ n1. apply IH.
Qed.

Lemma fireAppliedWaiters_still (n : N) : wp fireAppliedWaiters (still n) n.
Proof.
  unfold fireAppliedWaiters. apply wp_bind, wp_get. cbn [wpk]. cbv zeta. apply wp_still_bind.
  - apply wp_still_for_each. intros. by apply reply_on_still.
  - intros _ n1. by apply wp_modify, still_refl.
Qed.

Lemma resolveRead_still r (n : N) : wp (resolveRead r) (still n) n.
Proof.
  unfold resolveRead. apply wp_bind, wp_get. cbn [wpk]. destruct (readWaiters n !! _); [|by apply wp_ret, still_refl].
  apply wp_still_bind; [by apply wp_modify, still_refl|]. intros _ n1.
  case_match; [by apply reply_on_still|]. case_match; [by apply reply_on_still|by apply wp_modify, still_refl].
Qed.

Lemma syncTransportConfig_still (n : N) : wp syncTransportConfig (still n) n.
Proof.
  unfold syncTransportConfig. apply wp_bind, wp_get. cbn [wpk].
  destruct (transportPeers n); [|by apply wp_ret, still_refl]. case_match; [by apply wp_ret, still_refl|by apply wp_modify, still_refl].
Qed.

(** Applying one entry, and all that were delivered. *)
Definition applying (l : list Entry) (n : N) (o : outcome ()) (n' : N) : Prop :=
  o = Ok () ∧ nc n' = nc n ∧ sm n' = replay (sm n) l ∧ applied n' = default (applied n) (Index <$> last l) ∧ net n' = net n ∧
  ∃ rs, replies n' = replies n ++ rs ∧ Forall local rs.

Lemma applyEntry_spec e n : wp (applyEntry e) (applying [e] n) n.
Proof.
  unfold applyEntry. apply wp_bind.
  assert (∀ n1, nc n1 = nc n → sm n1 = replay_entry (sm n) e → net n1 = net n → replies n1 = replies n →
    wp (modify (set applied (λ _, Index e));; fireAppliedWaiters;; n ← get;
        match waiters n !! Index e with
        | None => mret ()
        | Some w => modify (set waiters (delete (Index e)));;
            reply_on (w_done w) (ReplyDone (if w_term w =? Term e then inl () else inr EProposalLost))
        end) (applying [e] n) n1) as Hrest.
  { intros n1 Hc Hs Hn Hr. apply wp_bind, wp_modify. cbn [wpk].
    match goal with |- wp _ _ ?s => eapply (wp_mono _ (still s)) end.
    - apply wp_still_bind; [apply fireAppliedWaiters_still|]. intros _ n2. apply wp_bind, wp_get. cbn [wpk].
      destruct (waiters n2 !! _); [|by apply wp_ret, still_refl].
      apply wp_still_bind; [by apply wp_modify, still_refl|]. intros _ n3. by apply reply_on_still.
    - intros o n2 ([[] ->] & Hc' & Hs' & Ha' & Hn' & rs & Hr' & Hl). cbn in *. split_and!; try congruence; [by rewrite Hs', Hs|done|].
      exists rs. split; [congruence|done]. }
  unfold replay_entry in Hrest. destruct (Type_ e =? ENTRY_TYPE_NORMAL).
  - apply wp_modify. cbn [wpk]. by apply Hrest.
  - apply wp_ret. cbn [wpk]. by apply Hrest.
Qed.

Lemma apply_all_spec l n : wp (for_each l applyEntry) (applying l n) n.
Proof.
  revert n. induction l as [|e l IH]; intros n; simpl.
  { apply wp_ret. split_and!; try done. exists []. by rewrite app_nil_r. }
  apply wp_bind. eapply wp_mono; [apply applyEntry_spec|]. intros o n1 (-> & Hc & Hs & Ha & Hn & rs & Hr & Hl). cbn [wpk].
  eapply wp_mono; [apply IH|]. intros o n2 (-> & Hc' & Hs' & Ha' & Hn' & rs' & Hr' & Hl').
  split_and!; [done|congruence|by rewrite Hs', Hs| |congruence|].
  - rewrite Ha', Ha. destruct l as [|x l]; [done|]. rewrite last_cons_cons.
    destruct (last (x :: l)) eqn:E; [done|]. by apply last_None in E.
  - exists (rs ++ rs'). rewrite Hr', Hr, app_assoc. split; [done|by apply Forall_app_2].
Qed.
(** ** [afterStep] *)

Definition after_rel (A : abs) (F : list Entry) (n : N) (o : outcome ()) (n' : N) : Prop :=
  ∃ A', asteps A A' ∧ (∃ rs, replies n' = replies n ++ rs ∧ Forall local rs) ∧
    match o with
    | Ok _ => nrel A' F n' ∧ ∃ os, net n' = net n ++ os ∧ Forall (out_rel A' i) os
    | _ => dead A' (disk (nc n'))
    end.

Lemma after_rel_from A F n n1 o n' :
  net n1 = net n → (∃ rs, replies n1 = replies n ++ rs ∧ Forall local rs) →
  after_rel A F n1 o n' → after_rel A F n o n'.
Proof.
  intros Hn (rs & Hr & Hl) (A' & Hs & (rs' & Hr' & Hl') & Ho). exists A'. split; [done|]. split.
  - exists (rs ++ rs'). rewrite Hr', Hr, app_assoc. split; [done|by apply Forall_app_2].
  - by rewrite <-Hn.
Qed.

Lemma wp_after_still {X} (m : M N X) (k : X → M N ()) A F n :
  wp m (still n) n → (∀ a n1, nc n1 = nc n → sm n1 = sm n → applied n1 = applied n → wp (k a) (after_rel A F n1) n1) →
  wp (m ≫= k) (after_rel A F n) n.
Proof.
  intros Hm Hk. apply wp_bind. eapply wp_mono; [exact Hm|].
  intros o n1 ([a ->] & Hc & Hs & Ha & Hn & Hr). cbn [wpk]. eapply wp_mono; [by apply Hk|].
  intros o n2. by apply after_rel_from.
Qed.

(** The queue, from what was handed over before to what is delivered now. *)
Lemma queue_replay A F n :
  rel A F (nc n) → applied n = qbase (nc n) → sm n = replay s0 (ztake (applied n) F) →
  replay (sm n) (committed (nc n)) = replay s0 (ztake (lastDelivered (nc n)) F) ∧
  default (applied n) (Index <$> last (committed (nc n))) = lastDelivered (nc n).
Proof.
  intros Hr Ha Hs. destruct (r_queue Hr) as [Hq1 Hq2]. destruct (r_deliv Hr) as [Hd _].
  pose proof (r_shape Hr) as Hsh. unfold qbase in Ha. set (q := committed (nc n)) in *. set (k := lastDelivered (nc n)) in *.
  split.
  - rewrite Hs, Ha. unfold replay. rewrite <-foldl_app. f_equal. rewrite Hq2 at 2. unfold ztake, zdrop.
    rewrite <-(take_drop (Z.to_nat (k - zlength q)) (take (Z.to_nat k) F)) at 2. rewrite take_take. do 2 f_equal. lia.
  - destruct (decide (q = [])) as [E|Hne]; [rewrite Ha, E; cbn; lia|]. rewrite last_lookup.
    destruct (lookup_lt_is_Some_2 q (pred (length q))) as [e He]; [destruct q; [done|simpl; lia]|]. rewrite He. cbn.
    rewrite Hq2 in He. unfold zdrop, ztake in He. rewrite lookup_drop in He. apply lookup_take_Some in He as [He _].
    destruct (sh_wf _ _ _ _ Hsh _ _ He) as [-> _]. rewrite length_drop, length_take.
    assert (0 < length q)%nat by (destruct q; [done|simpl; lia]). pose proof (sh_snap _ _ _ _ Hsh). lia.
Qed.

Lemma maybeCompact_rel A F n :
  nrel A F n →
  wp maybeCompact (λ o n', (∃ rs, replies n' = replies n ++ rs ∧ Forall local rs) ∧ net n' = net n ∧
    match o with
    | Ok _ => nrel A F n'
    | _ => ∃ A', asteps A A' ∧ dead A' (disk (nc n'))
    end) n.
Proof.
  intros Hn. assert (∃ rs, replies n = replies n ++ rs ∧ Forall local rs) as Hrs by (exists []; by rewrite app_nil_r).
  unfold maybeCompact. apply wp_bind, wp_get. cbn [wpk]. case_match; [by apply wp_ret|].
  pose proof (rel_dead Cfg snap_of i A F (nc n) (n_rel _ _ _ Hn)) as Hdead.
  apply wp_bind, wp_attempt, wp_lift. destruct (smSnapshot (sm n)) as [data|e| |] eqn:Hsnap; cbn [wpk]; [|by apply wp_ret|done..].
  apply wp_bind, wp_attempt, wp_zoom. rewrite (n_machine _ _ _ Hn) in Hsnap.
  rewrite (n_applied _ _ _ Hn) in Hsnap |- *.
  eapply wp_mono; [apply (compact_rel Cfg Cfg_wf snap_of i data A F); [apply Hn|exact Hsnap]|].
  intros o c' Hc. assert (rel A F c' ∧ ckey c' = ckey (nc n) → nrel A F (n <| nc := c' |>)) as Hok.
  { intros [Hr Hk]. injection Hk. intros _ _ Hq Hd _ _ _. destruct Hn. split; cbn; congruence || done. }
  destruct o as [[]|e| |]; cbn [wpk] in *; [apply wp_ret; auto|apply wp_ret; auto|done|done].
Qed.
(** From a restored state machine on. *)
Lemma after_restored A F n :
  rel A F (nc n) → applied n = qbase (nc n) → sm n = replay s0 (ztake (applied n) F) →
  wp (entries ← zoom nc takeCommitted;
      for_each entries applyEntry;;
      outcomes ← zoom nc takeReadOutcomes;
      for_each outcomes resolveRead;;
      maybeCompact;;
      syncTransportConfig;;
      outs ← zoom nc takeOutbox;
      for_each outs sendAsync;;
      publishStatus) (after_rel A F n) n.
Proof.
  intros Hr Ha Hs. destruct (queue_replay A F n Hr Ha Hs) as [Hre Hap].
  apply wp_bind. unfold takeCommitted. apply wp_zoom, wp_bind, wp_get, wp_bind, wp_modify, wp_ret. cbn [wpk].
  match goal with |- wp _ _ ?s => set (n1 := s) end.
  assert (rel A F (nc n1)) as Hr1.
  { destruct (r_deliv Hr) as [Hd _]. pose proof (sh_snap _ _ _ _ (r_shape Hr)). destruct Hr; split; cbn; try done.
    split; [lia|]. symmetry. apply zdrop_nil; [lia|]. unfold ztake. rewrite length_take. lia. }
  apply wp_bind. eapply wp_mono; [apply (apply_all_spec (committed (nc n)) n1)|].
  intros o n2 (-> & Hc2 & Hs2 & Ha2 & Hn2 & Hr2). cbn [wpk].
  assert (nrel A F n2) as Hn.
  { assert (applied n2 = lastDelivered (nc n)) as Hap2 by (by rewrite Ha2, <-Hap).
    split; rewrite ?Hc2; [done..|]. by rewrite Hs2, Hap2, <-Hre. }
  eapply wp_mono; [|intros o n'; by apply after_rel_from]. clear n1 Hr1 Hc2 Hs2 Ha2 Hn2 Hr2.
  apply wp_bind. unfold takeReadOutcomes. apply wp_zoom, wp_bind, wp_get, wp_bind, wp_modify, wp_ret. cbn [wpk].
  match goal with |- wp _ _ ?s => eapply (wp_mono _ (after_rel A F s)); [|intros o n'; apply after_rel_from; [done|exists []; by rewrite app_nil_r]];
    assert (nrel A F s) as Hn3; [|revert Hn3; generalize s] end.
  { destruct Hn as [Hrel ? ? ?]. split; cbn; [rel_frame|done..]. }
  intros n3 Hn3. apply wp_after_still; [apply wp_still_for_each; intros; apply resolveRead_still|].
  intros _ n4 Hc4 Hs4 Ha4. assert (nrel A F n4) as Hn4 by (destruct Hn3; split; rewrite ?Hc4, ?Hs4, ?Ha4; done).
  apply wp_bind. eapply wp_mono; [by apply maybeCompact_rel|]. intros o n5 (Hr5 & Hnet5 & Ho5).
  destruct o as [[]|e| |]; cbn [wpk]; try by destruct Ho5 as (A' & ? & ?); exists A'.
  eapply wp_mono; [|intros o n'; by apply after_rel_from].
  apply wp_after_still; [apply syncTransportConfig_still|]. intros _ n6 Hc6 Hs6 Ha6.
  assert (nrel A F n6) as Hn6 by (destruct Ho5; split; rewrite ?Hc6, ?Hs6, ?Ha6; done).
  apply wp_bind. unfold takeOutbox. apply wp_zoom, wp_bind, wp_get, wp_bind, wp_modify, wp_ret. cbn [wpk].
  apply wp_bind, wp_sendAsync_all. cbn [wpk]. apply wp_modify.
  exists A. split; [apply rtc_refl|]. split; [exists []; by rewrite app_nil_r|]. destruct Hn6 as [Hr6 ? ? ?]. split.
  - split; cbn; try done. destruct Hr6; split; cbn; done.
  - eexists. split; [done|]. apply Hr6.
Qed.

Lemma afterStep_rel A F n : drel A F n → wp afterStep (after_rel A F n) n.
Proof.
  intros [[Hr Hre] Hm]. unfold afterStep. apply wp_bind. unfold takeRestore.
  apply wp_zoom, wp_bind, wp_get, wp_bind, wp_modify, wp_ret. cbn [wpk].
  destruct Hre as [Hnil|(Hpos & Hdl & Hq & Hsnap)].
  - destruct (Hm Hnil) as [Ha Hs]. rewrite Hnil. cbn [bool_decide]. rewrite bool_decide_eq_true_2 by done.
    apply wp_bind, wp_ret. cbn [wpk negb].
    eapply wp_mono; [by apply (after_restored A F)|]. intros o n'. apply after_rel_from; [done|exists []; by rewrite app_nil_r].
  - rewrite bool_decide_eq_false_2 by (by eapply snap_of_nonempty). apply wp_bind, wp_bind, wp_get. cbn [wpk].
    destruct (snapshot_restore _ _ (sm n) Hsnap) as [_ Hres]. cbn. rewrite Hres.
    apply wp_bind, wp_modify. cbn [wpk]. apply wp_bind.
    match goal with |- wp _ _ ?s => set (n1 := s) end.
    eapply wp_mono; [apply (fireAppliedWaiters_still n1)|]. intros o n2 ([[] ->] & Hc2 & Hs2 & Ha2 & Hn2 & Hr2).
    cbn [wpk]. apply wp_ret. cbn [wpk negb]. eapply wp_mono; [|intros o n'; by apply after_rel_from].
    apply (after_restored A F); rewrite ?Hc2, ?Hs2, ?Ha2; [done| |done].
    unfold qbase, n1. cbn. rewrite Hq, Hdl. cbn. lia.
Qed.
(** ** Events *)

(** What the history says of an event when it is delivered. *)
Definition ev_rel (A : abs) (ev : event) : Prop :=
  match ev with
  | evTick | evTransfer _ _ | evRead _ => True
  | evRequestVote req _ =>
      is_u64 (rv_term req) ∧ is_u64 (rv_candidateId req) ∧ rv_candidateId req ≠ noVote ∧
      ∃ from to, out_rel A from (OutRequestVote to req)
  | evAppendEntries req _ => is_u64 (ae_term req) ∧ ∃ from to, out_rel A from (OutAppendEntries to req)
  | evInstallSnapshot req _ => is_u64 (is_term req) ∧ ∃ from to, out_rel A from (OutInstallSnapshot to req)
  | evTimeoutNow req _ => 0 ≤ tn_term req < 2 ^ 64 - 1
  | evVoteResp from campaign pre resp =>
      is_u64 (rvr_term resp) ∧ from ∈ dom Cfg ∧
      (rvr_voteGranted resp = true → pre = false → ∃ l, (from, campaign, i, l) ∈ a_votes A)
  | evAppendResp from req resp =>
      is_u64 (aer_term resp) ∧ from ∈ dom Cfg ∧ from ≠ i ∧ 0 ≤ aer_conflictIndex resp ∧
      (aer_success resp = true → 0 ≤ ae_prevLogIndex req ∧
       acked A from (ae_term req) (ae_prevLogIndex req + zlength (ae_entries req)))
  | evSnapshotResp from req resp =>
      is_u64 (isr_term resp) ∧ from ≠ i ∧
      (isr_term resp ≤ is_term req → 0 ≤ is_lastIncludedIndex req ∧
       acked A from (is_term req) (is_lastIncludedIndex req))
  | evPropose command typ _ _ => typ = ENTRY_TYPE_NORMAL ∧ zlength command ≤ maxEntryCommand
  | evConfChange _ _ _ => False
  end.

(** What the history says of an answer. *)
Definition resp_rel (A : abs) (ev : event) (r : reply) : Prop :=
  match ev, r with
  | evRequestVote req _, ReplyVote (inl resp) =>
      rvr_voteGranted resp = true → rv_preVote req = false →
      ∃ l, (i, rv_term req, rv_candidateId req, l) ∈ a_votes A
  | evAppendEntries req _, ReplyAppend (inl resp) =>
      0 ≤ aer_conflictIndex resp ∧
      (aer_success resp = true → 0 ≤ ae_prevLogIndex req ∧
       acked A i (ae_term req) (ae_prevLogIndex req + zlength (ae_entries req)))
  | evInstallSnapshot req _, ReplySnapshot (inl resp) =>
      isr_term resp ≤ is_term req → 0 ≤ is_lastIncludedIndex req ∧
      acked A i (is_term req) (is_lastIncludedIndex req)
  | _, _ => True
  end.

Lemma resp_rel_grow A A' ev r : grows A A' → resp_rel A ev r → resp_rel A' ev r.
Proof.
  intros Hg. destruct ev, r as [[]|[]|[]| | | | | ]; cbn; try done.
  - intros Hr Hgr Hp. destruct (Hr Hgr Hp) as [l ?]. exists l. by apply (gr_votes _ _ Hg).
  - intros [? Hr]. split; [done|]. intros Hs. destruct (Hr Hs). split; [done|by eapply acked_grow].
  - intros Hr Hle. destruct (Hr Hle). split; [done|by eapply acked_grow].
Qed.

Definition disp_rel (A : abs) (ev : event) (o : outcome ()) (n' : N) : Prop :=
  ∃ A', asteps A A' ∧ (net n' = [] ∧ Forall (λ r, resp_rel A' ev r.2) (replies n')) ∧
    match o with Ok _ => ∃ F', drel A' F' n' | _ => dead A' (disk (nc n')) end.

(** What was applied stays applied, whatever becomes of the log. *)
Lemma drel_of A A' F F' n n' :
  ainv A' → nrel A F n → grows A A' → rrel A' F' (nc n') → (pendingRestore (nc n') = [] → qbase (nc n') = qbase (nc n)) →
  sm n' = sm n → applied n' = applied n → drel A' F' n'.
Proof.
  intros Hi [Hr Hq Ha Hs] Hg [Hr' Hre] Hb Hsm Hap. split; [by split|]. intros Hnil. specialize (Hb Hnil).
  rewrite Hap, Hsm, Hb, Hs, Ha. unfold qbase in Hb |- *. rewrite Hq in Hb |- *. cbn in Hb |- *. split; [lia|]. f_equal.
  destruct (r_deliv Hr) as [Hd Hc]. destruct (r_deliv Hr') as [Hd' Hc']. cbn in Hd', Hc'.
  apply (committed_in_grow _ _ A') in Hc; [|done]. pose proof (sh_snap _ _ _ _ (r_shape Hr)).
  set (k := lastDelivered (nc n)) in *. assert (k ≤ lastDelivered (nc n')) as Hle by lia.
  assert (ztake k F `prefix_of` ztake (lastDelivered (nc n')) F') as Hp.
  { eapply (committed_agree Cfg A'); try done. unfold ztake. rewrite !length_take. lia. }
  symmetry. apply (ztake_prefix_iff F' F k); [lia|]. etrans; [exact Hp|apply take_prefix].
Qed.

Section dispatch.
Context (A : abs) (F : list Entry) (n : N) (ev : event).
Context (Hi : ainv A) (Hn : nrel A F n) (Hempty : replies n = []) (Hnet : net n = []).

Lemma disp_zoom (m : M (core D) ()) :
  wp m (post (handed (qbase (nc n))) A) (nc n) → wp (zoom nc m) (disp_rel A ev) n.
Proof.
  intros Hm. apply wp_zoom. eapply wp_mono; [exact Hm|]. intros o c' (A' & Hs & Ho). exists A'. split; [done|].
  split; [cbn; by rewrite Hempty|]. destruct (asteps_spec _ _ _ _ Hi Hs) as (Hi' & Hg & _).
  destruct o; [|done..]. destruct Ho as (F' & Hr & Hq). exists F'.
  apply (drel_of A A' F F' n); try done. by apply rel_rrel.
Qed.

Lemma disp_serve {X} ch (mk : X + error → reply) (m : M (core D) X) :
  wp m (rpost Cfg snap_of i (λ a A' _ c', (pendingRestore c' = [] → qbase c' = qbase (nc n)) ∧
    resp_rel A' ev (mk (inl a))) A) (nc n) →
  (∀ A' e, resp_rel A' ev (mk (inr e))) → wp (serve ch mk m) (disp_rel A ev) n.
Proof.
  intros Hm Hmk. unfold serve. apply wp_bind, wp_attempt, wp_zoom. eapply wp_mono; [exact Hm|].
  intros o c' (A' & Hs & Ho). destruct (asteps_spec _ _ _ _ Hi Hs) as (Hi' & Hg & _).
  destruct o as [a|e| |]; cbn [wpk].
  - apply wp_bind, wp_modify, wp_ret. exists A'. split; [done|]. destruct Ho as (F' & Hr & Hq & Hresp). split.
    + cbn. rewrite Hempty. split; [done|by apply Forall_singleton].
    + exists F'. by apply (drel_of A A' F F' n).
  - apply wp_bind, wp_modify, wp_throw. exists A'. split; [done|]. split; [|done]. cbn. rewrite Hempty. split; [done|apply Forall_singleton, Hmk].
  - exists A'. split; [done|]. split; [cbn; by rewrite Hempty|done].
  - exists A'. split; [done|]. split; [cbn; by rewrite Hempty|done].
Qed.

(** Requests of clients: a refusal leaves everything as it was. *)
Lemma disp_tried {X} w (m : M (core D) X) (k : X + error → M N ()) :
  wp m (tried Cfg snap_of i w (handed (qbase (nc n))) A (nc n)) (nc n) →
  (∀ r n1 Q, (∀ n2, nc n2 = nc n1 → sm n2 = sm n1 → applied n2 = applied n1 →
     net n2 = net n1 → (∃ rs, replies n2 = replies n1 ++ rs ∧ Forall (λ r, ∀ A', resp_rel A' ev r.2) rs) →
     Q (match w, r with true, inr (EPersistFailure x) => Err (EPersistFailure x) | _, _ => Ok () end) n2) →
   wp (k r) Q n1) →
  wp (r ← attempt (zoom nc m); k r) (disp_rel A ev) n.
Proof.
  intros Hm Hk. apply wp_bind, wp_attempt, wp_zoom. eapply wp_mono; [exact Hm|]. intros o c' Ho.
  assert (∀ (n2 : N) A', net n2 = net n → (∃ rs, replies n2 = replies n ++ rs ∧ Forall (λ r, ∀ A', resp_rel A' ev r.2) rs) →
    net n2 = [] ∧ Forall (λ r, resp_rel A' ev r.2) (replies n2)) as Hrs.
  { intros n2 A' Hn2 (rs & -> & Hrs). rewrite Hempty. split; [congruence|]. eapply Forall_impl; [exact Hrs|]. auto. }
  destruct o as [a|e| |]; cbn [wpk].
  - destruct Ho as (A' & Hs & F' & Hr & Hq). apply Hk. intros n2 Hc2 Hs2 Ha2 Hn2 Hr2. exists A'. split; [done|].
    split; [by apply Hrs|]. destruct (asteps_spec _ _ _ _ Hi Hs) as (Hi' & Hg & _).
    assert (drel A' F' n2) by (apply (drel_of A A' F F' n); rewrite ?Hc2; try done; by apply rel_rrel).
    destruct w; by exists F'.
  - apply Hk. intros n2 Hc2 Hs2 Ha2 Hn2 Hr2. destruct Ho as [(-> & [x ->] & A' & Hs & Ho)|[Hne ->]].
    + exists A'. split; [done|]. split; [by apply Hrs|]. by rewrite Hc2.
    + exists A. split; [apply rtc_refl|]. split; [by apply Hrs|].
      assert (drel A F n2) by (apply (drel_of A A F F n); rewrite ?Hc2; try done; [apply grows_refl|apply rel_rrel; apply Hn]).
      destruct w; [destruct e; try (by exists F); by destruct (Hne e)|by exists F].
  - destruct Ho as (A' & Hs & Ho). exists A'. split; [done|]. split; [cbn; by rewrite Hempty|done].
  - destruct Ho as (A' & Hs & Ho). exists A'. split; [done|]. split; [cbn; by rewrite Hempty|done].
Qed.
End dispatch.

Lemma dispatch_rel A F n ev :
  ainv A → nrel A F n → replies n = [] → net n = [] → lastDelivered (nc n) ≤ commitIndex (nc n) →
  term (nc n) < 2 ^ 64 - 1 → lastLogIndex (nc n) < 2 ^ 64 - 2 → ev_rel A ev →
  wp (dispatch ev) (disp_rel A ev) n.
Proof.
  intros Hi Hn Hempty Hnet Hst Hterm Hlog Hev. pose proof (n_rel _ _ _ Hn) as Hr.
  rewrite (shape_lastLogIndex F) in Hlog by apply Hr.
  assert (∀ X (R1 R2 : X → abs → list Entry → core D → Prop) (m : M (core D) X),
    wp m (post R1 A) (nc n) → (∀ a A' F' c', R1 a A' F' c' → R2 a A' F' c') →
    wp m (rpost Cfg snap_of i R2 A) (nc n)) as Hlift.
  { intros X R1 R2 m Hm HR. eapply wp_rpost_weaken; [|exact HR]. eapply wp_mono; [exact Hm|].
    intros o c'. apply post_rpost. }
  assert (∀ r : reply, match r with ReplyPropose _ | ReplyTransfer _ | ReplyRead _ => True | _ => False end →
    ∀ A', resp_rel A' ev r) as Htriv by (intros []; try done; by destruct ev).
  destruct ev as [|req ch|req ch|from camp pre resp|from req resp|req ch|from req resp|req ch|cmd typ dn ch|cc dn ch|to ch|ch];
    cbn [dispatch ev_rel] in *.
  - apply (disp_zoom A F); try done. by apply (tick_rel _ _ _ i_nonzero i_u64 i_member A F).
  - destruct Hev as (? & ? & ? & from & to & Hout). apply (disp_serve A F); try done.
    eapply Hlift; [by apply (handleRequestVote_rel _ _ _ i_nonzero req from to A F)|].
    intros a A' F' c' (? & _ & ?). done.
  - destruct Hev as (? & from & to & Hout). apply (disp_serve A F); try done.
    eapply Hlift; [by apply (handleAppendEntries_rel _ _ _ req from to A F)|].
    intros a A' F' c' (? & _ & ?). done.
  - destruct Hev as (? & ? & Hvote). destruct pre; apply (disp_zoom A F); try done.
    + by apply (handlePreVoteResponse_rel _ _ _ i_nonzero i_u64 i_member from camp resp A F).
    + apply (handleVoteResponse_rel _ _ _ i_member from camp resp A F); auto.
  - destruct Hev as (? & ? & ? & ? & ?). apply (disp_zoom A F); try done.
    by apply (handleAppendResponse_rel _ _ _ i_member from req resp A F).
  - destruct Hev as (? & from & to & Hout). apply (disp_serve A F); try done. eapply wp_rpost_weaken.
    + apply (handleInstallSnapshot_rel _ Cfg_wf Cfg_rt _ _ req from to A F); try done; [apply snap_of_nonempty|apply Hn].
    + intros a A' F' c' (? & _ & ?). done.
  - destruct Hev as (? & ? & ?). apply (disp_zoom A F); try done.
    by apply (handleInstallSnapshotResponse_rel _ _ _ from req resp A F).
  - apply (disp_serve A F); try done. eapply Hlift; [by apply (handleTimeoutNow_rel _ _ _ i_nonzero i_u64 i_member req A F)|].
    intros a A' F' c' ?. done.
  - destruct Hev as [-> ?]. unfold serve_proposal. apply (disp_tried A F) with (w := true); try done.
    { apply (propose_rel _ _ _ i_member cmd _ A F); try done. by left. }
    intros r n1 Q HQ. assert (∀ (n2 : N), nc n2 = nc n1 → sm n2 = sm n1 → applied n2 = applied n1 →
      net n2 = net n1 → replies n2 = replies n1 ++ [(ch, ReplyPropose r)] → Q (match r with inr (EPersistFailure x) => Err (EPersistFailure x) | _ => Ok () end) n2) as HQ'.
    { intros n2 ? ? ? ? Hr2. apply HQ; try done. eexists. split; [exact Hr2|]. apply Forall_singleton. by apply Htriv. }
    destruct r as [[ix t]|e]; [apply wp_bind, wp_modify; cbn [wpk]|apply wp_bind, wp_ret; cbn [wpk]].
    + apply wp_bind, wp_modify, wp_ret. by apply HQ'.
    + apply wp_bind, wp_modify. cbn [wpk]. destruct e; cbn [is_persist_failure]; first [apply wp_throw|apply wp_ret]; by apply HQ'.
  - done.
  - apply (disp_tried A F) with (w := false); try done; [by apply (transferLeadership_rel _ _ _ to A F)|].
    intros r n1 Q HQ. apply wp_modify. apply HQ; try done. eexists. split; [done|]. apply Forall_singleton. by apply Htriv.
  - apply (disp_tried A F) with (w := false); try done; [by apply (requestRead_rel _ _ _ A F)|].
    intros r n1 Q HQ. destruct r as [id|e].
    + apply wp_modify. apply HQ; try done. exists []. by rewrite app_nil_r.
    + apply wp_modify. apply HQ; try done. eexists. split; [done|]. apply Forall_singleton. by apply Htriv.
Qed.
(** ** One event *)

Definition handle_rel (A : abs) (ev : event) (o : outcome ()) (n' : N) : Prop :=
  ∃ A', asteps A A' ∧ Forall (λ r, resp_rel A' ev r.2) (replies n') ∧
    match o with
    | Ok _ => (∃ F', nrel A' F' n') ∧ Forall (out_rel A' i) (net n')
    | _ => dead A' (disk (nc n'))
    end.

Lemma handle_steps A F n ev :
  ainv A → nrel A F n → replies n = [] → net n = [] → lastDelivered (nc n) ≤ commitIndex (nc n) →
  term (nc n) < 2 ^ 64 - 1 → lastLogIndex (nc n) < 2 ^ 64 - 2 → ev_rel A ev →
  wp (handle ev) (handle_rel A ev) n.
Proof.
  intros Hi Hn Hempty Hnet Hst Hterm Hlog Hev. unfold handle. apply wp_bind.
  eapply wp_mono; [by apply (dispatch_rel A F)|]. intros o n1 (A1 & Hs1 & [Hn1 Hr1] & Ho1).
  destruct o as [[]|e| |]; cbn [wpk]; [|by exists A1..]. destruct Ho1 as (F1 & Hd1).
  destruct (asteps_spec _ _ _ _ Hi Hs1) as (Hi1 & _). eapply wp_mono; [by apply (afterStep_rel A1 F1)|].
  intros o n2 (A2 & Hs2 & (rs & Hr2 & Hl2) & Ho2). destruct (asteps_spec _ _ _ _ Hi1 Hs2) as (_ & Hg2 & _).
  exists A2. split; [by etrans|]. split.
  - rewrite Hr2. apply Forall_app_2; [eapply Forall_impl; [exact Hr1|]; intros r; by apply resp_rel_grow|].
    eapply Forall_impl; [exact Hl2|]. intros [ch []]; try done; by destruct ev.
  - destruct o as [[]|e| |]; [|done..]. destruct Ho2 as (Hn2 & os & Hos & Hout). rewrite Hn1 in Hos. simpl in Hos.
    rewrite Hos. by eauto.
Qed.

(** ** Booting *)

Lemma NewNode_steps conf compactAt peers A (d : D) :
  ainv A → dead A d → ID conf = i → settled d →
  match NewNode conf Cfg s0 compactAt peers d with
  | (Ok n, _) => ∃ A' F, asteps A A' ∧ nrel A' F n
  | (_, d') => dead A d'
  end.
Proof.
  intros Hi Hd Hid Hset. unfold NewNode. pose proof (newCore_rel Cfg snap_of i conf A d Hi Hd Hid) as Hcore.
  destruct (newCore conf Cfg d) as [[c|e| |] d1]; [|done..].
  destruct Hcore as (Hdisk & Hd1 & Hboot). destruct (Hboot Hset) as (A' & F & Hs & [Hr [Hq Hdl] Hre]).
  set (n0 := node_of c s0 compactAt peers).
  match goal with |- context [match ?m n0 with _ => _ end] => set (start := m) end.
  assert (wp start (λ o n', match o with Ok _ => nrel A' F n' | _ => disk (nc n') = d1 end) n0) as Hwp.
  { unfold start. apply wp_bind. unfold takeRestore. apply wp_zoom, wp_bind, wp_get, wp_bind, wp_modify, wp_ret. cbn [wpk].
    assert (∀ n1, nc n1 = c <| pendingRestore := [] |> → applied n1 = snapIndex c → sm n1 = replay s0 (ztake (snapIndex c) F) →
      wp (syncTransportConfig;; publishStatus) (λ o n', match o with Ok _ => nrel A' F n' | _ => disk (nc n') = d1 end) n1) as Hfin.
    { intros n1 Hc1 Ha1 Hs1. apply wp_bind. eapply wp_mono; [apply syncTransportConfig_still|].
      intros o n2 ([[] ->] & Hc2 & Hs2 & Ha2 & _). cbn [wpk]. apply wp_modify.
      split; cbn; rewrite ?Hc2, ?Hc1, ?Ha2, ?Hs2, ?Ha1, ?Hs1; done. }
    destruct Hre as [[Hnil Hz]|(Hpos & _ & _ & Hsnap)].
    - cbn. rewrite Hnil. rewrite bool_decide_eq_true_2 by done. apply wp_bind, wp_ret. cbn [wpk]. apply Hfin; try done.
      by rewrite Hz.
    - cbn. rewrite bool_decide_eq_false_2 by (by eapply snap_of_nonempty). apply wp_bind, wp_bind, wp_get. cbn [wpk].
      destruct (snapshot_restore _ _ s0 Hsnap) as [_ Hres]. cbn. rewrite Hres. apply wp_modify. cbn [wpk]. by apply Hfin. }
  unfold wp in Hwp. destruct (start n0) as [[[]|e| |] n1]; cbn [fst snd] in Hwp; [by exists A', F|by rewrite Hwp..].
Qed.
End node.
