(* ===== verification/NodeReads.v ===== *)
(** * What one event does to a node's read barriers

    node.go around the barrier of readindex.go: [ReadBarrier] waits on a channel
    until the core has confirmed its leadership and the state machine has applied
    the index.  One event is followed through the loop: what is answered on the
    channel, which is only ever the index the barrier was registered with, after it
    was confirmed and once it is applied. *)

From stdpp Require Import prelude gmap strings sorting.
From S2P Require Import Prelude GoRuntime GoBytes RaftTypes Membership RaftLaws Core CoreVotes RaftSpec CoreLog.
From S2P Require Import CoreRefine CoreSteps CoreElections CoreReplicate CoreSnapshot CoreReads Node Cluster NodeRefine.
Open Scope Z_scope.

Section waits.
Context {D S : Type} `{RaftDiskLaws D} `{GoRuntime} `{StateMachineLaws S}.
Context (Cfg : Members).
Context (id0 k : Z) (good : Z → Prop) (ch : nat).

Abbreviation N := (Node D S).
Abbreviation confirmed := (confirmed Cfg good).

(** The channel waits for barrier [id0] only, or for index [k] to be applied once
    that is confirmed; [w0] are the waiters there were. *)
Record waits_ok (w0 : gmap Z nat) (n : N) : Prop := {
  wo_waiters : ∀ id, readWaiters n !! id = Some ch → id = id0 ∧ w0 !! id = Some ch;
  wo_applied : ∀ w, w ∈ appliedWaiters n → aw_c w = ch → aw_index w = k ∧ confirmed;
  wo_replies : ∀ k', (ch, ReplyRead (inl k')) ∈ replies n → k' = k ∧ confirmed ∧ k ≤ applied n
}.

Definition outcome_ok (r : readOutcome) : Prop :=
  ro_id r = id0 → ro_confirmed r = true → ro_index r = k ∧ confirmed.

(** Parts of [afterStep] that leave the core alone. *)
Definition waits_kept (w0 : gmap Z nat) (n : N) (o : outcome ()) (n' : N) : Prop :=
  o = Ok () ∧ waits_ok w0 n' ∧ nc n' = nc n ∧ applied n' = applied n ∧ net n' = net n.

Lemma reply_on_waits w0 c r n :
  waits_ok w0 n → (c = ch → ∀ k', r = ReplyRead (inl k') → k' = k ∧ confirmed ∧ k ≤ applied n) →
  wp (reply_on c r) (waits_kept w0 n) n.
Proof.
  intros [Hw Ha Hr] Hc. apply wp_modify. split_and!; try done. split; cbn; try done.
  intros k' [Hin|Hin]%elem_of_app; [by apply Hr|]. apply list_elem_of_singleton in Hin as [= -> <-]. by apply Hc.
Qed.

Lemma wp_waits_bind w0 {X} (m : M N ()) (f : () → M N X) (Q : outcome X → N → Prop) n :
  wp m (waits_kept w0 n) n →
  (∀ n1, waits_ok w0 n1 → nc n1 = nc n → applied n1 = applied n → net n1 = net n → wp (f ()) Q n1) →
  wp (m ≫= f) Q n.
Proof.
  intros Hm Hf. apply wp_bind. eapply wp_mono; [exact Hm|]. intros o n1 (-> & ? & ? & ? & ?). cbn [wpk]. by apply Hf.
Qed.

Lemma waits_kept_from w0 n n1 o n' :
  nc n1 = nc n → applied n1 = applied n → net n1 = net n → waits_kept w0 n1 o n' → waits_kept w0 n o n'.
Proof. intros ? ? ? (? & ? & ? & ? & ?). split_and!; congruence. Qed.

Lemma fireAppliedWaiters_waits w0 n : waits_ok w0 n → wp fireAppliedWaiters (waits_kept w0 n) n.
Proof.
  intros Hn. unfold fireAppliedWaiters. apply wp_bind, wp_get. cbn [wpk]. cbv zeta.
  assert (∀ l n1, (∀ w, w ∈ l → w ∈ appliedWaiters n ∧ aw_index w ≤ applied n) → waits_ok w0 n1 → applied n1 = applied n →
    wp (for_each l (λ w, reply_on (aw_c w) (ReplyRead (inl (aw_index w))))) (waits_kept w0 n1) n1) as Hall.
  { induction l as [|w l IH]; intros n1 Hl Hn1 Ha; cbn [for_each]; [apply wp_ret; by split_and!|].
    apply (wp_waits_bind w0).
    - apply reply_on_waits; [done|]. intros Hc k' [= <-]. destruct (Hl w ltac:(left)) as [Hin Hle].
      destruct (wo_applied _ _ Hn w Hin Hc) as [Hk ?]. rewrite Ha. split_and!; try done. lia.
    - intros n2 Hn2 E1 E2 E3. eapply wp_mono; [apply (IH n2); [intros; apply Hl; by right|done|congruence]|].
      intros o n3. by apply waits_kept_from. }
  apply (wp_waits_bind w0); [apply Hall; try done; intros w [? ?]%list_elem_of_filter; done|].
  intros n1 [Hw1 Ha1 Hr1] E1 E2 E3. apply wp_modify. split_and!; try done. split; cbn; try done.
  intros w [_ Hw]%list_elem_of_filter. by apply Hn.
Qed.

(** The entries to apply, in order. *)
Fixpoint ascending (a : Z) (l : list Entry) : Prop :=
  match l with [] => True | e :: l' => a ≤ Index e ∧ ascending (Index e) l' end.

Definition applied_waits (w0 : gmap Z nat) (n : N) (o : outcome ()) (n' : N) : Prop :=
  o = Ok () ∧ waits_ok w0 n' ∧ nc n' = nc n ∧ net n' = net n.

Lemma applyEntry_waits w0 e n :
  waits_ok w0 n → applied n ≤ Index e →
  wp (applyEntry e) (λ o n', applied_waits w0 n o n' ∧ applied n' = Index e) n.
Proof.
  intros Hn Ha. unfold applyEntry.
  assert (∀ n1, nc n1 = nc n → net n1 = net n → readWaiters n1 = readWaiters n → appliedWaiters n1 = appliedWaiters n →
    replies n1 = replies n →
    wp (modify (set applied (λ _, Index e));; fireAppliedWaiters;; n ← get;
        match waiters n !! Index e with
        | None => mret ()
        | Some w => modify (set waiters (delete (Index e)));;
            reply_on (w_done w) (ReplyDone (if w_term w =? Term e then inl () else inr EProposalLost))
        end) (λ o n', applied_waits w0 n o n' ∧ applied n' = Index e) n1) as Hrest.
  { intros n1 E1 E2 E3 E4 E5. apply wp_bind, wp_modify. cbn [wpk]. apply (wp_waits_bind w0).
    - apply fireAppliedWaiters_waits. destruct Hn as [Hw Hap Hr]. split; cbn; rewrite ?E3, ?E4, ?E5; try done.
      intros k' (? & ? & ?)%Hr. split_and!; try done. lia.
    - intros n2 Hn2 F1 F2 F3. cbn in F1, F2, F3. apply wp_bind, wp_get. cbn [wpk].
      destruct (waiters n2 !! _); [|apply wp_ret; split; [split_and!; congruence|done]].
      apply wp_bind, wp_modify. cbn [wpk]. eapply wp_mono; [apply (reply_on_waits w0); [|done]; destruct Hn2; split; done|].
      intros o n3 (-> & ? & ? & ? & ?). cbn in *. split; [split_and!; congruence|congruence]. }
  apply wp_bind. case_match; [apply wp_modify|apply wp_ret]; cbn [wpk]; by apply Hrest.
Qed.

Lemma apply_all_waits w0 l n :
  waits_ok w0 n → ascending (applied n) l → wp (for_each l applyEntry) (applied_waits w0 n) n.
Proof.
  revert n. induction l as [|e l IH]; intros n Hn Hl; cbn [for_each]; [apply wp_ret; by split_and!|].
  destruct Hl as [Ha Hl]. apply wp_bind. eapply wp_mono; [by apply (applyEntry_waits w0)|].
  intros o n1 [(-> & Hn1 & E1 & E2) Ha1]. cbn [wpk]. eapply wp_mono; [apply IH; [done|by rewrite Ha1]|].
  intros o n2 (-> & ? & ? & ?). split_and!; congruence.
Qed.

Lemma resolveRead_waits w0 r n : outcome_ok r → waits_ok w0 n → wp (resolveRead r) (waits_kept w0 n) n.
Proof.
  intros Hr Hn. unfold resolveRead. apply wp_bind, wp_get. cbn [wpk].
  destruct (readWaiters n !! ro_id r) as [w|] eqn:Hw; [|apply wp_ret; by split_and!].
  assert (w = ch → ro_id r = id0) as Hid by (intros ->; by apply (wo_waiters _ _ Hn)).
  apply wp_bind, wp_modify. cbn [wpk].
  match goal with |- wp _ _ ?x => assert (waits_ok w0 x) as Hn1; [|eapply (wp_mono _ (waits_kept w0 x)); [|by intros o n'; apply waits_kept_from]] end.
  { destruct Hn as [Hwa Ha Hre]. split; cbn; try done. intros id [_ ?]%lookup_delete_Some. by apply Hwa. }
  destruct (ro_confirmed r) eqn:Hc; cbn [negb]; [|by apply reply_on_waits].
  case_match; zify_bool.
  - apply reply_on_waits; [done|]. intros E1 k' [= <-]. destruct (Hr (Hid E1) Hc) as [? ?]. cbn. split_and!; try done. lia.
  - apply wp_modify. destruct Hn1 as [Hwa Ha Hre]. split_and!; try done. split; cbn; try done.
    intros w' [Hin|Hin]%elem_of_app; [by apply Ha|]. apply list_elem_of_singleton in Hin as ->. cbn. auto.
Qed.

Lemma resolve_all_waits w0 l n :
  Forall outcome_ok l → waits_ok w0 n → wp (for_each l resolveRead) (waits_kept w0 n) n.
Proof.
  intros Hl. revert n. induction Hl as [|r l Hr _ IH]; intros n Hn; cbn [for_each]; [apply wp_ret; by split_and!|].
  apply (wp_waits_bind w0); [by apply resolveRead_waits|]. intros n1 Hn1 E1 E2 E3. eapply wp_mono; [by apply IH|].
  intros o n2. by apply waits_kept_from.
Qed.
End waits.

Lemma ascending_lookup a l : (∀ j e, l !! j = Some e → Index e = a + Z.of_nat j + 1) → ascending a l.
Proof.
  revert a. induction l as [|e l IH]; intros a Hl; [done|]. pose proof (Hl 0%nat e eq_refl) as He. split; [lia|].
  apply IH. intros j x Hj. rewrite (Hl (Datatypes.S j) x Hj). lia.
Qed.

Section after.
Context {D S : Type} `{RaftDiskLaws D} `{GoRuntime} `{StateMachineLaws S}.
Context (Cfg : Members) (Cfg_wf : members_wf Cfg) (Cfg_rt : decodeMembers (encodeMembers Cfg) = Ok Cfg).
Context (s0 : S) (i : Z) (E : Z → Z → Z → Prop).
Context (id0 k : Z) (good : Z → Prop) (ch : nat).

Abbreviation N := (Node D S).
Abbreviation waits_ok := (waits_ok Cfg id0 k good ch).
Abbreviation outcome_ok := (outcome_ok Cfg id0 k good).
Abbreviation drel := (drel Cfg s0 i).
Abbreviation rel := (rel Cfg (snap_of s0) i).

(** What [afterStep] leaves of the core. *)
Definition stands (c : core D) :=
  (role c, term c, commitIndex c, lastDelivered c, appendSeq c, cfg c, pendingReads c, readCounter c).

Definition after_reads (w0 : gmap Z nat) (n : N) (o : outcome ()) (n' : N) : Prop :=
  waits_ok w0 n' ∧ stands (nc n') = stands (nc n) ∧
  (∀ t v, may_state (disk (nc n')) t v → may_state (disk (nc n)) t v) ∧
  (∀ sn, may_snap (disk (nc n')) sn → may_snap (disk (nc n)) sn ∨ lastIndex sn ≤ lastDelivered (nc n)) ∧
  match o with
  | Ok _ => net n' = net n ++ outbox (nc n) ∧ outbox (nc n') = [] ∧ readOutcomes (nc n') = []
  | _ => net n' = net n
  end.

Lemma queue_ascending A F (c : core D) : rel A F c → ascending (qbase c) (committed c).
Proof.
  intros Hr. destruct (r_queue Hr) as [Hq1 Hq2]. destruct (r_deliv Hr) as [Hd _]. pose proof (sh_snap _ _ _ _ (r_shape Hr)).
  apply ascending_lookup. intros j e Hj. rewrite Hq2 in Hj. unfold zdrop, ztake in Hj. rewrite lookup_drop in Hj.
  apply lookup_take_Some in Hj as [Hj _]. destruct (sh_wf _ _ _ _ (r_shape Hr) _ _ Hj) as [-> _]. unfold qbase. lia.
Qed.

Lemma maybeCompact_reads w0 n :
  ninv Cfg E (nc n) → is_u64 (applied n) → waits_ok w0 n →
  wp maybeCompact (λ o n', waits_ok w0 n' ∧ vis (nc n') = vis ((nc n) <| disk := disk (nc n') |>) ∧ net n' = net n ∧
    (∀ t v, may_state (disk (nc n')) t v → may_state (disk (nc n)) t v) ∧
    ∀ sn, may_snap (disk (nc n')) sn → may_snap (disk (nc n)) sn ∨ lastIndex sn = applied n) n.
Proof.
  intros Hn Ha Hw. unfold maybeCompact. apply wp_bind, wp_get. cbn [wpk].
  assert (vis (nc n) = vis ((nc n) <| disk := disk (nc n) |>)) as Hv by done.
  case_match; [by apply wp_ret; auto 7|]. apply wp_bind, wp_attempt, wp_lift.
  destruct (smSnapshot (sm n)) as [data|e| |]; cbn [wpk]; [|by apply wp_ret; auto 7|by auto 7..].
  apply wp_bind, wp_attempt, wp_zoom. eapply wp_mono; [by apply (compact_vis Cfg E)|]. intros o c' (Hv' & Hms & Hsn).
  assert (waits_ok w0 (n <| nc := c' |>)) as Hw' by (destruct Hw; by split).
  destruct o; cbn [wpk]; [apply wp_ret|apply wp_ret|..]; by split_and!.
Qed.

(** From a restored state machine on. *)
Lemma after_restored_reads w0 A F n :
  rel A F (nc n) → ninv Cfg E (nc n) → applied n = qbase (nc n) → sm n = replay s0 (ztake (applied n) F) →
  Forall outcome_ok (readOutcomes (nc n)) → waits_ok w0 n →
  wp (entries ← zoom nc takeCommitted;
      for_each entries applyEntry;;
      outcomes ← zoom nc takeReadOutcomes;
      for_each outcomes resolveRead;;
      maybeCompact;;
      syncTransportConfig;;
      outs ← zoom nc takeOutbox;
      for_each outs sendAsync;;
      publishStatus) (after_reads w0 n) n.
Proof.
  intros Hr Hn Ha Hs Hout Hw. destruct (queue_replay _ _ _ _ _ _ Hr Ha Hs) as [_ Hap]. pose proof (queue_ascending _ _ _ Hr) as Hasc.
  rewrite <-Ha in Hasc. apply wp_bind. unfold takeCommitted. apply wp_zoom, wp_bind, wp_get, wp_bind, wp_modify, wp_ret. cbn [wpk].
  match goal with |- wp _ _ ?x => assert (waits_ok w0 x) as Hw1 by (destruct Hw; by split); set (n1 := x) in * end. apply wp_bind.
  eapply wp_mono; [exact (wp_and _ _ _ _ (apply_all_waits Cfg id0 k good ch w0 (committed (nc n)) n1 Hw1 Hasc) (apply_all_spec (committed (nc n)) n1))|].
  cbv beta. intros o n2 [(-> & Hw2 & Hc2 & Hnet2) (_ & _ & _ & Ha2 & _)]. cbn [wpk].
  assert (applied n2 = lastDelivered (nc n)) as Ha2' by (rewrite Ha2; exact Hap). clear Ha2.
  unfold takeReadOutcomes. apply wp_bind, wp_zoom, wp_bind, wp_get, wp_bind, wp_modify, wp_ret. cbn [wpk].
  match goal with |- wp _ _ ?x => assert (waits_ok w0 x) as Hw3 by (destruct Hw2; by split); set (n3 := x) in * end.
  rewrite Hc2. apply (wp_waits_bind Cfg id0 k good ch w0); [by apply resolve_all_waits|]. intros n4 Hw4 Hc4 Ha4 Hnet4.
  assert (applied n4 = lastDelivered (nc n)) as Ha4' by (rewrite Ha4; exact Ha2'). clear Ha4 Hap Ha2'.
  assert (ninv Cfg E (nc n4)) as Hn4.
  { rewrite Hc4. unfold n3. cbn. rewrite Hc2. unfold n1. cbn. clear -Hn. destruct Hn; split; cbn; done. }
  apply wp_bind. eapply wp_mono; [apply (maybeCompact_reads w0); [done| |done]|].
  { rewrite Ha4'. destruct (r_deliv Hr) as [Hd _]. pose proof (log_wf_length F (sh_wf _ _ _ _ (r_shape Hr))).
    pose proof (sh_snap _ _ _ _ (r_shape Hr)). unfold is_u64. lia. }
  cbv beta. intros o n5 (Hw5 & Hv5 & Hnet5 & Hms5 & Hsn5). rewrite Hc4 in Hv5, Hms5, Hsn5. unfold n3 in Hv5, Hms5, Hsn5. cbn in Hv5, Hms5, Hsn5.
  rewrite Hc2 in Hv5, Hms5, Hsn5. unfold n1 in Hv5, Hms5, Hsn5. cbn in Hv5, Hms5, Hsn5. injection Hv5 as V1 V2 V3 V4 V5 V6 V7 V8 V9 V10.
  assert (net n5 = net n) as Hnet by (rewrite Hnet5, Hnet4; exact Hnet2).
  assert (stands (nc n5) = stands (nc n)) as Hst by (unfold stands; congruence).
  assert (∀ sn, may_snap (disk (nc n5)) sn → may_snap (disk (nc n)) sn ∨ lastIndex sn ≤ lastDelivered (nc n)) as Hsn.
  { intros sn [?|Hx]%Hsn5; [by left|right]. rewrite Hx, Ha4'. done. }
  destruct o as [[]|e| |]; cbn [wpk]; [|by split_and!..].
  apply wp_bind. unfold syncTransportConfig. apply wp_bind, wp_get. cbn [wpk].
  assert (∀ n6, waits_ok w0 n6 → nc n6 = nc n5 → net n6 = net n5 →
    wp (outs ← zoom nc takeOutbox; for_each outs sendAsync;; publishStatus) (after_reads w0 n) n6) as Hfin.
  { intros n6 Hw6 Hc6 Hnet6. apply wp_bind. unfold takeOutbox. apply wp_zoom, wp_bind, wp_get, wp_bind, wp_modify, wp_ret. cbn [wpk].
    apply wp_bind, wp_sendAsync_all. cbn [wpk]. apply wp_modify. cbn. rewrite Hc6. split_and!; try done.
    - destruct Hw6; by split.
    - cbn. rewrite Hnet6, Hnet. congruence. }
  destruct (transportPeers n5); [|apply wp_ret; cbn [wpk]; by apply Hfin].
  case_match; [apply wp_ret|apply wp_modify]; cbn [wpk]; apply Hfin; try done. destruct Hw5; by split.
Qed.

Lemma afterStep_reads w0 A F n :
  drel A F n → ninv Cfg E (nc n) → Forall outcome_ok (readOutcomes (nc n)) → waits_ok w0 n →
  (∀ k', (ch, ReplyRead (inl k')) ∉ replies n) → wp afterStep (after_reads w0 n) n.
Proof.
  intros [[Hr Hre] Hm] Hn Hout Hw Hno. unfold afterStep. apply wp_bind. unfold takeRestore.
  apply wp_zoom, wp_bind, wp_get, wp_bind, wp_modify, wp_ret. cbn [wpk].
  assert (ninv Cfg E ((nc n) <| pendingRestore := [] |>)) as Hn' by (destruct Hn; split; cbn; done).
  assert (∀ n1 o n', nc n1 = (nc n) <| pendingRestore := [] |> → net n1 = net n → after_reads w0 n1 o n' → after_reads w0 n o n') as Hfrom.
  { intros n1 o n' E1 E2 (? & ? & ? & ? & ?). rewrite E1, E2 in *. done. }
  destruct Hre as [Hnil|(Hpos & Hdl & Hq & Hsnap)].
  - destruct (Hm Hnil) as [Ha Hs]. rewrite Hnil. rewrite bool_decide_eq_true_2 by done.
    apply wp_bind, wp_ret. cbn [wpk negb]. eapply wp_mono; [apply (after_restored_reads w0 A F); try done; destruct Hw; by split|].
    intros o n'. by apply Hfrom.
  - rewrite bool_decide_eq_false_2 by (by eapply snap_of_nonempty). apply wp_bind, wp_bind, wp_get. cbn [wpk].
    destruct (snapshot_restore _ _ (sm n) Hsnap) as [_ Hres]. cbn. rewrite Hres. apply wp_bind, wp_modify. cbn [wpk].
    match goal with |- wp _ _ ?x => assert (waits_ok w0 x) as Hw1; [|set (n1 := x) in *] end.
    { destruct Hw as [? ? ?]. split; cbn; try done. by intros k' ?%Hno. }
    apply wp_bind. eapply wp_mono; [exact (wp_and _ _ _ _ (fireAppliedWaiters_waits _ _ _ _ _ _ _ Hw1) (fireAppliedWaiters_still n1))|].
    cbv beta. intros o n2 [(-> & Hw2 & Hc2 & Ha2 & Hnet2) (_ & _ & Hs2 & _)]. cbn [wpk]. apply wp_ret. cbn [wpk negb].
    eapply wp_mono; [|intros o n'; by apply Hfrom]. apply (after_restored_reads w0 A F); rewrite ?Hc2, ?Hs2, ?Ha2; try done.
    unfold qbase, n1. cbn. rewrite Hq, Hdl. cbn. lia.
Qed.
End after.

(** ** Dispatching an event *)

Section dispatch.
Context {D S : Type} `{RaftDiskLaws D} `{GoRuntime} `{StateMachineLaws S}.
Context (Cfg : Members) (Cfg_wf : members_wf Cfg) (Cfg_rt : decodeMembers (encodeMembers Cfg) = Ok Cfg).
Context (E : Z → Z → Z → Prop).
Context (id0 k s T : Z) (good : Z → Prop) (ch : nat).

Abbreviation N := (Node D S).
Abbreviation room := (Z.of_nat (size Cfg)).

(** What the history says of an event. *)
Definition ev_reads (c : core D) (B : Z) (ev : event) : Prop :=
  match ev with
  | evAppendEntries req _ => (role c = leader → ae_term req ≠ term c) ∧ 0 ≤ ae_leaderCommit req ≤ B
  | evInstallSnapshot req _ => (role c = leader → is_term req ≠ term c) ∧ is_lastIncludedIndex req ≤ B
  | evTimeoutNow req _ => role c = leader → tn_term req ≠ term c
  | evAppendResp from req resp => from ∈ dom Cfg ∧ from ≠ ID (cfg c) ∧
      (aer_success resp = true → ae_term req = T → s ≤ aer_seq resp → good from)
  | _ => True
  end.

Context (n : N) (B : Z).
Abbreviation fine := (fine Cfg id0 k s T good (nc n) B).
Abbreviation held := (held Cfg id0 k s T good (nc n) B).

(** The counters of the core have room. *)
Definition has_room (c : core D) : Prop :=
  0 ≤ appendSeq c ∧ appendSeq c + room < 2 ^ 64 ∧ readCounter c < 2 ^ 64 - 1.

Context (start_ninv : ninv Cfg E (nc n)) (start_fine : fine 0 (nc n)) (start_calm : calm (nc n) B (nc n))
  (start_term : term (nc n) < 2 ^ 64 - 1) (start_room : has_room (nc n)).

(** What is answered: no read barrier yet, and an AppendEntries request with its own
    number. *)
Definition reply_reads (ev : event) (r : reply) : Prop :=
  match r with
  | ReplyRead (inl _) => False
  | ReplyAppend (inl resp) =>
      match ev with
      | evAppendEntries req _ => aer_success resp = true → aer_seq resp = ae_seq req ∧ term (nc n) ≤ ae_term req
      | _ => False
      end
  | _ => True
  end.

Definition disp_reads (ev : event) (n1 : N) : Prop :=
  fine room (nc n1) ∧ net n1 = net n ∧ applied n1 = applied n ∧ appliedWaiters n1 = appliedWaiters n ∧
  ∃ rs, replies n1 = replies n ++ rs ∧ Forall (λ r, reply_reads ev r.2) rs.

Lemma disp_reads_core ev c : fine room c → disp_reads ev (n <| nc := c |>).
Proof. intros Hf. split_and!; try done. exists []. by rewrite app_nil_r. Qed.

Lemma disp_reads_reply ev n1 ch' r n2 :
  disp_reads ev n1 → reply_reads ev r → nc n2 = nc n1 → net n2 = net n1 → applied n2 = applied n1 →
  appliedWaiters n2 = appliedWaiters n1 → replies n2 = replies n1 ++ [(ch', r)] → disp_reads ev n2.
Proof.
  unfold disp_reads. intros (? & ? & ? & ? & rs & Hrs & Hr) Hrr -> -> -> -> E2. split_and!; try done. exists (rs ++ [(ch', r)]).
  rewrite E2, Hrs, app_assoc. split; [done|]. apply Forall_app_2; [done|by apply Forall_singleton].
Qed.

(** The waiters of the barrier are as they were. *)
Definition disp_kept (ev : event) (o : outcome ()) (n1 : N) : Prop := disp_reads ev n1 ∧ readWaiters n1 = readWaiters n.

Lemma zoom_reads ev (m : M (core D) ()) : held room (λ _, True) m (nc n) → wp (zoom nc m) (disp_kept ev) n.
Proof. intros Hm. apply wp_zoom. unfold CoreReads.held in Hm. eapply wp_mono; [exact Hm|]. intros o c [Hf _]. split; [by apply disp_reads_core|done]. Qed.

Lemma serve_reads {X} ev ch' (mk : X + error → reply) (m : M (core D) X) :
  wp m (λ o c, fine room c ∧ match o with Ok a => reply_reads ev (mk (inl a)) | _ => True end) (nc n) →
  (∀ e, reply_reads ev (mk (inr e))) → wp (serve ch' mk m) (disp_kept ev) n.
Proof.
  intros Hm He. unfold serve. apply wp_bind, wp_attempt, wp_zoom. eapply wp_mono; [exact Hm|]. cbv beta. intros o c [Hf Ho].
  pose proof (disp_reads_core ev c Hf). destruct o; cbn [wpk]; [..|done|done];
    (apply wp_bind, wp_modify; cbn [wpk]; (apply wp_ret || apply wp_throw); split; [|done]; by eapply disp_reads_reply).
Qed.

Lemma attempt_reads {X} ev (m : M (core D) X) (f : X + error → M N ()) :
  held room (λ _, True) m (nc n) →
  (∀ r n1 Q, (∀ o n2, nc n2 = nc n1 → net n2 = net n1 → applied n2 = applied n1 → appliedWaiters n2 = appliedWaiters n1 →
     readWaiters n2 = readWaiters n1 → (∃ c' x, reply_reads ev x ∧ replies n2 = replies n1 ++ [(c', x)]) → Q o n2) → wp (f r) Q n1) →
  wp (r ← attempt (zoom nc m); f r) (disp_kept ev) n.
Proof.
  intros Hm Hf. unfold CoreReads.held in Hm. apply wp_bind, wp_attempt, wp_zoom. eapply wp_mono; [exact Hm|]. cbv beta. intros o c [Hfi _].
  pose proof (disp_reads_core ev c Hfi) as Hd. destruct o; cbn [wpk]; [..|done|done];
    (apply Hf; intros o n2 E1 E2 E3 E4 E5 (c' & x & Hx & E6); split; [by eapply disp_reads_reply|by rewrite E5]).
Qed.

Lemma dispatch_reads ev :
  ev_ok Cfg E (nc n) ev → ev_reads (nc n) B ev → (∀ ch', ev ≠ evRead ch') → wp (dispatch ev) (disp_kept ev) n.
Proof.
  intros Hok Hev Hnr. destruct start_room as (Hs1 & Hs2 & Hs3).
  assert (∀ X (m : M (core D) X) R, held room (λ _, True) m (nc n) → (∀ a, R a) →
    wp m (λ o c, fine room c ∧ match o with Ok a => R a | _ => True end) (nc n)) as Hplain.
  { unfold CoreReads.held. intros X m R Hm HR. eapply wp_mono; [exact Hm|]. cbv beta. intros [] c [? _]; by split. }
  destruct ev as [|req c'|req c'|from camp pre resp|from req resp|req c'|from req resp|req c'|cmd typ dn c'|cc dn c'|to c'|c'];
    cbn [dispatch ev_ok ev_reads] in *.
  - by apply zoom_reads, (tick_held Cfg Cfg_wf Cfg_rt E).
  - destruct Hok. apply serve_reads; [|done]. apply Hplain; [|done]. by apply (handleRequestVote_held Cfg E).
  - destruct Hok, Hev. apply serve_reads; [|done]. by apply (handleAppendEntries_held Cfg Cfg_wf Cfg_rt E).
  - destruct Hok as (? & ? & ?). destruct pre; apply zoom_reads; [by apply (handlePreVoteResponse_held Cfg Cfg_wf Cfg_rt E)|].
    apply (handleVoteResponse_held Cfg Cfg_wf Cfg_rt E); auto.
  - destruct Hev as (? & ? & ?). by apply zoom_reads, (handleAppendResponse_held Cfg E).
  - destruct Hok as (? & ? & ? & ?), Hev. apply serve_reads; [|done]. apply Hplain; [|done]. by apply (handleInstallSnapshot_held Cfg Cfg_wf Cfg_rt E).
  - by apply zoom_reads, (handleInstallSnapshotResponse_held Cfg E).
  - apply serve_reads; [|done]. apply Hplain; [|done]. apply (handleTimeoutNow_held Cfg Cfg_wf Cfg_rt E); try done; [unfold is_u64; lia|lia].
  - destruct Hok as [-> ?]. unfold serve_proposal. apply attempt_reads; [apply (propose_held Cfg Cfg_wf Cfg_rt E); auto|].
    intros r n1 Q HQ. destruct r as [[ix t]|e]; [apply wp_bind, wp_modify; cbn [wpk]|apply wp_bind, wp_ret; cbn [wpk]].
    + apply wp_bind, wp_modify, wp_ret. apply HQ; try done. eexists _, _; split; [|reflexivity]; done.
    + apply wp_bind, wp_modify. cbn [wpk]. case_match; [apply wp_throw|apply wp_ret]; (apply HQ; try done; eexists _, _; split; [|reflexivity]; done).
  - done.
  - apply attempt_reads; [by apply (transferLeadership_held Cfg E)|]. intros r n1 Q HQ. apply wp_modify. apply HQ; try done. eexists _, _; split; [|reflexivity]; done.
  - by destruct (Hnr c').
Qed.

End dispatch.

(** ** A read barrier *)

Section ask.
Context {D S : Type} `{RaftDiskLaws D} `{GoRuntime} `{StateMachineLaws S}.
Context (Cfg : Members) (Cfg_wf : members_wf Cfg) (Cfg_rt : decodeMembers (encodeMembers Cfg) = Ok Cfg).
Context (E : Z → Z → Z → Prop) (id0 k s T : Z) (good : Z → Prop).

Abbreviation N := (Node D S).
Abbreviation room := (Z.of_nat (size Cfg)).

Lemma dispatch_ask (n : N) B c' :
  ninv Cfg E (nc n) → has_room Cfg (nc n) →
  (role (nc n) = leader → fine Cfg id0 k s T good (nc n) B 0 (registered (nc n))) →
  wp (dispatch (evRead c')) (λ o n1,
    net n1 = net n ∧ applied n1 = applied n ∧ appliedWaiters n1 = appliedWaiters n ∧
    ((fine Cfg id0 k s T good (nc n) B room (nc n1) ∧ role (nc n) = leader ∧ termAt (nc n) (commitIndex (nc n)) = Ok (term (nc n))) ∨
     (nc n1 = nc n ∧ readWaiters n1 = readWaiters n)) ∧
    (readWaiters n1 = readWaiters n ∨ readWaiters n1 = <[u64 (readCounter (nc n) + 1) := c']> (readWaiters n)) ∧
    ∃ rs, replies n1 = replies n ++ rs ∧ Forall (λ r, reply_reads n (evRead c') r.2) rs) n.
Proof.
  intros Hn (Hs1 & Hs2 & Hs3) Hreg. cbn [dispatch]. apply wp_bind, wp_attempt, wp_zoom.
  eapply wp_mono; [by apply (requestRead_held Cfg Cfg_wf Cfg_rt E id0 k s T good (nc n) B)|]. cbv beta. intros o c Ho.
  assert (∃ rs, replies n = replies n ++ rs ∧ Forall (λ r, reply_reads n (evRead c') r.2) rs) as Hnone by (exists []; by rewrite app_nil_r).
  destruct o as [id|e| |]; cbn [wpk].
  - destruct Ho as (Hf & -> & Hl & Ht). apply wp_modify. split_and!; try done; [by left|by right].
  - apply wp_modify. split_and!; try done; [by destruct Ho as [(? & ? & ?)| ->]; [left|right]|by left|].
    eexists. split; [done|]. by apply Forall_singleton.
  - split_and!; try done; [by destruct Ho as [(? & ? & ?)| ->]; [left|right]|by left].
  - split_and!; try done; [by destruct Ho as [(? & ? & ?)| ->]; [left|right]|by left].
Qed.
End ask.

(** ** One event *)

Section handle.
Context {D S : Type} `{RaftDiskLaws D} `{GoRuntime} `{StateMachineLaws S}.
Context (Cfg : Members) (Cfg_wf : members_wf Cfg) (Cfg_rt : decodeMembers (encodeMembers Cfg) = Ok Cfg).
Context (s0 : S) (i : Z) (i_nonzero : i ≠ noVote) (i_u64 : is_u64 i) (i_member : i ∈ dom Cfg).
Context (E : Z → Z → Z → Prop) (ch : nat).

Abbreviation N := (Node D S).
Abbreviation room := (Z.of_nat (size Cfg)).

(** What an event did: [c1] is the core when [dispatch] returned. *)
Definition handled (reads : core D → Prop) (n : N) (B : Z) (ev : event) (o : outcome ()) (n' : N) : Prop :=
  ∃ c1, steps_ok Cfg (nc n) B room c1 ∧ stands (nc n') = stands c1 ∧
    (o = Ok () → reads (nc n')) ∧
    (∀ sn, may_snap (disk (nc n')) sn → lastIndex sn ≤ B ∨
      lastIndex sn ≤ commitIndex c1 ∧ ∀ t v, may_state (disk (nc n')) t v → t = term c1) ∧
    match o with
    | Ok _ => net n' = outbox c1 ∧ outbox (nc n') = [] ∧ readOutcomes (nc n') = []
    | _ => net n' = []
    end ∧
    ∀ c' resp, (c', ReplyAppend (inl resp)) ∈ replies n' → reply_reads n ev (ReplyAppend (inl resp)).

(** The state an event finds. *)
Record ready (A : abs) (F : list Entry) (n : N) (B : Z) (ev : event) : Prop := {
  re_inv : ainv Cfg A;
  re_rel : nrel Cfg s0 i A F n;
  re_ninv : nninv Cfg E n;
  re_empty : replies n = [] ∧ net n = [] ∧ outbox (nc n) = [];
  re_term : term (nc n) < 2 ^ 64 - 1;
  re_log : lastLogIndex (nc n) < 2 ^ 64 - 2;
  re_commit : lastDelivered (nc n) ≤ commitIndex (nc n) ≤ B;
  re_room : has_room Cfg (nc n);
  re_rel_ev : ev_rel Cfg s0 i A ev;
  re_ok_ev : ev_ok Cfg E (nc n) ev
}.

Lemma ready_start A F n B ev : ready A F n B ev → steps_ok Cfg (nc n) B 0 (nc n) ∧ calm (nc n) B (nc n).
Proof.
  intros [_ [Hr _ _ _] _ (_ & _ & Hout) _ _ [Hd Hc] _ _ _]. pose proof (sh_snap _ _ _ _ (r_shape Hr)). destruct (r_deliv Hr) as [? _].
  destruct (r_commit Hr) as [? _]. split.
  - split; try done; try lia; [intros _; split; intros ->; done| |].
    + exists []. by rewrite app_nil_r.
    + intros sn Hsn. apply (dr_snap (r_disk Hr)) in Hsn as [_ ?]. lia.
  - split_and!; try done; [lia|]. exists []. by rewrite app_nil_r.
Qed.

(** The end of an event whose [dispatch] returned. *)
Lemma finish_reads id0 k s T good w0 n B ev n1 A1 F1 :
  fine Cfg id0 k s T good (nc n) B room (nc n1) → drel Cfg s0 i A1 F1 n1 → ninv Cfg E (nc n1) → net n1 = [] → outbox (nc n) = [] →
  waits_ok Cfg id0 k good ch w0 n1 →
  Forall (λ r, reply_reads n ev r.2) (replies n1) →
  wp afterStep (λ o n', handled (reads_ok Cfg id0 k s T good) n B ev o n' ∧ waits_ok Cfg id0 k good ch w0 n') n1.
Proof.
  intros [Hre Hst] Hd Hn Hnet Hout Hw Hrep. rewrite Forall_forall in Hrep.
  eapply wp_mono.
  { eapply wp_and; [eapply (afterStep_reads Cfg Cfg_wf s0 i E id0 k good ch w0 A1 F1); try done|exact (afterStep_rel Cfg Cfg_wf s0 i A1 F1 n1 Hd)].
    - apply Forall_forall. intros r Hr. exact (rd_outcomes _ _ _ _ _ _ _ Hre r Hr).
    - intros k' Hin. exact (Hrep _ Hin). }
  cbv beta. intros o n' [(Hw' & Hs' & Hms & Hsn & Hnet') (_ & _ & (rs & Hrs & Hl) & _)]. split; [|done].
  exists (nc n1). split_and!; try done.
  - intros ->. destruct Hnet' as (_ & _ & Hro). injection Hs' as E1 E2 _ _ _ _ E3 E4. destruct Hre as [? ? ? ? ?].
    split; rewrite ?E1, ?E2, ?E4, ?Hro; try done; [by rewrite E3..|]. by intros x ?%elem_of_nil.
  - intros sn [Hx|Hx]%Hsn; [left; by apply (so_snaps _ _ _ _ _ Hst)|].
    destruct (so_deliv _ _ _ _ _ Hst); [left; lia|right]. split; [lia|]. intros t v Ht%Hms. by apply (ni_state _ _ _ Hn) in Ht as [? _].
  - rewrite Hnet in Hnet'. destruct o; done.
  - intros c' resp Hin. rewrite Hrs in Hin. apply elem_of_app in Hin as [Hin|Hin]; [exact (Hrep _ Hin)|].
    rewrite Forall_forall in Hl. by destruct (Hl _ Hin).
Qed.

Lemma handle_reads id0 k s T good A F n B ev :
  ready A F n B ev → ev_reads Cfg s T good (nc n) B ev → reads_ok Cfg id0 k s T good (nc n) → ev ≠ evRead ch →
  (∀ id, readWaiters n !! id = Some ch → id = id0) →
  (∀ w, w ∈ appliedWaiters n → aw_c w = ch → aw_index w = k ∧ confirmed Cfg good) →
  wp (handle ev) (λ o n', handled (reads_ok Cfg id0 k s T good) n B ev o n' ∧ waits_ok Cfg id0 k good ch (readWaiters n) n') n.
Proof.
  intros Hre Hev Hreads Hne Hwait Happ. destruct (ready_start _ _ _ _ _ Hre) as [Hst Hcalm].
  pose proof Hre as [Hi Hn Hni (Hrep & Hnet & Hout) Hterm Hlog [Hdel Hcom] Hroom Hrel Hok].
  assert (fine Cfg id0 k s T good (nc n) B 0 (nc n)) as Hfine by done.
  assert (wp (dispatch ev) (λ o n1, disp_reads Cfg id0 k s T good n B ev n1 ∧
    ∀ id, readWaiters n1 !! id = Some ch → readWaiters n !! id = Some ch) n) as Hdisp.
  { assert ((∃ c', ev = evRead c') ∨ ∀ c', ev ≠ evRead c') as [[c' ->]|Hno] by (destruct ev; by eauto).
    - destruct Hni as [Hni _]. eapply wp_mono; [apply (dispatch_ask Cfg Cfg_wf Cfg_rt E id0 k s T good n B c'); try done|].
      { intros Hl. apply registered_other; try done. apply Hroom. }
      cbv beta. intros o n1 (E1 & E2 & E3 & Hf & Hw & Hrs). split.
      + split_and!; try done. destruct Hf as [(Hf & _)|[-> _]]; [done|]. apply (fine_more _ _ _ _ _ _ _ _ 0); [lia|done].
      + destruct Hw as [->| ->]; [done|]. intros id [[_ E4]|[_ ?]]%lookup_insert_Some; [congruence|done].
    - eapply wp_mono; [apply (dispatch_reads Cfg Cfg_wf Cfg_rt E id0 k s T good n B); try done; apply Hni|].
      cbv beta. intros o n1 [? E1]. split; [done|]. by rewrite E1. }
  unfold handle. apply wp_bind. eapply wp_mono.
  { exact (wp_and _ _ _ _ Hdisp (wp_and _ _ _ _ (dispatch_rel Cfg Cfg_wf Cfg_rt s0 i i_nonzero i_u64 i_member A F n ev Hi Hn Hrep Hnet Hdel Hterm Hlog Hrel)
      (dispatch_spec Cfg Cfg_wf Cfg_rt E ev n Hni Hok Hterm))). }
  cbv beta. intros o n1 [[(Hf1 & Hnet1 & Ha1 & Haw1 & rs & Hrs & Hrr) Hw1] [(A1 & _ & _ & Hd1) ([_ Hk1] & _)]].
  rewrite Hrep in Hrs. cbn in Hrs. rewrite Hnet in Hnet1.
  assert (waits_ok Cfg id0 k good ch (readWaiters n) n1) as Hwo.
  { split; [|rewrite Haw1; exact Happ|].
    - intros id Hid. split; [by apply Hwait, Hw1|by apply Hw1].
    - intros k' Hin. rewrite Hrs in Hin. rewrite Forall_forall in Hrr. by destruct (Hrr _ Hin). }
  assert (o = Ok () ∨ o ≠ Ok ()) as [->|Hbad] by (destruct o as [[]|e| |]; by auto).
  - cbn [wpk]. destruct Hd1 as (F1 & Hd1). destruct Hk1 as [Hn1 _]. eapply finish_reads; try done. by rewrite Hrs.
  - assert (handled (reads_ok Cfg id0 k s T good) n B ev o n1 ∧ waits_ok Cfg id0 k good ch (readWaiters n) n1) as Hend.
    { split; [|done]. exists (nc n1). destruct Hf1 as [_ Hs1]. split_and!; try done.
      - intros sn Hsn. left. by apply (so_snaps _ _ _ _ _ Hs1).
      - destruct o as [[]|e| |]; done.
      - intros c' resp Hin. rewrite Hrs in Hin. rewrite Forall_forall in Hrr. exact (Hrr _ Hin). }
    destruct o as [[]|e| |]; cbn [wpk]; done.
Qed.

(** The event that registers a barrier, on a channel nothing waits on: either it is
    refused and the channel forgotten, or the barrier is followed from here on. *)
Definition forgets (n : N) : Prop :=
  (∀ id, readWaiters n !! id ≠ Some ch) ∧ ∀ w, w ∈ appliedWaiters n → aw_c w ≠ ch.

Definition follows_read (id0 k s T : Z) (good : Z → Prop) (n : N) : Prop :=
  reads_ok Cfg id0 k s T good (nc n) ∧ (∀ id, readWaiters n !! id = Some ch → id = id0) ∧
  ∀ w, w ∈ appliedWaiters n → aw_c w = ch → aw_index w = k ∧ confirmed Cfg good.

Lemma no_confirmation : ¬ confirmed Cfg (λ _, False).
Proof.
  intros (Q & [_ Hq] & HQ). destruct (set_choose_or_empty Q) as [[j Hj]|He]; [exact (HQ j Hj)|].
  unfold quorum in Hq. rewrite (leibniz_equiv _ _ He), size_empty in Hq. pose proof (Z.div_pos (Z.of_nat (size Cfg)) 2). lia.
Qed.

(** The end of an event that refused it. *)
Lemma refused_reads k s T good n B n1 A1 F1 :
  reads_ok Cfg (-1) k s T good (nc n) → readOutcomes (nc n) = [] → outbox (nc n) = [] → steps_ok Cfg (nc n) B 0 (nc n) → forgets n →
  nc n1 = nc n → readWaiters n1 = readWaiters n → appliedWaiters n1 = appliedWaiters n → net n1 = [] →
  drel Cfg s0 i A1 F1 n1 → ninv Cfg E (nc n1) →
  Forall (λ r, reply_reads n (evRead ch) r.2) (replies n1) → (∀ k, (ch, ReplyRead (inl k)) ∉ replies n1) →
  wp afterStep (λ o n', forgets n' ∧ ∀ k, (ch, ReplyRead (inl k)) ∉ replies n') n1.
Proof.
  intros Hreads Hnil Hout Hst [Hnw Hna] Hc1 Hw1 Haw1 Hnet Hd Hn Hrr Hno.
  assert (reads_ok Cfg (-1) k s T (λ _, False) (nc n1)) as Hdead.
  { rewrite Hc1. destruct Hreads as [Hx [Hy Hids] Hz _ _]. split; try done.
    - intros r Hr. rewrite Forall_forall in Hids. specialize (Hids r Hr). cbn in Hids. lia.
    - rewrite Hnil. by intros x ?%elem_of_nil. }
  assert (waits_ok Cfg (-1) k (λ _, False) ch (readWaiters n) n1) as Hwo.
  { split; [| |by intros k0 ?%Hno].
    - rewrite Hw1. intros id Hid. by destruct (Hnw id).
    - rewrite Haw1. intros w Hw Hc. by destruct (Hna w Hw). }
  eapply wp_mono; [eapply (finish_reads (-1) k s T (λ _, False) (readWaiters n) n B (evRead ch)); try done|].
  { split; [done|]. rewrite Hc1. destruct Hst as [? ? ? ? ? ? ? [? ?] ? ?]. split; try done. lia. }
  cbv beta. intros o n' [_ [Hwa Hap Hrp]]. split; [split|].
  - intros id Hid. apply Hwa in Hid as [_ Hid]. by destruct (Hnw id).
  - intros w Hw Hc. destruct (Hap w Hw Hc) as [_ ?]. by apply no_confirmation.
  - intros k0 Hin. destruct (Hrp k0 Hin) as (_ & ? & _). by apply no_confirmation.
Qed.

Lemma handle_asks good good' k' s' T' A F n B :
  ready A F n B (evRead ch) → reads_ok Cfg (-1) k' s' T' good' (nc n) → readOutcomes (nc n) = [] → good (ID (cfg (nc n))) →
  forgets n →
  wp (handle (evRead ch)) (λ o n',
    (role (nc n) = leader ∧ termAt (nc n) (commitIndex (nc n)) = Ok (term (nc n)) ∧
     (o = Ok () → follows_read (readCounter (nc n) + 1) (commitIndex (nc n)) (u64 (appendSeq (nc n) + 1)) (term (nc n)) good n') ∧
     ∀ k, (ch, ReplyRead (inl k)) ∈ replies n' → k = commitIndex (nc n) ∧ confirmed Cfg good ∧ k ≤ applied n') ∨
    (forgets n' ∧ ∀ k, (ch, ReplyRead (inl k)) ∉ replies n')) n.
Proof.
  intros Hre Hreads Hnil Hgood [Hnw Hna]. destruct (ready_start _ _ _ _ _ Hre) as [Hst Hcalm].
  pose proof Hre as [Hi Hn Hni (Hrep & Hnet & Hout) Hterm Hlog [Hdel Hcom] Hroom Hrel Hok]. pose proof Hroom as (? & ? & Hctr).
  set (id0 := readCounter (nc n) + 1). set (k := commitIndex (nc n)). set (s := u64 (appendSeq (nc n) + 1)). set (T := term (nc n)).
  assert (u64 (readCounter (nc n) + 1) = id0) as Hu.
  { destruct Hreads as [_ [? _] _ _ _]. apply u64_small. unfold is_u64. lia. }
  assert (role (nc n) = leader → fine Cfg id0 k s T good (nc n) B 0 (registered (nc n))) as Hreg.
  { intros Hl. split; [|destruct Hst; by split]. eapply registered_this; try done. apply Hni. }
  destruct Hni as [Hni Hu64].
  unfold handle. apply wp_bind. eapply wp_mono.
  { exact (wp_and _ _ _ _ (dispatch_ask Cfg Cfg_wf Cfg_rt E id0 k s T good n B ch Hni Hroom Hreg)
      (wp_and _ _ _ _ (dispatch_rel Cfg Cfg_wf Cfg_rt s0 i i_nonzero i_u64 i_member A F n (evRead ch) Hi Hn Hrep Hnet Hdel Hterm Hlog Hrel)
      (dispatch_spec Cfg Cfg_wf Cfg_rt E (evRead ch) n (conj Hni Hu64) Hok Hterm))). }
  cbv beta. intros o n1 [(Hnet1 & Ha1 & Haw1 & Hf1 & Hw1 & rs & Hrs & Hrr) [(A1 & _ & _ & Hd1) ([_ Hk1] & _)]].
  rewrite Hrep in Hrs. cbn in Hrs. rewrite Hnet in Hnet1. rewrite <-Hrs in Hrr. clear rs Hrs.
  assert (∀ k0, (ch, ReplyRead (inl k0)) ∉ replies n1) as Hnorep.
  { intros k0 Hin. rewrite Forall_forall in Hrr. by destruct (Hrr _ Hin). }
  assert (o = Ok () ∨ o ≠ Ok ()) as [->|Hbad] by (destruct o as [[]|e| |]; by auto).
  - cbn [wpk]. destruct Hd1 as (F1 & Hd1). destruct Hk1 as [Hn1 _]. destruct Hf1 as [(Hf1 & Hl & Ht)|[Hc1 Hw1']].
    + assert (waits_ok Cfg id0 k good ch (readWaiters n1) n1) as Hwo.
      { split; [| |by intros k0 ?%Hnorep].
        - intros id Hid. split; [|done]. destruct Hw1 as [Hw1|Hw1]; rewrite Hw1 in Hid; [by destruct (Hnw id)|].
          apply lookup_insert_Some in Hid as [[<- _]|[_ Hid]]; [done|by destruct (Hnw id)].
        - rewrite Haw1. intros w Hw Hc. by destruct (Hna w Hw). }
      eapply wp_mono; [eapply (finish_reads id0 k s T good); try done|]. cbv beta. intros o n' [(c1 & _ & _ & Hr & _) [Hwa Hap Hrp]].
      left. split_and!; try done.
      * intros ->. split; [by apply Hr|]. split; [|done]. intros id Hid. by apply Hwa.
      * intros k0 Hin. by destruct (Hrp k0 Hin) as (-> & ? & ?).
    + eapply wp_mono; [eapply (refused_reads k' s' T' good' n B n1 A1 F1); try done|]. cbv beta. intros o n' ?. by right.
  - assert ((role (nc n) = leader ∧ termAt (nc n) (commitIndex (nc n)) = Ok (term (nc n))) ∨ forgets n1) as Hor.
    { destruct Hf1 as [(_ & ? & ?)|[_ Hw1']]; [by left|right]. split; [by rewrite Hw1'|by rewrite Haw1]. }
    assert (∀ P Q R X : Prop, (P ∧ Q) ∨ R → (∀ k0, (ch, ReplyRead (inl k0)) ∉ replies n1) → o ≠ Ok () →
      (P ∧ Q ∧ (o = Ok () → X) ∧ ∀ k0, (ch, ReplyRead (inl k0)) ∈ replies n1 → k0 = commitIndex (nc n) ∧ confirmed Cfg good ∧ k0 ≤ applied n1) ∨
      (R ∧ ∀ k0, (ch, ReplyRead (inl k0)) ∉ replies n1)) as Hlog'.
    { intros P Q R X [[? ?]|?] Hx Hy; [left|by right]. split_and!; try done. by intros k0 ?%Hx. }
    destruct o as [[]|e| |]; cbn [wpk]; [done|by apply Hlog'..].
Qed.
End handle.

(** ** Boots *)

Section boot.
Context {D S : Type} `{RaftDiskLaws D} `{GoRuntime} `{StateMachineLaws S}.

(** A core that has just been recovered follows no barrier, and its commit index is
    that of the snapshot it was recovered from. *)
Definition recovered (d : D) (c : core D) : Prop :=
  role c = follower ∧ pendingReads c = [] ∧ readOutcomes c = [] ∧ readCounter c = 0 ∧ outbox c = [] ∧
  ∃ t v sn l, may_state d t v ∧ may_snap d sn ∧ may_log d l ∧ starts_at (u64 (lastIndex sn + 1)) l ∧ commitIndex c = lastIndex sn.

(** What a disk may come up with, another may have come up with before. *)
Definition within (d' d : D) : Prop :=
  (∀ t v, may_state d' t v → may_state d t v) ∧ (∀ l, may_log d' l → may_log d l) ∧ ∀ s, may_snap d' s → may_snap d s.

Lemma newCore_recovers conf Cfg (d : D) :
  d_wf d → match newCore conf Cfg d with (o, d') => (d_wf d' ∧ within d' d) ∧ ∀ c, o = Ok c → recovered d c ∧ disk c = d' end.
Proof.
  intros Hw. unfold newCore. destruct (ID conf =? 0); [done|]. cbv zeta. pose proof (boot_load d Hw) as Hload. unfold wp in Hload.
  match goal with |- context [match ?m d with _ => _ end] => destruct (m d) as [o d'] end.
  cbn [fst snd] in Hload. destruct Hload as (? & ? & ? & ? & Ho). destruct o as [[[[t v] sn] l]|e| |]; [|done..].
  destruct Ho as (_ & ? & _ & _ & _ & ? & ? & ?). set (c0 := initial_core _ _ _ _ _ _ _).
  assert (wp (recalcConfig;; resetElectionTimer) (λ o c', o = Ok () → recovered d c' ∧ disk c' = d') c0) as Hrun.
  { apply wp_bind, wp_modify. cbn [wpk]. apply wp_resetElectionTimer; [done|]. intros n _. split; [|done]. split_and!; try done. by exists t, v, sn, l. }
  unfold wp in Hrun. destruct ((recalcConfig;; resetElectionTimer) c0) as [[[]|e| |] c]; cbn [fst snd] in Hrun; (split; [done|]); try done.
  intros ? [= <-]. by apply Hrun.
Qed.

Lemma NewNode_recovers conf Cfg s compactAt peers (d : D) :
  d_wf d → match NewNode (S := S) conf Cfg s compactAt peers d with (o, d') =>
    (d_wf d' ∧ within d' d) ∧ ∀ n, o = Ok n → recovered d (nc n) ∧ ∀ ch, forgets ch n end.
Proof.
  intros Hw. pose proof (newCore_recovers conf Cfg d Hw) as Hcore. unfold NewNode.
  destruct (newCore conf Cfg d) as [[c|e| |] d1]; [|by destruct Hcore..]. destruct Hcore as [Hin Hc]. destruct (Hc c eq_refl) as [Hrec Hdisk].
  set (n0 := node_of c s compactAt peers).
  match goal with |- context [match ?m n0 with _ => _ end] => set (start := m) end.
  set (ok := λ n : Node D S, nc n = c <| pendingRestore := [] |> ∧ readWaiters n = ∅ ∧ appliedWaiters n = []).
  assert (wp start (λ o n, ok n) n0) as Hwp.
  { assert (∀ n1, ok n1 → wp (syncTransportConfig;; publishStatus) (λ o n, ok n) n1) as Hfin.
    { intros n1 (? & ? & ?). apply wp_bind. unfold syncTransportConfig. apply wp_bind, wp_get. cbn [wpk].
      destruct (transportPeers n1); [case_match|]; repeat (first [apply wp_ret|apply wp_modify]; cbn [wpk]); done. }
    unfold start. apply wp_bind. unfold takeRestore. apply wp_zoom, wp_bind, wp_get, wp_bind, wp_modify, wp_ret. cbn [wpk].
    apply wp_bind. case_bool_decide; [by apply wp_ret, Hfin|]. apply wp_bind, wp_get. cbn [wpk].
    destruct (smRestore _ _) as [s1|e| |]; [|done..]. apply wp_modify. by apply Hfin. }
  unfold wp in Hwp. destruct (start n0) as [[[]|e| |] n1]; cbn [fst snd] in Hwp; destruct Hwp as (E1 & E2 & E3);
    [|rewrite E1; cbn; rewrite Hdisk; by split..].
  split; [done|]. intros n [= <-]. rewrite E1. split; [done|]. intros ch. split; [by rewrite E2|]. rewrite E3. by intros x ?%elem_of_nil.
Qed.
End boot.
