(* ===== verification/StateSafety.v ===== *)
(** * State Machine Safety

    The cluster of Cluster.v refines RaftSpec: in every reachable world the nodes,
    their disks and every message in the network are related to one state of the
    specification.  Its invariant then gives Log Matching, Leader Completeness and
    State Machine Safety for the code, for clusters of a fixed membership whose
    machines come up with durable disks. *)

From stdpp Require Import prelude gmap strings sorting.
From S2P Require Import Prelude GoRuntime GoBytes RaftTypes Membership RaftLaws Core CoreVotes RaftSpec CoreLog.
From S2P Require Import CoreRefine CoreSteps CoreElections CoreReplicate CoreSnapshot Node Cluster NodeRefine.
Open Scope Z_scope.

Section worlds.
Context {D S : Type} `{RaftDiskLaws D} `{GoRuntime} `{StateMachineLaws S}.
Context (Cfg : Members) (conf : Z → Config) (s0 : S) (compactAt : Z) (peers : option Members).

Abbreviation W := (world D S).

(** A machine comes up: what its disk shows is durable.  (A process that is
    killed and started again may read what is not.) *)
Definition machine_up (d d' : D) : Prop := reboot d d' ∧ settled d'.

(** Terms and indices are short of the end of the 64-bit range, and no running
    node's commit index is behind what it has delivered. *)
Definition sane (w : W) : Prop :=
  terms_bounded w ∧
  ∀ i n, nodes w !! i = Some (Up n) →
    lastLogIndex (nc n) < 2 ^ 64 - 2 ∧ lastDelivered (nc n) ≤ commitIndex (nc n).

Definition sane_step (w w' : W) : Prop := step_on Cfg conf s0 compactAt peers machine_up w w' ∧ sane w'.
Definition sane_steps : relation W := rtc sane_step.
End worlds.

Section refine.
Context {D S : Type} `{RaftDiskLaws D} `{GoRuntime} `{StateMachineLaws S}.
Context (Cfg : Members) (conf : Z → Config) (s0 : S) (compactAt : Z) (peers : option Members).
Context (Cfg_wf : members_wf Cfg) (Cfg_rt : decodeMembers (encodeMembers Cfg) = Ok Cfg)
  (conf_ids : ∀ i, i ∈ dom Cfg → ID (conf i) = i).

Abbreviation W := (world D S).
Abbreviation out_rel := (out_rel Cfg (snap_of s0)).
Abbreviation ainv := (ainv Cfg).
Abbreviation asteps := (asteps Cfg).
Abbreviation committed_in := (committed_in Cfg).

(** ** Worlds and the specification *)

Definition node_rel (A : abs) (i : Z) (st : nstate D S) : Prop :=
  match st with
  | Up n => ∃ F, nrel Cfg s0 i A F n
  | Down d => dead Cfg (snap_of s0) i A d
  end.

Definition packet_rel (A : abs) (p : packet) : Prop :=
  match p with
  | PReq from o => out_rel A from o
  | PVoteResp v _ req resp =>
      rvr_voteGranted resp = true → rv_preVote req = false →
      ∃ l, (v, rv_term req, rv_candidateId req, l) ∈ a_votes A
  | PAppendResp v c req resp =>
      v ∈ dom Cfg ∧ v ≠ c ∧ 0 ≤ aer_conflictIndex resp ∧
      (aer_success resp = true → 0 ≤ ae_prevLogIndex req ∧
       acked A v (ae_term req) (ae_prevLogIndex req + zlength (ae_entries req)))
  | PSnapResp v c req resp =>
      v ≠ c ∧
      (isr_term resp ≤ is_term req → 0 ≤ is_lastIncludedIndex req ∧
       acked A v (is_term req) (is_lastIncludedIndex req))
  end.

Record wrel (w : W) (A : abs) : Prop := {
  wr_inv : ainv A;
  wr_nodes : ∀ i st, nodes w !! i = Some st → node_rel A i st;
  wr_packets : ∀ p, p ∈ sent w → packet_rel A p
}.

Lemma packet_rel_grow A A' p : grows A A' → packet_rel A p → packet_rel A' p.
Proof.
  intros Hg. destruct p as [from o|v c req resp|v c req resp|v c req resp]; cbn.
  - by apply out_rel_grow.
  - intros Hr Hgr Hp. destruct (Hr Hgr Hp) as [l ?]. exists l. by apply (gr_votes _ _ Hg).
  - intros (? & ? & ? & Hr). split_and!; try done. intros Hs. destruct (Hr Hs).
    split; [done|eapply acked_grow; [exact Hg|done]].
  - intros (? & Hr). split; [done|]. intros Hle. destruct (Hr Hle). split; [done|eapply acked_grow; [exact Hg|done]].
Qed.

(** The steps of one node leave the others related. *)
Lemma node_rel_others A A' i j st :
  ainv A → asteps i A A' → j ≠ i → node_rel A j st → node_rel A' j st.
Proof.
  intros Hi Hs Hj Hn. destruct (asteps_spec _ _ _ _ Hi Hs) as (_ & Hg & Ho). destruct (Ho j Hj) as [Hsame Hlead].
  destruct st as [n|d]; cbn in *; [|by apply (dead_grow _ _ _ A)].
  destruct Hn as (F & [Hr ? ? ?]). exists F. split; try done. apply (rel_grow _ _ _ A); try done.
  intros Hl. pose proof (r_node Hr) as Hnode. rewrite Hl in Hnode. by apply Hlead in Hnode.
Qed.

(** The world after a run of node [i]. *)
Lemma wrel_ran w A A' i st out bs es :
  wrel w A → asteps i A A' → node_rel A' i st → (∀ p, p ∈ out → packet_rel A' p) →
  wrel (mkWorld (<[i := st]> (nodes w)) (sent w ++ out) bs es) A'.
Proof.
  intros [Hi Hn Hp] Hs Hst Hout. destruct (asteps_spec _ _ _ _ Hi Hs) as (Hi' & Hg & _). split; cbn; [done|..].
  - intros j st' [[-> ->]|[Hj Hl]]%nodes_insert_inv; [done|]. eapply node_rel_others; [exact Hi|done..|by apply Hn].
  - intros p [Hin|Hin]%elem_of_app; [|by apply Hout]. eapply packet_rel_grow; [exact Hg|by apply Hp].
Qed.

(** ** Events *)

Lemma delivers_rel w A i n ev resp :
  winv Cfg w → wrel w A → nodes w !! i = Some (Up n) → delivers (sent w) i ev resp → ev_rel Cfg s0 i A ev.
Proof.
  intros Hw [_ _ Hp] Hi Hdel. pose proof (delivers_ok Cfg Cfg_wf w i n ev resp Hw Hi Hdel) as Hok.
  destruct Hdel as [|from req ch Hin|from req ch Hin|from req ch Hin|from req ch Hin|from req resp Hin
    |from req resp Hin|from req resp Hin|cmd dn ch Hc| |]; cbn in Hok |- *; try done;
    pose proof (Hp _ Hin) as Hpk; pose proof (w_packets _ _ Hw _ Hin) as Hpo; cbn in Hpk, Hpo.
  - destruct Hok as [? ?]. destruct Hpo as (_ & Hf0 & Hc & _). split_and!; try done; [by rewrite Hc|]. by exists from, i.
  - destruct Hok as [? _]. split; [done|]. by exists from, i.
  - destruct Hok as (? & _). split; [done|]. by exists from, i.
  - destruct Hok as (? & ? & _). destruct Hpo as (_ & _ & Hc & _). split_and!; try done.
    intros Hg Hpre. destruct (Hpk Hg Hpre) as [l Hl]. exists l. by rewrite Hc in Hl.
  - destruct Hpk as (? & ? & ? & ?). done.
  - destruct Hpk as (? & ?). done.
Qed.

Lemma responses_rel w A A' i n ev resp (n' : Node D S) p :
  winv Cfg w → wrel w A → nodes w !! i = Some (Up n) → delivers (sent w) i ev resp → grows A A' →
  Forall (λ r, resp_rel i A' ev r.2) (replies n') →
  p ∈ omap (resp ∘ snd) (replies n') → packet_rel A' p.
Proof.
  intros Hw [_ _ Hp] Hi Hdel Hg Hr Hin. apply list_elem_of_omap in Hin as ([ch r] & Hin & Hrp). cbn in Hrp.
  rewrite Forall_forall in Hr. specialize (Hr _ Hin). cbn in Hr. pose proof (w_dom _ _ Hw _ _ Hi) as Hdom.
  destruct Hdel as [|from req ch' Hpk|from req ch' Hpk|from req ch' Hpk| | | | | | |]; try done.
  - destruct r as [[rs|]| | | | | | |]; try done. by injection Hrp as <-.
  - destruct r as [|[rs|]| | | | | |]; try done. injection Hrp as <-. apply Hp in Hpk as (? & _). by destruct Hr.
  - destruct r as [| |[rs|]| | | | |]; try done. injection Hrp as <-. by apply Hp in Hpk as (? & _).
Qed.
(** ** Steps *)

Lemma up_id (w : W) i n : winv Cfg w → nodes w !! i = Some (Up n) → i ≠ noVote ∧ is_u64 i ∧ i ∈ dom Cfg.
Proof.
  intros Hw Hi. pose proof (w_dom _ _ Hw _ _ Hi) as Hdom. destruct (w_up _ _ Hw _ _ Hi) as ([Hn _] & <- & _).
  split; [apply Hn|]. split; [|apply Hn]. apply Hn.
Qed.

Lemma sane_step_rel w w' A :
  winv Cfg w → sane w → wrel w A → sane_step Cfg conf s0 compactAt peers w w' →
  ∃ A', wrel w' A' ∧ grows A A'.
Proof.
  intros Hw [Hb Hsane] Hr [Hstep _].
  destruct Hstep as [i n ev resp o n' Hi Hdel Hrun|i n Hi|i d d' o d'' Hi [Hre Hset] Hnew].
  - destruct (up_id w i n Hw Hi) as (Hi0 & Hiu & Him). destruct (Hsane i n Hi) as [Hlog Hst].
    pose proof (wr_nodes _ _ Hr _ _ Hi) as (F & Hn).
    assert (handle_rel Cfg s0 i A ev o n') as (A' & Hs & Hrs & Ho).
    { eapply wp_elim; [|exact Hrun]. apply (handle_steps Cfg Cfg_wf Cfg_rt s0 i Hi0 Hiu Him A F); try done.
      - apply Hr.
      - destruct Hn. by split.
      - exact (Hb i n Hi).
      - by eapply delivers_rel. }
    destruct (asteps_spec _ _ _ _ (wr_inv _ _ Hr) Hs) as (_ & Hg & _). exists A'. split; [|done].
    assert (o = Ok () ∨ net n' = []) as Hnet.
    { destruct (w_up _ _ Hw _ _ Hi) as (Hnn & Hid & _).
      assert (handle_post Cfg (λ v t i, (v, t, i) ∈ ballots w) ev (n <| replies := [] |> <| net := [] |>) o n') as (_ & _ & _ & ? & _); [|done].
      eapply wp_elim; [|exact Hrun]. apply (handle_spec Cfg Cfg_wf Cfg_rt); try done; [exact (delivers_ok Cfg Cfg_wf w i n ev resp Hw Hi Hdel)|exact (Hb i n Hi)]. }
    rewrite ran_eq. cbv zeta. apply (wrel_ran w A); try done.
    + destruct o as [[]|e| |]; cbn; [by destruct Ho as [? _]|done..].
    + intros p [Hp|Hp]%elem_of_app; [|by eapply responses_rel].
      apply list_elem_of_fmap in Hp as (x & -> & Hx). cbn. destruct o as [[]|e| |];
        [destruct Ho as [_ Hout]; rewrite Forall_forall in Hout; by apply Hout|..];
        destruct Hnet as [|Hnil]; try done; rewrite Hnil in Hx; by apply elem_of_nil in Hx.
  - pose proof (wr_nodes _ _ Hr _ _ Hi) as (F & Hn).
    destruct (rel_dead _ _ _ _ _ _ (n_rel _ _ _ _ _ _ Hn)) as (A' & Hs & Hd).
    destruct (asteps_spec _ _ _ _ (wr_inv _ _ Hr) Hs) as (_ & Hg & _). exists A'. split; [|done].
    rewrite <-(app_nil_r (sent w)). apply (wrel_ran w A); try done. intros p Hp. by apply elem_of_nil in Hp.
  - pose proof (wr_nodes _ _ Hr _ _ Hi) as Hd. pose proof (w_dom _ _ Hw _ _ Hi) as Hdom. cbn in Hd.
    apply (reboot_dead _ _ _ A d d') in Hd; [|done].
    pose proof (NewNode_steps Cfg s0 i (conf i) compactAt peers A d' (wr_inv _ _ Hr) Hd (conf_ids i Hdom) Hset) as Hboot.
    rewrite Hnew in Hboot.
    assert (∃ A', asteps i A A' ∧ node_rel A' i (match o with Ok n => Up n | _ => Down d'' end)) as (A' & Hs & Hst).
    { destruct o as [n|e| |]; [destruct Hboot as (A' & F & Hs & Hn); exists A'; split; [done|by exists F]|..];
        exists A; (split; [apply rtc_refl|done]). }
    destruct (asteps_spec _ _ _ _ (wr_inv _ _ Hr) Hs) as (_ & Hg & _). exists A'. split; [|done].
    rewrite <-(app_nil_r (sent w)). apply (wrel_ran w A); try done. intros p Hp. by apply elem_of_nil in Hp.
Qed.
(** ** Reachable worlds *)

Lemma sane_step_step w w' : sane_step Cfg conf s0 compactAt peers w w' → step Cfg conf s0 compactAt peers w w'.
Proof.
  intros [Hs _]. eapply step_on_mono; [|exact Hs]. by intros d d' [? _].
Qed.

Lemma sane_initial (w : W) : initial Cfg w → sane w.
Proof.
  intros (_ & _ & _ & _ & Hd). split.
  - intros i n Hi. by destruct (Hd _ _ Hi) as (d & ? & _).
  - intros i n Hi. by destruct (Hd _ _ Hi) as (d & ? & _).
Qed.

Lemma initial_wrel w : initial Cfg w → ∃ A, wrel w A.
Proof.
  intros (_ & Hsent & _ & _ & Hd). exists (mkAbs ((λ _, Dead (λ a, a = mkA 0 noVote [])) <$> nodes w) [] [] ∅ []).
  assert (ainitial (mkAbs ((λ _, Dead (λ a, a = mkA 0 noVote [])) <$> nodes w) [] [] ∅ [])) as Ha.
  { split; [|done]. cbn. intros i st. rewrite lookup_fmap. destruct (nodes w !! i); [|done]. by intros [= <-]. }
  split; [by apply ainitial_inv| |].
  - intros i st Hi. destruct (Hd _ _ Hi) as (d & -> & Hwf & Hst & Hl & Hs). eexists. split.
    { cbn. rewrite lookup_fmap, Hi. done. }
    split; [done|]. intros t v s l Hms Hss Hll _. destruct (Hst _ _ Hms) as [-> ->].
    rewrite (Hs _ Hss), (Hl _ Hll). exists []. split; [done|]. split; [|done].
    split_and!; cbn; try done. by left.
  - rewrite Hsent. intros p Hp. by apply elem_of_nil in Hp.
Qed.

Lemma sane_steps_rel w w' A :
  winv Cfg w → sane w → wrel w A → sane_steps Cfg conf s0 compactAt peers w w' →
  reachable Cfg conf s0 compactAt peers w →
  winv Cfg w' ∧ sane w' ∧ reachable Cfg conf s0 compactAt peers w' ∧ ∃ A', wrel w' A' ∧ grows A A'.
Proof.
  intros Hw Hs Hr Hst Hre. revert A Hr. induction Hst as [w|w w1 w' Hstep _ IH]; intros A Hr.
  { split_and!; try done. exists A. split; [done|apply grows_refl]. }
  destruct (sane_step_rel w w1 A Hw Hs Hr Hstep) as (A1 & Hr1 & Hg1). pose proof Hstep as [_ Hs1].
  assert (reachable Cfg conf s0 compactAt peers w1) as Hre1.
  { eapply reachable_step; [exact Hre|by apply sane_step_step|apply Hs1]. }
  destruct (IH (reachable_winv Cfg conf s0 compactAt peers Cfg_wf Cfg_rt conf_ids w1 Hre1) Hs1 Hre1 A1 Hr1)
    as (? & ? & ? & A' & ? & ?). split_and!; try done. exists A'. split; [done|by eapply grows_trans].
Qed.

(** What a run of the cluster is, for the specification. *)
Lemma runs_refine w0 w w' :
  initial Cfg w0 → sane_steps Cfg conf s0 compactAt peers w0 w → sane_steps Cfg conf s0 compactAt peers w w' →
  ∃ A A', wrel w A ∧ wrel w' A' ∧ grows A A'.
Proof.
  intros H0' Hs1 Hs2. destruct (initial_wrel w0 H0') as (A0 & Hr0).
  destruct (sane_steps_rel w0 w A0) as (Hw & Hs & Hre & A & Hr & _); try done;
    [by apply initial_winv|by apply sane_initial|by apply reachable_initial|].
  destruct (sane_steps_rel w w' A) as (_ & _ & _ & A' & ? & ?); try done. by exists A, A'.
Qed.

(** ** What the nodes have applied *)

(** The state of a node that runs: the log it has applied, which is committed. *)
Lemma applied_log w A i n :
  wrel w A → nodes w !! i = Some (Up n) →
  ∃ p, committed_in A (term (nc n)) p ∧ zlength p = applied n ∧ sm n = replay s0 p.
Proof.
  intros Hr Hi. destruct (wr_nodes _ _ Hr _ _ Hi) as (F & [Hn Hq Ha Hs]). exists (ztake (applied n) F).
  destruct (r_deliv Hn) as [Hd Hc]. pose proof (sh_snap _ _ _ _ (r_shape Hn)). rewrite Ha in *. split_and!; try done.
  unfold ztake. rewrite length_take. lia.
Qed.

(** Committed prefixes are prefixes of one log. *)
Lemma common_log A (ps : list (list Entry)) :
  ainv A → Forall (λ p, ∃ T, committed_in A T p) ps →
  ∃ log, (∃ T, committed_in A T log) ∧ Forall (λ p, p `prefix_of` log) ps.
Proof.
  intros Hi Hps. induction Hps as [|p ps [T Hp] _ (log & [T' Hlog] & IH)].
  { exists []. split; [exists 0; by left|done]. }
  destruct (decide (length p ≤ length log)%nat) as [Hle|Hgt].
  - exists log. split; [by exists T'|]. constructor; [by apply (committed_agree Cfg A T T')|done].
  - assert (log `prefix_of` p) as Hlp by (apply (committed_agree Cfg A T' T); try done; lia).
    exists p. split; [by exists T|]. constructor; [done|]. eapply Forall_impl; [exact IH|]. intros q Hq. cbv beta in *. by transitivity log.
Qed.
(** The nodes of a list of worlds that are all related to [A]. *)
Lemma worlds_log A (ws : list W) :
  Forall (λ w, ∃ A', wrel w A' ∧ grows A' A) ws → ainv A →
  ∃ log, (∃ T, committed_in A T log) ∧ ∀ w i n, w ∈ ws → nodes w !! i = Some (Up n) →
    ∃ p, committed_in A (term (nc n)) p ∧ p `prefix_of` log ∧ zlength p = applied n ∧ sm n = replay s0 p.
Proof.
  intros Hws Hi.
  set (states := ws ≫= λ w, omap (λ st, match st with Up n => Some n | Down _ => None end) ((map_to_list (nodes w)).*2)).
  assert (∀ n, n ∈ states → ∃ p, committed_in A (term (nc n)) p ∧ zlength p = applied n ∧ sm n = replay s0 p) as Hst.
  { intros n (w & Hn & Hw)%list_elem_of_bind. apply list_elem_of_omap in Hn as (st & Hin & Hst).
    apply list_elem_of_fmap in Hin as ([i st'] & -> & Hin). apply elem_of_map_to_list in Hin. cbn in Hst.
    destruct st' as [m|]; [|done]. injection Hst as ->. rewrite Forall_forall in Hws.
    destruct (Hws w Hw) as (A' & Hr & Hg). destruct (applied_log w A' i n Hr Hin) as (p & ? & ? & ?).
    exists p. split_and!; try done. by eapply committed_in_grow. }
  apply Forall_forall in Hst. apply (Forall_exists_Forall2_l (λ n p, committed_in A (term (nc n)) p ∧
    zlength p = applied n ∧ sm n = replay s0 p)) in Hst as (ps & Hps).
  destruct (common_log A ps Hi) as (log & Hlog & Hpre).
  { apply Forall_forall. intros p Hp. apply list_elem_of_lookup in Hp as [k Hk].
    destruct (Forall2_lookup_r _ _ _ _ _ Hps Hk) as (n & _ & ? & _). eauto. }
  exists log. split; [done|]. intros w i n Hw Hn.
  assert (n ∈ states) as Hin.
  { apply list_elem_of_bind. exists w. split; [|done]. apply list_elem_of_omap. exists (Up n). split; [|done].
    apply list_elem_of_fmap. exists (i, Up n). split; [done|]. by apply elem_of_map_to_list. }
  apply list_elem_of_lookup in Hin as [k Hk]. destruct (Forall2_lookup_l _ _ _ _ _ Hps Hk) as (p & Hp & ? & ? & ?).
  exists p. split_and!; try done. rewrite Forall_forall in Hpre. apply Hpre. by eapply list_elem_of_lookup_2.
Qed.

(** An entry of a core's log, at its place in the whole log. *)
Lemma entry_place F (c : core D) e : shape F c → e ∈ entries c → 0 < Index e ∧ F !! Z.to_nat (Index e - 1) = Some e.
Proof.
  intros [Hwf Hs He _] Hin. rewrite He in Hin. apply list_elem_of_lookup in Hin as [k Hk]. unfold zdrop in Hk.
  rewrite lookup_drop in Hk. destruct (Hwf _ _ Hk) as [-> _]. split; [lia|].
  rewrite <-Hk. f_equal. lia.
Qed.
End refine.

(** ** The theorems *)

(** C1: State Machine Safety.  Take a cluster of a fixed membership, at any moment
    of a run and at any later one: messages lost, delayed, duplicated and
    reordered, nodes stopped at any system call and booted again.  There is one log
    such that the state machine of every running node, at either moment, is what
    replaying that log from the start, up to the index the node has applied, gives:
    no two nodes ever apply different entries at the same index, snapshots taken,
    sent and installed included.  The run is one in which machines come up with
    durable disks, terms and indices stay below the end of the 64-bit range, and no
    node's commit index is set below what it has delivered. *)
Theorem state_machine_safety {D S} `{RaftDiskLaws D} `{GoRuntime} `{StateMachineLaws S}
    (Cfg : Members) (conf : Z → Config) (s0 : S) compactAt peers (w0 w w' : world D S) :
  members_wf Cfg → (∀ k, k ∈ dom Cfg → ID (conf k) = k) → initial Cfg w0 →
  sane_steps Cfg conf s0 compactAt peers w0 w → sane_steps Cfg conf s0 compactAt peers w w' →
  ∃ log, ∀ i n, nodes w !! i = Some (Up n) ∨ nodes w' !! i = Some (Up n) →
    applied n ≤ zlength log ∧ sm n = replay s0 (ztake (applied n) log).
Proof.
  intros Hwf Hids H0' Hs1 Hs2.
  destruct (runs_refine Cfg conf s0 compactAt peers Hwf (decodeMembers_encode Cfg Hwf) Hids w0 w w' H0' Hs1 Hs2)
    as (A & A' & Hr & Hr' & Hg).
  destruct (worlds_log Cfg s0 A' [w; w']) as (log & _ & Hlog).
  { repeat constructor; [by exists A|exists A'; split; [done|apply grows_refl]]. }
  { apply Hr'. }
  exists log. intros i n Hn. assert (∃ x, x ∈ [w; w'] ∧ nodes x !! i = Some (Up n)) as (x & Hx & Hn').
  { destruct Hn; [exists w|exists w']; set_solver. }
  destruct (Hlog x i n Hx Hn') as (p & _ & Hp & <- & ->). apply prefix_length in Hp as Hle. split; [lia|].
  f_equal. unfold ztake. rewrite Nat2Z.id. destruct Hp as [k ->]. by rewrite take_app_length.
Qed.

(** C3: Leader Completeness.  In a run of a cluster of a fixed membership, every entry
    that a node has applied is in the log of every later leader: a node that leads,
    then or later, a term no smaller than that of the node holds everything through
    the index the node has applied, and what it has not compacted of it is the
    applied log itself.  The run is one in which machines come up with durable disks,
    terms and indices stay below the end of the 64-bit range, and no node's commit
    index is set below what it has delivered. *)
Theorem leader_completeness {D S} `{RaftDiskLaws D} `{GoRuntime} `{StateMachineLaws S}
    (Cfg : Members) (conf : Z → Config) (s0 : S) compactAt peers (w0 w w' : world D S) i n j m :
  members_wf Cfg → (∀ k, k ∈ dom Cfg → ID (conf k) = k) → initial Cfg w0 →
  sane_steps Cfg conf s0 compactAt peers w0 w → sane_steps Cfg conf s0 compactAt peers w w' →
  nodes w !! i = Some (Up n) → nodes w' !! j = Some (Up m) → role (nc m) = leader → term (nc n) ≤ term (nc m) →
  ∃ log, zlength log = applied n ∧ sm n = replay s0 log ∧ applied n ≤ lastLogIndex (nc m) ∧
    ∀ e, e ∈ entries (nc m) → Index e ≤ applied n → log !! Z.to_nat (Index e - 1) = Some e.
Proof.
  intros Hwf Hids H0' Hs1 Hs2 Hn Hm Hl Ht.
  destruct (runs_refine Cfg conf s0 compactAt peers Hwf (decodeMembers_encode Cfg Hwf) Hids w0 w w' H0' Hs1 Hs2)
    as (A & A' & Hr & Hr' & Hg).
  destruct (applied_log Cfg s0 w A i n Hr Hn) as (p & Hp & Hlen & Hsm).
  destruct (wr_nodes _ _ _ _ Hr' _ _ Hm) as (F & [Hrm _ _ _]). destruct (r_lead Hrm Hl) as ((ld & Hld & Hlog) & _).
  assert (p `prefix_of` F) as Hpre.
  { rewrite <-Hlog. apply (committed_in_leader Cfg A' (term (nc n)) p (term (nc m))); try done; [apply Hr'|].
    by eapply committed_in_grow. }
  exists p. split_and!; try done.
  - rewrite (shape_lastLogIndex F), <-Hlen by apply Hrm. apply prefix_length in Hpre. lia.
  - intros e He Hle. destruct (entry_place F _ e (r_shape Hrm) He) as [Hpos HF].
    destruct (lookup_lt_is_Some_2 p (Z.to_nat (Index e - 1))) as [x Hx]; [lia|].
    rewrite Hx. eapply prefix_lookup_1 in Hx; [|exact Hpre]. congruence.
Qed.

(** C5: Log Matching.  In a run of a cluster of a fixed membership, if the logs of two
    running nodes hold entries with the same index and term, then they agree on every
    index up to it that both still hold.  The run is one in which machines come up
    with durable disks, terms and indices stay below the end of the 64-bit range, and
    no node's commit index is set below what it has delivered. *)
Theorem log_matching {D S} `{RaftDiskLaws D} `{GoRuntime} `{StateMachineLaws S}
    (Cfg : Members) (conf : Z → Config) (s0 : S) compactAt peers (w0 w : world D S) i n j m e e' x y :
  members_wf Cfg → (∀ k, k ∈ dom Cfg → ID (conf k) = k) → initial Cfg w0 →
  sane_steps Cfg conf s0 compactAt peers w0 w →
  nodes w !! i = Some (Up n) → nodes w !! j = Some (Up m) →
  e ∈ entries (nc n) → e' ∈ entries (nc m) → Index e = Index e' → Term e = Term e' →
  x ∈ entries (nc n) → y ∈ entries (nc m) → Index x = Index y → Index x ≤ Index e → x = y.
Proof.
  intros Hwf Hids H0' Hs Hn Hm He He' Hidx Hterm Hx Hy Hxy Hle.
  destruct (runs_refine Cfg conf s0 compactAt peers Hwf (decodeMembers_encode Cfg Hwf) Hids w0 w w H0' Hs) as (A & _ & Hr & _ & _);
    [apply rtc_refl|].
  destruct (wr_nodes _ _ _ _ Hr _ _ Hn) as (F & [Hrn _ _ _]). destruct (wr_nodes _ _ _ _ Hr _ _ Hm) as (G & [Hrm _ _ _]).
  pose proof (wr_inv _ _ _ _ Hr) as Hi.
  assert (log_ok A F) as HF by (apply (ai_view _ _ Hi i (mkA (term (nc n)) (votedFor (nc n)) F)); unfold view; by rewrite (r_node Hrn)).
  assert (log_ok A G) as HG by (apply (ai_view _ _ Hi j (mkA (term (nc m)) (votedFor (nc m)) G)); unfold view; by rewrite (r_node Hrm)).
  destruct (entry_place F _ e (r_shape Hrn) He) as [Hpe HeF]. destruct (entry_place G _ e' (r_shape Hrm) He') as [Hpe' HeG].
  destruct (entry_place F _ x (r_shape Hrn) Hx) as [Hpx HxF]. destruct (entry_place G _ y (r_shape Hrm) Hy) as [Hpy HyG].
  rewrite <-Hidx in HeG. rewrite <-Hxy in HyG.
  set (k := Z.to_nat (Index e - 1)) in *. destruct (HF k e HeF) as (ld & Hld & Hp). destruct (HG k e' HeG) as (ld' & Hld' & Hp').
  rewrite Hterm in Hld. assert (ld' = ld) as -> by congruence.
  assert (Z.to_nat (Index x - 1) < Datatypes.S k)%nat as Hlt by lia.
  apply (prefix_lookup_1 _ _ (Z.to_nat (Index x - 1)) x) in Hp; [|by rewrite lookup_take_lt].
  apply (prefix_lookup_1 _ _ (Z.to_nat (Index x - 1)) y) in Hp'; [|by rewrite lookup_take_lt]. congruence.
Qed.
