(* ===== verification/ReadSafety.v ===== *)
(** * Linearizable reads

    readindex.go answers a read barrier with the commit index its leader had when
    the barrier was requested, once a majority has answered messages sent after that.
    The theorem: in every run of a cluster of fixed membership, everything that any
    node had ever applied before the request is covered by the index, and applied on
    the node that answers.  It rests on two invariants of the runs: what any node
    believes committed was committed by a leader that is no longer leading or knows
    it ([known]); and an answer that counts for the barrier was given by a node that
    had not voted in a later term when the barrier was requested. *)

From stdpp Require Import prelude gmap strings sorting.
From S2P Require Import Prelude GoRuntime GoBytes RaftTypes Membership RaftLaws Core CoreVotes RaftSpec CoreLog.
From S2P Require Import CoreRefine CoreSteps CoreElections CoreReplicate CoreSnapshot CoreReads Node Cluster NodeRefine.
From S2P Require Import NodeReads StateSafety.
Open Scope Z_scope.

(** ** Runs with their events *)

(** An event that node [i] handled, with its outcome and the node after it; or a
    node that stopped or booted. *)
Inductive label (D S : Type) := Ran (i : Z) (ev : event) (o : outcome ()) (n : Node D S) | Other.
Arguments Ran {D S}.
Arguments Other {D S}.

Section runs.
Context {D S : Type} `{RaftDiskLaws D} `{GoRuntime} `{StateMachineLaws S}.
Context (Cfg : Members) (conf : Z → Config) (s0 : S) (compactAt : Z) (peers : option Members).

Abbreviation W := (world D S).

Inductive lstep (w : W) : label D S → W → Prop :=
  | lstep_event i n ev resp o n' :
      nodes w !! i = Some (Up n) → delivers (sent w) i ev resp →
      handle ev (n <| replies := [] |> <| net := [] |>) = (o, n') →
      lstep w (Ran i ev o n') (ran w i o n' ((PReq i <$> net n') ++ omap (resp ∘ snd) (replies n')))
  | lstep_stop i n :
      nodes w !! i = Some (Up n) →
      lstep w Other (mkWorld (<[i := Down (disk (nc n))]> (nodes w)) (sent w) (ballots w) (elected w))
  | lstep_boot i d d' o d'' :
      nodes w !! i = Some (Down d) → machine_up d d' →
      NewNode (conf i) Cfg s0 compactAt peers d' = (o, d'') →
      lstep w Other (mkWorld (<[i := match o with Ok n => Up n | _ => Down d'' end]> (nodes w))
                (sent w) (ballots w) (elected w)).

(** Besides [sane]: the counters of messages and barriers have room. *)
Definition roomy (w : W) : Prop :=
  sane w ∧ ∀ i n, nodes w !! i = Some (Up n) → has_room Cfg (nc n).

Inductive runs : W → list (label D S) → W → Prop :=
  | runs_nil w : runs w [] w
  | runs_cons w l w1 ls w' : lstep w l w1 → roomy w1 → runs w1 ls w' → runs w (l :: ls) w'.

Lemma lstep_step w l w' : lstep w l w' → step_on Cfg conf s0 compactAt peers machine_up w w'.
Proof. intros []; [by eapply step_event|by eapply step_stop|by eapply step_boot]. Qed.

Lemma runs_steps w ls w' : runs w ls w' → sane_steps Cfg conf s0 compactAt peers w w'.
Proof.
  induction 1 as [|w l w1 ls w' Hl [Hs _] _ IH]; [apply rtc_refl|]. eapply rtc_l; [|done]. split; [by eapply lstep_step|done].
Qed.

Lemma runs_app w ls w1 ls' w' : runs w ls w1 → runs w1 ls' w' → runs w (ls ++ ls') w'.
Proof. induction 1; [done|]. intros. econstructor; eauto. Qed.

Lemma runs_snoc w ls l w' : runs w (ls ++ [l]) w' → ∃ w1, runs w ls w1 ∧ lstep w1 l w' ∧ roomy w'.
Proof.
  revert w. induction ls as [|x ls IH]; cbn; intros w Hr; inversion Hr as [|? ? w1 ? ? Hl Hs Hrest]; subst.
  - inversion Hrest; subst. exists w. split; [constructor|done].
  - destruct (IH _ Hrest) as (w2 & ? & ? & ?). exists w2. split; [by econstructor|done].
Qed.
End runs.

(** ** What is known to be committed *)

Section known.
Context {D S : Type} `{RaftDiskLaws D} `{GoRuntime} `{StateMachineLaws S}.
Context (Cfg : Members) (conf : Z → Config) (s0 : S) (compactAt : Z) (peers : option Members).
Context (Cfg_wf : members_wf Cfg) (Cfg_rt : decodeMembers (encodeMembers Cfg) = Ok Cfg)
  (conf_ids : ∀ i, i ∈ dom Cfg → ID (conf i) = i).

Abbreviation W := (world D S).
Abbreviation ainv := (ainv Cfg).
Abbreviation committed_in := (committed_in Cfg).
Abbreviation wrel := (wrel Cfg s0).

(** A leader of some term committed [m]; if it still leads, it knows. *)
Definition known (w : W) (A : abs) (m : Z) : Prop :=
  m ≤ 0 ∨ ∃ t p, committed_in A t p ∧ m ≤ zlength p ∧ is_Some (a_leads A !! t) ∧
    ∀ l nl, nodes w !! l = Some (Up nl) → role (nc nl) = leader → term (nc nl) = t → m ≤ commitIndex (nc nl).

Definition led (A : abs) (t j : Z) : Prop := ∃ ld, a_leads A !! t = Some ld ∧ ld_id ld = j.

Definition sent_ok (w : W) (A : abs) (from : Z) (o : outbound) : Prop :=
  match o with
  | OutRequestVote _ _ => True
  | OutAppendEntries _ req => led A (ae_term req) from ∧ known w A (ae_leaderCommit req)
  | OutInstallSnapshot _ req => led A (is_term req) from ∧ known w A (is_lastIncludedIndex req)
  | OutTimeoutNow to req => led A (tn_term req) from ∧ to ≠ from
  end.

(** No barrier is followed. *)
Abbreviation idle := (reads_ok Cfg (-1) 0 0 (-1) (λ _, False)).

Record rwrel (w : W) (A : abs) : Prop := {
  rw_up : ∀ j n, nodes w !! j = Some (Up n) → known w A (commitIndex (nc n)) ∧ idle (nc n) ∧
    readOutcomes (nc n) = [] ∧ outbox (nc n) = [];
  rw_down : ∀ j d t v sn l, nodes w !! j = Some (Down d) → may_state d t v → may_snap d sn → may_log d l →
    starts_at (u64 (lastIndex sn + 1)) l → known w A (lastIndex sn);
  rw_sent : ∀ from o, PReq from o ∈ sent w → sent_ok w A from o;
  rw_seq : ∀ j n to req, nodes w !! j = Some (Up n) → role (nc n) = leader →
    PReq j (OutAppendEntries to req) ∈ sent w → ae_term req = term (nc n) → ae_seq req ≤ appendSeq (nc n);
  rw_resp : ∀ j c req resp, PAppendResp j c req resp ∈ sent w → aer_success resp = true →
    aer_seq resp = ae_seq req ∧ PReq c (OutAppendEntries j req) ∈ sent w
}.

Lemma known_le w A m m' : known w A m → m' ≤ m → known w A m'.
Proof.
  intros [?|(t & p & ? & ? & ? & Hl)] Hle; [left; lia|right]. exists t, p. split_and!; try done; [lia|].
  intros l nl E1 E2 E3. specialize (Hl l nl E1 E2 E3). lia.
Qed.

Lemma known_max w A m m' : known w A m → known w A m' → known w A (Z.max m m').
Proof. intros. by destruct (Z.max_spec m m') as [[_ ->]|[_ ->]]. Qed.

(** Leaders of terms that had one already are the leaders there were. *)
Definition leaders_stay (w : W) (A : abs) (w' : W) : Prop :=
  ∀ l nl, nodes w' !! l = Some (Up nl) → role (nc nl) = leader → is_Some (a_leads A !! term (nc nl)) →
    ∃ nl0, nodes w !! l = Some (Up nl0) ∧ role (nc nl0) = leader ∧ term (nc nl0) = term (nc nl) ∧
      commitIndex (nc nl0) ≤ commitIndex (nc nl) ∧ appendSeq (nc nl0) ≤ appendSeq (nc nl).

Lemma known_step w A w' A' m : grows A A' → leaders_stay w A w' → known w A m → known w' A' m.
Proof.
  intros Hg Hst [?|(t & p & Hc & ? & Hld & Hl)]; [by left|right]. exists t, p. split_and!.
  - by eapply committed_in_grow.
  - done.
  - destruct Hld as [ld Hld]. destruct (gr_leads _ _ Hg _ _ Hld) as (ld' & -> & _). by eexists.
  - intros l nl Hnl Hr <-. destruct (Hst l nl Hnl Hr Hld) as (nl0 & Hn0 & Hr0 & Ht0 & Hc0 & _).
    specialize (Hl l nl0 Hn0 Hr0 Ht0). lia.
Qed.

Lemma led_grow A A' t j : grows A A' → led A t j → led A' t j.
Proof. intros Hg (ld & Hld & ?). destruct (gr_leads _ _ Hg _ _ Hld) as (ld' & ? & ? & _). exists ld'. split; [done|congruence]. Qed.

Lemma sent_ok_step w A w' A' from o : grows A A' → leaders_stay w A w' → sent_ok w A from o → sent_ok w' A' from o.
Proof.
  intros Hg Hst. destruct o; cbn; try done; intros [? ?]; (split; [by eapply led_grow|]); [..|done]; by eapply known_step.
Qed.

(** ** Leaders *)

Lemma leader_led w A j n : wrel w A → nodes w !! j = Some (Up n) → role (nc n) = leader → led A (term (nc n)) j.
Proof.
  intros Hr Hj Hl. destruct (wr_nodes _ _ _ _ Hr _ _ Hj) as (F & [Hn _ _ _]). pose proof (r_node Hn) as Hnode. rewrite Hl in Hnode.
  destruct (ai_leader _ _ (wr_inv _ _ _ _ Hr) _ _ Hnode) as (ld & ? & ? & _). by exists ld.
Qed.

Lemma led_unique A t i j : led A t i → led A t j → i = j.
Proof. intros (ld & ? & <-) (ld' & ? & <-). congruence. Qed.

(** The leader of a term that had one already is the one that led it. *)
Lemma leader_kept w A w' A' i n n' :
  wrel w A → wrel w' A' → grows A A' → nodes w !! i = Some (Up n) → nodes w' !! i = Some (Up n') →
  term (nc n) ≤ term (nc n') →
  (term (nc n') = term (nc n) → (role (nc n') = candidate → role (nc n) = candidate) ∧ (role (nc n') = leader → role (nc n) ≠ follower)) →
  role (nc n') = leader → is_Some (a_leads A !! term (nc n')) → role (nc n) = leader ∧ term (nc n) = term (nc n').
Proof.
  intros Hr Hr' Hg Hi Hi' Hterm Hrole Hl [ld Hld]. pose proof (wr_inv _ _ _ _ Hr) as Hinv.
  assert (ld_id ld = i) as Hid.
  { apply (led_unique A' (term (nc n'))); [|by eapply leader_led]. eapply led_grow; [exact Hg|]. by exists ld. }
  destruct (wr_nodes _ _ _ _ Hr _ _ Hi) as (F & [Hn _ _ _]). pose proof (r_node Hn) as Hnode.
  assert (term (nc n') ≤ term (nc n)) as Hle.
  { pose proof (lo_cand _ _ _ _ (ai_leads _ _ Hinv _ _ Hld)) as Hcand. rewrite Hid in Hcand.
    apply (vo_cands _ _ _ (ai_view _ _ Hinv i _ ltac:(unfold view; rewrite Hnode; reflexivity))) in Hcand. done. }
  assert (term (nc n') = term (nc n)) as Et by lia. split; [|done]. destruct (Hrole Et) as [_ Hnf]. specialize (Hnf Hl).
  destruct (role (nc n)) eqn:Er; [done| |done]. destruct (ai_cand _ _ Hinv _ _ Hnode) as [_ Hno]. cbn in Hno.
  rewrite <-Et in Hno. by destruct (Hno _ Hld).
Qed.

(** ** Events *)

(** The commit index or snapshot index an event carries. *)
Definition ev_bound (ev : event) : Z :=
  match ev with
  | evAppendEntries req _ => ae_leaderCommit req
  | evInstallSnapshot req _ => is_lastIncludedIndex req
  | _ => 0
  end.

Definition bound_of (n : Node D S) (ev : event) : Z := Z.max (commitIndex (nc n)) (ev_bound ev).

Abbreviation before n := (n <| replies := [] |> <| net := [] |>).
Abbreviation evidence w := (λ v t i, (v, t, i) ∈ ballots w).

Section event.
Context (w : W) (A : abs) (i : Z) (n : Node D S) (ev : event) (resp : reply → option packet).
Context (Hw : winv Cfg w) (Hroomy : roomy Cfg w) (Hr : wrel w A) (Hrw : rwrel w A)
  (Hi : nodes w !! i = Some (Up n)) (Hdel : delivers (sent w) i ev resp).

Lemma event_known : known w A (bound_of n ev).
Proof.
  apply known_max; [by apply (rw_up _ _ Hrw i)|]. destruct Hdel as [|from req c' Hp|from req c' Hp|from req c' Hp|from req c' Hp| | | | | |]; try (by left);
    by destruct (rw_sent _ _ Hrw _ _ Hp).
Qed.

Lemma event_ready : ∃ F, ready Cfg s0 i (evidence w) A F (before n) (bound_of n ev) ev.
Proof.
  destruct (wr_nodes _ _ _ _ Hr _ _ Hi) as (F & Hn). exists F. destruct Hroomy as [[Hb Hsane] Hroom]. destruct (Hsane i n Hi) as [Hlog Hst].
  destruct (w_up _ _ Hw _ _ Hi) as (Hnn & Hid & _). destruct (rw_up _ _ Hrw i n Hi) as (_ & _ & _ & Hout). split; try done.
  - apply Hr.
  - destruct Hn. by split.
  - exact (Hb i n Hi).
  - cbn. unfold bound_of. lia.
  - exact (Hroom i n Hi).
  - by eapply delivers_rel.
  - exact (delivers_ok Cfg Cfg_wf w i n ev resp Hw Hi Hdel).
Qed.

(** The network tells a leader of no other leader in its term. *)
Lemma event_reads s T good :
  (∀ j req rs, PAppendResp j i req rs ∈ sent w → aer_success rs = true → ae_term req = T → s ≤ aer_seq rs → good j) →
  ev_reads Cfg s T good (nc n) (bound_of n ev) ev.
Proof.
  intros Hgood. destruct (w_up _ _ Hw _ _ Hi) as (_ & Hid & _).
  assert (∀ t from, led A t from → from ≠ i → role (nc n) = leader → t ≠ term (nc n)) as Hother.
  { intros t from Hled Hne Hl ->. apply Hne. eapply led_unique; [exact Hled|by eapply leader_led]. }
  destruct Hdel as [|from req c' Hp|from req c' Hp|from req c' Hp|from req c' Hp| |from req rs Hp| | | |]; cbn; try done.
  - pose proof (wr_packets _ _ _ _ Hr _ Hp) as (Hne & ld & _ & _ & _ & _ & Hlc & _). destruct (rw_sent _ _ Hrw _ _ Hp) as [Hled _].
    split; [by apply (Hother _ from)|]. unfold bound_of. cbn. lia.
  - pose proof (wr_packets _ _ _ _ Hr _ Hp) as (Hne & _). destruct (rw_sent _ _ Hrw _ _ Hp) as [Hled _].
    split; [by apply (Hother _ from)|]. unfold bound_of. cbn. lia.
  - destruct (rw_sent _ _ Hrw _ _ Hp) as [Hled Hne]. by apply (Hother _ from).
  - pose proof (wr_packets _ _ _ _ Hr _ Hp) as (? & ? & _). rewrite Hid. split_and!; try done. by apply Hgood.
Qed.

Lemma fresh_channel : ∃ ch, forgets ch n ∧ ev ≠ evRead ch.
Proof.
  set (cs := (map_to_list (readWaiters n)).*2 ++ (aw_c <$> appliedWaiters n) ++ match ev with evRead c' => [c'] | _ => [] end).
  exists (fresh cs). pose proof (infinite_is_fresh cs) as Hf. split; [split|].
  - intros id Hid. apply Hf. unfold cs. apply elem_of_app. left. apply list_elem_of_fmap. exists (id, fresh cs). split; [done|by apply elem_of_map_to_list].
  - intros x Hx Hc. apply Hf. unfold cs at 2. apply elem_of_app. right. apply elem_of_app. left. apply list_elem_of_fmap. by exists x.
  - intros E. apply Hf. unfold cs at 2. apply elem_of_app. right. apply elem_of_app. right. rewrite E. by left.
Qed.

Lemma event_handled o n' : handle ev (before n) = (o, n') → handled Cfg idle (before n) (bound_of n ev) ev o n'.
Proof.
  intros Hrun. destruct event_ready as (F & Hready). destruct fresh_channel as (ch & [Hnw Hna] & Hne).
  destruct (up_id Cfg w i n Hw Hi) as (Hi0 & Hiu & Him). destruct (rw_up _ _ Hrw i n Hi) as (_ & Hidle & _).
  eapply wp_elim in Hrun; [apply Hrun|].
  eapply wp_mono; [apply (handle_reads Cfg Cfg_wf Cfg_rt s0 i Hi0 Hiu Him (evidence w) ch (-1) 0 0 (-1) (λ _, False) A F); try done|].
  - apply event_reads. intros j req rs Hin Hs Ht _. destruct (rw_resp _ _ Hrw _ _ _ _ Hin Hs) as [_ Hp].
    pose proof (w_packets _ _ Hw _ Hp) as (_ & _ & Hu & _). unfold is_u64 in Hu. lia.
  - intros id Hid. by destruct (Hnw id).
  - intros x Hx Hc. by destruct (Hna x Hx).
  - cbv beta. by intros o1 n1 [? _].
Qed.

(** *** The world after the event *)

Context (o : outcome ()) (n' : Node D S) (Hrun : handle ev (before n) = (o, n')) (A' : abs).
Abbreviation out := ((PReq i <$> net n') ++ omap (resp ∘ snd) (replies n')).
Abbreviation w' := (ran w i o n' out).
Context (Hr' : wrel w' A') (Hg : grows A A').

Lemma after_nodes j st : nodes w' !! j = Some st →
  (j = i ∧ st = match o with Ok _ => Up n' | _ => Down (disk (nc n')) end) ∨ (j ≠ i ∧ nodes w !! j = Some st).
Proof. rewrite ran_eq. cbv zeta. cbn. apply nodes_insert_inv. Qed.

Lemma after_node : nodes w' !! i = Some (match o with Ok _ => Up n' | _ => Down (disk (nc n')) end).
Proof. rewrite ran_eq. cbv zeta. cbn. apply lookup_insert_eq. Qed.

Lemma after_sent p : p ∈ sent w' → p ∈ sent w ∨ (∃ x, p = PReq i x ∧ x ∈ net n') ∨ ∃ c' r, (c', r) ∈ replies n' ∧ resp r = Some p.
Proof.
  rewrite ran_eq. cbv zeta. cbn. intros [Hp|[Hp|Hp]%elem_of_app]%elem_of_app; [by left|right; left|right; right].
  - apply list_elem_of_fmap in Hp as (x & -> & ?). by exists x.
  - apply list_elem_of_omap in Hp as ([c' r] & ? & ?). by exists c', r.
Qed.

Lemma sent_before p : p ∈ sent w → p ∈ sent w'.
Proof. intros Hp. rewrite ran_eq. cbv zeta. cbn. apply elem_of_app. by left. Qed.

Lemma event_leaders_stay : leaders_stay w A w'.
Proof.
  destruct (event_handled o n' Hrun) as (c1 & Hs & Hst & _). injection Hst as E1 E2 E3 _ E5 _ _ _.
  intros l nl Hnl Hl Hld. destruct (after_nodes _ _ Hnl) as [[-> Est]|[_ Hold]]; [|by exists nl].
  assert (nl = n') as -> by (clear -Est; destruct o; by simplify_eq).
  destruct (leader_kept w A w' A' i n n') as [Hln Htn]; try done.
  - rewrite E2. apply (so_term _ _ _ _ _ Hs).
  - rewrite E1, E2. apply (so_role _ _ _ _ _ Hs).
  - exists n. split_and!; try done; [|rewrite E5; apply (so_seq _ _ _ _ _ Hs)]. rewrite E3. apply (so_mono _ _ _ _ _ Hs); cbn; congruence.
Qed.

Lemma event_known_step m : known w A m → known w' A' m.
Proof. apply known_step; [done|apply event_leaders_stay]. Qed.

(** The commit index of the node. *)
Lemma event_commit : o = Ok () → known w' A' (commitIndex (nc n')).
Proof.
  intros Eo. destruct (event_handled o n' Hrun) as (c1 & Hs & Hst & _). injection Hst as E1 E2 E3 _ E5 _ _ _.
  destruct (so_commit _ _ _ _ _ Hs) as [Hle|[Hl _]].
  - eapply known_le; [apply event_known_step, event_known|]. by rewrite E3.
  - rewrite <-E1 in Hl. pose proof after_node as Hn'. rewrite Eo in Hn' at 2. cbn in Hn'. destruct (wr_nodes _ _ _ _ Hr' _ _ Hn') as (F & [Hn _ _ _]).
    destruct (r_commit Hn) as [Hc1 Hc2]. destruct (r_lead Hn Hl) as ((ld & Hld & _) & _). right. exists (term (nc n')), (ztake (commitIndex (nc n')) F).
    split_and!; try done; [unfold ztake; rewrite length_take; lia|]. intros l nl Hnl Hll Ht.
    assert (l = i) as ->. { eapply (led_unique A' (term (nc n'))); [rewrite <-Ht; by eapply leader_led|by eapply leader_led]. }
    assert (nl = n') as -> by congruence. done.
Qed.

(** The snapshots a stopped node may boot from. *)
Lemma event_snaps t v sn l :
  o ≠ Ok () → may_state (disk (nc n')) t v → may_snap (disk (nc n')) sn → may_log (disk (nc n')) l →
  starts_at (u64 (lastIndex sn + 1)) l → known w' A' (lastIndex sn).
Proof.
  intros Ho Ht Hsn Hl Hst. destruct (event_handled o n' Hrun) as (c1 & Hs & _ & _ & Hsnaps & _).
  assert (∀ m, m ≤ bound_of n ev → known w' A' m) as Hb by (intros m; apply known_le, event_known_step, event_known).
  destruct (Hsnaps sn Hsn) as [Hle|[Hle Hterm]]; [by apply Hb|].
  destruct (so_commit _ _ _ _ _ Hs) as [Hc|[_ Hwho]]; [apply Hb; lia|].
  pose proof after_node as Hn'. assert (nodes w' !! i = Some (Down (disk (nc n')))) as Hdown.
  { rewrite Hn'. clear -Ho. by destruct o as [[]|e| |]. }
  pose proof (wr_nodes _ _ _ _ Hr' _ _ Hdown) as (P & _ & _ & Hdead). destruct (Hdead t v sn l Ht Hsn Hl Hst) as (F & _ & (Hlen & _ & Hcom & _) & _).
  assert (zlength (ztake (lastIndex sn) F) = lastIndex sn) as Hz by (unfold ztake; rewrite length_take; lia).
  destruct Hwho as [[Hln Htn]|Hone].
  - rewrite (Hterm t v Ht), Htn in Hcom. cbn in Hln, Htn, Hcom. right. exists (term (nc n)), (ztake (lastIndex sn) F).
    destruct (leader_led w A i n Hr Hi Hln) as (ld & Hld & Hid). destruct (gr_leads _ _ Hg _ _ Hld) as (ld' & Hld' & Hid' & _).
    split; [done|]. split; [lia|]. split; [by exists ld'|]. intros j nl Hnl Hll Hterm'. exfalso.
    assert (j = i) as ->; [|by rewrite Hdown in Hnl].
    eapply (led_unique A' (term (nc n))); [rewrite <-Hterm'; by eapply leader_led|]. exists ld'. split; [done|congruence].
  - destruct Hcom as [Hnil|(t0 & m & ld & _ & Hc0 & Hld & Hp)]; [left; rewrite Hnil in Hz; simpl in Hz; lia|].
    right. exists t0, (ztake (lastIndex sn) F). split; [right; by exists t0, m, ld|]. split; [lia|]. split; [by exists ld|].
    intros j nl Hnl _ _. exfalso. assert (j = i) as ->; [|by rewrite Hdown in Hnl].
    assert (j ∈ dom Cfg ∧ i ∈ dom Cfg) as [Hj Him].
    { split; [|by eapply (w_dom _ _ Hw)]. destruct (after_nodes _ _ Hnl) as [[-> _]|[_ Hj]]; by eapply (w_dom _ _ Hw). }
    rewrite <-(size_dom Cfg) in Hone. apply (size_singleton_inv (dom Cfg)); try done.
    assert (size (dom Cfg) ≠ 0%nat); [|lia]. intros Hz0. apply size_empty_inv in Hz0. set_solver.
Qed.

(** What the node sends. *)
Lemma event_sent x : x ∈ net n' → sent_ok w' A' i x ∧
  ∀ to req, x = OutAppendEntries to req → o = Ok () ∧ role (nc n') = leader ∧ ae_term req = term (nc n') ∧ ae_seq req ≤ appendSeq (nc n').
Proof.
  intros Hx. destruct (event_handled o n' Hrun) as (c1 & Hs & Hst & _ & _ & Hnet & _). injection Hst as E1 E2 E3 _ E5 _ _ _.
  assert (o = Ok ()) as Eo. { clear -Hx Hnet. destruct o as [[]|e| |]; [done|rewrite Hnet in Hx; by apply elem_of_nil in Hx..]. }
  assert (x ∈ outbox c1) as Hx1. { clear -Hx Hnet Eo. rewrite Eo in Hnet. destruct Hnet as [<- _]. done. }
  destruct (rw_up _ _ Hrw i n Hi) as (_ & _ & _ & Hout). destruct (so_out _ _ _ _ _ Hs) as (os & Hos & Hnew). cbn in Hos. rewrite Hout in Hos. cbn in Hos.
  rewrite Hos in Hx1. rewrite Forall_forall in Hnew. specialize (Hnew x Hx1). destruct (w_up _ _ Hw _ _ Hi) as (_ & Hid & _).
  assert (role c1 = leader → led A' (term c1) i) as Hled.
  { intros Hl. rewrite <-E2. eapply leader_led; [exact Hr'| |by rewrite E1]. rewrite after_node. clear -Eo. by rewrite Eo. }
  assert (∀ m, m ≤ bound_of n ev → known w' A' m) as Hb by (intros m; apply known_le, event_known_step, event_known).
  destruct x as [to req|to req|to req|to req]; cbn in Hnew |- *.
  - split; [done|]. intros ? ? [=].
  - destruct Hnew as (Hl & Ht & Hc & Hq). split.
    + rewrite Ht. split; [by apply Hled|]. eapply known_le; [by apply event_commit|]. by rewrite E3.
    + intros to' req' [= <- <-]. split_and!; try congruence. rewrite E5. apply Hq.
  - destruct Hnew as (Hl & Ht & Hc). split; [|by intros ? ? [=]]. rewrite Ht. split; [by apply Hled|by apply Hb].
  - destruct Hnew as (Hl & Ht & Hto). split; [|by intros ? ? [=]]. rewrite Ht. cbn in Hto. rewrite Hid in Hto. split; [by apply Hled|done].
Qed.

(** What it answers an AppendEntries request. *)
Lemma event_responds c' r from to req rs :
  (c', r) ∈ replies n' → resp r = Some (PAppendResp from to req rs) →
  from = i ∧ PReq to (OutAppendEntries i req) ∈ sent w ∧
  (aer_success rs = true → aer_seq rs = ae_seq req ∧ term (nc n) ≤ ae_term req).
Proof.
  clear Hr' Hg. intros Hin Hresp. destruct (event_handled o n' Hrun) as (c1 & _ & _ & _ & _ & _ & Hrep).
  destruct Hdel as [|from' req' c0 Hp|from' req' c0 Hp|from' req' c0 Hp| | | | | | |]; try done; destruct r as [[]|[rs'|]|[]| | | | |]; try done.
  injection Hresp as <- <- <- <-. split; [done|]. split; [done|]. exact (Hrep _ _ Hin).
Qed.

Lemma event_rwrel : rwrel w' A'.
Proof.
  split.
  - intros j nj Hj. destruct (after_nodes _ _ Hj) as [[-> Est]|[_ Hold]].
    + assert (o = Ok () ∧ nj = n') as [Eo ->] by (clear -Est; destruct o as [[]|e| |]; by simplify_eq).
      destruct (event_handled o n' Hrun) as (c1 & _ & _ & Hidle & _ & Hnet & _). split; [by apply event_commit|]. split; [by apply Hidle|].
      clear -Hnet Eo. rewrite Eo in Hnet. naive_solver.
    + destruct (rw_up _ _ Hrw _ _ Hold) as (? & ? & ? & ?). split_and!; try done. by apply event_known_step.
  - intros j d t v sn l Hj. destruct (after_nodes _ _ Hj) as [[-> Est]|[_ Hold]].
    + assert (o ≠ Ok () ∧ d = disk (nc n')) as [Eo ->] by (clear -Est; destruct o as [[]|e| |]; by simplify_eq). by apply event_snaps.
    + intros. apply event_known_step. by eapply (rw_down _ _ Hrw j d t v sn l).
  - intros from x Hp. destruct (after_sent _ Hp) as [Hold|[(y & [= -> ->] & Hy)|(c' & r & Hin & Hresp)]].
    + eapply sent_ok_step; [done|apply event_leaders_stay|by apply (rw_sent _ _ Hrw)].
    + by apply event_sent.
    + exfalso. clear -Hdel Hresp. by destruct Hdel; destruct r as [[]|[]|[]| | | | |].
  - intros j nj to req Hj Hl Hp Ht. destruct (after_sent _ Hp) as [Hold|[(y & [= -> <-] & Hy)|(c' & r & Hin & Hresp)]].
    + destruct (rw_sent _ _ Hrw _ _ Hold) as [(ld & Hld & _) _]. rewrite Ht in Hld.
      destruct (event_leaders_stay j nj Hj Hl ltac:(by exists ld)) as (nj0 & Hj0 & Hl0 & Ht0 & _ & Hq).
      pose proof (rw_seq _ _ Hrw j nj0 to req Hj0 Hl0 Hold ltac:(congruence)). lia.
    + destruct (event_sent _ Hy) as [_ Hae]. destruct (Hae to req eq_refl) as (Eo & _ & _ & Hq).
      assert (nj = n') as ->; [|done]. pose proof after_node as Hn'. rewrite Hj in Hn'. clear -Hn' Eo. rewrite Eo in Hn'. by simplify_eq.
    + exfalso. clear -Hdel Hresp. by destruct Hdel; destruct r as [[]|[]|[]| | | | |].
  - intros j c req rs Hp Hsucc. destruct (after_sent _ Hp) as [Hold|[(y & [=] & _)|(c' & r & Hin & Hresp)]].
    + destruct (rw_resp _ _ Hrw _ _ _ _ Hold Hsucc) as [? ?]. split; [done|by apply sent_before].
    + destruct (event_responds c' r j c req rs Hin Hresp) as (-> & ? & Hok). split; [by apply Hok|by apply sent_before].
Qed.
End event.

(** ** Stops and boots *)

Lemma changed_leaders_stay w A i st bs es :
  (∀ n, st = Up n → role (nc n) ≠ leader) → leaders_stay w A (mkWorld (<[i := st]> (nodes w)) (sent w) bs es).
Proof. intros Hst l nl Hnl Hl _. cbn in Hnl. apply nodes_insert_inv in Hnl as [[-> Heq]|[_ Hold]]; [by destruct (Hst nl)|by exists nl]. Qed.

(** Node [i] changes to a state that knows nothing new. *)
Lemma changed_rwrel w A A' i st bs es :
  rwrel w A → grows A A' →
  match st with
  | Up n => role (nc n) ≠ leader ∧ known w A (commitIndex (nc n)) ∧ idle (nc n) ∧ readOutcomes (nc n) = [] ∧ outbox (nc n) = []
  | Down d => ∀ t v sn l, may_state d t v → may_snap d sn → may_log d l →
      starts_at (u64 (lastIndex sn + 1)) l → known w A (lastIndex sn)
  end → rwrel (mkWorld (<[i := st]> (nodes w)) (sent w) bs es) A'.
Proof.
  intros [Hup Hdown Hsent Hseq Hresp] Hg Hst.
  assert (leaders_stay w A (mkWorld (<[i := st]> (nodes w)) (sent w) bs es)) as Hstay.
  { apply changed_leaders_stay. intros n ->. apply Hst. }
  assert (∀ m, known w A m → known (mkWorld (<[i := st]> (nodes w)) (sent w) bs es) A' m) as Hk by (intros m; by apply known_step).
  split; cbn.
  - intros j n [[-> <-]|[_ Hj]]%nodes_insert_inv; [destruct Hst as (_ & ? & ?); auto|]. destruct (Hup _ _ Hj) as [? ?]. auto.
  - intros j d t v sn l [[-> <-]|[_ Hj]]%nodes_insert_inv ? ? ? ?; apply Hk; [by eapply (Hst t v sn l)|by eapply (Hdown j d t v sn l)].
  - intros from x Hp. eapply sent_ok_step; [done..|by apply Hsent].
  - intros j n to req [[-> <-]|[_ Hj]]%nodes_insert_inv Hl ? ?; [by destruct Hst|by eapply Hseq].
  - done.
Qed.

Lemma recovered_idle d (c : core D) : recovered d c → idle c ∧ readOutcomes c = [] ∧ outbox c = [].
Proof.
  intros (Hf & Hp & Ho & Hc & Hout & _). split; [|done]. split; rewrite ?Hp, ?Ho, ?Hc; try done; try (by intros x ?%elem_of_nil).
Qed.

Abbreviation lstep := (lstep Cfg conf s0 compactAt peers).
Abbreviation runs := (runs Cfg conf s0 compactAt peers).

Lemma lstep_rwrel w l w' A A' :
  winv Cfg w → roomy Cfg w → wrel w A → rwrel w A → lstep w l w' → wrel w' A' → grows A A' → rwrel w' A'.
Proof.
  intros Hw Hroomy Hr Hrw Hl Hr' Hg. destruct Hl as [i n ev resp o n' Hi Hdel Hrun|i n Hi|i d d' o d'' Hi [Hre _] Hnew].
  - by eapply event_rwrel.
  - apply (changed_rwrel w A); try done. destruct (wr_nodes _ _ _ _ Hr _ _ Hi) as (F & [Hn _ _ _]).
    intros t v sn l _ Hsn _ _. apply (dr_snap (r_disk Hn)) in Hsn as [_ ?]. destruct (rw_up _ _ Hrw _ _ Hi) as [Hk _].
    eapply known_le; [exact Hk|]. destruct Hroomy as [[_ Hsane] _]. destruct (Hsane i n Hi). lia.
  - destruct (wr_nodes _ _ _ _ Hr _ _ Hi) as (P & _ & Hwf & _). destruct (reboot_law d d' Hwf Hre) as (Hwf' & Hs & Hlg & Hsn).
    pose proof (NewNode_recovers (conf i) Cfg s0 compactAt peers d' Hwf') as Hrec. rewrite Hnew in Hrec. destruct Hrec as [[_ (Hs' & Hl' & Hsn')] Hok].
    apply (changed_rwrel w A); try done. destruct o as [n|e| |]; [|intros t v sn l ? ? ? ?; apply (rw_down _ _ Hrw i d t v sn l); by auto..].
    destruct (Hok n eq_refl) as [Hrn _]. destruct (recovered_idle _ _ Hrn) as (? & ? & ?). destruct Hrn as (Hf & _ & _ & _ & _ & t & v & sn & l & ? & ? & ? & ? & Hc).
    split; [by rewrite Hf|]. split_and!; try done. rewrite Hc. apply (rw_down _ _ Hrw i d t v sn l); by auto.
Qed.

Lemma initial_rwrel w A : initial Cfg w → rwrel w A.
Proof.
  intros (_ & Hsent & _ & _ & Hd). split; rewrite ?Hsent.
  - intros j n Hj. by destruct (Hd _ _ Hj) as (d & ? & _).
  - intros j d t v sn l Hj _ Hsn _ _. destruct (Hd _ _ Hj) as (d1 & [= <-] & _ & _ & _ & Hz). rewrite (Hz _ Hsn). by left.
  - by intros from x ?%elem_of_nil.
  - intros j n to req Hj. by destruct (Hd _ _ Hj) as (d & ? & _).
  - by intros j c req rs ?%elem_of_nil.
Qed.

(** ** Runs *)

(** A world that a run has reached. *)
Record reached (w : W) (A : abs) : Prop := {
  re_reach : reachable Cfg conf s0 compactAt peers w;
  re_winv : winv Cfg w;
  re_roomy : roomy Cfg w;
  re_wrel : wrel w A;
  re_rwrel : rwrel w A
}.

Lemma lstep_leaders_stay w l w' A A' :
  winv Cfg w → roomy Cfg w → wrel w A → rwrel w A → lstep w l w' → wrel w' A' → grows A A' → leaders_stay w A w'.
Proof.
  intros Hw Hroomy Hr Hrw Hl Hr' Hg. destruct Hl as [i n ev resp o n' Hi Hdel Hrun|i n Hi|i d d' o d'' Hi [Hre _] Hnew].
  - by eapply event_leaders_stay.
  - by apply changed_leaders_stay.
  - apply changed_leaders_stay. intros n Hn. destruct (wr_nodes _ _ _ _ Hr _ _ Hi) as (P & _ & Hwf & _).
    destruct (reboot_law d d' Hwf Hre) as (Hwf' & _). pose proof (NewNode_recovers (conf i) Cfg s0 compactAt peers d' Hwf') as Hrec.
    rewrite Hnew in Hrec. destruct o as [n0|e| |]; simplify_eq. destruct Hrec as [_ Hok]. destruct (Hok n eq_refl) as [(-> & _) _]. done.
Qed.

(** [w'] comes after [w]: nothing known is lost. *)
Definition follows (w : W) (A : abs) (w' : W) (A' : abs) : Prop := grows A A' ∧ ∀ m, known w A m → known w' A' m.

Lemma follows_trans w1 A1 w2 A2 w3 A3 : follows w1 A1 w2 A2 → follows w2 A2 w3 A3 → follows w1 A1 w3 A3.
Proof. intros [? ?] [? ?]. split; [by eapply grows_trans|auto]. Qed.

Lemma reached_step w A l w' : reached w A → lstep w l w' → roomy Cfg w' → ∃ A', reached w' A' ∧ follows w A w' A'.
Proof.
  intros [Hre Hw Hroomy Hr Hrw] Hl Hroomy'. pose proof Hroomy as [Hs _]. pose proof Hroomy' as [Hs' _].
  assert (sane_step Cfg conf s0 compactAt peers w w') as Hstep by (split; [by eapply lstep_step|done]).
  destruct (sane_step_rel Cfg conf s0 compactAt peers Cfg_wf Cfg_rt conf_ids w w' A Hw Hs Hr Hstep) as (A' & Hr' & Hg).
  assert (reachable Cfg conf s0 compactAt peers w') as Hre'.
  { eapply reachable_step; [exact Hre|by apply sane_step_step|apply Hs']. }
  exists A'. split; [split; try done; [by eapply reachable_winv|by eapply lstep_rwrel]|].
  split; [done|]. intros m. apply known_step; [done|by eapply lstep_leaders_stay].
Qed.

Lemma reached_runs w A ls w' : reached w A → runs w ls w' → ∃ A', reached w' A' ∧ follows w A w' A'.
Proof.
  intros Hw Hr. revert A Hw. induction Hr as [w|w l w1 ls w' Hl Hroom _ IH]; intros A Hw; [exists A; split; [done|split; [apply grows_refl|done]]|].
  destruct (reached_step w A l w1 Hw Hl Hroom) as (A1 & Hw1 & Hg1). destruct (IH A1 Hw1) as (A' & ? & ?). exists A'.
  split; [done|by eapply follows_trans].
Qed.

Lemma reached_initial w : initial Cfg w → ∃ A, reached w A.
Proof.
  intros Hw. destruct (initial_wrel Cfg s0 w Hw) as (A & Hr). exists A. split; try done.
  - by apply reachable_initial.
  - by apply initial_winv.
  - split; [by apply (sane_initial Cfg)|]. destruct Hw as (_ & _ & _ & _ & Hd). intros i n Hi. by destruct (Hd _ _ Hi) as (d & ? & _).
  - by apply initial_rwrel.
Qed.

(** ** Barriers *)

(** What was committed in earlier terms, a leader was elected with. *)
Lemma committed_in_start A t p T ld :
  ainv A → committed_in A t p → a_leads A !! T = Some ld → t < T → p `prefix_of` ld_start ld.
Proof.
  intros Hi [->|(t0 & m & ld0 & Ht0 & Hc & Hld0 & Hp)] Hld Ht; [apply prefix_nil|].
  etrans; [exact Hp|]. eapply (leader_complete Cfg A t0 m ld0 T ld); try done. lia.
Qed.

(** [j] has voted in no term after [T]. *)
Definition loyal (A : abs) (T j : Z) : Prop := ∀ t c l, (j, t, c, l) ∈ a_votes A → t ≤ T.

Lemma node_loyal w A j n T : wrel w A → nodes w !! j = Some (Up n) → term (nc n) ≤ T → loyal A T j.
Proof.
  intros Hr Hj HT t c l Hin. destruct (wr_nodes _ _ _ _ Hr _ _ Hj) as (F & [Hn _ _ _]). pose proof (r_node Hn) as Hnode.
  pose proof (ai_view _ _ (wr_inv _ _ _ _ Hr) j _ ltac:(unfold view; rewrite Hnode; reflexivity)) as Hv.
  apply (vo_votes _ _ _ Hv) in Hin. cbn in Hin. lia.
Qed.

Lemma loyal_grow A A' T j : grows A A' → loyal A' T j → loyal A T j.
Proof. intros Hg Hl t c l Hin. apply (Hl t c l). by apply (gr_votes _ _ Hg). Qed.

(** A leader that has committed an entry of its term, and that a majority has not
    left, knows everything that is committed. *)
Lemma leader_knows w A i n m :
  reached w A → nodes w !! i = Some (Up n) → role (nc n) = leader → termAt (nc n) (commitIndex (nc n)) = Ok (term (nc n)) →
  confirmed Cfg (loyal A (term (nc n))) → known w A m → m ≤ commitIndex (nc n).
Proof.
  intros [_ _ _ Hr _] Hi Hl Hterm (Q & HQ & Hloyal) Hknown. destruct (wr_nodes _ _ _ _ Hr _ _ Hi) as (F & [Hn _ _ _]).
  pose proof (wr_inv _ _ _ _ Hr) as Hinv. destruct (r_commit Hn) as [Hc _]. destruct Hknown as [?|(t & p & Hp & Hm & [lt Hlt] & Hlive)]; [lia|].
  destruct (r_lead Hn Hl) as ((ld & Hld & HF) & _). pose proof (ai_leads _ _ Hinv _ _ Hld) as Hlead.
  destruct (ai_cands _ _ Hinv _ _ _ (lo_cand _ _ _ _ Hlead)) as (Hpos & _ & Hterms). pose proof (log_wf_length F (sh_wf _ _ _ _ (r_shape Hn))) as Hlen.
  assert (t ≤ term (nc n)) as Ht.
  { destruct (lo_votes _ _ _ _ (ai_leads _ _ Hinv _ _ Hlt)) as (Q' & HQ' & Hv). destruct (is_quorum_meet Cfg Q Q' HQ HQ') as (v & HvQ & HvQ').
    destruct (Hv v HvQ') as (vl & Hin & _). by apply (Hloyal v HvQ _ _ _ Hin). }
  destruct (decide (t = term (nc n))) as [->|Hne]; [by apply (Hlive i n)|].
  pose proof (committed_in_start A t p _ ld Hinv Hp Hld ltac:(lia)) as Hpre. apply prefix_length in Hpre.
  destruct (decide (commitIndex (nc n) ≤ zlength (ld_start ld))) as [Hle|]; [exfalso|lia].
  rewrite (shape_termAt F) in Hterm by (try apply Hn; unfold is_u64; lia). injection Hterm as Hterm. unfold term_at in Hterm.
  destruct (_ && _); [|lia]. assert (ztake (commitIndex (nc n)) F ≠ []) as Hnil by (intros Hnil; rewrite Hnil in Hterm; cbn in Hterm; lia).
  destruct (last_term_lookup _ Hnil) as (e & He & Hlast).
  assert (e ∈ ld_start ld) as Hin.
  { rewrite <-HF, (ztake_grow _ _ _ (lo_start _ _ _ _ Hlead)) in He by done. apply list_elem_of_lookup_2 in He.
    unfold ztake in He. by apply elem_of_take in He as (? & ?%list_elem_of_lookup_2 & _). }
  rewrite Forall_forall in Hterms. specialize (Hterms e Hin). cbn in Hterms. lia.
Qed.

(** A barrier that node [i] is asked for in [w], on channel [ch]. *)
Section barrier.
Context (i : Z) (ch : nat) (w : W) (A : abs) (n : Node D S).
Context (Hask : reached w A) (Hi : nodes w !! i = Some (Up n)).

Abbreviation good := (loyal A (term (nc n))).
Abbreviation minSeq := (u64 (appendSeq (nc n) + 1)).
Abbreviation followed := (follows_read Cfg ch (readCounter (nc n) + 1) (commitIndex (nc n)) minSeq (term (nc n)) good).

Definition may_read : Prop := role (nc n) = leader ∧ termAt (nc n) (commitIndex (nc n)) = Ok (term (nc n)).

(** Since then: the answers that count are of loyal nodes, and the channel waits for
    the barrier or has been told. *)
Record tracked (x : W) : Prop := {
  tr_resp : may_read → ∀ j req rs, PAppendResp j i req rs ∈ sent x → aer_success rs = true →
    ae_term req = term (nc n) → minSeq ≤ aer_seq rs → good j;
  tr_node : ∀ nx, nodes x !! i = Some (Up nx) → (may_read ∧ followed nx) ∨ forgets ch nx
}.

Definition answered (m : Node D S) : Prop :=
  ∀ k, (ch, ReplyRead (inl k)) ∈ replies m → k = commitIndex (nc n) ∧ may_read ∧ confirmed Cfg good ∧ k ≤ applied m.

Lemma tracked_start_resp : may_read → ∀ j req rs, PAppendResp j i req rs ∈ sent w → aer_success rs = true →
  ae_term req = term (nc n) → minSeq ≤ aer_seq rs → good j.
Proof.
  intros [Hl _] j req rs Hin Hs Ht Hseq. exfalso. destruct (rw_resp _ _ (re_rwrel _ _ Hask) _ _ _ _ Hin Hs) as [E Hp]. rewrite E in Hseq.
  pose proof (rw_seq _ _ (re_rwrel _ _ Hask) i n j req Hi Hl Hp Ht). destruct (re_roomy _ _ Hask) as [_ Hroom].
  destruct (Hroom i n Hi) as (? & ? & _). pose proof (w_dom _ _ (re_winv _ _ Hask) _ _ Hi) as Hdom.
  assert (size Cfg ≠ 0%nat) as Hsize by (intros E0; apply map_size_empty_inv in E0; rewrite E0 in Hdom; set_solver).
  rewrite u64_small in Hseq by (unfold is_u64; lia). lia.
Qed.

(** Answers given since then. *)
Lemma tracked_resp x Ax l x' :
  reached x Ax → grows A Ax → lstep x l x' →
  (may_read → ∀ j req rs, PAppendResp j i req rs ∈ sent x → aer_success rs = true → ae_term req = term (nc n) → minSeq ≤ aer_seq rs → good j) →
  may_read → ∀ j req rs, PAppendResp j i req rs ∈ sent x' → aer_success rs = true → ae_term req = term (nc n) → minSeq ≤ aer_seq rs → good j.
Proof.
  intros Hx Hg Hl Hold Hm j req rs Hin Hs Ht Hseq. destruct Hl as [i' n' ev resp o n1 Hi' Hdel Hrun| |]; [|by apply (Hold Hm j req rs)..].
  destruct (after_sent x i' resp o n1 _ Hin) as [?|[(y & [=] & _)|(c' & r & Hr & Hresp)]]; [by apply (Hold Hm j req rs)|].
  destruct (event_responds x Ax i' n' ev resp (re_winv _ _ Hx) (re_roomy _ _ Hx) (re_wrel _ _ Hx) (re_rwrel _ _ Hx) Hi' Hdel o n1 Hrun c' r j i req rs Hr Hresp)
    as (-> & _ & Hok). destruct (Hok Hs) as [_ Hle]. eapply loyal_grow; [exact Hg|]. eapply node_loyal; [apply Hx|exact Hi'|lia].
Qed.

(** The request. *)
Lemma tracked_ask o n1 w1 : lstep w (Ran i (evRead ch) o n1) w1 → forgets ch n → tracked w1 ∧ answered n1.
Proof.
  intros Hl Hf. pose proof (tracked_resp w A _ w1 Hask (grows_refl A) Hl tracked_start_resp) as Hresp. inversion Hl as [? n0 ? resp ? ? Hi' Hdel Hrun| |]; subst.
  assert (n0 = n) as -> by congruence. destruct Hask as [_ Hw Hroomy Hr Hrw]. destruct (event_ready w A i n (evRead ch) resp Hw Hroomy Hr Hrw Hi Hdel) as (F & Hready).
  destruct (up_id Cfg w i n Hw Hi) as (Hi0 & Hiu & Him). destruct (rw_up _ _ Hrw i n Hi) as (_ & Hidle & Hro & _).
  destruct (w_up _ _ Hw _ _ Hi) as (_ & Hid & _).
  pose proof (handle_asks Cfg Cfg_wf Cfg_rt s0 i Hi0 Hiu Him (evidence w) ch good _ _ _ _ A F (before n) (bound_of n (evRead ch)) Hready Hidle Hro
    ltac:(cbn; rewrite Hid; by eapply node_loyal) Hf) as Hwp.
  eapply wp_elim in Hwp; [|exact Hrun]. cbn in Hwp. destruct Hwp as [(Hlead & Hterm & Hok & Hans)|[Hforg Hno]].
  - split; [split; [done|]|].
    + intros nx Hnx. rewrite after_node in Hnx. destruct o as [[]|e| |]; simplify_eq. left. split; [done|by apply Hok].
    + intros k Hin. by destruct (Hans k Hin) as (? & ? & ?).
  - split; [split; [done|]|by intros k ?%Hno].
    intros nx Hnx. rewrite after_node in Hnx. destruct o as [[]|e| |]; simplify_eq. by right.
Qed.

(** The events that follow. *)
Lemma tracked_event x Ax ev o nx n' resp :
  reached x Ax → grows A Ax → tracked x → nodes x !! i = Some (Up nx) → delivers (sent x) i ev resp →
  handle ev (before nx) = (o, n') → ev ≠ evRead ch →
  answered n' ∧ (o = Ok () → (may_read ∧ followed n') ∨ forgets ch n').
Proof.
  intros [_ Hw Hroomy Hr Hrw] Hg [Hresp Hnode] Hx Hdel Hrun Hne.
  destruct (event_ready x Ax i nx ev resp Hw Hroomy Hr Hrw Hx Hdel) as (F & Hready). destruct (up_id Cfg x i nx Hw Hx) as (Hi0 & Hiu & Him).
  destruct (Hnode nx Hx) as [(Hm & Hre & Hwait & Happ)|[Hnw Hna]].
  - pose proof (event_reads x Ax i nx ev resp Hw Hr Hrw Hx Hdel minSeq (term (nc n)) good (Hresp Hm)) as Hev.
    pose proof (handle_reads Cfg Cfg_wf Cfg_rt s0 i Hi0 Hiu Him (evidence x) ch _ _ _ _ _ Ax F (before nx) (bound_of nx ev) ev Hready Hev Hre Hne Hwait Happ) as Hwp.
    eapply wp_elim in Hwp; [|exact Hrun]. destruct Hwp as [(c1 & _ & _ & Hre' & _) [Hw' Ha' Hrep]]. split.
    + intros k Hin. by destruct (Hrep k Hin) as (-> & ? & ?).
    + intros Eo. left. split; [done|]. split; [by apply Hre'|]. split; [|done]. intros id Hid. by apply Hw'.
  - destruct (rw_up _ _ Hrw i nx Hx) as (_ & Hidle & _).
    assert (ev_reads Cfg 0 (-1) (λ _, False) (nc nx) (bound_of nx ev) ev) as Hev.
    { apply (event_reads x Ax i nx ev resp Hw Hr Hrw Hx Hdel). intros j req rs Hin Hs Ht _. destruct (rw_resp _ _ Hrw _ _ _ _ Hin Hs) as [_ Hp].
      pose proof (w_packets _ _ Hw _ Hp) as (_ & _ & Hu & _). unfold is_u64 in Hu. lia. }
    pose proof (handle_reads Cfg Cfg_wf Cfg_rt s0 i Hi0 Hiu Him (evidence x) ch (-1) 0 0 (-1) (λ _, False) Ax F (before nx) (bound_of nx ev) ev Hready Hev Hidle Hne
      ltac:(intros id Hid; by destruct (Hnw id)) ltac:(intros y Hy Hc; by destruct (Hna y Hy))) as Hwp.
    eapply wp_elim in Hwp; [|exact Hrun]. destruct Hwp as [_ [Hw' Ha' Hrep]]. split.
    + intros k Hin. destruct (Hrep k Hin) as (_ & Hc & _). by apply no_confirmation in Hc.
    + intros Eo. right. split; [intros id Hid; apply Hw' in Hid as [_ Hid]; by destruct (Hnw id)|].
      intros y Hy Hc. destruct (Ha' y Hy Hc) as [_ Hconf]. by apply no_confirmation in Hconf.
Qed.

(** No second request uses the channel. *)
Abbreviation other l := (∀ o m, l ≠ Ran i (evRead ch) o m).

Lemma tracked_step x Ax l x' :
  reached x Ax → grows A Ax → tracked x → lstep x l x' → other l →
  tracked x' ∧ ∀ ev o m, l = Ran i ev o m → answered m.
Proof.
  intros Hx Hg Ht Hl Hother. pose proof (tracked_resp x Ax l x' Hx Hg Hl (tr_resp _ Ht)) as Hresp.
  destruct Hl as [i' nx ev resp o n' Hx' Hdel Hrun|i' nx Hx'|i' d d' o d'' Hx' [Hre _] Hnew].
  - destruct (decide (i' = i)) as [->|Hne].
    + assert (ev ≠ evRead ch) as Hev by (intros ->; by destruct (Hother o n')).
      destruct (tracked_event x Ax ev o nx n' resp Hx Hg Ht Hx' Hdel Hrun Hev) as [Hans Hnode]. split; [|by intros ? ? ? [= <- <- <-]].
      split; [done|]. intros n2 Hn2. rewrite after_node in Hn2. destruct o as [[]|e| |]; simplify_eq. by apply Hnode.
    + split; [|by intros ? ? ? [= ? _ _ _]]. split; [done|]. intros n2 Hn2.
      apply after_nodes in Hn2 as [[? _]|[_ Hn2]]; [congruence|by apply (tr_node _ Ht)].
  - split; [|done]. split; [done|]. intros n2 [[_ ?]|[_ Hn2]]%nodes_insert_inv; [done|by apply (tr_node _ Ht)].
  - split; [|done]. split; [done|]. intros n2 [[_ Hn2]|[_ Hn2]]%nodes_insert_inv; [|by apply (tr_node _ Ht)].
    destruct (wr_nodes _ _ _ _ (re_wrel _ _ Hx) _ _ Hx') as (P & _ & Hwf & _). destruct (reboot_law d d' Hwf Hre) as (Hwf' & _).
    pose proof (NewNode_recovers (conf i') Cfg s0 compactAt peers d' Hwf') as Hrec. rewrite Hnew in Hrec.
    destruct o as [n0|e| |]; simplify_eq. right. destruct Hrec as [_ Hok]. by destruct (Hok n0 eq_refl) as [_ Hf].
Qed.

Lemma tracked_runs x Ax ls x' :
  reached x Ax → grows A Ax → tracked x → runs x ls x' → Forall (λ l, other l) ls →
  ∀ ev o m, Ran i ev o m ∈ ls → answered m.
Proof.
  intros Hx Hg Ht Hr. revert Ax Hx Hg Ht. induction Hr as [x|x l x1 ls x' Hl Hroom _ IH]; intros Ax Hx Hg Ht Hls ev o m Hin; [by apply elem_of_nil in Hin|].
  inversion Hls as [|? ? Hother Hrest]; subst. destruct (tracked_step x Ax l x1 Hx Hg Ht Hl Hother) as [Ht1 Hans].
  destruct (reached_step x Ax l x1 Hx Hl Hroom) as (A1 & Hx1 & Hg1 & _).
  apply elem_of_cons in Hin as [<-|Hin]; [by eapply Hans|]. eapply (IH A1); try done. by eapply grows_trans.
Qed.

(** The answer covers what was known when the barrier was requested. *)
Lemma answer_covers o1 n1 ls w' ev o m k b :
  forgets ch n → runs w (Ran i (evRead ch) o1 n1 :: ls) w' → Forall (λ l, other l) ls →
  Ran i ev o m ∈ Ran i (evRead ch) o1 n1 :: ls → (ch, ReplyRead (inl k)) ∈ replies m → known w A b → b ≤ k ≤ applied m.
Proof.
  intros Hf Hr Hls Hin Hrep Hb. inversion Hr as [|? ? w1 ? ? Hl Hroom Hrest]; subst. destruct (tracked_ask o1 n1 w1 Hl Hf) as [Ht Hans].
  destruct (reached_step w A _ w1 Hask Hl Hroom) as (A1 & Hw1 & Hg1 & _).
  assert (answered m) as Hm.
  { apply elem_of_cons in Hin as [Heq|Hin]; [injection Heq as -> -> ->; done|]. eapply (tracked_runs w1 A1); try done. }
  destruct (Hm k Hrep) as (-> & [? ?] & Hc & ?). split; [|done]. by eapply (leader_knows w A i n).
Qed.
End barrier.

Lemma applied_known w A j n : reached w A → nodes w !! j = Some (Up n) → known w A (applied n).
Proof.
  intros [_ _ [[_ Hsane] _] Hr Hrw] Hj. destruct (wr_nodes _ _ _ _ Hr _ _ Hj) as (F & [_ _ Ha _]). destruct (Hsane j n Hj) as [_ ?].
  destruct (rw_up _ _ Hrw _ _ Hj) as [Hk _]. eapply known_le; [exact Hk|]. rewrite Ha. lia.
Qed.

Lemma runs_last w ls l w' : runs w ls w' → last ls = Some l → ∃ x, lstep x l w'.
Proof.
  intros Hr Hl. apply last_Some in Hl as (ls' & ->). apply runs_snoc in Hr as (x & _ & ? & _). by exists x.
Qed.
End known.

(** ** The theorem *)

(** C4: Linearizable reads.  Take a run of a cluster of fixed membership through the
    worlds [v], [w] and [w'].  In [w], node [i] is asked for a read barrier, on a
    channel that nothing waits on and that no later request uses, and its last event
    before [w'] answers the barrier with index [k].  Then everything that any node had
    applied in [v] or in any world before the request is covered by [k], and [i] has
    applied through [k]: the state the read will see is a replay, from one common log,
    of at least as many entries as any node had seen when the barrier was requested.
    Elections, partitions, stops and boots may happen at any point of the run.  The run
    is one in which machines come up with durable disks, terms and indices stay below
    the end of the 64-bit range and the counters of messages and barriers have room,
    and no node's commit index is set below what it has delivered. *)
Theorem read_barrier_safety {D S} `{RaftDiskLaws D} `{GoRuntime} `{StateMachineLaws S}
    (Cfg : Members) (conf : Z → Config) (s0 : S) compactAt peers (w0 v w w' : world D S) l0 l1 l2 i n ch o1 n1 ev o m k j nj :
  members_wf Cfg → (∀ k, k ∈ dom Cfg → ID (conf k) = k) → initial Cfg w0 →
  runs Cfg conf s0 compactAt peers w0 l0 v → runs Cfg conf s0 compactAt peers v l1 w →
  nodes w !! i = Some (Up n) → forgets ch n →
  runs Cfg conf s0 compactAt peers w (Ran i (evRead ch) o1 n1 :: l2) w' →
  Forall (λ l, ∀ o m, l ≠ Ran i (evRead ch) o m) l2 →
  last (Ran i (evRead ch) o1 n1 :: l2) = Some (Ran i ev o m) → (ch, ReplyRead (inl k)) ∈ replies m →
  nodes v !! j = Some (Up nj) →
  applied nj ≤ k ≤ applied m ∧
  (o = Ok () → ∃ log, applied m ≤ zlength log ∧ sm nj = replay s0 (ztake (applied nj) log) ∧ sm m = replay s0 (ztake (applied m) log)).
Proof.
  intros Hwf Hids H0' Hr0 Hr1 Hi Hf Hr2 Hother Hlast Hrep Hj. pose proof (decodeMembers_encode Cfg Hwf) as Hrt.
  destruct (reached_initial Cfg conf s0 compactAt peers w0 H0') as (A0 & Hw0).
  destruct (reached_runs Cfg conf s0 compactAt peers Hwf Hrt Hids w0 A0 l0 v Hw0 Hr0) as (Av & Hv & _).
  destruct (reached_runs Cfg conf s0 compactAt peers Hwf Hrt Hids v Av l1 w Hv Hr1) as (A & Hw & Hg1 & Hk).
  destruct (reached_runs Cfg conf s0 compactAt peers Hwf Hrt Hids w A _ w' Hw Hr2) as (A' & Hw' & Hg2 & _). split.
  - eapply (answer_covers Cfg conf s0 compactAt peers Hwf Hrt Hids i ch w A n Hw Hi); [exact Hf|exact Hr2|exact Hother|by apply last_Some_elem_of|exact Hrep|].
    by eapply Hk, applied_known.
  - intros ->. destruct (runs_last _ _ _ _ _ w _ _ w' Hr2 Hlast) as (x & Hx). inversion Hx as [? n2 ? resp ? ? Hx' Hdel Hrun| |]; subst.
    assert (∀ p, nodes (ran x i (Ok ()) m p) !! i = Some (Up m)) as Hm by (intros p; rewrite ran_eq; cbv zeta; cbn; apply lookup_insert_eq).
    specialize (Hm ((PReq i <$> net m) ++ omap (resp ∘ snd) (replies m))). set (w' := ran x i (Ok ()) m _) in *.
    destruct (worlds_log Cfg s0 A' [v; w']) as (log & _ & Hlog).
    { repeat constructor; [exists Av|exists A']; (split; [by eapply re_wrel|]); [by eapply grows_trans|apply grows_refl]. }
    { eapply wr_inv, re_wrel, Hw'. }
    exists log. destruct (Hlog v j nj ltac:(set_solver) Hj) as (p & _ & Hp & <- & ->). destruct (Hlog w' i m ltac:(set_solver) Hm) as (q & _ & Hq & <- & ->).
    apply prefix_length in Hq as Hle. split; [lia|]. split; f_equal; unfold ztake; rewrite Nat2Z.id; [destruct Hp as [y ->]|destruct Hq as [y ->]]; by rewrite take_app_length.
Qed.
