(* ===== verification/Repair.v ===== *)
(** * Log repair

    A leader and one other node exchange AppendEntries and InstallSnapshot, one
    message at a time: the leader backs up on a refusal and goes forward on an
    answer.  [log_repair_terminates]: the exchange ends and, if the disks work
    ([WorkingDisk]), it ends with the leader's log in the follower's.  What is used of the two cores is stated by
    [holds] and [leads], which every reachable world of StateSafety provides. *)

From stdpp Require Import prelude gmap strings sorting.
From S2P Require Import Prelude GoRuntime GoBytes RaftTypes Membership RaftLaws Core CoreVotes RaftSpec CoreLog.
From S2P Require Import CoreRefine CoreSteps CoreElections CoreReplicate CoreSnapshot Node Cluster NodeRefine StateSafety.
Open Scope Z_scope.

(** ** The exchange *)

Section exchange.
Context {D : Type} `{RaftDisk D} `{GoRuntime}.
Abbreviation C := (core D).

#[export] Instance set_leader_side : Setter (@fst C C) := λ f p, (f p.1, p.2).
#[export] Instance set_follower_side : Setter (@snd C C) := λ f p, (p.1, f p.2).

Definition for_peer (j : Z) (o : outbound) : bool :=
  match o with
  | OutAppendEntries to _ | OutInstallSnapshot to _ => to =? j
  | _ => false
  end.

(** A message of the leader is handled by node [j] and the answer by the leader. *)
Definition exchange (j : Z) (o : outbound) : M (C * C) () :=
  match o with
  | OutAppendEntries _ req =>
      resp ← zoom snd (handleAppendEntries req);
      zoom fst (handleAppendResponse j req resp)
  | OutInstallSnapshot _ req =>
      resp ← zoom snd (handleInstallSnapshot req);
      zoom fst (handleInstallSnapshotResponse j req resp)
  | _ => mret ()
  end.

(** As long as the leader has something to send; [false] if that is not over
    after [fuel] messages. *)
Fixpoint catch_up (fuel : nat) (j : Z) : M (C * C) bool :=
  out ← zoom fst takeOutbox;
  match filter (for_peer j) out with
  | [] => mret true
  | o :: _ =>
      match fuel with
      | O => mret false
      | S fuel' => exchange j o;; catch_up fuel' j
      end
  end.

(** ... from a heartbeat on. *)
Definition repair (fuel : nat) (j : Z) : M (C * C) bool :=
  zoom fst takeOutbox;; zoom fst (sendAppend j);; catch_up fuel j.
End exchange.

(** ** Logs *)

Lemma ztake_length {A} k (l : list A) : 0 ≤ k ≤ zlength l → zlength (ztake k l) = k.
Proof. intros. unfold ztake. rewrite length_take. lia. Qed.

Lemma prefix_last_term (F G : list Entry) k :
  0 ≤ k ≤ zlength G → ztake k G `prefix_of` F → last_term (ztake k F) = last_term (ztake k G).
Proof. intros Hk Hp. apply ztake_prefix_iff in Hp as [-> _]; [done|lia]. Qed.

Section logs.
Context (Cfg : Members) (A : abs) (Hinv : ainv Cfg A).

(** Terms do not decrease along a log. *)
Lemma terms_sorted F a b :
  log_ok A F → 0 < a ≤ b → b ≤ zlength F → last_term (ztake a F) ≤ last_term (ztake b F).
Proof.
  intros HF Ha Hb.
  destruct (lookup_lt_is_Some_2 F (Z.to_nat (a - 1))) as [x Hx]; [lia|].
  destruct (lookup_lt_is_Some_2 F (Z.to_nat (b - 1))) as [y Hy]; [lia|].
  unfold ztake. replace (Z.to_nat a) with (S (Z.to_nat (a - 1))) by lia. replace (Z.to_nat b) with (S (Z.to_nat (b - 1))) by lia.
  rewrite (last_term_take _ _ _ Hx), (last_term_take _ _ _ Hy). destruct (HF _ _ Hy) as (ld & Hld & Hp).
  pose proof (lo_terms _ _ _ _ (ai_leads _ _ Hinv _ _ Hld)) as Hle. rewrite Forall_forall in Hle. apply Hle.
  apply (list_elem_of_lookup_2 _ (Z.to_nat (a - 1))). apply (prefix_lookup_1 _ _ _ _ Hp). rewrite lookup_take_lt by lia. done.
Qed.
End logs.

(** ** What the queries return *)

Section queries.
Context {D : Type} `{RaftDisk D} `{GoRuntime}.
Abbreviation C := (core D).

Lemma fill_entries_ok fuel (F : list Entry) b i payload :
  log_wf F → 0 ≤ b < i → zlength F + 1 - i < Z.of_nat fuel → is_u64 i →
  ∃ es, fill_entries fuel (zdrop b F) (b + 1) i (zlength F) payload = Ok es.
Proof.
  intros Hwf. pose proof (log_wf_length F Hwf) as Hlen. revert i payload.
  induction fuel as [|fuel IH]; intros i payload Hb Hf Hu; simpl; destruct (_ <? _) eqn:E; zify_bool; eauto; [lia|].
  rewrite (u64_small (i - (b + 1))), (u64_small (i + 1)) by (unfold is_u64 in *; lia).
  destruct (lookup_lt_is_Some_2 F (Z.to_nat (i - 1))) as [e He]; [lia|].
  rewrite (proj2 (zindex_lookup (zdrop b F) (i - (b + 1)) e)).
  2:{ split; [lia|]. unfold zdrop. rewrite lookup_drop. by replace (Z.to_nat b + Z.to_nat (i - (b + 1)))%nat with (Z.to_nat (i - 1)) by lia. }
  cbn [mbind outcome_bind]. destruct (_ <=? _); [eauto|].
  destruct (IH (i + 1) (payload + zlength (EntryCommand e))) as [es ->]; [lia|lia|unfold is_u64 in *; lia|]. cbn. eauto.
Qed.

(** The entries of a request: none only when the peer has them all. *)
Lemma chosen_ok F (c : C) next :
  shape F c → snapIndex c < next ≤ zlength F + 1 →
  ∃ es, match entries c with
    | e0 :: _ => if next <=? lastLogIndex c
                 then fill_entries (S (length (entries c))) (entries c) (Index e0) next (lastLogIndex c) 0
                 else Ok []
    | [] => Ok []
    end = Ok es ∧ es `prefix_of` zdrop (next - 1) F ∧ (es = [] → next = zlength F + 1).
Proof.
  intros Hsh Hn. pose proof (sh_snap _ _ _ _ Hsh) as Hs. pose proof (log_wf_length F (sh_wf _ _ _ _ Hsh)) as Hlen.
  destruct (decide (entries c = [])) as [E|(e0 & l & El)%nonempty_cons].
  { pose proof (shape_entries_nil F c Hsh E). exists []. rewrite E. split_and!; [done|apply prefix_nil|lia]. }
  destruct (shape_entries_cons F c e0 l Hsh El) as [Hb Hlt]. destruct (next <=? zlength F) eqn:E; zify_bool.
  - destruct (fill_entries_ok (S (length (zdrop (snapIndex c) F))) F (snapIndex c) next 0) as [es Hes];
      [apply Hsh|lia|unfold zdrop; rewrite length_drop; lia|unfold is_u64; lia|].
    exists es. rewrite El at 1. rewrite (shape_lastLogIndex F c Hsh), Hb, (sh_entries _ _ _ _ Hsh).
    rewrite (proj2 (Z.leb_le _ _)) by lia. split; [done|].
    eapply fill_entries_slice in Hes as [? Hnil]; [|apply Hsh|lia..|unfold is_u64; lia]. split; [done|]. intros ?%Hnil. lia.
  - exists []. rewrite El, (shape_lastLogIndex F c Hsh), (proj2 (Z.leb_gt _ _)) by lia. split_and!; [done|apply prefix_nil|lia].
Qed.

(** The run of equal terms that a refusal points to. *)
Lemma firstIndexOfTerm_ok F (c : C) t from :
  shape F c → 0 < from ≤ zlength F → term_at F (snapIndex c) from = t →
  ∃ x, firstIndexOfTerm c t from = Ok x ∧ 1 ≤ x ≤ from ∧ ∀ k, x ≤ k ≤ from → term_at F (snapIndex c) k = t.
Proof.
  intros Hsh Hf Ht. pose proof (log_wf_length F (sh_wf _ _ _ _ Hsh)) as Hlen. unfold firstIndexOfTerm.
  assert (∀ fuel i, 1 ≤ i ≤ from → (∀ k, i ≤ k ≤ from → term_at F (snapIndex c) k = t) →
    ∃ x, first_index_loop fuel c t i = Ok x ∧ 1 ≤ x ≤ from ∧ ∀ k, x ≤ k ≤ from → term_at F (snapIndex c) k = t) as Hl.
  { induction fuel as [|fuel IH]; intros i Hi Hk; simpl; [by exists i|]. destruct (1 <? i) eqn:E; cbn [negb]; zify_bool; [|by exists i].
    rewrite (u64_small (i - 1)) by (unfold is_u64; lia). rewrite (shape_termAt F c) by (try done; unfold is_u64; lia).
    cbn [mbind outcome_bind]. destruct (_ =? _) eqn:E2; zify_bool; [|by exists i]. apply IH; [lia|].
    intros k Hk'. destruct (decide (k = i - 1)) as [->|]; [done|]. apply Hk. lia. }
  apply Hl; [lia|]. intros k Hk. by replace k with from by lia.
Qed.

(** [lastIndexOfTerm] finds the last entry of a term, among those kept. *)
Lemma lastIndexOfTerm_ok F (c : C) t :
  shape F c → 0 < t →
  (∀ a b, 0 < a ≤ b → b ≤ zlength F → last_term (ztake a F) ≤ last_term (ztake b F)) →
  ∃ x, lastIndexOfTerm c t = Ok x ∧ 0 ≤ x ≤ zlength F ∧ (x ≠ 0 → snapIndex c ≤ x ∧ last_term (ztake x F) = t) ∧
    ∀ k, snapIndex c ≤ k → 0 < k ≤ zlength F → last_term (ztake k F) = t → k ≤ x.
Proof.
  intros Hsh Ht Hmono. pose proof (log_wf_length F (sh_wf _ _ _ _ Hsh)) as Hlen. unfold lastIndexOfTerm.
  rewrite (shape_lastLogIndex F c Hsh).
  assert (∀ fuel i, Z.of_nat fuel = i → i ≤ zlength F →
    (∀ k, i < k ≤ zlength F → last_term (ztake k F) ≠ t) →
    ∃ x, last_index_loop fuel c t i = Ok x ∧ 0 ≤ x ≤ zlength F ∧ (x ≠ 0 → snapIndex c ≤ x ∧ last_term (ztake x F) = t) ∧
      ∀ k, snapIndex c ≤ k → 0 < k ≤ zlength F → last_term (ztake k F) = t → k ≤ x) as Hl.
  2:{ apply Hl; [lia|lia|]. intros. lia. }
  induction fuel as [|fuel IH]; intros i Hfi Hi Hno; simpl.
  { exists 0. split_and!; [done|lia..|]. intros k _ Hk Hkt. destruct (Hno k); [lia|done]. }
  rewrite (proj2 (Z.ltb_lt _ _)) by lia. cbn [negb]. rewrite (shape_termAt F c) by (try done; unfold is_u64; lia).
  cbn [mbind outcome_bind]. unfold term_at.
  destruct ((snapIndex c <=? i) && (i <=? zlength F)) eqn:Er; zify_bool.
  2:{ apply andb_false_iff in Er. rewrite (proj2 (Z.eqb_neq _ _)) by lia. rewrite (proj2 (Z.ltb_lt _ _)) by lia. cbn [orb].
      exists 0. split_and!; [done|lia..|]. intros k Hs Hk Hkt. destruct (decide (i < k)) as [?|?]; [by destruct (Hno k); [lia|]|].
      destruct Er as [Er|Er]; zify_bool; lia. }
  destruct (_ =? _) eqn:E; zify_bool.
  { exists i. split_and!; [done|lia..|]. intros k Hs Hk Hkt. destruct (decide (i < k)) as [?|?]; [by destruct (Hno k); [lia|]|lia]. }
  destruct (_ || _) eqn:E2.
  - exists 0. split_and!; [done|lia..|]. intros k Hs Hk Hkt. destruct (decide (i < k)) as [?|?]; [by destruct (Hno k); [lia|]|].
    pose proof (Hmono k i ltac:(lia) ltac:(lia)). apply orb_true_iff in E2 as [E2|E2]; zify_bool; lia.
  - zify_bool. rewrite u64_small by (unfold is_u64; lia). apply IH; [lia|lia|]. intros k Hk Hkt.
    destruct (decide (k = i)) as [->|]; [done|]. by apply (Hno k); [lia|].
Qed.
End queries.

(** ** One core *)

Section cores.
Context {D : Type} `{WorkingDisk D} `{GoRuntime}.
Context (Cfg : Members) (A : abs) (Hinv : ainv Cfg A).
Abbreviation C := (core D).

(** [W]: the disks of both nodes work. *)
Context (W : Prop).
Definition fine (d : D) : Prop := d_open d ∧ (W → d_works d).

(** A call that does not panic, and fails only if a disk does; what it leaves if it
    returns. *)
Definition unless_failed {X S} (Q : X → S → Prop) (o : outcome X) (s : S) : Prop :=
  match o with Ok a => Q a s | Panic => False | Err _ | Crash => ¬ W end.

(** *** What the disk does *)

Lemma wp_fine {X} (m : M D X) (R : X → D → Prop) d :
  wp m (λ o d', match o with Ok x => d_open d' ∧ R x d' | Panic => False | Err _ | Crash => True end) d →
  (W → wp m (λ o d', succeeds o ∧ d_works d') d) →
  wp m (unless_failed (λ x d', fine d' ∧ R x d')) d.
Proof. unfold wp, fine. destruct (m d) as [[x|e| |] d']; cbn; naive_solver. Qed.

Lemma saveState_fine t v d :
  fine d → is_u64 t → is_u64 v → wp (saveState t v) (unless_failed (λ _ d', fine d' ∧ True)) d.
Proof.
  intros [Ho Hw] Ht Hv. apply wp_fine; [|intros HW; by apply saveState_works, Hw].
  eapply wp_mono; [by apply saveState_law|]. intros o d' (_ & Hop & _ & _ & Hr). destruct o; try done. by split; [apply Hop|].
Qed.

Lemma logAppend_fine es d :
  fine d → Forall entry_wf es → consecutive es → wp (logAppend es) (unless_failed (λ _ d', fine d' ∧ True)) d.
Proof.
  intros [Ho Hw] Hes Hc. apply wp_fine; [|intros HW; by apply logAppend_works; [apply Hw|]].
  eapply wp_mono; [by apply logAppend_law|]. intros o d' (_ & Hop & _ & _ & Hr). destruct o; try done. by split; [apply Hop|].
Qed.

Lemma logRewrite_fine es d :
  fine d → Forall entry_wf es → wp (logRewrite es) (unless_failed (λ _ d', fine d' ∧ True)) d.
Proof.
  intros [Ho Hw] Hes. apply wp_fine; [|intros HW; by apply logRewrite_works, Hw].
  eapply wp_mono; [by apply logRewrite_law|]. intros o d' (_ & Hop & _ & _ & Hr). destruct o; try done. by split; [apply Hop|].
Qed.

Lemma saveSnapshot_fine s d :
  fine d → snapshot_wf s → wp (saveSnapshot s) (unless_failed (λ _ d', fine d' ∧ True)) d.
Proof.
  intros [Ho Hw] Hs. apply wp_fine; [|intros HW; by apply saveSnapshot_works, Hw].
  eapply wp_mono; [by apply saveSnapshot_law|]. intros o d' (_ & Hop & _ & _ & Hr). destruct o; try done. by split; [apply Hop|].
Qed.

Lemma loadSnapshot_fine d :
  fine d → wp loadSnapshot (λ o d', (∀ s, may_snap d' s → may_snap d s) ∧
    match o with Ok s => fine d' ∧ may_snap d s | Err _ => fine d' ∧ ¬ W | Panic => False | Crash => ¬ W end) d.
Proof.
  intros [Ho Hw]. pose proof (d_open_wf d Ho) as Hd. pose proof (loadSnapshot_law d Hd) as Hl.
  assert (W → wp loadSnapshot (λ o d', succeeds o ∧ d_works d') d) as Hwk by (intros HW; by apply loadSnapshot_works, Hw).
  unfold wp, fine in *. destruct (loadSnapshot d) as [o d']. cbn in *. destruct Hl as (_ & Hop & _ & _ & _ & Hsn & Hr).
  split; [done|]. destruct o; cbn in *; naive_solver.
Qed.

(** The core's log is [F]; it delivers what it knows to be committed. *)
Record holds (F : list Entry) (c : C) : Prop := {
  h_shape : shape F c;
  h_log : log_ok A F;
  h_open : fine (disk c);
  h_delivered : snapIndex c ≤ lastDelivered c ≤ commitIndex c;
  h_commit : commitIndex c ≤ zlength F
}.

Definition body (c : C) := ((entries c, snapIndex c, snapTerm c), (commitIndex c, lastDelivered c), cfg c).
Definition timed (c : C) : Prop := ElectionTicksMin (cfg c) < ElectionTicksMax (cfg c).

Lemma body_eq (c c' : C) : body c' = body c →
  entries c' = entries c ∧ snapIndex c' = snapIndex c ∧ snapTerm c' = snapTerm c ∧
  commitIndex c' = commitIndex c ∧ lastDelivered c' = lastDelivered c ∧ cfg c' = cfg c.
Proof. unfold body. intros [= -> -> -> -> -> ->]. done. Qed.

Lemma holds_body F (c c' : C) : body c' = body c → fine (disk c') → holds F c → holds F c'.
Proof. intros (E1 & E2 & E3 & E4 & E5 & _)%body_eq Ho []. split; rewrite ?E1, ?E2, ?E3, ?E4, ?E5; done. Qed.

Lemma wp_failed_bind {S X Y} (R : X → S → Prop) (Q : Y → S → Prop) (m : M S X) (k : X → M S Y) c :
  wp m (unless_failed R) c → (∀ a c', R a c' → wp (k a) (unless_failed Q) c') → wp (m ≫= k) (unless_failed Q) c.
Proof.
  intros Hm Hk. apply wp_bind. eapply wp_mono; [exact Hm|]. intros o c'. destruct o; cbn; auto.
Qed.

Lemma resetElectionTimer_ok (c : C) :
  timed c → wp resetElectionTimer (λ o c', o = Ok () ∧ body c' = body c ∧ disk c' = disk c ∧ term c' = term c) c.
Proof.
  intros Ht. unfold resetElectionTimer, timed in *. apply wp_bind, wp_get. cbn [wpk]. cbv zeta. apply wp_bind, wp_modify. cbn [wpk].
  rewrite (proj2 (Z.leb_gt _ _)) by lia. by apply wp_modify.
Qed.

Lemma stepDown_ok t (c : C) :
  fine (disk c) → is_u64 t →
  wp (stepDown t) (unless_failed (λ _ c', body c' = body c ∧ fine (disk c') ∧ term c' = t)) c.
Proof.
  intros Ho Hu. unfold stepDown, abortPendingReads. apply wp_bind, wp_modify. cbn [wpk]. apply wp_bind, wp_modify. cbn [wpk].
  apply wp_wrap, wp_zoom. eapply wp_mono; [apply saveState_fine; [exact Ho|exact Hu|unfold is_u64, noVote; lia]|].
  intros o d Hr. destruct o as [[]|e| |]; [|exact Hr..]. split; [reflexivity|]. split; [apply Hr|reflexivity].
Qed.

Lemma recognize_leader_ok id (c : C) :
  timed c → wp (recognize_leader id) (λ o c', o = Ok () ∧ body c' = body c ∧ disk c' = disk c ∧ term c' = term c) c.
Proof.
  intros Ht. unfold recognize_leader. apply wp_bind, wp_modify. cbn [wpk]. apply wp_bind, wp_modify. cbn [wpk].
  match goal with |- wp _ _ ?s => assert (body s = body c ∧ disk s = disk c ∧ term s = term c) as (Hb & Hd & Htm)
    by (case_bool_decide; done); revert Hb Hd Htm; generalize s; intros c1 Hb Hd Htm end.
  apply wp_bind. eapply wp_mono; [apply resetElectionTimer_ok; unfold timed in *; by destruct (body_eq _ _ Hb) as (_ & _ & _ & _ & _ & ->)|].
  intros o c2 (-> & Hb2 & Hd2 & Ht2). cbn [wpk]. apply wp_modify. cbn. split_and!; [done| |congruence..].
  change (body c2 = body c). congruence.
Qed.

(** The follower takes part in the leader's term. *)
Lemma follow_ok {X} T id (refuse : C → X) (k : C → M C X) (Q : X → C → Prop) (c : C) :
  term c ≤ T → is_u64 T → fine (disk c) → timed c →
  (∀ c', body c' = body c → fine (disk c') → term c' = T → wp (k c') (unless_failed Q) c') →
  wp ((if term c <? T then stepDown T else mret ());; c1 ← get;
      if T <? term c1 then mret (refuse c1) else recognize_leader id;; c2 ← get; k c2) (unless_failed Q) c.
Proof.
  intros Ht Hu Ho Htm Hk.
  eapply (wp_failed_bind (λ _ c', body c' = body c ∧ fine (disk c') ∧ term c' = T)).
  { destruct (_ <? _) eqn:E; [by apply stepDown_ok|]. apply wp_ret. zify_bool. cbn. split_and!; [done..|lia]. }
  intros _ c1 (Hb1 & Ho1 & Ht1). apply wp_bind, wp_get. cbn [wpk]. rewrite Ht1, Z.ltb_irrefl.
  apply wp_bind. eapply wp_mono; [apply recognize_leader_ok; unfold timed in *; by destruct (body_eq _ _ Hb1) as (_ & _ & _ & _ & _ & ->)|].
  intros o c2 (-> & Hb2 & Hd2 & Ht2). cbn [wpk]. apply wp_bind, wp_get. cbn [wpk]. apply Hk; congruence.
Qed.

Lemma deliverCommitted_ok F (c : C) :
  shape F c → snapIndex c ≤ lastDelivered c ≤ commitIndex c → commitIndex c ≤ zlength F →
  wp deliverCommitted (unless_failed (λ _ c', ∃ q d, c' = c <| committed := q |> <| lastDelivered := d |> ∧
    lastDelivered c ≤ d ≤ commitIndex c)) c.
Proof.
  intros Hsh Hd Hc. pose proof (log_wf_length F (sh_wf _ _ _ _ Hsh)) as HF. pose proof (sh_snap _ _ _ _ Hsh) as Hsn.
  unfold deliverCommitted. apply wp_bind, wp_get. cbn [wpk]. destruct (decide (entries c = [])) as [E|(e0 & l & El)%nonempty_cons].
  { rewrite E. apply wp_ret. exists (committed c), (lastDelivered c). split; [by destruct c|lia]. }
  destruct (shape_entries_cons F c e0 l Hsh El) as [Hb Hlt]. rewrite El at 1. rewrite Hb, u64_small by (unfold is_u64; lia).
  apply wp_bind. eapply wp_mono; [apply (deliver_loop_spec _ F); [apply Hsh|apply Hsh|lia..]|].
  intros o c1 [(-> & _ & Hf)|[-> ->]]; cbn [wpk].
  { rewrite (sh_entries _ _ _ _ Hsh) in Hf. unfold zdrop in Hf. rewrite length_drop in Hf. lia. }
  apply wp_modify. cbn. eexists _, (Z.max (lastDelivered c) (commitIndex c)). split; [|lia].
  destruct (_ <? _) eqn:E; zify_bool; unfold set, set_committed, set_lastDelivered; cbn; f_equal; lia.
Qed.

(** What stays when the log changes. *)
Definition frame (c : C) := ((commitIndex c, term c), cfg c).

Section truncate.
Context (F : list Entry) (c : C) (f : Z) (e : Entry) (r : list Entry).
Context (Hh : holds F c) (Hf : commitIndex c ≤ f ≤ zlength F) (He : Index e = f + 1).
Context (Hwf : log_wf (ztake f F ++ e :: r)) (Hok : log_ok A (ztake f F ++ e :: r)).

Lemma rest_plain : Forall plain (e :: r).
Proof.
  apply Forall_lookup_2. intros k x Hx. destruct (Hwf (length (ztake f F) + k)%nat x) as (_ & _ & ?); [|done].
  rewrite lookup_app_r by lia. by rewrite Nat.add_comm, Nat.add_sub.
Qed.

Lemma rest_consecutive : consecutive (e :: r).
Proof.
  pose proof (log_wf_length _ Hwf) as Hl. intros k x y Hx Hy.
  assert (∀ i z, (e :: r) !! i = Some z → Index z = zlength (ztake f F) + Z.of_nat i + 1 ∧ Index z ≤ zlength (ztake f F ++ e :: r)) as Hat.
  { intros i z Hz. destruct (Hwf (length (ztake f F) + i)%nat z) as (-> & _).
    - rewrite lookup_app_r by lia. by rewrite Nat.add_comm, Nat.add_sub.
    - apply lookup_lt_Some in Hz. rewrite length_app. lia. }
  destruct (Hat _ _ Hx), (Hat _ _ Hy). rewrite u64_small by (unfold is_u64; lia). lia.
Qed.

Lemma persist_ok (t : bool) :
  wp (wrap "raft: persisting entries: %w" (zoom disk (logAppend (e :: r)));;
      modify (set entries (λ l, l ++ e :: r));;
      if t then recalcConfig else noteAppendedConfigs (e :: r))
    (unless_failed (λ _ c', holds (ztake f F ++ e :: r) c' ∧ frame c' = frame c))
    (c <| entries := zdrop (snapIndex c) (ztake f F) |>).
Proof.
  pose proof (sh_snap _ _ _ _ (h_shape _ _ Hh)) as Hs. pose proof (h_delivered _ _ Hh) as Hd. pose proof rest_plain as Hpl.
  pose proof (ztake_length f F ltac:(lia)) as Hlen.
  apply wp_bind, wp_wrap, wp_zoom. eapply wp_mono.
  { apply logAppend_fine; [exact (h_open _ _ Hh)| |exact rest_consecutive]. eapply Forall_impl; [exact Hpl|]. by intros x [? _]. }
  intros o d Hr. destruct o as [[]|e'| |]; [|exact Hr..]. destruct Hr as [Hop _]. cbn [wpk].
  apply wp_bind, wp_modify. cbn [wpk].
  match goal with |- wp _ _ ?s => assert (holds (ztake f F ++ e :: r) s ∧ frame s = frame c) as [Hh1 Hfr];
    [|revert Hh1 Hfr; generalize s; intros c1 Hh1 Hfr] end.
  { split; [|reflexivity]. split; cbn; [|done|exact Hop|done|].
    - split; [done|rewrite length_app; lia| |].
      + rewrite zdrop_app_le by lia. done.
      + rewrite (sh_term _ _ _ _ (h_shape _ _ Hh)). unfold ztake. rewrite take_app_le by (rewrite length_take; lia).
        rewrite take_take. do 2 f_equal. lia.
    - rewrite length_app. lia. }
  destruct t; [apply wp_modify; split; [eapply holds_body; [| |exact Hh1]; [reflexivity|exact (h_open _ _ Hh1)]|exact Hfr]|].
  apply (wp_for_each (λ s, s = c1)); [done| |by intros s ->]. intros x s Hx ->. rewrite Forall_forall in Hpl.
  destruct (Hpl x Hx) as [_ Hne]. rewrite (proj2 (Z.eqb_neq _ _)) by done. by apply wp_ret.
Qed.

Lemma truncateAndAppend_ok :
  wp (truncateAndAppend (e :: r)) (unless_failed (λ _ c', holds (ztake f F ++ e :: r) c' ∧ frame c' = frame c)) c.
Proof.
  pose proof (h_shape _ _ Hh) as Hsh. pose proof (sh_snap _ _ _ _ Hsh) as Hs. pose proof (h_delivered _ _ Hh) as Hd.
  pose proof (log_wf_length F (sh_wf _ _ _ _ Hsh)) as HF.
  unfold truncateAndAppend. apply wp_bind, wp_get. cbn [wpk]. apply wp_bind, wp_lift. change (zindex (e :: r) 0) with (Ok e). cbn [wpk].
  cbv zeta. rewrite He. rewrite (proj2 (Z.leb_gt _ _)) by lia. rewrite (shape_lastLogIndex F c Hsh).
  assert (zlength F ≤ f → c = c <| entries := zdrop (snapIndex c) (ztake f F) |>) as Hsame.
  { intros Hle. unfold ztake. rewrite take_ge by lia. rewrite <-(sh_entries _ _ _ _ Hsh). by destruct c. }
  apply wp_bind. destruct (decide (entries c = [])) as [El|(e0 & l0 & El)%nonempty_cons].
  { rewrite El. apply wp_ret. cbn [wpk]. pose proof (shape_entries_nil F c Hsh El).
    rewrite (Hsame ltac:(lia)) at 1. apply (persist_ok false). }
  destruct (shape_entries_cons F c e0 l0 Hsh El) as [He0 _]. rewrite El at 1.
  destruct (f + 1 <=? zlength F) eqn:Ef; zify_bool.
  2:{ apply wp_ret. cbn [wpk]. rewrite (Hsame ltac:(lia)) at 1. apply (persist_ok false). }
  rewrite He0, u64_small by (unfold is_u64; lia). replace (f + 1 - (snapIndex c + 1)) with (f - snapIndex c) by lia.
  assert (zlength (entries c) = zlength F - snapIndex c) as Hle.
  { rewrite (sh_entries _ _ _ _ Hsh). unfold zdrop. rewrite length_drop. lia. }
  rewrite zslice_from_ok, zslice_to_ok by lia.
  apply wp_bind, wp_lift. cbn [wpk]. apply wp_bind, wp_lift. cbn [wpk]. apply wp_bind, wp_modify, wp_ret. cbn [wpk].
  match goal with |- wp _ _ ?s => assert (s = c <| entries := zdrop (snapIndex c) (ztake f F) |>) as -> end.
  { rewrite (sh_entries _ _ _ _ Hsh). unfold zdrop, ztake. rewrite take_drop_commute. unfold set, set_entries. do 2 f_equal. f_equal. lia. }
  apply persist_ok.
Qed.
End truncate.

(** ** The follower *)

Section follower.
Context (L : list Entry) (HwL : log_wf L) (HL : log_ok A L).

(** The follower's log is [F], and the leader's log [L] has what is committed of it. *)
Record fits (F : list Entry) (c : C) : Prop := {
  f_holds : holds F c;
  f_commit : ztake (commitIndex c) F `prefix_of` L;
  f_timed : timed c
}.

Lemma fits_body F (c c' : C) : body c' = body c → fine (disk c') → fits F c → fits F c'.
Proof.
  intros Hb Ho [Hh Hc Ht]. pose proof (body_eq _ _ Hb) as (_ & _ & _ & Hci & _ & Hcf). split.
  - by eapply holds_body.
  - by rewrite Hci.
  - unfold timed in *. by rewrite Hcf.
Qed.

Lemma fits_agree F (c : C) : fits F c →
  0 ≤ commitIndex c ≤ zlength L ∧ commitIndex c ≤ zlength F ∧ ztake (commitIndex c) F = ztake (commitIndex c) L.
Proof.
  intros [Hh Hc _]. pose proof (h_commit _ _ Hh). pose proof (h_delivered _ _ Hh).
  pose proof (sh_snap _ _ _ _ (h_shape _ _ Hh)). pose proof (prefix_length _ _ Hc) as Hl.
  apply ztake_prefix_iff in Hc as [-> ?]; [|lia]. split; [lia|]. split; [lia|done].
Qed.

(** A request for the entries after [ae_prevLogIndex]. *)
Record asks_append (req : AppendEntriesRequest) : Prop := {
  aa_prev : 0 ≤ ae_prevLogIndex req ≤ zlength L;
  aa_term : ae_prevLogTerm req = last_term (ztake (ae_prevLogIndex req) L);
  aa_entries : ae_entries req `prefix_of` zdrop (ae_prevLogIndex req) L;
  aa_commit : ae_leaderCommit req ≤ zlength L
}.
Definition covers (req : AppendEntriesRequest) : Z := ae_prevLogIndex req + zlength (ae_entries req).

(** What a refusal tells: where the follower's log ends, or a run of one of its
    terms, which the leader has if the run reaches what is committed. *)
Definition hint (F : list Entry) (commit prev ct ci : Z) : Prop :=
  (ct = 0 ∧ ci = zlength F + 1 ∧ zlength F < prev) ∨
  (0 < ct ∧ 1 ≤ ci ≤ prev ∧ (ci ≤ commit → last_term (ztake commit L) = ct) ∧
    ∀ k, 0 < k ≤ commit → last_term (ztake k L) = ct → last_term (ztake commit L) = ct).

Lemma covers_bound req : asks_append req → ae_prevLogIndex req ≤ covers req ≤ zlength L.
Proof.
  intros [Hp _ He _]. unfold covers. apply prefix_length in He. unfold zdrop in He. rewrite length_drop in He. lia.
Qed.

Lemma check_prev_ok F (c : C) req :
  fits F c → asks_append req → commitIndex c ≤ ae_prevLogIndex req →
  (check_prev c (ae_prevLogIndex req) (ae_prevLogTerm req) = Ok None ∧ ztake (ae_prevLogIndex req) L `prefix_of` F) ∨
  ∃ ct ci, check_prev c (ae_prevLogIndex req) (ae_prevLogTerm req) = Ok (Some (ct, ci)) ∧ 0 < ae_prevLogIndex req ∧
    ¬ ztake (ae_prevLogIndex req) L `prefix_of` F ∧ hint F (commitIndex c) (ae_prevLogIndex req) ct ci.
Proof.
  intros Hfit [Hp Ht _ _] Hc. pose proof (f_holds _ _ Hfit) as Hh. pose proof (h_shape _ _ Hh) as Hsh.
  pose proof (log_wf_length F (sh_wf _ _ _ _ Hsh)) as HF. pose proof (sh_snap _ _ _ _ Hsh) as Hs.
  pose proof (h_delivered _ _ Hh) as Hd. destruct (fits_agree F c Hfit) as (HcL & HcF & Hag). rewrite Ht.
  set (prev := ae_prevLogIndex req) in *.
  assert (check_prev c prev (last_term (ztake prev L)) = Ok None → ztake prev L `prefix_of` F) as Hm.
  { intros Hn. by eapply (check_prev_match Cfg A Hinv F L c Hsh (h_log _ _ Hh) HL). }
  revert Hm. unfold check_prev at 1 2 3. destruct (0 <? prev) eqn:E0; cbn [negb]; [|intros Hm; left; auto].
  rewrite (shape_lastLogIndex F c Hsh). destruct (zlength F <? prev) eqn:E1; zify_bool.
  { intros _. right. exists 0, (zlength F + 1). rewrite u64_small by (unfold is_u64; lia). split_and!; [done|lia| |left; split_and!; lia].
    intros Hx%prefix_length. unfold ztake in Hx. rewrite length_take in Hx. lia. }
  rewrite (shape_termAt F c) by (try done; unfold is_u64; lia). cbn [mbind outcome_bind].
  destruct (term_at _ _ _ =? _) eqn:E2; zify_bool; [intros Hm; left; auto|]. intros _. right.
  destruct (firstIndexOfTerm_ok F c (term_at F (snapIndex c) prev) prev Hsh) as (ci & -> & Hci & Hrun); [lia|done|].
  assert (term_at F (snapIndex c) prev = last_term (ztake prev F)) as Htp.
  { unfold term_at. by rewrite (proj2 (andb_true_iff _ _)) by lia. }
  eexists _, ci. split; [done|]. split; [lia|]. split.
  - intros Hx. apply E2. rewrite Htp. apply prefix_last_term; [lia|done].
  - right. split; [rewrite Htp; apply (last_term_pos Cfg A Hinv F (h_log _ _ Hh)); lia|]. split; [lia|]. split.
    + intros Hle. rewrite <-(Hrun (commitIndex c)), <-Hag by lia. unfold term_at. by rewrite (proj2 (andb_true_iff _ _)) by lia.
    + intros k Hk Hkt. rewrite Htp in *. assert (ztake k F = ztake k L) as Hagk.
      { apply (f_equal (ztake k)) in Hag. unfold ztake in *. rewrite !take_take in Hag.
        by replace (Z.to_nat k `min` Z.to_nat (commitIndex c))%nat with (Z.to_nat k) in Hag by lia. }
      pose proof (terms_sorted Cfg A Hinv F k (commitIndex c) (h_log _ _ Hh) ltac:(lia) ltac:(lia)) as H1'.
      pose proof (terms_sorted Cfg A Hinv F (commitIndex c) prev (h_log _ _ Hh) ltac:(lia) ltac:(lia)) as H2'.
      rewrite Hagk, Hag in *. lia.
Qed.

Lemma new_entries_total F (c : C) es : shape F c → Forall (λ e, is_u64 (Index e)) es → ∃ rest, new_entries c es = Ok rest.
Proof.
  intros Hsh Hes. induction Hes as [|e es He _ IH]; simpl; [eauto|]. destruct (_ <? _); [eauto|].
  rewrite (shape_termAt F c) by done. cbn [mbind outcome_bind]. destruct (negb _); eauto.
Qed.

(** The entries of the request are in the log, whichever of them were missing. *)
Lemma append_entries_ok F (c : C) req rest :
  fits F c → asks_append req → commitIndex c ≤ ae_prevLogIndex req →
  ztake (ae_prevLogIndex req) L `prefix_of` F → new_entries c (ae_entries req) = Ok rest →
  wp (if bool_decide (rest = []) then mret () else truncateAndAppend rest)
    (unless_failed (λ _ c', ∃ F', fits F' c' ∧ frame c' = frame c ∧ ztake (covers req) L `prefix_of` F')) c.
Proof.
  intros Hfit Hreq Hc Hpre Hn. pose proof (covers_bound req Hreq) as Hcov. destruct Hreq as [Hp _ Hes _].
  pose proof (f_holds _ _ Hfit) as Hh. set (prev := ae_prevLogIndex req) in *. unfold covers in *. fold prev in Hcov |- *.
  destruct (new_entries_match Cfg A Hinv F L c (h_shape _ _ Hh) (h_log _ _ Hh) HL prev (ae_entries req) rest)
    as (j & Hj & -> & Hje & Hpj & _); [done|lia|done..|].
  case_bool_decide as Hz.
  { apply wp_ret. exists F. split_and!; [done|done|]. apply (f_equal length) in Hz. unfold zdrop in Hz.
    rewrite length_drop in Hz. simpl in Hz. by replace (zlength (ae_entries req)) with j by lia. }
  apply nonempty_cons in Hz as (e & r & E).
  assert (zdrop j (ae_entries req) `prefix_of` zdrop (prev + j) L) as Hrest.
  { destruct Hes as [x Hx]. unfold zdrop in *. replace (Z.to_nat (prev + j)) with (Z.to_nat prev + Z.to_nat j)%nat by lia.
    rewrite <-drop_drop, Hx. exists x. rewrite drop_app_le by lia. done. }
  apply ztake_prefix_iff in Hpj as [Hpj HjF]; [|lia].
  assert (ztake (prev + j) F ++ zdrop j (ae_entries req) = ztake (prev + zlength (ae_entries req)) L) as Heq.
  { rewrite Hpj, take_app_prefix by (done || lia). f_equal. unfold zdrop. rewrite length_drop. lia. }
  destruct (rest_head L (zdrop j (ae_entries req)) (prev + j) e r) as [He _]; [lia|done|done|]. destruct (HwL _ _ He) as [Hidx _].
  rewrite E in Heq. assert (ztake (prev + zlength (ae_entries req)) L `prefix_of` L) as HpL by apply take_prefix.
  rewrite E. eapply wp_mono.
  { apply (truncateAndAppend_ok F c (prev + j) e r Hh); [lia|lia|rewrite Heq; by eapply log_wf_prefix|rewrite Heq; by eapply log_ok_prefix]. }
  intros o c'. destruct o as [[]|e'| |]; [|done..]. intros [Hh' Hfr]. exists (ztake (prev + j) F ++ e :: r). split_and!; [|exact Hfr|by rewrite Heq].
  pose proof Hfr as [= Hci _ Hcf]. split; [exact Hh'| |unfold timed; rewrite Hcf; apply Hfit]. rewrite Heq. etrans; [apply take_prefix|done].
Qed.

Definition answered (F : list Entry) (c : C) (T : Z) (req : AppendEntriesRequest) (resp : AppendEntriesResponse) (c' : C) : Prop :=
  aer_term resp = T ∧ term c' = T ∧
  if aer_success resp then
    ∃ F', fits F' c' ∧ ztake (covers req) L `prefix_of` F' ∧ commitIndex c' ≤ covers req
  else
    fits F c' ∧ commitIndex c' = commitIndex c ∧ 0 < ae_prevLogIndex req ∧
    ¬ ztake (ae_prevLogIndex req) L `prefix_of` F ∧
    hint F (commitIndex c) (ae_prevLogIndex req) (aer_conflictTerm resp) (aer_conflictIndex resp).

(** Committing what the request covers. *)
Lemma commit_ok F (c : C) req :
  fits F c → asks_append req → commitIndex c ≤ ae_prevLogIndex req → ztake (covers req) L `prefix_of` F →
  wp (if commitIndex c <? ae_leaderCommit req then
        modify (set commitIndex (λ _, Z.min (ae_leaderCommit req) (covers req)));; deliverCommitted
      else mret ())
    (unless_failed (λ _ c', fits F c' ∧ term c' = term c ∧ commitIndex c' ≤ covers req)) c.
Proof.
  intros Hfit Hreq Hc Hpre. pose proof (covers_bound req Hreq) as Hcov. pose proof (f_holds _ _ Hfit) as Hh.
  pose proof (h_delivered _ _ Hh) as Hd. destruct (fits_agree F c Hfit) as (HcL & HcF & _).
  apply ztake_prefix_iff in Hpre as [Hpre HlF]; [|lia].
  destruct (_ <? _) eqn:E; zify_bool; [|apply wp_ret; split; [done|split; [done|lia]]].
  apply wp_bind, wp_modify. cbn [wpk]. set (k := Z.min _ _).
  match goal with |- wp _ _ ?s => assert (fits F s) as Hfit1 end.
  { destruct Hfit as [[] _ ?]. split; [|cbn|done]; [split; cbn; try done; lia|]. etrans; [|apply (take_prefix (Z.to_nat (covers req)))].
    change (take _ L) with (ztake (covers req) L). rewrite <-Hpre. apply ztake_prefix_iff; [lia|]. rewrite ztake_length by lia. split; [|lia].
    unfold ztake. rewrite take_take. f_equal. lia. }
  pose proof (f_holds _ _ Hfit1) as Hh1. eapply wp_mono; [apply (deliverCommitted_ok F _ (h_shape _ _ Hh1) (h_delivered _ _ Hh1) (h_commit _ _ Hh1))|].
  intros o c'. destruct o as [[]|e'| |]; [|done..]. intros (q & d & -> & Hd'). cbn in Hd'. split; [|cbn; split; [done|lia]].
  destruct Hfit1 as [[] ? ?]. split; try done. split; try done. cbn in *. lia.
Qed.

Lemma handleAppendEntries_ok F (c : C) req :
  fits F c → asks_append req → commitIndex c ≤ ae_prevLogIndex req → term c ≤ ae_term req → is_u64 (ae_term req) →
  wp (handleAppendEntries req) (unless_failed (answered F c (ae_term req) req)) c.
Proof.
  intros Hfit Hreq Hc Ht Hu. unfold handleAppendEntries. apply wp_bind, wp_get. cbn [wpk].
  apply (follow_ok (ae_term req) (ae_leaderId req) (λ c1, mkAER (term c1) false (ae_seq req) 0 0)); try done;
    [apply Hfit|apply Hfit|].
  intros c1 Hb1 Ho1 Ht1. assert (fits F c1) as Hfit1 by (by eapply fits_body).
  assert (commitIndex c1 = commitIndex c) as Hci by (by destruct (body_eq _ _ Hb1) as (_ & _ & _ & ? & _)).
  pose proof (h_shape _ _ (f_holds _ _ Hfit1)) as Hsh. apply wp_bind, wp_lift.
  destruct (check_prev_ok F c1 req Hfit1 Hreq ltac:(lia)) as [[-> Hpre]|(ct & ci & -> & Hp & Hno & Hhint)]; cbn [wpk].
  2:{ apply wp_ret. split_and!; [done|done|]. cbn. split_and!; try done. by rewrite <-Hci. }
  apply wp_bind, wp_lift. destruct (new_entries_total F c1 (ae_entries req) Hsh) as [rest Hn].
  { apply Forall_forall. intros e [k Hk]%list_elem_of_lookup. apply (prefix_lookup_1 _ _ _ _ (aa_entries _ Hreq)) in Hk.
    unfold zdrop in Hk. rewrite lookup_drop in Hk. destruct (HwL _ _ Hk) as (? & ? & _). unfold is_u64. lia. }
  rewrite Hn. cbn [wpk]. eapply wp_failed_bind; [apply (append_entries_ok F c1 req rest); try done; lia|].
  intros _ c2 (F2 & Hfit2 & Hfr2 & Hp2). apply wp_bind, wp_get. cbn [wpk]. cbv zeta.
  pose proof Hfr2 as [= Hc2 Ht2 _]. pose proof (covers_bound req Hreq) as Hcov. pose proof (log_wf_length L HwL) as HlL.
  change (ae_prevLogIndex req + zlength (ae_entries req)) with (covers req).
  pose proof (aa_prev _ Hreq). rewrite u64_small by (unfold is_u64; lia).
  eapply wp_failed_bind; [apply (commit_ok F2 c2 req); try done; lia|].
  intros _ c3 (Hfit3 & Ht3 & Hc3). apply wp_bind, wp_get. cbn [wpk]. apply wp_ret.
  split_and!; [cbn; congruence|congruence|]. cbn. by exists F2.
Qed.

(** ** A snapshot *)

Record asks_install (req : InstallSnapshotRequest) : Prop := {
  ai_index : 0 < is_lastIncludedIndex req ≤ zlength L;
  ai_lastTerm : is_lastIncludedTerm req = last_term (ztake (is_lastIncludedIndex req) L);
  ai_config : decodeMembers (is_config req) = Ok Cfg
}.

(** The part of the log that is kept after a snapshot of [ztake x L]. *)
Lemma keep_ok F (c : C) x :
  fits F c → commitIndex c < x ≤ zlength L →
  ∃ F' keep, (if x <=? lastLogIndex c then
      t' ← termAt c x;
      if t' =? last_term (ztake x L) then
        e0 ← zindex (entries c) 0; zslice_from (entries c) (u64 (x - Index e0 + 1))
      else Ok []
    else Ok []) = Ok keep ∧ log_ok A F' ∧ ztake x L `prefix_of` F' ∧ shaped F' x (last_term (ztake x L)) keep.
Proof.
  intros Hfit Hx. pose proof (f_holds _ _ Hfit) as Hh. pose proof (h_shape _ _ Hh) as Hsh. pose proof (h_delivered _ _ Hh) as Hd.
  pose proof (sh_snap _ _ _ _ Hsh) as Hs. pose proof (log_wf_length F (sh_wf _ _ _ _ Hsh)) as HF.
  assert (log_ok A (ztake x L) ∧ ztake x L `prefix_of` ztake x L ∧ shaped (ztake x L) x (last_term (ztake x L)) []) as Hnone.
  { split; [eapply log_ok_prefix; [apply take_prefix|done]|]. split; [done|]. split.
    - eapply log_wf_prefix; [apply take_prefix|done].
    - rewrite ztake_length by lia. lia.
    - symmetry. apply zdrop_nil; [lia|]. rewrite ztake_length by lia. lia.
    - unfold ztake. rewrite take_take. do 2 f_equal. lia. }
  rewrite (shape_lastLogIndex F c Hsh). destruct (x <=? zlength F) eqn:E; [|by exists (ztake x L), []]. zify_bool.
  rewrite (shape_termAt F c) by (try done; unfold is_u64; lia). cbn [mbind outcome_bind].
  destruct (_ =? _) eqn:E2; [|by exists (ztake x L), []]. zify_bool.
  assert (ztake x F = ztake x L) as Heq by (apply (term_at_match Cfg A Hinv F L c (h_log _ _ Hh) HL); [lia|lia|done]).
  destruct (decide (entries c = [])) as [El|(e0 & l & El)%nonempty_cons]; [apply (shape_entries_nil F c Hsh) in El; lia|].
  destruct (shape_entries_cons F c e0 l Hsh El) as [He0 _].
  exists F, (zdrop x F). rewrite El at 1. change (zindex (e0 :: l) 0) with (Ok e0). cbn [mbind outcome_bind].
  rewrite He0, u64_small by (unfold is_u64; lia). rewrite zslice_from_ok.
  2:{ rewrite (sh_entries _ _ _ _ Hsh). unfold zdrop. rewrite length_drop. lia. }
  split_and!; [|apply Hh|apply ztake_prefix_iff; [lia|done]|split; [apply Hsh|lia|done|by rewrite Heq]].
  f_equal. rewrite (sh_entries _ _ _ _ Hsh). unfold zdrop. rewrite drop_drop. f_equal. lia.
Qed.

Lemma handleInstallSnapshot_ok F (c : C) req :
  members_wf Cfg → fits F c → asks_install req → commitIndex c < is_lastIncludedIndex req →
  term c ≤ is_term req → is_u64 (is_term req) →
  wp (handleInstallSnapshot req) (unless_failed (λ resp c', isr_term resp = is_term req ∧ term c' = is_term req ∧
    ∃ F', fits F' c' ∧ ztake (is_lastIncludedIndex req) L `prefix_of` F' ∧ commitIndex c' = is_lastIncludedIndex req)) c.
Proof.
  intros Hcfg Hfit [Hx Hxt Hxc] Hc Ht Hu. unfold handleInstallSnapshot. apply wp_bind, wp_get. cbn [wpk].
  apply (follow_ok (is_term req) (is_leaderId req) (λ c1, mkISR (term c1))); try done; [apply Hfit|apply Hfit|].
  intros c1 Hb1 Ho1 Ht1. assert (fits F c1) as Hfit1 by (by eapply fits_body).
  pose proof (body_eq _ _ Hb1) as (_ & Hsi & _ & Hci & _). pose proof (h_delivered _ _ (f_holds _ _ Hfit)) as Hd.
  pose proof (h_delivered _ _ (f_holds _ _ Hfit1)) as Hd1.
  cbv zeta. rewrite (proj2 (orb_false_iff _ _)) by lia. apply wp_bind, wp_wrap, wp_lift. rewrite Hxc. cbn [wpk].
  pose proof (last_term_u64 L (is_lastIncludedIndex req) HwL) as Htu. pose proof (log_wf_length L HwL) as HlL.
  apply wp_bind, wp_wrap, wp_zoom. eapply wp_mono.
  { apply saveSnapshot_fine; [exact Ho1|]. split_and!; cbn; [unfold is_u64; lia|by rewrite Hxt|done]. }
  intros o d Hr. destruct o as [[]|e'| |]; [|exact Hr..]. destruct Hr as [Hop _]. cbn [wpk].
  destruct (keep_ok F c1 (is_lastIncludedIndex req) Hfit1 ltac:(lia)) as (F' & keep & Hk & HF' & Hpre & Hsh').
  apply wp_bind, wp_lift. rewrite Hxt, Hk. cbn [wpk]. apply wp_bind, wp_wrap, wp_zoom. eapply wp_mono.
  { apply logRewrite_fine; [exact Hop|]. rewrite (sh_entries _ _ _ _ Hsh'). apply log_entry_wf, Hsh'. }
  intros o d' Hr'. destruct o as [[]|e'| |]; [|exact Hr'..]. destruct Hr' as [Hop' _]. cbn [wpk].
  apply wp_bind, wp_modify. cbn [wpk]. apply wp_bind, wp_modify. cbn [wpk]. apply wp_bind, wp_modify. cbn [wpk]. apply wp_ret.
  split; [exact Ht1|]. split; [exact Ht1|]. exists F'. split; [|split; [done|cbn; lia]].
  pose proof (prefix_length _ _ Hpre) as Hlen. unfold ztake in Hlen. rewrite length_take in Hlen.
  split; [split; cbn; [exact Hsh'|done|done|lia|lia]| |exact (f_timed _ _ Hfit1)].
  cbn. rewrite Z.max_l by lia. apply ztake_prefix_iff in Hpre as [-> _]; [|lia]. apply take_prefix.
Qed.
End follower.

(** ** The leader *)

Section leader.
Context (L : list Entry) (HwL : log_wf L) (HL : log_ok A L) (j : Z).
Context (Cfg_rt : decodeMembers (encodeMembers Cfg) = Ok Cfg).

Abbreviation next c := (map_get (nextIndex c) j).
Abbreviation match_ c := (map_get (matchIndex c) j).

(** The leader's log is [L]; its books on node [j]. *)
Record leads (c : C) : Prop := {
  l_holds : holds L c;
  l_role : role c = leader;
  l_term : is_u64 (term c);
  l_maps : nextIndex c ≠ None ∧ matchIndex c ≠ None;
  l_next : 0 ≤ match_ c < next c ∧ next c ≤ zlength L + 1;
  l_snap : ∀ s, may_snap (disk c) s → 0 < snapIndex c →
    snapIndex c ≤ lastIndex s ≤ zlength L ∧ lastTerm s = last_term (ztake (lastIndex s) L) ∧ config s = Some Cfg
}.

Definition pkey (c : C) := (role c, term c, (nextIndex c, matchIndex c), snapIndex c).
Definition queue (c : C) : list outbound := filter (for_peer j) (outbox c).

(** The message the leader sends to [j] in this state. *)
Definition sends (c : C) (o : outbound) : Prop :=
  match o with
  | OutAppendEntries to req =>
      to = j ∧ asks_append L req ∧ ae_term req = term c ∧ snapIndex c < next c ∧
      ae_prevLogIndex req = next c - 1 ∧ (ae_entries req = [] → next c = zlength L + 1)
  | OutInstallSnapshot to req =>
      to = j ∧ asks_install L req ∧ is_term req = term c ∧ next c ≤ snapIndex c ≤ is_lastIncludedIndex req
  | _ => False
  end.

(** It sends one message, unless a disk has failed and it could not read the snapshot
    it should send. *)
Definition sent_one (c : C) : Prop :=
  (∃ o, queue c = [o] ∧ sends c o) ∨ (queue c = [] ∧ next c ≤ snapIndex c ∧ ¬ W).

Lemma pkey_eq (c c' : C) : pkey c' = pkey c →
  role c' = role c ∧ term c' = term c ∧ nextIndex c' = nextIndex c ∧ matchIndex c' = matchIndex c ∧ snapIndex c' = snapIndex c.
Proof. by intros [= -> -> -> -> ->]. Qed.

Lemma leads_key (c c' : C) : holds L c' → pkey c' = pkey c → disk c' = disk c → leads c → leads c'.
Proof.
  intros Hh (E1 & E2 & E3 & E4 & E5)%pkey_eq Hd []. split; rewrite ?E1, ?E2, ?E3, ?E4, ?E5, ?Hd; done.
Qed.

Lemma leads_quiet (c c' : C) : body c' = body c → pkey c' = pkey c → disk c' = disk c → leads c → leads c'.
Proof.
  intros Hb Hk Hd Hl. eapply leads_key; [|exact Hk|exact Hd|exact Hl].
  eapply holds_body; [exact Hb|rewrite Hd|]; apply Hl.
Qed.

Lemma sendAppend_ok (c : C) :
  leads c → queue c = [] →
  wp (sendAppend j) (unless_failed (λ _ c', leads c' ∧ pkey c' = pkey c ∧ sent_one c')) c.
Proof.
  intros Hl Hq. pose proof (l_next _ Hl) as Hn. pose proof (h_shape _ _ (l_holds _ Hl)) as Hsh.
  pose proof (log_wf_length L HwL) as HlL. pose proof (sh_snap _ _ _ _ Hsh) as Hs.
  unfold sendAppend. apply wp_bind, wp_get. cbn [wpk]. cbv zeta. rewrite (proj2 (Z.eqb_neq _ _)) by lia.
  destruct (_ <=? _) eqn:E; zify_bool.
  - apply wp_bind, wp_attempt, wp_zoom. eapply wp_mono; [apply loadSnapshot_fine, (l_holds _ Hl)|].
    intros o d (Hsn & Hr). assert (fine d → leads (c <| disk := d |>)) as Hl1.
    { intros Hop. destruct Hl as [[] ? ? ? ? Hsp]. split; [split; done|done..|]. intros s Hms. apply Hsp, Hsn, Hms. }
    destruct o as [s|e| |]; cbn [wpk]; [|apply wp_ret; destruct Hr; split_and!; [by apply Hl1|done|by right]|exact Hr|exact Hr].
    destruct Hr as [Hop Hr]. specialize (Hl1 Hop).
    destruct (l_snap _ Hl s Hr ltac:(lia)) as (Hsi & Hst & Hsc).
    apply wp_modify. split_and!; [|done|].
    + by eapply leads_quiet; [..|exact Hl1].
    + left. eexists. split; [unfold queue in *; cbn; rewrite filter_app, Hq; cbn; by rewrite Z.eqb_refl|].
      cbn. split_and!; try done; [|lia..]. split; cbn; [lia|done|by rewrite Hsc].
  - apply wp_bind, wp_modify. cbn [wpk]. rewrite (u64_small (next c - 1)) by (unfold is_u64; lia).
    apply wp_bind, wp_lift. rewrite (shape_termAt L c) by (try done; unfold is_u64; lia). cbn [wpk].
    destruct (chosen_ok L c (next c) Hsh ltac:(lia)) as (es & -> & Hes & Hnil). apply wp_bind, wp_lift. cbn [wpk].
    apply wp_modify. split_and!; [by eapply leads_quiet; [..|exact Hl]|done|].
    left. eexists. split; [unfold queue in *; cbn; rewrite filter_app, Hq; cbn; by rewrite Z.eqb_refl|].
    cbn. split_and!; try done. split; cbn; [lia| |done|apply Hl].
    unfold term_at. by rewrite (proj2 (andb_true_iff _ _)) by lia.
Qed.

(** Only the commit index and what goes with it may have changed. *)
Definition only_commit (c c' : C) : Prop := leads c' ∧ pkey c' = pkey c ∧ outbox c' = outbox c.

Lemma advance_loop_ok fuel n (c : C) :
  leads c → n ≤ zlength L → wp (advance_loop fuel n) (unless_failed (λ _ c', only_commit c c')) c.
Proof.
  pose proof (log_wf_length L HwL) as HlL. revert n c. induction fuel as [|fuel IH]; intros n c Hl Hn; simpl; [by apply wp_ret|].
  pose proof (l_holds _ Hl) as Hh. pose proof (h_delivered _ _ Hh) as Hd. pose proof (sh_snap _ _ _ _ (h_shape _ _ Hh)) as Hs.
  apply wp_bind, wp_get. cbn [wpk]. destruct (negb _) eqn:E; [by apply wp_ret|]. zify_bool.
  apply wp_bind, wp_lift. rewrite (shape_termAt L c) by (try apply Hh; unfold is_u64; lia). cbn [wpk].
  destruct (negb _); [by apply wp_ret|]. unfold peerIDs. apply wp_bind, wp_bind, wp_get. cbn [wpk].
  apply wp_bind, wp_modify. cbn [wpk]. apply wp_ret. cbn [wpk].
  match goal with |- wp _ _ ?s => assert (only_commit c s) as (Hl1 & Hk1 & Ho1) by
    (split; [by eapply leads_quiet; [..|exact Hl]|done]); assert (body s = body c) as Hb1 by done;
    revert Hl1 Hk1 Ho1 Hb1; generalize s; intros c1 Hl1 Hk1 Ho1 Hb1 end.
  destruct (_ <=? _).
  - apply body_eq in Hb1 as (_ & Hsi & _ & Hci & Hld & _). pose proof (l_holds _ Hl1) as Hh1.
    apply wp_bind, wp_modify. cbn [wpk]. set (c2 := set commitIndex _ c1).
    assert (holds L c2) as Hh2 by (destruct Hh1; split; cbn; try done; lia).
    eapply wp_mono; [apply (deliverCommitted_ok L c2 (h_shape _ _ Hh2) (h_delivered _ _ Hh2) (h_commit _ _ Hh2))|].
    intros o c'. destruct o as [[]|e| |]; [|done..]. intros (q & d & -> & Hd'). split; [|done].
    apply (leads_key c2); [|reflexivity|reflexivity|apply (leads_key c1); [exact Hh2|reflexivity|reflexivity|exact Hl1]].
    destruct Hh2; split; cbn in *; try done; lia.
  - rewrite u64_small by (unfold is_u64; lia). eapply wp_mono; [by apply IH; [|lia]|].
    intros o c'. destruct o as [[]|e| |]; [|done..]. intros (? & ? & ?). split_and!; [done|congruence..].
Qed.

Lemma maybeAdvanceCommit_ok (c : C) : leads c → wp maybeAdvanceCommit (unless_failed (λ _ c', only_commit c c')) c.
Proof.
  intros Hl. unfold maybeAdvanceCommit. apply wp_bind, wp_get. cbn [wpk]. apply advance_loop_ok; [done|].
  by rewrite (shape_lastLogIndex L c (h_shape _ _ (l_holds _ Hl))).
Qed.

Lemma noteFreshAck_ok seq (c : C) :
  leads c → wp (noteFreshAck j seq) (unless_failed (λ _ c', only_commit c c')) c.
Proof.
  intros Hl. unfold noteFreshAck. apply wp_bind, wp_get. cbn [wpk]. cbv zeta. apply wp_bind, wp_modify. cbn [wpk].
  assert (∀ c' : C, body c' = body c → pkey c' = pkey c → disk c' = disk c → outbox c' = outbox c → only_commit c c') as Hq.
  { intros c' ? ? ? ?. split; [by eapply leads_quiet|done]. }
  destruct (existsb _ _); [|apply wp_ret; by apply Hq]. unfold confirmReads. apply wp_bind, wp_bind, wp_get. cbn [wpk]. cbv zeta.
  apply wp_bind, wp_modify. cbn [wpk]. apply wp_ret. cbn [wpk]. apply wp_ret. by apply Hq.
Qed.

(** The books after node [j] is known to hold [m] entries, ... *)
Definition synced (m : Z) (c : C) : Prop := leads c ∧ match_ c = m ∧ next c = m + 1.

Lemma put_books m n (c : C) k :
  leads c → 0 ≤ m < n → n ≤ zlength L + 1 → (m = match_ c ∨ k = true) →
  wp ((if k then put_match j m else mret ());; put_next j n)
    (unless_failed (λ _ c', leads c' ∧ match_ c' = m ∧ next c' = n ∧ outbox c' = outbox c ∧ snapIndex c' = snapIndex c ∧
       term c' = term c)) c.
Proof.
  intros Hl Hm Hn Hk. destruct (l_maps _ Hl) as [Hni Hmi].
  destruct (nextIndex c) as [ni|] eqn:En; [|done]. destruct (matchIndex c) as [mi|] eqn:Em; [|done].
  unfold put_match, put_next. apply wp_bind.
  apply (wp_mono _ (λ o c1, o = Ok () ∧ ∃ mi', c1 = c <| matchIndex := Some mi' |> ∧ map_get (Some mi') j = m)).
  { destruct k.
    - apply wp_bind, wp_get. cbn [wpk]. rewrite Em. cbn [map_put]. apply wp_bind, wp_lift. cbn [wpk]. apply wp_modify.
      split; [done|]. eexists. split; [done|]. unfold map_get. cbn. by rewrite lookup_insert_eq.
    - apply wp_ret. split; [done|]. exists mi. split; [rewrite <-Em; by destruct c|]. destruct Hk as [->|]; [by rewrite ?Em|done]. }
  intros o c1 (-> & mi' & -> & Hmg). cbn [wpk]. apply wp_bind, wp_get. cbn [wpk]. cbn. rewrite En. cbn [map_put].
  apply wp_bind, wp_lift. cbn [wpk]. apply wp_modify. cbn.
  assert (map_get (Some (<[j:=n]> ni)) j = n) as Hng by (unfold map_get; cbn; by rewrite lookup_insert_eq).
  split_and!; try done. destruct Hl as [[] ? ? ? ? ?].
  split; [split; done|done|done|split; done|cbn [nextIndex matchIndex set set_nextIndex set_matchIndex]; rewrite Hmg, Hng; lia|done].
Qed.

(** ... and what is then on its way to it. *)
Definition moved (m : Z) (c c' : C) : Prop :=
  synced m c' ∧ term c' = term c ∧ snapIndex c' = snapIndex c ∧ ((m < zlength L ∧ sent_one c') ∨ (queue c' = [] ∧ m = zlength L)).

Lemma send_rest_ok m (c c0 : C) :
  synced m c → queue c = [] → term c = term c0 → snapIndex c = snapIndex c0 →
  wp (if next c <=? lastLogIndex c then sendAppend j else mret ()) (unless_failed (λ _, moved m c0)) c.
Proof.
  intros (Hl & Hm & Hn) Hq Ht Hs. rewrite (shape_lastLogIndex L c (h_shape _ _ (l_holds _ Hl))).
  pose proof (l_next _ Hl). destruct (_ <=? _) eqn:E; zify_bool.
  - eapply wp_mono; [by apply sendAppend_ok|]. intros o c'. destruct o as [[]|e| |]; [|done..].
    intros (Hl' & (_ & Ht' & En & Em & Hs')%pkey_eq & Hsent). split_and!; [|congruence..|left; split; [lia|done]].
    split; [done|]. by rewrite Em, En.
  - apply wp_ret. split_and!; [done..|right]. split; [done|lia].
Qed.

(** A pending transfer of the leadership may add a message of its own. *)
Lemma transfer_ok m (c c0 : C) (b : bool) :
  synced m c → queue c = [] → term c = term c0 → snapIndex c = snapIndex c0 →
  wp ((if b then sendTimeoutNow j else mret ());; c1 ← get;
      if next c1 <=? lastLogIndex c1 then sendAppend j else mret ()) (unless_failed (λ _, moved m c0)) c.
Proof.
  intros Hsy Hq Ht Hs. apply wp_bind.
  apply (wp_mono _ (λ o c1, o = Ok () ∧ synced m c1 ∧ queue c1 = [] ∧ term c1 = term c0 ∧ snapIndex c1 = snapIndex c0)).
  { destruct b; [|by apply wp_ret]. unfold sendTimeoutNow. apply wp_bind, wp_get. cbn [wpk]. apply wp_modify. split; [done|].
    destruct Hsy as (Hl & ? & ?). split_and!; try done; [split; [by eapply leads_quiet; [..|exact Hl]|done]|].
    unfold queue in *. cbn. rewrite filter_app, Hq. done. }
  intros o c1 (-> & ? & ? & ? & ?). cbn [wpk]. apply wp_bind, wp_get. cbn [wpk]. by apply send_rest_ok.
Qed.

Lemma acknowledged_ok req resp (c : C) to :
  leads c → queue c = [] → sends c (OutAppendEntries to req) → aer_term resp = term c → aer_success resp = true →
  wp (handleAppendResponse j req resp) (unless_failed (λ _, moved (covers req) c)) c.
Proof.
  intros Hl Hq (_ & Hreq & Hte & Hsn & Hp & Hnil) Ht Hs. pose proof (covers_bound L req Hreq) as Hcov.
  pose proof (log_wf_length L HwL) as HlL. pose proof (l_next _ Hl) as Hn. pose proof (aa_prev _ _ Hreq) as Hpr.
  unfold handleAppendResponse. apply wp_bind, wp_get. cbn [wpk]. rewrite Ht, Z.ltb_irrefl, (l_role _ Hl), Hte, Z.eqb_refl, Hs.
  rewrite bool_decide_eq_true_2 by done. cbn [negb orb]. eapply wp_failed_bind; [by apply noteFreshAck_ok|].
  intros _ c1 (Hl1 & (_ & Ht1 & En & Em & Hs1)%pkey_eq & Ho1). cbv zeta.
  change (ae_prevLogIndex req + zlength (ae_entries req)) with (covers req). rewrite u64_small by (unfold is_u64; lia).
  apply wp_bind, wp_get. cbn [wpk]. assert (queue c1 = []) as Hq1 by (unfold queue in *; congruence).
  eapply (wp_failed_bind (λ _ c2, synced (covers req) c2 ∧ queue c2 = [] ∧ term c2 = term c ∧ snapIndex c2 = snapIndex c)).
  2:{ intros _ c2 (? & ? & ? & ?). apply wp_bind, wp_get. cbn [wpk]. by apply transfer_ok. }
  rewrite Em. destruct (_ <? _) eqn:E; zify_bool.
  - rewrite u64_small by (unfold is_u64; lia). apply assoc_bind.
    eapply wp_failed_bind; [apply (put_books (covers req) (covers req + 1) c1 true); [done|lia|lia|by right]|].
    intros _ c2 (Hl2 & Hm2 & Hn2 & Ho2 & Hs2 & Ht2). eapply wp_mono; [by apply maybeAdvanceCommit_ok|].
    intros o c3. destruct o as [[]|e| |]; [|done..]. intros (Hl3 & (_ & Ht3 & En3 & Em3 & Hs3)%pkey_eq & Ho3).
    split_and!; [split; [done|]; by rewrite Em3, En3|unfold queue in *; congruence|congruence..].
  - apply wp_ret. split_and!; [|done|congruence..]. split; [done|]. rewrite En, Em.
    assert (ae_entries req = []) as Hnl.
    { apply length_zero_iff_nil. unfold covers in *. lia. }
    specialize (Hnil Hnl). unfold covers in *. rewrite Hnl in *. cbn [length] in *. lia.
Qed.

(** Where a refusal sends the leader: past what the follower has committed, or to
    its snapshot. *)
Definition ready (commit : Z) (c : C) : Prop :=
  commit < next c ∨ (next c ≤ snapIndex c ∧ commit < snapIndex c).

Definition backed (commit : Z) (c c' : C) : Prop :=
  leads c' ∧ match_ c' = 0 ∧ next c' < next c ∧ term c' = term c ∧ snapIndex c' = snapIndex c ∧ ready commit c' ∧ sent_one c'.

Lemma back_ok F commit n (c : C) prev ct ci x :
  leads c → next c = prev + 1 → 0 ≤ commit < prev → commit ≤ zlength F → commit ≤ zlength L →
  hint L F commit prev ct ci →
  (ct = 0 ∧ x = 0 ∨ 0 < ct ∧ 0 ≤ x ∧ (x ≠ 0 → snapIndex c ≤ x ∧ last_term (ztake x L) = ct) ∧
     ∀ k, snapIndex c ≤ k → 0 < k ≤ zlength L → last_term (ztake k L) = ct → k ≤ x) →
  n = (if x =? 0 then ci else x + 1) →
  let n' := if n <? next c then n else Z.max 1 (next c - 1) in
  0 < n' < next c ∧ (commit < n' ∨ (n' ≤ snapIndex c ∧ commit < snapIndex c)).
Proof.
  intros Hl Hn Hc HcF HcL Hh Hx -> n'. pose proof (l_next _ Hl). unfold n'.
  destruct Hh as [(-> & -> & HF)|(Hct & Hci & Hrun & Hlow)].
  { assert (x = 0) as -> by lia. cbn [Z.eqb]. rewrite (proj2 (Z.ltb_lt _ _)) by lia. lia. }
  destruct Hx as [[? _]|(_ & Hx0 & Hxs & Hxl)]; [lia|].
  destruct (x =? 0) eqn:E; zify_bool.
  - rewrite (proj2 (Z.ltb_lt _ _)) by lia. split; [lia|]. destruct (decide (commit < ci)) as [|Hle]; [by left|right].
    specialize (Hrun ltac:(lia)). destruct (decide (snapIndex c ≤ commit)) as [Hs|]; [|lia].
    specialize (Hxl commit Hs ltac:(lia) Hrun). lia.
  - destruct (Hxs E) as [Hs Hxt]. assert (commit ≤ x) as Hcx.
    { destruct (decide (commit ≤ x)) as [|Hgt]; [done|]. specialize (Hlow x ltac:(lia) Hxt). apply Hxl; [lia|lia|done]. }
    destruct (_ <? _) eqn:E2; zify_bool; lia.
Qed.

Lemma refused_ok F commit req resp (c : C) to :
  leads c → queue c = [] → sends c (OutAppendEntries to req) → match_ c = 0 →
  aer_term resp = term c → aer_success resp = false →
  0 ≤ commit < ae_prevLogIndex req → commit ≤ zlength F → commit ≤ zlength L →
  hint L F commit (ae_prevLogIndex req) (aer_conflictTerm resp) (aer_conflictIndex resp) →
  wp (handleAppendResponse j req resp) (unless_failed (λ _, backed commit c)) c.
Proof.
  intros Hl Hq (_ & Hreq & Hte & Hsn & Hp & _) Hm Ht Hs Hc HcF HcL Hh. pose proof (l_next _ Hl) as Hn.
  pose proof (log_wf_length L HwL) as HlL. pose proof (h_shape _ _ (l_holds _ Hl)) as Hsh.
  unfold handleAppendResponse. apply wp_bind, wp_get. cbn [wpk]. rewrite Ht, Z.ltb_irrefl, (l_role _ Hl), Hte, Z.eqb_refl, Hs.
  rewrite bool_decide_eq_true_2 by done. cbn [negb orb].
  set (ct := aer_conflictTerm resp) in *. set (ci := aer_conflictIndex resp) in *.
  assert (0 < ci ≤ zlength L ∧ 0 ≤ ct) as [Hci Hct] by (destruct Hh as [(? & ? & ?)|(? & ? & _)]; lia).
  assert (∃ x, (ct = 0 ∧ x = 0 ∨ 0 < ct ∧ 0 ≤ x ∧ (x ≠ 0 → snapIndex c ≤ x ∧ last_term (ztake x L) = ct) ∧
      ∀ k, snapIndex c ≤ k → 0 < k ≤ zlength L → last_term (ztake k L) = ct → k ≤ x) ∧
    wp (if negb (ct =? 0) then last ← lift (lastIndexOfTerm c ct); mret (if negb (last =? 0) then u64 (last + 1) else ci)
        else mret ci) (λ o c', c' = c ∧ o = Ok (if x =? 0 then ci else x + 1)) c) as (x & Hx & Hwp).
  { destruct (ct =? 0) eqn:E; zify_bool; [exists 0; split; [by left|by apply wp_ret]|].
    destruct (lastIndexOfTerm_ok L c ct Hsh) as (x & Hx & Hx1 & Hx2 & Hx3); [lia|by intros; eapply terms_sorted|].
    exists x. split; [right; split_and!; [lia|lia|done|done]|]. cbn [negb]. apply wp_bind, wp_lift. rewrite Hx. cbn [wpk]. apply wp_ret.
    split; [done|]. destruct (x =? 0); [done|]. cbn [negb]. by rewrite u64_small by (unfold is_u64; lia). }
  apply wp_bind. eapply wp_mono; [exact Hwp|]. intros o c1 [-> ->]. cbn [wpk]. cbv zeta.
  destruct (back_ok F commit _ c (ae_prevLogIndex req) ct ci x Hl ltac:(lia) ltac:(lia) HcF HcL Hh Hx eq_refl) as [Hn' Hrd].
  set (n := if x =? 0 then ci else x + 1) in *.
  assert (n ≠ 0) as Hn0 by (unfold n; destruct (x =? 0) eqn:?; zify_bool; lia). rewrite (proj2 (Z.eqb_neq n 0)) by done.
  set (n' := if n <? next c then n else Z.max 1 (next c - 1)) in *.
  assert ((if n <? next c then put_next j n else put_next j (Z.max 1 (u64 (next c - 1)))) = put_next j n') as ->.
  { unfold n'. rewrite u64_small by (unfold is_u64; lia). by destruct (_ <? _). }
  eapply (wp_failed_bind (λ _ c2, leads c2 ∧ match_ c2 = 0 ∧ next c2 = n' ∧ outbox c2 = outbox c ∧ snapIndex c2 = snapIndex c ∧ term c2 = term c)).
  { apply (put_books 0 n' c false Hl); [lia|lia|by left]. }
  intros _ c2 (Hl2 & Hm2 & Hn2 & Ho2 & Hs2 & Ht2). assert (queue c2 = []) as Hq2 by (unfold queue in *; congruence).
  eapply wp_mono; [by apply sendAppend_ok|]. intros o c3. destruct o as [[]|e| |]; [|done..].
  intros (Hl3 & (_ & Ht3 & En3 & Em3 & Hs3)%pkey_eq & Hsent). unfold unless_failed, backed, ready. rewrite En3, Em3, Hn2, Hm2, Hs3, Hs2.
  split_and!; try done; [lia|congruence].
Qed.

Lemma snapshot_acknowledged_ok req resp (c : C) to :
  leads c → queue c = [] → sends c (OutInstallSnapshot to req) → isr_term resp = term c →
  wp (handleInstallSnapshotResponse j req resp) (unless_failed (λ _, moved (is_lastIncludedIndex req) c)) c.
Proof.
  intros Hl Hq (_ & [Hx _ _] & Hte & Hnx) Ht. pose proof (l_next _ Hl) as Hn. pose proof (log_wf_length L HwL) as HlL.
  unfold handleInstallSnapshotResponse. apply wp_bind, wp_get. cbn [wpk]. rewrite Ht, Z.ltb_irrefl, (l_role _ Hl), Hte, Z.eqb_refl.
  rewrite bool_decide_eq_true_2 by done. cbn [negb orb]. cbv zeta. rewrite (proj2 (Z.ltb_lt _ _)) by lia.
  rewrite u64_small by (unfold is_u64; lia).
  eapply wp_failed_bind; [apply (put_books (is_lastIncludedIndex req) (is_lastIncludedIndex req + 1) c true Hl); [lia|lia|by right]|].
  intros _ c2 (Hl2 & Hm2 & Hn2 & Ho2 & Hs2 & Ht2). assert (queue c2 = []) as Hq2 by (unfold queue in *; congruence).
  apply wp_bind, wp_get. cbn [wpk]. by apply send_rest_ok.
Qed.

(** ** The exchange *)

Lemma wp_leader_bind {X Y} (m : M C X) (k : X → M (C * C) Y) (R : X → C → Prop) (Q : Y → C * C → Prop) l f :
  wp m (unless_failed R) l → (∀ a l', R a l' → wp (k a) (unless_failed Q) (l', f)) →
  wp (zoom fst m ≫= k) (unless_failed Q) (l, f).
Proof. intros Hm Hk. apply wp_bind, wp_zoom. eapply wp_mono; [exact Hm|]. intros o l'. destruct o as [a|e| |]; [|done..]. intros HR. exact (Hk _ _ HR). Qed.

Lemma wp_follower_bind {X Y} (m : M C X) (k : X → M (C * C) Y) (R : X → C → Prop) (Q : Y → C * C → Prop) l f :
  wp m (unless_failed R) f → (∀ a f', R a f' → wp (k a) (unless_failed Q) (l, f')) →
  wp (zoom snd m ≫= k) (unless_failed Q) (l, f).
Proof. intros Hm Hk. apply wp_bind, wp_zoom. eapply wp_mono; [exact Hm|]. intros o f'. destruct o as [a|e| |]; [|done..]. intros HR. exact (Hk _ _ HR). Qed.

(** The follower has the leader's log, unless a disk has failed and the leader could
    not read the snapshot it has to send. *)
Definition level (b : bool) (s : C * C) : Prop :=
  b = true ∧ leads s.1 ∧ ∃ F, fits L F s.2 ∧
    ((next s.1 ≤ snapIndex s.1 ∧ ¬ W) ∨ (match_ s.1 = zlength L ∧ L `prefix_of` F)).

(** A follower that holds the [m] entries the leader knows of. *)
Definition in_step (m : Z) (l f : C) : Prop :=
  ∃ F, fits L F f ∧ ztake m L `prefix_of` F ∧ commitIndex f ≤ m ∧ term f ≤ term l.

Section rounds.
Context (Cfg_wf : members_wf Cfg).

(** One message when the follower is in step, or when it is accepted: the leader
    moves on. *)
Lemma append_round req to (l f : C) F (Q : () → C * C → Prop) :
  leads l → queue l = [] → sends l (OutAppendEntries to req) → fits L F f → term f ≤ term l → commitIndex f ≤ ae_prevLogIndex req →
  (∀ l' f', moved (covers req) l l' → in_step (covers req) l' f' → Q () (l', f')) →
  (∀ l' f', match_ l = 0 → ¬ ztake (ae_prevLogIndex req) L `prefix_of` F →
     backed (commitIndex f') l l' → fits L F f' → term f' ≤ term l' → Q () (l', f')) →
  (match_ l = 0 ∨ ztake (ae_prevLogIndex req) L `prefix_of` F) →
  wp (exchange j (OutAppendEntries to req)) (unless_failed Q) (l, f).
Proof.
  intros Hl Hq Hs Hfit Ht Hc Hmv Hbk Hph. pose proof Hs as (_ & Hreq & Hte & _ & _ & _).
  destruct (fits_agree L F f Hfit) as (HcL & HcF & Hag). cbn [exchange].
  eapply wp_follower_bind; [apply (handleAppendEntries_ok L HwL HL F f req Hfit Hreq Hc); [lia|rewrite Hte; apply Hl]|].
  intros resp f' (Hrt & Ht' & Hres). rewrite Hte in *. apply wp_zoom. destruct (aer_success resp) eqn:E.
  - destruct Hres as (F' & Hfit' & Hpre & Hc'). eapply wp_mono; [by eapply acknowledged_ok|].
    intros o l'. destruct o as [[]|e| |]; [|done..]. intros Hm. apply (Hmv l' f'); [done|].
    exists F'. assert (term l' = term l) as -> by apply Hm. split_and!; [done..|lia].
  - destruct Hres as (Hfit' & Hci & Hp & Hno & Hh). destruct Hph as [Hm0|]; [|done].
    assert (commitIndex f ≠ ae_prevLogIndex req) as Hne.
    { intros Heq. apply Hno. rewrite <-Heq. apply ztake_prefix_iff; [lia|done]. }
    eapply wp_mono; [eapply (refused_ok F (commitIndex f)); try done; lia|].
    intros o l'. destruct o as [[]|e| |]; [|done..]. intros Hb. apply (Hbk l' f'); [done|done|by rewrite Hci|done|].
    assert (term l' = term l) as -> by apply Hb. lia.
Qed.

Lemma install_round req to (l f : C) F (Q : () → C * C → Prop) :
  leads l → queue l = [] → sends l (OutInstallSnapshot to req) → fits L F f → term f ≤ term l → commitIndex f < snapIndex l →
  (∀ l' f', moved (is_lastIncludedIndex req) l l' → in_step (is_lastIncludedIndex req) l' f' → Q () (l', f')) →
  wp (exchange j (OutInstallSnapshot to req)) (unless_failed Q) (l, f).
Proof.
  intros Hl Hq Hs Hfit Ht Hc Hmv. pose proof Hs as (_ & Hreq & Hte & Hnx). cbn [exchange].
  eapply wp_follower_bind; [apply (handleInstallSnapshot_ok L HwL HL F f req Cfg_wf Hfit Hreq); [lia|lia|rewrite Hte; apply Hl]|].
  intros resp f' (Hrt & Ht' & F' & Hfit' & Hpre & Hc'). rewrite Hte in *. apply wp_zoom.
  eapply wp_mono; [by eapply snapshot_acknowledged_ok|].
  intros o l'. destruct o as [[]|e| |]; [|done..]. intros Hm. apply (Hmv l' f'); [done|].
  exists F'. assert (term l' = term l) as -> by apply Hm. split_and!; [done..|lia|lia].
Qed.

(** The message is taken from the outbox; the books do not change. *)
Definition taken (l : C) : C := l <| outbox := [] |>.

Lemma taken_ok (l : C) : leads l → leads (taken l) ∧ queue (taken l) = [].
Proof. intros Hl. split; [by eapply leads_quiet; [..|exact Hl]|done]. Qed.

Lemma catch_up_unfold fuel (Q : bool → C * C → Prop) (l f : C) o q :
  queue l = o :: q → wp (exchange j o;; catch_up fuel j) (unless_failed Q) (taken l, f) →
  wp (catch_up (S fuel) j) (unless_failed Q) (l, f).
Proof.
  intros Hq Hwp. cbn [catch_up]. apply wp_bind, wp_zoom. unfold takeOutbox. apply wp_bind, wp_get. cbn [wpk].
  apply wp_bind, wp_modify. cbn [wpk]. apply wp_ret. cbn [wpk fst]. unfold queue in Hq. rewrite Hq. exact Hwp.
Qed.

Lemma catch_up_idle fuel (Q : bool → C * C → Prop) (l f : C) :
  queue l = [] → Q true (taken l, f) → wp (catch_up fuel j) (unless_failed Q) (l, f).
Proof.
  intros Hq HQ. assert (∀ k, wp (out ← zoom fst takeOutbox; match filter (for_peer j) out with [] => mret true | o :: _ => k o end)
    (unless_failed Q) (l, f)) as Hk; [|destruct fuel; apply Hk].
  intros k. apply wp_bind, wp_zoom. unfold takeOutbox. apply wp_bind, wp_get. cbn [wpk].
  apply wp_bind, wp_modify. cbn [wpk]. apply wp_ret. cbn [wpk fst]. unfold queue in Hq. rewrite Hq. by apply wp_ret.
Qed.

(** With the follower in step, every message takes the leader further. *)
Lemma in_step_ends fuel m (l f : C) :
  synced m l → in_step m l f → ((m < zlength L ∧ sent_one l) ∨ (queue l = [] ∧ m = zlength L)) →
  zlength L - m ≤ Z.of_nat fuel → wp (catch_up fuel j) (unless_failed level) (l, f).
Proof.
  revert m l f. induction fuel as [|fuel IH]; intros m l f (Hl & Hm & Hn) (F & Hfit & Hpre & Hc & Ht) Hq Hfu.
  all: destruct (taken_ok l Hl) as [Hl' Hq'].
  all: destruct Hq as [[Hlt [(o & Hqo & Hs)|(Hqe & Hns & HW)]]|[Hqe ->]];
    [|apply catch_up_idle; [done|]; split_and!; [done|done|]; exists F; split; [done|by left]
     |apply catch_up_idle; [done|]; split_and!; [done|done|]; exists F; split; [done|right];
      split; [done|]; by rewrite <-(ztake_all L)].
  { lia. }
  eapply catch_up_unfold; [exact Hqo|].
  assert (∀ m' l1 f1, m < m' → moved m' (taken l) l1 → in_step m' l1 f1 →
    wp (catch_up fuel j) (unless_failed level) (l1, f1)) as Hgo.
  { intros m' l1 f1 Hm' (Hsy & _ & _ & Hq1) Hst. apply (IH m'); [done|done|done|lia]. }
  destruct o as [to req|to req|to req|to req]; try done.
  - pose proof Hs as (_ & Hreq & _ & _ & Hp & Hnil). assert (m < covers req) as Hcov.
    { unfold covers. destruct (ae_entries req) eqn:E; [specialize (Hnil eq_refl); lia|]. rewrite length_cons. lia. }
    eapply (wp_failed_bind (λ _ s, wp (catch_up fuel j) (unless_failed level) s)); [|by intros _ s].
    apply (append_round req to (taken l) f F); try done; [by replace (ae_prevLogIndex req) with m by lia| | |].
    + intros l1 f1. by apply Hgo.
    + intros l1 f1 _ Hno. destruct Hno. by replace (ae_prevLogIndex req) with m by lia.
    + right. by replace (ae_prevLogIndex req) with m by lia.
  - pose proof Hs as (_ & Hreq & _ & Hx).
    eapply (wp_failed_bind (λ _ s, wp (catch_up fuel j) (unless_failed level) s)); [|by intros _ s].
    apply (install_round req to (taken l) f F); try done; [cbn; lia|]. intros l1 f1. apply Hgo. lia.
Qed.

(** Before the first answer, every refusal takes it further back. *)
Lemma ready_ends fuel (l f : C) F :
  leads l → match_ l = 0 → fits L F f → term f ≤ term l → ready (commitIndex f) l → sent_one l →
  next l + zlength L ≤ Z.of_nat fuel → wp (catch_up fuel j) (unless_failed level) (l, f).
Proof.
  revert l f. induction fuel as [|fuel IH]; intros l f Hl Hm Hfit Ht Hrd Hsent Hfu; pose proof (l_next _ Hl) as Hn; [lia|].
  destruct (taken_ok l Hl) as [Hl' Hq']. destruct Hsent as [(o & Hqo & Hs)|(Hqe & Hns & HW)].
  2:{ apply catch_up_idle; [done|]. split_and!; [done|done|]. exists F. split; [done|by left]. }
  eapply catch_up_unfold; [exact Hqo|].
  assert (∀ m' l1 f1, 0 ≤ m' → moved m' (taken l) l1 → in_step m' l1 f1 →
    wp (catch_up fuel j) (unless_failed level) (l1, f1)) as Hgo.
  { intros m' l1 f1 Hm' (Hsy & _ & _ & Hq1) Hst. apply (in_step_ends fuel m'); [done|done|done|lia]. }
  eapply (wp_failed_bind (λ _ s, wp (catch_up fuel j) (unless_failed level) s)); [|by intros _ s].
  unfold ready in Hrd. destruct o as [to req|to req|to req|to req]; try done.
  - pose proof Hs as (_ & Hreq & _ & Hsn & Hp & _). pose proof (covers_bound L req Hreq) as Hcov.
    apply (append_round req to (taken l) f F); try done; [lia| | |by left].
    + intros l1 f1. apply Hgo. lia.
    + intros l1 f1 _ Hno (Hl1 & Hm1 & Hn1 & _ & _ & Hr1 & Hs1) Hf1 Ht1. apply IH; try done. change (nextIndex (taken l)) with (nextIndex l) in Hn1. lia.
  - pose proof Hs as (_ & [Hx _ _] & _ & Hxs). apply (install_round req to (taken l) f F); try done; [cbn; lia|].
    intros l1 f1. apply Hgo. lia.
Qed.

Lemma repair_ends fuel (l f : C) F :
  leads l → match_ l = 0 → fits L F f → term f ≤ term l → commitIndex f < next l →
  2 * zlength L + 1 ≤ Z.of_nat fuel → wp (repair fuel j) (unless_failed level) (l, f).
Proof.
  intros Hl Hm Hfit Ht Hc Hfu. destruct (taken_ok l Hl) as [Hl' Hq']. pose proof (l_next _ Hl) as Hn. unfold repair.
  eapply (wp_leader_bind _ _ (λ _ l', l' = taken l)).
  { unfold takeOutbox. apply wp_bind, wp_get. cbn [wpk]. apply wp_bind, wp_modify. cbn [wpk]. by apply wp_ret. }
  intros _ ? ->. eapply wp_leader_bind; [by apply sendAppend_ok|]. intros _ l1 (Hl1 & (_ & Ht1 & En & Em & Hs1)%pkey_eq & Hsent).
  apply (ready_ends fuel l1 f F); try done; rewrite ?En, ?Em, ?Ht1; try done; [left; by rewrite En|].
  change (nextIndex (taken l)) with (nextIndex l). lia.
Qed.
End rounds.
End leader.
End cores.

(** ** In a cluster *)

Section worlds.
Context {D S : Type} `{WorkingDisk D} `{GoRuntime} `{StateMachineLaws S}.
Context (Cfg : Members) (s0 : S) (working : Prop).

Abbreviation W := (world D S).

Lemma up_holds (w : W) A i (n : Node D S) :
  wrel Cfg s0 w A → sane w → nodes w !! i = Some (Up n) → (working → d_works (disk (nc n))) →
  ∃ F, rel Cfg (snap_of s0) i A F (nc n) ∧ holds A working F (nc n).
Proof.
  intros Hr [_ Hs] Hi Hwk. destruct (wr_nodes _ _ _ _ Hr _ _ Hi) as (F & [Hn _ _ _]). exists F. split; [done|].
  destruct (Hs i n Hi) as [_ Hd]. destruct (r_deliv Hn) as [? _]. destruct (r_commit Hn) as [? _]. split; try apply Hn; try lia; [|split; [apply Hn|done]].
  apply (ai_view _ _ (wr_inv _ _ _ _ Hr) i (mkA (term (nc n)) (votedFor (nc n)) F)). unfold view. by rewrite (r_node Hn).
Qed.

Lemma up_leads (w : W) A i (n : Node D S) j F mi :
  wrel Cfg s0 w A → rel Cfg (snap_of s0) i A F (nc n) → holds A working F (nc n) → role (nc n) = leader →
  j ∈ dom Cfg → j ≠ i → matchIndex (nc n) = Some mi → mi !! j = None → leads Cfg A working F j (nc n).
Proof.
  intros Hr Hn Hh Hl Hj Hji Hmi Hmj. destruct (r_lead Hn Hl) as (_ & Hnx & _). destruct (Hnx j) as [Hb Hpos]. specialize (Hpos Hj Hji).
  assert (map_get (matchIndex (nc n)) j = 0) as Hm0 by (rewrite Hmi; unfold map_get; cbn; by rewrite Hmj).
  split; try done; [apply Hn| |lia|].
  - rewrite Hmi. split; [|done]. intros E. rewrite E in Hpos. done.
  - intros s Hms Hs0. destruct (r_disk Hn) as [_ _ Hds _]. destruct (Hds s Hms) as [(Hx & Hxt & _ & _ & Hc) Hb'].
    destruct Hc as [Hc _]; [lia|]. split_and!; [lia|lia|done|done].
Qed.
End worlds.

(** C6: Log repair terminates.  Take a run of a cluster of a fixed membership, in
    which machines come up with durable disks, terms and indices stay below the end of
    the 64-bit range and no commit index is set below what was delivered; a running
    leader that has no acknowledgement from node [j] yet; and another running node
    [j] of no later term, whose commit index is below the index the leader is going to
    send from (a leader just elected sends from the end of its log) and whose
    election timeout is a proper range.  Let them exchange requests and answers one at
    a time, from a heartbeat on (what the leader had queued before is lost): the leader
    backs up over the terms of refused entries, sends its snapshot
    if it has compacted what is missing, or goes on.  If both disks work, the exchange
    is over after at most twice the length of the log plus one messages, without an
    error, and the leader knows that [j] has its whole log, and [j] has it.  If a disk
    fails, the exchange ends within the same bound, and without a panic. *)
Theorem log_repair_terminates {D S} `{WorkingDisk D} `{GoRuntime} `{StateMachineLaws S}
    (Cfg : Members) (conf : Z → Config) (s0 : S) compactAt peers (w0 w : world D S) i n j m mi fuel :
  members_wf Cfg → (∀ k, k ∈ dom Cfg → ID (conf k) = k) → initial Cfg w0 →
  sane_steps Cfg conf s0 compactAt peers w0 w →
  nodes w !! i = Some (Up n) → nodes w !! j = Some (Up m) → j ≠ i →
  role (nc n) = leader → term (nc m) ≤ term (nc n) → matchIndex (nc n) = Some mi → mi !! j = None →
  commitIndex (nc m) < map_get (nextIndex (nc n)) j →
  ElectionTicksMin (cfg (nc m)) < ElectionTicksMax (cfg (nc m)) →
  2 * lastLogIndex (nc n) + 1 ≤ Z.of_nat fuel →
  let working := d_works (disk (nc n)) ∧ d_works (disk (nc m)) in
  wp (repair fuel j) (λ o '(l, f),
    match o with
    | Ok b => b = true ∧ lastLogIndex l = lastLogIndex (nc n) ∧
        (working → map_get (matchIndex l) j = lastLogIndex l ∧ lastLogIndex l ≤ lastLogIndex f ∧
          ∀ e, e ∈ entries l → snapIndex f < Index e → e ∈ entries f)
    | Err _ | Crash => ¬ working
    | Panic => False
    end) (nc n, nc m).
Proof.
  intros Hwf Hids H0' Hs Hi Hj Hji Hl Ht Hmi Hmj Hc Htm Hfu working. pose proof (decodeMembers_encode Cfg Hwf) as Hrt.
  destruct (initial_wrel Cfg s0 w0 H0') as (A0 & Hr0).
  destruct (sane_steps_rel Cfg conf s0 compactAt peers Hwf Hrt Hids w0 w A0) as (Hw & Hsane & _ & A & Hr & _); try done;
    [by apply initial_winv|by apply (sane_initial Cfg)|by apply reachable_initial|].
  destruct (up_holds Cfg s0 working w A i n Hr Hsane Hi) as (L & Hrn & Hhn); [by intros [? _]|].
  destruct (up_holds Cfg s0 working w A j m Hr Hsane Hj) as (F & Hrm & Hhm); [by intros [_ ?]|].
  pose proof (wr_inv _ _ _ _ Hr) as Hinv. pose proof (h_shape _ _ _ _ Hhn) as Hsh.
  assert (leads Cfg A working L j (nc n)) as Hld by (by eapply up_leads; [exact Hr|..]; try done; apply (w_dom _ _ Hw _ _ Hj)).
  assert (fits A working L F (nc m)) as Hfit.
  { split; [done| |done]. destruct (r_lead Hrn Hl) as ((ld & Hld' & <-) & _).
    eapply (committed_in_leader Cfg A (term (nc m))); [done|apply Hrm|exact Hld'|done]. }
  rewrite (shape_lastLogIndex L _ Hsh) in *. eapply wp_mono.
  { apply (repair_ends Cfg A Hinv working L (sh_wf _ _ _ _ Hsh) (h_log _ _ _ _ Hhn) j Hrt Hwf fuel (nc n) (nc m) F); try done.
    rewrite Hmi. unfold map_get. cbn. by rewrite Hmj. }
  intros o [l f]. destruct o as [b|e| |]; [|done..]. intros (-> & Hl' & F' & Hfit' & Hend). cbn [fst snd] in *.
  pose proof (h_shape _ _ _ _ (l_holds _ _ _ _ _ _ Hl')) as Hsh'. pose proof (h_shape _ _ _ _ (f_holds _ _ _ _ _ Hfit')) as Hshf.
  rewrite (shape_lastLogIndex L l Hsh'), (shape_lastLogIndex F' f Hshf). split; [done|]. split; [done|]. intros HW.
  destruct Hend as [[_ ?]|[Hm' Hpre]]; [done|]. split; [done|]. split; [apply prefix_length in Hpre; lia|].
  intros e He Hgt. destruct (entry_place L l e Hsh' He) as [Hpos HeL]. apply (prefix_lookup_1 _ _ _ _ Hpre) in HeL.
  pose proof (sh_snap _ _ _ _ Hshf). rewrite (sh_entries _ _ _ _ Hshf).
  apply (list_elem_of_lookup_2 _ (Z.to_nat (Index e - 1 - snapIndex f))). unfold zdrop. rewrite lookup_drop, <-HeL. f_equal. lia.
Qed.
