(* ===== verification/ClusterSim.v ===== *)
(** * Runs of a cluster

    An executable scheduler for the step relation of Cluster, on the
    byte-level disk of RaftFiles: a list of actions is run and the state it
    reaches is reachable.  It gives the concrete runs that the theorems about
    clusters are applied to. *)

From stdpp Require Import prelude gmap strings sorting.
From coqutil Require Import Byte.
From S2P Require Import Prelude GoRuntime GoBytes GoFS Record RaftTypes Membership RaftLaws.
From S2P Require Import RaftFiles RaftFilesLaws Core CoreVotes Node Cluster.
Open Scope Z_scope.

(** What the scheduler may do: let a node see a tick, a proposal or a read, deliver a
    message that was sent, stop a node, boot one after losing everything that
    was not durable (with the faults it will then meet). *)
Inductive action :=
  | ATick (i : Z)
  | APropose (i : Z) (command : bytes)
  | ADeliver (i : Z) (k : nat)
  | AStop (i : Z)
  | ABoot (i : Z) (r : list fault)
  | ARead (i : Z) (ch : nat).

(** The event a packet becomes at node [i], and the routing of its reply. *)
Definition event_of (i : Z) (p : packet) : option (event * (reply → option packet)) :=
  match p with
  | PReq from (OutRequestVote to req) =>
      if to =? i then Some (evRequestVote req 0,
        λ r, match r with ReplyVote (inl resp) => Some (PVoteResp i from req resp) | _ => None end)
      else None
  | PReq from (OutAppendEntries to req) =>
      if to =? i then Some (evAppendEntries req 0,
        λ r, match r with ReplyAppend (inl resp) => Some (PAppendResp i from req resp) | _ => None end)
      else None
  | PReq from (OutInstallSnapshot to req) =>
      if to =? i then Some (evInstallSnapshot req 0,
        λ r, match r with ReplySnapshot (inl resp) => Some (PSnapResp i from req resp) | _ => None end)
      else None
  | PReq from (OutTimeoutNow to req) =>
      if to =? i then Some (evTimeoutNow req 0, no_response) else None
  | PVoteResp from to req resp =>
      if to =? i then Some (evVoteResp from (rv_term req) (rv_preVote req) resp, no_response) else None
  | PAppendResp from to req resp =>
      if to =? i then Some (evAppendResp from req resp, no_response) else None
  | PSnapResp from to req resp =>
      if to =? i then Some (evSnapshotResp from req resp, no_response) else None
  end.

Lemma event_of_delivers net i p ev resp :
  p ∈ net → event_of i p = Some (ev, resp) → delivers net i ev resp.
Proof.
  intros Hp. destruct p as [from [to req|to req|to req|to req]|from to req r|from to req r|from to req r];
    cbn; destruct (to =? i) eqn:E; try done; zify_bool; subst; intros [= <- <-]; by econstructor.
Qed.

Section sim.
Context {S : Type} `{GoRuntime} `{StateMachine S}.
Context (Cfg : Members) (conf : Z → Config) (s0 : S) (compactAt : Z) (peers : option Members).

Abbreviation W := (world raftdisk S).

Definition event_at (w : W) (a : action) : option (Z * event * (reply → option packet)) :=
  match a with
  | ATick i => Some (i, evTick, no_response)
  | APropose i cmd =>
      if zlength cmd <=? maxEntryCommand then Some (i, evPropose cmd ENTRY_TYPE_NORMAL 0 0, no_response)
      else None
  | ADeliver i k => p ← sent w !! k; '(ev, resp) ← event_of i p; Some (i, ev, resp)
  | ARead i ch => Some (i, evRead ch, no_response)
  | _ => None
  end.

(** The next boot's disk after a power cut. *)
Definition cut (r : list fault) (d : raftdisk) : raftdisk := mkRD (store d) (power_cut r (rfs d)).

Definition act (a : action) (w : W) : option W :=
  match a with
  | AStop i =>
      match nodes w !! i with
      | Some (Up n) => Some (mkWorld (<[i := Down (disk (nc n))]> (nodes w)) (sent w) (ballots w) (elected w))
      | _ => None
      end
  | ABoot i r =>
      match nodes w !! i with
      | Some (Down d) =>
          let '(o, d'') := NewNode (conf i) Cfg s0 compactAt peers (cut r d) in
          Some (mkWorld (<[i := match o with Ok n => Up n | _ => Down d'' end]> (nodes w))
                  (sent w) (ballots w) (elected w))
      | _ => None
      end
  | _ =>
      match event_at w a with
      | Some (i, ev, resp) =>
          match nodes w !! i with
          | Some (Up n) =>
              let '(o, n') := handle ev (n <| replies := [] |> <| net := [] |>) in
              Some (ran w i o n' ((PReq i <$> net n') ++ omap (resp ∘ snd) (replies n')))
          | _ => None
          end
      | None => None
      end
  end.

Definition terms_ok (w : W) : bool :=
  forallb (λ '(_, st), match st with Up n => term (nc n) <? 2 ^ 64 - 1 | Down _ => true end)
    (map_to_list (nodes w)).

Fixpoint play (l : list action) (w : W) : option W :=
  match l with
  | [] => Some w
  | a :: l' => w' ← act a w; if terms_ok w' then play l' w' else None
  end.

Lemma event_at_delivers w a i ev resp :
  event_at w a = Some (i, ev, resp) → delivers (sent w) i ev resp.
Proof.
  destruct a as [j|j cmd|j k|j|j r|j ch]; cbn; try done.
  - intros [= <- <- <-]. constructor.
  - destruct (_ <=? _) eqn:E; [|done]. zify_bool. intros [= <- <- <-]. by constructor.
  - destruct (sent w !! k) as [p|] eqn:Hp; [|done]. cbn.
    destruct (event_of j p) as [[ev' resp']|] eqn:He; [|done]. cbn. intros [= <- <- <-].
    eapply event_of_delivers; [by eapply list_elem_of_lookup_2|done].
  - intros [= <- <- <-]. constructor.
Qed.

(** Booting after a crash of the machine. *)
Definition after_crash (d d' : raftdisk) : Prop := ls_dir (store d') = ls_dir (store d) ∧ crash (rfs d) (rfs d').

Lemma action_crash a w w' : act a w = Some w' → step_on Cfg conf s0 compactAt peers after_crash w w'.
Proof.
  assert (∀ i ev resp, event_at w a = Some (i, ev, resp) →
    match nodes w !! i with
    | Some (Up n) =>
        let '(o, n') := handle ev (n <| replies := [] |> <| net := [] |>) in
        Some (ran w i o n' ((PReq i <$> net n') ++ omap (resp ∘ snd) (replies n')))
    | _ => None
    end = Some w' → step_on Cfg conf s0 compactAt peers after_crash w w') as Hev.
  { intros i ev resp He. destruct (nodes w !! i) as [[n|d]|] eqn:Hi; [|done..].
    destruct (handle ev _) as [o n'] eqn:Hh. intros [= <-].
    eapply step_event; [done|by eapply event_at_delivers|done]. }
  destruct a as [i|i cmd|i k|i|i r|i ch]; cbn [act].
  1-3,6: destruct (event_at w _) as [[[j ev] resp]|] eqn:He; [by apply Hev|done].
  - destruct (nodes w !! i) as [[n|d]|] eqn:Hi; [|done..]. intros [= <-]. by apply step_stop.
  - destruct (nodes w !! i) as [[n|d]|] eqn:Hi; [done| |done].
    destruct (NewNode _ _ _ _ _ _) as [o d''] eqn:Hn. intros [= <-].
    eapply step_boot; [done| |exact Hn]. split; [done|]. apply crash_power_cut.
Qed.

Lemma action_step a w w' : act a w = Some w' → step Cfg conf s0 compactAt peers w w'.
Proof.
  intros Ha%action_crash. eapply step_on_mono; [|exact Ha]. intros d d' [? ?]. split; [done|by left].
Qed.

Lemma terms_ok_bounded w : terms_ok w = true → terms_bounded w.
Proof.
  unfold terms_ok. intros Hall i n Hi. apply Is_true_true in Hall. apply forallb_True in Hall.
  rewrite Forall_forall in Hall. specialize (Hall (i, Up n)). rewrite elem_of_map_to_list in Hall.
  specialize (Hall Hi). apply Is_true_true in Hall. by zify_bool.
Qed.

(** A run of the scheduler ends in a reachable state. *)
Lemma play_reachable l w w' :
  reachable Cfg conf s0 compactAt peers w → play l w = Some w' →
  reachable Cfg conf s0 compactAt peers w'.
Proof.
  revert w. induction l as [|a l IH]; intros w Hr; cbn; [by intros [= <-]|].
  destruct (act a w) as [w1|] eqn:Ha; [|done]. cbn.
  destruct (terms_ok w1) eqn:Ht; [|done]. apply IH.
  eapply reachable_step; [done|exact (action_step a w w1 Ha)|by apply terms_ok_bounded].
Qed.
End sim.

(** ** Three nodes on fresh disks *)

Definition empty_disk (i : Z) : raftdisk := mkRD (mkLog 0 (str "node" ++ [byte.of_Z (48 + i)]) false) (empty_fs []).

Definition fresh_world {S} (ids : list Z) : world raftdisk S :=
  mkWorld (list_to_map ((λ i, (i, Down (empty_disk i))) <$> ids)) [] [] [].

Lemma empty_disk_fresh i :
  d_wf (empty_disk i) ∧ (∀ t v, may_state (empty_disk i) t v → t = 0 ∧ v = noVote) ∧
  (∀ l, may_log (empty_disk i) l → l = []) ∧ (∀ s, may_snap (empty_disk i) s → s = zero_snapshot).
Proof.
  assert (∀ p o, possible (empty_fs []) p o → o = None) as Hnone.
  { intros p o (d & [j ->] & ->). cbn. by rewrite take_nil. }
  split; [apply files_ok_empty|]. split_and!.
  - by intros t v (o & ->%Hnone & ?).
  - by intros l (o & ->%Hnone & ?).
  - by intros x (o & ->%Hnone & ?).
Qed.

Lemma fresh_world_initial {S} (Cfg : Members) (ids : list Z) :
  dom Cfg = list_to_set ids → initial (S := S) Cfg (fresh_world ids).
Proof.
  intros Hdom. split_and!; try done.
  - cbn. rewrite dom_list_to_map_L, <-list_fmap_compose, Hdom. f_equal.
    rewrite <-(list_fmap_id ids) at 2. by apply list_fmap_ext.
  - intros i st Hi. cbn in Hi. apply elem_of_list_to_map_2, list_elem_of_fmap in Hi as (j & [= -> ->] & _).
    exists (empty_disk j). split; [done|apply empty_disk_fresh].
Qed.

(** A state machine that keeps the commands it was given. *)
#[local] Instance record_machine : StateMachine (list bytes) := {
  smApply i cmd l := l ++ [cmd];
  smSnapshot l := Err (EMsg "no snapshots");
  smRestore b l := Err (EMsg "no snapshots")
}.

Definition trio : Members := {[1 := str "a:1"; 2 := str "b:2"; 3 := str "c:3"]}.
Definition trio_conf (i : Z) : Config := mkConfig i 1 2 1 false.
Definition trio_play (l : list action) : option (world raftdisk (list bytes)) :=
  play trio trio_conf [] 0 None l (fresh_world [1; 2; 3]).

(** Node 1 wins term 1, stops; node 2 loses power and boots again; node 3 wins
    term 2. *)
Definition two_terms : list action :=
  [ABoot 1 []; ABoot 2 []; ABoot 3 []; ATick 1; ADeliver 2 1; ADeliver 1 2; ADeliver 2 4; ADeliver 1 5;
   AStop 1; AStop 2; ABoot 2 []; ATick 3; ADeliver 2 8; ADeliver 3 10; ATick 3; ADeliver 2 11;
   ADeliver 3 13; ADeliver 2 14; ADeliver 3 16].

Lemma trio_wf : members_wf trio.
Proof.
  split; [by vm_compute|]. split; [|by vm_compute].
  intros id addr Hl. unfold trio in Hl.
  do 2 (apply lookup_insert_Some in Hl as [[<- <-]|[_ Hl]]; [done|]).
  by apply lookup_singleton_Some in Hl as [<- <-].
Qed.

Lemma trio_dom : dom trio = list_to_set [1; 2; 3].
Proof. by apply (bool_decide_unpack _). Qed.

Lemma trio_reachable l w :
  trio_play l = Some w → reachable trio trio_conf [] 0 None w.
Proof. apply play_reachable. constructor. apply fresh_world_initial, trio_dom. Qed.

Lemma played {A} (f : world raftdisk (list bytes) → A) l v :
  f <$> trio_play l = Some v → ∃ w, trio_play l = Some w ∧ f w = v.
Proof. intros (w & Hw & ->)%fmap_Some. eauto. Qed.

Lemma election_safety_witness :
  ∃ w : world raftdisk (list bytes), trio_play two_terms = Some w ∧ elected w = [(1, 1); (2, 3)] ∧
    (∀ t i j, (t, i) ∈ elected w → (t, j) ∈ elected w → i = j) ∧
    (∀ i n, nodes w !! i = Some (Up n) → role (nc n) = leader → (term (nc n), i) ∈ elected w).
Proof.
  destruct (played elected two_terms [(1, 1); (2, 3)]) as (w & Hw & He); [by vm_compute|].
  exists w. split; [exact Hw|]. split; [exact He|].
  apply (election_safety trio trio_conf [] 0 None); [apply trio_wf|auto|exact (trio_reachable _ _ Hw)].
Defined.
