(* ===== verification/SystemSim.v ===== *)
(** * Concrete runs for [System] and [Sharding] *)

From stdpp Require Import prelude gmap strings.
From S2P Require Import Prelude GoRuntime GoBytes GoFS RaftTypes Membership RaftFiles Core Node NodeApi System.
From S2P Require Import Grpc KvStateMachine KvService Sharding ClusterSim.
Open Scope Z_scope.

#[local] Existing Instance bit_gob.

Definition solo_boot : outcome (Node raftdisk stateMachine) * raftdisk :=
  NewNode (trio_conf 1) trio newStateMachine 0 None (empty_disk 1).

(** A follower asked to hand over leadership: the goroutine, and the round of
    the loop that answers it. *)
Definition refused : option (list (nat * reply)) :=
  match solo_boot.1 with
  | Ok n => match handle (evTransfer 2 0) n with (Ok _, n') => Some (replies n') | _ => None end
  | _ => None
  end.

Lemma refused_run : refused = Some [(0%nat, ReplyTransfer (inr (ENotLeader 0)))].
Proof. by vm_compute. Qed.

Lemma loop_never_blocks_witness :
  ∃ n d' (y : system raftdisk stateMachine (option error)),
    NewNode (trio_conf 1) trio newStateMachine 0 None (empty_disk 1) = (Ok n, d') ∧ sreachable caller n y ∧
    replies (loop y) = [(0%nat, ReplyTransfer (inr (ENotLeader 0)))] ∧ NoDup (replies (loop y)).*1.
Proof.
  pose proof refused_run as Hrun. unfold refused, solo_boot in Hrun.
  destruct (NewNode (trio_conf 1) trio newStateMachine 0 None (empty_disk 1)) as [[n|e| |] d'] eqn:En; try done.
  cbn [fst] in Hrun. destruct (handle (evTransfer 2 0) n) as [[[]|e| |] n'] eqn:Eh; try done. injection Hrun as Hrun.
  assert (∃ y : system raftdisk stateMachine (option error), sreachable caller n y ∧ loop y = n') as (y & Hy & Hl).
  { eexists. split; [|shelve]. eapply sr_step; [eapply sr_step; [eapply sr_step; [eapply sr_step; [apply sr_start|]|]|]|].
    - apply (ss_spawn _ _ 0%nat (TransferLeadership 2 ≫= mret)); [done|]. by apply call_TransferLeadership; intros; apply call_return.
    - by eapply (ss_make _ _ 0%nat).
    - eapply (ss_send _ _ 0%nat); [done|]. cbn. unfold msgc_cap. lia.
    - eapply ss_loop; [done|done|exact Eh].
    Unshelve. done. }
  exists n, d', y. split; [done|]. split; [done|]. rewrite Hl. split; [done|]. rewrite <-Hl.
  exact (loop_never_blocks _ _ _ _ _ _ _ _ y En Hy).
Defined.

(** Two groups. *)
Definition two_groups : M fs (ShardedServer raftdisk) :=
  NewSharded (trio_conf 1) trio 0 None 2 (str "data") (λ g, empty_disk (g + 1)).

Lemma NewSharded_routes_witness :
  ∃ srv s', two_groups (empty_fs []) = (Ok srv, s') ∧
  zlength (shards srv) = 2 ∧
  ∀ key, ∃ g sh, ShardFor key 2 = Ok g ∧ 0 ≤ g < 2 ∧
    shardFor (shards srv) key = Ok sh ∧ kv_shard (srv_KV sh) = g.
Proof.
  assert (match (two_groups (empty_fs [])).1 with Ok _ => true | _ => false end = true) as Hok by (by vm_compute).
  destruct (two_groups (empty_fs [])) as [[srv|e| |] s'] eqn:E; try done. exists srv, s'. split; [done|].
  exact (NewSharded_routes (trio_conf 1) trio 0 None 2 (str "data") (λ g, empty_disk (g + 1)) (empty_fs []) srv s' ltac:(lia) E).
Defined.

(** A write with serial 0 at a node that has just booted. *)
#[local] Instance any_text : ErrText := λ _, str "error".

Definition unnumbered : PutRequest := mkPutReq (str "k") (str "v") 7 0.

Lemma serial_zero_dropped_witness :
  ∃ (n : Node raftdisk stateMachine),
    wp (applyEntry (mkEntry 1 1 ENTRY_TYPE_NORMAL (put_command unnumbered)))
      (λ o n', o = Ok () ∧ sm n' = sm n ∧ (4%nat, ReplyDone (inl ())) ∈ replies n') n ∧
    ∃ p, accepted 4 5 (1, 1) (servicePut (mkKV 0 false) unnumbered) = Some (evPropose (put_command unnumbered) ENTRY_TYPE_NORMAL 4 5, p) ∧
      receive 4 (ReplyDone (inl ())) p = Some (Return (inl ())).
Proof.
  assert (match solo_boot.1 with Ok n => Some (sm n) | _ => None end = Some (apply_all [] newStateMachine)) as Hsm by (by vm_compute).
  destruct solo_boot.1 as [n|e| |]; try discriminate Hsm. injection Hsm as Hsm.
  exists (n <| waiters := {[1 := mkWaiter 1 4]} |>).
  apply (serial_zero_dropped (mkKV 0 false) unnumbered _ [] _ 4 5 (1, 1)); [done|by vm_compute|done|done|exact Hsm|done|done|done].
Defined.
