(* ===== verification/Ticker.v ===== *)
(** * internal/kvraft/sharding.go: the shared clock and the shutdown of a server

    [ShardedServer.tickLoop] fans one timer out to every Raft group, and [Stop] waits
    for it before it stops the groups; each group is the event loop of System with
    its goroutines.  The groups hear the same number of ticks, a stopped server has
    no running loop left, and a group whose queue is full holds up the clock of all
    the others. *)

From stdpp Require Import prelude gmap strings.
From S2P Require Import Prelude GoRuntime GoBytes GoFS RaftTypes Membership RaftFiles Core Node NodeApi System.
From S2P Require Import KvStateMachine KvService Sharding ClusterSim SystemSim.
Open Scope Z_scope.

(** Where [tickLoop] is: at its [select], about to tick group [g], or returned. *)
Inductive ticker := TSelect | TFan (g : nat) | TReturned.
(** Where [Stop] is: not called, waiting for the ticker, about to stop group [g],
    waiting for its loop, or returned. *)
Inductive stop_call := SIdle | SWait | SStop (g : nat) | SJoin (g : nat) | SReturned.

(** The interval [tickLoop] uses, in milliseconds. *)
Definition tick_interval (interval : Z) : Z := if interval <=? 0 then 30 else interval.

Section ticker.
Context {D S R : Type} `{RaftDisk D} `{GoRuntime} `{StateMachine S}.
Variable spawnable : prog S R → Prop.

Abbreviation Y := (system D S R).

(** [ticked] counts the ticks enqueued for each group, until it is passed over
    because it stops. *)
Record server := mkSrv { groups : list Y; tk : ticker; stp : stop_call; stopc : bool; ticked : list (option nat) }.

Definition new_server (ys : list Y) : server := mkSrv ys TSelect SIdle false (replicate (length ys) (Some 0%nat)).

(** A step of [tickLoop]. *)
Inductive tick_step (s : server) : server → Prop :=
  | k_fire : tk s = TSelect → tick_step s (mkSrv (groups s) (TFan 0) (stp s) (stopc s) (ticked s))
  | k_tick g y :
      tk s = TFan g → groups s !! g = Some y → (length (msgc y) < msgc_cap)%nat →
      tick_step s (mkSrv (<[g := y <| msgc ::= λ q, q ++ [evTick] |>]> (groups s)) (TFan (g + 1)) (stp s) (stopc s)
                      (alter (fmap (λ n, (n + 1)%nat)) g (ticked s)))
  | k_skip g y :
      tk s = TFan g → groups s !! g = Some y → stopping (loop y) = true →
      tick_step s (mkSrv (groups s) (TFan (g + 1)) (stp s) (stopc s) (<[g := None]> (ticked s)))
  | k_round g :
      tk s = TFan g → groups s !! g = None →
      tick_step s (mkSrv (groups s) TSelect (stp s) (stopc s) (ticked s))
  | k_return :
      tk s = TSelect → stopc s = true → tick_step s (mkSrv (groups s) TReturned (stp s) (stopc s) (ticked s)).

(** A step of [Stop]. *)
Inductive stop_step (s : server) : server → Prop :=
  | k_stop : stp s = SIdle → stop_step s (mkSrv (groups s) (tk s) SWait true (ticked s))
  | k_waited : stp s = SWait → tk s = TReturned → stop_step s (mkSrv (groups s) (tk s) (SStop 0) (stopc s) (ticked s))
  | k_stop_group g y :
      stp s = SStop g → groups s !! g = Some y →
      stop_step s (mkSrv (<[g := y <| loop ::= set stopping (λ _, true) |>]> (groups s)) (tk s) (SJoin g) (stopc s) (ticked s))
  | k_joined g y :
      stp s = SJoin g → groups s !! g = Some y → looping y = false →
      stop_step s (mkSrv (groups s) (tk s) (SStop (g + 1)) (stopc s) (ticked s))
  | k_stopped g : stp s = SStop g → groups s !! g = None → stop_step s (mkSrv (groups s) (tk s) SReturned (stopc s) (ticked s)).

Definition clock_step (s s' : server) : Prop := tick_step s s' ∨ stop_step s s'.

(** A step of group [g], its callers included. *)
Inductive group_step (g : nat) (s : server) : server → Prop :=
  | k_group y y' :
      groups s !! g = Some y → sstep spawnable y y' →
      group_step g s (mkSrv (<[g := y']> (groups s)) (tk s) (stp s) (stopc s) (ticked s)).

Definition srv_step (s s' : server) : Prop := clock_step s s' ∨ ∃ g, group_step g s s'.

(** ** Facts *)

(** Loops do not come back. *)
Lemma sstep_ended (y y' : Y) : sstep spawnable y y' → looping y = false → looping y' = false.
Proof. destruct 1; cbn; congruence. Qed.

(** [Stop] has seen the ticker off, and the loops of the groups before the one it is
    at. *)
Definition stop_ok (s : server) : Prop :=
  match stp s with
  | SIdle | SWait => True
  | SStop g | SJoin g => tk s = TReturned ∧ ∀ i y, (i < g)%nat → groups s !! i = Some y → looping y = false
  | SReturned => tk s = TReturned ∧ ∀ i y, groups s !! i = Some y → looping y = false
  end.

(** Groups that were not passed over have heard the rounds there were, and those
    the ticker has been at in this round one more. *)
Definition ticks_ok (s : server) : Prop :=
  length (ticked s) = length (groups s) ∧
  ∃ r, ∀ i n, ticked s !! i = Some (Some n) →
    n = (r + match tk s with TFan g => if bool_decide (i < g)%nat then 1 else 0 | _ => 0 end)%nat.

Lemma looping_kept (ys : list Y) g y y' (P : nat → Prop) :
  ys !! g = Some y → (looping y = false → looping y' = false) →
  (∀ i y, P i → ys !! i = Some y → looping y = false) → ∀ i y, P i → <[g := y']> ys !! i = Some y → looping y = false.
Proof.
  intros Hg Hl Hall i y0 HP. destruct (decide (i = g)) as [->|Hne].
  - rewrite list_lookup_insert_eq by (by eapply lookup_lt_Some). intros [= <-]. apply Hl. by eapply (Hall g).
  - rewrite list_lookup_insert_ne by done. by apply Hall.
Qed.

Lemma clock_stop_ok s s' : clock_step s s' → stop_ok s → stop_ok s'.
Proof.
  intros Hs. unfold stop_ok. destruct Hs as [[Ht|g y Ht Hg Hl|g y Ht Hg Hst|g Ht Hg|Ht Hc]|[Hp|Hp Ht|g y Hp Hg|g y Hp Hg Hl|g Hp Hg]]; cbn;
    try (destruct (stp s) as [| |g0|g0|]; try done; intros [? _]; congruence).
  - intros _. split; [done|]. intros i y Hi. lia.
  - rewrite Hp. intros [Ht Hall]. split; [done|]. by apply (looping_kept _ g y _ (λ i, (i < g)%nat)).
  - rewrite Hp. intros [Ht Hall]. split; [done|]. intros i y0 Hi Hy0. destruct (decide (i = g)) as [->|Hne]; [congruence|].
    apply (Hall i); [lia|done].
  - rewrite Hp. intros [Ht Hall]. split; [done|]. intros i y Hy. apply (Hall i); [|done].
    apply lookup_lt_Some in Hy. apply lookup_ge_None in Hg. lia.
Qed.

Lemma group_stop_ok g s s' : group_step g s s' → stop_ok s → stop_ok s'.
Proof.
  intros [y y' Hg Hs]. unfold stop_ok. cbn. pose proof (sstep_ended y y' Hs) as Hl.
  destruct (stp s) as [| |g0|g0|]; try done; (intros [Ht Hall]; split; [done|]).
  - by apply (looping_kept _ g y _ (λ i, (i < g0)%nat)).
  - by apply (looping_kept _ g y _ (λ i, (i < g0)%nat)).
  - intros i y0. by apply (looping_kept _ g y y' (λ _, True)); eauto.
Qed.

Lemma clock_ticks_ok s s' : clock_step s s' → ticks_ok s → ticks_ok s'.
Proof.
  intros Hs [Hlen [r Hr]]. split.
  { destruct Hs as [[]|[]]; cbn; rewrite ?length_insert, ?length_alter; done. }
  destruct Hs as [[Ht|g y Ht Hg Hl|g y Ht Hg Hst|g Ht Hg|Ht Hc]|[Hp|Hp Ht|g y Hp Hg|g y Hp Hg Hl|g Hp Hg]];
    try (by exists r); rewrite Ht in Hr; cbn.
  - exists r. intros i n Hn. rewrite (Hr i n Hn), bool_decide_false by lia. done.
  - exists r. intros i n. destruct (decide (i = g)) as [->|Hne].
    + rewrite list_lookup_alter_eq. destruct (ticked s !! g) as [[m|]|] eqn:E; cbn; intros [= <-].
      rewrite (Hr g m E), bool_decide_false, bool_decide_true by lia. lia.
    + rewrite list_lookup_alter_ne by done. intros Hn. rewrite (Hr i n Hn). f_equal. repeat case_bool_decide; lia.
  - exists r. intros i n. destruct (decide (i = g)) as [->|Hne].
    + intros Hn. apply list_lookup_insert_Some in Hn as [(_ & ? & _)|[? _]]; done.
    + rewrite list_lookup_insert_ne by done. intros Hn. rewrite (Hr i n Hn). f_equal. repeat case_bool_decide; lia.
  - exists (r + 1)%nat. intros i n Hn. rewrite (Hr i n Hn). apply lookup_lt_Some in Hn. apply lookup_ge_None in Hg.
    rewrite bool_decide_true by lia. lia.
  - by exists r.
Qed.

Lemma group_ticks_ok g s s' : group_step g s s' → ticks_ok s → ticks_ok s'.
Proof. intros [y y' Hg Hs] [Hlen Hr]. split; [cbn; by rewrite length_insert|exact Hr]. Qed.

Lemma srv_ok ys s : rtc srv_step (new_server ys) s → stop_ok s ∧ ticks_ok s.
Proof.
  assert (stop_ok (new_server ys) ∧ ticks_ok (new_server ys)) as Hi.
  { split; [done|]. split; [cbn; by rewrite length_replicate|]. exists 0%nat. cbn. intros i n [[= ->] _]%lookup_replicate. done. }
  intros Hr. induction Hr as [|s0 s1 s2 Hs _ IH]; [done|]. apply IH. destruct Hi as [H1' H2'].
  destruct Hs as [Hs|[g Hs]]; [by eauto using clock_stop_ok, clock_ticks_ok|by eauto using group_stop_ok, group_ticks_ok].
Qed.

(** The clock is shared: two groups that have not been passed over have heard the
    same number of ticks, or the earlier one is one ahead. *)
Theorem ticks_shared ys s i j n m :
  rtc srv_step (new_server ys) s → (i < j)%nat → ticked s !! i = Some (Some n) → ticked s !! j = Some (Some m) →
  (m ≤ n ≤ m + 1)%nat.
Proof.
  intros Hr Hij Hi Hj. destruct (srv_ok ys s Hr) as [_ [_ [r Ht]]]. rewrite (Ht i n Hi), (Ht j m Hj).
  destruct (tk s); repeat case_bool_decide; lia.
Qed.

(** When [Stop] returns, the ticker has returned and no group's loop is running. *)
Theorem stopped_for_good ys s :
  rtc srv_step (new_server ys) s → stp s = SReturned →
  tk s = TReturned ∧ ∀ g y, groups s !! g = Some y → looping y = false.
Proof. intros Hr Hp. destruct (srv_ok ys s Hr) as [Hs _]. unfold stop_ok in Hs. by rewrite Hp in Hs. Qed.

(** *** A group that does not drain its queue *)

Section stalled.
Context (g : nat).

(** The queue of group [g] is full, its loop runs but takes nothing from it, and it is
    being stopped only if the ticker has returned. *)
Definition stalled (s : server) : Prop :=
  ∃ y, groups s !! g = Some y ∧ length (msgc y) = msgc_cap ∧ looping y = true ∧
    (stopping (loop y) = true → tk s = TReturned).

(** Whatever happens around group [g], which takes no step. *)
Definition around (s s' : server) : Prop := clock_step s s' ∨ ∃ h, h ≠ g ∧ group_step h s s'.

(** The ticks group [i] can still hear: those of the round under way, and of the next
    one for the groups before [g]. *)
Definition owed (t : ticker) (i : nat) : nat :=
  match t with
  | TReturned => 0
  | TSelect => if bool_decide (i < g)%nat then 1 else 0
  | TFan h =>
      if bool_decide (h ≤ g)%nat then (if bool_decide (h ≤ i < g)%nat then 1 else 0)
      else (if bool_decide (h ≤ i)%nat then 1 else 0) + (if bool_decide (i < g)%nat then 1 else 0)
  end.

Lemma owed_one t i : (owed t i ≤ 1)%nat ∧ owed t g = 0%nat ∧ (t = TFan g → owed t i = 0%nat).
Proof.
  split; [|split; [|intros ->]]; [destruct t|destruct t|]; unfold owed; repeat case_bool_decide; lia.
Qed.

Lemma stalled_around s s' : stop_ok s → around s s' → stalled s → stalled s' ∧ (stp s ≠ SReturned → stp s' ≠ SReturned).
Proof.
  intros Hok Hs (y & Hg & Hfull & Hl & Hst). unfold stop_ok in Hok. destruct Hs as [Hs|(h & Hh & [y0 y' Hy0 _])].
  2:{ split; [|done]. exists y. cbn. rewrite list_lookup_insert_ne by done. by split_and!. }
  destruct Hs as [[Ht|h y1 Ht Hh Hlt|h y1 Ht Hh Hst1|h Ht Hh|Ht Hc]|[Hp|Hp Ht|h y1 Hp Hh|h y1 Hp Hh Hl1|h Hp Hh]];
    (split; [|cbn; try done; try congruence]); try (exists y; cbn; split_and!; try done; intros E; specialize (Hst E); congruence).
  - assert (h ≠ g) as Hne by (intros ->; assert (y1 = y) as -> by congruence; lia).
    exists y. cbn. rewrite list_lookup_insert_ne by done. split_and!; try done. intros E. specialize (Hst E). congruence.
  - rewrite Hp in Hok. destruct Hok as [Ht _]. destruct (decide (h = g)) as [->|Hne].
    + assert (y1 = y) as -> by congruence. eexists. cbn. rewrite list_lookup_insert_eq by (by eapply lookup_lt_Some). by split_and!.
    + exists y. cbn. by rewrite list_lookup_insert_ne by done.
  - intros _. rewrite Hp in Hok. destruct Hok as [_ Hall]. specialize (Hall g y). apply lookup_lt_Some in Hg as Hlt.
    apply lookup_ge_None in Hh. rewrite Hall in Hl; [done|lia|done].
Qed.

(** The ticks heard and the ticks owed never grow. *)
Lemma owed_around s s' i n' :
  around s s' → stalled s → ticked s' !! i = Some (Some n') →
  ∃ n, ticked s !! i = Some (Some n) ∧ (n' + owed (tk s') i ≤ n + owed (tk s) i)%nat.
Proof.
  intros Hs (y & Hg & Hfull & _ & Hst). apply lookup_lt_Some in Hg as Hlen.
  destruct Hs as [Hs|(h & Hh & Hs)]; [|destruct Hs; intros Hn'; exists n'; split; [exact Hn'|cbn; lia]].
  destruct Hs as [[Ht|h y1 Ht Hh Hlt|h y1 Ht Hh Hst1|h Ht Hh|Ht Hc]|[Hp|Hp Ht|h y1 Hp Hh|h y1 Hp Hh Hl1|h Hp Hh]]; cbn; intros Hn';
    try (exists n'; split; [done|lia]); rewrite ?Ht.
  - exists n'. split; [done|]. unfold owed. repeat case_bool_decide; lia.
  - assert (h ≠ g) as Hne by (intros ->; assert (y1 = y) as -> by congruence; lia). destruct (decide (i = h)) as [->|Hih].
    + rewrite list_lookup_alter_eq in Hn'. destruct (ticked s !! h) as [[n|]|]; cbn in Hn'; simplify_eq. exists n. split; [done|].
      unfold owed. repeat case_bool_decide; lia.
    + rewrite list_lookup_alter_ne in Hn' by done. exists n'. split; [done|]. unfold owed. repeat case_bool_decide; lia.
  - destruct (decide (i = h)) as [->|Hih]; [apply list_lookup_insert_Some in Hn' as [(_ & ? & _)|[? _]]; done|].
    rewrite list_lookup_insert_ne in Hn' by done. exists n'. split; [done|]. destruct (decide (h = g)) as [->|Hne]; [|unfold owed; repeat case_bool_decide; lia].
    assert (y1 = y) as -> by congruence. specialize (Hst Hst1). congruence.
  - exists n'. split; [done|]. apply lookup_ge_None in Hh. unfold owed. repeat case_bool_decide; lia.
Qed.

Lemma stalled_run s s' :
  stop_ok s → stp s ≠ SReturned → stalled s → rtc around s s' →
  stp s' ≠ SReturned ∧ ∀ i n', ticked s' !! i = Some (Some n') →
    ∃ n, ticked s !! i = Some (Some n) ∧ (n' + owed (tk s') i ≤ n + owed (tk s) i)%nat.
Proof.
  intros Hok Hp Hs Hr. induction Hr as [s|s0 s1 s2 Hstep _ IH]; [split; [done|]; intros i n' Hn; by exists n'|].
  destruct (stalled_around s0 s1 Hok Hstep Hs) as [Hs1 Hp1]. destruct IH as [Hp2 Hn2]; [|by apply Hp1|done|].
  { destruct Hstep as [?|(h & _ & ?)]; [by eapply clock_stop_ok|by eapply group_stop_ok]. }
  split; [done|]. intros i n' Hn'. destruct (Hn2 i n' Hn') as (n1 & Hn1 & Hle1). destruct (owed_around s0 s1 i n1 Hstep Hs Hn1) as (n & Hn & Hle).
  exists n. split; [done|lia].
Qed.
End stalled.

(** C33: A group that does not drain its queue stops the clock of every group.  Take a
    reachable state in which the queue of group [g] is full, its loop runs but is
    busy (a slow disk, say), and it is not being stopped.  Whatever the ticker, [Stop], the other groups and
    their callers do while group [g] takes no step, [g] hears no tick, no other group
    hears more than one, none hears any once the ticker has reached [g], and a call of
    [Stop] does not return. *)
Theorem full_queue_stops_clock ys s s' g y :
  rtc srv_step (new_server ys) s →
  groups s !! g = Some y → length (msgc y) = msgc_cap → looping y = true → stopping (loop y) = false →
  rtc (around g) s s' →
  stp s' ≠ SReturned ∧ ∀ i n', ticked s' !! i = Some (Some n') →
    ∃ n, ticked s !! i = Some (Some n) ∧ (n' ≤ n + 1)%nat ∧ (i = g ∨ tk s = TFan g → (n' ≤ n)%nat).
Proof.
  intros H0' Hg Hfull Hl Hst Hr. destruct (srv_ok ys s H0') as [Hok _].
  assert (stp s ≠ SReturned) as Hp.
  { intros Hp. unfold stop_ok in Hok. rewrite Hp in Hok. destruct Hok as [_ Hall]. by rewrite (Hall g y Hg) in Hl. }
  destruct (stalled_run g s s' Hok Hp) as [Hp' Hn]; [exists y; split_and!; try done; congruence|done|].
  split; [done|]. intros i n' Hn'. destruct (Hn i n' Hn') as (n & Hni & Hle). exists n. split; [done|].
  destruct (owed_one g (tk s) i) as (H1' & H2' & H3'). split; [lia|]. intros [->|Ht]; [lia|]. rewrite H3' in Hle by done. lia.
Qed.

(** Messages that nobody takes. *)
Lemma fill_queue (ys0 : list Y) (y : Y) ys n :
  msgc y = [] → (n ≤ msgc_cap)%nat →
  rtc srv_step (new_server (ys0 ++ y :: ys))
    (mkSrv (ys0 ++ y <| msgc := replicate n evTick |> :: ys) TSelect SIdle false (replicate (length (ys0 ++ y :: ys)) (Some 0%nat))).
Proof.
  intros Hq. induction n as [|n IH]; intros Hn.
  - cbn [replicate]. assert (y <| msgc := [] |> = y) as -> by (destruct y; cbn in *; by subst). apply rtc_refl.
  - eapply rtc_r; [apply IH; lia|]. right. exists (length ys0).
    set (y1 := y <| msgc := replicate n evTick |>).
    replace (ys0 ++ y <| msgc := replicate (Datatypes.S n) evTick |> :: ys) with (<[length ys0 := y1 <| msgc ::= λ q, q ++ [evTick] |>]> (ys0 ++ y1 :: ys)).
    2:{ rewrite insert_app_r_alt, Nat.sub_diag by lia. subst y1. rewrite replicate_S_end. by destruct y. }
    apply (k_group _ (mkSrv (ys0 ++ y1 :: ys) _ _ _ _) y1); [by apply list_lookup_middle|]. apply ss_enqueue; [done|]. subst y1. cbn. rewrite length_replicate. lia.
Qed.
End ticker.

(** Two groups; the first is busy with a slow disk while messages queue up. *)
Definition group_of (n : Node raftdisk stateMachine) : system raftdisk stateMachine (option error) :=
  mkSystem n true [] 0 [] ∅.

Lemma full_queue_stops_clock_witness :
  ∃ n d', NewNode (trio_conf 1) trio newStateMachine 0 None (empty_disk 1) = (Ok n, d') ∧
    let y := group_of n in let full := y <| msgc := replicate msgc_cap evTick |> in
    let s := mkSrv [y; full] TSelect SIdle false [Some 0%nat; Some 0%nat] in
    let s' := mkSrv [y <| msgc := [evTick] |>; full] (TFan 1) SWait true [Some 1%nat; Some 0%nat] in
    rtc (around (λ _, False) 1) s s' ∧ stp s' ≠ SReturned ∧ ∀ i n', ticked s' !! i = Some (Some n') →
      ∃ n, ticked s !! i = Some (Some n) ∧ (n' ≤ n + 1)%nat ∧ (i = 1%nat ∨ tk s = TFan 1 → (n' ≤ n)%nat).
Proof.
  assert (match (NewNode (trio_conf 1) trio newStateMachine 0 None (empty_disk 1)).1 with Ok n => stopping n | _ => true end = false) as Hstop
    by (by vm_compute).
  destruct (NewNode (trio_conf 1) trio newStateMachine 0 None (empty_disk 1)) as [[n|e| |] d'] eqn:En; try done.
  cbn [fst] in Hstop. exists n, d'. split; [done|]. intros y full s s'.
  assert (rtc (around (λ _, False) 1) s s') as Hr.
  { eapply rtc_l; [left; left; by apply (k_fire s)|]. eapply rtc_l; [left; left; by apply (k_tick _ 0 y); [| |cbn; unfold msgc_cap; lia]|].
    eapply rtc_l; [left; right; by apply k_stop|]. apply rtc_refl. }
  split; [exact Hr|]. apply (full_queue_stops_clock (λ _, False) [y; y] s s' 1 full); [|done|exact (length_replicate msgc_cap evTick)|done|exact Hstop|exact Hr].
  apply (fill_queue _ [y] y [] msgc_cap); [done|lia].
Defined.
