(* ===== verification/RaftSim.v ===== *)
(** * States that show what the core does not guarantee

    Two reachable states, each found by computing a run of the node code.  A crash
    during log compaction leaves a disk that no boot accepts, ever ([headless] is
    kept by every boot that fails).  An interleaving of two membership changes,
    steps of a cluster whose members change ([member_step]), leaves two nodes that
    have applied different commands at one index. *)

From stdpp Require Import prelude gmap strings.
From coqutil Require Import Byte.
From S2P Require Import Prelude GoRuntime GoBytes GoFS RaftTypes Membership RaftFiles Core Node Cluster ClusterSim.
From S2P Require Import RaftLaws CoreVotes NodeRefine NodeReads Record RaftFilesLaws Command KvStateMachine.
Open Scope Z_scope.

(** ** Compaction *)

#[local] Existing Instance bit_gob.

(** A cluster of one node that compacts at every applied entry; its file system
    stops the machine at the [k]-th call. *)
Definition solo : Members := {[1 := str "a:1"]}.
Definition solo_run (k : nat) : list action := [ABoot 1 (replicate k FOk ++ [FCrash 0]); ATick 1].
Definition solo_play (k : nat) : option (world raftdisk stateMachine) :=
  play solo trio_conf newStateMachine 1 None (solo_run k) (fresh_world [1]).

(** *** Disks that no boot accepts *)

Section boots.
Context {D S : Type} `{RaftDiskLaws D} `{GoRuntime} `{StateMachineLaws S}.

(** A machine comes up, or its process is started again, and boots a node; [d'] is
    what the attempt leaves. *)
Definition boots (conf : Config) (Cfg : Members) (s0 : S) (compactAt : Z) (peers : option Members)
    (d : D) (o : outcome (Node D S)) (d' : D) : Prop :=
  ∃ d1, reboot d d1 ∧ NewNode conf Cfg s0 compactAt peers d1 = (o, d').

(** Any number of boots, each with its own configuration. *)
Definition booted_again (d d' : D) : Prop := ∃ conf Cfg s0 compactAt peers o, boots conf Cfg s0 compactAt peers d o d'.

(** Whatever the disk comes to show, its log does not continue its snapshot. *)
Definition headless (d : D) : Prop :=
  d_wf d ∧ ∀ sn l, may_snap d sn → may_log d l → ¬ starts_at (u64 (lastIndex sn + 1)) l.

Lemma headless_boots conf Cfg s0 compactAt peers (d : D) o d' :
  headless d → boots conf Cfg s0 compactAt peers d o d' → headless d' ∧ ∀ n, o ≠ Ok n.
Proof.
  intros [Hw Hno] (d1 & Hre & Hnew). destruct (reboot_law d d1 Hw Hre) as (Hw1 & _ & Hl1 & Hs1).
  pose proof (NewNode_recovers conf Cfg s0 compactAt peers d1 Hw1) as Hrec. rewrite Hnew in Hrec.
  destruct Hrec as [(Hw' & _ & Hl' & Hs') Hok]. split; [split; [done|]; intros sn l ? ?; apply Hno; by auto|].
  intros n ->. destruct (Hok n eq_refl) as [(_ & _ & _ & _ & _ & t & v & sn & l & _ & Hsn & Hl & Hst & _) _]. by apply (Hno sn l); auto.
Qed.

Lemma headless_again d d' : headless d → rtc booted_again d d' → headless d'.
Proof. intros Hh Hr. induction Hr as [|d d1 d2 (? & ? & ? & ? & ? & ? & Hb) _ IH]; [done|]. apply IH. by eapply headless_boots. Qed.
End boots.

(** On the files: everything is durable, and what the snapshot and the log say. *)
Definition all_durable (s : fs) : bool :=
  bool_decide (pend s = []) && forallb (λ '(_, n), (synced n =? length (content n))%nat) (map_to_list (inodes s)).

Definition bases (d : raftdisk) : bool * option Z * option Z :=
  (all_durable (rfs d),
   match file (rfs d) (pSnap (ls_dir (store d))) with
   | Some b => match decodeRaftSnapshot b with Ok sn => Some (lastIndex sn) | _ => None end
   | None => None
   end,
   Index <$> head (log_supersede [] (records_of (default [] (file (rfs d) (pLog (ls_dir (store d)))))))).

Lemma all_durable_settled (d : raftdisk) : all_durable (rfs d) = true → RaftLaws.settled d.
Proof.
  intros [Hp Hi]%andb_true_iff. apply bool_decide_eq_true_1 in Hp. apply crash_settled with (d := d). split; [by exists 0%nat; rewrite Hp|]. split; [done|].
  intros i. destruct (inodes (rfs d) !! i) as [n|] eqn:E; constructor. apply Is_true_true, forallb_True in Hi. rewrite Forall_forall in Hi.
  specialize (Hi (i, n)). rewrite elem_of_map_to_list in Hi. specialize (Hi E). apply Is_true_true, Nat.eqb_eq in Hi.
  exists (synced n). split; [done|]. by rewrite Hi, firstn_all.
Qed.

Lemma bases_headless (d : raftdisk) k j : d_wf d → bases d = (true, Some k, Some j) → j ≠ u64 (k + 1) → headless d.
Proof.
  unfold bases. intros Hw [= Hd Hk Hj] Hne. destruct (all_durable_settled d Hd) as [Hl Hs]. split; [done|]. intros sn l Hsn Hlog Hst.
  pose proof (file_mlog (ls_dir (store d)) (rfs d) (fo_wf _ _ Hw)) as Hcur. rewrite (Hl _ _ Hlog Hcur) in Hst.
  destruct (file (rfs d) (pSnap _)) as [b|] eqn:Eb; [|done]. destruct (decodeRaftSnapshot b) as [s1|e| |] eqn:Es; try done. injection Hk as Hk.
  assert (may_snap d s1) as Hs1.
  { eexists. split; [apply possible_names|]. rewrite <-file_possible, Eb. exact Es. }
  rewrite (Hs _ _ Hsn Hs1), Hk in Hst. destruct (log_supersede _ _) as [|e l'] eqn:El; [done|]. cbn in Hst, Hj. congruence.
Qed.

Definition down_disk {S} (w : world raftdisk S) (i : Z) : option raftdisk :=
  match nodes w !! i with Some (Down d) => Some d | _ => None end.

Lemma ran_down {A S} (o : option (world raftdisk S)) (f : raftdisk → A) v :
  (w ← o; d ← down_disk w 1; Some (f d)) = Some v →
  ∃ w d, o = Some w ∧ nodes w !! 1 = Some (Down d) ∧ f d = v.
Proof.
  unfold down_disk. destruct o as [w|]; [|done]. cbn. destruct (nodes w !! 1) as [[n|d]|] eqn:E; try done.
  intros [= <-]. eauto.
Qed.

(** The snapshot covers index 1, and the log still starts there. *)
Lemma solo_crash_run : (w ← solo_play 20; d ← down_disk w 1; Some (bases d)) = Some (true, Some 1, Some 1).
Proof. by vm_compute. Qed.

Lemma solo_wf : members_wf solo.
Proof.
  split; [by vm_compute|]. split; [|by vm_compute]. intros id addr Hl. unfold solo in Hl. by apply lookup_singleton_Some in Hl as [<- <-].
Qed.

Lemma solo_reachable k w :
  solo_play k = Some w → reachable solo trio_conf newStateMachine 1 None w.
Proof.
  apply play_reachable. constructor. apply fresh_world_initial. by apply (bool_decide_unpack _).
Qed.

(** C37: A crash during compaction keeps a node from ever starting again.  A
    one-node cluster reaches a state in which the machine has stopped between the two
    steps of a compaction: everything on its disk is durable, the snapshot covers entry
    1, and the log, not yet rewritten, still starts with entry 1.  From then on,
    however often the machine or the process is started again, with whatever
    configuration and state machine, no boot succeeds. *)
Theorem compaction_crash_no_boot :
  ∃ (w : world raftdisk stateMachine) d, reachable solo trio_conf newStateMachine 1 None w ∧ nodes w !! 1 = Some (Down d) ∧
    bases d = (true, Some 1, Some 1) ∧
    ∀ d1, rtc (booted_again (S := stateMachine)) d d1 →
    ∀ conf Cfg s0 compactAt peers o d2, boots conf Cfg s0 compactAt peers d1 o d2 → ∀ n : Node raftdisk stateMachine, o ≠ Ok n.
Proof.
  destruct (ran_down _ _ _ solo_crash_run) as (w & d & Hw & Hd & Hb). pose proof (solo_reachable _ _ Hw) as Hre.
  exists w, d. split; [exact Hre|]. split; [exact Hd|]. split; [exact Hb|].
  destruct (w_down _ _ (reachable_winv solo trio_conf newStateMachine 1 None solo_wf (decodeMembers_encode solo solo_wf) (λ _ _, eq_refl) w Hre) _ _ Hd)
    as (t & v & [Hwf _ _ _]).
  intros d1 Hr conf Cfg s0 compactAt peers o d2 Hboot. eapply headless_boots; [|exact Hboot]. eapply headless_again; [|exact Hr].
  by apply (bases_headless d 1 1).
Qed.

(** ** Membership changes *)

(** *** A cluster whose members change

    As Cluster has it, with requests to add or remove a member besides, and with
    every machine booting with the members its operator wrote down for it. *)
Section changes.
Context {S : Type} `{GoRuntime} `{StateMachine S}.
Context (Cfg : Z → Members) (conf : Z → Config) (s0 : S) (compactAt : Z).

Abbreviation W := (world raftdisk S).

Inductive member_step (w : W) : W → Prop :=
  | ms_event i n ev resp o n' :
      nodes w !! i = Some (Up n) →
      delivers (sent w) i ev resp ∨ (∃ cc d ch, ev = evConfChange cc d ch ∧ resp = no_response) →
      handle ev (n <| replies := [] |> <| net := [] |>) = (o, n') →
      member_step w (ran w i o n' ((PReq i <$> net n') ++ omap (resp ∘ snd) (replies n')))
  | ms_stop i n :
      nodes w !! i = Some (Up n) →
      member_step w (mkWorld (<[i := Down (disk (nc n))]> (nodes w)) (sent w) (ballots w) (elected w))
  | ms_boot i d d' o d'' :
      nodes w !! i = Some (Down d) → after_crash d d' →
      NewNode (conf i) (Cfg i) s0 compactAt None d' = (o, d'') →
      member_step w (mkWorld (<[i := match o with Ok n => Up n | _ => Down d'' end]> (nodes w))
                       (sent w) (ballots w) (elected w)).

(** A scheduler for these steps. *)
Inductive member_action :=
  | MTake (a : action)
  | MChange (i : Z) (cc : confChange).

Definition member_event (w : W) (a : member_action) : option (Z * event * (reply → option packet)) :=
  match a with
  | MTake a => event_at w a
  | MChange i cc => Some (i, evConfChange cc 0 0, no_response)
  end.

Definition member_act (a : member_action) (w : W) : option W :=
  match a with
  | MTake (ABoot i r) => act (Cfg i) conf s0 compactAt None (ABoot i r) w
  | MTake (AStop i) => act (Cfg i) conf s0 compactAt None (AStop i) w
  | _ =>
      match member_event w a with
      | Some (i, ev, resp) =>
          match nodes w !! i with
          | Some (Up n) =>
              let '(o, n') := handle ev (n <| replies := [] |> <| net := [] |>) in
              Some (ran w i o n' ((PReq i <$> net n') ++ omap (resp ∘ snd) (replies n')))
          | _ => None
          end
      | None => None
      end
  end.

Fixpoint member_play (l : list member_action) (w : W) : option W :=
  match l with
  | [] => Some w
  | a :: l' => w' ← member_act a w; member_play l' w'
  end.

Lemma member_event_step w a i ev resp n o n' :
  member_event w a = Some (i, ev, resp) → nodes w !! i = Some (Up n) →
  handle ev (n <| replies := [] |> <| net := [] |>) = (o, n') →
  member_step w (ran w i o n' ((PReq i <$> net n') ++ omap (resp ∘ snd) (replies n'))).
Proof.
  intros He Hi Hh. eapply ms_event; [done| |done]. destruct a as [a|j cc]; cbn in He.
  - left. by eapply event_at_delivers.
  - injection He as <- <- <-. right. eauto.
Qed.

Lemma member_act_step a w w' : member_act a w = Some w' → member_step w w'.
Proof.
  assert (∀ i ev resp, member_event w a = Some (i, ev, resp) →
    match nodes w !! i with
    | Some (Up n) =>
        let '(o, n') := handle ev (n <| replies := [] |> <| net := [] |>) in
        Some (ran w i o n' ((PReq i <$> net n') ++ omap (resp ∘ snd) (replies n')))
    | _ => None
    end = Some w' → member_step w w') as Hev.
  { intros i ev resp He. destruct (nodes w !! i) as [[n|d]|] eqn:Hi; [|done..].
    destruct (handle ev _) as [o n'] eqn:Hh. intros [= <-]. by eapply member_event_step. }
  unfold member_act. destruct a as [[i|i cmd|i k|i|i r|i ch]|i cc].
  1-3,6-7: destruct (member_event w _) as [[[j ev] resp]|] eqn:He; [by apply Hev|done].
  - cbn. destruct (nodes w !! i) as [[n|d]|] eqn:Hi; [|done..]. intros [= <-]. by apply ms_stop.
  - cbn. destruct (nodes w !! i) as [[n|d]|] eqn:Hi; [done| |done].
    destruct (NewNode _ _ _ _ _ _) as [o d''] eqn:Hn. intros [= <-].
    eapply ms_boot; [done| |exact Hn]. split; [done|apply crash_power_cut].
Qed.

Lemma member_play_steps l w w' : member_play l w = Some w' → rtc member_step w w'.
Proof.
  revert w. induction l as [|a l IH]; intros w; cbn; [by intros [= <-]|].
  destruct (member_act a w) as [w1|] eqn:Ha; [|done]. intros Hp.
  eapply rtc_l; [by eapply member_act_step|by apply IH].
Qed.
End changes.

(** Nodes 1 to 4, and node 5, which is to join.  Leader 1 of term 1 appends the
    addition of 5 to its own log only.  Node 2 wins term 2 with 3 and 4, removes 1,
    and commits the removal and two writes of "x" with 3 alone, two of three.  Node
    1, which counts five members, wins term 3 with 4 and 5 and commits a write of "y"
    with them. *)
Definition four : Members := {[1 := str "a:1"; 2 := str "b:2"; 3 := str "c:3"; 4 := str "d:4"]}.
Definition five : Members := <[5 := str "e:5"]> four.
Definition written_down (i : Z) : Members := if i =? 5 then five else four.
Definition write_of (v : string) : bytes :=
  kvEncodeCommand (mkEnvelope 0 0 (EncodeCommand (mkCommand OpPut (str "k") (str v)))).
Definition two_changes : list member_action :=
  [MTake (ABoot 1 []); MTake (ABoot 2 []); MTake (ABoot 3 []); MTake (ABoot 4 []); MTake (ABoot 5 []);
   MTake (ATick 1); MTake (ADeliver 2 2); MTake (ADeliver 1 3); MTake (ADeliver 3 0); MTake (ADeliver 1 4);
   MTake (ADeliver 2 7); MTake (ADeliver 1 8); MTake (ADeliver 3 5); MTake (ADeliver 1 9);
   MChange 1 (mkCC confChangeAdd 5 (str "e:5")); MTake (ATick 3); MTake (ATick 4); MTake (ATick 2);
   MTake (ADeliver 3 22); MTake (ADeliver 2 25); MTake (ADeliver 4 23); MTake (ADeliver 2 26);
   MTake (ADeliver 3 27); MTake (ADeliver 2 30); MTake (ADeliver 4 28); MTake (ADeliver 2 31);
   MChange 2 (mkCC confChangeRemove 1 []); MTake (ADeliver 3 35); MTake (ADeliver 2 38);
   MTake (APropose 2 (write_of "x")); MTake (ADeliver 3 39); MTake (ADeliver 2 41); MTake (APropose 2 (write_of "x")); MTake (ADeliver 3 42); MTake (ADeliver 2 44);
   MTake (ADeliver 4 1);
   MTake (ADeliver 1 45); MTake (ATick 4); MTake (ATick 5); MTake (ATick 1); MTake (ADeliver 4 55);
   MTake (ADeliver 1 57); MTake (ADeliver 5 53); MTake (ADeliver 1 58); MTake (ADeliver 4 61);
   MTake (ADeliver 1 63); MTake (ADeliver 5 59); MTake (ADeliver 1 64); MTake (APropose 1 (write_of "y"));
   MTake (ADeliver 4 71); MTake (ADeliver 1 73); MTake (ADeliver 5 69); MTake (ADeliver 1 75);
   MTake (ADeliver 4 74); MTake (ADeliver 1 77); MTake (ADeliver 5 76); MTake (ADeliver 1 78)].

(** What a node has applied, the entry it has committed at index 3, and the
    value it holds. *)
Definition standing (w : world raftdisk stateMachine) (i : Z) : option (Z * option Z * option bytes) :=
  match nodes w !! i with
  | Some (Up n) =>
      Some (applied n,
            if 3 <=? commitIndex (nc n) then list_find (λ e, Index e = 3) (entries (nc n)) ≫= λ '(_, e), Some (Term e) else None,
            sm_data (sm n) !! str "k")
  | _ => None
  end.

Definition two_changes_play : option (world raftdisk stateMachine) :=
  member_play written_down trio_conf newStateMachine 0 two_changes (fresh_world [1; 2; 3; 4; 5]).

Lemma two_changes_run :
  (λ w, (standing w 1, standing w 2)) <$> two_changes_play =
  Some (Some (4, Some 3, Some (str "y")), Some (4, Some 2, Some (str "x"))).
Proof. by vm_compute. Qed.

Lemma standing_up w i a c d : standing w i = Some (a, c, d) → ∃ n, nodes w !! i = Some (Up n) ∧ applied n = a ∧ sm_data (sm n) !! str "k" = d.
Proof. unfold standing. destruct (nodes w !! i) as [[n|]|]; [|done..]. intros [= <- _ <-]. eauto. Qed.

(** C38: Two membership changes can break the replicated log.  A leader accepts a
    membership change before an entry of its own term is committed.  Five machines
    on fresh disks, four of them the members at the start, reach a state in which
    nodes 1 and 2 are up, have both applied four entries, have committed entries of
    different terms at index 3, and hold different values for a key; no log is what
    all running nodes have replayed a prefix of, which is what State Machine Safety
    promises where the membership is fixed. *)
Theorem membership_changes_diverge :
  ∃ w : world raftdisk stateMachine,
    rtc (member_step written_down trio_conf newStateMachine 0) (fresh_world [1; 2; 3; 4; 5]) w ∧
    standing w 1 = Some (4, Some 3, Some (str "y")) ∧
    standing w 2 = Some (4, Some 2, Some (str "x")) ∧
    ¬ ∃ log, ∀ i n, nodes w !! i = Some (Up n) →
        applied n ≤ zlength log ∧ sm n = replay newStateMachine (ztake (applied n) log).
Proof.
  destruct (proj1 (fmap_Some _ _ _) two_changes_run) as (w & Hw & [= H1 H2]).
  exists w. split; [exact (member_play_steps _ _ _ _ _ _ _ Hw)|]. split; [by rewrite <-H1|]. split; [by rewrite <-H2|]. intros [log Hlog].
  symmetry in H1, H2.
  apply standing_up in H1 as (n1 & Hn1 & Ha1 & Hd1), H2 as (n2 & Hn2 & Ha2 & Hd2).
  apply Hlog in Hn1 as [_ Hs1], Hn2 as [_ Hs2]. rewrite Ha1 in Hs1. rewrite Ha2 in Hs2.
  rewrite <-Hs1 in Hs2. by rewrite Hs2, Hd1 in Hd2.
Qed.
