(* ===== verification/SafetySim.v ===== *)
(** * A run of three replicated stores

    The key-value state machine on the byte-level disks: entries are committed,
    compacted into a snapshot, sent to a node that was away, and survive a power
    cut.  The theorems of StateSafety are applied to it. *)

From stdpp Require Import prelude gmap strings sorting.
From S2P Require Import Prelude GoRuntime GoBytes GoFS Record Command RaftTypes Membership RaftLaws.
From S2P Require Import RaftFiles RaftFilesLaws Core CoreVotes Node Cluster NodeRefine StateSafety ClusterSim KvStateMachine.
Open Scope Z_scope.

#[local] Existing Instance bit_gob.

Section sim.
Context {S : Type} `{GoRuntime} `{StateMachineLaws S}.
Context (Cfg : Members) (conf : Z → Config) (s0 : S) (compactAt : Z) (peers : option Members).

Abbreviation W := (world raftdisk S).

Definition sane_ok (w : W) : bool :=
  terms_ok w &&
  forallb (λ '(_, st), match st with
    | Up n => (lastLogIndex (nc n) <? 2 ^ 64 - 2) && (lastDelivered (nc n) <=? commitIndex (nc n))
    | Down _ => true end) (map_to_list (nodes w)).

Lemma sane_ok_sane w : sane_ok w = true → sane w.
Proof.
  unfold sane_ok. intros [Ht Hall]%andb_true_iff. split; [by apply terms_ok_bounded|]. intros i n Hi.
  apply Is_true_true in Hall. apply forallb_True in Hall. rewrite Forall_forall in Hall.
  specialize (Hall (i, Up n)). rewrite elem_of_map_to_list in Hall. specialize (Hall Hi).
  apply Is_true_true in Hall. zify_bool. done.
Qed.

Fixpoint sane_play (l : list action) (w : W) : option W :=
  match l with
  | [] => Some w
  | a :: l' => w' ← act Cfg conf s0 compactAt peers a w; if sane_ok w' then sane_play l' w' else None
  end.

Lemma sane_play_steps l w w' : sane_play l w = Some w' → sane_steps Cfg conf s0 compactAt peers w w'.
Proof.
  revert w. induction l as [|a l IH]; intros w; cbn; [intros [= <-]; apply rtc_refl|].
  destruct (act _ _ _ _ _ a w) as [w1|] eqn:Ha; [|done]. cbn. destruct (sane_ok w1) eqn:Hs; [|done].
  intros Hp. eapply rtc_l; [|by apply IH]. split; [|by apply sane_ok_sane].
  apply action_crash in Ha. eapply step_on_mono; [|exact Ha]. intros d d' [? ?].
  split; [split; [done|by left]|by eapply crash_settled].
Qed.
End sim.

Definition put (k v : string) : bytes :=
  kvEncodeCommand (mkEnvelope 0 0 (EncodeCommand (mkCommand OpPut (str k) (str v)))).

Definition stores_play (l : list action) : option (world raftdisk stateMachine) :=
  sane_play trio trio_conf newStateMachine 2 None l (fresh_world [1; 2; 3]).

(** Node 1 leads term 1 and commits two writes with node 2; it has compacted its
    log, and node 3 has seen nothing. *)
Definition two_writes : list action :=
  [ABoot 1 []; ABoot 2 []; ABoot 3 []; ATick 1; ADeliver 2 1; ADeliver 1 2; ADeliver 2 4; ADeliver 1 5;
   ADeliver 2 7; ADeliver 1 8; APropose 1 (put "a" "1"); ADeliver 2 10; ADeliver 1 11;
   APropose 1 (put "b" "2"); ADeliver 2 13; ADeliver 1 14].

(** Node 3 installs the snapshot and catches up; node 1 stops, node 2 loses power
    and boots again; node 3 wins term 2. *)
Definition new_leader : list action :=
  [ADeliver 3 12; ADeliver 1 15; ADeliver 3 16; ADeliver 1 17; AStop 1; AStop 2; ABoot 2 []; ATick 3; ATick 3;
   ADeliver 2 20; ADeliver 3 22; ADeliver 2 23; ADeliver 3 25].

(** ... and commits a third write with node 2. *)
Definition third_write : list action :=
  [ADeliver 2 26; ADeliver 3 28; APropose 3 (put "c" "3"); ADeliver 2 29; ADeliver 3 31; ATick 3;
   ADeliver 2 32; ADeliver 3 34].

Abbreviation stores := (sane_play trio trio_conf newStateMachine).

Definition at_node {A} (f : Node raftdisk stateMachine → A) (i : Z) (w : world raftdisk stateMachine) : option A :=
  match nodes w !! i with Some (Up n) => Some (f n) | _ => None end.

Lemma at_node_up {A} (f : Node raftdisk stateMachine → A) i w v :
  at_node f i w = Some v → ∃ n, nodes w !! i = Some (Up n) ∧ f n = v.
Proof. unfold at_node. destruct (nodes w !! i) as [[n|d]|]; [|done..]. intros [= <-]. eauto. Qed.

(** A run in two parts, and what is seen of both ends. *)
Lemma two_parts {A} (f : world raftdisk stateMachine → A) compactAt l l' w0 v v' :
  (w ← stores compactAt None l w0; w' ← stores compactAt None l' w; Some (f w, f w')) = Some (v, v') →
  ∃ w w', stores compactAt None l w0 = Some w ∧ stores compactAt None l' w = Some w' ∧ f w = v ∧ f w' = v'.
Proof.
  destruct (stores compactAt None l w0) as [w|] eqn:E1; [|done]. cbn.
  destruct (stores compactAt None l' w) as [w'|] eqn:E2; [|done]. cbn. intros [= <- <-]. by exists w, w'.
Qed.

(** What each node has applied, and what its map holds under [b] and [c]. *)
Definition seen (w : world raftdisk stateMachine) : list (option (Z * (bytes * bytes))) :=
  (λ i, at_node (λ n, (applied n, ((stateMachine_get (str "b") (sm n)).1, (stateMachine_get (str "c") (sm n)).1))) i w) <$> [1; 2; 3].

Lemma state_machine_safety_witness :
  ∃ w w', stores 2 None two_writes (fresh_world [1; 2; 3]) = Some w ∧
    stores 2 None (new_leader ++ third_write) w = Some w' ∧
    seen w = [Some (3, (str "2", [])); Some (2, ([], [])); Some (0, ([], []))] ∧
    seen w' = [None; Some (5, (str "2", str "3")); Some (5, (str "2", str "3"))] ∧
    ∃ log, ∀ i n, nodes w !! i = Some (Up n) ∨ nodes w' !! i = Some (Up n) →
      applied n ≤ zlength log ∧ sm n = replay newStateMachine (ztake (applied n) log).
Proof.
  destruct (two_parts seen 2 two_writes (new_leader ++ third_write) (fresh_world [1; 2; 3])
    [Some (3, (str "2", [])); Some (2, ([], [])); Some (0, ([], []))]
    [None; Some (5, (str "2", str "3")); Some (5, (str "2", str "3"))]) as (w & w' & E1 & E2 & Hv & Hv'); [by vm_compute|].
  exists w, w'. do 4 (split; [done|]).
  exact (state_machine_safety trio trio_conf newStateMachine 2 None (fresh_world [1; 2; 3]) w w' trio_wf (λ _ _, eq_refl)
    (fresh_world_initial trio [1; 2; 3] trio_dom) (sane_play_steps _ _ _ _ _ _ _ _ E1) (sane_play_steps _ _ _ _ _ _ _ _ E2)).
Defined.

(** Role, term, applied index, last index and the indices of the log kept. *)
Definition standing (n : Node raftdisk stateMachine) : Role * Z * Z * Z * list Z :=
  (role (nc n), term (nc n), applied n, lastLogIndex (nc n), Index <$> entries (nc n)).

Lemma leader_completeness_witness :
  ∃ w w' n m, stores 2 None two_writes (fresh_world [1; 2; 3]) = Some w ∧ stores 2 None new_leader w = Some w' ∧
    nodes w !! 1 = Some (Up n) ∧ nodes w' !! 3 = Some (Up m) ∧
    standing n = (leader, 1, 3, 3, [3]) ∧ standing m = (leader, 2, 3, 4, [3; 4]) ∧
    ∃ log, zlength log = applied n ∧ sm n = replay newStateMachine log ∧ applied n ≤ lastLogIndex (nc m) ∧
      ∀ e, e ∈ entries (nc m) → Index e ≤ applied n → log !! Z.to_nat (Index e - 1) = Some e.
Proof.
  destruct (two_parts (λ w, (at_node standing 1 w, at_node standing 3 w)) 2 two_writes new_leader (fresh_world [1; 2; 3])
    (Some (leader, 1, 3, 3, [3]), Some (follower, 0, 0, 0, [])) (None, Some (leader, 2, 3, 4, [3; 4])))
    as (w & w' & E1 & E2 & Hv & Hv'); [by vm_compute|].
  injection Hv as Hv _. injection Hv' as _ Hv'.
  destruct (at_node_up standing 1 w _ Hv) as (n & Hn & Sn), (at_node_up standing 3 w' _ Hv') as (m & Hm & Sm).
  exists w, w', n, m. do 6 (split; [done|]). injection Sn as ? Tn ? ? ?. injection Sm as Lm Tm ? ? ?.
  refine (leader_completeness trio trio_conf newStateMachine 2 None (fresh_world [1; 2; 3]) w w' 1 n 3 m trio_wf (λ _ _, eq_refl)
    (fresh_world_initial trio [1; 2; 3] trio_dom) (sane_play_steps _ _ _ _ _ _ _ _ E1) (sane_play_steps _ _ _ _ _ _ _ _ E2) Hn Hm Lm _).
  lia.
Defined.

Lemma log_matching_witness :
  ∃ w n m e e' x y, stores 0 None two_writes (fresh_world [1; 2; 3]) = Some w ∧
    nodes w !! 1 = Some (Up n) ∧ nodes w !! 2 = Some (Up m) ∧
    entries (nc n) !! 2%nat = Some e ∧ entries (nc m) !! 2%nat = Some e' ∧
    entries (nc n) !! 1%nat = Some x ∧ entries (nc m) !! 1%nat = Some y ∧ Index e = 3 ∧ Index x = 2 ∧ x = y.
Proof.
  set (look := λ n : Node raftdisk stateMachine, (λ e, (Index e, Term e)) <$> entries (nc n)).
  destruct (two_parts (λ w, (at_node look 1 w, at_node look 2 w)) 0 two_writes [] (fresh_world [1; 2; 3])
    (Some [(1, 1); (2, 1); (3, 1)], Some [(1, 1); (2, 1); (3, 1)]) (Some [(1, 1); (2, 1); (3, 1)], Some [(1, 1); (2, 1); (3, 1)]))
    as (w & w' & E1 & _ & Hv & _); [by vm_compute|].
  injection Hv as Hv Hv'. destruct (at_node_up look 1 w _ Hv) as (n & Hn & Ln), (at_node_up look 2 w _ Hv') as (m & Hm & Lm).
  unfold look in Ln, Lm.
  destruct (entries (nc n)) as [|z [|x [|e [|]]]] eqn:En; try discriminate Ln. injection Ln as ? ? Ix Tx Ie Te.
  destruct (entries (nc m)) as [|z' [|y [|e' [|]]]] eqn:Em; try discriminate Lm. injection Lm as ? ? Iy Ty Ie' Te'.
  exists w, n, m, e, e', x, y. rewrite En, Em. do 9 (split; [done|]).
  apply (log_matching trio trio_conf newStateMachine 0 None (fresh_world [1; 2; 3]) w 1 n 2 m e e' x y trio_wf (λ _ _, eq_refl)
    (fresh_world_initial trio [1; 2; 3] trio_dom) (sane_play_steps _ _ _ _ _ _ _ _ E1) Hn Hm);
    rewrite ?En, ?Em; [by do 2 right; left|by do 2 right; left|lia|lia|by right; left|by right; left|lia|lia].
Defined.
