(* ===== verification/ReadSim.v ===== *)
(** * A read barrier in a run of three replicated stores

    The runs of ReadSafety on the byte-level disks, with their labels.  A leader that
    has committed two writes answers a barrier once one follower has answered a
    message sent after the request. *)

From stdpp Require Import prelude gmap strings sorting.
From S2P Require Import Prelude GoRuntime GoBytes GoFS Record RaftTypes Membership RaftLaws RaftFiles RaftFilesLaws.
From S2P Require Import Core CoreVotes Node Cluster NodeRefine NodeReads StateSafety ReadSafety ClusterSim KvStateMachine SafetySim.
Open Scope Z_scope.

#[local] Existing Instance bit_gob.

Section sim.
Context {S : Type} `{GoRuntime} `{StateMachineLaws S}.
Context (Cfg : Members) (conf : Z → Config) (s0 : S) (compactAt : Z) (peers : option Members).

Abbreviation W := (world raftdisk S).
Abbreviation act := (act Cfg conf s0 compactAt peers).

Definition label_of (a : action) (w : W) : label raftdisk S :=
  match event_at w a with
  | Some (i, ev, _) =>
      match nodes w !! i with
      | Some (Up n) => let '(o, n') := handle ev (n <| replies := [] |> <| net := [] |>) in Ran i ev o n'
      | _ => Other
      end
  | None => Other
  end.

Lemma act_lstep a w w' : act a w = Some w' → lstep Cfg conf s0 compactAt peers w (label_of a w) w'.
Proof.
  assert (∀ i ev resp, event_at w a = Some (i, ev, resp) →
    match nodes w !! i with
    | Some (Up n) =>
        let '(o, n') := handle ev (n <| replies := [] |> <| net := [] |>) in
        Some (ran w i o n' ((PReq i <$> net n') ++ omap (resp ∘ snd) (replies n')))
    | _ => None
    end = Some w' → lstep Cfg conf s0 compactAt peers w (label_of a w) w') as Hev.
  { intros i ev resp He. unfold label_of. rewrite He. destruct (nodes w !! i) as [[n|d]|] eqn:Hi; [|done..].
    destruct (handle ev _) as [o n'] eqn:Hh. intros [= <-]. eapply lstep_event; [done|by eapply event_at_delivers|done]. }
  destruct a as [i|i cmd|i k|i|i r|i ch]; cbn [ClusterSim.act].
  1-3,6: destruct (event_at w _) as [[[j ev] resp]|] eqn:He; [by apply (Hev j ev resp)|done].
  - destruct (nodes w !! i) as [[n|d]|] eqn:Hi; [|done..]. intros [= <-]. by apply lstep_stop.
  - destruct (nodes w !! i) as [[n|d]|] eqn:Hi; [done| |done].
    destruct (NewNode _ _ _ _ _ _) as [o d''] eqn:Hn. intros [= <-]. eapply lstep_boot; [done| |exact Hn].
    split; [split; [done|left; apply crash_power_cut]|]. eapply crash_settled, crash_power_cut.
Qed.

Definition roomy_ok (w : W) : bool :=
  sane_ok w &&
  forallb (λ '(_, st), match st with
    | Up n => (0 <=? appendSeq (nc n)) && (appendSeq (nc n) + Z.of_nat (size Cfg) <? 2 ^ 64) && (readCounter (nc n) <? 2 ^ 64 - 1)
    | Down _ => true end) (map_to_list (nodes w)).

Lemma roomy_ok_roomy w : roomy_ok w = true → roomy Cfg w.
Proof.
  unfold roomy_ok. intros [Hs Hall]%andb_true_iff. split; [by apply sane_ok_sane|]. intros i n Hi.
  apply Is_true_true in Hall. apply forallb_True in Hall. rewrite Forall_forall in Hall.
  specialize (Hall (i, Up n)). rewrite elem_of_map_to_list in Hall. specialize (Hall Hi).
  apply Is_true_true in Hall. zify_bool. split; lia.
Qed.

Fixpoint label_play (l : list action) (w : W) : option (list (label raftdisk S) * W) :=
  match l with
  | [] => Some ([], w)
  | a :: l' => w1 ← act a w; if roomy_ok w1 then '(ls, w') ← label_play l' w1; Some (label_of a w :: ls, w') else None
  end.

Lemma label_play_runs l w ls w' : label_play l w = Some (ls, w') → runs Cfg conf s0 compactAt peers w ls w'.
Proof.
  revert w ls. induction l as [|a l IH]; intros w ls; cbn; [intros [= <- <-]; constructor|].
  destruct (act a w) as [w1|] eqn:Ha; [|done]. cbn. destruct (roomy_ok w1) eqn:Hs; [|done].
  destruct (label_play l w1) as [[ls' w2]|] eqn:Hl; [|done]. cbn. intros [= <- <-].
  econstructor; [by apply act_lstep|by apply roomy_ok_roomy|by apply IH].
Qed.
End sim.

Abbreviation stores_run := (label_play trio trio_conf newStateMachine 2 None).

(** Node 1, which leads, is asked for a barrier; an answer of node 2 to an earlier
    message arrives late, then its answer to one sent for the barrier. *)
Definition read_play : list action := [ARead 1 7; ADeliver 1 14; ADeliver 2 16; ADeliver 1 17].

(** The request for a barrier on channel 7 of node 1. *)
Definition asks (l : label raftdisk stateMachine) : bool :=
  match l with Ran i (evRead ch) _ _ => (i =? 1) && (ch =? 7)%nat | _ => false end.

Lemma asks_ran l : asks l = true → ∃ o n, l = Ran 1 (evRead 7) o n.
Proof.
  destruct l as [i ev o n|]; [|done]. destruct ev; cbn; try done. intros [Hi Hc]%andb_true_iff. apply Nat.eqb_eq in Hc. zify_bool. subst. by exists o, n.
Qed.

(** The last event of the run, if it went well at node 1, and what it replied. *)
Definition last_replies (ls : list (label raftdisk stateMachine)) : option (list (nat * reply)) :=
  match last ls with Some (Ran 1 _ (Ok _) m) => Some (replies m) | _ => None end.

Lemma last_replied ls rs : last_replies ls = Some rs → ∃ ev m, last ls = Some (Ran 1 ev (Ok ()) m) ∧ replies m = rs.
Proof.
  unfold last_replies. destruct (last ls) as [[i ev o m|]|]; [|done..]. destruct i as [|[]|]; try done. destruct o as [[]|e| |]; [|done..].
  intros [= <-]. by exists ev, m.
Qed.

(** What waits at a node. *)
Definition waiting (n : Node raftdisk stateMachine) : list (Z * nat) * list appliedWaiter := (map_to_list (readWaiters n), appliedWaiters n).

Lemma waiting_forgets n ch : waiting n = ([], []) → forgets ch n.
Proof.
  intros [= Hw Ha]. apply map_to_list_empty_iff in Hw. split; [rewrite Hw; intros id; by rewrite lookup_empty|]. rewrite Ha. by intros x ?%elem_of_nil.
Qed.

Definition read_view (l l' : list action) : option (option (list (Z * nat) * list appliedWaiter) * list bool * option (list (nat * reply))) :=
  '(_, w) ← stores_run l (fresh_world [1; 2; 3]); '(ls, _) ← stores_run l' w;
  Some (at_node waiting 1 w, asks <$> ls, last_replies ls).

Lemma read_parts l l' a b r : read_view l l' = Some (a, b, r) →
  ∃ l0 w ls w', stores_run l (fresh_world [1; 2; 3]) = Some (l0, w) ∧ stores_run l' w = Some (ls, w') ∧
    at_node waiting 1 w = a ∧ asks <$> ls = b ∧ last_replies ls = r.
Proof.
  unfold read_view. destruct (stores_run l _) as [[l0 w]|] eqn:E1; [|done]. cbn.
  destruct (stores_run l' w) as [[ls w']|] eqn:E2; [|done]. cbn. intros [= <- <- <-]. by exists l0, w, ls, w'.
Qed.

Lemma read_barrier_safety_witness :
  ∃ l0 w ls w' ev m, stores_run two_writes (fresh_world [1; 2; 3]) = Some (l0, w) ∧ stores_run read_play w = Some (ls, w') ∧
    last ls = Some (Ran 1 ev (Ok ()) m) ∧ replies m = [(7%nat, ReplyRead (inl 3))] ∧
    ∀ j n, nodes w !! j = Some (Up n) → applied n ≤ 3 ≤ applied m ∧
      ∃ log, applied m ≤ zlength log ∧ sm n = replay newStateMachine (ztake (applied n) log) ∧ sm m = replay newStateMachine (ztake (applied m) log).
Proof.
  destruct (read_parts two_writes read_play (Some ([], [])) [true; false; false; false] (Some [(7%nat, ReplyRead (inl 3))])) as (l0 & w & ls & w' & E1 & E2 & Hw & Hls & Hlast); [by vm_compute|].
  destruct (last_replied _ _ Hlast) as (ev & m & Hm & Hrep). destruct (at_node_up _ _ _ _ Hw) as (n & Hn & Hwait).
  exists l0, w, ls, w', ev, m. do 4 (split; [done|]). intros j nj Hj.
  destruct ls as [|l ls]; [discriminate Hls|]. cbn in Hls. injection Hls as Hask Hrest. destruct (asks_ran _ Hask) as (o1 & n1 & ->).
  destruct (read_barrier_safety trio trio_conf newStateMachine 2 None (fresh_world [1; 2; 3]) w w w' l0 [] ls 1 n 7 o1 n1 ev (Ok ()) m 3 j nj) as [Hk Hlog].
  - apply trio_wf.
  - done.
  - apply fresh_world_initial, trio_dom.
  - by eapply label_play_runs.
  - constructor.
  - done.
  - by apply waiting_forgets.
  - by eapply label_play_runs.
  - apply Forall_forall. intros x Hx o' m' ->. apply (list_elem_of_fmap_2 asks) in Hx. rewrite Hrest in Hx. cbn in Hx. clear -Hx. set_solver.
  - done.
  - rewrite Hrep. by left.
  - done.
  - split; [done|by apply Hlog].
Defined.
