(* ===== verification/RepairSim.v ===== *)
(** * Runs of log repair

    Three replicated stores.  A leader just elected repairs the log of a follower
    that has compacted further than itself ([log_repair_terminates] applied).  When
    two requests are refused before the first answer is handled, the leader backs
    up too far: in one run it then sends its snapshot forever, in another its
    request makes the follower halt. *)

From stdpp Require Import prelude gmap strings sorting.
From S2P Require Import Prelude GoRuntime GoBytes GoFS Record Command RaftTypes Membership RaftLaws.
From S2P Require Import RaftFiles RaftFilesLaws Core CoreVotes Node Cluster NodeRefine StateSafety Repair ClusterSim KvStateMachine SafetySim.
Open Scope Z_scope.

#[local] Existing Instance bit_gob.

Lemma some_with {A} (P : A → Prop) (o : option A) :
  match o with Some x => P x | None => False end → ∃ x, o = Some x ∧ P x.
Proof. destruct o; [eauto|done]. Qed.

Abbreviation trio_stores := (sane_steps trio trio_conf newStateMachine 2 None (fresh_world [1; 2; 3])).

Lemma stores_steps l w : stores_play l = Some w → trio_stores w.
Proof. apply sane_play_steps. Qed.

(** The leader 3 and the node 2 of a world. *)
Definition pair_of (w : world raftdisk stateMachine) : option (Node raftdisk stateMachine * Node raftdisk stateMachine) :=
  match nodes w !! 3, nodes w !! 2 with
  | Some (Up n), Some (Up m) => Some (n, m)
  | _, _ => None
  end.

Lemma pair_of_up w n m : pair_of w = Some (n, m) → nodes w !! 3 = Some (Up n) ∧ nodes w !! 2 = Some (Up m).
Proof. unfold pair_of. destruct (nodes w !! 3) as [[|]|], (nodes w !! 2) as [[|]|]; try done. by intros [= -> ->]. Qed.

Lemma ran_pair l (P : Node raftdisk stateMachine → Node raftdisk stateMachine → Prop) :
  match stores_play l ≫= pair_of with Some (n, m) => P n m | None => False end →
  ∃ w n m, trio_stores w ∧ nodes w !! 3 = Some (Up n) ∧ nodes w !! 2 = Some (Up m) ∧ P n m.
Proof.
  destruct (stores_play l) as [w|] eqn:E; [|done]. cbn. destruct (pair_of w) as [[n m]|] eqn:Ep; [|done]. intros HP.
  destruct (pair_of_up _ _ _ Ep). exists w, n, m. split_and!; [by eapply stores_steps|done..].
Qed.

(** ** A repair that ends *)

(** Node 1 leads term 1.  Node 3 compacts through 3, node 2, which misses the last
    entry, through 4.  Node 1 stops and node 3 wins term 2. *)
Definition late_leader : list action :=
  [ABoot 1 []; ABoot 2 []; ABoot 3 []; ATick 1; ADeliver 3 0; ADeliver 1 2; ADeliver 3 3; ADeliver 1 5; ADeliver 3 6; ADeliver 1 8;
   ATick 1; ADeliver 3 9; ADeliver 1 11; APropose 1 (put "a" "1"); ADeliver 3 12; ADeliver 1 14; ATick 1; ADeliver 2 13;
   ADeliver 1 17; APropose 1 (put "b" "2"); ADeliver 2 19; ADeliver 1 20; ATick 1; ADeliver 3 21; ADeliver 1 23;
   APropose 1 (put "c" "3"); ADeliver 2 25; ADeliver 1 26; ATick 1; ADeliver 2 28; ADeliver 3 24; ADeliver 1 30;
   APropose 1 (put "d" "4"); ADeliver 3 31; AStop 1; ATick 2; ATick 3; ADeliver 2 36; ADeliver 3 38; ADeliver 2 39; ADeliver 3 41].

(** Role, term, snapshot, commit and last index. *)
Definition summary (n : Node raftdisk stateMachine) : Role * Z * Z * Z * Z :=
  (role (nc n), term (nc n), snapIndex (nc n), commitIndex (nc n), lastLogIndex (nc n)).

Definition repaired (s : outcome bool * (core raftdisk * core raftdisk)) : option bool * Z * Z :=
  (match s.1 with Ok b => Some b | _ => None end, map_get (matchIndex s.2.1) 2, lastLogIndex s.2.2).

Lemma log_repair_terminates_witness :
  ∃ w n m, trio_stores w ∧ nodes w !! 3 = Some (Up n) ∧ nodes w !! 2 = Some (Up m) ∧
    (summary n = (leader, 2, 3, 4, 6) ∧ summary m = (follower, 2, 4, 4, 4) ∧ repaired (repair 13 2 (nc n, nc m)) = (Some true, 6, 6)) ∧
    wp (repair 13 2) (λ o '(l, f),
      o = Ok true ∧ lastLogIndex l = 6 ∧ map_get (matchIndex l) 2 = 6 ∧ 6 ≤ lastLogIndex f ∧
      ∀ e, e ∈ entries l → snapIndex f < Index e → e ∈ entries f) (nc n, nc m).
Proof.
  destruct (ran_pair late_leader (λ n m, summary n = (leader, 2, 3, 4, 6) ∧ summary m = (follower, 2, 4, 4, 4) ∧
    repaired (repair 13 2 (nc n, nc m)) = (Some true, 6, 6) ∧ matchIndex (nc n) = Some ∅ ∧ map_get (nextIndex (nc n)) 2 = 6 ∧
    (ElectionTicksMin (cfg (nc m)) = 1 ∧ ElectionTicksMax (cfg (nc m)) = 2) ∧ rd_works (disk (nc n)) ∧ rd_works (disk (nc m))))
    as (w & n & m & Hw & Hn & Hm & Sn & Sm & Hrep & Hmi & Hnx & [Hmin Hmax] & Hworks); [by vm_compute|].
  exists w, n, m. do 4 (split; [done|]). injection Sn as Hl Ht _ _ Hlast. injection Sm as _ Ht' _ Hc _.
  eapply wp_mono; [apply (log_repair_terminates trio trio_conf newStateMachine 2 None (fresh_world [1; 2; 3]) w 3 n 2 m ∅ 13 trio_wf (λ _ _, eq_refl)
    (fresh_world_initial trio [1; 2; 3] trio_dom) Hw Hn Hm); try done; lia|].
  intros o [l f]. destruct o as [b|e| |]; [|by intros []..]. intros (-> & Hll & Hgot). destruct (Hgot Hworks) as (Hmx & Hle & Hes).
  rewrite Hlast in Hll. rewrite Hll in *. done.
Defined.

(** ** A repair that does not end *)

(** A heartbeat follows before the first request is answered, and node 2 refuses
    both; the second refusal makes node 3 ask about an entry that node 2 has
    compacted.  Node 2 acknowledges everything, then refuses that request.  Then
    node 3 is given one more write. *)
Definition two_refusals : list action :=
  late_leader ++
  [ATick 3; ADeliver 2 42; ADeliver 2 44; ADeliver 3 46; ADeliver 3 47; ADeliver 2 48; ADeliver 3 50; ADeliver 2 49; ADeliver 3 51;
   ADeliver 2 52; ADeliver 3 53; APropose 3 (put "e" "5")].

(** The leader [l] has the snapshot [req] on its way to node 2 and, on the
    acknowledgement, is where it was. *)
Definition resends (req : InstallSnapshotRequest) (l : core raftdisk) : Prop :=
  outbox l = [OutInstallSnapshot 2 req] ∧
  handleInstallSnapshotResponse 2 req (mkISR (is_term req)) (taken l) = (Ok (), l).

(** A follower that is already past the snapshot only answers. *)
Definition ignores (req : InstallSnapshotRequest) (f : core raftdisk) : Prop :=
  term f = is_term req ∧ is_lastIncludedIndex req ≤ snapIndex f ∧ timed f.

Lemma ignores_ok req (f : core raftdisk) :
  ignores req f →
  wp (handleInstallSnapshot req) (λ o f', o = Ok (mkISR (is_term req)) ∧ ignores req f' ∧ body f' = body f) f.
Proof.
  intros (Ht & Hs & Htm). unfold handleInstallSnapshot. apply wp_bind, wp_get. cbn [wpk]. rewrite Ht, Z.ltb_irrefl.
  apply wp_bind, wp_ret. cbn [wpk]. apply wp_bind, wp_get. cbn [wpk]. rewrite Ht, Z.ltb_irrefl.
  apply wp_bind. eapply wp_mono; [by apply recognize_leader_ok|]. intros o f' (-> & Hb & _ & Ht'). cbn [wpk].
  apply wp_bind, wp_get. cbn [wpk]. cbv zeta.
  pose proof (body_eq _ _ Hb) as (_ & Hsi & _ & _ & _ & Hcf).
  rewrite (proj2 (orb_true_iff _ _)) by (left; apply Z.leb_le; lia). apply wp_ret. rewrite Ht', Ht. split_and!; [done| |done].
  unfold ignores, timed in *. rewrite Hsi, Hcf. split_and!; [congruence|done|done].
Qed.

Lemma resends_forever req fuel (l f : core raftdisk) :
  resends req l → ignores req f →
  wp (catch_up fuel 2) (λ o s, o = Ok false ∧ s.1 = taken l ∧ body s.2 = body f) (l, f).
Proof.
  intros [Hout Hback]. revert f. induction fuel as [|fuel IH]; intros f Hf.
  all: cbn [catch_up]; apply wp_bind, wp_zoom; unfold takeOutbox; apply wp_bind, wp_get; cbn [wpk];
    apply wp_bind, wp_modify; cbn [wpk]; apply wp_ret; cbn [wpk fst]; rewrite Hout; cbn [filter list_filter for_peer].
  { by apply wp_ret. }
  apply wp_bind. cbn [exchange]. apply wp_bind, wp_zoom. eapply wp_mono; [by apply ignores_ok|].
  intros o f' (-> & Hf' & Hb). change (body f' = body f) in Hb. cbn [wpk]. apply wp_zoom. unfold wp. change (((l, f) <| fst := _ |> <| snd := f' |>).1) with (taken l).
  rewrite Hback. cbn [fst snd wpk]. eapply (wp_mono _ _ _ (l, f') (IH f' Hf')). intros o s (? & ? & ?). split_and!; [done|done|congruence].
Qed.

(** Reading the snapshot leaves the disk as it is. *)
Lemma loadSnapshot_same (d : raftdisk) : faults (rfs d) = [] → (loadSnapshot d).2 = d.
Proof.
  destruct d as [st d]. cbn [rfs]. intros Hf.
  unfold loadSnapshot, raft_files, in_dir, loadRaftSnapshot, zoom, attempt, ReadFile, sys, mbind, M_bind, gets. cbn [rfs].
  rewrite Hf. by destruct (file _ _).
Qed.

(** The leader has an acknowledgement that covers its snapshot, but is going to
    send the snapshot. *)
Record wedged (s : raftSnapshot) (l : core raftdisk) : Prop := {
  wg_role : role l = leader;
  wg_faults : faults (rfs (disk l)) = [];
  wg_load : (loadSnapshot (disk l)).1 = Ok s;
  wg_next : 0 < map_get (nextIndex l) 2 ≤ snapIndex l;
  wg_last : snapIndex l ≤ lastLogIndex l;
  wg_match : lastIndex s ≤ map_get (matchIndex l) 2
}.

Definition snapshot_request (s : raftSnapshot) (l : core raftdisk) : InstallSnapshotRequest :=
  mkIS (term l) (ID (cfg l)) (lastIndex s) (lastTerm s) (data s) (encodeMembers (default ∅ (config s))).

Lemma wedged_sends s l :
  wedged s l → sendAppend 2 l = (Ok (), l <| outbox ::= λ q, q ++ [OutInstallSnapshot 2 (snapshot_request s l)] |>).
Proof.
  intros [Hr Hf Hl Hn Hla Hm]. pose proof (loadSnapshot_same (disk l) Hf) as Hd.
  unfold sendAppend, get, mbind, M_bind. rewrite (proj2 (Z.eqb_neq _ _)), (proj2 (Z.leb_le _ _)) by lia.
  unfold attempt, zoom. destruct (loadSnapshot (disk l)) as [o d]. cbn [fst snd] in *. subst o d.
  unfold send, modify. by destruct l.
Qed.

Lemma wedged_resends s l :
  wedged s l → outbox l = [] → resends (snapshot_request s l) (l <| outbox := [OutInstallSnapshot 2 (snapshot_request s l)] |>).
Proof.
  intros Hw Ho. split; [done|].
  assert (taken (l <| outbox := [OutInstallSnapshot 2 (snapshot_request s l)] |>) = l) as -> by (destruct l; cbn in *; by subst).
  pose proof Hw as [Hr Hf Hl Hn Hla Hm]. unfold handleInstallSnapshotResponse, get, mbind, M_bind. cbn [isr_term is_term snapshot_request is_lastIncludedIndex].
  rewrite Z.ltb_irrefl, Hr, Z.eqb_refl, bool_decide_eq_true_2 by done. cbn [negb orb]. rewrite (proj2 (Z.ltb_ge _ _)) by lia.
  cbn [mret M_ret]. rewrite (proj2 (Z.leb_le _ _)) by lia. rewrite (wedged_sends s l Hw). destruct l; cbn in *; by subst.
Qed.

Lemma repair_starts fuel j (l l1 f : core raftdisk) :
  sendAppend j (taken l) = (Ok (), l1) → repair fuel j (l, f) = catch_up fuel j (l1, f).
Proof.
  intros Hs. unfold repair, mbind at 1, M_bind at 1.
  assert (zoom fst takeOutbox (l, f) = (Ok (outbox l), (taken l, f))) as -> by reflexivity.
  unfold mbind at 1, M_bind at 1. assert (zoom fst (sendAppend j) (taken l, f) = (Ok (), (l1, f))) as ->; [|done].
  unfold zoom. cbn [fst]. by rewrite Hs.
Qed.

Definition wedged_pair (n m : Node raftdisk stateMachine) : Prop :=
  summary n = (leader, 2, 6, 6, 7) ∧ summary m = (follower, 2, 6, 6, 6) ∧
  faults (rfs (disk (nc n))) = [] ∧ (lastIndex <$> (match (loadSnapshot (disk (nc n))).1 with Ok s => Some s | _ => None end)) = Some 6 ∧
  map_get (nextIndex (nc n)) 2 = 1 ∧ map_get (matchIndex (nc n)) 2 = 6 ∧
  ElectionTicksMin (cfg (nc m)) = 1 ∧ ElectionTicksMax (cfg (nc m)) = 2.

(** C39: Log repair can fail to terminate.  In the run above, on disks without
    faults and with two of three nodes running and every message between them
    delivered, the leader, node 3, has entry 7 to replicate, which node 2 does not have;
    but however many messages they exchange, the leader only sends the same
    snapshot again, and neither the follower's log nor the leader's commit index
    changes.  (The leader has lowered nextIndex below the acknowledged matchIndex on a
    refusal, and an acknowledged snapshot no newer than matchIndex does not raise it.) *)
Theorem stale_refusals_wedge :
  ∃ w n m, trio_stores w ∧ nodes w !! 3 = Some (Up n) ∧ nodes w !! 2 = Some (Up m) ∧
    summary n = (leader, 2, 6, 6, 7) ∧ summary m = (follower, 2, 6, 6, 6) ∧
    ∀ fuel, let '(o, (l, f)) := repair fuel 2 (nc n, nc m) in
      o = Ok false ∧ lastLogIndex f = 6 ∧ commitIndex l = 6.
Proof.
  destruct (ran_pair two_refusals wedged_pair) as (w & n & m & Hw & Hn & Hm & Sn & Sm & Hf & Hs & Hnx & Hmx & Hmin & Hmax); [by vm_compute|].
  exists w, n, m. do 5 (split; [done|]). intros fuel. injection Sn as Hr Ht Hsi Hc Hla. injection Sm as _ Ht' Hsi' _ Hla'.
  destruct (loadSnapshot (disk (nc n))) as [[s|e| |] d] eqn:Hld; try done. cbn in Hs. injection Hs as Hs.
  assert (wedged s (taken (nc n))) as Hwg.
  { split; cbn [taken]; try done; [change (disk (taken (nc n))) with (disk (nc n)); by rewrite Hld|..].
    - change (0 < map_get (nextIndex (nc n)) 2 ≤ snapIndex (nc n)). lia.
    - change (snapIndex (nc n) ≤ lastLogIndex (nc n)). lia.
    - change (lastIndex s ≤ map_get (matchIndex (nc n)) 2). lia. }
  assert (ignores (snapshot_request s (taken (nc n))) (nc m)) as Hig by (split_and!; cbn; [congruence|lia|unfold timed; lia]).
  pose proof (resends_forever _ fuel _ (nc m) (wedged_resends s _ Hwg eq_refl) Hig) as Hgo.
  rewrite (repair_starts fuel 2 _ _ (nc m) (wedged_sends s _ Hwg)).
  destruct (catch_up _ _ _) as [o [l f]] eqn:E. eapply wp_elim in Hgo; [|exact E].
  destruct Hgo as (-> & Hl & Hb). apply body_eq in Hb as (He & Hsf & _). cbn [fst snd] in *. subst l.
  split; [done|]. unfold lastLogIndex in *. rewrite He, Hsf. done.
Qed.

(** ** A repair that stops the follower *)

(** Node 2 has committed and compacted two entries; node 3, which has them but does
    not know that they are committed, wins term 2, loses power, and wins term 3.
    Again two requests are refused before the first answer arrives. *)
Definition refusals_uncommitted : list action :=
  [ABoot 1 []; ABoot 2 []; ABoot 3 []; ATick 1; ADeliver 2 1; ADeliver 1 2; ADeliver 2 4; ADeliver 1 5; APropose 1 (put "a" "1");
   ADeliver 2 9; ADeliver 3 8; ADeliver 1 10; ATick 1; ADeliver 2 13; AStop 1; ATick 2; ATick 3; ADeliver 2 17; ADeliver 3 19;
   ADeliver 2 20; ADeliver 3 22; AStop 3; ABoot 3 []; ATick 2; ATick 3; ADeliver 2 27; ADeliver 3 29; ADeliver 2 30; ADeliver 3 32;
   ATick 3; ADeliver 2 33; ADeliver 2 35; ADeliver 3 37; ADeliver 3 38; ADeliver 2 40; ADeliver 3 41].

(** How node [i] ends when it is given the [k]-th message of the network. *)
Definition end_of (i : Z) (k : nat) (w : world raftdisk stateMachine) : option (outcome ()) :=
  '(_, ev, _) ← event_at w (ADeliver i k);
  match nodes w !! i with Some (Up n) => Some (handle ev n).1 | _ => None end.

Definition truncates_committed : error := EMsg "raft: leader tried to truncate committed entry %d (commit %d)".

Lemma halted_run :
  (λ w, ((λ '(n, m), (summary n, summary m, faults (rfs (disk (nc m))))) <$> pair_of w, end_of 2 42 w)) <$>
    stores_play refusals_uncommitted =
  Some (Some ((leader, 3, 0, 0, 4), (follower, 3, 2, 2, 2), []), Some (Err truncates_committed)).
Proof. by vm_compute. Qed.

(** C40: Stale refusals can stop a healthy follower.  In the run above the leader
    asks node 2, whose disk has no faults, for the log from the very start; node 2
    has compacted that entry, takes it for a conflict below its commit index, and
    its event loop ends with the error that is meant for a corrupt cluster. *)
Theorem stale_refusals_halt :
  ∃ w n m, trio_stores w ∧ nodes w !! 3 = Some (Up n) ∧ nodes w !! 2 = Some (Up m) ∧
    summary n = (leader, 3, 0, 0, 4) ∧ summary m = (follower, 3, 2, 2, 2) ∧ faults (rfs (disk (nc m))) = [] ∧
    end_of 2 42 w = Some (Err truncates_committed).
Proof.
  pose proof halted_run as (w & Hw & Hrun)%fmap_Some.
  pose proof (eq_sym (f_equal fst Hrun)) as Hp. pose proof (eq_sym (f_equal snd Hrun)) as He.
  apply fmap_Some in Hp as ([n m] & Hp & Hs). destruct (pair_of_up _ _ _ Hp) as [Hn Hm].
  exists w, n, m. split; [exact (stores_steps _ _ Hw)|]. split; [exact Hn|]. split; [exact Hm|].
  split; [exact (eq_sym (f_equal (λ x, x.1.1) Hs))|]. split; [exact (eq_sym (f_equal (λ x, x.1.2) Hs))|].
  split; [exact (eq_sym (f_equal snd Hs))|exact He].
Qed.
